(* ===== verification/_CoqProject ===== *)
-Q . S2P
Prelude.v
Types.v
ObjectPool.v
OrderBook.v
PriceTime.v
OrderBookProofs.v
BookProperties.v
SpscRing.v
BroadcastRing.v
RaMemory.v
RaRing.v
SpscRa.v
FeedRa.v
BcastRa.v
DrainRa.v
Consumer.v
Sequencer.v
MatchingEngine.v
EngineProofs.v
EngineProperties.v
Protocol.v
Session.v
Gateway.v
GatewayProofs.v
GatewayConn.v
GatewayPoll.v
Wal.v
WalCrash.v
WalFaults.v
Db.v
DbFaults.v
DbHandle.v
Lifecycle.v
System.v
Threads.v
Process.v
ProcessProofs.v
FairRun.v
ProcessProgress.v
ProcessProperties.v
ProcessLive.v
Typing.v
GatewayIO.v
Float.v
Text.v
GatewayMain.v
Rounding.v
Monotone.v
Timer.v
Stamps.v
Histogram.v
Results.v
Feed.v
Strategy.v
Pipeline.v
Programs.v
Supervisor.v
Conformance.v
