(* ===== verification/Prelude.v ===== *)
(** * hft_lob: a verification of the order book and its trading pipeline

    This library models the C++ program under [src/] (headers in [include/],
    executables in [src/]) and proves what makes it correct.

    ** The program

    Clients speak a binary protocol to [gateway_server.hpp]: bytes become frames
    ([frame_reader.hpp], [gateway_protocol.hpp]), a session tracks sequence
    numbers and heartbeats ([session_state.hpp]), and orders and cancels become
    events on a single-producer single-consumer queue ([spsc_ring_buffer.hpp]).
    [sequencer.hpp] merges the input queues into one numbered stream on a
    broadcast ring ([broadcast_ring.hpp]) that three consumers read at their own
    pace: the matching engine ([matching_engine_consumer.hpp], which owns the
    limit order book of [order_book.hpp] on top of [object_pool.hpp]), the
    write-ahead log ([wal_consumer.hpp]) and the database ([db_consumer.hpp]).
    The engine's acks return to the gateway through another queue.
    [gateway_main.cpp] starts and stops all of it.  Two further programs use the
    book with a market maker ([strategy.hpp]), a calibrated clock ([timer.hpp])
    and a latency histogram ([latency_histogram.hpp]) whose summary is appended
    to a file ([results.hpp]): [main.cpp] in one process, and
    [engine_subscriber.cpp] fed by [feed_publisher.cpp] over UDP, both with the
    market data of [market_data_feed.hpp] and [wire_format.hpp], watched by
    [supervisor.cpp].

    ** The files

    - [Prelude]: machine integers, C++ arrays, shared list lemmas, tactics and
      hint databases.
    - [Types]: [types.hpp], [event.hpp], [outbound_ack.hpp].
    - [ObjectPool]: the free list of [object_pool.hpp]; it refines a finite heap.
    - [OrderBook]: [order_book.hpp] operation by operation, on pool pointers,
      price levels and the id index.  [PriceTime] is the abstract specification
      (two lists in price-time priority), [OrderBookProofs] the refinement and
      [BookProperties] the properties of reachable books.
    - [SpscRing], [BroadcastRing]: the two lock-free structures, once as
      operations that implement an interface ([Fifo], [Broadcast]) and once as
      interleaving threads at the granularity of atomic accesses.  [RaMemory] is a
      memory with the release/acquire orders the source asks for, in which loads
      may be stale and unordered slot accesses are races; [RaRing] the invariant
      of a ring on it, [SpscRa] and [BcastRa] the two rings' accesses on it, and
      [FeedRa] and [DrainRa] the flags around them: the end of the feed in
      [main.cpp] and the shutdown of the consumers in [gateway_main.cpp].
    - [Sequencer]: the merging thread as a step function, and the system of
      producers, thread and consumers as a step relation, over any [Fifo] and
      [Broadcast].
    - [Consumer]: the loop shared by the three consumers, proved once.
    - [MatchingEngine], [EngineProofs], [EngineProperties]: the engine over any
      [AckSink], its invariant, and what it reports.
    - [Protocol]: wire messages, byte encodings and the frame reader; [Session]:
      sequence numbers and session life; [Gateway], [GatewayProofs]: the event
      loop over any [Sockets], in a monad that separates undefined behaviour
      from missing fuel; [GatewayConn]: heartbeats, logging on, reused
      descriptors and what reaches the wire when [send] takes only a part;
      [GatewayPoll]: one whole poll, from the bytes that arrive to the events
      that are pushed.
    - [Wal], [Db]: the two persistent consumers; [Db] is over any [Sqlite],
      each call of which may fail.  [DbFaults]: the rows of the database then;
      [DbHandle]: the calls themselves, with the handles, statements and
      transactions they need.  [WalCrash]: the bytes of the log in the buffer of
      the process, the cache of the system and on the disk, call by call, with the
      process killed or the power lost at any point; [WalFaults]: the same when any
      of the calls may fail.
    - [Lifecycle]: [start], [stop] and the destructors of the four classes that own
      a thread, and [main] as the sequence of these calls on every path, with
      the exceptions that end the process.
    - [System]: start-up of [gateway_main.cpp] and the state it leaves.
    - [Threads]: the three consumer threads one shared access at a time;
      [Process]: all five threads of the gateway process interleaved, from the
      end of start-up to the return of [main]; [ProcessProofs] the invariant,
      [ProcessProgress] the measure that every fair run lowers, by the proof rule
      of [FairRun], [ProcessProperties] the theorems, [ProcessLive] that no
      accepted order is left behind.  [Typing] shows that values stay within
      their C++ types, [GatewayIO] that the gateway's own code is a part of [Process]
      and which one, and
      [GatewayMain] how the process starts, with every early return.
    - [Float]: binary64 on the Standard Library's specification of it, with the
      conversions of C++; [Rounding]: the error of one operation; [Monotone]: its
      exact value, and that rounding keeps the order; [Text]: reading and printing
      numbers.
    - [Stamps]: [Sequencer::now_ns] in floating point, on the stream of [Process].
    - [Timer], [Histogram], [Results], [Feed], [Strategy], [Pipeline], [Programs],
      [Supervisor]: the stand-alone programs, from their arguments to what they
      print and append to the results file, and what they use.
    - [Conformance]: the test functions of [tests/], run on the model.

    ** How the code is modelled

    Integers are [Z] with the wrap-around of their width written out.  [None] in
    the option monad is undefined behaviour (an access outside an array, a
    dangling pointer, signed overflow) or an uncaught exception, so that a
    theorem that an operation returns [Some] is a safety theorem.  Pointers are
    offsets into the pool's storage; [std::map], [std::unordered_map] and
    [std::vector] are sorted association lists, [gmap] and lists.  Clock
    readings, random draws and the results of system calls are arguments or
    class parameters.  Classes for outside code ([Sockets], [Sqlite]) have no laws;
    what a theorem relies on is a class of its own that states documented
    behaviour: [SocketsLaws], [ClientStreams] (what [recv] delivers),
    [ByteStream] (what [send] takes), [SteadyClock] (a clock that does not go
    back), [SqliteFaultLaws] (a call succeeds or fails, and a failure may roll the
    transaction back), [SqliteKeyLaws] (a primary key).  Every theorem over them has
    a witness at a concrete instance.

    Loops that are not structural take fuel.  The bounds are proved sufficient:
    [match_against] runs on one more than the number of levels and
    [match_level] on one more than its orders; [consumer_run] takes the pass in
    which the flag is seen low, and one more than the stream for the final
    drain; [dispatch_frames] one more than the bytes buffered (every frame is at
    least seven bytes); [drain_acks] one more than the queue;
    [highest_bit] 64 rounds for a 64-bit value; [dec] one digit more than the
    binary length; [calib_spin] as many readings as the clock needs to show
    100 ms.  [poll_once] takes fuel for [recv]; [enough] is more than the reads that
    the clients' data can still fill, and with that, and more than the acks that
    wait, a poll returns.  That the interleaved process finishes is shown without fuel, by a well-founded lexicographic
    measure.

    ** What is proved

    - The book refines price-time priority, returns on every call, is never
      crossed, conserves quantity and keeps arrival order; the pool refines a
      heap.
    - The two rings are linearizable under every interleaving, refine a bounded
      queue and an append-only log, and need no more than the release/acquire
      orders of the code: stale cursors lose nothing, no two accesses to a slot
      race, the engine never stops before the end of the feed, and the final
      drain of a consumer is complete.
    - The sequencer publishes one gap-free order of which every consumer sees a
      prefix, keeps each producer's order, and serves producers fairly; its timestamps
      never decrease, in spite of the rounding.
    - The engine reports every fill to both parties in the right amounts,
      isolates sessions, and what it accepts can be cancelled.
    - Framing does not depend on how TCP cuts the stream, messages survive the
      wire, gaps are reported exactly, orders become events in order, and acks
      reach their owner.
    - The log of a process that was killed reads as a prefix of what was logged;
      a power failure can spoil only what was not synced, and so can a disk that
      fails.  Whatever SQLite refuses, the rows that are missing were reported, or
      the thread ends at the next commit; every call is made where SQLite allows
      it, a transaction that was rolled back apart, and every handle is given back.
    - However the five threads of the gateway process interleave and whatever
      SQLite refuses, when [main] returns, log and engine hold the same history,
      the log rebuilds the engine, the database holds it but for the rows that were
      reported, and every ack is accounted for; no thread runs into undefined
      behaviour; under every fair scheduler all accepted orders are processed and
      reported and the shutdown completes, unless a refused [COMMIT] or [BEGIN]
      ends the process.  Every value fits its type from socket to socket.
    - A poll of the gateway is a run of that process, whose pushes are the events
      of the frames that arrived and whose pops are the acks that waited.  A
      process that cannot listen leaves both files as they were.  On every path
      [main] joins its threads before their owners go, or an exception ends it.
    - The in-process pipeline loses no order in any interleaving; what the UDP
      subscriber counts as lost is stated exactly; both are followed from the
      command line to the row in the results file, every column of which reads
      back.  The market maker replaces its quotes, never trades with the book and
      never overflows; percentiles have the right rank and the clock is accurate to
      2 ns, floating point included; the supervisor terminates, but for a
      subscriber that it restarts after the end of the feed.
    - Where the code falls short the theorem says so: [client_id_reuse_strands_order],
      [engine_pool_full_ack], [gateway_logout_dangles],
      [gateway_fd_reuse_misroutes], [gateway_partial_send_desyncs],
      [wal_torn_restart], [wal_failure_silent], [supervisor_restart_hangs],
      [process_shutdown_drops_order], [best_bid_quantity_wraps],
      [db_duplicate_seq_lost], [late_registration_stale], [dropped_miscounts],
      [gateway_threads_joined].

    ** What is not modelled

    Weak memory beyond the rings and the flags that end the loops around them:
    [Sequencer], [Pipeline] and [Process] interleave the operations of the rings
    and the accesses to the flags sequentially consistently. Progress messages
    on the console, socket options and pauses, whose results the code ignores.
    The Python bridge, the browser interface, the scripts and the
    files that CMake generates. *)

From stdpp Require Export base gmap list sorting strings pretty.
From Stdlib Require Export ZArith Lia.
From Stdlib Require Import Zquot.

Create HintDb words.
Create Rewrite HintDb words.
Create HintDb wf.

#[export] Set Default Goal Selector "!".
#[export] Set Warnings "-clear-no-such-hyp".

(** ** Machine integers

    A fixed-width C++ integer is a [Z]; every arithmetic operation that the
    source performs at a given width is followed by the wrap-around of that
    width. *)

Definition wrap_unsigned (w z : Z) : Z := z mod 2 ^ w.
Definition wrap_signed (w z : Z) : Z := (z + 2 ^ (w - 1)) mod 2 ^ w - 2 ^ (w - 1).

Abbreviation u8 := (wrap_unsigned 8).
Abbreviation u16 := (wrap_unsigned 16).
Abbreviation u32 := (wrap_unsigned 32).
Abbreviation u64 := (wrap_unsigned 64).
Abbreviation i32 := (wrap_signed 32).
Abbreviation i64 := (wrap_signed 64).

Definition fits_unsigned (w z : Z) : Prop := (0 ≤ z < 2 ^ w)%Z.
Definition fits_signed (w z : Z) : Prop := (- 2 ^ (w - 1) ≤ z < 2 ^ (w - 1))%Z.

Abbreviation is_u8 := (fits_unsigned 8).
Abbreviation is_u16 := (fits_unsigned 16).
Abbreviation is_u32 := (fits_unsigned 32).
Abbreviation is_u64 := (fits_unsigned 64).
Abbreviation is_i32 := (fits_signed 32).
Abbreviation is_i64 := (fits_signed 64).

(** Linear arithmetic on integers with a width. *)
Ltac word_lia := unfold fits_unsigned, fits_signed in *; lia.

Lemma wrap_unsigned_id w z : fits_unsigned w z → wrap_unsigned w z = z.
Proof. apply Z.mod_small. Qed.

Lemma wrap_unsigned_fits w z : (0 ≤ w)%Z → fits_unsigned w (wrap_unsigned w z).
Proof. intros Hw. apply Z.mod_pos_bound, Z.pow_pos_nonneg; lia. Qed.

Lemma wrap_unsigned_add_l w a b :
  wrap_unsigned w (wrap_unsigned w a + b) = wrap_unsigned w (a + b).
Proof. apply Zplus_mod_idemp_l. Qed.

Lemma wrap_signed_id w z : (0 < w)%Z → fits_signed w z → wrap_signed w z = z.
Proof.
  intros Hw [Hlo Hhi]. unfold wrap_signed.
  assert (2 ^ w = 2 * 2 ^ (w - 1))%Z as Hd.
  { rewrite <-Z.pow_succ_r by lia. f_equal. lia. }
  rewrite Z.mod_small by lia. lia.
Qed.

(** [unwrap] removes every wrap-around whose argument is in range. *)
#[export] Hint Rewrite wrap_unsigned_id wrap_signed_id using word_lia : words.
#[export] Hint Resolve wrap_unsigned_fits : words.

Ltac unwrap := autorewrite with words.

(** ** Arrays with C++ indexing

    [arr[i]] with an integer index: reading or writing outside the array is
    undefined behaviour, which the model makes visible as [None]. *)

Definition array_get {A} (l : list A) (i : Z) : option A :=
  if (0 <=? i)%Z then l !! Z.to_nat i else None.

Definition array_set {A} (l : list A) (i : Z) (x : A) : option (list A) :=
  if ((0 <=? i) && (i <? Z.of_nat (length l)))%Z
  then Some (<[Z.to_nat i := x]> l) else None.

Declare Scope cpp_scope.
Delimit Scope cpp_scope with cpp.
Notation "l .[ i ]" := (array_get l i) (at level 1, left associativity, format "l .[ i ]") : cpp_scope.
Notation "l .[ i <- x ]" := (array_set l i x)
  (at level 1, left associativity, format "l .[ i  <-  x ]") : cpp_scope.

Lemma array_get_nat {A} (l : list A) (i : nat) : array_get l (Z.of_nat i) = l !! i.
Proof.
  unfold array_get. rewrite (proj2 (Z.leb_le 0 _)) by lia. by rewrite Nat2Z.id.
Qed.

Lemma array_set_nat {A} (l : list A) (i : nat) x :
  i < length l → array_set l (Z.of_nat i) x = Some (<[i := x]> l).
Proof.
  intros Hi. unfold array_set.
  rewrite (proj2 (Z.leb_le 0 _)), (proj2 (Z.ltb_lt _ _)) by lia.
  cbn. by rewrite Nat2Z.id.
Qed.

(** ** Sums of integers over a list *)

Fixpoint sumZ {A} (f : A → Z) (l : list A) : Z :=
  match l with [] => 0 | x :: l' => f x + sumZ f l' end.

Lemma sumZ_app {A} (f : A → Z) l1 l2 : sumZ f (l1 ++ l2) = (sumZ f l1 + sumZ f l2)%Z.
Proof. induction l1 as [|x l1 IH]; cbn; [done|]. rewrite IH. lia. Qed.

Lemma sumZ_nonneg {A} (f : A → Z) l :
  Forall (λ x, 0 ≤ f x)%Z l → (0 ≤ sumZ f l)%Z.
Proof. induction 1; cbn; lia. Qed.

(** ** Lists *)

Lemma Forall_filter_2 {A} (Q P : A → Prop) `{∀ x, Decision (P x)} l :
  Forall Q l → Forall Q (filter P l).
Proof.
  rewrite !Forall_forall. intros Hl x [_ Hx]%list_elem_of_filter. auto.
Qed.

Lemma StronglySorted_fmap_filter {A B} (R : relation B) (f : A → B) (P : A → Prop)
    `{∀ x, Decision (P x)} l :
  StronglySorted R (f <$> l) → StronglySorted R (f <$> filter P l).
Proof.
  induction l as [|x l IH]; [done|]. rewrite fmap_cons. intros Hs.
  inversion Hs as [|? ? Hs' Hall]; subst.
  rewrite filter_cons. case_decide; [|auto]. cbn. constructor; [auto|].
  rewrite Forall_forall in Hall |- *. intros y (z & -> & Hz)%list_elem_of_fmap.
  apply list_elem_of_filter in Hz as [_ Hz]. apply Hall, list_elem_of_fmap. eauto.
Qed.

Lemma filter_all {A} (P : A → Prop) `{∀ x, Decision (P x)} l :
  Forall P l → filter P l = l.
Proof. induction 1; [done|]. rewrite filter_cons_True by done. congruence. Qed.

Lemma filter_none {A} (P : A → Prop) `{∀ x, Decision (P x)} l :
  Forall (λ x, ¬ P x) l → filter P l = [].
Proof. induction 1; [done|]. by rewrite filter_cons_False by done. Qed.

Lemma filter_ext_in {A} (P Q : A → Prop) `{∀ x, Decision (P x), ∀ x, Decision (Q x)} (l : list A) :
  (∀ x, x ∈ l → P x ↔ Q x) → filter P l = filter Q l.
Proof.
  induction l as [|x l IH]; intros Hext; [done|]. rewrite !filter_cons.
  rewrite IH by (intros y Hy; apply Hext; by right).
  specialize (Hext x ltac:(by left)). repeat case_decide; tauto.
Qed.

(** ** Power-of-two rings

    Both ring buffers replace [i % Capacity] by [i & (Capacity - 1)], which is
    what [static_assert((Capacity & (Capacity - 1)) == 0)] is for.  The bound on
    the exponent says that 64-bit indices can count the slots. *)

Definition pow2_capacity (Capacity : nat) : Prop :=
  ∃ k, (0 ≤ k < 64)%Z ∧ Z.of_nat Capacity = (2 ^ k)%Z.

Section Pow2.
Context (Capacity : nat) (Hpow : pow2_capacity Capacity).

Lemma capacity_pos : 0 < Capacity.
Proof. destruct Hpow as (k & Hk & HC). pose proof (Z.pow_pos_nonneg 2 k). lia. Qed.

Lemma capacity_u64 : (Z.of_nat Capacity < 2 ^ 64)%Z.
Proof. destruct Hpow as (k & Hk & ->). apply Z.pow_lt_mono_r; lia. Qed.

Lemma ring_slot_bound n : n `mod` Capacity < Capacity.
Proof. apply Nat.mod_upper_bound. pose proof capacity_pos. lia. Qed.

Lemma land_mask z : Z.land z (Z.of_nat Capacity - 1) = (z mod Z.of_nat Capacity)%Z.
Proof.
  destruct Hpow as (k & Hk & HC). rewrite HC.
  replace (2 ^ k - 1)%Z with (Z.ones k) by (rewrite Z.ones_equiv; lia).
  apply Z.land_ones. lia.
Qed.

Lemma land_mask_nat n :
  Z.land (Z.of_nat n) (Z.of_nat Capacity - 1) = Z.of_nat (n `mod` Capacity).
Proof. by rewrite land_mask, Nat2Z.inj_mod. Qed.

(** Counters that are less than a capacity apart and equal modulo it are equal. *)
Lemma mod_eq_near (i j : nat) :
  i `mod` Capacity = j `mod` Capacity → i ≤ j → j - i < Capacity → i = j.
Proof.
  pose proof capacity_pos. intros Hm Hle Hlt.
  pose proof (Nat.div_mod_eq i Capacity) as Hi. pose proof (Nat.div_mod_eq j Capacity) as Hj.
  rewrite Hm in Hi. pose proof (Nat.Div0.div_le_mono i j Capacity Hle) as Hdiv.
  destruct (decide (i `div` Capacity = j `div` Capacity)) as [Heq|Hne]; [rewrite Heq in Hi; lia|].
  assert (Capacity * S (i `div` Capacity) ≤ Capacity * (j `div` Capacity)); [|lia].
  apply Nat.mul_le_mono_l. lia.
Qed.

End Pow2.

Lemma pow2_capacity_2 : pow2_capacity 2.
Proof. exists 1%Z. lia. Qed.

(** ** Executing a schedule

    A step relation together with a function that performs a named step: what the
    function runs through is reachable. *)
Section Schedule.
Context {A S : Type} (exec : A → S → option S) (step : relation S).

Definition run_acts (acts : list A) (s : S) : option S := foldl (λ o a, s ← o; exec a s) (Some s) acts.

Hypothesis exec_sound : ∀ a s s', exec a s = Some s' → step s s'.

Lemma run_acts_rtc acts s s' : run_acts acts s = Some s' → rtc step s s'.
Proof.
  unfold run_acts. revert s'. induction acts as [|a acts IH] using rev_ind; intros s'.
  - intros [= <-]. apply rtc_refl.
  - rewrite foldl_app. cbn [foldl]. destruct (foldl _ _ _) as [s1|]; cbn [mbind option_bind]; [|done].
    intros Hs%exec_sound. eapply rtc_r; [by apply IH|done].
Qed.

(** [f] is what one wants to know of the state at the end. *)
Lemma run_acts_reach {B} (f : S → B) acts s v : f <$> run_acts acts s = Some v → ∃ s', rtc step s s' ∧ f s' = v.
Proof. intros (s' & Hrun & ->)%fmap_Some. exists s'. split; [by eapply run_acts_rtc|done]. Qed.
End Schedule.
