(* ===== verification/Types.v ===== *)
(** * Types: the shared vocabulary

    The data types of [include/types.hpp], [include/event.hpp],
    [include/outbound_ack.hpp] and the enumerations of
    [include/gateway_protocol.hpp].  Integer fields are [Z] at the width the
    header gives; the [*_fits] predicates record those widths. *)

From S2P Require Import Prelude.

#[local] Open Scope Z_scope.

(** ** include/types.hpp *)

Inductive Side := Buy | Sell.

#[export] Instance Side_eq_dec : EqDecision Side.
Proof. solve_decision. Defined.

Abbreviation OrderId := Z (only parsing).
Abbreviation Price := Z (only parsing).
Abbreviation Qty := Z (only parsing).
Abbreviation Nanos := Z (only parsing).

(** The C++ representation of [Side], an [enum class : uint8_t]. *)
Definition side_code (s : Side) : Z := match s with Buy => 0 | Sell => 1 end.
Coercion side_code : Side >-> Z.

(** A [Side] that comes from the wire can be any byte.  The book only ever asks
    whether it is [Buy]. *)
Definition side_of_byte (b : Z) : Side := if b =? 0 then Buy else Sell.

Lemma side_code_fits s : is_u8 (side_code s).
Proof. destruct s; split; reflexivity || discriminate. Qed.

Lemma side_of_code s : side_of_byte (side_code s) = s.
Proof. by destruct s. Qed.

Record Order := mkOrder {
  o_id : OrderId;
  o_side : Side;
  o_price : Price;
  o_qty : Qty;
  o_ts : Nanos
}.

#[export] Instance Order_eq_dec : EqDecision Order.
Proof. solve_decision. Defined.

(** [sizeof(Order)]: 8 (id), 1 + 7 padding (side), 8 (price), 4 + 4 padding
    (qty), 8 (ts_ns). *)
Definition sizeof_Order : Z := 40.

Definition set_o_qty (o : Order) (q : Qty) : Order :=
  mkOrder (o_id o) (o_side o) (o_price o) q (o_ts o).

Record Trade := mkTrade {
  t_buy : OrderId;
  t_sell : OrderId;
  t_price : Price;
  t_qty : Qty;
  t_ts : Nanos
}.

#[export] Instance Trade_eq_dec : EqDecision Trade.
Proof. solve_decision. Defined.

(** ** include/event.hpp *)

Inductive EventType := EvNewOrder | EvCancelOrder | EvMarketDataOrder | EvAdmin.

#[export] Instance EventType_eq_dec : EqDecision EventType.
Proof. solve_decision. Defined.

Definition event_type_code (t : EventType) : Z :=
  match t with
  | EvNewOrder => 1 | EvCancelOrder => 2 | EvMarketDataOrder => 3 | EvAdmin => 4
  end.

Inductive ProducerId := Gateway | FeedReplay | Admin.

#[export] Instance ProducerId_eq_dec : EqDecision ProducerId.
Proof. solve_decision. Defined.

Definition producer_code (p : ProducerId) : Z :=
  match p with Gateway => 0 | FeedReplay => 1 | Admin => 2 end.

(** [ProducerId::Count]. *)
Definition producer_count : nat := 3.

(** [ev_side_byte] is the byte of the field [side]. *)
Record SequencedEvent := mkEvent {
  ev_seq_num : Z;
  ev_ingress_ts : Z;
  ev_sequence_ts : Z;
  ev_type : EventType;
  ev_producer : ProducerId;
  ev_session : Z;
  ev_client_order_id : Z;
  ev_side_byte : Z;
  ev_price : Z;
  ev_quantity : Z
}.

#[export] Instance SequencedEvent_eq_dec : EqDecision SequencedEvent.
Proof. solve_decision. Defined.

(** The side as the book sees it. *)
Definition ev_side (ev : SequencedEvent) : Side := side_of_byte (ev_side_byte ev).

Record event_fits (ev : SequencedEvent) : Prop := mk_event_fits {
  ef_seq : is_u64 (ev_seq_num ev);
  ef_ingress : is_u64 (ev_ingress_ts ev);
  ef_sequence : is_u64 (ev_sequence_ts ev);
  ef_session : is_u32 (ev_session ev);
  ef_client : is_u64 (ev_client_order_id ev);
  ef_side : is_u8 (ev_side_byte ev);
  ef_price : is_u32 (ev_price ev);
  ef_quantity : is_u32 (ev_quantity ev)
}.

(** ** include/gateway_protocol.hpp, include/outbound_ack.hpp *)

Inductive ExecStatus := Accepted | Rejected | Filled | PartialFill | Canceled.

#[export] Instance ExecStatus_eq_dec : EqDecision ExecStatus.
Proof. solve_decision. Defined.

Definition exec_status_code (s : ExecStatus) : Z :=
  match s with
  | Accepted => 1 | Rejected => 2 | Filled => 3 | PartialFill => 4 | Canceled => 5
  end.

Record OutboundAck := mkAck {
  a_session : Z;
  a_client_order_id : Z;
  a_exchange_order_id : Z;
  a_status : ExecStatus;
  a_fill_price : Z;
  a_fill_quantity : Z;
  a_leaves_quantity : Z
}.

#[export] Instance OutboundAck_eq_dec : EqDecision OutboundAck.
Proof. solve_decision. Defined.
