(* ===== verification/ObjectPool.v ===== *)
(** * ObjectPool: the fixed-capacity pool with an intrusive free list

    Models [include/object_pool.hpp].  A [T*] into the pool is the byte offset
    of the slot from [storage_.data()]; a slot of [storage_] holds [Some v]
    while an object is alive in it and [None] when it is raw storage.  Using a
    pointer to a dead or unaligned slot, or indexing an array out of bounds, is
    undefined behaviour in C++ and is [None] here.

    The specification is the relation [pool_rep p h]: the pool [p] implements
    the heap [h], a finite map from live pointers to objects of size at most
    [Capacity]. *)

From S2P Require Import Prelude.

#[local] Open Scope Z_scope.
#[local] Open Scope cpp_scope.

Record ObjectPool (T : Type) := mkPool {
  storage_ : list (option T);
  next_free_ : list Z;
  free_head_ : Z
}.
Arguments mkPool {T} _ _ _.
Arguments storage_ {T} _.
Arguments next_free_ {T} _.
Arguments free_head_ {T} _.

Section ObjectPool.
Context {T : Type} (Capacity : nat) (sizeof_Slot : Z).

(** [ObjectPool()]: the constructor's loop links slot [i] to slot [i + 1]. *)
Definition pool_new : ObjectPool T :=
  mkPool (replicate Capacity None)
         (((λ i, i32 (Z.of_nat i + 1)) <$> seq 0 (pred Capacity))
            ++ (if (0 <? Capacity)%nat then [-1] else []))
         (if (0 <? Capacity)%nat then 0 else -1).

(** [reinterpret_cast<T*>(&storage_[idx])]. *)
Definition slot_ptr (idx : Z) : Z := idx * sizeof_Slot.

(** [static_cast<int32_t>((byte_ptr - base_ptr) / sizeof(Slot))]. *)
Definition slot_index (obj : Z) : Z := i32 (Z.quot obj sizeof_Slot).

Definition acquire (v : T) (p : ObjectPool T) : option (option Z * ObjectPool T) :=
  if free_head_ p =? -1 then Some (None, p)
  else
    let idx := free_head_ p in
    nf ← (next_free_ p).[idx];
    st ← (storage_ p).[idx <- Some v];
    Some (Some (slot_ptr idx), mkPool st (next_free_ p) nf).

(** [*obj]: the object at a pointer obtained from [acquire]. *)
Definition load (obj : Z) (p : ObjectPool T) : option T :=
  if (Z.rem obj sizeof_Slot =? 0)
  then (storage_ p).[Z.quot obj sizeof_Slot] ≫= id else None.

(** [*obj = v] on a live object. *)
Definition store (obj : Z) (v : T) (p : ObjectPool T) : option (ObjectPool T) :=
  _ ← load obj p;
  st ← (storage_ p).[Z.quot obj sizeof_Slot <- Some v];
  Some (mkPool st (next_free_ p) (free_head_ p)).

(** [release]: the destructor call needs a live object. *)
Definition release (obj : Z) (p : ObjectPool T) : option (ObjectPool T) :=
  let idx := slot_index obj in
  _ ← load obj p;
  st ← (storage_ p).[idx <- None];
  nf ← (next_free_ p).[idx <- free_head_ p];
  Some (mkPool st nf idx).

Definition capacity (_ : ObjectPool T) : nat := Capacity.

(** ** The free-list invariant *)

(** [free_chain nf hd fl]: following [nf] from [hd] visits exactly [fl]. *)
Fixpoint free_chain (nf : list Z) (hd : Z) (fl : list nat) : Prop :=
  match fl with
  | [] => hd = -1
  | i :: fl' => hd = Z.of_nat i ∧ ∃ n, nf !! i = Some n ∧ free_chain nf n fl'
  end.

Record pool_inv (p : ObjectPool T) (fl : list nat) : Prop := {
  pi_storage : length (storage_ p) = Capacity;
  pi_next : length (next_free_ p) = Capacity;
  pi_chain : free_chain (next_free_ p) (free_head_ p) fl;
  pi_nodup : NoDup fl;
  pi_free : ∀ i, i ∈ fl ↔ storage_ p !! i = Some None
}.

(** The pool implements the heap [h] of live objects, with no slot lost. *)
Definition pool_rep (p : ObjectPool T) (h : gmap Z T) : Prop :=
  ∃ fl, pool_inv p fl ∧ (∀ x, load x p = h !! x) ∧
        (size h + length fl = Capacity)%nat.

(** A pointer with an object behind it is the address of one slot. *)
Lemma load_Some x p v :
  length (storage_ p) = Capacity → load x p = Some v →
  ∃ i : nat, x = slot_ptr (Z.of_nat i) ∧ (i < Capacity)%nat ∧ storage_ p !! i = Some (Some v).
Proof.
  unfold load, slot_ptr. intros Hlen Hl.
  destruct (Z.rem x sizeof_Slot =? 0) eqn:Hr; [|done].
  apply Z.eqb_eq in Hr. unfold array_get in Hl.
  destruct (0 <=? Z.quot x sizeof_Slot) eqn:Hq; [|done].
  apply Z.leb_le in Hq.
  destruct (storage_ p !! Z.to_nat (Z.quot x sizeof_Slot)) as [[w|]|] eqn:Hst;
    simplify_eq/=.
  exists (Z.to_nat (Z.quot x sizeof_Slot)). split_and!.
  - rewrite Z2Nat.id by lia. pose proof (Z.quot_rem' x sizeof_Slot). lia.
  - apply lookup_lt_Some in Hst. lia.
  - done.
Qed.

Hypothesis Hslot : 0 < sizeof_Slot.

Lemma slot_index_ptr i :
  0 ≤ i < 2 ^ 31 → slot_index (slot_ptr i) = i.
Proof.
  intros Hi. unfold slot_index, slot_ptr. rewrite Z.quot_mul by lia.
  apply wrap_signed_id; word_lia.
Qed.

Lemma slot_ptr_rem i : Z.rem (slot_ptr i) sizeof_Slot = 0.
Proof. unfold slot_ptr. apply Z.rem_mul. lia. Qed.

Lemma load_slot (i : nat) p :
  load (slot_ptr (Z.of_nat i)) p = storage_ p !! i ≫= id.
Proof.
  unfold load. rewrite slot_ptr_rem. cbn.
  unfold slot_ptr. rewrite Z.quot_mul by lia. by rewrite array_get_nat.
Qed.

(** Loads from a pool whose storage was changed at slot [i] only. *)
Lemma load_insert (i : nat) (w : option T) p nf fh x :
  (i < length (storage_ p))%nat →
  load x (mkPool (<[i := w]> (storage_ p)) nf fh) =
    if decide (x = slot_ptr (Z.of_nat i)) then w else load x p.
Proof.
  intros Hi. case_decide as Hx.
  - subst x. rewrite load_slot. cbn. by rewrite list_lookup_insert_eq.
  - unfold load. cbn. destruct (Z.rem x sizeof_Slot =? 0) eqn:Hr; [|done].
    apply Z.eqb_eq in Hr. unfold array_get.
    destruct (0 <=? Z.quot x sizeof_Slot) eqn:Hq; [|done].
    apply Z.leb_le in Hq. rewrite list_lookup_insert_ne; [done|].
    intros ->. apply Hx. unfold slot_ptr.
    rewrite Z2Nat.id by lia. pose proof (Z.quot_rem' x sizeof_Slot). lia.
Qed.

Lemma free_chain_insert nf hd fl i n :
  i ∉ fl → free_chain nf hd fl → free_chain (<[i := n]> nf) hd fl.
Proof.
  revert hd. induction fl as [|j fl IH]; intros hd Hi; cbn; [done|].
  intros [-> (m & Hm & Hc)]. apply not_elem_of_cons in Hi as [Hij Hi].
  split; [done|]. exists m. split; [by rewrite list_lookup_insert_ne|auto].
Qed.

(** ** The operations implement the heap *)

Lemma pool_rep_size p h : pool_rep p h → (size h ≤ Capacity)%nat.
Proof. intros (fl & _ & _ & ?). lia. Qed.

Lemma pool_rep_load p h x : pool_rep p h → load x p = h !! x.
Proof. by intros (fl & _ & Hl & _). Qed.

Lemma acquire_full p h v :
  pool_rep p h → size h = Capacity → acquire v p = Some (None, p).
Proof.
  intros (fl & Hinv & _ & Hsz) Hfull. destruct fl as [|i fl]; [|cbn in Hsz; lia].
  unfold acquire. by rewrite (pi_chain _ _ Hinv : free_head_ p = -1).
Qed.

Lemma acquire_ok p h v :
  pool_rep p h → (size h < Capacity)%nat →
  ∃ x p', acquire v p = Some (Some x, p') ∧ h !! x = None ∧ pool_rep p' (<[x := v]> h).
Proof.
  intros (fl & Hinv & Hl & Hsz) Hroom. destruct fl as [|i fl]; [cbn in Hsz; lia|].
  destruct Hinv as [Hst Hnf [Hhd (n & Hn & Hch)] Hnd Hfree].
  assert (i < Capacity)%nat as Hi by (apply lookup_lt_Some in Hn; lia).
  assert (h !! slot_ptr (Z.of_nat i) = None) as Hnone.
  { rewrite <-Hl, load_slot. pose proof (proj1 (Hfree i) ltac:(by left)) as ->. done. }
  exists (slot_ptr (Z.of_nat i)), (mkPool (<[i := Some v]> (storage_ p)) (next_free_ p) n).
  split_and!; [|done|].
  - unfold acquire. rewrite Hhd. rewrite (proj2 (Z.eqb_neq (Z.of_nat i) (-1))) by lia.
    rewrite array_get_nat, Hn. cbn. by rewrite array_set_nat by lia.
  - exists fl. apply NoDup_cons in Hnd as [Hni Hnd]. split_and!.
    + constructor; cbn; try done.
      * by rewrite length_insert.
      * intros j. destruct (decide (i = j)) as [->|Hij].
        -- rewrite list_lookup_insert_eq by lia. naive_solver.
        -- rewrite list_lookup_insert_ne, <-Hfree by done. set_solver.
    + intros x. rewrite load_insert by lia. case_decide as Hx.
      * subst x. by rewrite lookup_insert_eq.
      * by rewrite lookup_insert_ne.
    + rewrite map_size_insert_None by done. cbn in Hsz. lia.
Qed.

Lemma store_ok p h x o v :
  pool_rep p h → h !! x = Some o →
  ∃ p', store x v p = Some p' ∧ pool_rep p' (<[x := v]> h).
Proof.
  intros (fl & Hinv & Hl & Hsz) Hx. destruct Hinv as [Hst Hnf Hch Hnd Hfree].
  pose proof Hx as Hlx. rewrite <-Hl in Hlx.
  destruct (load_Some _ _ _ Hst Hlx) as (i & -> & Hi & Hsi).
  eexists. split.
  - unfold store. rewrite Hlx. cbn. unfold slot_ptr. rewrite Z.quot_mul by lia.
    by rewrite array_set_nat by lia.
  - exists fl. split_and!.
    + constructor; cbn; try done.
      * by rewrite length_insert.
      * intros j. rewrite Hfree. destruct (decide (i = j)) as [->|Hij].
        -- rewrite list_lookup_insert_eq by lia. naive_solver.
        -- by rewrite list_lookup_insert_ne.
    + intros y. rewrite load_insert by lia. case_decide as Hy.
      * subst y. by rewrite lookup_insert_eq.
      * by rewrite lookup_insert_ne.
    + rewrite map_size_insert_Some; [done|by eexists].
Qed.

Hypothesis Hcap : Z.of_nat Capacity < 2 ^ 31.

Lemma release_ok p h x o :
  pool_rep p h → h !! x = Some o →
  ∃ p', release x p = Some p' ∧ pool_rep p' (delete x h).
Proof.
  intros (fl & Hinv & Hl & Hsz) Hx. destruct Hinv as [Hst Hnf Hch Hnd Hfree].
  pose proof Hx as Hlx. rewrite <-Hl in Hlx.
  destruct (load_Some _ _ _ Hst Hlx) as (i & -> & Hi & Hsi).
  assert (i ∉ fl) as Hni by (rewrite Hfree; naive_solver).
  eexists. split.
  - unfold release. rewrite Hlx. cbn. rewrite slot_index_ptr by lia.
    rewrite !array_set_nat by lia. done.
  - exists (i :: fl). split_and!.
    + constructor; cbn.
      * by rewrite length_insert.
      * by rewrite length_insert.
      * split; [done|]. eexists. split; [apply list_lookup_insert_eq; lia|].
        by apply free_chain_insert.
      * by constructor.
      * intros j. destruct (decide (i = j)) as [->|Hij].
        -- rewrite list_lookup_insert_eq by lia. set_solver.
        -- rewrite list_lookup_insert_ne, <-Hfree by done. set_solver.
    + intros y. rewrite load_insert by lia. case_decide as Hy.
      * subst y. by rewrite lookup_delete_eq.
      * by rewrite lookup_delete_ne.
    + rewrite map_size_delete_Some by eauto.
      assert (size h ≠ 0%nat) by (intros ->%map_size_empty_iff; by rewrite lookup_empty in Hx).
      cbn. lia.
Qed.

Lemma pool_new_next i :
  (i < Capacity)%nat →
  next_free_ pool_new !! i = Some (if decide (S i < Capacity)%nat then Z.of_nat (S i) else -1).
Proof.
  intros Hi. cbn [next_free_ pool_new]. rewrite (proj2 (Nat.ltb_lt 0 Capacity)) by lia.
  case_decide as Hlt.
  - rewrite lookup_app_l by (rewrite length_fmap, length_seq; lia).
    rewrite list_lookup_fmap, lookup_seq_lt by lia. cbn. f_equal.
    rewrite wrap_signed_id by word_lia. lia.
  - rewrite lookup_app_r by (rewrite length_fmap, length_seq; lia).
    rewrite length_fmap, length_seq.
    by replace (i - pred Capacity)%nat with 0%nat by lia.
Qed.

Lemma pool_new_chain n k :
  (k + n = Capacity)%nat →
  free_chain (next_free_ pool_new) (if decide (k < Capacity)%nat then Z.of_nat k else -1)
             (seq k n).
Proof.
  revert k. induction n as [|n IH]; intros k Hk; cbn [seq free_chain].
  - case_decide; [lia|done].
  - case_decide; [|lia]. split; [done|]. eexists. split.
    + by apply pool_new_next.
    + apply IH. lia.
Qed.

Lemma pool_new_rep : pool_rep pool_new ∅.
Proof.
  exists (seq 0 Capacity). split_and!.
  - constructor.
    + cbn. by rewrite length_replicate.
    + cbn. rewrite length_app, length_fmap, length_seq.
      destruct Capacity; cbn; lia.
    + pose proof (pool_new_chain Capacity 0 ltac:(lia)) as H.
      replace (free_head_ pool_new) with
        (if decide (0 < Capacity)%nat then Z.of_nat 0 else -1); [done|].
      cbn. destruct Capacity; [done|]. by rewrite decide_True by lia.
    + apply NoDup_seq.
    + intros i. cbn. rewrite elem_of_seq, lookup_replicate. naive_solver lia.
  - intros x. rewrite lookup_empty.
    destruct (load x pool_new) as [v|] eqn:Hl; [|done].
    apply load_Some in Hl as (i & _ & _ & Hst); [|cbn; apply length_replicate].
    cbn in Hst. by apply lookup_replicate in Hst as [? _].
  - by rewrite map_size_empty, length_seq.
Qed.

End ObjectPool.

(** ** Properties *)

(** C31: The pool implements a bounded heap.  On a pool whose live objects are
    [h]: a live pointer loads its object and any other pointer is undefined
    behaviour; [acquire] returns a pointer that was not live and stores the new
    object there, or, exactly when [Capacity] objects are live, [nullptr] with
    nothing changed; [store] and [release] of a live pointer update and remove
    that object and no other. *)
Theorem pool_refines_heap {T} (Capacity : nat) (sizeof_Slot : Z)
    (p : ObjectPool T) (h : gmap Z T) :
  0 < sizeof_Slot → Z.of_nat Capacity < 2 ^ 31 →
  pool_rep Capacity sizeof_Slot p h →
  (∀ x, load sizeof_Slot x p = h !! x) ∧
  (∀ v, if decide (size h < Capacity)%nat
        then ∃ x p', acquire sizeof_Slot v p = Some (Some x, p') ∧ h !! x = None ∧
                     pool_rep Capacity sizeof_Slot p' (<[x := v]> h)
        else acquire sizeof_Slot v p = Some (None, p)) ∧
  (∀ x o v, h !! x = Some o →
     ∃ p', store sizeof_Slot x v p = Some p' ∧
           pool_rep Capacity sizeof_Slot p' (<[x := v]> h)) ∧
  (∀ x o, h !! x = Some o →
     ∃ p', release sizeof_Slot x p = Some p' ∧
           pool_rep Capacity sizeof_Slot p' (delete x h)).
Proof.
  intros Hslot Hcap Hrep. split_and!.
  - intros x. by apply (pool_rep_load Capacity).
  - intros v. case_decide.
    + by apply acquire_ok.
    + apply (acquire_full Capacity _ _ h); [done|].
      apply pool_rep_size in Hrep. lia.
  - intros x o v. by apply store_ok.
  - intros x o. by apply release_ok.
Qed.

(** The freshly constructed two-slot pool implements the empty heap. *)
Lemma pool_refines_heap_witness :
  acquire 40 7 (pool_new 2) = Some (Some 0, mkPool [Some 7; None] [1; -1] 1).
Proof.
  destruct (pool_refines_heap 2 40 (pool_new 2) (∅ : gmap Z Z) ltac:(lia) ltac:(lia)
              (pool_new_rep 2 40 ltac:(lia))) as (_ & Hacq & _).
  specialize (Hacq 7). rewrite decide_True in Hacq by (rewrite map_size_empty; lia).
  destruct Hacq as (x & p' & Hx & _ & _). vm_compute in Hx |- *. done.
Defined.

(** Slots are reused last-in first-out: the slot released last is the one
    the next [acquire] hands out, whatever the state of the pool. *)
Theorem release_then_acquire {T} (Capacity : nat) (sizeof_Slot : Z)
    (p p' : ObjectPool T) (h : gmap Z T) (x : Z) (o v : T) :
  0 < sizeof_Slot → Z.of_nat Capacity < 2 ^ 31 →
  pool_rep Capacity sizeof_Slot p h → h !! x = Some o →
  release sizeof_Slot x p = Some p' →
  ∃ p'', acquire sizeof_Slot v p' = Some (Some x, p'') ∧
         pool_rep Capacity sizeof_Slot p'' (<[x := v]> h).
Proof.
  intros Hslot Hcap Hrep Hx Hrel.
  pose proof (pool_rep_size _ _ _ _ Hrep) as Hsz.
  assert (size h ≠ 0%nat) by (intros ->%map_size_empty_iff; by rewrite lookup_empty in Hx).
  destruct (release_ok Capacity sizeof_Slot Hslot Hcap p h x o Hrep Hx) as (q & Hq & Hrep').
  rewrite Hrel in Hq. injection Hq as <-.
  destruct (acquire_ok Capacity sizeof_Slot Hslot p' _ v Hrep')
    as (y & p'' & Hacq & Hfresh & Hrep'').
  { rewrite map_size_delete_Some by eauto. lia. }
  assert (y = x) as ->; [|exists p''; by rewrite insert_delete_eq in Hrep''].
  destruct Hrep as (fl & Hinv & Hl & _).
  destruct (load_Some Capacity sizeof_Slot x p o) as (i & -> & Hi & _).
  { apply Hinv. }
  { by rewrite Hl. }
  unfold release in Hrel. rewrite Hl, Hx in Hrel. cbn in Hrel.
  rewrite slot_index_ptr in Hrel by lia.
  destruct (array_set (storage_ p) _ _) as [st|] eqn:?; [|done].
  destruct (array_set (next_free_ p) _ _) as [nf|] eqn:?; [|done].
  injection Hrel as <-. unfold acquire in Hacq. cbn in Hacq.
  rewrite (proj2 (Z.eqb_neq (Z.of_nat i) (-1))) in Hacq by lia.
  destruct (array_get nf _) as [n|]; [|done]. cbn in Hacq.
  destruct (array_set st _ _); [|done]. by injection Hacq as <- _.
Qed.

Lemma release_then_acquire_witness :
  ∃ p'', acquire 40 8 (mkPool [None; None] [1; -1] 0) = Some (Some 0, p'') ∧
         pool_rep 2 40 p'' (<[0 := 8]> (<[0 := 7]> (∅ : gmap Z Z))).
Proof.
  destruct (acquire_ok 2 40 ltac:(lia) (pool_new 2) (∅ : gmap Z Z) 7
              (pool_new_rep 2 40 ltac:(lia)))
    as (x & p' & Hacq & _ & Hrep); [rewrite map_size_empty; lia|].
  vm_compute in Hacq. injection Hacq as <- <-.
  apply (release_then_acquire 2 40 _ _ (<[0 := 7]> ∅) 0 7 8 ltac:(lia) ltac:(lia) Hrep).
  - apply lookup_insert_eq.
  - reflexivity.
Defined.
