(* ===== verification/OrderBook.v ===== *)
(** * OrderBook: the limit order book

    Models [include/order_book.hpp].  [std::map<Price, std::deque<Order*>, Cmp>]
    is the list of its (key, value) pairs in the order of [Cmp], best price
    first; [locate_] is a [gmap]; [pool_] is the [ObjectPool] of the previous
    file and an [Order*] is a pointer into it.  An operation returns [None]
    where the C++ would dereference a dead pointer or index out of bounds, or
    where the fuel of a loop runs out; [OrderBookProofs] shows that neither
    happens on a well-formed book. *)

From S2P Require Import Prelude Types ObjectPool.

#[local] Open Scope Z_scope.

Abbreviation LevelMap := (list (Z * list Z)).
Abbreviation OrderPool := (ObjectPool Order).
Abbreviation Locate := (gmap Z (Side * Z)).

Record OrderBook := mkBook {
  bids_ : LevelMap;
  asks_ : LevelMap;
  pool_ : OrderPool;
  locate_ : Locate
}.

(** ** [std::map] operations on price levels

    [lt] is the map's comparator: [std::greater] for bids, [std::less] for
    asks. *)

Fixpoint level_find (price : Z) (m : LevelMap) : option (list Z) :=
  match m with
  | [] => None
  | (k, dq) :: m' => if k =? price then Some dq else level_find price m'
  end.

Fixpoint level_erase (price : Z) (m : LevelMap) : LevelMap :=
  match m with
  | [] => []
  | (k, dq) :: m' => if k =? price then m' else (k, dq) :: level_erase price m'
  end.

Fixpoint level_replace (price : Z) (dq' : list Z) (m : LevelMap) : LevelMap :=
  match m with
  | [] => []
  | (k, dq) :: m' =>
      if k =? price then (k, dq') :: m' else (k, dq) :: level_replace price dq' m'
  end.

(** [book[price].push_back(order)]: [operator[]] creates a missing level. *)
Fixpoint level_push_back (lt : Z → Z → bool) (price order : Z) (m : LevelMap) : LevelMap :=
  match m with
  | [] => [(price, [order])]
  | (k, dq) :: m' =>
      if lt price k then (price, [order]) :: m
      else if lt k price then (k, dq) :: level_push_back lt price order m'
      else (k, dq ++ [order]) :: m'
  end.

(** ** Matching *)

(** What the two matching loops update besides the levels. *)
Record MatchState := mkMatch {
  ms_qty : Z;
  ms_pool : OrderPool;
  ms_locate : Locate;
  ms_trades : list Trade
}.

Definition trade_of (side : Side) (id resting_id price fill ts_ns : Z) : Trade :=
  mkTrade (match side with Buy => id | Sell => resting_id end)
          (match side with Buy => resting_id | Sell => id end)
          price fill ts_ns.

(** The inner loop: [while (qty > 0 && !dq.empty())]. *)
Fixpoint match_level (fuel : nat) (id : Z) (side : Side) (level_px ts_ns : Z)
    (dq : list Z) (s : MatchState) : option (list Z * MatchState) :=
  match fuel with
  | O => None
  | S fuel =>
      match dq with
      | resting :: dq' =>
          if 0 <? ms_qty s then
            o ← load sizeof_Order resting (ms_pool s);
            let fill := Z.min (ms_qty s) (o_qty o) in
            let t := trade_of side id (o_id o) level_px fill ts_ns in
            let o' := set_o_qty o (u32 (o_qty o - fill)) in
            pool1 ← store sizeof_Order resting o' (ms_pool s);
            if o_qty o' =? 0 then
              pool2 ← release sizeof_Order resting pool1;
              match_level fuel id side level_px ts_ns dq'
                (mkMatch (u32 (ms_qty s - fill)) pool2 (delete (o_id o) (ms_locate s))
                         (ms_trades s ++ [t]))
            else
              match_level fuel id side level_px ts_ns dq
                (mkMatch (u32 (ms_qty s - fill)) pool1 (ms_locate s) (ms_trades s ++ [t]))
          else Some (dq, s)
      | [] => Some (dq, s)
      end
  end.

(** The outer loop: [while (qty > 0 && !opposite.empty())]. *)
Fixpoint match_against (fuel : nat) (opposite : LevelMap) (id : Z) (side : Side)
    (price ts_ns : Z) (crosses : Z → Z → bool) (s : MatchState)
    : option (LevelMap * MatchState) :=
  match fuel with
  | O => None
  | S fuel =>
      match opposite with
      | (level_px, dq) :: levels =>
          if 0 <? ms_qty s then
            if negb (crosses level_px price) then Some (opposite, s)
            else
              '(dq', s') ← match_level (S (length dq)) id side level_px ts_ns dq s;
              let opposite' := match dq' with [] => levels | _ => (level_px, dq') :: levels end in
              match_against fuel opposite' id side price ts_ns crosses s'
          else Some (opposite, s)
      | [] => Some (opposite, s)
      end
  end.

Definition rest (lt : Z → Z → bool) (book : LevelMap) (id : Z) (side : Side)
    (price qty ts_ns : Z) (pool : OrderPool) (locate : Locate)
    : option (LevelMap * OrderPool * Locate) :=
  '(order, pool') ← acquire sizeof_Order (mkOrder id side price qty ts_ns) pool;
  match order with
  | None => Some (book, pool', locate)
  | Some x => Some (level_push_back lt price x book, pool', <[id := (side, price)]> locate)
  end.

Definition add_limit_order (id : Z) (side : Side) (price qty ts_ns : Z)
    (b : OrderBook) (trades_out : list Trade) : option (OrderBook * list Trade) :=
  match side with
  | Buy =>
      '(asks, s) ← match_against (S (length (asks_ b))) (asks_ b) id side price ts_ns
                     (λ book_px order_px, book_px <=? order_px)
                     (mkMatch qty (pool_ b) (locate_ b) trades_out);
      if 0 <? ms_qty s then
        '(bids, pool, locate) ← rest Z.gtb (bids_ b) id side price (ms_qty s) ts_ns
                                  (ms_pool s) (ms_locate s);
        Some (mkBook bids asks pool locate, ms_trades s)
      else Some (mkBook (bids_ b) asks (ms_pool s) (ms_locate s), ms_trades s)
  | Sell =>
      '(bids, s) ← match_against (S (length (bids_ b))) (bids_ b) id side price ts_ns
                     (λ book_px order_px, book_px >=? order_px)
                     (mkMatch qty (pool_ b) (locate_ b) trades_out);
      if 0 <? ms_qty s then
        '(asks, pool, locate) ← rest Z.ltb (asks_ b) id side price (ms_qty s) ts_ns
                                  (ms_pool s) (ms_locate s);
        Some (mkBook bids asks pool locate, ms_trades s)
      else Some (mkBook bids (asks_ b) (ms_pool s) (ms_locate s), ms_trades s)
  end.

(** ** Cancelling *)

(** The [for] loop of [remove_from] over one level's deque. *)
Fixpoint erase_order (id : Z) (dq : list Z) (pool : OrderPool)
    : option (option (list Z * OrderPool)) :=
  match dq with
  | [] => Some None
  | x :: dq' =>
      o ← load sizeof_Order x pool;
      if o_id o =? id then
        pool' ← release sizeof_Order x pool;
        Some (Some (dq', pool'))
      else
        r ← erase_order id dq' pool;
        Some (match r with Some (d, p) => Some (x :: d, p) | None => None end)
  end.

Definition remove_from (book : LevelMap) (price id : Z) (pool : OrderPool)
    : option (bool * LevelMap * OrderPool) :=
  match level_find price book with
  | None => Some (false, book, pool)
  | Some dq =>
      r ← erase_order id dq pool;
      match r with
      | None => Some (false, book, pool)
      | Some ([], pool') => Some (true, level_erase price book, pool')
      | Some (dq', pool') => Some (true, level_replace price dq' book, pool')
      end
  end.

Definition cancel (id : Z) (b : OrderBook) : option (bool * OrderBook) :=
  match locate_ b !! id with
  | None => Some (false, b)
  | Some (Buy, price) =>
      '(removed, bids, pool) ← remove_from (bids_ b) price id (pool_ b);
      Some (removed, mkBook bids (asks_ b) pool
                       (if removed : bool then delete id (locate_ b) else locate_ b))
  | Some (Sell, price) =>
      '(removed, asks, pool) ← remove_from (asks_ b) price id (pool_ b);
      Some (removed, mkBook (bids_ b) asks pool
                       (if removed : bool then delete id (locate_ b) else locate_ b))
  end.

(** ** Queries *)

(** [for (auto* o : it->second) qty += o->qty;] at the width of [Qty]. *)
Fixpoint level_qty (q : Z) (dq : list Z) (pool : OrderPool) : option Z :=
  match dq with
  | [] => Some q
  | x :: dq' => o ← load sizeof_Order x pool; level_qty (u32 (q + o_qty o)) dq' pool
  end.

Definition best_of (book : LevelMap) (pool : OrderPool) : option (option (Z * Z)) :=
  match book with
  | [] => Some None
  | (price, dq) :: _ => q ← level_qty 0 dq pool; Some (Some (price, q))
  end.

Definition best_bid (b : OrderBook) : option (option (Z * Z)) := best_of (bids_ b) (pool_ b).
Definition best_ask (b : OrderBook) : option (option (Z * Z)) := best_of (asks_ b) (pool_ b).

Definition bid_levels (b : OrderBook) : nat := length (bids_ b).
Definition ask_levels (b : OrderBook) : nat := length (asks_ b).
Definition resting_orders (b : OrderBook) : nat := size (locate_ b).

(** The rows [print_top] shows for one side: price and summed quantity of the
    first [depth] levels. *)
Fixpoint print_side (depth : Z) (shown : Z) (m : LevelMap) (pool : OrderPool)
    : option (list (Z * Z)) :=
  match m with
  | [] => Some []
  | (price, dq) :: m' =>
      if shown <? depth then
        q ← level_qty 0 dq pool;
        rows ← print_side depth (shown + 1) m' pool;
        Some ((price, q) :: rows)
      else Some []
  end.

Definition newline : string := String (Ascii.ascii_of_nat 10) EmptyString.

Definition print_row (row : Z * Z) : string :=
  String.append "    " (String.append (pretty row.1)
    (String.append " x " (String.append (pretty row.2) newline))).

Definition print_top (depth : Z) (b : OrderBook) : option string :=
  asks ← print_side depth 0 (asks_ b) (pool_ b);
  bids ← print_side depth 0 (bids_ b) (pool_ b);
  Some (String.append (String.append "  asks (best first):" newline)
         (String.append (String.concat "" (print_row <$> asks))
           (String.append (String.append "  bids (best first):" newline)
             (String.concat "" (print_row <$> bids))))).

(** A freshly constructed book over a pool of [PoolCapacity] orders. *)
Definition book_new (PoolCapacity : nat) : OrderBook :=
  mkBook [] [] (pool_new PoolCapacity) ∅.
