(* ===== verification/PriceTime.v ===== *)
(** * PriceTime: the abstract specification of the order book

    What [include/order_book.hpp] promises, with no pointers, levels or pool:
    each side is the list of its resting orders in price-time priority.  An
    incoming order is filled against the head of the opposite list while the
    prices cross, and its remainder is inserted behind every order that is at
    least as good.  [OrderBookProofs] shows that the C++ data structure refines
    this specification; the theorems of this file are about the specification
    alone and are transported along the refinement. *)

From S2P Require Import Prelude Types OrderBook.

#[local] Open Scope Z_scope.

Record ABook := mkABook { ab_bids : list Order; ab_asks : list Order }.

Definition ab_orders (a : ABook) : list Order := ab_bids a ++ ab_asks a.

(** Insert behind every order whose price is not worse ([lt] is "strictly
    better"). *)
Fixpoint insert_order (lt : Z → Z → bool) (o : Order) (l : list Order) : list Order :=
  match l with
  | [] => [o]
  | o' :: l' =>
      if lt (o_price o) (o_price o') then o :: l else o' :: insert_order lt o l'
  end.

(** Fill [qty] against the resting orders [l], best first. *)
Fixpoint match_orders (crosses : Z → bool) (side : Side) (id ts qty : Z) (l : list Order)
    : Z * list Order * list Trade :=
  match l with
  | [] => (qty, [], [])
  | o :: l' =>
      if (qty =? 0) || negb (crosses (o_price o)) then (qty, l, [])
      else if o_qty o <=? qty then
        let '(q, r, tr) := match_orders crosses side id ts (qty - o_qty o) l' in
        (q, r, trade_of side id (o_id o) (o_price o) (o_qty o) ts :: tr)
      else
        (0, set_o_qty o (o_qty o - qty) :: l',
         [trade_of side id (o_id o) (o_price o) qty ts])
  end.

Definition crosses_of (side : Side) (price book_px : Z) : bool :=
  match side with Buy => book_px <=? price | Sell => book_px >=? price end.

(** "Strictly better price" on the side an order rests on. *)
Definition better_of (side : Side) : Z → Z → bool :=
  match side with Buy => Z.gtb | Sell => Z.ltb end.

Definition ab_side (side : Side) (a : ABook) : list Order :=
  match side with Buy => ab_bids a | Sell => ab_asks a end.

Definition opposite (side : Side) : Side := match side with Buy => Sell | Sell => Buy end.

Definition ab_set (side : Side) (l : list Order) (a : ABook) : ABook :=
  match side with Buy => mkABook l (ab_asks a) | Sell => mkABook (ab_bids a) l end.

(** [add_limit_order] on the specification: match, then rest the remainder if
    the pool has room for it. *)
Definition ab_add (cap : nat) (id : Z) (side : Side) (price qty ts : Z) (a : ABook)
    : ABook * list Trade :=
  let '(q, l, tr) :=
    match_orders (crosses_of side price) side id ts qty (ab_side (opposite side) a) in
  let a1 := ab_set (opposite side) l a in
  if (0 <? q) && (length (ab_orders a1) <? cap)%nat then
    (ab_set side (insert_order (better_of side) (mkOrder id side price q ts)
                               (ab_side side a1)) a1, tr)
  else (a1, tr).

Definition ab_remove (id : Z) (l : list Order) : list Order :=
  filter (λ o, o_id o ≠ id) l.

Definition ab_cancel (id : Z) (a : ABook) : bool * ABook :=
  if decide (id ∈ o_id <$> ab_orders a)
  then (true, mkABook (ab_remove id (ab_bids a)) (ab_remove id (ab_asks a)))
  else (false, a).

(** Best price of one side and the exact quantity available there. *)
Definition ab_best (l : list Order) : option (Z * Z) :=
  match l with
  | [] => None
  | o :: _ =>
      Some (o_price o,
            sumZ o_qty (filter (λ o', o_price o' = o_price o) l))
  end.

(** ** Matching as a relation

    The graph of [match_orders], for rule induction. *)

Inductive Matched (crosses : Z → bool) (side : Side) (id ts : Z)
    : Z → list Order → Z → list Order → list Trade → Prop :=
| Matched_stop qty l :
    qty = 0 ∨ (∀ o l', l = o :: l' → crosses (o_price o) = false) →
    Matched crosses side id ts qty l qty l []
| Matched_full qty o l q r tr :
    0 < qty → crosses (o_price o) = true → 0 < o_qty o ≤ qty →
    Matched crosses side id ts (qty - o_qty o) l q r tr →
    Matched crosses side id ts qty (o :: l) q r
      (trade_of side id (o_id o) (o_price o) (o_qty o) ts :: tr)
| Matched_part qty o l :
    crosses (o_price o) = true → 0 < qty < o_qty o →
    Matched crosses side id ts qty (o :: l) 0 (set_o_qty o (o_qty o - qty) :: l)
      [trade_of side id (o_id o) (o_price o) qty ts].

Definition live_qty (o : Order) : Prop := 0 < o_qty o < 2 ^ 32.

Lemma match_orders_Matched crosses side id ts qty l :
  0 ≤ qty → Forall live_qty l →
  Matched crosses side id ts qty l
    (match_orders crosses side id ts qty l).1.1
    (match_orders crosses side id ts qty l).1.2
    (match_orders crosses side id ts qty l).2.
Proof.
  revert qty. induction l as [|o l IH]; intros qty Hq Hl; cbn.
  { by constructor; right. }
  apply Forall_cons in Hl as [Ho Hl]. unfold live_qty in Ho.
  destruct (Z.eqb_spec qty 0) as [->|Hne]; cbn; [by constructor; left|].
  destruct (crosses (o_price o)) eqn:Hc; cbn; [|constructor; right; naive_solver].
  destruct (Z.leb_spec (o_qty o) qty) as [Hle|Hgt].
  - specialize (IH (qty - o_qty o) ltac:(lia) Hl).
    destruct (match_orders _ _ _ _ _ _) as [[q r] tr]; cbn in *.
    apply Matched_full; [lia|done|lia|done].
  - apply Matched_part; [done|lia].
Qed.

(** The identity of a resting order: everything but its remaining quantity. *)
Definition okey (o : Order) : Z * Side * Z * Z := (o_id o, o_side o, o_price o, o_ts o).

Definition counterparty (side : Side) (t : Trade) : Z :=
  match side with Buy => t_sell t | Sell => t_buy t end.

Section Matched.
Context {crosses : Z → bool} {side : Side} {id ts : Z}.

Lemma Matched_conserve qty l q r tr :
  Matched crosses side id ts qty l q r tr → qty = q + sumZ t_qty tr.
Proof. induction 1; cbn; lia. Qed.

Lemma Matched_nonneg qty l q r tr :
  Matched crosses side id ts qty l q r tr → 0 ≤ qty → 0 ≤ q.
Proof. induction 1; cbn; lia. Qed.

Lemma Matched_resting_qty qty l q r tr :
  Matched crosses side id ts qty l q r tr →
  sumZ o_qty l = sumZ o_qty r + sumZ t_qty tr.
Proof. induction 1; cbn; lia. Qed.

(** The orders that remain are the tail of the priority list. *)
Lemma Matched_suffix qty l q r tr :
  Matched crosses side id ts qty l q r tr → (okey <$> r) `suffix_of` (okey <$> l).
Proof.
  induction 1; cbn; [done|by apply suffix_cons_r|].
  by exists [].
Qed.

Lemma Matched_live qty l q r tr :
  Matched crosses side id ts qty l q r tr → Forall live_qty l → Forall live_qty r.
Proof.
  induction 1; intros Hl; [done| |];
    apply Forall_cons in Hl as [Ho Hl]; [auto|].
  constructor; [|done]. unfold live_qty in *. cbn. lia.
Qed.

(** Orders are hit strictly from the head of the priority list. *)
Lemma Matched_prefix qty l q r tr :
  Matched crosses side id ts qty l q r tr →
  (counterparty side <$> tr) `prefix_of` (o_id <$> l).
Proof.
  induction 1; cbn.
  - apply prefix_nil.
  - destruct side; cbn; by apply prefix_cons.
  - destruct side; cbn; apply prefix_cons, prefix_nil.
Qed.

Lemma Matched_trades qty l q r tr :
  Matched crosses side id ts qty l q r tr →
  Forall (λ t, ∃ o, o ∈ l ∧ crosses (o_price o) = true ∧ 0 < t_qty t ≤ o_qty o ∧
                    t = trade_of side id (o_id o) (o_price o) (t_qty t) ts) tr.
Proof.
  induction 1 as [|qty o l q r tr Hq Hc Ho Hm IH|qty o l Hc Hq]; [done| |].
  - constructor; [exists o; cbn; split_and!; [by left|done|lia|lia|done]|].
    eapply Forall_impl; [exact IH|]. cbn. intros t (o' & Hin & ?).
    exists o'. split; [by right|done].
  - constructor; [|done]. exists o. cbn. split_and!; [by left|done|lia|lia|done].
Qed.

Lemma Matched_full_or_done qty l q r tr :
  Matched crosses side id ts qty l q r tr → 0 < q →
  (∀ o r', r = o :: r' → crosses (o_price o) = false) ∧ r `suffix_of` l.
Proof.
  induction 1; intros Hq; [naive_solver lia| |lia].
  split; [naive_solver|]. apply suffix_cons_r. naive_solver.
Qed.

End Matched.

(** ** Well-formed books *)

Record abook_wf (a : ABook) : Prop := {
  wf_side : ∀ s, Forall (λ o, o_side o = s) (ab_side s a);
  wf_live : ∀ s, Forall live_qty (ab_side s a);
  wf_sorted : ∀ s, StronglySorted (λ p q, better_of s q p = false) (o_price <$> ab_side s a);
  wf_ids : NoDup (o_id <$> ab_orders a);
  wf_uncrossed : ∀ b s, b ∈ ab_bids a → s ∈ ab_asks a → o_price b < o_price s
}.

(** Case analysis on the side followed by linear arithmetic on the prices. *)
Ltac side_lia s := destruct s; unfold crosses_of, better_of in *; cbn in *; lia.

Lemma insert_order_perm lt o l : insert_order lt o l ≡ₚ o :: l.
Proof.
  induction l as [|o' l IH]; cbn; [done|]. destruct (lt _ _); [done|].
  rewrite IH. by constructor.
Qed.

Lemma elem_of_insert_order lt o l x : x ∈ insert_order lt o l ↔ x = o ∨ x ∈ l.
Proof. by rewrite insert_order_perm, elem_of_cons. Qed.

Lemma insert_order_sorted s o l :
  StronglySorted (λ p q, better_of s q p = false) (o_price <$> l) →
  StronglySorted (λ p q, better_of s q p = false) (o_price <$> insert_order (better_of s) o l).
Proof.
  induction l as [|o' l IH]; cbn; intros Hs; [repeat constructor|].
  inversion Hs as [|? ? Hs' Hall]; subst.
  destruct (better_of s (o_price o) (o_price o')) eqn:Hb; cbn; constructor.
  - done.
  - constructor; [side_lia s|]. eapply Forall_impl; [exact Hall|]. cbn.
    intros p Hp. side_lia s.
  - auto.
  - rewrite Forall_forall in Hall |- *. intros p (x & -> & Hx)%list_elem_of_fmap.
    apply elem_of_insert_order in Hx as [->|Hx]; [done|].
    apply Hall, list_elem_of_fmap. eauto.
Qed.

Lemma okey_fmap_suffix {B} (f : Order → B) (g : Z * Side * Z * Z → B) r l :
  (∀ o, f o = g (okey o)) →
  (okey <$> r) `suffix_of` (okey <$> l) → (f <$> r) `suffix_of` (f <$> l).
Proof.
  intros Hfg [k Hk]. exists (g <$> k).
  assert (∀ l' : list Order, f <$> l' = g <$> (okey <$> l')) as Hm.
  { intros l'. rewrite <-list_fmap_compose. apply list_fmap_ext. intros ? o _. apply Hfg. }
  by rewrite !Hm, <-fmap_app, <-Hk.
Qed.

Lemma suffix_ids r l :
  (okey <$> r) `suffix_of` (okey <$> l) → (o_id <$> r) `suffix_of` (o_id <$> l).
Proof. by apply okey_fmap_suffix with (g := λ k, k.1.1.1). Qed.

Lemma suffix_prices r l :
  (okey <$> r) `suffix_of` (okey <$> l) → (o_price <$> r) `suffix_of` (o_price <$> l).
Proof. by apply okey_fmap_suffix with (g := λ k, k.1.2). Qed.

Lemma suffix_elem r l o :
  (okey <$> r) `suffix_of` (okey <$> l) → o ∈ r → ∃ o', o' ∈ l ∧ okey o' = okey o.
Proof.
  intros [k Hk] Ho.
  assert (okey o ∈ okey <$> l) as (o' & ? & ?)%list_elem_of_fmap; [|eauto].
  rewrite Hk, elem_of_app, !list_elem_of_fmap. eauto.
Qed.

(** Dropping matched orders from the front of one side keeps the book
    well-formed. *)
Lemma ab_set_suffix_wf s l a :
  abook_wf a → (okey <$> l) `suffix_of` (okey <$> ab_side s a) → Forall live_qty l →
  abook_wf (ab_set s l a).
Proof.
  intros [Hside Hlive Hsort Hids Hunc] Hsuf Hl. constructor.
  - assert (Forall (λ o, o_side o = s) l) as Hl'.
    { specialize (Hside s). rewrite Forall_forall in Hside |- *. intros o Ho.
      destruct (suffix_elem _ _ _ Hsuf Ho) as (o' & Ho' & Hk). unfold okey in Hk.
      specialize (Hside _ Ho'). congruence. }
    intros s'. specialize (Hside s'). by destruct s, s'.
  - intros s'. specialize (Hlive s'). by destruct s, s'.
  - assert (StronglySorted (λ p q, better_of s q p = false) (o_price <$> l)) as Hl'.
    { destruct (suffix_prices _ _ Hsuf) as [k Hk]. specialize (Hsort s).
      rewrite Hk in Hsort. by eapply StronglySorted_app_1_r. }
    intros s'. specialize (Hsort s'). by destruct s, s'.
  - destruct (suffix_ids _ _ Hsuf) as [k Hk]. unfold ab_orders in *.
    rewrite fmap_app in *. destruct s; cbn in *; rewrite Hk in Hids.
    + rewrite <-app_assoc in Hids. by apply NoDup_app in Hids as (_ & _ & ?).
    + rewrite (Permutation_app_comm k), app_assoc in Hids.
      by apply NoDup_app in Hids as (? & _ & _).
  - intros b o Hb Ho. destruct s; cbn in *.
    + destruct (suffix_elem _ _ _ Hsuf Hb) as (b' & ? & [= _ _ <- _]). auto.
    + destruct (suffix_elem _ _ _ Hsuf Ho) as (o' & ? & [= _ _ <- _]). auto.
Qed.

Lemma ab_orders_set_side s l a : ab_orders (ab_set s l a) ≡ₚ l ++ ab_side (opposite s) a.
Proof. unfold ab_orders. destruct s; cbn; [done|]. apply Permutation_app_comm. Qed.

Lemma ab_orders_side s a : ab_orders a ≡ₚ ab_side s a ++ ab_side (opposite s) a.
Proof. unfold ab_orders. destruct s; cbn; [done|]. apply Permutation_app_comm. Qed.

(** Resting an order that crosses nothing keeps the book well-formed. *)
Lemma ab_set_insert_wf s o a :
  abook_wf a → o_side o = s → live_qty o → o_id o ∉ o_id <$> ab_orders a →
  Forall (λ o', crosses_of s (o_price o) (o_price o') = false) (ab_side (opposite s) a) →
  abook_wf (ab_set s (insert_order (better_of s) o (ab_side s a)) a).
Proof.
  intros [Hside Hlive Hsort Hids Hunc] Hs Hq Hid Hcr. constructor.
  - assert (Forall (λ o', o_side o' = s) (insert_order (better_of s) o (ab_side s a))).
    { rewrite insert_order_perm. by constructor. }
    intros s'. specialize (Hside s'). by destruct s, s'.
  - assert (Forall live_qty (insert_order (better_of s) o (ab_side s a))).
    { rewrite insert_order_perm. by constructor. }
    intros s'. specialize (Hlive s'). by destruct s, s'.
  - pose proof (insert_order_sorted s o _ (Hsort s)).
    intros s'. specialize (Hsort s'). by destruct s, s'.
  - rewrite ab_orders_set_side, insert_order_perm. cbn.
    rewrite (ab_orders_side s) in Hid, Hids. by constructor.
  - rewrite Forall_forall in Hcr. intros b x Hb Hx. destruct s; cbn in *.
    + apply elem_of_insert_order in Hb as [->|Hb]; [|auto].
      specialize (Hcr _ Hx). lia.
    + apply elem_of_insert_order in Hx as [->|Hx]; [|auto].
      specialize (Hcr _ Hb). lia.
Qed.

(** ** Adding an order *)

Lemma ab_add_cases cap id side price qty ts a a' tr :
  abook_wf a → 0 ≤ qty → ab_add cap id side price qty ts a = (a', tr) →
  ∃ q l, Matched (crosses_of side price) side id ts qty (ab_side (opposite side) a) q l tr ∧
    a' = let a1 := ab_set (opposite side) l a in
         if (0 <? q) && (length (ab_orders a1) <? cap)%nat
         then ab_set side (insert_order (better_of side) (mkOrder id side price q ts)
                                        (ab_side side a1)) a1
         else a1.
Proof.
  intros Hwf Hq Hadd.
  pose proof (match_orders_Matched (crosses_of side price) side id ts qty
                (ab_side (opposite side) a) Hq (wf_live a Hwf _)) as Hm.
  unfold ab_add in Hadd. destruct (match_orders _ _ _ _ _ _) as [[q l] tr'].
  cbn in Hm. exists q, l. cbv zeta in *.
  destruct ((0 <? q) && _); injection Hadd as <- <-; done.
Qed.

(** With quantity left over, nothing that remains crosses. *)
Lemma Matched_exhausted side price id ts qty l q r tr :
  Matched (crosses_of side price) side id ts qty l q r tr →
  StronglySorted (λ p p', better_of (opposite side) p' p = false) (o_price <$> l) → 0 < q →
  Forall (λ o, crosses_of side price (o_price o) = false) r.
Proof.
  intros Hm Hs Hq. destruct (Matched_full_or_done _ _ _ _ _ Hm Hq) as [Hhd [k ->]].
  rewrite fmap_app in Hs. apply StronglySorted_app_1_r in Hs.
  destruct r as [|o r]; [done|]. specialize (Hhd o r eq_refl).
  inversion Hs as [|? ? _ Hall]; subst. constructor; [done|].
  rewrite Forall_fmap in Hall. eapply Forall_impl; [exact Hall|]. cbn.
  intros o' Ho'. side_lia side.
Qed.

Lemma ab_side_set_ne s l a : ab_side s (ab_set (opposite s) l a) = ab_side s a.
Proof. by destruct s. Qed.

Lemma ab_side_set_eq s l a : ab_side s (ab_set s l a) = l.
Proof. by destruct s. Qed.

Lemma opposite_opposite s : opposite (opposite s) = s.
Proof. by destruct s. Qed.

Lemma suffix_ids_fresh s l a id :
  (okey <$> l) `suffix_of` (okey <$> ab_side s a) → id ∉ o_id <$> ab_orders a →
  id ∉ o_id <$> ab_orders (ab_set s l a).
Proof.
  intros [k Hk]%suffix_ids Hid. rewrite ab_orders_set_side. rewrite (ab_orders_side s) in Hid.
  rewrite fmap_app, elem_of_app in Hid |- *. rewrite Hk in Hid. set_solver.
Qed.

Lemma ab_add_wf cap id side price qty ts a a' tr :
  abook_wf a → is_u32 qty → id ∉ o_id <$> ab_orders a →
  ab_add cap id side price qty ts a = (a', tr) → abook_wf a'.
Proof.
  intros Hwf Hq Hid Hadd.
  destruct (ab_add_cases _ _ _ _ _ _ _ _ _ Hwf ltac:(apply Hq) Hadd) as (q & l & Hm & ->).
  pose proof (Matched_suffix _ _ _ _ _ Hm) as Hsuf.
  pose proof (ab_set_suffix_wf _ _ _ Hwf Hsuf (Matched_live _ _ _ _ _ Hm (wf_live a Hwf _)))
    as Hwf1.
  clear Hadd. cbv zeta. destruct (Z.ltb_spec 0 q) as [Hpos|]; [|done].
  destruct (Nat.ltb_spec (length (ab_orders (ab_set (opposite side) l a))) cap); [|done].
  apply ab_set_insert_wf; cbn; [done|done| |by apply suffix_ids_fresh|].
  - unfold live_qty, fits_unsigned in *. cbn.
    pose proof (Matched_conserve _ _ _ _ _ Hm).
    assert (0 ≤ sumZ t_qty tr); [|lia]. apply sumZ_nonneg.
    eapply Forall_impl; [exact (Matched_trades _ _ _ _ _ Hm)|]. cbn. naive_solver lia.
  - rewrite ab_side_set_eq. eapply Matched_exhausted; [exact Hm|apply Hwf|done].
Qed.

(** No quantity appears or disappears: what was resting plus what came in is
    what rests now plus both legs of every trade. *)
Lemma ab_add_conserve cap id side price qty ts a a' tr :
  abook_wf a → 0 ≤ qty → (length (ab_orders a) < cap)%nat →
  ab_add cap id side price qty ts a = (a', tr) →
  sumZ o_qty (ab_orders a') + 2 * sumZ t_qty tr = sumZ o_qty (ab_orders a) + qty.
Proof.
  intros Hwf Hq Hcap Hadd.
  destruct (ab_add_cases _ _ _ _ _ _ _ _ _ Hwf Hq Hadd) as (q & l & Hm & ->).
  pose proof (Matched_conserve _ _ _ _ _ Hm) as Hc.
  pose proof (Matched_resting_qty _ _ _ _ _ Hm) as Hr.
  pose proof (Matched_nonneg _ _ _ _ _ Hm Hq) as Hq'.
  assert (∀ l1 l2, l1 ≡ₚ l2 → sumZ o_qty l1 = sumZ o_qty l2) as Hperm.
  { induction 1; cbn; lia. }
  rewrite (Hperm _ _ (ab_orders_side (opposite side) a)), sumZ_app.
  destruct (Matched_suffix _ _ _ _ _ Hm) as [k Hk]. apply (f_equal length) in Hk.
  rewrite length_app, !length_fmap in Hk.
  clear Hadd. cbv zeta.
  assert ((length (ab_orders (ab_set (opposite side) l a)) <? cap)%nat = true) as ->.
  { apply Nat.ltb_lt. rewrite ab_orders_set_side, length_app.
    rewrite (ab_orders_side (opposite side)), length_app in Hcap. lia. }
  rewrite andb_true_r. destruct (Z.ltb_spec 0 q) as [Hpos|Hz].
  - rewrite (Hperm _ _ (ab_orders_set_side _ _ _)), sumZ_app, ab_side_set_ne.
    rewrite (Hperm _ _ (insert_order_perm _ _ _)). cbn.
    rewrite ab_side_set_eq, opposite_opposite. lia.
  - rewrite (Hperm _ _ (ab_orders_set_side _ _ _)), sumZ_app. lia.
Qed.

(** ** Cancelling an order *)

Lemma ab_remove_fresh id l : id ∉ o_id <$> l → ab_remove id l = l.
Proof.
  intros Hid. unfold ab_remove. induction l as [|o l IH]; [done|].
  rewrite fmap_cons, not_elem_of_cons in Hid. destruct Hid as [Hne Hid].
  rewrite filter_cons_True by done. by rewrite IH.
Qed.

Lemma elem_of_ab_remove id l o : o ∈ ab_remove id l ↔ o ∈ l ∧ o_id o ≠ id.
Proof. unfold ab_remove. rewrite list_elem_of_filter. tauto. Qed.

Lemma ab_remove_orders id a :
  ab_remove id (ab_bids a) ++ ab_remove id (ab_asks a) = ab_remove id (ab_orders a).
Proof. unfold ab_remove, ab_orders. by rewrite filter_app. Qed.

Lemma ab_cancel_wf id a b a' :
  abook_wf a → ab_cancel id a = (b, a') → abook_wf a'.
Proof.
  intros [Hside Hlive Hsort Hids Hunc] Hc. unfold ab_cancel in Hc.
  case_decide; injection Hc as <- <-; [|by constructor].
  assert (∀ s, ab_side s (mkABook (ab_remove id (ab_bids a)) (ab_remove id (ab_asks a)))
               = ab_remove id (ab_side s a)) as Hs by (by intros []).
  constructor.
  - intros s. rewrite Hs. by apply Forall_filter_2.
  - intros s. rewrite Hs. by apply Forall_filter_2.
  - intros s. rewrite Hs. by apply StronglySorted_fmap_filter.
  - unfold ab_orders at 1. cbn. rewrite ab_remove_orders.
    eapply sublist_NoDup; [exact Hids|]. apply fmap_sublist, sublist_filter.
  - cbn. intros x y [Hx _]%elem_of_ab_remove [Hy _]%elem_of_ab_remove. auto.
Qed.

#[export] Hint Resolve ab_add_wf ab_cancel_wf : wf.

(** ** Time priority

    When exchange ids are handed out in arrival order, the priority list is
    strictly ordered by (price, id). *)

Definition earlier (s : Side) (o1 o2 : Order) : Prop :=
  better_of s (o_price o1) (o_price o2) = true ∨
  (o_price o1 = o_price o2 ∧ o_id o1 < o_id o2).

Definition time_ordered (a : ABook) : Prop := ∀ s, StronglySorted (earlier s) (ab_side s a).

Lemma earlier_okey s o1 o2 o1' o2' :
  okey o1 = okey o1' → okey o2 = okey o2' → earlier s o1 o2 → earlier s o1' o2'.
Proof. unfold okey, earlier. intros [= ? ? ? ?] [= ? ? ? ?]. intros. by simplify_eq; intuition congruence. Qed.

Lemma insert_order_earlier s o l :
  StronglySorted (earlier s) l → Forall (λ o', o_id o' < o_id o) l →
  StronglySorted (earlier s) (insert_order (better_of s) o l).
Proof.
  induction l as [|o' l IH]; cbn; intros Hs Hid; [repeat constructor|].
  inversion Hs as [|? ? Hs' Hall]; subst. apply Forall_cons in Hid as [Ho' Hid].
  destruct (better_of s (o_price o) (o_price o')) eqn:Hb; constructor; auto.
  - constructor; [by left|]. eapply Forall_impl; [exact Hall|].
    unfold earlier. intros x Hx. left. side_lia s.
  - rewrite Forall_forall in Hall |- *. intros x [->|Hx]%elem_of_insert_order; [|auto].
    destruct (better_of s (o_price o') (o_price o)) eqn:Hb'; [by left|].
    right. split; [side_lia s|done].
Qed.

Lemma Matched_earlier s crosses side id ts qty l q r tr :
  Matched crosses side id ts qty l q r tr →
  StronglySorted (earlier s) l → StronglySorted (earlier s) r.
Proof.
  induction 1 as [|qty o l q r tr ? ? ? ? IH|qty o l]; intros Hs; [done| |];
    inversion Hs as [|? ? Hs' Hall]; subst; [auto|].
  constructor; [done|]. eapply Forall_impl; [exact Hall|].
  intros x. by apply earlier_okey.
Qed.

Lemma ab_add_time_ordered cap id side price qty ts a a' tr :
  abook_wf a → 0 ≤ qty → time_ordered a → Forall (λ o, o_id o < id) (ab_orders a) →
  ab_add cap id side price qty ts a = (a', tr) → time_ordered a'.
Proof.
  intros Hwf Hq Hto Hid Hadd.
  destruct (ab_add_cases _ _ _ _ _ _ _ _ _ Hwf Hq Hadd) as (q & l & Hm & ->). clear Hadd.
  pose proof (Matched_earlier (opposite side) _ _ _ _ _ _ _ _ _ Hm (Hto _)) as Hl.
  cbv zeta. set (a1 := ab_set (opposite side) l a).
  assert (time_ordered a1) as Hto1.
  { intros s. specialize (Hto s). unfold a1. by destruct side, s. }
  destruct ((0 <? q) && _); [|done]. intros s.
  assert (StronglySorted (earlier side)
    (insert_order (better_of side) (mkOrder id side price q ts) (ab_side side a1))) as Hins.
  { apply insert_order_earlier; [apply Hto1|]. unfold a1. rewrite ab_side_set_ne. cbn.
    rewrite (ab_orders_side side), Forall_app in Hid. apply Hid. }
  specialize (Hto1 s). by destruct side, s.
Qed.

Lemma Matched_trade_prices crosses side id ts qty l q r tr :
  Matched crosses side id ts qty l q r tr →
  (t_price <$> tr) `prefix_of` (o_price <$> l).
Proof.
  induction 1; cbn.
  - apply prefix_nil.
  - by apply prefix_cons.
  - apply prefix_cons, prefix_nil.
Qed.

(** The head of a well-formed side has the best price of that side. *)
Lemma ab_best_is_best s a p q :
  abook_wf a → ab_best (ab_side s a) = Some (p, q) →
  (∃ o, o ∈ ab_side s a ∧ o_price o = p) ∧
  Forall (λ o, better_of s (o_price o) p = false) (ab_side s a) ∧
  q = sumZ o_qty (filter (λ o, o_price o = p) (ab_side s a)).
Proof.
  intros Hwf Hb. pose proof (wf_sorted a Hwf s) as Hs.
  destruct (ab_side s a) as [|o l]; [done|]. cbn in Hb. injection Hb as <- <-.
  split_and!; [exists o; split; [by left|done]| |done].
  cbn in Hs. inversion Hs as [|? ? _ Hall]; subst.
  constructor; [side_lia s|]. by rewrite Forall_fmap in Hall.
Qed.
