(* ===== verification/OrderBookProofs.v ===== *)
(** * OrderBookProofs: the order book refines price-time priority

    [book_rep cap b a] relates a book of [OrderBook] to one of [PriceTime]:
    walking the levels of [b] from the best price and following the pointers
    into the pool reads off the orders of [a]; the pool holds those orders and
    nothing else; [locate_] is exactly the index of those orders.  Each
    operation is shown to return (no undefined behaviour, fuel sufficient) and
    to preserve the relation while performing the abstract operation. *)

From S2P Require Import Prelude Types ObjectPool OrderBook PriceTime.

#[local] Open Scope Z_scope.

Abbreviation heap := (gmap Z Order).
Abbreviation points h := (λ x o, h !! x = Some o).

(** The pointers of a level map, best level first. *)
Fixpoint level_ptrs (m : LevelMap) : list Z :=
  match m with [] => [] | (_, dq) :: m' => dq ++ level_ptrs m' end.

Definition level_ok (h : heap) (l : Z * list Z) : Prop :=
  l.2 ≠ [] ∧ Forall (λ x, o_price <$> h !! x = Some l.1) l.2.

Record side_rep (s : Side) (h : heap) (m : LevelMap) (L : list Order) : Prop := {
  sr_ptrs : Forall2 (points h) (level_ptrs m) L;
  sr_levels : Forall (level_ok h) m;
  sr_sorted : StronglySorted (λ k k', better_of s k k' = true) m.*1
}.

Definition loc_entry (o : Order) : Z * (Side * Z) := (o_id o, (o_side o, o_price o)).
Definition locate_of (l : list Order) : Locate := list_to_map (loc_entry <$> l).

Definition book_side (s : Side) (b : OrderBook) : LevelMap :=
  match s with Buy => bids_ b | Sell => asks_ b end.

Record book_rep_heap (cap : nat) (b : OrderBook) (a : ABook) (h : heap) : Prop := {
  br_pool : pool_rep cap sizeof_Order (pool_ b) h;
  br_side : ∀ s, side_rep s h (book_side s b) (ab_side s a);
  br_nodup : NoDup (level_ptrs (bids_ b) ++ level_ptrs (asks_ b));
  br_size : size h = length (ab_orders a);
  br_locate : locate_ b = locate_of (ab_orders a)
}.

Definition book_rep (cap : nat) (b : OrderBook) (a : ABook) : Prop :=
  ∃ h, book_rep_heap cap b a h.

(** ** Generic facts *)

Definition delete_ids (ids : list Z) (m : Locate) : Locate := foldl (λ m i, delete i m) m ids.

Lemma delete_ids_app i1 i2 m : delete_ids (i1 ++ i2) m = delete_ids i2 (delete_ids i1 m).
Proof. apply foldl_app. Qed.

Lemma locate_of_fst l : (loc_entry <$> l).*1 = o_id <$> l.
Proof. by rewrite <-list_fmap_compose. Qed.

Lemma locate_of_lookup l o :
  NoDup (o_id <$> l) → o ∈ l → locate_of l !! o_id o = Some (o_side o, o_price o).
Proof.
  intros Hnd Ho. apply elem_of_list_to_map_1.
  - by rewrite locate_of_fst.
  - apply list_elem_of_fmap. by exists o.
Qed.

Lemma locate_of_None l i : i ∉ o_id <$> l ↔ locate_of l !! i = None.
Proof. unfold locate_of. by rewrite <-not_elem_of_list_to_map, locate_of_fst. Qed.

Lemma locate_of_perm l1 l2 :
  NoDup (o_id <$> l1) → l1 ≡ₚ l2 → locate_of l1 = locate_of l2.
Proof.
  intros Hnd Hp. apply list_to_map_proper.
  - by rewrite locate_of_fst.
  - by rewrite Hp.
Qed.

(** Deleting the ids of the orders in front leaves the index of the rest. *)
Lemma delete_ids_locate l1 l2 :
  NoDup (o_id <$> l1 ++ l2) →
  delete_ids (o_id <$> l1) (locate_of (l1 ++ l2)) = locate_of l2.
Proof.
  induction l1 as [|o l1 IH]; cbn; [done|]. intros [Hni Hnd]%NoDup_cons.
  change (locate_of (o :: l1 ++ l2)) with (<[o_id o := (o_side o, o_price o)]> (locate_of (l1 ++ l2))).
  rewrite delete_insert_id; [auto|]. by apply locate_of_None.
Qed.

Lemma okey_loc_entry (l1 l2 : list Order) : okey <$> l1 = okey <$> l2 → locate_of l1 = locate_of l2.
Proof.
  intros Hk. unfold locate_of. f_equal.
  assert (∀ l : list Order, loc_entry <$> l = (λ k, (k.1.1.1, (k.1.1.2, k.1.2))) <$> (okey <$> l)) as Hl.
  { intros l. by rewrite <-list_fmap_compose. }
  by rewrite !Hl, Hk.
Qed.

Lemma okey_ids (l1 l2 : list Order) : okey <$> l1 = okey <$> l2 → o_id <$> l1 = o_id <$> l2.
Proof.
  intros Hk.
  assert (∀ l : list Order, o_id <$> l = (λ k, k.1.1.1) <$> (okey <$> l)) as Hl.
  { intros l. by rewrite <-list_fmap_compose. }
  by rewrite !Hl, Hk.
Qed.

Lemma points_frame (h h' : heap) xs L :
  (∀ x, x ∈ xs → h' !! x = h !! x) → Forall2 (points h) xs L → Forall2 (points h') xs L.
Proof.
  intros Hf Hp. induction Hp as [|x o xs L Hx Hp IH]; constructor.
  - rewrite Hf by (by left). done.
  - apply IH. intros y Hy. apply Hf. by right.
Qed.

Lemma level_ok_frame (h h' : heap) l :
  (∀ x, x ∈ l.2 → o_price <$> h' !! x = o_price <$> h !! x) → level_ok h l → level_ok h' l.
Proof.
  intros Hf [Hne Hl]. split; [done|]. rewrite Forall_forall in Hl |- *.
  intros x Hx. rewrite Hf by done. auto.
Qed.

Lemma elem_of_level_ptrs m x : x ∈ level_ptrs m ↔ ∃ l, l ∈ m ∧ x ∈ l.2.
Proof.
  induction m as [|[k dq] m IH]; cbn; [set_solver|].
  rewrite elem_of_app, IH. setoid_rewrite elem_of_cons. naive_solver.
Qed.

(** ** One level of matching *)

(** What a matching loop over the pointers [xs] of the orders [L] leaves
    behind: pointers [xs'] of the orders [r], and the trades [tr]. *)
Record match_post (cap : nat) (h h' : heap) (s s' : MatchState) (xs xs' : list Z)
    (L r : list Order) (q : Z) (tr : list Trade) : Prop := {
  mp_qty : ms_qty s' = q;
  mp_trades : ms_trades s' = ms_trades s ++ tr;
  mp_pool : pool_rep cap sizeof_Order (ms_pool s') h';
  mp_ptrs : Forall2 (points h') xs' r;
  mp_frame : ∀ x, x ∉ xs → h' !! x = h !! x;
  mp_suffix : xs' `suffix_of` xs;
  mp_size : (size h' + length L = size h + length r)%nat;
  mp_locate : ∃ done undone, L = done ++ undone ∧ okey <$> undone = okey <$> r ∧
                ms_locate s' = delete_ids (o_id <$> done) (ms_locate s)
}.

Lemma match_post_refl cap h s xs L :
  pool_rep cap sizeof_Order (ms_pool s) h → Forall2 (points h) xs L →
  match_post cap h h s s xs xs L L (ms_qty s) [].
Proof.
  intros Hp HL. constructor; auto.
  - by rewrite app_nil_r.
  - by exists [], L.
Qed.

Section MatchLevel.
Context (cap : nat) (id : Z) (side : Side) (level_px ts : Z).
Hypothesis Hcap : Z.of_nat cap < 2 ^ 31.

(** One iteration that consumes the front order completely. *)
Lemma match_level_full fuel x dq s h o :
  pool_rep cap sizeof_Order (ms_pool s) h → h !! x = Some o → o_price o = level_px →
  0 < o_qty o ≤ ms_qty s → is_u32 (ms_qty s) →
  ∃ pool', pool_rep cap sizeof_Order pool' (delete x h) ∧
    match_level (S fuel) id side level_px ts (x :: dq) s =
    match_level fuel id side level_px ts dq
      (mkMatch (ms_qty s - o_qty o) pool' (delete (o_id o) (ms_locate s))
         (ms_trades s ++ [trade_of side id (o_id o) (o_price o) (o_qty o) ts])).
Proof.
  intros Hpool Hx Hpx Ho Hq. unfold fits_unsigned in Hq.
  destruct (store_ok cap sizeof_Order ltac:(unfold sizeof_Order; lia) _ _ _ _
              (set_o_qty o 0) Hpool Hx) as (p1 & Hst & Hp1).
  destruct (release_ok cap sizeof_Order ltac:(unfold sizeof_Order; lia) Hcap p1 _ x (set_o_qty o 0)
              Hp1 (lookup_insert_eq _ _ _)) as (p2 & Hrel & Hp2).
  rewrite delete_insert_eq in Hp2. exists p2. split; [done|].
  cbn [match_level]. rewrite (proj2 (Z.ltb_lt 0 (ms_qty s))) by lia.
  rewrite (pool_rep_load cap _ _ h) by done. rewrite Hx. cbn [mbind option_bind].
  rewrite Z.min_r, Z.sub_diag, !wrap_unsigned_id by word_lia.
  rewrite Hst. cbn [mbind option_bind set_o_qty o_qty]. rewrite Z.eqb_refl.
  rewrite Hrel. by rewrite Hpx.
Qed.

(** The iteration that fills the rest of the incoming order, and the loop exit
    that follows it. *)
Lemma match_level_part fuel x dq s h o :
  pool_rep cap sizeof_Order (ms_pool s) h → h !! x = Some o → o_price o = level_px →
  0 < ms_qty s < o_qty o → o_qty o < 2 ^ 32 →
  ∃ pool', pool_rep cap sizeof_Order pool' (<[x := set_o_qty o (o_qty o - ms_qty s)]> h) ∧
    match_level (S (S fuel)) id side level_px ts (x :: dq) s =
    Some (x :: dq, mkMatch 0 pool' (ms_locate s)
                     (ms_trades s ++ [trade_of side id (o_id o) (o_price o) (ms_qty s) ts])).
Proof.
  intros Hpool Hx Hpx Hq Ho.
  destruct (store_ok cap sizeof_Order ltac:(unfold sizeof_Order; lia) _ _ _ _
              (set_o_qty o (o_qty o - ms_qty s)) Hpool Hx) as (p1 & Hst & Hp1).
  exists p1. split; [done|].
  cbn [match_level]. rewrite (proj2 (Z.ltb_lt 0 (ms_qty s))) by lia.
  rewrite (pool_rep_load cap _ _ h) by done. rewrite Hx. cbn [mbind option_bind].
  rewrite Z.min_l, Z.sub_diag, !wrap_unsigned_id by word_lia.
  rewrite Hst. cbn [mbind option_bind set_o_qty o_qty].
  rewrite (proj2 (Z.eqb_neq (o_qty o - ms_qty s) 0)) by lia.
  cbn. by rewrite Hpx.
Qed.

(** The order [o] behind [x] was consumed, then the loop went on from [s1]. *)
Lemma match_post_cons h h' s s1 s' x o dq dq' L r q tr t :
  h !! x = Some o → x ∉ dq →
  ms_trades s1 = ms_trades s ++ [t] → ms_locate s1 = delete (o_id o) (ms_locate s) →
  match_post cap (delete x h) h' s1 s' dq dq' L r q tr →
  match_post cap h h' s s' (x :: dq) dq' (o :: L) r q (t :: tr).
Proof.
  intros Hx Hxdq Ht Hloc [? Htr ? ? Hframe ? Hsize (dn & un & -> & ? & Hl)]. constructor; auto.
  - by rewrite Htr, Ht, <-app_assoc.
  - intros y [Hne Hy]%not_elem_of_cons. rewrite Hframe by done. by apply lookup_delete_ne.
  - by apply suffix_cons_r.
  - rewrite map_size_delete_Some in Hsize by eauto.
    assert (size h ≠ 0%nat) by (intros ->%map_size_empty_iff; by rewrite lookup_empty in Hx).
    cbn. lia.
  - exists (o :: dn), un. split_and!; [done|done|]. cbn. by rewrite <-Hloc.
Qed.

Lemma match_level_sim :
  ∀ fuel dq s h L q r tr,
  (length dq < fuel)%nat →
  pool_rep cap sizeof_Order (ms_pool s) h →
  NoDup dq → Forall2 (points h) dq L →
  Forall (λ o, o_price o = level_px) L → Forall live_qty L → is_u32 (ms_qty s) →
  match_orders (λ _, true) side id ts (ms_qty s) L = (q, r, tr) →
  ∃ dq' s' h', match_level fuel id side level_px ts dq s = Some (dq', s') ∧
               match_post cap h h' s s' dq dq' L r q tr.
Proof.
  induction fuel as [|fuel IH]; intros dq s h L q r tr Hfuel Hpool Hnd HL Hpx Hlive Hq Hm;
    [lia|].
  destruct HL as [|x o dq L Hx HL]; cbn [match_orders] in Hm.
  { injection Hm as <- <- <-. exists [], s, h. split; [done|]. by apply match_post_refl. }
  apply NoDup_cons in Hnd as [Hxdq Hnd].
  apply Forall_cons in Hpx as [Hpx HpxL]. apply Forall_cons in Hlive as [Ho Hlive].
  unfold live_qty in Ho. pose proof Hq as Hq'. unfold fits_unsigned in Hq'.
  destruct (Z.eqb_spec (ms_qty s) 0) as [H0|Hne]; cbn [orb negb] in Hm.
  { injection Hm as <- <- <-. exists (x :: dq), s, h. cbn [match_level]. rewrite H0. split; [done|].
    rewrite <-H0. apply match_post_refl; [done|by constructor]. }
  cbn [length] in Hfuel. destruct (Z.leb_spec (o_qty o) (ms_qty s)) as [Hle|Hlt].
  - destruct (match_level_full fuel x dq s h o Hpool Hx Hpx ltac:(lia) Hq) as (p' & Hp' & ->).
    destruct (match_orders _ _ _ _ _ L) as [[q1 r1] tr1] eqn:Hm1. injection Hm as <- <- <-.
    match goal with |- context [match_level fuel _ _ _ _ dq ?s1] => 
      destruct (IH dq s1 (delete x h) L q1 r1 tr1) as (dq' & s' & h' & Hrun & Hpost) end; auto with lia.
    + eapply points_frame; [|exact HL]. intros y Hy. apply lookup_delete_ne. set_solver.
    + unfold fits_unsigned. cbn. lia.
    + exists dq', s', h'. split; [exact Hrun|].
      eapply match_post_cons; [done|done| | |exact Hpost]; done.
  - injection Hm as <- <- <-. destruct fuel as [|fuel]; [lia|].
    destruct (match_level_part fuel x dq s h o Hpool Hx Hpx ltac:(lia) ltac:(lia)) as (p' & Hp' & ->).
    eexists _, _, (<[x := _]> h). split; [done|]. constructor; cbn; [done|done|exact Hp'|..].
    + constructor; [by rewrite lookup_insert_eq|]. eapply points_frame; [|exact HL].
      intros y Hy. apply lookup_insert_ne. set_solver.
    + intros y [Hy _]%not_elem_of_cons. by apply lookup_insert_ne.
    + done.
    + rewrite map_size_insert_Some by eauto. done.
    + by exists [], (o :: L).
Qed.

End MatchLevel.

(** ** All crossing levels *)

Lemma match_orders_level crosses side id ts L1 L2 : ∀ qty,
  Forall (λ o, crosses (o_price o) = true) L1 →
  match_orders crosses side id ts qty (L1 ++ L2) =
  let '(q1, r1, tr1) := match_orders (λ _, true) side id ts qty L1 in
  match r1 with
  | [] => let '(q2, r2, tr2) := match_orders crosses side id ts q1 L2 in (q2, r2, tr1 ++ tr2)
  | _ => (q1, r1 ++ L2, tr1)
  end.
Proof.
  induction L1 as [|o L1 IH]; intros qty Hc; cbn.
  { by destruct (match_orders _ _ _ _ _ _) as [[??]?]. }
  apply Forall_cons in Hc as [Ho Hc]. rewrite Ho.
  destruct (qty =? 0); cbn; [done|]. destruct (o_qty o <=? qty); [|done].
  rewrite (IH (qty - o_qty o) Hc).
  destruct (match_orders (λ _, true) side id ts (qty - o_qty o) L1) as [[q1 [|o1 r1]] tr1]; [|done].
  by destruct (match_orders crosses side id ts q1 L2) as [[??]?].
Qed.

Lemma match_orders_left side id ts L : ∀ qty q r tr,
  match_orders (λ _, true) side id ts qty L = (q, r, tr) → r ≠ [] → q = 0.
Proof.
  induction L as [|o L IH]; cbn; intros qty q r tr Hm Hr; [naive_solver|].
  destruct (Z.eqb_spec qty 0); cbn in Hm; [naive_solver|].
  destruct (o_qty o <=? qty); [|naive_solver].
  destruct (match_orders _ _ _ _ _ L) as [[??]?] eqn:Hm'. simplify_eq. eauto.
Qed.

Lemma match_orders_range crosses side id ts qty L q r tr :
  is_u32 qty → Forall live_qty L →
  match_orders crosses side id ts qty L = (q, r, tr) → is_u32 q.
Proof.
  intros Hq HL Hm.
  pose proof (match_orders_Matched crosses side id ts qty L ltac:(apply Hq) HL) as HM.
  rewrite Hm in HM. cbn in HM. unfold fits_unsigned in *.
  pose proof (Matched_conserve _ _ _ _ _ HM). pose proof (Matched_nonneg _ _ _ _ _ HM ltac:(lia)).
  assert (0 ≤ sumZ t_qty tr); [|lia]. apply sumZ_nonneg.
  eapply Forall_impl; [exact (Matched_trades _ _ _ _ _ HM)|]. cbn. naive_solver lia.
Qed.

Lemma match_post_app cap h h1 h2 s s1 s2 xs1 xs2 xs2' L1 L2 r2 q1 q2 tr1 tr2 :
  match_post cap h h1 s s1 xs1 [] L1 [] q1 tr1 →
  match_post cap h1 h2 s1 s2 xs2 xs2' L2 r2 q2 tr2 →
  match_post cap h h2 s s2 (xs1 ++ xs2) xs2' (L1 ++ L2) r2 q2 (tr1 ++ tr2).
Proof.
  intros [_ Ht1 _ _ Hf1 _ Hs1 (d1 & u1 & -> & Hk1 & Hl1)]
         [? Ht2 ? ? Hf2 ? Hs2 (d2 & u2 & -> & Hk2 & Hl2)].
  destruct u1; [|done]. constructor; auto.
  - by rewrite Ht2, Ht1, app_assoc.
  - intros x [Hx1 Hx2]%not_elem_of_app. by rewrite Hf2, Hf1.
  - by apply suffix_app_r.
  - rewrite !length_app in *. cbn in *. lia.
  - exists (d1 ++ d2), u2. split_and!; [|done|].
    + by rewrite app_nil_r, app_assoc.
    + by rewrite fmap_app, delete_ids_app, <-Hl1.
Qed.

Lemma match_post_stop cap h h1 s s1 xs1 xs1' xs2 L1 L2 r1 q1 tr1 :
  match_post cap h h1 s s1 xs1 xs1' L1 r1 q1 tr1 →
  Forall2 (points h) xs2 L2 → NoDup (xs1 ++ xs2) →
  match_post cap h h1 s s1 (xs1 ++ xs2) (xs1' ++ xs2) (L1 ++ L2) (r1 ++ L2) q1 tr1.
Proof.
  intros [? Ht1 ? ? Hf1 [k ->] Hs1 (d1 & u1 & -> & Hk1 & Hl1)] HL2 Hnd.
  apply NoDup_app in Hnd as (_ & Hdis & _). constructor; auto.
  - apply Forall2_app; [done|]. eapply points_frame; [|exact HL2]. set_solver.
  - set_solver.
  - exists k. by rewrite app_assoc.
  - rewrite !length_app in *. lia.
  - exists d1, (u1 ++ L2). split_and!; [by rewrite app_assoc|by rewrite !fmap_app, Hk1|done].
Qed.

(** The prices of a level, read through the pointers. *)
Lemma level_ok_prices h k dq L :
  Forall2 (points h) dq L → level_ok h (k, dq) → Forall (λ o, o_price o = k) L.
Proof.
  intros HL [_ Hp]. cbn in Hp. induction HL as [|x o dq L Hx HL IH]; [done|].
  apply Forall_cons in Hp as [Ho Hp]. constructor; [|auto].
  rewrite Hx in Ho. by injection Ho.
Qed.

Lemma level_ok_intro h k dq L :
  dq ≠ [] → Forall2 (points h) dq L → Forall (λ o, o_price o = k) L → level_ok h (k, dq).
Proof.
  intros Hne HL Hp. split; [done|]. cbn. clear Hne.
  induction HL as [|x o dq L Hx HL IH]; [done|].
  apply Forall_cons in Hp as [Ho Hp]. constructor; [by rewrite Hx, <-Ho|auto].
Qed.

Lemma okey_prices (l1 l2 : list Order) k :
  okey <$> l1 = okey <$> l2 → Forall (λ o, o_price o = k) l1 → Forall (λ o, o_price o = k) l2.
Proof.
  revert l2. induction l1 as [|o l1 IH]; intros [|o2 l2] Hk; cbn in Hk; simplify_eq; [done|].
  intros [? ?]%Forall_cons. constructor; [|auto]. congruence.
Qed.

Lemma levels_frame (h h' : heap) (xs : list Z) (m : LevelMap) :
  (∀ x, x ∉ xs → h' !! x = h !! x) → (∀ x, x ∈ xs → x ∉ level_ptrs m) →
  Forall (level_ok h) m → Forall (level_ok h') m.
Proof.
  intros Hf Hdis Hm. rewrite Forall_forall in Hm |- *. intros l Hl.
  eapply level_ok_frame; [|by apply Hm]. intros x Hx. rewrite Hf; [done|].
  intros Hxs. apply (Hdis x Hxs). apply elem_of_level_ptrs. eauto.
Qed.

Section MatchAgainst.
Context (cap : nat) (id : Z) (side : Side) (price ts : Z) (crosses : Z → Z → bool).
Hypothesis Hcap : Z.of_nat cap < 2 ^ 31.

(** The first level is not reached: nothing is left to fill, or it does not
    cross. *)
Lemma match_against_stop fuel k dq m s h L1 L2 :
  level_ok h (k, dq) → Forall2 (points h) dq L1 → is_u32 (ms_qty s) →
  ¬ (0 < ms_qty s ∧ crosses k price = true) →
  match_orders (λ px, crosses px price) side id ts (ms_qty s) (L1 ++ L2) = (ms_qty s, L1 ++ L2, []) ∧
  match_against (S fuel) ((k, dq) :: m) id side price ts crosses s = Some ((k, dq) :: m, s).
Proof.
  intros Hdq HL1 Hq Hstop. pose proof (level_ok_prices _ _ _ _ HL1 Hdq) as Hpx.
  assert (∃ o L1', L1 = o :: L1' ∧ o_price o = k) as (o & L1' & -> & Ho).
  { destruct HL1; [by destruct Hdq|]. apply Forall_cons in Hpx as [? _]. eauto. }
  unfold fits_unsigned in Hq. split.
  - cbn. rewrite Ho. destruct (Z.eqb_spec (ms_qty s) 0); cbn; [done|].
    destruct (crosses k price); cbn; [lia|done].
  - cbn [match_against]. destruct (Z.ltb_spec 0 (ms_qty s)); [|done].
    by destruct (crosses k price); [lia|].
Qed.

(** The first level stays, partly filled: the incoming order is used up. *)
Lemma match_against_partial fuel k dq dq' m s s1 h h1 L1 L2 o1 r1 tr1 :
  (0 < fuel)%nat → match_post cap h h1 s s1 dq dq' L1 (o1 :: r1) 0 tr1 →
  Forall2 (points h) (level_ptrs m) L2 → NoDup (dq ++ level_ptrs m) →
  Forall (λ o, o_price o = k) L1 → Forall (level_ok h1) m →
  ∃ x dq1, dq' = x :: dq1 ∧
    match_against fuel ((k, x :: dq1) :: m) id side price ts crosses s1 = Some ((k, x :: dq1) :: m, s1) ∧
    match_post cap h h1 s s1 (dq ++ level_ptrs m) ((x :: dq1) ++ level_ptrs m) (L1 ++ L2) (o1 :: r1 ++ L2) 0 tr1 ∧
    Forall (level_ok h1) ((k, x :: dq1) :: m).
Proof.
  intros Hfuel Hpost HL2 Hnd Hpx Hok1.
  assert (∃ x dq1, dq' = x :: dq1) as (x & dq1 & ->).
  { pose proof (mp_ptrs _ _ _ _ _ _ _ _ _ _ _ Hpost) as H. inversion H; eauto. }
  exists x, dq1. split_and!; [done| |exact (match_post_stop _ _ _ _ _ _ _ _ _ _ _ _ _ Hpost HL2 Hnd)|].
  - destruct fuel; [lia|]. cbn [match_against]. by rewrite (mp_qty _ _ _ _ _ _ _ _ _ _ _ Hpost).
  - constructor; [|done]. eapply level_ok_intro; [done|apply Hpost|].
    destruct (mp_locate _ _ _ _ _ _ _ _ _ _ _ Hpost) as (dn & un & -> & Hk & _).
    apply Forall_app in Hpx as [_ Hpx]. by eapply okey_prices.
Qed.

Lemma match_against_sim :
  ∀ fuel m s h L q r tr,
  (length m < fuel)%nat →
  pool_rep cap sizeof_Order (ms_pool s) h →
  NoDup (level_ptrs m) → Forall2 (points h) (level_ptrs m) L → Forall (level_ok h) m →
  Forall live_qty L → is_u32 (ms_qty s) →
  match_orders (λ px, crosses px price) side id ts (ms_qty s) L = (q, r, tr) →
  ∃ m' s' h', match_against fuel m id side price ts crosses s = Some (m', s') ∧
    match_post cap h h' s s' (level_ptrs m) (level_ptrs m') L r q tr ∧
    Forall (level_ok h') m' ∧ m'.*1 `suffix_of` m.*1.
Proof.
  induction fuel as [|fuel IH]; intros m s h L q r tr Hfuel Hpool Hnd HL Hok Hlive Hq Hm; [lia|].
  destruct m as [|[k dq] m]; cbn [level_ptrs match_against] in *.
  { inversion HL; subst. cbn in Hm. injection Hm as <- <- <-.
    exists [], s, h. split_and!; [done|by apply match_post_refl|done|done]. }
  apply Forall_cons in Hok as [Hdq Hok].
  apply Forall2_app_inv_l in HL as (L1 & L2 & HL1 & HL2 & ->).
  pose proof (level_ok_prices _ _ _ _ HL1 Hdq) as Hpx.
  destruct (decide (0 < ms_qty s ∧ crosses k price = true)) as [[Hpos Hcr]|Hstop]; cycle 1.
  { destruct (match_against_stop fuel k dq m s h L1 L2 Hdq HL1 Hq Hstop) as [Hm' Hrun].
    rewrite Hm' in Hm. injection Hm as <- <- <-. exists ((k, dq) :: m), s, h.
    split_and!; [exact Hrun|exact (match_post_refl _ _ _ _ _ Hpool (Forall2_app HL1 HL2))
                |by constructor|done]. }
  rewrite (proj2 (Z.ltb_lt _ _) Hpos), Hcr. cbn [negb].
  pose proof Hnd as (Hnd1 & Hdis & Hnd2)%NoDup_app.
  apply Forall_app in Hlive as [Hlive1 Hlive2].
  rewrite (match_orders_level (λ px, crosses px price)) in Hm; cycle 1.
  { eapply Forall_impl; [exact Hpx|]. by cbn; intros ? ->. }
  destruct (match_orders (λ _, true) side id ts (ms_qty s) L1) as [[q1 r1] tr1] eqn:Hm1.
  destruct (match_level_sim cap id side k ts Hcap (S (length dq)) dq s h L1 q1 r1 tr1)
    as (dq' & s1 & h1 & -> & Hpost); auto with lia.
  cbn [mbind option_bind]. cbn [length] in Hfuel.
  pose proof (mp_qty _ _ _ _ _ _ _ _ _ _ _ Hpost) as Hq1.
  assert (Forall (level_ok h1) m) as Hok1.
  { eapply levels_frame; [apply Hpost| |exact Hok]. done. }
  destruct r1 as [|o1 r1].
  - pose proof (mp_ptrs _ _ _ _ _ _ _ _ _ _ _ Hpost) as Hnil. inversion Hnil; subst dq'.
    destruct (match_orders _ _ _ _ q1 L2) as [[q2 r2] tr2] eqn:Hm2. injection Hm as <- <- <-.
    destruct (IH m s1 h1 L2 q2 r2 tr2) as (m' & s' & h' & -> & Hpost' & Hok' & Hsuf).
    { lia. } { apply Hpost. } { done. }
    { eapply points_frame; [|exact HL2]. intros x Hx. apply Hpost. set_solver. }
    { done. } { done. } { rewrite Hq1. exact (match_orders_range _ _ _ _ _ _ _ _ _ Hq Hlive1 Hm1). } { by rewrite Hq1. }
    exists m', s', h'.
    split_and!; [done|by apply (match_post_app _ _ _ _ _ _ _ _ _ _ _ _ _ _ _ _ _ Hpost Hpost')|done|].
    by apply suffix_cons_r.
  - injection Hm as <- <- <-.
    pose proof (match_orders_left _ _ _ _ _ _ _ _ Hm1 ltac:(done)) as ->.
    destruct (match_against_partial fuel k dq dq' m s s1 h h1 L1 L2 o1 r1 tr1 ltac:(lia) Hpost HL2 Hnd Hpx Hok1)
      as (x & dq1 & -> & Hrun & Hpost' & Hok').
    exists ((k, x :: dq1) :: m), s1, h1. done.
Qed.

End MatchAgainst.

(** ** Resting the remainder *)

Lemma insert_order_skip lt o L1 L2 :
  Forall (λ o', lt (o_price o) (o_price o') = false) L1 →
  insert_order lt o (L1 ++ L2) = L1 ++ insert_order lt o L2.
Proof. induction 1 as [|o' L1 Ho _ IH]; cbn; [done|]. by rewrite Ho, IH. Qed.

Lemma level_push_back_ptrs lt price x m :
  level_ptrs (level_push_back lt price x m) ≡ₚ x :: level_ptrs m.
Proof.
  induction m as [|[k dq] m IH]; cbn; [done|].
  destruct (lt price k); cbn; [done|]. destruct (lt k price); cbn.
  - rewrite IH. symmetry. apply Permutation_middle.
  - rewrite <-app_assoc. cbn. symmetry. apply Permutation_middle.
Qed.

Lemma level_push_back_keys lt price x m k :
  k ∈ (level_push_back lt price x m).*1 → k = price ∨ k ∈ m.*1.
Proof.
  induction m as [|[k' dq] m IH]; cbn; [set_solver|].
  destruct (lt price k'); cbn; [set_solver|]. destruct (lt k' price); cbn; set_solver.
Qed.

Lemma level_push_back_sorted s price x m :
  StronglySorted (λ k k', better_of s k k' = true) m.*1 →
  StronglySorted (λ k k', better_of s k k' = true) (level_push_back (better_of s) price x m).*1.
Proof.
  induction m as [|[k dq] m IH]; cbn; intros Hs; [repeat constructor|].
  inversion Hs as [|? ? Hs' Hall]; subst.
  destruct (better_of s price k) eqn:Hpk; cbn.
  - constructor; [done|]. constructor; [done|].
    eapply Forall_impl; [exact Hall|]. cbn. intros k' Hk'. side_lia s.
  - destruct (better_of s k price) eqn:Hkp; cbn; constructor; auto.
    rewrite Forall_forall in Hall |- *.
    intros k' [->|Hk']%level_push_back_keys; auto.
Qed.

Lemma level_push_back_ok (h : heap) s o x m :
  h !! x = None → Forall (level_ok h) m →
  Forall (level_ok (<[x := o]> h)) (level_push_back (better_of s) (o_price o) x m).
Proof.
  intros Hx Hm.
  assert (∀ l, level_ok h l → level_ok (<[x := o]> h) l) as Hmono.
  { intros l Hl. pose proof Hl as [_ Hp]. rewrite Forall_forall in Hp.
    eapply level_ok_frame; [|exact Hl]. intros y Hy. rewrite lookup_insert_ne; [done|].
    intros <-. specialize (Hp x Hy). by rewrite Hx in Hp. }
  assert (o_price <$> <[x := o]> h !! x = Some (o_price o)) as Hxo by (by rewrite lookup_insert_eq).
  induction Hm as [|[k dq] m Hk Hm IH]; cbn.
  { repeat constructor; cbn; done. }
  destruct (better_of s (o_price o) k) eqn:Hpk; [|destruct (better_of s k (o_price o)) eqn:Hkp].
  - constructor; [by repeat constructor|]. eauto using Forall_impl.
  - eauto.
  - constructor; [|eauto using Forall_impl].
    assert (k = o_price o) as -> by side_lia s. destruct (Hmono _ Hk) as [Hne Hp].
    split; cbn; [by destruct dq|]. apply Forall_app. split; [done|]. by repeat constructor.
Qed.

Lemma level_push_back_orders (h : heap) s o x m L :
  h !! x = None → side_rep s h m L →
  Forall2 (points (<[x := o]> h)) (level_ptrs (level_push_back (better_of s) (o_price o) x m))
          (insert_order (better_of s) o L).
Proof.
  intros Hx [Hptrs Hlev Hsort]. revert L Hptrs.
  assert (<[x := o]> h !! x = Some o) as Hxo by (by rewrite lookup_insert_eq).
  assert (∀ xs L, Forall2 (points h) xs L → Forall2 (points (<[x := o]> h)) xs L) as Hmono.
  { intros xs L HL. eapply Forall2_impl; [exact HL|]. cbn. intros y o' Hy.
    rewrite lookup_insert_ne; congruence. }
  induction Hlev as [|[k dq] m Hk Hm IH]; intros L Hptrs; cbn in *.
  { inversion Hptrs; subst. by repeat constructor. }
  apply Forall2_app_inv_l in Hptrs as (L1 & L2 & HL1 & HL2 & ->).
  pose proof (level_ok_prices _ _ _ _ HL1 Hk) as Hpx.
  inversion Hsort as [|? ? Hsort' Hall]; subst.
  destruct (better_of s (o_price o) k) eqn:Hpk; cbn.
  { pose proof (Forall2_app (Hmono _ _ HL1) (Hmono _ _ HL2)) as HLL.
    destruct HL1 as [|y o1 dq L1]; [by destruct Hk|].
    apply Forall_cons in Hpx as [Ho1 _]. cbn. rewrite Ho1, Hpk. by constructor. }
  rewrite insert_order_skip by (eapply Forall_impl; [exact Hpx|]; by cbn; intros ? ->).
  destruct (better_of s k (o_price o)) eqn:Hkp; cbn.
  { by apply Forall2_app; [apply Hmono|apply IH]. }
  rewrite <-app_assoc. apply Forall2_app; [by apply Hmono|]. cbn.
  assert (insert_order (better_of s) o L2 = o :: L2) as ->; [|by constructor; auto].
  destruct m as [|[k2 dq2] m]; cbn in HL2; [by inversion HL2|].
  apply Forall2_app_inv_l in HL2 as (L3 & L4 & HL3 & _ & ->).
  apply Forall_cons in Hm as [Hk2 _]. apply Forall_cons in Hall as [Hkk2 _].
  pose proof (level_ok_prices _ _ _ _ HL3 Hk2) as Hpx2.
  destruct HL3 as [|y o3 dq3 L3]; [by destruct Hk2|]. apply Forall_cons in Hpx2 as [Ho3 _].
  cbn. rewrite Ho3. assert (better_of s (o_price o) k2 = true) as -> by side_lia s. done.
Qed.

(** ** add_limit_order *)

(** The book whose own side is [own] and whose opposite side is [opp]. *)
Definition book_with (s : Side) (own opp : LevelMap) (pool : OrderPool) (locate : Locate)
    : OrderBook :=
  match s with Buy => mkBook own opp pool locate | Sell => mkBook opp own pool locate end.

Lemma add_limit_order_unfold id side price qty ts b trs :
  add_limit_order id side price qty ts b trs =
  '(opp, s) ← match_against (S (length (book_side (opposite side) b)))
                (book_side (opposite side) b) id side price ts
                (λ book_px order_px, crosses_of side order_px book_px)
                (mkMatch qty (pool_ b) (locate_ b) trs);
  if 0 <? ms_qty s then
    '(own, pool, locate) ← rest (better_of side) (book_side side b) id side price (ms_qty s) ts
                             (ms_pool s) (ms_locate s);
    Some (book_with side own opp pool locate, ms_trades s)
  else Some (book_with side (book_side side b) opp (ms_pool s) (ms_locate s), ms_trades s).
Proof. by destruct side. Qed.

Lemma book_ptrs_perm s b :
  level_ptrs (bids_ b) ++ level_ptrs (asks_ b) ≡ₚ
  level_ptrs (book_side s b) ++ level_ptrs (book_side (opposite s) b).
Proof. destruct s; cbn; [done|]. apply Permutation_app_comm. Qed.

Lemma book_rep_intro cap s own opp pool locate a h :
  pool_rep cap sizeof_Order pool h →
  side_rep s h own (ab_side s a) → side_rep (opposite s) h opp (ab_side (opposite s) a) →
  NoDup (level_ptrs own ++ level_ptrs opp) → size h = length (ab_orders a) →
  locate = locate_of (ab_orders a) →
  book_rep_heap cap (book_with s own opp pool locate) a h.
Proof.
  intros Hpool Hown Hopp Hnd Hsz Hloc. constructor.
  - by destruct s.
  - intros s'. by destruct s, s'.
  - rewrite (book_ptrs_perm s). by destruct s.
  - done.
  - by destruct s.
Qed.

Lemma side_rep_frame s (h h' : heap) m L :
  (∀ x, x ∈ level_ptrs m → h' !! x = h !! x) → side_rep s h m L → side_rep s h' m L.
Proof.
  intros Hf [Hp Hl Hs]. constructor; [by eapply points_frame| |done].
  rewrite Forall_forall in Hl |- *. intros l Hin. eapply level_ok_frame; [|by apply Hl].
  intros x Hx. rewrite Hf; [done|]. apply elem_of_level_ptrs. eauto.
Qed.

(** The book between matching and resting. *)
Lemma match_rep cap s b a h h' st st' m' l q tr :
  book_rep_heap cap b a h → NoDup (o_id <$> ab_orders a) →
  ms_locate st = locate_ b →
  match_post cap h h' st st' (level_ptrs (book_side (opposite s) b)) (level_ptrs m')
             (ab_side (opposite s) a) l q tr →
  Forall (level_ok h') m' → m'.*1 `suffix_of` (book_side (opposite s) b).*1 →
  book_rep_heap cap (book_with s (book_side s b) m' (ms_pool st') (ms_locate st'))
                (ab_set (opposite s) l a) h'.
Proof.
  intros [_ Hside Hnd Hsz Hloc] Hids Hst [_ _ Hpool Hptrs Hframe [k Hk] Hsize
    (dn & un & HL & Hkey & Hdel)] Hok [k' Hk'].
  rewrite (book_ptrs_perm s), NoDup_app in Hnd. destruct Hnd as (Hnd1 & Hdis & Hnd2).
  apply book_rep_intro; [done| | | | |].
  - rewrite ab_side_set_ne. eapply side_rep_frame; [|apply Hside].
    intros x Hx. apply Hframe. auto.
  - rewrite ab_side_set_eq. constructor; [done|done|].
    pose proof (sr_sorted _ _ _ _ (Hside (opposite s))) as Hs. rewrite Hk' in Hs.
    by eapply StronglySorted_app_1_r.
  - rewrite Hk in Hdis, Hnd2. apply NoDup_app in Hnd2 as (_ & _ & Hnd2).
    apply NoDup_app. split_and!; [done| |done]. set_solver.
  - rewrite ab_orders_set_side, opposite_opposite, length_app.
    rewrite (ab_orders_side (opposite s)), opposite_opposite, length_app in Hsz. lia.
  - assert (NoDup (o_id <$> (dn ++ (un ++ ab_side s a)))) as Hnd'.
    { rewrite app_assoc, <-HL. rewrite (ab_orders_side (opposite s)), opposite_opposite in Hids. done. }
    rewrite Hdel, Hst, Hloc.
    rewrite (locate_of_perm (ab_orders a) (dn ++ (un ++ ab_side s a))); [|done|].
    2: { rewrite app_assoc, <-HL, (ab_orders_side (opposite s)), opposite_opposite. done. }
    rewrite delete_ids_locate by done.
    rewrite (okey_loc_entry _ (l ++ ab_side s a)) by (by rewrite !fmap_app, Hkey).
    symmetry. apply locate_of_perm; [|by rewrite ab_orders_set_side, opposite_opposite].
    rewrite ab_orders_set_side, opposite_opposite.
    rewrite fmap_app, NoDup_app in Hnd'. destruct Hnd' as (_ & _ & Hnd').
    rewrite fmap_app in Hnd' |- *. by rewrite (okey_ids _ _ Hkey) in Hnd'.
Qed.

(** Resting [o] when the pool has room. *)
Lemma rest_rep cap s o own opp pool locate a h :
  Z.of_nat cap < 2 ^ 31 →
  book_rep_heap cap (book_with s own opp pool locate) a h →
  NoDup (o_id <$> ab_orders a) → o_id o ∉ o_id <$> ab_orders a → o_side o = s →
  (length (ab_orders a) < cap)%nat →
  ∃ own' pool' locate', rest (better_of s) own (o_id o) s (o_price o) (o_qty o) (o_ts o) pool locate
                          = Some (own', pool', locate') ∧
    book_rep cap (book_with s own' opp pool' locate')
             (ab_set s (insert_order (better_of s) o (ab_side s a)) a).
Proof.
  intros Hcap [Hpool Hside Hnd Hsz Hloc] Hids Hfresh Hs Hroom.
  assert (pool_ (book_with s own opp pool locate) = pool) as Hp by (by destruct s).
  assert (locate_ (book_with s own opp pool locate) = locate) as Hl by (by destruct s).
  assert (book_side s (book_with s own opp pool locate) = own) as Hown by (by destruct s).
  assert (book_side (opposite s) (book_with s own opp pool locate) = opp) as Hopp by (by destruct s).
  rewrite (book_ptrs_perm s), Hown, Hopp in Hnd. rewrite Hp in Hpool. rewrite Hl in Hloc.
  destruct (acquire_ok cap sizeof_Order ltac:(unfold sizeof_Order; lia) pool h o Hpool)
    as (x & pool' & Hacq & Hx & Hpool'); [lia|].
  unfold rest. replace (mkOrder (o_id o) s (o_price o) (o_qty o) (o_ts o)) with o
    by (subst s; by destruct o).
  rewrite Hacq. cbn. do 3 eexists. split; [done|]. exists (<[x := o]> h).
  assert (∀ s' m L, side_rep s' h m L → x ∉ level_ptrs m) as Hxm.
  { intros s' m L [HL _ _] Hin. apply list_elem_of_lookup in Hin as [i Hi].
    destruct (Forall2_lookup_l _ _ _ _ _ HL Hi) as (o' & _ & Ho'). congruence. }
  pose proof (Hside s) as Hsown. pose proof (Hside (opposite s)) as Hsopp.
  rewrite Hown in Hsown. rewrite Hopp in Hsopp.
  apply book_rep_intro; [done| | | | |].
  - rewrite ab_side_set_eq. constructor; [by apply level_push_back_orders| |].
    + apply level_push_back_ok; [done|apply Hsown].
    + apply level_push_back_sorted, Hsown.
  - assert (ab_side (opposite s) (ab_set s (insert_order (better_of s) o (ab_side s a)) a)
            = ab_side (opposite s) a) as -> by (by destruct s).
    eapply side_rep_frame; [|done]. intros y Hy. apply lookup_insert_ne. intros <-.
    by eapply Hxm.
  - rewrite level_push_back_ptrs. cbn. constructor; [|done].
    apply not_elem_of_app. eauto.
  - rewrite map_size_insert_None by done. rewrite ab_orders_set_side, insert_order_perm. cbn.
    rewrite (ab_orders_side s) in Hsz. lia.
  - rewrite Hloc. assert (NoDup (o_id <$> o :: ab_orders a)) as Hnd' by (by constructor).
    change (<[o_id o := (s, o_price o)]> (locate_of (ab_orders a)))
      with (locate_of (mkOrder (o_id o) s (o_price o) (o_qty o) (o_ts o) :: ab_orders a)).
    replace (mkOrder (o_id o) s (o_price o) (o_qty o) (o_ts o)) with o by (subst s; by destruct o).
    apply locate_of_perm; [done|].
    by rewrite ab_orders_set_side, insert_order_perm, (ab_orders_side s).
Qed.

Lemma rest_full cap s o own pool locate h :
  pool_rep cap sizeof_Order pool h → size h = cap → o_side o = s →
  rest (better_of s) own (o_id o) s (o_price o) (o_qty o) (o_ts o) pool locate
    = Some (own, pool, locate).
Proof.
  intros Hpool Hfull Hs. unfold rest.
  by rewrite (acquire_full cap sizeof_Order pool h) by done.
Qed.

Lemma add_limit_order_sim cap id side price qty ts b a a' tr trs :
  Z.of_nat cap < 2 ^ 31 →
  book_rep cap b a → abook_wf a → is_u32 qty → id ∉ o_id <$> ab_orders a →
  ab_add cap id side price qty ts a = (a', tr) →
  ∃ b', add_limit_order id side price qty ts b trs = Some (b', trs ++ tr) ∧ book_rep cap b' a'.
Proof.
  intros Hcap [h Hrep] Hwf Hq Hid Hadd. rewrite add_limit_order_unfold.
  unfold ab_add in Hadd.
  destruct (match_orders (crosses_of side price) side id ts qty (ab_side (opposite side) a))
    as [[q l] tr'] eqn:Hm.
  pose proof (br_side _ _ _ _ Hrep (opposite side)) as [Hptrs Hlev Hsort].
  assert (NoDup (level_ptrs (book_side (opposite side) b))) as Hnd.
  { pose proof (br_nodup _ _ _ _ Hrep) as H. rewrite (book_ptrs_perm side), NoDup_app in H. naive_solver. }
  destruct (match_against_sim cap id side price ts (λ bp op, crosses_of side op bp) Hcap
    (S (length (book_side (opposite side) b))) (book_side (opposite side) b)
    (mkMatch qty (pool_ b) (locate_ b) trs) h (ab_side (opposite side) a) q l tr')
    as (m' & s' & h' & -> & Hpost & Hok & Hsuf); auto using wf_live; [apply Hrep|].
  pose proof (match_rep cap side b a h h' (mkMatch qty (pool_ b) (locate_ b) trs) s' m' l q tr'
                Hrep (wf_ids a Hwf) eq_refl Hpost Hok Hsuf) as Hrep1.
  pose proof (match_orders_Matched (crosses_of side price) side id ts qty _ ltac:(apply Hq)
                (wf_live a Hwf (opposite side))) as HM. rewrite Hm in HM. cbn [fst snd] in HM.
  pose proof (Matched_suffix _ _ _ _ _ HM) as Hks.
  pose proof (ab_set_suffix_wf _ _ _ Hwf Hks (Matched_live _ _ _ _ _ HM (wf_live a Hwf _))) as Hwf1.
  cbn [mbind option_bind]. rewrite (mp_qty _ _ _ _ _ _ _ _ _ _ _ Hpost).
  rewrite (mp_trades _ _ _ _ _ _ _ _ _ _ _ Hpost). cbn [ms_trades].
  destruct (0 <? q) eqn:Hpos; cbn [andb] in Hadd.
  2: { injection Hadd as <- <-. eexists. split; [done|]. by exists h'. }
  pose proof (mp_pool _ _ _ _ _ _ _ _ _ _ _ Hpost) as Hpool'.
  destruct (Nat.ltb_spec (length (ab_orders (ab_set (opposite side) l a))) cap) as [Hroom|Hfull];
    injection Hadd as <- <-.
  - destruct (rest_rep cap side (mkOrder id side price q ts) _ _ _ _ _ _ Hcap Hrep1 (wf_ids _ Hwf1)
                (suffix_ids_fresh _ _ _ _ Hks Hid) eq_refl Hroom) as (own & pool & loc & Hrest & Hb).
    cbn [o_id o_price o_qty o_ts] in Hrest. rewrite Hrest. cbn. eauto.
  - pose proof (br_size _ _ _ _ Hrep1) as Hsz.
    pose proof (pool_rep_size _ _ _ _ Hpool') as Hle.
    rewrite (rest_full cap side (mkOrder id side price q ts) _ _ _ h') by (done || lia).
    cbn. eexists. split; [done|]. by exists h'.
Qed.

(** ** cancel *)

Lemma level_find_app m1 k dq m2 :
  k ∉ m1.*1 → level_find k (m1 ++ (k, dq) :: m2) = Some dq.
Proof.
  induction m1 as [|[k' dq'] m1 IH]; cbn; intros Hk; [by rewrite Z.eqb_refl|].
  apply not_elem_of_cons in Hk as [Hne Hk]. rewrite (proj2 (Z.eqb_neq k' k)) by done. auto.
Qed.

Lemma level_erase_app m1 k dq m2 :
  k ∉ m1.*1 → level_erase k (m1 ++ (k, dq) :: m2) = m1 ++ m2.
Proof.
  induction m1 as [|[k' dq'] m1 IH]; cbn; intros Hk; [by rewrite Z.eqb_refl|].
  apply not_elem_of_cons in Hk as [Hne Hk]. rewrite (proj2 (Z.eqb_neq k' k)) by done.
  by rewrite IH.
Qed.

Lemma level_replace_app m1 k dq dq' m2 :
  k ∉ m1.*1 → level_replace k dq' (m1 ++ (k, dq) :: m2) = m1 ++ (k, dq') :: m2.
Proof.
  induction m1 as [|[k' d] m1 IH]; cbn; intros Hk; [by rewrite Z.eqb_refl|].
  apply not_elem_of_cons in Hk as [Hne Hk]. rewrite (proj2 (Z.eqb_neq k' k)) by done.
  by rewrite IH.
Qed.

Lemma level_ptrs_app m1 m2 : level_ptrs (m1 ++ m2) = level_ptrs m1 ++ level_ptrs m2.
Proof. induction m1 as [|[k dq] m1 IH]; cbn; [done|]. by rewrite IH, app_assoc. Qed.

Lemma ab_remove_app id l1 l2 : ab_remove id (l1 ++ l2) = ab_remove id l1 ++ ab_remove id l2.
Proof. apply filter_app. Qed.

Lemma ab_remove_middle l1 o l2 :
  NoDup (o_id <$> l1 ++ o :: l2) → ab_remove (o_id o) (l1 ++ o :: l2) = l1 ++ l2.
Proof.
  rewrite fmap_app, fmap_cons, NoDup_app, NoDup_cons. intros (_ & Hdis & Hni & _).
  rewrite ab_remove_app. unfold ab_remove at 2. rewrite filter_cons_False by naive_solver.
  fold (ab_remove (o_id o) l2). rewrite !ab_remove_fresh; [done|done|]. set_solver.
Qed.

(** The level an order rests on. *)
Lemma side_rep_locate s h m L o :
  side_rep s h m L → o ∈ L →
  ∃ m1 dq1 x dq2 m2 L1 L2,
    m = m1 ++ ((o_price o, dq1 ++ x :: dq2) :: m2) ∧ L = L1 ++ (o :: L2) ∧
    (o_price o ∉ m1.*1) ∧ Forall2 (points h) (level_ptrs m1 ++ dq1) L1 ∧ h !! x = Some o ∧
    Forall2 (points h) (dq2 ++ level_ptrs m2) L2.
Proof.
  intros [Hptrs Hlev Hsort] Ho. revert L Hptrs Ho.
  induction Hlev as [|[k dq] m Hk Hlev IH]; cbn in *; intros L Hptrs Ho.
  { inversion Hptrs; subst. by apply not_elem_of_nil in Ho. }
  inversion Hsort as [|? ? Hsort' Hall]; subst.
  apply Forall2_app_inv_l in Hptrs as (La & Lb & HLa & HLb & ->).
  pose proof (level_ok_prices _ _ _ _ HLa Hk) as Hpx.
  apply elem_of_app in Ho as [Ho|Ho].
  - apply list_elem_of_split in Ho as (L1 & L2 & ->).
    apply Forall2_app_inv_r in HLa as (dq1 & dq2' & Hd1 & Hd2 & ->).
    destruct dq2' as [|x dq2]; inversion Hd2; subst.
    apply Forall_app in Hpx as [_ [Hpo _]%Forall_cons]. cbn in Hpo. subst k.
    exists [], dq1, x, dq2, m, L1, (L2 ++ Lb). split_and!; try done.
    + by rewrite <-app_assoc.
    + set_solver.
    + by apply Forall2_app.
  - destruct (IH Hsort' _ HLb Ho) as (m1 & dq1 & x & dq2 & m2 & L1 & L2 & -> & -> & Hn & H1 & Hx & H2).
    exists ((k, dq) :: m1), dq1, x, dq2, m2, (La ++ L1), L2. split_and!; try done.
    + by rewrite <-app_assoc.
    + cbn. apply not_elem_of_cons. split; [|done]. intros Heq.
      rewrite Forall_forall in Hall. assert (better_of s k (o_price o) = true) as Hkk.
      { apply Hall. rewrite fmap_app, fmap_cons. set_solver. }
      side_lia s.
    + cbn. rewrite <-app_assoc. by apply Forall2_app.
Qed.

Lemma erase_order_sim cap h pool dq1 x dq2 L1 o :
  Z.of_nat cap < 2 ^ 31 → pool_rep cap sizeof_Order pool h →
  Forall2 (points h) dq1 L1 → h !! x = Some o → o_id o ∉ o_id <$> L1 →
  ∃ pool', erase_order (o_id o) (dq1 ++ x :: dq2) pool = Some (Some (dq1 ++ dq2, pool')) ∧
           pool_rep cap sizeof_Order pool' (delete x h).
Proof.
  intros Hcap Hpool HL1 Hx Hid. induction HL1 as [|y o' dq1 L1 Hy HL1 IH]; cbn [app erase_order].
  - rewrite (pool_rep_load cap _ _ h), Hx by done. cbn. rewrite Z.eqb_refl.
    destruct (release_ok cap sizeof_Order ltac:(unfold sizeof_Order; lia) Hcap pool h x o Hpool Hx)
      as (pool' & -> & Hpool'). cbn. eauto.
  - rewrite fmap_cons, not_elem_of_cons in Hid. destruct Hid as [Hne Hid].
    rewrite (pool_rep_load cap _ _ h), Hy by done. cbn.
    rewrite (proj2 (Z.eqb_neq (o_id o') (o_id o))) by done.
    destruct (IH Hid) as (pool' & -> & Hpool'). cbn. eauto.
Qed.

(** The level [k] with its deque replaced by [dq'], or dropped when [dq'] is
    empty. *)
Definition level_update (m1 : LevelMap) (k : Z) (dq' : list Z) (m2 : LevelMap) : LevelMap :=
  m1 ++ match dq' with [] => m2 | _ => (k, dq') :: m2 end.

Lemma level_update_ptrs m1 k dq' m2 :
  level_ptrs (level_update m1 k dq' m2) = level_ptrs m1 ++ dq' ++ level_ptrs m2.
Proof. unfold level_update. rewrite level_ptrs_app. by destruct dq'. Qed.

Lemma remove_from_sim cap h pool m1 dq1 x dq2 m2 L1 o :
  Z.of_nat cap < 2 ^ 31 → pool_rep cap sizeof_Order pool h → o_price o ∉ m1.*1 →
  Forall2 (points h) (level_ptrs m1 ++ dq1) L1 → h !! x = Some o → o_id o ∉ o_id <$> L1 →
  ∃ pool', remove_from (m1 ++ (o_price o, dq1 ++ x :: dq2) :: m2) (o_price o) (o_id o) pool
             = Some (true, level_update m1 (o_price o) (dq1 ++ dq2) m2, pool') ∧
           pool_rep cap sizeof_Order pool' (delete x h).
Proof.
  intros Hcap Hpool Hk HL1 Hx Hid. unfold remove_from, level_update. rewrite level_find_app by done.
  apply Forall2_app_inv_l in HL1 as (La & Lb & _ & HLb & ->).
  rewrite fmap_app, not_elem_of_app in Hid. destruct Hid as [_ Hid].
  destruct (erase_order_sim cap h pool dq1 x dq2 Lb o Hcap Hpool HLb Hx Hid) as (pool' & -> & Hp').
  exists pool'. split; [|done]. cbn.
  destruct (dq1 ++ dq2) as [|y dq'].
  - by rewrite level_erase_app.
  - by rewrite level_replace_app.
Qed.

Lemma side_rep_remove s h m1 dq1 x dq2 m2 k L1 o L2 :
  side_rep s h (m1 ++ (k, dq1 ++ x :: dq2) :: m2) (L1 ++ o :: L2) →
  NoDup (level_ptrs (m1 ++ (k, dq1 ++ x :: dq2) :: m2)) →
  Forall2 (points h) (level_ptrs m1 ++ dq1) L1 → Forall2 (points h) (dq2 ++ level_ptrs m2) L2 →
  side_rep s (delete x h) (level_update m1 k (dq1 ++ dq2) m2) (L1 ++ L2).
Proof.
  intros [_ Hlev Hsort] Hnd HL1 HL2.
  assert (x ∉ level_ptrs m1 ++ dq1 ++ dq2 ++ level_ptrs m2) as Hxn.
  { rewrite level_ptrs_app in Hnd. cbn in Hnd. rewrite <-app_assoc, (app_assoc _ dq1) in Hnd.
    apply NoDup_app in Hnd as (_ & Hd & [Hn _]%NoDup_cons). set_solver. }
  assert (∀ y, y ∈ level_ptrs m1 ++ dq1 ++ dq2 ++ level_ptrs m2 → delete x h !! y = h !! y) as Hf.
  { intros y Hy. apply lookup_delete_ne. set_solver. }
  constructor.
  - rewrite level_update_ptrs. rewrite <-app_assoc, app_assoc.
    apply Forall2_app; (eapply points_frame; [|done]); set_solver.
  - rewrite Forall_app, Forall_cons in Hlev. destruct Hlev as (Hm1 & [_ Hk] & Hm2).
    unfold level_update. apply Forall_app. split.
    + rewrite Forall_forall in Hm1 |- *. intros l Hl. eapply level_ok_frame; [|by apply Hm1].
      intros y Hy. rewrite Hf; [done|]. apply elem_of_app. left. apply elem_of_level_ptrs. eauto.
    + assert (Forall (level_ok (delete x h)) m2) as Hm2'.
      { rewrite Forall_forall in Hm2 |- *. intros l Hl. eapply level_ok_frame; [|by apply Hm2].
        intros y Hy. rewrite Hf; [done|]. rewrite !elem_of_app. do 3 right.
        apply elem_of_level_ptrs. eauto. }
      destruct (dq1 ++ dq2) as [|y dq'] eqn:Hdq; [done|]. constructor; [|done].
      split; [done|]. cbn in Hk |- *. rewrite <-Hdq.
      rewrite Forall_app, Forall_cons in Hk. destruct Hk as (Hk1 & _ & Hk2).
      apply Forall_app. split; rewrite Forall_forall in *; intros z Hz; rewrite Hf by set_solver; auto.
  - rewrite fmap_app, fmap_cons in Hsort. unfold level_update. rewrite fmap_app.
    destruct (dq1 ++ dq2); [|done].
    rewrite StronglySorted_app in Hsort |- *. destruct Hsort as (Hx & H1 & H2).
    inversion H2; subst. split_and!; [|done|done]. set_solver.
Qed.

Lemma cancel_unfold id b s price :
  locate_ b !! id = Some (s, price) →
  cancel id b =
  '(removed, own, pool) ← remove_from (book_side s b) price id (pool_ b);
  Some (removed, book_with s own (book_side (opposite s) b) pool
                   (if removed : bool then delete id (locate_ b) else locate_ b)).
Proof. intros Hl. unfold cancel. rewrite Hl. by destruct s. Qed.

Lemma wf_elem_side a o : abook_wf a → o ∈ ab_orders a → o ∈ ab_side (o_side o) a.
Proof.
  intros Hwf Ho. pose proof (wf_side a Hwf Buy) as Hb. pose proof (wf_side a Hwf Sell) as Hs.
  rewrite Forall_forall in Hb, Hs. apply elem_of_app in Ho as [Ho|Ho].
  - specialize (Hb o Ho) as ->. done.
  - specialize (Hs o Ho) as ->. done.
Qed.

Lemma locate_remove o l l' :
  NoDup (o_id <$> l) → l ≡ₚ o :: l' → delete (o_id o) (locate_of l) = locate_of l'.
Proof.
  intros Hnd Hp. rewrite (locate_of_perm l (o :: l')) by done.
  rewrite Hp in Hnd. by apply (delete_ids_locate [o] l').
Qed.

(** What cancelling [o] does to the two sides. *)
Lemma ab_cancel_split a s o L1 L2 :
  NoDup (o_id <$> ab_orders a) → ab_side s a = L1 ++ o :: L2 →
  let a' := mkABook (ab_remove (o_id o) (ab_bids a)) (ab_remove (o_id o) (ab_asks a)) in
  (o_id o ∉ o_id <$> L1) ∧ ab_side s a' = L1 ++ L2 ∧
  ab_side (opposite s) a' = ab_side (opposite s) a ∧ ab_orders a ≡ₚ o :: ab_orders a'.
Proof.
  intros Hids HL a'. pose proof (ab_orders_side s a) as Hperm. rewrite HL in Hperm.
  assert (NoDup (o_id <$> (L1 ++ o :: L2) ++ ab_side (opposite s) a)) as Hnd by (by rewrite <-Hperm).
  assert (NoDup (o_id <$> L1 ++ o :: L2)) as HndL.
  { rewrite fmap_app in Hnd. by apply NoDup_app in Hnd as [? _]. }
  rewrite <-Permutation_middle in Hnd. cbn in Hnd. apply NoDup_cons in Hnd as [Hnew _].
  rewrite !fmap_app, !not_elem_of_app in Hnew. destruct Hnew as ((H1 & H2) & Ho).
  assert (ab_side s a' = L1 ++ L2) as Hs.
  { rewrite <-(ab_remove_middle L1 o L2), <-HL by done. by destruct s. }
  assert (ab_side (opposite s) a' = ab_side (opposite s) a) as Hso.
  { rewrite <-(ab_remove_fresh (o_id o) (ab_side (opposite s) a)) by done. by destruct s. }
  split_and!; [done|done|done|].
  rewrite Hperm, (ab_orders_side s a'), Hs, Hso. by rewrite <-!app_assoc, Permutation_middle.
Qed.

Lemma cancel_sim cap id b a removed a' :
  Z.of_nat cap < 2 ^ 31 → book_rep cap b a → abook_wf a →
  ab_cancel id a = (removed, a') →
  ∃ b', cancel id b = Some (removed, b') ∧ book_rep cap b' a'.
Proof.
  intros Hcap [h Hrep] Hwf Hc. unfold ab_cancel in Hc. case_decide as Hid; cycle 1.
  { injection Hc as <- <-. exists b. split; [|by exists h]. unfold cancel.
    by rewrite (br_locate _ _ _ _ Hrep), (proj1 (locate_of_None _ _) Hid). }
  apply list_elem_of_fmap in Hid as (o & -> & Ho). injection Hc as <- <-.
  pose proof (wf_elem_side a o Hwf Ho) as Hos. pose proof (wf_ids a Hwf) as Hids.
  pose proof (locate_of_lookup _ _ Hids Ho) as Hloc. set (s := o_side o) in *.
  destruct (side_rep_locate s h _ _ o (br_side _ _ _ _ Hrep s) Hos)
    as (m1 & dq1 & x & dq2 & m2 & L1 & L2 & Hm & HL & Hk & HL1 & Hx & HL2).
  destruct (ab_cancel_split a s o L1 L2 Hids HL) as (HoL1 & Hs & Hso & Hperm').
  destruct (remove_from_sim cap h (pool_ b) m1 dq1 x dq2 m2 L1 o Hcap (br_pool _ _ _ _ Hrep)
              Hk HL1 Hx HoL1) as (pool' & Hrm & Hpool').
  rewrite (cancel_unfold _ _ s (o_price o)) by (by rewrite (br_locate _ _ _ _ Hrep)).
  rewrite Hm, Hrm. cbn. eexists. split; [done|]. exists (delete x h).
  set (a' := mkABook _ _) in *.
  pose proof (br_nodup _ _ _ _ Hrep) as Hndp. rewrite (book_ptrs_perm s), Hm in Hndp.
  apply NoDup_app in Hndp as (Hnd1 & Hdisp & Hnd2).
  assert (level_ptrs (m1 ++ (o_price o, dq1 ++ x :: dq2) :: m2) ≡ₚ
          x :: level_ptrs (level_update m1 (o_price o) (dq1 ++ dq2) m2)) as Hpp.
  { rewrite level_update_ptrs, level_ptrs_app. cbn. solve_Permutation. }
  apply book_rep_intro; [done| | | | |].
  - rewrite Hs. apply side_rep_remove with (o := o); [|done|done|done].
    rewrite <-Hm, <-HL. apply Hrep.
  - rewrite Hso. eapply side_rep_frame; [|apply Hrep]. intros y Hy. apply lookup_delete_ne.
    intros <-. apply (Hdisp x); [|done]. rewrite Hpp. by left.
  - rewrite Hpp in Hnd1. apply NoDup_cons in Hnd1 as [_ Hnd1].
    apply NoDup_app. split_and!; [done| |done]. intros y Hy. apply Hdisp.
    rewrite Hpp. by right.
  - rewrite map_size_delete_Some, (br_size _ _ _ _ Hrep), Hperm' by eauto. done.
  - rewrite (br_locate _ _ _ _ Hrep). by apply locate_remove.
Qed.

(** ** Queries *)

Lemma level_qty_sim cap h pool dq L : ∀ q,
  pool_rep cap sizeof_Order pool h → Forall2 (points h) dq L → is_u32 q →
  level_qty q dq pool = Some (u32 (q + sumZ o_qty L)).
Proof.
  intros q Hpool HL. revert q. induction HL as [|x o dq L Hx HL IH]; intros q Hq; cbn.
  - by rewrite Z.add_0_r, wrap_unsigned_id.
  - rewrite (pool_rep_load cap _ _ h), Hx by done. cbn.
    rewrite IH by (by apply wrap_unsigned_fits). by rewrite wrap_unsigned_add_l, Z.add_assoc.
Qed.

(** Best price first: the first level is exactly the orders at the best price. *)
Lemma side_rep_head s h k dq m L :
  side_rep s h ((k, dq) :: m) L →
  ∃ o L1 L2, L = (o :: L1) ++ L2 ∧ Forall2 (points h) dq (o :: L1) ∧ o_price o = k ∧
             filter (λ o', o_price o' = k) L = o :: L1.
Proof.
  intros [Hptrs [Hdq Hlev]%Forall_cons Hsort]. cbn in Hptrs, Hsort.
  apply Forall2_app_inv_l in Hptrs as (La & Lb & HLa & HLb & ->).
  pose proof (level_ok_prices _ _ _ _ HLa Hdq) as Hpx.
  assert (∃ o L1, La = o :: L1) as (o & L1 & ->) by (destruct HLa; [by destruct Hdq|eauto]).
  exists o, L1, Lb. split_and!; [done|done|by apply Forall_cons in Hpx as [? _]|].
  rewrite filter_app, (filter_all _ (o :: L1)) by done.
  rewrite (filter_none _ Lb); [by rewrite app_nil_r|].
  rewrite Forall_forall. intros o' Ho' Hk. inversion Hsort as [|? ? _ Hall]; subst. rewrite Forall_forall in Hall. rewrite Forall_forall in Hlev.
  apply list_elem_of_lookup in Ho' as [i Hi].
  destruct (Forall2_lookup_r _ _ _ _ _ HLb Hi) as (x & Hxi & Hx).
  apply list_elem_of_lookup_2, elem_of_level_ptrs in Hxi as ([k' dq'] & Hl & Hxl).
  destruct (Hlev _ Hl) as [_ Hp]. rewrite Forall_forall in Hp. specialize (Hp x Hxl).
  rewrite Hx in Hp. cbn in Hp. injection Hp as <-.
  assert (better_of s (o_price o') (o_price o') = true) as Hb.
  { apply Hall. apply list_elem_of_fmap. by exists (o_price o', dq'). }
  side_lia s.
Qed.

Lemma best_of_sim cap s h pool m L :
  pool_rep cap sizeof_Order pool h → side_rep s h m L →
  best_of m pool = Some ((λ pq, (pq.1, u32 pq.2)) <$> ab_best L).
Proof.
  intros Hpool Hs. destruct m as [|[k dq] m].
  { destruct Hs as [Hp _ _]. by inversion Hp. }
  destruct (side_rep_head _ _ _ _ _ _ Hs) as (o & L1 & L2 & -> & Hdq & Ho & Hf).
  unfold best_of. rewrite (level_qty_sim cap h pool dq (o :: L1) 0) by done. cbn [mbind option_bind].
  unfold ab_best. cbn [app fmap option_fmap option_map fst snd].
  change (o :: L1 ++ L2) with ((o :: L1) ++ L2). by rewrite Ho, Hf.
Qed.

Lemma print_side_total cap h pool depth : ∀ m L shown,
  pool_rep cap sizeof_Order pool h → Forall2 (points h) (level_ptrs m) L →
  is_Some (print_side depth shown m pool).
Proof.
  induction m as [|[k dq] m IH]; intros L shown Hpool HL; cbn in HL |- *; [eauto|].
  apply Forall2_app_inv_l in HL as (L1 & L2 & H1 & H2 & ->). destruct (shown <? depth); [|eauto].
  rewrite (level_qty_sim cap h pool dq L1 0) by done. cbn [mbind option_bind].
  destruct (IH L2 (shown + 1) Hpool H2) as [rows ->]. cbn. eauto.
Qed.

Lemma print_top_total cap depth b a : book_rep cap b a → is_Some (print_top depth b).
Proof.
  intros [h Hrep]. destruct (br_side _ _ _ _ Hrep Sell) as [Hp1 _ _], (br_side _ _ _ _ Hrep Buy) as [Hp2 _ _].
  unfold print_top. destruct (print_side_total cap h (pool_ b) depth (asks_ b) _ 0 (br_pool _ _ _ _ Hrep) Hp1) as [r1 ->].
  cbn [mbind option_bind].
  destruct (print_side_total cap h (pool_ b) depth (bids_ b) _ 0 (br_pool _ _ _ _ Hrep) Hp2) as [r2 ->]. cbn. eauto.
Qed.

Lemma book_rep_resting cap b a :
  book_rep cap b a → abook_wf a → resting_orders b = length (ab_orders a).
Proof.
  intros [h Hrep] Hwf. unfold resting_orders. rewrite (br_locate _ _ _ _ Hrep).
  unfold locate_of. rewrite map_size_list_to_map; [by rewrite length_fmap|].
  rewrite locate_of_fst. apply Hwf.
Qed.

Lemma book_rep_fresh cap b a id :
  book_rep cap b a → locate_ b !! id = None ↔ id ∉ o_id <$> ab_orders a.
Proof. intros [h Hrep]. rewrite (br_locate _ _ _ _ Hrep). symmetry. apply locate_of_None. Qed.

Lemma book_new_rep cap :
  Z.of_nat cap < 2 ^ 31 → book_rep cap (book_new cap) (mkABook [] []).
Proof.
  intros Hcap. exists ∅. apply (book_rep_intro cap Buy).
  - by apply pool_new_rep.
  - repeat constructor.
  - repeat constructor.
  - constructor.
  - by rewrite map_size_empty.
  - done.
Qed.

Lemma abook_empty_wf : abook_wf (mkABook [] []).
Proof.
  constructor; try (intros []; constructor); [constructor|].
  intros b s Hb. by apply not_elem_of_nil in Hb.
Qed.

#[export] Hint Resolve book_new_rep abook_empty_wf : wf.

Lemma best_bid_sim cap b a :
  book_rep cap b a → best_bid b = Some ((λ pq, (pq.1, u32 pq.2)) <$> ab_best (ab_bids a)).
Proof.
  intros [h Hrep]. apply (best_of_sim cap Buy h); [apply Hrep|].
  apply (br_side _ _ _ _ Hrep Buy).
Qed.

Lemma best_ask_sim cap b a :
  book_rep cap b a → best_ask b = Some ((λ pq, (pq.1, u32 pq.2)) <$> ab_best (ab_asks a)).
Proof.
  intros [h Hrep]. apply (best_of_sim cap Sell h); [apply Hrep|].
  apply (br_side _ _ _ _ Hrep Sell).
Qed.
