(* ===== verification/BookProperties.v ===== *)
(** * BookProperties: what [OrderBook] guarantees

    Reachable books, and the properties of [add_limit_order], [cancel],
    [best_bid] and [best_ask] on them.  The proofs combine the refinement of
    [OrderBookProofs] with the facts [PriceTime] proves about the
    specification. *)

From S2P Require Import Prelude Types ObjectPool OrderBook PriceTime OrderBookProofs.

#[local] Open Scope Z_scope.

(** Books obtained from a fresh one by the two mutating operations, new orders
    carrying an id that is not resting (the caller's obligation that
    [matching_engine_consumer.hpp] spells out). *)
Inductive book_reach (cap : nat) : OrderBook → Prop :=
| reach_new : book_reach cap (book_new cap)
| reach_add id side price qty ts b trs b' trs' :
    book_reach cap b → locate_ b !! id = None → is_u32 qty →
    add_limit_order id side price qty ts b trs = Some (b', trs') → book_reach cap b'
| reach_cancel id b removed b' :
    book_reach cap b → cancel id b = Some (removed, b') → book_reach cap b'.

Lemma add_sim_wf cap id side price qty ts b a trs :
  Z.of_nat cap < 2 ^ 31 → book_rep cap b a → abook_wf a → is_u32 qty →
  locate_ b !! id = None →
  ∃ a' tr b', ab_add cap id side price qty ts a = (a', tr) ∧
    add_limit_order id side price qty ts b trs = Some (b', trs ++ tr) ∧
    book_rep cap b' a' ∧ abook_wf a'.
Proof.
  intros Hcap Hrep Hwf Hq Hid. apply (book_rep_fresh cap b a id Hrep) in Hid.
  destruct (ab_add cap id side price qty ts a) as [a' tr] eqn:Hadd.
  destruct (add_limit_order_sim cap id side price qty ts b a a' tr trs) as (b' & Hb & Hrep'); auto.
  exists a', tr, b'. eauto 6 with wf.
Qed.

Lemma cancel_sim_wf cap id b a :
  Z.of_nat cap < 2 ^ 31 → book_rep cap b a → abook_wf a →
  ∃ b', cancel id b = Some ((ab_cancel id a).1, b') ∧
        book_rep cap b' (ab_cancel id a).2 ∧ abook_wf (ab_cancel id a).2.
Proof.
  intros Hcap Hrep Hwf. destruct (ab_cancel id a) as [r a'] eqn:Hc.
  destruct (cancel_sim cap id b a r a' Hcap Hrep Hwf Hc) as (b' & Hb & Hrep').
  eauto with wf.
Qed.

Lemma book_reach_rep cap b :
  Z.of_nat cap < 2 ^ 31 → book_reach cap b → ∃ a, book_rep cap b a ∧ abook_wf a.
Proof.
  intros Hcap. induction 1 as [|id side price qty ts b trs b' trs' _ IH Hid Hq Hadd
                               |id b removed b' _ IH Hc].
  - eauto with wf.
  - destruct IH as (a & Hrep & Hwf).
    destruct (add_sim_wf cap id side price qty ts b a trs Hcap Hrep Hwf Hq Hid)
      as (a' & tr & b'' & _ & Hadd' & Hrep' & Hwf'). simplify_eq. eauto.
  - destruct IH as (a & Hrep & Hwf).
    destruct (cancel_sim_wf cap id b a Hcap Hrep Hwf) as (b'' & Hc' & Hrep' & Hwf').
    simplify_eq. eauto.
Qed.

(** ** A concrete book used by the witnesses

    Two bids at 100 (ids 1 and 2), one at 99 (id 3), one ask at 105 (id 4). *)

Definition step_add (id : Z) (side : Side) (price qty : Z) (b : OrderBook) : OrderBook :=
  match add_limit_order id side price qty 0 b [] with Some (b', _) => b' | None => b end.

Definition demo_book : OrderBook :=
  step_add 4 Sell 105 7 (step_add 3 Buy 99 2 (step_add 2 Buy 100 5 (step_add 1 Buy 100 10
    (book_new 8)))).

Definition demo_abook : ABook :=
  mkABook [mkOrder 1 Buy 100 10 0; mkOrder 2 Buy 100 5 0; mkOrder 3 Buy 99 2 0]
          [mkOrder 4 Sell 105 7 0].

Lemma step_add_reach cap id side price qty b :
  Z.of_nat cap < 2 ^ 31 → book_reach cap b → locate_ b !! id = None → is_u32 qty →
  book_reach cap (step_add id side price qty b).
Proof.
  intros Hcap Hb Hid Hq. unfold step_add.
  destruct (add_limit_order id side price qty 0 b []) as [[b' tr]|] eqn:Ha; [|done].
  by eapply reach_add.
Qed.

Lemma step_add_rep cap id side price qty b a :
  book_rep cap b a ∧ abook_wf a →
  Z.of_nat cap < 2 ^ 31 → locate_ b !! id = None → is_u32 qty →
  book_rep cap (step_add id side price qty b) (ab_add cap id side price qty 0 a).1 ∧
  abook_wf (ab_add cap id side price qty 0 a).1.
Proof.
  intros [Hb Hwf] Hcap Hid Hq. unfold step_add.
  destruct (add_sim_wf cap id side price qty 0 b a [] Hcap Hb Hwf Hq Hid)
    as (a' & tr & b' & -> & -> & Hrep & Hwf'). done.
Qed.

Lemma demo_book_reach : book_reach 8 demo_book.
Proof.
  unfold demo_book. repeat (apply step_add_reach; [lia| |reflexivity|word_lia]).
  constructor.
Qed.

Lemma demo_book_rep : book_rep 8 demo_book demo_abook ∧ abook_wf demo_abook.
Proof.
  change demo_abook with
    (ab_add 8 4 Sell 105 7 0 (ab_add 8 3 Buy 99 2 0 (ab_add 8 2 Buy 100 5 0
      (ab_add 8 1 Buy 100 10 0 (mkABook [] [])).1).1).1).1.
  unfold demo_book. do 4 (apply step_add_rep; [|lia|reflexivity|word_lia]).
  split; [by apply book_new_rep|apply abook_empty_wf].
Qed.

(** ** Properties *)

(** C1: [add_limit_order] refines price-time priority.  On a book that
    represents a well-formed list of resting orders, and for a new id, the call
    returns, appends exactly the trades of the specification to [trades_out]
    (which is not cleared), and leaves a book that represents the
    specification's result, again well-formed. *)
Theorem add_limit_order_refines cap id side price qty ts b a trs :
  Z.of_nat cap < 2 ^ 31 → book_rep cap b a → abook_wf a → is_u32 qty →
  locate_ b !! id = None →
  ∃ b', add_limit_order id side price qty ts b trs
          = Some (b', trs ++ (ab_add cap id side price qty ts a).2) ∧
        book_rep cap b' (ab_add cap id side price qty ts a).1 ∧
        abook_wf (ab_add cap id side price qty ts a).1.
Proof.
  intros Hcap Hrep Hwf Hq Hid.
  destruct (add_sim_wf cap id side price qty ts b a trs Hcap Hrep Hwf Hq Hid)
    as (a' & tr & b' & -> & Hadd & ? & ?). eauto.
Qed.

(** A sell of 12 at 99 takes id 1 (10) and 2 lots of id 2, both at 100. *)
Lemma add_limit_order_refines_witness :
  ∃ b', add_limit_order 9 Sell 99 12 77 demo_book []
          = Some (b', [mkTrade 1 9 100 10 77; mkTrade 2 9 100 2 77]) ∧
        book_rep 8 b' (mkABook [mkOrder 2 Buy 100 3 0; mkOrder 3 Buy 99 2 0]
                               [mkOrder 4 Sell 105 7 0]).
Proof.
  destruct demo_book_rep as [Hrep Hwf].
  destruct (add_limit_order_refines 8 9 Sell 99 12 77 demo_book demo_abook []
              ltac:(lia) Hrep Hwf ltac:(word_lia) eq_refl) as (b' & Hadd & Hb & _).
  exists b'. split; [exact Hadd|exact Hb].
Defined.

(** Memory safety and termination of [add_limit_order] and [cancel].  From
    any reachable book both loops finish within their fuel and no pointer into
    the pool is used after release, whatever the arguments. *)
Theorem book_ops_return cap b :
  Z.of_nat cap < 2 ^ 31 → book_reach cap b →
  (∀ id side price qty ts trs, is_u32 qty → locate_ b !! id = None →
     ∃ b' tr, add_limit_order id side price qty ts b trs = Some (b', trs ++ tr) ∧
              book_reach cap b') ∧
  (∀ id, ∃ removed b', cancel id b = Some (removed, b') ∧ book_reach cap b').
Proof.
  intros Hcap Hb. destruct (book_reach_rep cap b Hcap Hb) as (a & Hrep & Hwf). split.
  - intros id side price qty ts trs Hq Hid.
    destruct (add_sim_wf cap id side price qty ts b a trs Hcap Hrep Hwf Hq Hid)
      as (a' & tr & b' & _ & Hadd & _ & _). eauto using reach_add.
  - intros id. destruct (cancel_sim_wf cap id b a Hcap Hrep Hwf) as (b' & Hc & _ & _).
    eauto using reach_cancel.
Qed.

Lemma book_ops_return_witness :
  ∃ removed b', cancel 2 demo_book = Some (removed, b') ∧ book_reach 8 b'.
Proof. apply (book_ops_return 8 demo_book ltac:(lia) demo_book_reach). Defined.

(** C9: The book is never crossed: whenever both sides have a best price, the
    best bid is strictly below the best ask. *)
Theorem book_never_crossed cap b pb qb pa qa :
  Z.of_nat cap < 2 ^ 31 → book_reach cap b →
  best_bid b = Some (Some (pb, qb)) → best_ask b = Some (Some (pa, qa)) → pb < pa.
Proof.
  intros Hcap Hb Hbid Hask. destruct (book_reach_rep cap b Hcap Hb) as (a & Hrep & Hwf).
  rewrite (best_bid_sim cap b a Hrep) in Hbid. rewrite (best_ask_sim cap b a Hrep) in Hask.
  destruct a as [[|o1 bs] [|o2 asks]]; try done. cbn in Hbid, Hask. simplify_eq.
  apply (wf_uncrossed _ Hwf); cbn; by left.
Qed.

Lemma book_never_crossed_witness : 100 < 105.
Proof.
  apply (book_never_crossed 8 demo_book 100 15 105 7 ltac:(lia) demo_book_reach);
    vm_compute; reflexivity.
Defined.

(** C10: Conservation of quantity.  With room in the pool, the quantity resting
    before plus the incoming quantity equals the quantity resting after plus
    both legs of every trade; and the incoming order is never over-filled. *)
Theorem add_limit_order_conserves cap id side price qty ts b a b' tr :
  Z.of_nat cap < 2 ^ 31 → book_rep cap b a → abook_wf a → is_u32 qty →
  locate_ b !! id = None → (resting_orders b < cap)%nat →
  add_limit_order id side price qty ts b [] = Some (b', tr) →
  ∃ a', book_rep cap b' a' ∧
    sumZ o_qty (ab_orders a') + 2 * sumZ t_qty tr = sumZ o_qty (ab_orders a) + qty ∧
    0 ≤ sumZ t_qty tr ≤ qty.
Proof.
  intros Hcap Hrep Hwf Hq Hid Hroom Hadd.
  destruct (add_sim_wf cap id side price qty ts b a [] Hcap Hrep Hwf Hq Hid)
    as (a' & tr' & b'' & Hab & Hadd' & Hrep' & _). simplify_eq/=.
  exists a'. split; [done|]. rewrite (book_rep_resting cap b a) in Hroom by done.
  split; [eapply ab_add_conserve; [done|apply Hq|done|exact Hab]|].
  destruct (ab_add_cases _ _ _ _ _ _ _ _ _ Hwf ltac:(apply Hq) Hab) as (q & l & Hm & _).
  pose proof (Matched_conserve _ _ _ _ _ Hm). pose proof (Matched_nonneg _ _ _ _ _ Hm ltac:(apply Hq)).
  split; [|lia]. apply sumZ_nonneg.
  eapply Forall_impl; [exact (Matched_trades _ _ _ _ _ Hm)|]. cbn. naive_solver lia.
Qed.

Lemma add_limit_order_conserves_witness :
  ∃ a', book_rep 8 (step_add 9 Sell 99 12 demo_book) a' ∧
    sumZ o_qty (ab_orders a') + 2 * 12 = sumZ o_qty (ab_orders demo_abook) + 12 ∧ 0 ≤ 12 ≤ 12.
Proof.
  destruct demo_book_rep as [Hrep Hwf].
  apply (add_limit_order_conserves 8 9 Sell 99 12 0 demo_book demo_abook
           (step_add 9 Sell 99 12 demo_book) [mkTrade 1 9 100 10 0; mkTrade 2 9 100 2 0]
           ltac:(lia) Hrep Hwf ltac:(word_lia) eq_refl);
    vm_compute; [lia|reflexivity].
Defined.

(** Price-time priority of the trades.  The orders hit are a prefix of the
    opposite side's priority list, each trade executes at the resting order's
    price, that price is acceptable to the incoming order, and the incoming
    order's id is the other leg. *)
Theorem add_limit_order_trades cap id side price qty ts b a b' tr :
  Z.of_nat cap < 2 ^ 31 → book_rep cap b a → abook_wf a → is_u32 qty →
  locate_ b !! id = None →
  add_limit_order id side price qty ts b [] = Some (b', tr) →
  (counterparty side <$> tr) `prefix_of` (o_id <$> ab_side (opposite side) a) ∧
  (t_price <$> tr) `prefix_of` (o_price <$> ab_side (opposite side) a) ∧
  Forall (λ t, crosses_of side price (t_price t) = true ∧ 0 < t_qty t ∧
               counterparty (opposite side) t = id ∧ t_ts t = ts) tr.
Proof.
  intros Hcap Hrep Hwf Hq Hid Hadd.
  destruct (add_sim_wf cap id side price qty ts b a [] Hcap Hrep Hwf Hq Hid)
    as (a' & tr' & b'' & Hab & Hadd' & _ & _). simplify_eq/=.
  destruct (ab_add_cases _ _ _ _ _ _ _ _ _ Hwf ltac:(apply Hq) Hab) as (q & l & Hm & _).
  split_and!; [by eapply Matched_prefix|by eapply Matched_trade_prices|].
  eapply Forall_impl; [exact (Matched_trades _ _ _ _ _ Hm)|]. cbn.
  intros t (o & _ & Hc & Ht & ->). cbn. split_and!; [done|lia|by destruct side|done].
Qed.

Lemma add_limit_order_trades_witness :
  Forall (λ t, crosses_of Sell 99 (t_price t) = true ∧ 0 < t_qty t ∧
               counterparty Buy t = 9 ∧ t_ts t = 0)
         [mkTrade 1 9 100 10 0; mkTrade 2 9 100 2 0].
Proof.
  destruct demo_book_rep as [Hrep Hwf].
  apply (add_limit_order_trades 8 9 Sell 99 12 0 demo_book demo_abook
           (step_add 9 Sell 99 12 demo_book) _ ltac:(lia) Hrep Hwf
           ltac:(word_lia) eq_refl).
  vm_compute. reflexivity.
Defined.

(** C14: [cancel] refines removal.  It returns [true] exactly when the id is
    resting, then removes that order and nothing else; otherwise the book is
    unchanged. *)
Theorem cancel_refines cap id b a :
  Z.of_nat cap < 2 ^ 31 → book_rep cap b a → abook_wf a →
  (id ∈ o_id <$> ab_orders a →
     ∃ b', cancel id b = Some (true, b') ∧
       book_rep cap b' (mkABook (ab_remove id (ab_bids a)) (ab_remove id (ab_asks a))) ∧
       locate_ b' = delete id (locate_ b) ∧
       S (resting_orders b') = resting_orders b) ∧
  (id ∉ o_id <$> ab_orders a → cancel id b = Some (false, b)).
Proof.
  intros Hcap Hrep Hwf. split; intros Hid.
  - destruct (cancel_sim_wf cap id b a Hcap Hrep Hwf) as (b' & Hc & Hrep' & Hwf').
    unfold ab_cancel in *. rewrite decide_True in Hc, Hrep', Hwf' by done. cbn in *.
    exists b'. split; [done|]. split; [done|].
    assert (locate_ b' = delete id (locate_ b)) as Hloc.
    { destruct Hrep as [h Hrep], Hrep' as [h' Hrep'].
      rewrite (br_locate _ _ _ _ Hrep), (br_locate _ _ _ _ Hrep').
      apply list_elem_of_fmap in Hid as (o & -> & Ho). symmetry.
      apply locate_remove; [apply Hwf|].
      unfold ab_orders at 2. cbn. rewrite ab_remove_orders.
      pose proof (wf_ids a Hwf) as Hnd.
      apply list_elem_of_split in Ho as (l1 & l2 & Hl). rewrite Hl in Hnd |- *.
      rewrite ab_remove_middle by done. by rewrite Permutation_middle. }
    split; [done|]. unfold resting_orders. rewrite Hloc.
    apply (book_rep_fresh cap b a id) in Hrep as Hf.
    destruct (locate_ b !! id) as [v|] eqn:Hl.
    + rewrite map_size_delete_Some by eauto.
      assert (size (locate_ b) ≠ 0%nat); [|lia].
      intros Hz%map_size_empty_iff. by rewrite Hz, lookup_empty in Hl.
    + by destruct (proj1 Hf eq_refl).
  - unfold cancel. by rewrite (proj2 (book_rep_fresh cap b a id Hrep)).
Qed.

Lemma cancel_refines_witness :
  ∃ b', cancel 2 demo_book = Some (true, b') ∧
    book_rep 8 b' (mkABook [mkOrder 1 Buy 100 10 0; mkOrder 3 Buy 99 2 0]
                           [mkOrder 4 Sell 105 7 0]).
Proof.
  destruct demo_book_rep as [Hrep Hwf].
  destruct (cancel_refines 8 2 demo_book demo_abook ltac:(lia) Hrep Hwf) as [Hyes _].
  destruct Hyes as (b' & Hc & Hb & _); [vm_compute; by right; left|].
  exists b'. split; [exact Hc|exact Hb].
Defined.

(** C40: [best_bid] and [best_ask] report the best resting price of the side;
    the quantity is the sum over that price level reduced modulo 2^32, the
    width of the accumulator. *)
Theorem best_quotes_correct cap b a s :
  book_rep cap b a → abook_wf a →
  match (match s with Buy => best_bid b | Sell => best_ask b end) with
  | None => False
  | Some None => ab_side s a = []
  | Some (Some (p, q)) =>
      (∃ o, o ∈ ab_side s a ∧ o_price o = p) ∧
      Forall (λ o, better_of s (o_price o) p = false) (ab_side s a) ∧
      q = sumZ o_qty (filter (λ o, o_price o = p) (ab_side s a)) mod 2 ^ 32
  end.
Proof.
  intros Hrep Hwf.
  assert ((match s with Buy => best_bid b | Sell => best_ask b end)
          = Some ((λ pq, (pq.1, u32 pq.2)) <$> ab_best (ab_side s a))) as ->.
  { destruct s; [by apply (best_bid_sim cap)|by apply (best_ask_sim cap)]. }
  destruct (ab_best (ab_side s a)) as [[p q]|] eqn:Hb; cbn.
  - destruct (ab_best_is_best s a p q Hwf Hb) as (Ho & Hall & ->). done.
  - destruct (ab_side s a); [done|]. by cbn in Hb.
Qed.

Lemma best_quotes_correct_witness :
  best_bid demo_book = Some (Some (100, 15)) ∧
  (15 = sumZ o_qty (filter (λ o, o_price o = 100) (ab_bids demo_abook)) mod 2 ^ 32).
Proof.
  split; [vm_compute; reflexivity|].
  destruct demo_book_rep as [Hrep Hwf].
  pose proof (best_quotes_correct 8 demo_book demo_abook Buy Hrep Hwf) as H.
  replace (best_bid demo_book) with (Some (Some (100, 15))) in H by (vm_compute; reflexivity).
  apply H.
Defined.

(** The quantity shown at the touch can wrap: two resting bids of 2^31 lots
    at one price are reported as quantity 0. *)
Theorem best_bid_quantity_wraps :
  best_bid (step_add 2 Buy 100 (2 ^ 31) (step_add 1 Buy 100 (2 ^ 31) (book_new 2)))
    = Some (Some (100, 0)).
Proof. vm_compute. reflexivity. Qed.

(** Time priority is an invariant.  If every new id is larger than all
    resting ids (as exchange ids taken from the sequence number are), the
    priority lists stay strictly ordered by price and then by id, so among
    equal prices the earliest order is always in front. *)
Theorem add_limit_order_time_priority cap id side price qty ts b a b' tr :
  Z.of_nat cap < 2 ^ 31 → book_rep cap b a → abook_wf a → is_u32 qty →
  time_ordered a → Forall (λ o, o_id o < id) (ab_orders a) →
  add_limit_order id side price qty ts b [] = Some (b', tr) →
  ∃ a', book_rep cap b' a' ∧ time_ordered a'.
Proof.
  intros Hcap Hrep Hwf Hq Hto Hids Hadd.
  assert (locate_ b !! id = None) as Hid.
  { apply (book_rep_fresh cap b a id Hrep). intros (o & -> & Ho)%list_elem_of_fmap.
    rewrite Forall_forall in Hids. specialize (Hids o Ho). lia. }
  destruct (add_sim_wf cap id side price qty ts b a [] Hcap Hrep Hwf Hq Hid)
    as (a' & tr' & b'' & Hab & Hadd' & Hrep' & _). simplify_eq/=.
  exists a'. split; [done|]. eapply ab_add_time_ordered; [exact Hwf|apply Hq|done|done|exact Hab].
Qed.

Lemma add_limit_order_time_priority_witness :
  ∃ a', book_rep 8 (step_add 5 Buy 100 4 demo_book) a' ∧ time_ordered a'.
Proof.
  destruct demo_book_rep as [Hrep Hwf].
  apply (add_limit_order_time_priority 8 5 Buy 100 4 0 demo_book demo_abook
           (step_add 5 Buy 100 4 demo_book) [] ltac:(lia) Hrep Hwf
           ltac:(word_lia)).
  - intros []; repeat constructor; unfold earlier; cbn; lia.
  - repeat constructor; cbn; lia.
  - vm_compute. reflexivity.
Defined.

(** Pool exhaustion.  When the pool is full and nothing crosses, a new
    order is dropped without a trace: the call returns the book unchanged and
    reports no trade. *)
Theorem add_limit_order_pool_full cap id side price qty ts b trs :
  Z.of_nat cap < 2 ^ 31 → book_reach cap b → is_u32 qty → locate_ b !! id = None →
  resting_orders b = cap → book_side (opposite side) b = [] →
  add_limit_order id side price qty ts b trs = Some (b, trs).
Proof.
  intros Hcap Hb Hq Hid Hfull Hnone. destruct (book_reach_rep cap b Hcap Hb) as (a & Hrep & Hwf).
  rewrite (book_rep_resting cap b a Hrep Hwf) in Hfull. destruct Hrep as [h Hrep].
  rewrite add_limit_order_unfold, Hnone. cbn.
  assert (book_with side (book_side side b) [] (pool_ b) (locate_ b) = b) as Hsame.
  { rewrite <-Hnone. by destruct side, b. }
  destruct (0 <? qty); [|by rewrite Hsame].
  rewrite (rest_full cap side (mkOrder id side price qty ts) _ _ _ h).
  - cbn. by rewrite Hsame.
  - apply Hrep.
  - by rewrite (br_size _ _ _ _ Hrep).
  - done.
Qed.

Lemma add_limit_order_pool_full_witness :
  add_limit_order 3 Buy 50 1 0 (step_add 2 Buy 98 5 (step_add 1 Buy 99 5 (book_new 2))) []
  = Some (step_add 2 Buy 98 5 (step_add 1 Buy 99 5 (book_new 2)), []).
Proof.
  apply (add_limit_order_pool_full 2); [lia| |word_lia|reflexivity..].
  repeat (apply step_add_reach; [lia| |reflexivity|word_lia]). constructor.
Defined.
