(* ===== verification/SpscRing.v ===== *)
(** * SpscRing: the single-producer single-consumer queue

    Models [include/spsc_ring_buffer.hpp] twice.  [push], [pop] and [empty] are
    the member functions run without interference; they implement a bounded
    FIFO queue ([Fifo], the interface the sequencer, the matching engine and
    the gateway are verified against).  [spsc_step] is the concurrent system: a
    producer and a consumer thread that interleave at the granularity of the
    individual atomic loads, atomic stores and slot accesses of the two
    functions. *)

From S2P Require Import Prelude.

#[local] Open Scope Z_scope.
#[local] Open Scope cpp_scope.

(** ** The interface: a bounded FIFO queue

    [fifo_push x q] and [fifo_pop q] are the operations ([None] is undefined
    behaviour); [fifo_rep q l] says that [q] currently holds [l], oldest
    first. *)

Class Fifo (Q T : Type) := {
  fifo_push : T → Q → option (bool * Q);
  fifo_pop : Q → option (option T * Q);
  fifo_room : nat;
  fifo_rep : Q → list T → Prop
}.

Class FifoLaws (Q T : Type) `{Fifo Q T} : Prop := {
  fifo_push_law q l x :
    fifo_rep q l →
    if decide (length l < fifo_room)%nat
    then ∃ q', fifo_push x q = Some (true, q') ∧ fifo_rep q' (l ++ [x])
    else fifo_push x q = Some (false, q);
  fifo_pop_law q l :
    fifo_rep q l →
    match l with
    | [] => fifo_pop q = Some (None, q)
    | x :: l' => ∃ q', fifo_pop q = Some (Some x, q') ∧ fifo_rep q' l'
    end;
  fifo_bound q l : fifo_rep q l → (length l ≤ fifo_room)%nat
}.

(** A queue's contents are determined by what can be popped. *)
Lemma fifo_rep_inj {Q T} `{FifoLaws Q T} : ∀ l (q : Q) l', fifo_rep q l → fifo_rep q l' → l = l'.
Proof.
  induction l as [|x l IH]; intros q l' Hl Hl'; pose proof (fifo_pop_law _ _ Hl) as H1;
    pose proof (fifo_pop_law _ _ Hl') as H2; destruct l' as [|x' l']; [done| | |].
  - destruct H2 as (? & ? & _). congruence.
  - destruct H1 as (? & ? & _). congruence.
  - destruct H1 as (q1 & H1 & Hr1), H2 as (q2 & H2 & Hr2). rewrite H1 in H2. simplify_eq. f_equal. by eapply IH.
Qed.

(** ** The ring *)

Record SpscRing (T : Type) := mkSpsc {
  buffer_ : list T;
  head_ : Z;
  tail_ : Z
}.
Arguments mkSpsc {T} _ _ _.
Arguments buffer_ {T} _.
Arguments head_ {T} _.
Arguments tail_ {T} _.

Section Spsc.
Context {T : Type} (Capacity : nat).

Definition mask_ : Z := Z.of_nat Capacity - 1.

(** [(i + 1) & mask_] on [size_t]. *)
Definition ring_next (i : Z) : Z := Z.land (u64 (i + 1)) mask_.

(** [buffer_{}] value-initialises every slot to [dflt]. *)
Definition spsc_new (dflt : T) : SpscRing T := mkSpsc (replicate Capacity dflt) 0 0.

Definition push (item : T) (r : SpscRing T) : option (bool * SpscRing T) :=
  let head := head_ r in
  let next := ring_next head in
  if next =? tail_ r then Some (false, r)
  else
    buf ← (buffer_ r).[head <- item];
    Some (true, mkSpsc buf next (tail_ r)).

Definition pop (r : SpscRing T) : option (option T * SpscRing T) :=
  let tail := tail_ r in
  if tail =? head_ r then Some (None, r)
  else
    out ← (buffer_ r).[tail];
    Some (Some out, mkSpsc (buffer_ r) (head_ r) (ring_next tail)).

Definition empty (r : SpscRing T) : bool := head_ r =? tail_ r.

(** ** Two threads

    A program counter of a thread inside [push] or [pop] carries the local
    variables that are live there. *)

Inductive ProducerPc :=
| PIdle
| PLoadedHead (item : T) (head : Z)            (* head_.load(relaxed) *)
| PChecked (item : T) (head next : Z)          (* tail_.load(acquire) != next *)
| PWritten (item : T) (next : Z).              (* buffer_[head] = item *)

Inductive ConsumerPc :=
| CIdle
| CLoadedTail (tail : Z)                       (* tail_.load(relaxed) *)
| CChecked (tail : Z)                          (* head_.load(acquire) != tail *)
| CRead (tail : Z) (out : T).                  (* out = buffer_[tail] *)

(** [s_pushed] and [s_popped] record the items whose [push] returned [true] and
    whose [pop] returned [true], in order. *)
Record SpscState := mkSpscState {
  s_ring : SpscRing T;
  s_prod : ProducerPc;
  s_cons : ConsumerPc;
  s_pushed : list T;
  s_popped : list T
}.

Inductive spsc_step : SpscState → SpscState → Prop :=
| step_push_begin r c ps qs item :
    spsc_step (mkSpscState r PIdle c ps qs) (mkSpscState r (PLoadedHead item (head_ r)) c ps qs)
| step_push_full r c ps qs item head :
    ring_next head = tail_ r →
    spsc_step (mkSpscState r (PLoadedHead item head) c ps qs) (mkSpscState r PIdle c ps qs)
| step_push_room r c ps qs item head :
    ring_next head ≠ tail_ r →
    spsc_step (mkSpscState r (PLoadedHead item head) c ps qs)
              (mkSpscState r (PChecked item head (ring_next head)) c ps qs)
| step_push_write r c ps qs item head next buf :
    array_set (buffer_ r) head item = Some buf →
    spsc_step (mkSpscState r (PChecked item head next) c ps qs)
              (mkSpscState (mkSpsc buf (head_ r) (tail_ r)) (PWritten item next) c ps qs)
| step_push_publish r c ps qs item next :
    spsc_step (mkSpscState r (PWritten item next) c ps qs)
              (mkSpscState (mkSpsc (buffer_ r) next (tail_ r)) PIdle c (ps ++ [item]) qs)
| step_pop_begin r p ps qs :
    spsc_step (mkSpscState r p CIdle ps qs) (mkSpscState r p (CLoadedTail (tail_ r)) ps qs)
| step_pop_empty r p ps qs tail :
    tail = head_ r →
    spsc_step (mkSpscState r p (CLoadedTail tail) ps qs) (mkSpscState r p CIdle ps qs)
| step_pop_some r p ps qs tail :
    tail ≠ head_ r →
    spsc_step (mkSpscState r p (CLoadedTail tail) ps qs) (mkSpscState r p (CChecked tail) ps qs)
| step_pop_read r p ps qs tail out :
    array_get (buffer_ r) tail = Some out →
    spsc_step (mkSpscState r p (CChecked tail) ps qs) (mkSpscState r p (CRead tail out) ps qs)
| step_pop_publish r p ps qs tail out :
    spsc_step (mkSpscState r p (CRead tail out) ps qs)
              (mkSpscState (mkSpsc (buffer_ r) (head_ r) (ring_next tail)) p CIdle ps (qs ++ [out])).

Definition spsc_init (dflt : T) : SpscState := mkSpscState (spsc_new dflt) PIdle CIdle [] [].

Definition spsc_reach (dflt : T) (s : SpscState) : Prop := rtc spsc_step (spsc_init dflt) s.

(** ** The ring invariant

    [hist] is everything ever pushed and [c] how many items were popped:
    indices are the counters modulo the capacity, at most [Capacity - 1] items
    are in flight, and the slots between the counters hold them. *)

Record ring_inv (r : SpscRing T) (hist : list T) (c : nat) : Prop := {
  ri_len : length (buffer_ r) = Capacity;
  ri_head : head_ r = Z.of_nat (length hist `mod` Capacity);
  ri_tail : tail_ r = Z.of_nat (c `mod` Capacity);
  ri_le : (c ≤ length hist)%nat;
  ri_room : (length hist - c < Capacity)%nat;
  ri_slots : ∀ i x, (c ≤ i)%nat → hist !! i = Some x → buffer_ r !! (i `mod` Capacity)%nat = Some x
}.

Definition spsc_rep (r : SpscRing T) (l : list T) : Prop :=
  ∃ hist c, ring_inv r hist c ∧ l = drop c hist.

Hypothesis Hpow : pow2_capacity Capacity.

Lemma ring_next_mod (n : nat) :
  ring_next (Z.of_nat (n `mod` Capacity)) = Z.of_nat (S n `mod` Capacity).
Proof.
  pose proof (ring_slot_bound Capacity Hpow n). pose proof (capacity_u64 Capacity Hpow).
  unfold ring_next, mask_. unwrap.
  rewrite (land_mask Capacity Hpow), !Nat2Z.inj_mod, Zplus_mod_idemp_l. f_equal. lia.
Qed.

Lemma ring_full_iff r hist c :
  ring_inv r hist c →
  ring_next (head_ r) = tail_ r ↔ (S (length hist - c) = Capacity)%nat.
Proof.
  intros [_ Hh Ht Hle Hroom _]. rewrite Hh, Ht, ring_next_mod. split.
  - intros Heq%Nat2Z.inj.
    destruct (decide (S (length hist - c) = Capacity)%nat); [done|].
    exfalso. symmetry in Heq. apply (mod_eq_near Capacity Hpow) in Heq; lia.
  - intros Hfull. f_equal. replace (S (length hist)) with (c + 1 * Capacity)%nat by lia.
    rewrite Nat.Div0.mod_add. done.
Qed.

Lemma ring_empty_iff r hist c :
  ring_inv r hist c → tail_ r = head_ r ↔ length hist = c.
Proof.
  intros [_ Hh Ht Hle Hroom _]. rewrite Hh, Ht. split; [|by intros ->].
  intros Heq%Nat2Z.inj. symmetry. apply (mod_eq_near Capacity Hpow); lia.
Qed.

(** Writing the item of a push that has seen room touches no slot in use. *)
Lemma ring_inv_write r hist c item :
  ring_inv r hist c → (S (length hist - c) < Capacity)%nat →
  ring_inv (mkSpsc (<[length hist `mod` Capacity := item]> (buffer_ r))%nat (head_ r) (tail_ r)) hist c.
Proof.
  intros [Hlen Hh Ht Hle Hroom Hsl] Hfree. constructor; cbn; try done.
  - by rewrite length_insert.
  - intros i x Hi Hx. rewrite list_lookup_insert_ne; [by apply Hsl|].
    intros Heq. apply lookup_lt_Some in Hx as Hlt. symmetry in Heq.
    apply (mod_eq_near Capacity Hpow) in Heq; lia.
Qed.

Lemma ring_inv_push r hist c item :
  ring_inv r hist c → (S (length hist - c) < Capacity)%nat →
  buffer_ r !! (length hist `mod` Capacity)%nat = Some item →
  ring_inv (mkSpsc (buffer_ r) (ring_next (head_ r)) (tail_ r)) (hist ++ [item]) c.
Proof.
  intros [Hlen Hh Ht Hle Hroom Hsl] Hfree Hw. constructor; cbn; try done.
  - rewrite Hh, ring_next_mod, length_app. cbn. by rewrite Nat.add_1_r.
  - rewrite length_app. cbn. lia.
  - rewrite length_app. cbn. lia.
  - intros i x Hi [Hx|[Hge Hx]]%lookup_app_Some; [by apply Hsl|].
    apply list_lookup_singleton_Some in Hx as [Hz <-].
    by replace i with (length hist) by lia.
Qed.

Lemma ring_inv_pop r hist c :
  ring_inv r hist c → (c < length hist)%nat →
  ring_inv (mkSpsc (buffer_ r) (head_ r) (ring_next (tail_ r))) hist (S c).
Proof.
  intros [Hlen Hh Ht Hle Hroom Hsl] Hne. constructor; cbn; try done.
  - by rewrite Ht, ring_next_mod.
  - lia.
  - intros i x Hi. apply Hsl. lia.
Qed.

Lemma spsc_new_inv dflt : ring_inv (spsc_new dflt) [] 0.
Proof.
  pose proof (capacity_pos Capacity Hpow). constructor; cbn.
  - apply length_replicate.
  - by rewrite Nat.Div0.mod_0_l.
  - by rewrite Nat.Div0.mod_0_l.
  - lia.
  - lia.
  - intros i x _ Hx. by rewrite lookup_nil in Hx.
Qed.

(** ** Without interference: a bounded FIFO queue *)

Lemma push_spec r l item :
  spsc_rep r l →
  if decide (length l < pred Capacity)%nat
  then ∃ r', push item r = Some (true, r') ∧ spsc_rep r' (l ++ [item])
  else push item r = Some (false, r).
Proof.
  intros (hist & c & Hinv & ->). pose proof (ring_full_iff r hist c Hinv) as Hfull.
  pose proof (ri_le _ _ _ Hinv) as Hle. pose proof (ri_room _ _ _ Hinv) as Hroom.
  rewrite length_drop. unfold push. case_decide as Hd.
  - rewrite (proj2 (Z.eqb_neq (ring_next (head_ r)) (tail_ r))) by lia.
    pose proof (ring_slot_bound Capacity Hpow (length hist)) as Hb.
    rewrite (ri_head _ _ _ Hinv), array_set_nat by (rewrite (ri_len _ _ _ Hinv); lia).
    cbn. eexists. split; [done|]. exists (hist ++ [item]), c. split.
    + rewrite <-(ri_head _ _ _ Hinv).
      apply (ring_inv_push (mkSpsc (<[_ := item]> (buffer_ r)) (head_ r) (tail_ r)));
        [apply ring_inv_write; [done|lia]|lia|]. cbn.
      apply list_lookup_insert_eq. rewrite (ri_len _ _ _ Hinv). lia.
    + rewrite drop_app_le by lia. done.
  - by rewrite (proj2 (Z.eqb_eq (ring_next (head_ r)) (tail_ r))) by (apply Hfull; lia).
Qed.

Lemma pop_spec r l :
  spsc_rep r l →
  match l with
  | [] => pop r = Some (None, r)
  | x :: l' => ∃ r', pop r = Some (Some x, r') ∧ spsc_rep r' l'
  end.
Proof.
  intros (hist & c & Hinv & ->). pose proof (ring_empty_iff r hist c Hinv) as Hempty.
  pose proof (ri_le _ _ _ Hinv) as Hle. unfold pop.
  destruct (drop c hist) as [|x l'] eqn:Hd.
  - apply (f_equal length) in Hd. rewrite length_drop in Hd. cbn in Hd.
    by rewrite (proj2 (Z.eqb_eq (tail_ r) (head_ r))) by (apply Hempty; lia).
  - assert (hist !! c = Some x) as Hx.
    { replace c with (c + 0)%nat by lia. by rewrite <-lookup_drop, Hd. }
    pose proof (lookup_lt_Some _ _ _ Hx).
    rewrite (proj2 (Z.eqb_neq (tail_ r) (head_ r))) by lia.
    rewrite (ri_tail _ _ _ Hinv), array_get_nat, (ri_slots _ _ _ Hinv c x) by done.
    cbn. eexists. split; [done|]. exists hist, (S c). split.
    + rewrite <-(ri_tail _ _ _ Hinv). by apply ring_inv_pop.
    + replace (S c) with (c + 1)%nat by lia. by rewrite <-drop_drop, Hd.
Qed.

Lemma empty_spec r l : spsc_rep r l → empty r = match l with [] => true | _ => false end.
Proof.
  intros (hist & c & Hinv & ->). pose proof (ring_empty_iff r hist c Hinv) as He.
  pose proof (ri_le _ _ _ Hinv) as Hle. unfold empty. rewrite Z.eqb_sym.
  destruct (drop c hist) as [|x l'] eqn:Hd;
    apply (f_equal length) in Hd; rewrite length_drop in Hd; cbn in Hd.
  - apply Z.eqb_eq, He. lia.
  - apply Z.eqb_neq. lia.
Qed.

Lemma spsc_rep_bound r l : spsc_rep r l → (length l ≤ pred Capacity)%nat.
Proof. intros (hist & c & Hinv & ->). rewrite length_drop. pose proof (ri_room _ _ _ Hinv). lia. Qed.

(** ** With interference *)

Definition prod_ok (r : SpscRing T) (np nq : nat) (p : ProducerPc) : Prop :=
  match p with
  | PIdle => True
  | PLoadedHead _ head => head = head_ r
  | PChecked _ head next =>
      head = head_ r ∧ next = ring_next (head_ r) ∧ (S (np - nq) < Capacity)%nat
  | PWritten item next =>
      next = ring_next (head_ r) ∧ (S (np - nq) < Capacity)%nat ∧
      buffer_ r !! (np `mod` Capacity)%nat = Some item
  end.

Definition cons_ok (r : SpscRing T) (ps : list T) (nq : nat) (c : ConsumerPc) : Prop :=
  match c with
  | CIdle => True
  | CLoadedTail tail => tail = tail_ r
  | CChecked tail => tail = tail_ r ∧ (nq < length ps)%nat
  | CRead tail out => tail = tail_ r ∧ ps !! nq = Some out
  end.

Record spsc_ok (s : SpscState) : Prop := {
  so_ring : ring_inv (s_ring s) (s_pushed s) (length (s_popped s));
  so_popped : s_popped s = take (length (s_popped s)) (s_pushed s);
  so_prod : prod_ok (s_ring s) (length (s_pushed s)) (length (s_popped s)) (s_prod s);
  so_cons : cons_ok (s_ring s) (s_pushed s) (length (s_popped s)) (s_cons s)
}.

Lemma cons_ok_push r r' ps nq c item :
  tail_ r' = tail_ r → cons_ok r ps nq c → cons_ok r' (ps ++ [item]) nq c.
Proof.
  intros Ht. destruct c; cbn; rewrite ?Ht; [done|done|rewrite length_app; cbn; lia|].
  intros [-> Hx]. split; [done|]. by apply lookup_app_l_Some.
Qed.

Lemma prod_ok_pop r r' np nq p :
  head_ r' = head_ r → buffer_ r' = buffer_ r → prod_ok r np nq p → prod_ok r' np (S nq) p.
Proof. intros Hh Hb. destruct p; cbn; rewrite ?Hh, ?Hb; naive_solver lia. Qed.

Lemma spsc_step_ok s s' : spsc_step s s' → spsc_ok s → spsc_ok s'.
Proof.
  intros Hstep [Hring Hpop Hprod Hcons]. destruct Hstep; cbn in *; simplify_eq.
  - by constructor.
  - by constructor.
  - constructor; cbn; try done. split_and!; [done|done|].
    pose proof (ring_full_iff _ _ _ Hring). pose proof (ri_room _ _ _ Hring). lia.
  - destruct Hprod as (-> & -> & Hfree). pose proof (ring_slot_bound Capacity Hpow (length ps)) as Hb.
    rewrite (ri_head _ _ _ Hring), array_set_nat in H by (rewrite (ri_len _ _ _ Hring); lia).
    injection H as <-. constructor; cbn; [by apply ring_inv_write|done| |by destruct c].
    split_and!; [done|done|]. apply list_lookup_insert_eq. rewrite (ri_len _ _ _ Hring). lia.
  - destruct Hprod as (-> & Hfree & Hw). constructor; cbn; [by apply ring_inv_push| |done|].
    + rewrite take_app_le by apply Hring. done.
    + by apply (cons_ok_push r).
  - by constructor.
  - by constructor.
  - constructor; cbn; try done. split; [done|].
    pose proof (ring_empty_iff _ _ _ Hring). pose proof (ri_le _ _ _ Hring). lia.
  - destruct Hcons as [-> Hlt]. constructor; cbn; try done. split; [done|].
    destruct (lookup_lt_is_Some_2 ps (length qs) Hlt) as [x Hx].
    rewrite (ri_tail _ _ _ Hring), array_get_nat, (ri_slots _ _ _ Hring _ x) in H by done.
    congruence.
  - destruct Hcons as [-> Hx]. pose proof (lookup_lt_Some _ _ _ Hx) as Hlt.
    constructor; cbn; rewrite ?length_app; cbn; rewrite ?Nat.add_1_r.
    + by apply ring_inv_pop.
    + rewrite (take_S_r _ _ out) by done. by rewrite <-Hpop.
    + by apply (prod_ok_pop r).
    + done.
Qed.

Lemma spsc_reach_ok dflt s : spsc_reach dflt s → spsc_ok s.
Proof.
  assert (spsc_ok (spsc_init dflt)) as Hinit.
  { constructor; cbn; [apply spsc_new_inv|done|done|done]. }
  intros Hr. unfold spsc_reach in Hr. revert Hinit. induction Hr; eauto using spsc_step_ok.
Qed.

End Spsc.

(** ** The ring as a [Fifo] *)

#[export] Instance spsc_fifo (T : Type) (Capacity : nat) : Fifo (SpscRing T) T := {|
  fifo_push := push Capacity;
  fifo_pop := pop Capacity;
  fifo_room := pred Capacity;
  fifo_rep := spsc_rep Capacity
|}.

Lemma spsc_fifo_laws (T : Type) (Capacity : nat) :
  pow2_capacity Capacity → @FifoLaws (SpscRing T) T (spsc_fifo T Capacity).
Proof.
  intros Hpow. constructor.
  - intros q l x. by apply push_spec.
  - intros q l. by apply pop_spec.
  - intros q l. by apply spsc_rep_bound.
Qed.

(** ** Properties *)

(** The two member functions implement a FIFO queue that holds
    [Capacity - 1] items: [push] appends and returns [true], or returns [false]
    and changes nothing when full; [pop] removes the oldest item, or returns
    [false] when empty; [empty] tells which. *)
Theorem spsc_refines_queue {T} (Capacity : nat) (r : SpscRing T) (l : list T) (item : T) :
  pow2_capacity Capacity → spsc_rep Capacity r l →
  (if decide (length l < pred Capacity)%nat
   then ∃ r', push Capacity item r = Some (true, r') ∧ spsc_rep Capacity r' (l ++ [item])
   else push Capacity item r = Some (false, r)) ∧
  match l with
  | [] => pop Capacity r = Some (None, r) ∧ empty r = true
  | x :: l' => (∃ r', pop Capacity r = Some (Some x, r') ∧ spsc_rep Capacity r' l') ∧
               empty r = false
  end.
Proof.
  intros Hpow Hrep. split; [by apply push_spec|].
  pose proof (pop_spec Capacity Hpow r l Hrep) as Hpop.
  rewrite (empty_spec Capacity Hpow r l Hrep). by destruct l.
Qed.

Lemma pow2_capacity_4 : pow2_capacity 4.
Proof. exists 2. lia. Qed.

Lemma spsc_refines_queue_witness :
  push 4 7 (spsc_new 4 0) = Some (true, mkSpsc [7; 0; 0; 0] 1 0) ∧ empty (spsc_new 4 0) = true.
Proof.
  destruct (spsc_refines_queue 4 (spsc_new 4 0) [] 7 pow2_capacity_4) as [Hpush [_ He]].
  { exists [], 0%nat. split; [by apply spsc_new_inv, pow2_capacity_4|done]. }
  split; [|exact He]. rewrite decide_True in Hpush by (cbn; lia).
  destruct Hpush as (r' & Hr & _). vm_compute in Hr |- *. reflexivity.
Defined.

(** Linearizability under every interleaving.  In any state the producer
    and consumer threads can reach, interleaving at the granularity of single
    loads and stores, the items popped are a prefix of the items pushed (no
    loss, no duplication, no reordering), and fewer than [Capacity] items are
    in flight. *)
Theorem spsc_linearizable {T} (Capacity : nat) (dflt : T) (s : SpscState) :
  pow2_capacity Capacity → spsc_reach Capacity dflt s →
  s_popped s `prefix_of` s_pushed s ∧
  (length (s_pushed s) - length (s_popped s) < Capacity)%nat.
Proof.
  intros Hpow Hr. destruct (spsc_reach_ok Capacity Hpow dflt s Hr) as [Hring Hpop _ _].
  split; [|apply Hring]. rewrite Hpop. apply prefix_take.
Qed.

(** A schedule in which the consumer's [pop] overlaps the producer's [push]. *)
Definition spsc_demo_state : SpscState :=
  mkSpscState (mkSpsc [7; 0; 0; 0] 1 1) PIdle CIdle [7] [7].

Lemma spsc_demo_reach : spsc_reach 4 0 spsc_demo_state.
Proof.
  eapply rtc_l. { apply step_pop_begin. }
  eapply rtc_l. { by apply step_pop_empty. }
  eapply rtc_l. { apply (step_push_begin 4 _ _ _ _ 7). }
  eapply rtc_l. { by apply step_push_room. }
  eapply rtc_l. { eapply step_push_write. reflexivity. }
  eapply rtc_l. { apply step_pop_begin. }
  eapply rtc_l. { apply step_push_publish. }
  eapply rtc_l. { by apply step_pop_some. }
  eapply rtc_l. { eapply step_pop_read. reflexivity. }
  eapply rtc_l. { apply step_pop_publish. }
  vm_compute. apply rtc_refl.
Qed.

Lemma spsc_linearizable_witness :
  s_popped spsc_demo_state `prefix_of` s_pushed spsc_demo_state ∧ (1 - 1 < 4)%nat.
Proof. exact (spsc_linearizable 4 0 spsc_demo_state pow2_capacity_4 spsc_demo_reach). Defined.

(** Freedom from data races on the slots, and no out-of-bounds access.  When
    the producer is about to write its slot and the consumer about to read its
    own, the slots differ; and both accesses are inside the buffer, so neither
    thread is ever stuck. *)
Theorem spsc_race_free {T} (Capacity : nat) (dflt : T) (s : SpscState)
    (item : T) (head next : Z) :
  pow2_capacity Capacity → spsc_reach Capacity dflt s →
  s_prod s = PChecked item head next →
  (∃ buf, array_set (buffer_ (s_ring s)) head item = Some buf) ∧
  (∀ tail, s_cons s = CChecked tail →
     head ≠ tail ∧ ∃ out, array_get (buffer_ (s_ring s)) tail = Some out).
Proof.
  intros Hpow Hr Hp. destruct (spsc_reach_ok Capacity Hpow dflt s Hr) as [Hring _ Hprod Hcons].
  rewrite Hp in Hprod. destruct Hprod as (-> & -> & Hfree). split.
  - rewrite (ri_head _ _ _ _ Hring). eexists. apply array_set_nat.
    rewrite (ri_len _ _ _ _ Hring). by apply ring_slot_bound.
  - intros tail Hc. rewrite Hc in Hcons. destruct Hcons as [-> Hlt]. split.
    + intros Heq. symmetry in Heq. apply (ring_empty_iff Capacity Hpow _ _ _ Hring) in Heq. lia.
    + destruct (lookup_lt_is_Some_2 _ _ Hlt) as [x Hx].
      rewrite (ri_tail _ _ _ _ Hring), array_get_nat. eauto using ri_slots.
Qed.

Lemma spsc_race_free_witness :
  ∃ buf, array_set [0; 0; 0; 0] 0 7 = Some buf.
Proof.
  apply (spsc_race_free 4 0 (mkSpscState (spsc_new 4 0) (PChecked 7 0 1) CIdle [] []) 7 0 1).
  - apply pow2_capacity_4.
  - eapply rtc_l. { apply (step_push_begin 4 _ _ _ _ 7). }
    eapply rtc_l. { by apply step_push_room. }
    apply rtc_refl.
  - reflexivity.
Defined.
