(* ===== verification/BroadcastRing.v ===== *)
(** * BroadcastRing: one writer, many readers

    Models [include/broadcast_ring.hpp]: every registered consumer reads the
    whole published stream at its own pace, and the writer is gated by the
    slowest one.  As for the single-consumer queue there are two models:
    [try_publish] and [try_consume] run without interference, which implement
    the [Broadcast] interface that the sequencer and the consumers are verified
    against, and [bcast_step], the writer and all readers interleaving at the
    individual loads and stores of those functions. *)

From S2P Require Import Prelude.

#[local] Open Scope Z_scope.
#[local] Open Scope cpp_scope.

(** ** The interface: a log with one cursor per consumer

    [bc_rep b hist cs] says that [hist] is everything published on [b] so far
    and that consumer [i] has consumed the first [cs !! i] events of it. *)

Class Broadcast (B T : Type) := {
  bc_publish : T → B → option (bool * B);
  bc_consume : nat → B → option (option T * B);
  bc_room : nat;
  bc_limit : Z;
  bc_rep : B → list T → list nat → Prop
}.

(** Some consumer is lapping distance behind. *)
Definition lapped (room : nat) (hist_len : nat) (cs : list nat) : Prop :=
  Exists (λ c, c + room ≤ hist_len)%nat cs.

#[export] Instance lapped_dec room n cs : Decision (lapped room n cs).
Proof. unfold lapped. apply _. Defined.

Class BroadcastLaws (B T : Type) `{Broadcast B T} : Prop := {
  bc_publish_law b hist cs x :
    bc_rep b hist cs → Z.of_nat (length hist) < bc_limit →
    if decide (lapped bc_room (length hist) cs)
    then ∃ b', bc_publish x b = Some (false, b') ∧ bc_rep b' hist cs
    else ∃ b', bc_publish x b = Some (true, b') ∧ bc_rep b' (hist ++ [x]) cs;
  bc_consume_law b hist cs i c :
    bc_rep b hist cs → cs !! i = Some c →
    match hist !! c with
    | None => bc_consume i b = Some (None, b)
    | Some x => ∃ b', bc_consume i b = Some (Some x, b') ∧ bc_rep b' hist (<[i := S c]> cs)
    end;
  bc_cursors_law b hist cs :
    bc_rep b hist cs → Forall (λ c, c ≤ length hist ∧ length hist ≤ c + bc_room)%nat cs
}.

(** ** The ring *)

Record BroadcastRing (T : Type) := mkBcast {
  write_cursor_ : Z;
  cached_min_ : Z;
  consumer_count_ : Z;
  cursors_ : list Z;
  slots_ : list T
}.
Arguments mkBcast {T} _ _ _ _ _.
Arguments write_cursor_ {T} _.
Arguments cached_min_ {T} _.
Arguments consumer_count_ {T} _.
Arguments cursors_ {T} _.
Arguments slots_ {T} _.

Definition UINT64_MAX : Z := 2 ^ 64 - 1.

Section Bcast.
Context {T : Type} (Capacity MaxConsumers : nat).

Definition kMask : Z := Z.of_nat Capacity - 1.

(** The slots of a new ring are indeterminate; [dflt] stands for their value. *)
Definition bcast_new (dflt : T) : BroadcastRing T :=
  mkBcast 0 0 0 (replicate MaxConsumers 0) (replicate Capacity dflt).

Definition register_consumer (r : BroadcastRing T) : Z * BroadcastRing T :=
  (consumer_count_ r,
   mkBcast (write_cursor_ r) (cached_min_ r) (u64 (consumer_count_ r + 1)) (cursors_ r) (slots_ r)).

(** The [for] loop of [scan_min_consumer_cursor], [k] iterations from [i] on. *)
Fixpoint scan_cursors (k : nat) (i : Z) (min : Z) (cursors : list Z) : option Z :=
  match k with
  | O => Some min
  | S k =>
      c ← cursors.[i];
      scan_cursors k (i + 1) (if c <? min then c else min) cursors
  end.

Definition scan_min_consumer_cursor (r : BroadcastRing T) : option Z :=
  let n := consumer_count_ r in
  min ← scan_cursors (Z.to_nat n) 0 UINT64_MAX (cursors_ r);
  Some (if n =? 0 then write_cursor_ r else min).

Definition set_cached_min (m : Z) (r : BroadcastRing T) : BroadcastRing T :=
  mkBcast (write_cursor_ r) m (consumer_count_ r) (cursors_ r) (slots_ r).

Definition write_slot (write : Z) (item : T) (r : BroadcastRing T) : option (BroadcastRing T) :=
  slots ← (slots_ r).[Z.land write kMask <- item];
  Some (mkBcast (write_cursor_ r) (cached_min_ r) (consumer_count_ r) (cursors_ r) slots).

Definition set_write_cursor (w : Z) (r : BroadcastRing T) : BroadcastRing T :=
  mkBcast w (cached_min_ r) (consumer_count_ r) (cursors_ r) (slots_ r).

Definition try_publish (item : T) (r : BroadcastRing T) : option (bool * BroadcastRing T) :=
  let write := write_cursor_ r in
  let commit (r : BroadcastRing T) :=
    r' ← write_slot write item r;
    Some (true, set_write_cursor (u64 (write + 1)) r') in
  if Z.of_nat Capacity <=? u64 (write - cached_min_ r) then
    fresh_min ← scan_min_consumer_cursor r;
    let r1 := set_cached_min fresh_min r in
    if Z.of_nat Capacity <=? u64 (write - fresh_min) then Some (false, r1) else commit r1
  else commit r.

Definition set_cursor (consumer_id : Z) (c : Z) (r : BroadcastRing T) : option (BroadcastRing T) :=
  cursors ← (cursors_ r).[consumer_id <- c];
  Some (mkBcast (write_cursor_ r) (cached_min_ r) (consumer_count_ r) cursors (slots_ r)).

Definition try_consume (consumer_id : Z) (r : BroadcastRing T)
    : option (option T * BroadcastRing T) :=
  read ← (cursors_ r).[consumer_id];
  if write_cursor_ r <=? read then Some (None, r)
  else
    out ← (slots_ r).[Z.land read kMask];
    r' ← set_cursor consumer_id (u64 (read + 1)) r;
    Some (Some out, r').

Definition published_count (r : BroadcastRing T) : Z := write_cursor_ r.

(** ** The writer and the readers as threads *)

Inductive WriterPc :=
| WIdle
| WScan (item : T) (write n i min : Z)     (* inside scan_min_consumer_cursor *)
| WGated (item : T) (write : Z)            (* room seen, about to write the slot *)
| WWritten (item : T) (write : Z).         (* about to store write_cursor_ *)

Inductive ReaderPc :=
| RIdle
| RChecked (read : Z)                      (* read < write_cursor_ seen *)
| RRead (read : Z) (out : T).              (* out = slots_[read & kMask] *)

(** A reader with the items its [try_consume] calls have returned. *)
Record Reader := mkReader { rd_pc : ReaderPc; rd_seen : list T }.

Record BcastState := mkBcastState {
  bs_ring : BroadcastRing T;
  bs_writer : WriterPc;
  bs_readers : list Reader;
  bs_published : list T
}.

Definition fresh_min_of (write n min : Z) : Z := if n =? 0 then write else min.

Inductive bcast_step : BcastState → BcastState → Prop :=
| bstep_publish_cached r rs ps item :
    u64 (write_cursor_ r - cached_min_ r) < Z.of_nat Capacity →
    bcast_step (mkBcastState r WIdle rs ps) (mkBcastState r (WGated item (write_cursor_ r)) rs ps)
| bstep_publish_scan r rs ps item :
    Z.of_nat Capacity ≤ u64 (write_cursor_ r - cached_min_ r) →
    bcast_step (mkBcastState r WIdle rs ps)
      (mkBcastState r (WScan item (write_cursor_ r) (consumer_count_ r) 0 UINT64_MAX) rs ps)
| bstep_scan_cursor r rs ps item write n i min c :
    i < n → array_get (cursors_ r) i = Some c →
    bcast_step (mkBcastState r (WScan item write n i min) rs ps)
      (mkBcastState r (WScan item write n (i + 1) (if c <? min then c else min)) rs ps)
| bstep_scan_full r rs ps item write n i min :
    n ≤ i → Z.of_nat Capacity ≤ u64 (write - fresh_min_of write n min) →
    bcast_step (mkBcastState r (WScan item write n i min) rs ps)
      (mkBcastState (set_cached_min (fresh_min_of write n min) r) WIdle rs ps)
| bstep_scan_room r rs ps item write n i min :
    n ≤ i → u64 (write - fresh_min_of write n min) < Z.of_nat Capacity →
    bcast_step (mkBcastState r (WScan item write n i min) rs ps)
      (mkBcastState (set_cached_min (fresh_min_of write n min) r) (WGated item write) rs ps)
| bstep_write_slot r r' rs ps item write :
    write_slot write item r = Some r' →
    bcast_step (mkBcastState r (WGated item write) rs ps)
      (mkBcastState r' (WWritten item write) rs ps)
| bstep_publish r rs ps item write :
    bcast_step (mkBcastState r (WWritten item write) rs ps)
      (mkBcastState (set_write_cursor (u64 (write + 1)) r) WIdle rs (ps ++ [item]))
| bstep_consume_check r w rs ps (i : nat) seen read :
    rs !! i = Some (mkReader RIdle seen) →
    array_get (cursors_ r) (Z.of_nat i) = Some read → read < write_cursor_ r →
    bcast_step (mkBcastState r w rs ps)
      (mkBcastState r w (<[i := mkReader (RChecked read) seen]> rs) ps)
| bstep_consume_read r w rs ps (i : nat) seen read out :
    rs !! i = Some (mkReader (RChecked read) seen) →
    array_get (slots_ r) (Z.land read kMask) = Some out →
    bcast_step (mkBcastState r w rs ps)
      (mkBcastState r w (<[i := mkReader (RRead read out) seen]> rs) ps)
| bstep_consume_store r r' w rs ps (i : nat) seen read out :
    rs !! i = Some (mkReader (RRead read out) seen) →
    set_cursor (Z.of_nat i) (u64 (read + 1)) r = Some r' →
    bcast_step (mkBcastState r w rs ps)
      (mkBcastState r' w (<[i := mkReader RIdle (seen ++ [out])]> rs) ps).

(** [n] consumers register, then the threads start. *)
Fixpoint register_n (n : nat) (r : BroadcastRing T) : BroadcastRing T :=
  match n with O => r | S n => register_n n (register_consumer r).2 end.

Definition bcast_init (dflt : T) (n : nat) : BcastState :=
  mkBcastState (register_n n (bcast_new dflt)) WIdle (replicate n (mkReader RIdle [])) [].

Definition bcast_reach (dflt : T) (n : nat) (s : BcastState) : Prop :=
  rtc bcast_step (bcast_init dflt n) s.

(** ** The invariant

    [hist] is everything published, [cs] how much each registered consumer has
    consumed, [m] the cached minimum.  Every slot from [m] on still holds its
    item, and no consumer is behind [m]. *)

Record bcast_inv (r : BroadcastRing T) (hist : list T) (cs : list nat) (m : nat) : Prop := {
  bi_len : length (slots_ r) = Capacity;
  bi_write : write_cursor_ r = Z.of_nat (length hist);
  bi_small : Z.of_nat (length hist) < 2 ^ 64;
  bi_count : consumer_count_ r = Z.of_nat (length cs);
  bi_max : length (cursors_ r) = MaxConsumers ∧ (length cs ≤ MaxConsumers)%nat;
  bi_cursors : ∀ i c, cs !! i = Some c → cursors_ r !! i = Some (Z.of_nat c);
  bi_unused : ∀ i, (length cs ≤ i < MaxConsumers)%nat → cursors_ r !! i = Some 0;
  bi_cs : Forall (λ c, m ≤ c ≤ length hist)%nat cs;
  bi_cached : cached_min_ r = Z.of_nat m;
  bi_room : (m ≤ length hist ≤ m + Capacity)%nat;
  bi_slots : ∀ i x, (m ≤ i)%nat → hist !! i = Some x → slots_ r !! (i `mod` Capacity)%nat = Some x
}.

Definition bcast_rep (r : BroadcastRing T) (hist : list T) (cs : list nat) : Prop :=
  ∃ m, bcast_inv r hist cs m.

Hypothesis Hpow : pow2_capacity Capacity.
Hypothesis HmaxC : Z.of_nat MaxConsumers < 2 ^ 64.

Lemma lag_u64 (w m : nat) :
  (m ≤ w)%nat → Z.of_nat w < 2 ^ 64 → u64 (Z.of_nat w - Z.of_nat m) = Z.of_nat (w - m).
Proof. intros. unwrap. lia. Qed.

Lemma bcast_new_inv dflt : bcast_inv (bcast_new dflt) [] [] 0.
Proof.
  constructor; cbn; rewrite ?length_replicate; try done; try lia.
  intros i Hi. apply lookup_replicate. split; [done|lia].
Qed.

(** Registration is safe as long as the cached minimum is still zero: the new
    consumer, whose cursor starts at zero, can read everything published. *)
Lemma register_inv r hist cs :
  bcast_inv r hist cs 0 → (length cs < MaxConsumers)%nat →
  (register_consumer r).1 = Z.of_nat (length cs) ∧
  bcast_inv (register_consumer r).2 hist (cs ++ [0%nat]) 0.
Proof.
  intros [Hlen Hw Hsm Hn Hmax Hcur Hun Hcs Hm Hroom Hsl] Hlt. split; [done|].
  constructor; cbn; try done.
  - rewrite Hn, wrap_unsigned_id by word_lia. rewrite length_app. cbn. lia.
  - rewrite length_app. cbn. lia.
  - intros i c [Hi|[Hge Hi]]%lookup_app_Some; [by apply Hcur|].
    apply list_lookup_singleton_Some in Hi as [Hz <-].
    replace i with (length cs) by lia. apply Hun. lia.
  - rewrite length_app. cbn. intros i Hi. apply Hun. lia.
  - apply Forall_app. split; [done|]. repeat constructor; lia.
Qed.

Lemma register_n_inv n : ∀ r cs,
  bcast_inv r [] cs 0 → (length cs + n ≤ MaxConsumers)%nat →
  bcast_inv (register_n n r) [] (cs ++ replicate n 0%nat) 0.
Proof.
  induction n as [|n IH]; intros r cs Hinv Hle; cbn [register_n replicate].
  - by rewrite app_nil_r.
  - rewrite cons_middle, app_assoc. apply IH.
    + apply register_inv; [done|lia].
    + rewrite length_app. cbn. lia.
Qed.

(** Moving the cached minimum forward, up to the slowest consumer. *)
Lemma set_cached_min_inv r hist cs m m' :
  bcast_inv r hist cs m → (m ≤ m' ≤ length hist)%nat → Forall (λ c, m' ≤ c)%nat cs →
  bcast_inv (set_cached_min (Z.of_nat m') r) hist cs m'.
Proof.
  intros [Hlen Hw Hsm Hn Hmax Hcur Hun Hcs Hm Hroom Hsl] Hm' Hall.
  constructor; cbn; try done.
  - rewrite Forall_forall in Hall, Hcs |- *. intros c Hc.
    specialize (Hall c Hc). specialize (Hcs c Hc). lia.
  - lia.
  - intros i x Hi. apply Hsl. lia.
Qed.

Lemma write_slot_inv r hist cs m item :
  bcast_inv r hist cs m → (length hist < m + Capacity)%nat →
  ∃ r', write_slot (Z.of_nat (length hist)) item r = Some r' ∧ bcast_inv r' hist cs m ∧
        slots_ r' !! (length hist `mod` Capacity)%nat = Some item.
Proof.
  intros [Hlen Hw Hsm Hn Hmax Hcur Hun Hcs Hm Hroom Hsl] Hfree.
  pose proof (ring_slot_bound Capacity Hpow (length hist)) as Hb.
  unfold write_slot, kMask. rewrite (land_mask_nat Capacity Hpow), array_set_nat by lia.
  cbn. eexists. split; [done|]. split.
  - constructor; cbn; try done; [by rewrite length_insert|].
    intros i x Hi Hx. rewrite list_lookup_insert_ne; [by apply Hsl|].
    intros Heq. apply lookup_lt_Some in Hx as Hlt. symmetry in Heq.
    apply (mod_eq_near Capacity Hpow) in Heq; lia.
  - apply list_lookup_insert_eq. lia.
Qed.

Lemma publish_inv r hist cs m item :
  bcast_inv r hist cs m → (length hist < m + Capacity)%nat →
  Z.of_nat (length hist) < 2 ^ 64 - 1 →
  slots_ r !! (length hist `mod` Capacity)%nat = Some item →
  bcast_inv (set_write_cursor (u64 (Z.of_nat (length hist) + 1)) r) (hist ++ [item]) cs m.
Proof.
  intros [Hlen Hw Hsm Hn Hmax Hcur Hun Hcs Hm Hroom Hsl] Hfree Hlim Hit.
  assert (length (hist ++ [item]) = S (length hist)) as Hl by (rewrite length_app; cbn; lia).
  constructor; cbn; rewrite ?Hl; try done; try lia.
  - unwrap. lia.
  - eapply Forall_impl; [exact Hcs|]. cbn. lia.
  - intros i x Hi [Hx|[Hge Hx]]%lookup_app_Some; [by apply Hsl|].
    apply list_lookup_singleton_Some in Hx as [Hz <-].
    by replace i with (length hist) by lia.
Qed.

Lemma consume_inv r hist cs m i c :
  bcast_inv r hist cs m → cs !! i = Some c → (c < length hist)%nat →
  ∃ r', set_cursor (Z.of_nat i) (u64 (Z.of_nat c + 1)) r = Some r' ∧
        bcast_inv r' hist (<[i := S c]> cs) m.
Proof.
  intros [Hlen Hw Hsm Hn Hmax Hcur Hun Hcs Hm Hroom Hsl] Hi Hc.
  pose proof (lookup_lt_Some _ _ _ Hi) as Hlt.
  unfold set_cursor. rewrite array_set_nat by lia. cbn.
  unwrap.
  eexists. split; [done|]. constructor; cbn; rewrite ?length_insert; try done.
  - intros j d. destruct (decide (i = j)) as [<-|Hne].
    + rewrite !list_lookup_insert_eq by lia. intros [= <-]. f_equal. lia.
    + rewrite !list_lookup_insert_ne by done. apply Hcur.
  - intros j Hj. rewrite list_lookup_insert_ne by lia. by apply Hun.
  - apply Forall_insert; [done|]. eapply Forall_lookup_1 in Hcs; [|exact Hi]. cbn in Hcs. lia.
Qed.

Lemma read_slot r hist cs m i c x :
  bcast_inv r hist cs m → cs !! i = Some c → hist !! c = Some x →
  array_get (slots_ r) (Z.land (Z.of_nat c) kMask) = Some x.
Proof.
  intros Hinv Hi Hx. unfold kMask. rewrite (land_mask_nat Capacity Hpow), array_get_nat.
  apply (bi_slots _ _ _ _ Hinv); [|done].
  eapply Forall_lookup_1 in Hi; [|apply (bi_cs _ _ _ _ Hinv)]. cbn in Hi. lia.
Qed.

(** ** Without interference *)

Lemma scan_cursors_spec (cursors : list Z) : ∀ (cs : list nat) (i : nat) (min : Z),
  (∀ j c, cs !! j = Some c → cursors !! (i + j)%nat = Some (Z.of_nat c)) →
  ∃ m, scan_cursors (length cs) (Z.of_nat i) min cursors = Some m ∧ m ≤ min ∧
       Forall (λ c, m ≤ Z.of_nat c) cs ∧ (m = min ∨ ∃ c, c ∈ cs ∧ m = Z.of_nat c).
Proof.
  induction cs as [|c cs IH]; intros i min Hc; cbn.
  { exists min. split_and!; [done|lia|done|by left]. }
  rewrite array_get_nat. rewrite <-(Nat.add_0_r i), (Hc 0%nat c) by done. cbn.
  rewrite Nat.add_0_r. replace (Z.of_nat i + 1) with (Z.of_nat (S i)) by lia.
  destruct (IH (S i) (if Z.of_nat c <? min then Z.of_nat c else min)) as (m & -> & Hle & Hm & Hor).
  { intros j d Hj. replace (S i + j)%nat with (i + S j)%nat by lia. by apply Hc. }
  exists m. destruct (Z.ltb_spec (Z.of_nat c) min);
    (split_and!; [done|lia|constructor; [lia|done]|]);
    destruct Hor as [->|(d & Hd & ->)]; eauto 6 using list_elem_of_here, list_elem_of_further.
Qed.

Lemma scan_min_spec r hist cs m :
  bcast_inv r hist cs m →
  ∃ m' : nat, scan_min_consumer_cursor r = Some (Z.of_nat m') ∧ (m ≤ m' ≤ length hist)%nat ∧
    Forall (λ c, m' ≤ c)%nat cs ∧ (cs = [] ∧ m' = length hist ∨ m' ∈ cs).
Proof.
  intros Hinv. pose proof (bi_cs _ _ _ _ Hinv) as Hcs. pose proof (bi_small _ _ _ _ Hinv) as Hs.
  unfold scan_min_consumer_cursor. rewrite (bi_count _ _ _ _ Hinv), Nat2Z.id.
  destruct (scan_cursors_spec (cursors_ r) cs 0 UINT64_MAX) as (z & Hz & _ & Hall & Hor).
  { intros j c Hj. by apply (bi_cursors _ _ _ _ Hinv). }
  change (Z.of_nat 0) with 0 in Hz. rewrite Hz. cbn. destruct cs as [|c0 cs0]; cbn.
  - exists (length hist). rewrite (bi_write _ _ _ _ Hinv). pose proof (bi_room _ _ _ _ Hinv).
    split_and!; [done|lia|lia|done|by left].
  - assert (∃ c, c ∈ c0 :: cs0 ∧ z = Z.of_nat c) as (c & Hc & ->).
    { destruct Hor as [->|]; [|done]. exists c0. split; [constructor|].
      apply Forall_cons in Hall as [H0 _]. apply Forall_cons in Hcs as [H1 _].
      unfold UINT64_MAX in *. lia. }
    exists c. rewrite Forall_forall in Hcs. specialize (Hcs c Hc). split_and!; [done|lia|lia| |by right].
    eapply Forall_impl; [exact Hall|]. cbn. lia.
Qed.

Lemma commit_spec r hist cs m item :
  bcast_inv r hist cs m → (length hist < m + Capacity)%nat →
  Z.of_nat (length hist) < 2 ^ 64 - 1 →
  ∃ r', (r' ← write_slot (Z.of_nat (length hist)) item r;
         Some (true, set_write_cursor (u64 (Z.of_nat (length hist) + 1)) r')) = Some (true, r') ∧
        bcast_rep r' (hist ++ [item]) cs.
Proof.
  intros Hinv Hfree Hlim. destruct (write_slot_inv r hist cs m item Hinv Hfree) as (r1 & -> & H1 & Hit).
  cbn. eexists. split; [done|]. exists m. by apply publish_inv.
Qed.

Lemma not_lapped m hist_len (cs : list nat) :
  Forall (λ c, m ≤ c)%nat cs → (hist_len < m + Capacity)%nat → ¬ lapped Capacity hist_len cs.
Proof.
  intros Hall Hlt (c & Hc & Hle)%Exists_exists. rewrite Forall_forall in Hall.
  specialize (Hall c Hc). cbn in Hle. lia.
Qed.

Lemma try_publish_spec r hist cs item :
  bcast_rep r hist cs → Z.of_nat (length hist) < 2 ^ 64 - 1 →
  if decide (lapped Capacity (length hist) cs)
  then ∃ r', try_publish item r = Some (false, r') ∧ bcast_rep r' hist cs
  else ∃ r', try_publish item r = Some (true, r') ∧ bcast_rep r' (hist ++ [item]) cs.
Proof.
  intros [m Hinv] Hlim. pose proof (bi_room _ _ _ _ Hinv) as Hroom.
  assert (Forall (λ c, m ≤ c)%nat cs) as Hmcs.
  { eapply Forall_impl; [apply (bi_cs _ _ _ _ Hinv)|]. cbn. lia. }
  unfold try_publish. cbv zeta. rewrite (bi_write _ _ _ _ Hinv), (bi_cached _ _ _ _ Hinv).
  rewrite lag_u64 by lia. destruct (Z.leb_spec (Z.of_nat Capacity) (Z.of_nat (length hist - m))).
  - destruct (scan_min_spec r hist cs m Hinv) as (m' & -> & Hm' & Hall & Hor). cbn [mbind option_bind].
    pose proof (set_cached_min_inv r hist cs m m' Hinv Hm' Hall) as Hinv'.
    rewrite lag_u64 by lia. destruct (Z.leb_spec (Z.of_nat Capacity) (Z.of_nat (length hist - m'))).
    + pose proof (capacity_pos Capacity Hpow). rewrite decide_True.
      { eexists. split; [done|]. by exists m'. }
      apply Exists_exists. exists m'. destruct Hor as [[_ ->]|Hin]; [lia|]. split; [done|lia].
    + rewrite decide_False by (apply (not_lapped m'); [done|lia]). by apply (commit_spec _ _ _ m'); [|lia|].
  - rewrite decide_False by (apply (not_lapped m); [done|lia]). by apply (commit_spec _ _ _ m); [|lia|].
Qed.

Lemma try_consume_spec r hist cs i c :
  bcast_rep r hist cs → cs !! i = Some c →
  match hist !! c with
  | None => try_consume (Z.of_nat i) r = Some (None, r)
  | Some x => ∃ r', try_consume (Z.of_nat i) r = Some (Some x, r') ∧
                    bcast_rep r' hist (<[i := S c]> cs)
  end.
Proof.
  intros [m Hinv] Hi. unfold try_consume. rewrite array_get_nat, (bi_cursors _ _ _ _ Hinv i c Hi).
  cbn [mbind option_bind]. rewrite (bi_write _ _ _ _ Hinv). destruct (hist !! c) as [x|] eqn:Hx.
  - pose proof (lookup_lt_Some _ _ _ Hx). rewrite (proj2 (Z.leb_gt _ _)) by lia.
    rewrite (read_slot r hist cs m i c x Hinv Hi Hx).
    destruct (consume_inv r hist cs m i c Hinv Hi) as (r' & Hr & Hinv'); [done|].
    cbn. rewrite Hr. cbn. eexists. split; [done|]. by exists m.
  - apply lookup_ge_None in Hx. by rewrite (proj2 (Z.leb_le _ _)) by lia.
Qed.

Lemma bcast_rep_cursors r hist cs :
  bcast_rep r hist cs → Forall (λ c, c ≤ length hist ∧ length hist ≤ c + Capacity)%nat cs.
Proof.
  intros [m Hinv]. eapply Forall_impl; [apply (bi_cs _ _ _ _ Hinv)|].
  pose proof (bi_room _ _ _ _ Hinv). cbn. lia.
Qed.

Lemma registered_rep dflt n :
  (n ≤ MaxConsumers)%nat → bcast_rep (register_n n (bcast_new dflt)) [] (replicate n 0%nat).
Proof.
  intros Hn. exists 0%nat. apply (register_n_inv n (bcast_new dflt) []); [apply bcast_new_inv|done].
Qed.

(** ** With interference *)

Definition rd_count (rd : Reader) : nat := length (rd_seen rd).

Definition writer_ok (r : BroadcastRing T) (hist : list T) (cs : list nat) (m : nat)
    (w : WriterPc) : Prop :=
  match w with
  | WIdle => True
  | WScan item write n i min =>
      write = Z.of_nat (length hist) ∧ n = Z.of_nat (length cs) ∧ Z.of_nat m ≤ min ∧
      ∃ k : nat, i = Z.of_nat k ∧ (k ≤ length cs)%nat ∧
        (∀ j c, (j < k)%nat → cs !! j = Some c → min ≤ Z.of_nat c) ∧
        (k = 0%nat ∧ min = UINT64_MAX ∨ min ≤ Z.of_nat (length hist))
  | WGated item write => write = Z.of_nat (length hist) ∧ (length hist < m + Capacity)%nat
  | WWritten item write =>
      write = Z.of_nat (length hist) ∧ (length hist < m + Capacity)%nat ∧
      slots_ r !! (length hist `mod` Capacity)%nat = Some item
  end.

Definition reader_ok (hist : list T) (rd : Reader) : Prop :=
  rd_seen rd = take (rd_count rd) hist ∧
  match rd_pc rd with
  | RIdle => True
  | RChecked read => read = Z.of_nat (rd_count rd) ∧ (rd_count rd < length hist)%nat
  | RRead read out => read = Z.of_nat (rd_count rd) ∧ hist !! rd_count rd = Some out
  end.

Record bcast_ok (s : BcastState) (m : nat) : Prop := {
  bo_inv : bcast_inv (bs_ring s) (bs_published s) (rd_count <$> bs_readers s) m;
  bo_writer : writer_ok (bs_ring s) (bs_published s) (rd_count <$> bs_readers s) m (bs_writer s);
  bo_readers : Forall (reader_ok (bs_published s)) (bs_readers s)
}.

Lemma reader_ok_publish hist item rd : reader_ok hist rd → reader_ok (hist ++ [item]) rd.
Proof.
  intros [Hseen Hpc].
  assert (rd_count rd ≤ length hist)%nat as Hle.
  { unfold rd_count. rewrite Hseen, length_take. lia. }
  split; [by rewrite take_app_le|]. destruct (rd_pc rd); [done| |].
  - rewrite length_app. cbn. lia.
  - destruct Hpc as [-> Hx]. split; [done|]. by apply lookup_app_l_Some.
Qed.

(** A reader that advances never invalidates what the writer has seen. *)
Lemma writer_ok_consume r r' hist cs m w i c :
  slots_ r' = slots_ r → cs !! i = Some c →
  writer_ok r hist cs m w → writer_ok r' hist (<[i := S c]> cs) m w.
Proof.
  intros Hsl Hi. destruct w; cbn; rewrite ?Hsl, ?length_insert; [done| |done|done].
  intros (-> & -> & Hm & k & -> & Hk & Hall & Hor). split_and!; try done. exists k.
  split_and!; try done. intros j d Hj. destruct (decide (i = j)) as [<-|Hne].
  - rewrite list_lookup_insert_eq by (by eapply lookup_lt_Some). intros [= <-].
    specialize (Hall i c Hj Hi). lia.
  - rewrite list_lookup_insert_ne by done. by apply Hall.
Qed.

(** What the writer knows when its scan loop ends. *)
Lemma scan_done hist cs m item write n i min r :
  bcast_inv r hist cs m → writer_ok r hist cs m (WScan item write n i min) → n ≤ i →
  ∃ m' : nat, fresh_min_of write n min = Z.of_nat m' ∧ write = Z.of_nat (length hist) ∧
    (m ≤ m' ≤ length hist)%nat ∧ Forall (λ c, m' ≤ c)%nat cs.
Proof.
  intros Hinv (-> & -> & Hm & k & -> & Hk & Hall & Hor) Hdone. unfold fresh_min_of.
  pose proof (bi_room _ _ _ _ Hinv). destruct cs as [|c cs].
  - exists (length hist). cbn. split_and!; [done|done|lia|lia|done].
  - cbn [length] in *. rewrite (proj2 (Z.eqb_neq _ _)) by lia.
    exists (Z.to_nat min). split_and!; [lia|done|lia|lia|].
    apply Forall_lookup_2. intros j d Hj. pose proof (lookup_lt_Some _ _ _ Hj) as Hlt.
    specialize (Hall j d). cbn in Hlt. specialize (Hall ltac:(lia) Hj). lia.
Qed.

Lemma scan_step r hist cs m item write n i min c :
  bcast_inv r hist cs m → writer_ok r hist cs m (WScan item write n i min) →
  i < n → array_get (cursors_ r) i = Some c →
  writer_ok r hist cs m (WScan item write n (i + 1) (if c <? min then c else min)).
Proof.
  intros Hinv (-> & -> & Hm & k & -> & Hk & Hall & Hor) Hlt Hc.
  destruct (lookup_lt_is_Some_2 cs k ltac:(lia)) as [d Hd].
  rewrite array_get_nat, (bi_cursors _ _ _ _ Hinv k d Hd) in Hc. injection Hc as <-.
  pose proof (bi_cs _ _ _ _ Hinv) as Hcs. eapply Forall_lookup_1 in Hcs; [|exact Hd]. cbn in Hcs.
  split_and!; [done|done| |].
  - destruct (Z.ltb_spec (Z.of_nat d) min); lia.
  - exists (S k). split_and!; [lia|lia| |].
    + intros j e Hj He. destruct (decide (j = k)) as [->|Hne].
      * rewrite Hd in He. injection He as <-. destruct (Z.ltb_spec (Z.of_nat d) min); lia.
      * specialize (Hall j e ltac:(lia) He). destruct (Z.ltb_spec (Z.of_nat d) min); lia.
    + right. destruct (Z.ltb_spec (Z.of_nat d) min); destruct Hor as [[_ Hmin]|Hle]; lia.
Qed.

(** A reader that moves to another point of the same call. *)
Lemma reader_move_ok r w rs ps m i rd rd' :
  bcast_ok (mkBcastState r w rs ps) m → rs !! i = Some rd → rd_count rd' = rd_count rd →
  reader_ok ps rd' → bcast_ok (mkBcastState r w (<[i := rd']> rs) ps) m.
Proof.
  intros [Hinv Hw Hr] Hi Hc Hok. cbn in *.
  assert (rd_count <$> <[i := rd']> rs = rd_count <$> rs) as Hcs.
  { rewrite list_fmap_insert, Hc, list_insert_id; [done|]. by rewrite list_lookup_fmap, Hi. }
  constructor; cbn; rewrite ?Hcs; [done|done|]. by apply Forall_insert.
Qed.

Lemma reader_advance_ok r r' w rs ps m i seen read out :
  bcast_ok (mkBcastState r w rs ps) m → rs !! i = Some (mkReader (RRead read out) seen) →
  set_cursor (Z.of_nat i) (u64 (read + 1)) r = Some r' →
  bcast_ok (mkBcastState r' w (<[i := mkReader RIdle (seen ++ [out])]> rs) ps) m.
Proof.
  intros [Hinv Hw Hr] Hi Hset. cbn in *.
  destruct (proj1 (Forall_lookup _ _) Hr i _ Hi) as [Hseen [Hread Hout]].
  change (rd_count (mkReader _ seen)) with (length seen) in *. cbn in Hseen. subst read.
  assert ((rd_count <$> rs) !! i = Some (length seen)) as Hci by (by rewrite list_lookup_fmap, Hi).
  destruct (consume_inv r ps _ m i (length seen) Hinv Hci) as (r1 & Hr1 & Hinv1).
  { by eapply lookup_lt_Some. }
  rewrite Hset in Hr1. injection Hr1 as <-.
  assert (rd_count <$> <[i := mkReader RIdle (seen ++ [out])]> rs =
          <[i := S (length seen)]> (rd_count <$> rs)) as Hcs.
  { rewrite list_fmap_insert. f_equal. unfold rd_count. cbn. rewrite length_app. cbn. lia. }
  constructor; cbn.
  - by rewrite Hcs.
  - rewrite Hcs. eapply writer_ok_consume; [|done|done].
    unfold set_cursor in Hset. destruct (array_set _ _ _); by simplify_eq/=.
  - apply Forall_insert; [done|]. split; [|done]. unfold rd_count. cbn.
    rewrite length_app, Nat.add_1_r, (take_S_r _ _ out) by done. by rewrite <-Hseen.
Qed.

Lemma bcast_step_ok s s' m :
  bcast_step s s' → Z.of_nat (length (bs_published s')) < 2 ^ 64 →
  bcast_ok s m → ∃ m', bcast_ok s' m'.
Proof.
  intros Hstep Hlim Hok. destruct (Hok) as [Hinv Hw Hr]. pose proof (bi_room _ _ _ _ Hinv) as Hroom.
  pose proof (bi_small _ _ _ _ Hinv) as Hsm. destruct Hstep; cbn in *.
  - exists m. constructor; cbn; try done. split; [apply Hinv|].
    rewrite (bi_write _ _ _ _ Hinv), (bi_cached _ _ _ _ Hinv), lag_u64 in H by lia. lia.
  - exists m. constructor; cbn; try done. rewrite (bi_write _ _ _ _ Hinv), (bi_count _ _ _ _ Hinv).
    split_and!; [done|done|unfold UINT64_MAX; lia|]. exists 0%nat.
    split_and!; [done|lia|lia|by left].
  - exists m. constructor; cbn; try done. by apply (scan_step r ps _ m item write n i min c).
  - destruct (scan_done _ _ _ item write n i min _ Hinv Hw) as (m' & Hf & Hwr & Hm' & Hall); [done|].
    rewrite Hf. exists m'. constructor; cbn; try done. by eapply set_cached_min_inv.
  - destruct (scan_done _ _ _ item write n i min _ Hinv Hw) as (m' & Hf & Hwr & Hm' & Hall); [done|].
    rewrite Hf, Hwr, lag_u64 in H0 by lia. rewrite Hf.
    exists m'. constructor; cbn; try done; [by eapply set_cached_min_inv|]. split; [done|lia].
  - destruct Hw as [-> Hfree].
    destruct (write_slot_inv r ps _ m item Hinv Hfree) as (r1 & Hr1 & Hinv1 & Hit).
    simplify_eq. exists m. by constructor.
  - destruct Hw as (-> & Hfree & Hit). rewrite length_app in Hlim. cbn in Hlim.
    exists m. constructor; cbn; [apply publish_inv; [done|done|lia|done]|done|].
    eapply Forall_impl; [exact Hr|]. intros. by apply reader_ok_publish.
  - exists m. destruct (proj1 (Forall_lookup _ _) Hr i _ H) as [Hseen _].
    eapply reader_move_ok; [done|done|done|]. split; [done|]. cbn.
    rewrite array_get_nat, (bi_cursors _ _ _ _ Hinv i (length seen)) in H0
      by (by rewrite list_lookup_fmap, H).
    rewrite (bi_write _ _ _ _ Hinv) in H1. unfold rd_count. cbn. simplify_eq. lia.
  - exists m. destruct (proj1 (Forall_lookup _ _) Hr i _ H) as [Hseen [Hread Hlt]]. cbn in Hread. subst read.
    eapply reader_move_ok; [done|done|done|]. split; [done|]. split; [done|].
    destruct (lookup_lt_is_Some_2 _ _ Hlt) as [x Hx].
    rewrite (read_slot r ps _ m i _ x Hinv) in H0; [|by rewrite list_lookup_fmap, H|done].
    by simplify_eq.
  - exists m. by eapply reader_advance_ok.
Qed.

Lemma bcast_step_published s s' :
  bcast_step s s' → (length (bs_published s) ≤ length (bs_published s'))%nat.
Proof. destruct 1; cbn; rewrite ?length_app; lia. Qed.

Lemma bcast_reach_ok dflt n s :
  (n ≤ MaxConsumers)%nat → bcast_reach dflt n s → Z.of_nat (length (bs_published s)) < 2 ^ 64 →
  ∃ m, bcast_ok s m.
Proof.
  intros Hn Hr. revert s Hr.
  apply (rtc_ind_r (λ s, Z.of_nat (length (bs_published s)) < 2 ^ 64 → ∃ m, bcast_ok s m)).
  - intros _. exists 0%nat. constructor; cbn.
    + rewrite fmap_replicate. apply (register_n_inv n (bcast_new dflt) []); [apply bcast_new_inv|done].
    + done.
    + apply Forall_replicate. split; [done|done].
  - intros s1 s2 Hr Hstep IH Hlim. destruct IH as [m Hok]; [pose proof (bcast_step_published _ _ Hstep); lia|].
    by eapply bcast_step_ok.
Qed.

End Bcast.

(** ** The ring as a [Broadcast] *)

#[export] Instance bcast_broadcast (T : Type) (Capacity MaxConsumers : nat) :
    Broadcast (BroadcastRing T) T := {|
  bc_publish := try_publish Capacity;
  bc_consume i := try_consume Capacity (Z.of_nat i);
  bc_room := Capacity;
  bc_limit := 2 ^ 64 - 1;
  bc_rep := bcast_rep Capacity MaxConsumers
|}.

Lemma bcast_broadcast_laws (T : Type) (Capacity MaxConsumers : nat) :
  pow2_capacity Capacity →
  @BroadcastLaws (BroadcastRing T) T (bcast_broadcast T Capacity MaxConsumers).
Proof.
  intros Hpow. constructor; cbn.
  - intros b hist cs x. by apply try_publish_spec.
  - intros b hist cs i c. by apply try_consume_spec.
  - intros b hist cs. by apply bcast_rep_cursors.
Qed.

(** ** Properties *)

(** C19: The ring implements an append-only log with one cursor per consumer.
    [try_publish] fails exactly when some consumer is [Capacity] events behind,
    and then loses nothing; otherwise it appends.  [try_consume] returns the
    next event of that consumer and moves only its cursor, or returns [false]
    when the consumer has caught up. *)
Theorem bcast_refines_log {T} (Capacity MaxConsumers : nat) (r : BroadcastRing T)
    (hist : list T) (cs : list nat) (item : T) :
  pow2_capacity Capacity → bcast_rep Capacity MaxConsumers r hist cs →
  Z.of_nat (length hist) < 2 ^ 64 - 1 →
  (if decide (lapped Capacity (length hist) cs)
   then ∃ r', try_publish Capacity item r = Some (false, r') ∧
              bcast_rep Capacity MaxConsumers r' hist cs
   else ∃ r', try_publish Capacity item r = Some (true, r') ∧
              bcast_rep Capacity MaxConsumers r' (hist ++ [item]) cs) ∧
  (∀ (i c : nat), cs !! i = Some c →
     match hist !! c with
     | None => try_consume Capacity (Z.of_nat i) r = Some (None, r)
     | Some x => ∃ r', try_consume Capacity (Z.of_nat i) r = Some (Some x, r') ∧
                       bcast_rep Capacity MaxConsumers r' hist (<[i := S c]> cs)
     end) ∧
  published_count r = Z.of_nat (length hist).
Proof.
  intros Hpow Hrep Hlim. split; [by apply try_publish_spec|]. split.
  - intros i c. by apply try_consume_spec.
  - destruct Hrep as [m Hinv]. apply Hinv.
Qed.

Lemma bcast_demo_rep : bcast_rep 2 8 (register_n 1 (bcast_new 2 8 0)) [] [0%nat].
Proof. apply (registered_rep 2 8 ltac:(lia) 0 1). lia. Qed.

Lemma bcast_refines_log_witness :
  ∃ r', try_publish 2 7 (register_n 1 (bcast_new 2 8 0)) = Some (true, r') ∧
        bcast_rep 2 8 r' [7] [0%nat].
Proof.
  destruct (bcast_refines_log 2 8 _ _ _ 7 pow2_capacity_2 bcast_demo_rep ltac:(cbn; lia)) as [H _].
  rewrite decide_False in H; [exact H|].
  by intros [Hle|Hex%Exists_nil]%Exists_cons; [cbn in Hle; lia|].
Defined.

(** Every consumer sees the same total order, under every interleaving.
    In any state the writer and [n] consumers that registered beforehand can
    reach, what each consumer has read is a prefix of what was published, and
    it is at most [Capacity] events behind: nothing is lost, overwritten unread,
    duplicated or reordered.  (The 64-bit cursors have not wrapped around.) *)
Theorem bcast_total_order {T} (Capacity MaxConsumers : nat) (dflt : T) (n : nat) (s : BcastState) :
  pow2_capacity Capacity → Z.of_nat MaxConsumers < 2 ^ 64 → (n ≤ MaxConsumers)%nat →
  bcast_reach Capacity MaxConsumers dflt n s → Z.of_nat (length (bs_published s)) < 2 ^ 64 →
  Forall (λ rd, rd_seen rd `prefix_of` bs_published s ∧
                (length (bs_published s) ≤ length (rd_seen rd) + Capacity)%nat) (bs_readers s).
Proof.
  intros Hpow Hmax Hn Hr Hlim.
  destruct (bcast_reach_ok Capacity MaxConsumers Hpow Hmax dflt n s Hn Hr Hlim) as [m [Hinv _ Hrd]].
  apply Forall_forall. intros rd Hin. rewrite Forall_forall in Hrd.
  destruct (Hrd rd Hin) as [Hseen _]. split; [rewrite Hseen; apply prefix_take|].
  pose proof (bcast_rep_cursors Capacity MaxConsumers _ _ _ (ex_intro _ m Hinv)) as Hc.
  rewrite Forall_fmap, Forall_forall in Hc. apply (Hc rd Hin).
Qed.

(** Two consumers; the first reads the item while the second has not started. *)
Definition bcast_demo_state : BcastState :=
  mkBcastState (mkBcast 1 0 2 [1; 0; 0; 0; 0; 0; 0; 0] [7; 0]) WIdle
               [mkReader RIdle [7]; mkReader RIdle []] [7].

Lemma bcast_demo_reach : bcast_reach 2 8 0 2 bcast_demo_state.
Proof.
  eapply rtc_l. { apply (bstep_publish_cached 2 _ _ _ 7). vm_compute. reflexivity. }
  eapply rtc_l. { eapply bstep_write_slot. reflexivity. }
  eapply rtc_l. { apply bstep_publish. }
  eapply rtc_l. { eapply (bstep_consume_check 2 _ _ _ _ 0%nat); reflexivity. }
  eapply rtc_l. { eapply (bstep_consume_read 2 _ _ _ _ 0%nat); reflexivity. }
  eapply rtc_l. { eapply (bstep_consume_store 2 _ _ _ _ _ 0%nat); reflexivity. }
  vm_compute. apply rtc_refl.
Qed.

Lemma bcast_total_order_witness :
  Forall (λ rd, rd_seen rd `prefix_of` [7] ∧ (1 ≤ length (rd_seen rd) + 2)%nat)
         (bs_readers bcast_demo_state).
Proof.
  exact (bcast_total_order 2 8 0 2 bcast_demo_state pow2_capacity_2 ltac:(lia) ltac:(lia)
           bcast_demo_reach ltac:(cbn; lia)).
Defined.

(** The writer never overwrites a slot a consumer is reading.  When the
    writer is past its gate and about to store [item], the store is inside the
    array, and any consumer that is about to read its slot reads another slot. *)
Theorem bcast_race_free {T} (Capacity MaxConsumers : nat) (dflt : T) (n : nat) (s : BcastState)
    (item : T) (write : Z) :
  pow2_capacity Capacity → Z.of_nat MaxConsumers < 2 ^ 64 → (n ≤ MaxConsumers)%nat →
  bcast_reach Capacity MaxConsumers dflt n s → Z.of_nat (length (bs_published s)) < 2 ^ 64 →
  bs_writer s = WGated item write →
  (∃ r', write_slot Capacity write item (bs_ring s) = Some r') ∧
  (∀ rd read, rd ∈ bs_readers s → rd_pc rd = RChecked read →
     Z.land write (kMask Capacity) ≠ Z.land read (kMask Capacity)).
Proof.
  intros Hpow Hmax Hn Hr Hlim Hw.
  destruct (bcast_reach_ok Capacity MaxConsumers Hpow Hmax dflt n s Hn Hr Hlim) as [m [Hinv Hwr Hrd]].
  rewrite Hw in Hwr. destruct Hwr as [-> Hfree]. split.
  - destruct (write_slot_inv Capacity MaxConsumers Hpow _ _ _ m item Hinv Hfree) as (r' & Hr' & _).
    eauto.
  - intros rd read Hin Hpc. rewrite Forall_forall in Hrd. destruct (Hrd rd Hin) as [_ Hok].
    rewrite Hpc in Hok. destruct Hok as [-> Hlt]. unfold kMask.
    rewrite !(land_mask_nat Capacity Hpow). intros Heq%Nat2Z.inj. symmetry in Heq.
    pose proof (bi_cs _ _ _ _ _ _ Hinv) as Hcs. rewrite Forall_fmap, Forall_forall in Hcs.
    specialize (Hcs rd Hin). cbn in Hcs. apply (mod_eq_near Capacity Hpow) in Heq; lia.
Qed.

Lemma bcast_race_free_witness :
  ∃ r', write_slot 2 0 7 (register_n 1 (bcast_new 2 8 0)) = Some r'.
Proof.
  apply (bcast_race_free 2 8 0 1
    (mkBcastState (register_n 1 (bcast_new 2 8 0)) (WGated 7 0) [mkReader RIdle []] []) 7 0
    pow2_capacity_2 ltac:(lia) ltac:(lia)); [|cbn; lia|reflexivity].
  eapply rtc_l; [|apply rtc_refl].
  exact (bstep_publish_cached 2 (register_n 1 (bcast_new 2 8 0)) _ _ 7 eq_refl).
Defined.

Definition publish_or (r : BroadcastRing Z) (x : Z) : BroadcastRing Z :=
  match try_publish 2 x r with Some (_, r') => r' | None => r end.
Definition consume_or (i : Z) (r : BroadcastRing Z) : BroadcastRing Z :=
  match try_consume 2 i r with Some (_, r') => r' | None => r end.

(** Registering late reads stale data.  Once the writer has lapped slot
    zero, a consumer that registers gets cursor zero and its first
    [try_consume] returns the third event as if it were the first: the reason
    why every consumer must register before the sequencer starts. *)
Theorem late_registration_stale :
  let r1 := foldl publish_or (register_n 1 (bcast_new 2 8 0)) [10; 20] in
  let r2 := publish_or (consume_or 0 (consume_or 0 r1)) 30 in
  let '(id, r3) := register_consumer r2 in
  published_count r3 = 3 ∧ option_map fst (try_consume 2 id r3) = Some (Some 30).
Proof. vm_compute. done. Qed.
