(* ===== verification/RaMemory.v ===== *)
(** * RaMemory: release/acquire memory

    [SpscRing] and [BroadcastRing] interleave atomic accesses, as if every load
    returned the newest value.  The source asks for less: its loads are
    [relaxed] or [acquire] and its stores [release], so a load may return an old
    value, and nothing but reading a released value orders two threads' accesses
    to the slots.  This file is an operational semantics of that: an atomic
    location is the list of its messages, oldest first, each with the view of the
    thread that released it; a view says which message of each location, which
    writes and which reads of each slot a thread knows of.  A slot access that
    does not know of a conflicting one is a data race, undefined behaviour, and
    yields [None].  Every atomic location here is stored to by one thread only, so
    a new message is always the newest. *)

From stdpp Require Import functions.
From S2P Require Import Prelude.

(** ** Views *)

Record View := mkView {
  va : nat → nat;          (* newest message known, by atomic location *)
  vw : nat → nat;          (* number of writes known, by slot *)
  vr : nat → nat → nat     (* number of reads known, by thread and slot *)
}.

Record view_le (V W : View) : Prop := {
  vl_a : ∀ a, va V a ≤ va W a;
  vl_w : ∀ s, vw V s ≤ vw W s;
  vl_r : ∀ t s, vr V t s ≤ vr W t s
}.

Definition view_join (V W : View) : View :=
  mkView (λ a, va V a `max` va W a) (λ s, vw V s `max` vw W s) (λ t s, vr V t s `max` vr W t s).

Definition bottom : View := mkView (λ _, 0) (λ _, 0) (λ _ _, 0).

#[export] Instance view_le_preorder : PreOrder view_le.
Proof.
  split; [by intros V|]. intros U V W [A1 W1 R1] [A2 W2 R2]. split; intros; etrans; eauto.
Qed.

Lemma view_join_l V W : view_le V (view_join V W).
Proof. split; cbn; lia. Qed.
Lemma view_join_r V W : view_le W (view_join V W).
Proof. split; cbn; lia. Qed.

(** The thread has read or written message [k] of [a]. *)
Definition see (a k : nat) (V : View) : View := mkView (<[a := k]> (va V)) (vw V) (vr V).

(** ** Memory *)

Record Mem (T : Type) := mkMem {
  m_msgs : nat → list (Z * View);
  m_val : nat → T;
  m_writes : nat → nat;
  m_reads : nat → nat → nat
}.
Arguments mkMem {T} _ _ _ _.
Arguments m_msgs {T} _ _.
Arguments m_val {T} _ _.
Arguments m_writes {T} _ _.
Arguments m_reads {T} _ _ _.

(** Atomics initialised before the threads start; [mem_init] has zeros. *)
Definition mem_start {T} (init : nat → Z) (dflt : T) : Mem T :=
  mkMem (λ a, [(init a, bottom)]) (λ _, dflt) (λ _, 0) (λ _ _, 0).

Definition mem_init {T} (dflt : T) : Mem T := mem_start (λ _, 0%Z) dflt.

Section Access.
Context {T : Type} (threads : nat).

(** A load of [a] that returns its message [k]; [acquire] or [relaxed]. *)
Definition load (acquire : bool) (a k : nat) (m : Mem T) (V : View) : option (Z * View) :=
  if va V a <=? k then
    '(z, W) ← m_msgs m a !! k;
    Some (z, if acquire : bool then view_join (see a k V) W else see a k V)
  else None.

(** A [release] store. *)
Definition store (a : nat) (z : Z) (m : Mem T) (V : View) : Mem T * View :=
  let V' := see a (length (m_msgs m a)) V in
  (mkMem (<[a := m_msgs m a ++ [(z, V')]]> (m_msgs m)) (m_val m) (m_writes m) (m_reads m), V').

(** A plain write of a slot: it must know of all writes and of all reads. *)
Definition write_free (s : nat) (m : Mem T) (V : View) : bool :=
  (vw V s =? m_writes m s) && forallb (λ t, vr V t s =? m_reads m t s) (seq 0 threads).

Definition na_write (s : nat) (x : T) (m : Mem T) (V : View) : option (Mem T * View) :=
  if write_free s m V then
    let n := S (m_writes m s) in
    Some (mkMem (m_msgs m) (<[s := x]> (m_val m)) (<[s := n]> (m_writes m)) (m_reads m),
          mkView (va V) (<[s := n]> (vw V)) (vr V))
  else None.

(** A plain read by thread [t]: it must know of all writes. *)
Definition na_read (t s : nat) (m : Mem T) (V : View) : option (T * Mem T * View) :=
  if vw V s =? m_writes m s then
    let n := S (m_reads m t s) in
    Some (m_val m s,
          mkMem (m_msgs m) (m_val m) (m_writes m) (<[t := <[s := n]> (m_reads m t)]> (m_reads m)),
          mkView (va V) (vw V) (<[t := <[s := n]> (vr V t)]> (vr V)))
  else None.

(** ** Views that speak of the memory they live in *)

Record closed (m : Mem T) (V : View) : Prop := {
  cl_a : ∀ a, va V a < length (m_msgs m a);
  cl_w : ∀ s, vw V s ≤ m_writes m s;
  cl_r : ∀ t s, vr V t s ≤ m_reads m t s
}.

Definition mem_closed (m : Mem T) : Prop := ∀ a k z W, m_msgs m a !! k = Some (z, W) → closed m W.

Lemma closed_join m V W : closed m V → closed m W → closed m (view_join V W).
Proof.
  intros [A1 W1 R1] [A2 W2 R2]. split; cbn; intros.
  - specialize (A1 a). specialize (A2 a). lia.
  - specialize (W1 s). specialize (W2 s). lia.
  - specialize (R1 t s). specialize (R2 t s). lia.
Qed.

Lemma closed_see m V a k : closed m V → k < length (m_msgs m a) → closed m (see a k V).
Proof.
  intros [A1 W1 R1] Hk. split; cbn; [|done|done]. intros b.
  destruct (decide (a = b)) as [->|Hne]; [by rewrite fn_lookup_insert|by rewrite fn_lookup_insert_ne].
Qed.

(** Memory only grows. *)
Record mem_le (m m' : Mem T) : Prop := {
  ml_a : ∀ a, length (m_msgs m a) ≤ length (m_msgs m' a);
  ml_w : ∀ s, m_writes m s ≤ m_writes m' s;
  ml_r : ∀ t s, m_reads m t s ≤ m_reads m' t s
}.

Lemma closed_mono m m' V : mem_le m m' → closed m V → closed m' V.
Proof.
  intros [A W R] [A1 W1 R1]. split; intros.
  - specialize (A a). specialize (A1 a). lia.
  - specialize (W s). specialize (W1 s). lia.
  - specialize (R t s). specialize (R1 t s). lia.
Qed.

Lemma store_le a z m V : mem_le m (store a z m V).1.
Proof.
  split; cbn; [|done|done]. intros b. unfold insert, fn_insert. case_decide; subst; [|done].
  rewrite length_app. lia.
Qed.

Lemma na_write_le s x m V m' V' : na_write s x m V = Some (m', V') → mem_le m m'.
Proof.
  unfold na_write. destruct (write_free s m V); [|done]. intros [= <- _]. split; cbn; [done| |done].
  intros s'. unfold insert, fn_insert. case_decide; subst; lia.
Qed.

Lemma na_read_le t s m V x m' V' : na_read t s m V = Some (x, m', V') → mem_le m m'.
Proof.
  unfold na_read. destruct (_ =? _); [|done]. intros [= _ <- _]. split; cbn; [done|done|].
  intros t' s'. unfold insert, fn_insert. repeat case_decide; subst; lia.
Qed.

#[export] Instance mem_le_refl : Reflexive mem_le.
Proof. by split. Qed.

(** After a store, a message is an old one or the new one. *)
Lemma store_lookup a z m V b k z' W :
  m_msgs (store a z m V).1 b !! k = Some (z', W) →
  m_msgs m b !! k = Some (z', W) ∨
  (b = a ∧ k = length (m_msgs m a) ∧ z' = z ∧ W = (store a z m V).2).
Proof.
  cbn. unfold insert, fn_insert. case_decide as Ha; [subst b|by left].
  intros [?|[Hge Hk]]%lookup_app_Some; [by left|right]. apply list_lookup_singleton_Some in Hk as [Hk [= <- <-]].
  split_and!; [done|lia|done|done].
Qed.

(** A load gives a message, not older than what the thread has seen. *)
Lemma load_inv acquire a k m V z V' :
  load acquire a k m V = Some (z, V') →
  va V a ≤ k ∧ ∃ W, m_msgs m a !! k = Some (z, W) ∧
    V' = if acquire : bool then view_join (see a k V) W else see a k V.
Proof.
  unfold load. destruct (Nat.leb_spec (va V a) k); [|done].
  destruct (m_msgs m a !! k) as [[z' W]|]; cbn; [|done]. intros [= <- <-]. eauto.
Qed.

(** What a thread has seen only grows. *)
Lemma load_mono acquire a k m V z V' : load acquire a k m V = Some (z, V') → ∀ b, va V b ≤ va V' b.
Proof.
  intros (Hk & W & _ & ->)%load_inv b. assert (va V b ≤ va (see a k V) b) as Hs.
  { cbn. unfold insert, fn_insert. by case_decide; subst. }
  destruct acquire; [cbn in *; lia|done].
Qed.

End Access.
