(* ===== verification/RaRing.v ===== *)
(** * RaRing: a ring with one writer and several readers, under release/acquire

    What [SpscRingBuffer] and [BroadcastRing] have in common.  The writer stores
    item [n] in slot [n mod Capacity] and then its cursor; a reader reads its slot
    and then stores its own cursor.  Location 0 is the writer's cursor and
    location [S i] that of reader [i]: the [k]-th message of a cursor is the one
    stored after [k] items.  A thread that has seen message [k] of a cursor with
    [acquire] knows of the slot accesses of the first [k] items; that is all the
    synchronisation there is, and it is enough. *)

From stdpp Require Import functions.
From S2P Require Import Prelude RaMemory.

Section RaRing.
Context (Capacity room readers : nat).
Hypothesis Hpow : pow2_capacity Capacity.
Hypothesis Hroom : room ≤ Capacity.

(** The values stored in the writer's cursor and in a reader's. *)
Context (hv tv : nat → Z).

(** How many of the first [k] items live in slot [s]. *)
Definition cnt (s k : nat) : nat := length (filter (λ j, j `mod` Capacity = s) (seq 0 k)).
#[local] Arguments cnt : simpl never.

Lemma cnt_S s k : cnt s (S k) = cnt s k + if decide (k `mod` Capacity = s) then 1 else 0.
Proof. unfold cnt. rewrite seq_S, filter_app, length_app, filter_cons. cbn. by case_decide. Qed.

Lemma cnt_mono s k k' : k ≤ k' → cnt s k ≤ cnt s k'.
Proof. induction 1; [done|]. rewrite cnt_S. lia. Qed.

Lemma cnt_max s k k' : cnt s (k `max` k') = cnt s k `max` cnt s k'.
Proof.
  destruct (Nat.le_ge_cases k k') as [Hle|Hle]; pose proof (cnt_mono s _ _ Hle).
  - by rewrite !Nat.max_r.
  - by rewrite !Nat.max_l.
Qed.

(** No item strictly between [p] and the next lap shares the slot of [p]. *)
Lemma cnt_lap p a b : p < a ≤ b → b ≤ p + Capacity → cnt (p `mod` Capacity) b = cnt (p `mod` Capacity) a.
Proof.
  intros [Ha Hb]. induction Hb as [|b Hb IH]; intros Hlap; [done|]. rewrite cnt_S, IH by lia.
  rewrite decide_False; [lia|]. intros Heq. symmetry in Heq. apply (mod_eq_near Capacity Hpow) in Heq; lia.
Qed.

(** And none between [p] and the previous lap. *)
Lemma cnt_lap_before p a b : a ≤ b ≤ p → p < a + Capacity → cnt (p `mod` Capacity) b = cnt (p `mod` Capacity) a.
Proof.
  intros [Ha Hb] Hlap. induction Ha as [|b Ha IH]; [done|]. rewrite cnt_S, IH by lia.
  rewrite decide_False; [lia|]. intros Heq. apply (mod_eq_near Capacity Hpow) in Heq; lia.
Qed.

(** The view knows of the accesses behind the cursors it has seen. *)
Record informed (V : View) : Prop := {
  if_w : ∀ s, cnt s (va V 0) ≤ vw V s;
  if_r : ∀ i s, i < readers → cnt s (va V (S i)) ≤ vr V i s
}.

Lemma informed_join V W : informed V → informed W → informed (view_join V W).
Proof.
  intros [W1 R1] [W2 R2]. split; cbn; intros; rewrite cnt_max.
  - specialize (W1 s). specialize (W2 s). lia.
  - specialize (R1 i s H). specialize (R2 i s H). lia.
Qed.

(** An acquiring load: the message's view covers the message itself. *)
Lemma informed_acquire V W a k :
  informed V → informed W → k ≤ va W a → informed (view_join (see a k V) W).
Proof.
  intros [W1 R1] [W2 R2] Hk. split; cbn; intros.
  - specialize (W1 s). specialize (W2 s). rewrite cnt_max. unfold insert, fn_insert. case_decide as Ha; [subst a|lia].
    pose proof (cnt_mono s _ _ Hk). lia.
  - specialize (R1 i s H). specialize (R2 i s H). rewrite cnt_max. unfold insert, fn_insert.
    case_decide as Ha; [subst a|lia]. pose proof (cnt_mono s _ _ Hk). lia.
Qed.

(** Seeing one's own newest message again changes nothing. *)
Lemma see_same a V b : va (see a (va V a) V) b = va V b.
Proof. cbn. unfold insert, fn_insert. by case_decide; subst. Qed.

(** ** The invariant

    [n] items are published, and [w] is 1 while the slot of the next one is
    already written; reader [i] has released [q i] items, and [d i] is 1 while it
    has already read the next one; [l] are the items. *)

Context {T : Type}.

Record writer_ok (m : Mem T) (V : View) (n w : nat) : Prop := {
  wo_closed : closed m V;
  wo_informed : informed V;
  wo_cursor : va V 0 = n;
  wo_writes : ∀ s, vw V s = m_writes m s;
  wo_room : ∀ i, i < readers → n + w ≤ va V (S i) + room
}.

Record reader_ok (m : Mem T) (V : View) (i q d : nat) : Prop := {
  ro_closed : closed m V;
  ro_informed : informed V;
  ro_cursor : va V (S i) = q;
  ro_seen : q + d ≤ va V 0;
  ro_reads : ∀ s, vr V i s = m_reads m i s
}.

Record mem_ok (m : Mem T) (n w : nat) (q d : nat → nat) (l : list T) : Prop := {
  mo_closed : mem_closed m;
  mo_head : length (m_msgs m 0) = S n;
  mo_tail : ∀ i, i < readers → length (m_msgs m (S i)) = S (q i);
  mo_head_value : ∀ k z W, m_msgs m 0 !! k = Some (z, W) → z = hv k;
  mo_tail_value : ∀ i k z W, i < readers → m_msgs m (S i) !! k = Some (z, W) → z = tv k;
  mo_informed : ∀ a k z W, m_msgs m a !! k = Some (z, W) → informed W ∧ k ≤ va W a;
  mo_writes : ∀ s, m_writes m s = cnt s (n + w);
  mo_reads : ∀ i s, i < readers → m_reads m i s = cnt s (q i + d i);
  mo_items : length l = n + w;
  mo_values : ∀ j x, l !! j = Some x → n + w ≤ j + Capacity → m_val m (j `mod` Capacity) = x
}.

Record ring_ok (m : Mem T) (VW : View) (VR : nat → View) (n w : nat) (q d : nat → nat) (l : list T) : Prop := {
  rk_mem : mem_ok m n w q d l;
  rk_writer : writer_ok m VW n w;
  rk_reader : ∀ i, i < readers → reader_ok m (VR i) i (q i) (d i)
}.

(** ** Loads *)

Lemma writer_see_own m V n w : writer_ok m V n w → writer_ok m (see 0 n V) n w.
Proof.
  intros [Hc Hi Hn Hw Hr]. subst n.
  split; [apply closed_see; [done|apply Hc]| |apply see_same|done|by intros i Hlt; rewrite see_same; apply Hr].
  split; intros; rewrite see_same; by apply Hi.
Qed.

Lemma writer_load_own m VW VR n w q d l k z V :
  ring_ok m VW VR n w q d l → load false 0 k m VW = Some (z, V) → z = hv n ∧ ring_ok m V VR n w q d l.
Proof.
  intros [Hm Hw Hr] (Hk & W & Hmsg & ->)%load_inv. pose proof (lookup_lt_Some _ _ _ Hmsg) as Hlt.
  rewrite (wo_cursor _ _ _ _ Hw) in Hk. rewrite (mo_head _ _ _ _ _ _ Hm) in Hlt. assert (k = n) as -> by lia.
  split; [by eapply mo_head_value|]. split; [done|by apply writer_see_own|done].
Qed.

(** The writer looks at a location it does not store to: it may see an old value. *)
Lemma writer_acquires m VW VR n w q d l a k z V :
  a ≠ 0 → ring_ok m VW VR n w q d l → load true a k m VW = Some (z, V) →
  ring_ok m V VR n w q d l ∧ va VW a ≤ k ≤ va V a ∧ ∃ W, m_msgs m a !! k = Some (z, W).
Proof.
  intros Ha [Hm Hw Hr] Hload. pose proof (load_mono _ _ _ _ _ _ _ Hload) as Hup.
  apply load_inv in Hload as (Hk & W & Hmsg & ->).
  pose proof (mo_closed _ _ _ _ _ _ Hm _ _ _ _ Hmsg) as HWc.
  destruct (mo_informed _ _ _ _ _ _ Hm _ _ _ _ Hmsg) as [HWi HWk]. destruct Hw as [Hc Hinf Hn Hwr Hroom'].
  split; [|split; [cbn; lia|by exists W]]. split; [done| |done]. split.
  - apply closed_join; [apply closed_see; [done|]|done]. by eapply lookup_lt_Some.
  - by apply informed_acquire.
  - cbn. rewrite fn_lookup_insert_ne by done. pose proof (cl_a _ _ HWc 0) as H0. rewrite (mo_head _ _ _ _ _ _ Hm) in H0. lia.
  - intros s. cbn. rewrite Hwr. pose proof (cl_w _ _ HWc s). lia.
  - intros j Hj. specialize (Hroom' j Hj). specialize (Hup (S j)). lia.
Qed.

(** A reader's cursor, for instance. *)
Lemma writer_load_tail m VW VR n w q d l i k z V :
  i < readers → ring_ok m VW VR n w q d l → load true (S i) k m VW = Some (z, V) →
  z = tv k ∧ va VW (S i) ≤ k ≤ q i ∧ k ≤ va V (S i) ∧ ring_ok m V VR n w q d l.
Proof.
  intros Hi Hok Hload.
  destruct (writer_acquires _ _ _ _ _ _ _ _ _ _ _ _ (Nat.neq_succ_0 i) Hok Hload) as (Hok' & Hk & W & Hmsg).
  pose proof (lookup_lt_Some _ _ _ Hmsg) as Hlt. rewrite (mo_tail _ _ _ _ _ _ (rk_mem _ _ _ _ _ _ _ _ Hok)) in Hlt by done.
  split_and!; [by eapply mo_tail_value, Hmsg; [apply Hok|]|lia|lia|lia|done].
Qed.

(** Replacing the view of reader [i]. *)
Lemma ring_reader m VW VR n w q d l i V :
  ring_ok m VW VR n w q d l → reader_ok m V i (q i) (d i) → ring_ok m VW (<[i := V]> VR) n w q d l.
Proof.
  intros [Hm Hw Hr] HV. split; [done|done|]. intros j Hj. unfold insert, fn_insert.
  case_decide; [by subst|by apply Hr].
Qed.

Lemma reader_load_own m VW VR n w q d l i k z V :
  i < readers → ring_ok m VW VR n w q d l → load false (S i) k m (VR i) = Some (z, V) →
  z = tv (q i) ∧ va V 0 = va (VR i) 0 ∧ ring_ok m VW (<[i := V]> VR) n w q d l.
Proof.
  intros Hi Hok (Hk & W & Hmsg & ->)%load_inv. destruct (Hok) as [Hm Hw Hr].
  destruct (Hr i Hi) as [Hc Hinf Hq Hs Hrd]. pose proof (lookup_lt_Some _ _ _ Hmsg) as Hlt.
  rewrite (mo_tail _ _ _ _ _ _ Hm) in Hlt by done. rewrite Hq in Hk. assert (k = q i) as -> by lia.
  split; [by eapply mo_tail_value|].
  assert (see (S i) (q i) (VR i) = see (S i) (va (VR i) (S i)) (VR i)) as -> by (by rewrite Hq).
  split; [apply see_same|]. apply ring_reader; [done|].
  split; [apply closed_see; [done|apply Hc]| |by rewrite see_same|by rewrite see_same|done].
  split; intros; rewrite see_same; by apply Hinf.
Qed.

(** A reader looks at any location. *)
Lemma reader_acquires m VW VR n w q d l i a k z V :
  i < readers → ring_ok m VW VR n w q d l → load true a k m (VR i) = Some (z, V) →
  ring_ok m VW (<[i := V]> VR) n w q d l ∧ va (VR i) a ≤ k ≤ va V a ∧
  ∃ W, m_msgs m a !! k = Some (z, W) ∧ ∀ b, va W b ≤ va V b.
Proof.
  intros Hi Hok Hload. pose proof (load_mono _ _ _ _ _ _ _ Hload) as Hup.
  apply load_inv in Hload as (Hk & W & Hmsg & ->). destruct (Hok) as [Hm Hw Hr].
  destruct (Hr i Hi) as [Hc Hinf Hq Hs Hrd].
  pose proof (mo_closed _ _ _ _ _ _ Hm _ _ _ _ Hmsg) as HWc.
  destruct (mo_informed _ _ _ _ _ _ Hm _ _ _ _ Hmsg) as [HWi HWk].
  split; [|split; [cbn; lia|exists W; split; [done|intros b; cbn; lia]]].
  apply ring_reader; [done|]. split.
  - apply closed_join; [apply closed_see; [done|]|done]. by eapply lookup_lt_Some.
  - by apply informed_acquire.
  - pose proof (cl_a _ _ HWc (S i)) as H0. rewrite (mo_tail _ _ _ _ _ _ Hm) in H0 by done.
    cbn. unfold insert, fn_insert. case_decide as Ha; [subst a|lia].
    apply lookup_lt_Some in Hmsg. rewrite (mo_tail _ _ _ _ _ _ Hm) in Hmsg by done. lia.
  - specialize (Hup 0). lia.
  - intros s. cbn. rewrite Hrd. pose proof (cl_r _ _ HWc i s). lia.
Qed.

(** The writer's cursor, for instance. *)
Lemma reader_load_head m VW VR n w q d l i k z V :
  i < readers → ring_ok m VW VR n w q d l → load true 0 k m (VR i) = Some (z, V) →
  z = hv k ∧ va (VR i) 0 ≤ k ≤ n ∧ k ≤ va V 0 ∧ ring_ok m VW (<[i := V]> VR) n w q d l.
Proof.
  intros Hi Hok Hload.
  destruct (reader_acquires _ _ _ _ _ _ _ _ _ _ _ _ _ Hi Hok Hload) as (Hok' & Hk & W & Hmsg & _).
  pose proof (lookup_lt_Some _ _ _ Hmsg) as Hlt. rewrite (mo_head _ _ _ _ _ _ (rk_mem _ _ _ _ _ _ _ _ Hok)) in Hlt.
  split_and!; [by eapply mo_head_value, Hmsg; apply Hok|lia|lia|lia|done].
Qed.

(** ** Slot accesses are free of races *)

Lemma reader_behind m VW VR n w q d l i :
  i < readers → ring_ok m VW VR n w q d l →
  va VW (S i) ≤ q i ∧ q i + d i ≤ n ∧ va (VR i) 0 ≤ n ∧ n + w ≤ q i + Capacity.
Proof.
  intros Hi [Hm Hw Hr]. pose proof (cl_a _ _ (wo_closed _ _ _ _ Hw) (S i)) as H1.
  pose proof (cl_a _ _ (ro_closed _ _ _ _ _ (Hr i Hi)) 0) as H2. pose proof (ro_seen _ _ _ _ _ (Hr i Hi)).
  pose proof (wo_room _ _ _ _ Hw i Hi).
  rewrite (mo_tail _ _ _ _ _ _ Hm) in H1 by done. rewrite (mo_head _ _ _ _ _ _ Hm) in H2. lia.
Qed.

Lemma writer_writes m VW VR n q d l x :
  ring_ok m VW VR n 0 q d l → (∀ i, i < readers → n < va VW (S i) + room) →
  ∃ m' V', na_write readers (n `mod` Capacity) x m VW = Some (m', V') ∧
    (∀ a, va V' a = va VW a) ∧ ring_ok m' V' VR n 1 q d (l ++ [x]).
Proof.
  intros Hok Hgate. destruct (Hok) as [Hm Hw Hr]. unfold na_write. set (s := n `mod` Capacity).
  assert (write_free readers s m VW = true) as ->.
  { apply andb_true_iff. split; [by apply Nat.eqb_eq, Hw|]. apply forallb_forall. intros i Hi%in_seq.
    apply Nat.eqb_eq. pose proof (if_r _ (wo_informed _ _ _ _ Hw) i s ltac:(lia)) as H1.
    pose proof (cl_r _ _ (wo_closed _ _ _ _ Hw) i s) as H2.
    destruct (reader_behind m VW VR n 0 q d l i ltac:(lia) Hok) as (Hp & Hq & _). specialize (Hgate i ltac:(lia)).
    rewrite (mo_reads _ _ _ _ _ _ Hm) in H2 |- * by lia.
    unfold s in *. rewrite (cnt_lap_before n (va VW (S i)) (q i + d i)) in H2 |- * by lia. lia. }
  set (m' := mkMem _ _ _ _). set (V' := mkView _ _ _). exists m', V'. split; [done|]. split; [done|].
  assert (∀ s', m_writes m' s' = cnt s' (n + 1)) as Hwr.
  { intros s'. cbn. rewrite Nat.add_1_r, cnt_S. unfold insert, fn_insert. fold s.
    rewrite !(mo_writes _ _ _ _ _ _ Hm), Nat.add_0_r. repeat case_decide; subst; (done || lia). }
  assert (mem_le m m') as Hle.
  { split; [done| |done]. intros s'. rewrite Hwr, (mo_writes _ _ _ _ _ _ Hm). apply cnt_mono. lia. }
  split.
  - destruct Hm as [Hc Hh Ht Hhv Htv Hinf Hmw Hmr Hlen Hval]. split; try done.
    + intros a k z W Hmsg. eapply closed_mono; [exact Hle|by eapply Hc].
    + rewrite length_app, Hlen. cbn. lia.
    + intros j y Hj Hlap. cbn. apply lookup_app_Some in Hj as [Hj|[Hge Hj]].
      * pose proof (lookup_lt_Some _ _ _ Hj). rewrite fn_lookup_insert_ne; [apply Hval; [done|lia]|].
        intros Heq. symmetry in Heq. apply (mod_eq_near Capacity Hpow) in Heq; lia.
      * apply list_lookup_singleton_Some in Hj as [Hz <-]. replace j with n by lia. apply fn_lookup_insert.
  - destruct Hw as [Hc [Hi1 Hi2] Hn Hvw Hrm]. split; [| |done| |].
    + split; [apply Hc| |apply Hc]. intros s'. cbn. unfold insert, fn_insert. case_decide; [done|apply Hc].
    + split; [|done]. intros s'. cbn. unfold insert, fn_insert. case_decide; [|apply Hi1].
      subst s'. rewrite <-Hvw. specialize (Hi1 s). lia.
    + intros s'. cbn. unfold insert, fn_insert. case_decide; [done|apply Hvw].
    + intros i Hi. specialize (Hgate i Hi). cbn. lia.
  - intros i Hi. destruct (Hr i Hi) as [Hc Hinf Hq Hs Hrd]. split; try done. by eapply closed_mono.
Qed.

Lemma reader_reads m VW VR n w q d l i :
  i < readers → ring_ok m VW VR n w q d l → d i = 0 → q i < va (VR i) 0 →
  ∃ x m' V', na_read i (q i `mod` Capacity) m (VR i) = Some (x, m', V') ∧ l !! q i = Some x ∧
    ring_ok m' VW (<[i := V']> VR) n w q (<[i := 1]> d) l.
Proof.
  intros Hi Hok Hd Hlt. destruct (Hok) as [Hm Hw Hr]. unfold na_read. set (s := q i `mod` Capacity).
  destruct (reader_behind m VW VR n w q d l i Hi Hok) as (Hp & Hq & Hh & Hlap).
  assert (vw (VR i) s = m_writes m s) as Hfree.
  { pose proof (if_w _ (ro_informed _ _ _ _ _ (Hr i Hi)) s) as H1.
    pose proof (cl_w _ _ (ro_closed _ _ _ _ _ (Hr i Hi)) s) as H2. rewrite (mo_writes _ _ _ _ _ _ Hm) in H2 |- *.
    unfold s in *. rewrite (cnt_lap (q i) (va (VR i) 0) (n + w)) in H2 |- * by lia. lia. }
  rewrite (proj2 (Nat.eqb_eq _ _) Hfree). set (m' := mkMem _ _ _ _). set (V' := mkView _ _ _).
  destruct (lookup_lt_is_Some_2 l (q i)) as [x Hx]; [rewrite (mo_items _ _ _ _ _ _ Hm); lia|].
  exists x, m', V'. split; [do 3 f_equal; by apply (mo_values _ _ _ _ _ _ Hm (q i) x)|]. split; [done|].
  assert (∀ j s', j < readers → m_reads m' j s' = cnt s' (q j + (<[i := 1]> d) j)) as Hrd'.
  { intros j s' Hj. cbn. unfold insert, fn_insert. case_decide as Hij; [subst j|by apply Hm].
    rewrite Nat.add_1_r, cnt_S, !(mo_reads _ _ _ _ _ _ Hm), Hd, Nat.add_0_r by done. fold s.
    repeat case_decide; subst; (done || lia). }
  assert (mem_le m m') as Hle.
  { split; [done|done|]. intros t s'. cbn. unfold insert, fn_insert. repeat case_decide; subst; lia. }
  split.
  - destruct Hm as [Hc Hhl Ht Hhv Htv Hinf Hmw Hmr Hlen Hval]. split; try done.
    intros a k z W Hmsg. eapply closed_mono; [exact Hle|by eapply Hc].
  - destruct Hw as [Hc Hinf Hn Hvw Hrm]. split; try done. by eapply closed_mono.
  - intros j Hj. unfold insert at 1 2, fn_insert at 1 2. case_decide as Hij.
    + subst j. destruct (Hr i Hi) as [Hc [Hi1 Hi2] Hcur Hs Hrd]. split; [| |done|cbn; lia|].
      * split; [apply Hc|apply Hc|]. intros t s'. cbn. unfold insert, fn_insert.
        pose proof (cl_r _ _ Hc t s'). repeat case_decide; subst; (done || lia).
      * split; [done|]. intros t s' Ht. cbn. unfold insert, fn_insert. specialize (Hi2 t s' Ht).
        repeat case_decide; subst; rewrite <-?Hrd; lia.
      * intros s'. cbn. rewrite (fn_lookup_insert (vr (VR i))), (fn_lookup_insert (m_reads m)).
        unfold insert, fn_insert. case_decide; [done|apply Hrd].
    + destruct (Hr j Hj) as [Hc Hinf Hcur Hs Hrd]. split; try done; [by eapply closed_mono|].
      intros s'. cbn. by rewrite fn_lookup_insert_ne.
Qed.

(** ** Stores *)

Lemma writer_stores m VW VR n q d l :
  ring_ok m VW VR n 1 q d l →
  let '(m', V') := store 0 (hv (S n)) m VW in
  va V' 0 = S n ∧ (∀ i, va V' (S i) = va VW (S i)) ∧ ring_ok m' V' VR (S n) 0 q d l.
Proof.
  intros [Hm Hw Hr]. cbn. set (V' := see 0 _ VW). set (m' := mkMem _ _ _ _).
  assert (mem_le m m') as Hle by apply (store_le 0 (hv (S n)) m VW).
  assert (V' = see 0 (S n) VW) as HV by (unfold V'; by rewrite (mo_head _ _ _ _ _ _ Hm)).
  assert (closed m' V') as Hc'.
  { rewrite HV. apply closed_see; [eapply closed_mono; [exact Hle|apply Hw]|]. cbn.
    rewrite fn_lookup_insert, length_app, (mo_head _ _ _ _ _ _ Hm). cbn. lia. }
  assert (informed V') as Hinf'.
  { rewrite HV. split; cbn; intros; [|by apply (if_r _ (wo_informed _ _ _ _ Hw))].
    rewrite fn_lookup_insert, (wo_writes _ _ _ _ Hw), (mo_writes _ _ _ _ _ _ Hm), Nat.add_1_r. done. }
  split; [etrans; [apply fn_lookup_insert|apply (mo_head _ _ _ _ _ _ Hm)]|]. split; [done|]. split.
  - destruct Hm as [Hc Hh Ht Hhv Htv Hinf Hmw Hmr Hlen Hval].
    pose proof (store_lookup 0 (hv (S n)) m VW) as Hmsg. cbn [store fst snd] in Hmsg. fold V' in Hmsg. fold m' in Hmsg.
    rewrite Hh in Hmsg.
    split; try done.
    + intros a k z W [Hk|(_ & _ & _ & ->)]%Hmsg; [|done]. eapply closed_mono; [exact Hle|by eapply Hc].
    + cbn. rewrite fn_lookup_insert, length_app, Hh. cbn. lia.
    + intros k z W [Hk|(_ & -> & -> & _)]%Hmsg; [by eapply Hhv|done].
    + intros a k z W [Hk|(-> & -> & _ & ->)]%Hmsg; [by eapply Hinf|]. split; [done|]. rewrite HV. cbn.
      by rewrite fn_lookup_insert.
    + intros s. cbn. rewrite Hmw. f_equal. lia.
    + rewrite Hlen. lia.
    + intros j x Hj Hlap. cbn. apply Hval; [done|lia].
  - split; [done|done|by rewrite HV; cbn; rewrite fn_lookup_insert|apply Hw|].
    intros i Hi. pose proof (wo_room _ _ _ _ Hw i Hi). cbn. rewrite fn_lookup_insert_ne by done. lia.
  - intros i Hi. destruct (Hr i Hi) as [Hc Hinf Hq Hs Hrd]. split; try done. by eapply closed_mono.
Qed.

Lemma reader_stores m VW VR n w q d l i :
  i < readers → ring_ok m VW VR n w q d l → d i = 1 →
  let '(m', V') := store (S i) (tv (S (q i))) m (VR i) in
  ring_ok m' VW (<[i := V']> VR) n w (<[i := S (q i)]> q) (<[i := 0]> d) l.
Proof.
  intros Hi [Hm Hw Hr] Hd. cbn. set (V' := see (S i) _ (VR i)). set (m' := mkMem _ _ _ _).
  assert (mem_le m m') as Hle by apply (store_le (S i) (tv (S (q i))) m (VR i)).
  assert (V' = see (S i) (S (q i)) (VR i)) as HV by (unfold V'; by rewrite (mo_tail _ _ _ _ _ _ Hm)).
  destruct (Hr i Hi) as [HRc HRi HRq HRs HRd].
  assert (closed m' V') as Hc'.
  { rewrite HV. apply closed_see; [by eapply closed_mono|]. cbn.
    rewrite fn_lookup_insert, length_app, (mo_tail _ _ _ _ _ _ Hm) by done. cbn. lia. }
  assert (informed V') as Hinf'.
  { rewrite HV. split; cbn; intros; [by apply (if_w _ HRi)|]. unfold insert, fn_insert. case_decide as Hij; [|by apply (if_r _ HRi)].
    injection Hij as <-. rewrite HRd, (mo_reads _ _ _ _ _ _ Hm), Hd, Nat.add_1_r by done. done. }
  split.
  - destruct Hm as [Hc Hh Ht Hhv Htv Hinf Hmw Hmr Hlen Hval].
    pose proof (store_lookup (S i) (tv (S (q i))) m (VR i)) as Hmsg. cbn [store fst snd] in Hmsg.
    fold V' in Hmsg. fold m' in Hmsg. rewrite Ht in Hmsg by done.
    split; try done.
    + intros a k z W [Hk|(_ & _ & _ & ->)]%Hmsg; [|done]. eapply closed_mono; [exact Hle|by eapply Hc].
    + intros j Hj. cbn. unfold insert, fn_insert. repeat case_decide; simplify_eq; [|by apply Ht].
      rewrite length_app, Ht by done. cbn. lia.
    + intros j k z W Hj [Hk|(_ & -> & -> & _)]%Hmsg; [by eapply Htv|done].
    + intros a k z W [Hk|(-> & -> & _ & ->)]%Hmsg; [by eapply Hinf|]. split; [done|]. rewrite HV. cbn.
      by rewrite fn_lookup_insert.
    + intros j s Hj. cbn. rewrite Hmr by done. unfold insert, fn_insert. case_decide; subst; f_equal; lia.
  - destruct Hw as [Hc Hinf Hn Hvw Hrm]. split; try done. by eapply closed_mono.
  - intros j Hj. unfold insert at 1 2 3, fn_insert at 1 2 3. case_decide as Hij.
    + subst j. split; [done|done| | |done]; rewrite HV; cbn; [by rewrite fn_lookup_insert|].
      rewrite fn_lookup_insert_ne by done. lia.
    + destruct (Hr j Hj) as [Hc Hinf Hq Hs Hrd]. split; try done. by eapply closed_mono.
Qed.

(** ** Other locations

    A flag, stored by whatever thread. *)
Lemma other_store m VW VR n w q d l a z V :
  readers < a → ring_ok m VW VR n w q d l → closed m V → informed V →
  let '(m', V') := store a z m V in ring_ok m' VW VR n w q d l ∧ closed m' V' ∧ informed V'.
Proof.
  intros Ha [Hm Hw Hr] HVc HVi. cbn. set (V' := see a _ V). set (m' := mkMem _ _ _ _).
  assert (mem_le m m') as Hle by apply (store_le a z m V).
  assert (closed m' V') as Hc'.
  { apply closed_see; [by eapply closed_mono|]. cbn. rewrite fn_lookup_insert, length_app. cbn. lia. }
  assert (informed V') as Hinf'.
  { destruct HVi as [H1 H2]. split; cbn; intros; rewrite fn_lookup_insert_ne by lia; auto. }
  split; [|done]. split.
  - destruct Hm as [Hc Hh Ht Hhv Htv Hinf Hmw Hmr Hlen Hval].
    pose proof (store_lookup a z m V) as Hmsg. cbn [store fst snd] in Hmsg. fold V' in Hmsg. fold m' in Hmsg.
    split; try done.
    + intros b k z' W [Hk|(_ & _ & _ & ->)]%Hmsg; [|done]. eapply closed_mono; [exact Hle|by eapply Hc].
    + cbn. by rewrite fn_lookup_insert_ne by lia.
    + intros i Hi. cbn. rewrite fn_lookup_insert_ne by lia. by apply Ht.
    + intros k z' W [Hk|(? & _)]%Hmsg; [by eapply Hhv|lia].
    + intros i k z' W Hi [Hk|(? & _)]%Hmsg; [by eapply Htv|lia].
    + intros b k z' W [Hk|(-> & -> & _ & ->)]%Hmsg; [by eapply Hinf|]. split; [done|]. cbn.
      by rewrite fn_lookup_insert.
  - destruct Hw as [Hc Hinf Hn Hvw Hrm]. split; try done. by eapply closed_mono.
  - intros i Hi. destruct (Hr i Hi) as [Hc Hinf Hq Hs Hrd]. split; try done. by eapply closed_mono.
Qed.

Lemma writer_other_store m VW VR n w q d l a z :
  readers < a → ring_ok m VW VR n w q d l →
  let '(m', V') := store a z m VW in (∀ b, b ≠ a → va V' b = va VW b) ∧ ring_ok m' V' VR n w q d l.
Proof.
  intros Ha Hok. pose proof (rk_writer _ _ _ _ _ _ _ _ Hok) as [Hc Hinf Hn Hvw Hrm].
  pose proof (other_store m VW VR n w q d l a z VW Ha Hok Hc Hinf) as Ho.
  destruct (store a z m VW) as [m' V'] eqn:Hst. destruct Ho as (Hok' & Hc' & Hinf').
  unfold store in Hst. injection Hst as <- <-.
  assert (∀ b, b ≠ a → va (see a (length (m_msgs m a)) VW) b = va VW b) as Hva.
  { intros b Hb. cbn. by rewrite fn_lookup_insert_ne. }
  split; [done|]. destruct Hok' as [Hm Hw Hr]. split; [done| |done].
  split; [done|done|by rewrite Hva by lia|done|]. intros i Hi. rewrite Hva by lia. by apply Hrm.
Qed.

(** ** The start, and what the invariant depends on *)

Lemma ring_start init dflt :
  init 0 = hv 0 → (∀ i, i < readers → init (S i) = tv 0) →
  ring_ok (mem_start init dflt) bottom (λ _, bottom) 0 0 (λ _, 0) (λ _, 0) [].
Proof.
  intros Hh Ht. assert (closed (mem_start init dflt) bottom) as Hc by (split; cbn; lia).
  assert (informed bottom) as Hi by (split; cbn; unfold cnt; cbn; lia).
  assert (∀ a k z W, m_msgs (mem_start init dflt) a !! k = Some (z, W) → k = 0 ∧ z = init a ∧ W = bottom) as Hm.
  { intros a k z W Hk. cbn in Hk. apply list_lookup_singleton_Some in Hk as [-> [= <- <-]]. done. }
  split; [|by split; try done; cbn; lia|by intros; split].
  split; try done.
  - intros a k z W (-> & -> & ->)%Hm. done.
  - intros k z W (-> & -> & ->)%Hm. done.
  - intros i k z W Hi' (-> & -> & ->)%Hm. by apply Ht.
  - intros a k z W (-> & -> & ->)%Hm. done.
Qed.

Lemma ring_ok_ext m VW VR VR' n w q q' d d' l :
  (∀ i, i < readers → VR i = VR' i ∧ q i = q' i ∧ d i = d' i) →
  ring_ok m VW VR n w q d l → ring_ok m VW VR' n w q' d' l.
Proof.
  intros Hext [Hm Hw Hr]. split; [|done|].
  - destruct Hm as [Hc Hh Ht Hhv Htv Hinf Hmw Hmr Hlen Hval]. split; try done.
    + intros i Hi. rewrite Ht by done. by destruct (Hext i Hi) as (_ & -> & _).
    + intros i s Hi. rewrite Hmr by done. by destruct (Hext i Hi) as (_ & -> & ->).
  - intros i Hi. destruct (Hext i Hi) as (<- & <- & <-). by apply Hr.
Qed.
End RaRing.
