(* ===== verification/SpscRa.v ===== *)
(** * SpscRa: the queue under the memory orders it asks for

    [SpscRingBuffer::push] and [pop] of [include/spsc_ring_buffer.hpp] once more,
    on the memory of [RaMemory]: the own index is loaded [relaxed], the other
    thread's [acquire], and the own one stored [release].  The control points are
    those of [SpscRing]; there, loads return the newest value, here possibly an
    old one. *)

From stdpp Require Import functions.
From S2P Require Import Prelude SpscRing RaMemory RaRing.

#[local] Open Scope Z_scope.

(** [head_] and [tail_]. *)
Abbreviation at_head := 0%nat.
Abbreviation at_tail := 1%nat.

Record SpscRa (T : Type) := mkSpscRa {
  sr_mem : Mem T;
  sr_vp : View;                (* the producer's view *)
  sr_vc : View;                (* the consumer's *)
  sr_prod : @ProducerPc T;
  sr_cons : @ConsumerPc T;
  sr_pushed : list T;
  sr_popped : list T
}.
Arguments mkSpscRa {T} _ _ _ _ _ _ _.
Arguments sr_mem {T} _.
Arguments sr_vp {T} _.
Arguments sr_vc {T} _.
Arguments sr_prod {T} _.
Arguments sr_cons {T} _.
Arguments sr_pushed {T} _.
Arguments sr_popped {T} _.

Section SpscRa.
Context {T : Type} (Capacity : nat).
Abbreviation next := (ring_next Capacity).

(** [push], by the producer. *)
Inductive push_ra_step : SpscRa T → SpscRa T → Prop :=
| ra_push_begin m vp vc c ps qs item k head vp' :
    load false at_head k m vp = Some (head, vp') →
    push_ra_step (mkSpscRa m vp vc PIdle c ps qs) (mkSpscRa m vp' vc (PLoadedHead item head) c ps qs)
| ra_push_full m vp vc c ps qs item head k tail vp' :
    load true at_tail k m vp = Some (tail, vp') → next head = tail →
    push_ra_step (mkSpscRa m vp vc (PLoadedHead item head) c ps qs) (mkSpscRa m vp' vc PIdle c ps qs)
| ra_push_room m vp vc c ps qs item head k tail vp' :
    load true at_tail k m vp = Some (tail, vp') → next head ≠ tail →
    push_ra_step (mkSpscRa m vp vc (PLoadedHead item head) c ps qs)
      (mkSpscRa m vp' vc (PChecked item head (next head)) c ps qs)
| ra_push_write m vp vc c ps qs item head nx m' vp' :
    na_write 1 (Z.to_nat head) item m vp = Some (m', vp') →
    push_ra_step (mkSpscRa m vp vc (PChecked item head nx) c ps qs) (mkSpscRa m' vp' vc (PWritten item nx) c ps qs)
| ra_push_publish m vp vc c ps qs item nx m' vp' :
    store at_head nx m vp = (m', vp') →
    push_ra_step (mkSpscRa m vp vc (PWritten item nx) c ps qs) (mkSpscRa m' vp' vc PIdle c (ps ++ [item]) qs).

(** [pop], by the consumer. *)
Inductive pop_ra_step : SpscRa T → SpscRa T → Prop :=
| ra_pop_begin m vp vc p ps qs k tail vc' :
    load false at_tail k m vc = Some (tail, vc') →
    pop_ra_step (mkSpscRa m vp vc p CIdle ps qs) (mkSpscRa m vp vc' p (CLoadedTail tail) ps qs)
| ra_pop_empty m vp vc p ps qs tail k head vc' :
    load true at_head k m vc = Some (head, vc') → tail = head →
    pop_ra_step (mkSpscRa m vp vc p (CLoadedTail tail) ps qs) (mkSpscRa m vp vc' p CIdle ps qs)
| ra_pop_some m vp vc p ps qs tail k head vc' :
    load true at_head k m vc = Some (head, vc') → tail ≠ head →
    pop_ra_step (mkSpscRa m vp vc p (CLoadedTail tail) ps qs) (mkSpscRa m vp vc' p (CChecked tail) ps qs)
| ra_pop_read m vp vc p ps qs tail out m' vc' :
    na_read 0 (Z.to_nat tail) m vc = Some (out, m', vc') →
    pop_ra_step (mkSpscRa m vp vc p (CChecked tail) ps qs) (mkSpscRa m' vp vc' p (CRead tail out) ps qs)
| ra_pop_publish m vp vc p ps qs tail out m' vc' :
    store at_tail (next tail) m vc = (m', vc') →
    pop_ra_step (mkSpscRa m vp vc p (CRead tail out) ps qs) (mkSpscRa m' vp vc' p CIdle ps (qs ++ [out])).

Definition spsc_ra_step (s s' : SpscRa T) : Prop := push_ra_step s s' ∨ pop_ra_step s s'.

Definition spsc_ra_init (dflt : T) : SpscRa T := mkSpscRa (mem_init dflt) bottom bottom PIdle CIdle [] [].

Definition spsc_ra_reach (dflt : T) (s : SpscRa T) : Prop := rtc spsc_ra_step (spsc_ra_init dflt) s.

(** ** The invariant *)

Definition index (k : nat) : Z := Z.of_nat (k `mod` Capacity).

(** The item whose slot is written but which is not published yet. *)
Definition in_hand (p : @ProducerPc T) : list T := match p with PWritten item _ => [item] | _ => [] end.
Definition reading (c : @ConsumerPc T) : nat := match c with CRead _ _ => 1 | _ => 0 end.

Definition prod_at (n : nat) (vp : View) (p : @ProducerPc T) : Prop :=
  match p with
  | PIdle => True
  | PLoadedHead _ head => head = index n
  | PChecked _ head nx => head = index n ∧ nx = index (S n) ∧ (n < va vp at_tail + pred Capacity)%nat
  | PWritten _ nx => nx = index (S n)
  end.

Definition cons_at (ps : list T) (q : nat) (vc : View) (c : @ConsumerPc T) : Prop :=
  match c with
  | CIdle => True
  | CLoadedTail tail => tail = index q
  | CChecked tail => tail = index q ∧ (q < va vc at_head)%nat
  | CRead tail out => tail = index q ∧ ps !! q = Some out
  end.

Record spsc_ra_ok (s : SpscRa T) : Prop := {
  sk_ring : ring_ok Capacity (pred Capacity) 1 index index (sr_mem s) (sr_vp s) (λ _, sr_vc s)
              (length (sr_pushed s)) (length (in_hand (sr_prod s)))
              (λ _, length (sr_popped s)) (λ _, reading (sr_cons s)) (sr_pushed s ++ in_hand (sr_prod s));
  sk_popped : sr_popped s = take (length (sr_popped s)) (sr_pushed s);
  sk_prod : prod_at (length (sr_pushed s)) (sr_vp s) (sr_prod s);
  sk_cons : cons_at (sr_pushed s) (length (sr_popped s)) (sr_vc s) (sr_cons s)
}.

Hypothesis Hpow : pow2_capacity Capacity.

Lemma next_index k : next (index k) = index (S k).
Proof. apply (ring_next_mod Capacity Hpow). Qed.

Lemma index_slot k : Z.to_nat (index k) = (k `mod` Capacity)%nat.
Proof. apply Nat2Z.id. Qed.

(** Indices of items less than a lap apart. *)
Lemma index_inj i j : (i ≤ j)%nat → (j - i < Capacity)%nat → index i = index j → i = j.
Proof. intros Hle Hlt Heq. apply (mod_eq_near Capacity Hpow); [by apply Nat2Z.inj|done|done]. Qed.

Lemma index_lap k : index (k + Capacity) = index k.
Proof.
  unfold index. pose proof (capacity_pos Capacity Hpow). f_equal.
  by rewrite <-(Nat.mul_1_l Capacity) at 1; rewrite Nat.Div0.mod_add.
Qed.

Abbreviation ring_ok := (@ring_ok Capacity (pred Capacity) 1 index index T).

(** The consumer's view and counters, as functions of the one reader. *)
Lemma one_reader m vp vr n w q d l (v : View) (x y : nat) :
  vr 0%nat = v → q 0%nat = x → d 0%nat = y →
  ring_ok m vp vr n w q d l → ring_ok m vp (λ _, v) n w (λ _, x) (λ _, y) l.
Proof. intros <- <- <-. apply ring_ok_ext. intros i Hi. by replace i with 0%nat by lia. Qed.

Ltac one_reader H := revert H; apply one_reader; first [apply fn_lookup_insert | reflexivity].

Lemma room_le : (pred Capacity ≤ Capacity)%nat.
Proof. lia. Qed.

(** The producer sees the tail at [k], perhaps not the newest. *)
Lemma push_checks m vp vc (ps qs : list T) d l k tail vp' :
  ring_ok m vp (λ _, vc) (length ps) 0 (λ _, length qs) d l → load true at_tail k m vp = Some (tail, vp') →
  ring_ok m vp' (λ _, vc) (length ps) 0 (λ _, length qs) d l ∧
  (index (S (length ps)) ≠ tail → (length ps < va vp' at_tail + pred Capacity)%nat).
Proof.
  intros Hok Hl.
  destruct (writer_load_tail Capacity _ 1 room_le index index _ _ _ _ _ _ _ _ 0 _ _ _ ltac:(lia) Hok Hl)
    as (-> & Hk & Hk' & Hok').
  split; [done|]. intros Hne.
  destruct Hok as [_ Hw _]. pose proof (wo_room _ _ _ _ _ _ _ Hw 0%nat ltac:(lia)) as Hr.
  pose proof (capacity_pos Capacity Hpow).
  destruct (decide (S (length ps) = k + Capacity)%nat) as [Heq|]; [|lia].
  destruct Hne. by rewrite Heq, index_lap.
Qed.

(** The consumer sees the head at [k]. *)
Lemma pop_checks m vp vc n w (qs : list T) l k head vc' :
  ring_ok m vp (λ _, vc) n w (λ _, length qs) (λ _, 0%nat) l → load true at_head k m vc = Some (head, vc') →
  ring_ok m vp (λ _, vc') n w (λ _, length qs) (λ _, 0%nat) l ∧
  (index (length qs) ≠ head → (length qs < va vc' at_head)%nat).
Proof.
  intros Hok Hl. destruct (reader_load_head Capacity _ 1 room_le index index _ _ _ _ _ _ _ _ 0 _ _ _ ltac:(lia) Hok Hl)
    as (-> & Hk & Hk' & Hok'). split; [one_reader Hok'|]. intros Hne.
  destruct Hok as [_ _ Hrd]. pose proof (ro_seen _ _ _ _ _ _ _ (Hrd 0%nat ltac:(lia))) as Hs.
  destruct (decide (length qs = k)) as [<-|]; [done|]. lia.
Qed.

Lemma push_ra_step_ok s s' : push_ra_step s s' → spsc_ra_ok s → spsc_ra_ok s'.
Proof.
  intros Hstep [Hring Hpop Hprod Hcons]. pose proof room_le as Hle.
  destruct Hstep as [m vp vc c ps qs item k head vp' Hl|m vp vc c ps qs item head k tail vp' Hl Hf
    |m vp vc c ps qs item head k tail vp' Hl Hf|m vp vc c ps qs item head nx m' vp' Hw|m vp vc c ps qs item nx m' vp' Hst];
    cbn in *.
  - destruct (writer_load_own Capacity _ 1 Hle index index _ _ _ _ _ _ _ _ _ _ _ Hring Hl) as [-> Hok]. by split.
  - destruct (push_checks _ _ _ _ _ _ _ _ _ _ Hring Hl) as [Hok _]. by split.
  - destruct (push_checks _ _ _ _ _ _ _ _ _ _ Hring Hl) as [Hok Hroom]. subst head. rewrite next_index in *.
    split; cbn; try done. split_and!; [done|done|by apply Hroom].
  - destruct Hprod as (-> & -> & Hroom). rewrite app_nil_r in Hring. rewrite index_slot in Hw.
    destruct (writer_writes Capacity (pred Capacity) 1 Hpow Hle index index m vp _ _ _ _ _ item Hring)
      as (m1 & v1 & Hw1 & _ & Hok); [intros i Hi; by replace i with 0%nat by lia|].
    rewrite Hw in Hw1. injection Hw1 as <- <-. by split.
  - pose proof (writer_stores Capacity (pred Capacity) 1 Hle index index m vp _ _ _ _ _ Hring) as Hok.
    subst nx.  rewrite Hst in Hok. destruct Hok as (_ & _ & Hok). split; cbn.
    + rewrite app_nil_r, length_app, Nat.add_1_r. exact Hok.
    + edestruct reader_behind with (i := 0%nat) as (_ & Hq & _); [exact Hle| |exact Hring|]; [lia|].
      cbn in Hq. rewrite take_app_le; [done|lia].
    + done.
    + destruct c; cbn in *; try done. destruct Hcons as [-> Hx]. split; [done|]. by apply lookup_app_l_Some.
Qed.

Lemma pop_ra_step_ok s s' : pop_ra_step s s' → spsc_ra_ok s → spsc_ra_ok s'.
Proof.
  intros Hstep [Hring Hpop Hprod Hcons]. pose proof room_le as Hle.
  destruct Hstep as [m vp vc p ps qs k tail vc' Hl|m vp vc p ps qs tail k head vc' Hl He|m vp vc p ps qs tail k head vc' Hl He
    |m vp vc p ps qs tail out m' vc' Hrd|m vp vc p ps qs tail out m' vc' Hst]; cbn in *.
  - destruct (reader_load_own Capacity _ 1 Hle index index _ _ _ _ _ _ _ _ 0 _ _ _ ltac:(lia) Hring Hl)
      as (-> & _ & Hok).
    split; cbn; try done. one_reader Hok.
  - destruct (pop_checks _ _ _ _ _ _ _ _ _ _ Hring Hl) as [Hok _]. by split.
  - destruct (pop_checks _ _ _ _ _ _ _ _ _ _ Hring Hl) as [Hok Hlt]. subst tail. by split; cbn; auto.
  - destruct Hcons as [-> Hlt]. rewrite index_slot in Hrd.
    destruct (reader_reads Capacity (pred Capacity) 1 Hpow Hle index index m vp _ _ _ _ _ _ 0 ltac:(lia) Hring eq_refl Hlt)
      as (x & m1 & v1 & Hrd1 & Hx & Hok). rewrite Hrd in Hrd1. injection Hrd1 as <- <- <-.
    split; cbn; try done; [one_reader Hok|]. split; [done|].
    edestruct reader_behind with (i := 0%nat) as (_ & _ & Hh & _); [exact Hle| |exact Hring|]; [lia|].
    apply lookup_app_Some in Hx as [Hx|[Hge _]]; [done|]. cbn in *. lia.
  - destruct Hcons as [-> Hx]. rewrite next_index in Hst.
    pose proof (reader_stores Capacity (pred Capacity) 1 Hle index index m vp _ _ _ _ _ _ 0 ltac:(lia) Hring eq_refl) as Hok.
    cbv beta in Hok. rewrite Hst in Hok. split; cbn; try done.
    + rewrite length_app, Nat.add_1_r. one_reader Hok.
    + rewrite length_app, Nat.add_1_r. rewrite (take_S_r _ _ out) by done. by rewrite <-Hpop.
Qed.

Lemma spsc_ra_step_ok s s' : spsc_ra_step s s' → spsc_ra_ok s → spsc_ra_ok s'.
Proof. intros [Hs|Hs]; [by apply push_ra_step_ok|by apply pop_ra_step_ok]. Qed.

(** ** What the invariant gives at each control point *)

Lemma index_bound k : 0 ≤ index k < Z.of_nat Capacity.
Proof.
  unfold index. pose proof (capacity_pos Capacity Hpow). pose proof (Nat.mod_upper_bound k Capacity ltac:(lia)). lia.
Qed.

Lemma in_flight s : spsc_ra_ok s → (length (sr_pushed s) - length (sr_popped s) < Capacity)%nat.
Proof.
  intros [Hring _ _ _]. pose proof (capacity_pos Capacity Hpow).
  pose proof (wo_room _ _ _ _ _ _ _ (rk_writer _ _ _ _ _ _ _ _ _ _ _ _ _ Hring) 0%nat ltac:(lia)) as Hr.
  destruct (reader_behind Capacity _ 1 room_le index index _ _ _ _ _ _ _ _ 0 ltac:(lia) Hring) as (Hv & _).
  cbn in Hv, Hr. lia.
Qed.

Lemma checked_write s item head nx :
  spsc_ra_ok s → sr_prod s = PChecked item head nx →
  0 ≤ head < Z.of_nat Capacity ∧ is_Some (na_write 1 (Z.to_nat head) item (sr_mem s) (sr_vp s)).
Proof.
  intros [Hring _ Hprod _] Hp. rewrite Hp in *. cbn in Hring, Hprod. destruct Hprod as (-> & _ & Hroom).
  split; [apply index_bound|]. rewrite index_slot.
  destruct (writer_writes Capacity (pred Capacity) 1 Hpow room_le index index _ _ _ _ _ _ _ item Hring)
    as (m' & v' & -> & _); [|done]. intros i Hi. by replace i with 0%nat by lia.
Qed.

Lemma checked_read s tail :
  spsc_ra_ok s → sr_cons s = CChecked tail →
  0 ≤ tail < Z.of_nat Capacity ∧
  ∃ x m' vc', na_read 0 (Z.to_nat tail) (sr_mem s) (sr_vc s) = Some (x, m', vc') ∧
    (sr_popped s ++ [x]) `prefix_of` sr_pushed s.
Proof.
  intros [Hring Hpop _ Hcons] Hc. rewrite Hc in *. cbn in Hring, Hcons. destruct Hcons as [-> Hlt].
  split; [apply index_bound|]. rewrite index_slot.
  destruct (reader_reads Capacity _ 1 Hpow room_le index index _ _ _ _ _ _ _ _ 0 ltac:(lia) Hring eq_refl Hlt)
    as (x & m' & v' & Hrd & Hx & _). exists x, m', v'. split; [exact Hrd|].
  destruct (reader_behind Capacity _ 1 room_le index index _ _ _ _ _ _ _ _ 0 ltac:(lia) Hring) as (_ & _ & Hh & _).
  cbn in Hx, Hh. apply lookup_app_Some in Hx as [Hx|[Hge _]]; [|lia].
  rewrite Hpop at 1. rewrite <-(take_S_r _ _ _ Hx). apply prefix_take.
Qed.

Lemma spsc_ra_reach_ok dflt s : spsc_ra_reach dflt s → spsc_ra_ok s.
Proof.
  assert (spsc_ra_ok (spsc_ra_init dflt)) as Hinit.
  { split; cbn; try done. apply ring_start; [apply room_le|..]; intros; unfold index; by rewrite Nat.Div0.mod_0_l. }
  intros Hr. unfold spsc_ra_reach in Hr. revert Hinit. induction Hr; eauto using spsc_ra_step_ok.
Qed.

(** C15: Under the release/acquire orders the code asks for, where loads may return
    stale indices, the queue still works: what has been popped is a prefix of what
    has been pushed, fewer than [Capacity] items are in flight, and the plain
    accesses to the slots never race: the write of [push] after its check finds a
    slot in bounds whose earlier accesses all happen before it, and the read of
    [pop] after its check is ordered after the write of the very next item. *)
Theorem spsc_release_acquire dflt s :
  spsc_ra_reach dflt s →
  sr_popped s `prefix_of` sr_pushed s ∧
  (length (sr_pushed s) - length (sr_popped s) < Capacity)%nat ∧
  (∀ item head nx, sr_prod s = PChecked item head nx →
     0 ≤ head < Z.of_nat Capacity ∧ is_Some (na_write 1 (Z.to_nat head) item (sr_mem s) (sr_vp s))) ∧
  (∀ tail, sr_cons s = CChecked tail →
     0 ≤ tail < Z.of_nat Capacity ∧
     ∃ x m' vc', na_read 0 (Z.to_nat tail) (sr_mem s) (sr_vc s) = Some (x, m', vc') ∧
       (sr_popped s ++ [x]) `prefix_of` sr_pushed s).
Proof.
  intros Hok%spsc_ra_reach_ok. split_and!.
  - rewrite (sk_popped s Hok). apply prefix_take.
  - by apply in_flight.
  - intros item head nx. by apply checked_write.
  - intros tail. by apply checked_read.
Qed.

End SpscRa.

(** ** Schedules, executed

    One step of each thread, with the message its load returns, if it loads. *)
Section Exec.
Context {T : Type} (Capacity : nat).

Definition push_exec (item : T) (k : nat) (s : SpscRa T) : option (SpscRa T) :=
  let 'mkSpscRa m vp vc p c ps qs := s in
  match p with
  | PIdle =>
      '(head, vp') ← load false at_head k m vp; Some (mkSpscRa m vp' vc (PLoadedHead item head) c ps qs)
  | PLoadedHead item head =>
      '(tail, vp') ← load true at_tail k m vp;
      let nx := ring_next Capacity head in
      Some (mkSpscRa m vp' vc (if nx =? tail then PIdle else PChecked item head nx) c ps qs)
  | PChecked item head nx =>
      '(m', vp') ← na_write 1 (Z.to_nat head) item m vp; Some (mkSpscRa m' vp' vc (PWritten item nx) c ps qs)
  | PWritten item nx =>
      let '(m', vp') := store at_head nx m vp in Some (mkSpscRa m' vp' vc PIdle c (ps ++ [item]) qs)
  end.

Definition pop_exec (k : nat) (s : SpscRa T) : option (SpscRa T) :=
  let 'mkSpscRa m vp vc p c ps qs := s in
  match c with
  | CIdle => '(tail, vc') ← load false at_tail k m vc; Some (mkSpscRa m vp vc' p (CLoadedTail tail) ps qs)
  | CLoadedTail tail =>
      '(head, vc') ← load true at_head k m vc;
      Some (mkSpscRa m vp vc' p (if tail =? head then CIdle else CChecked tail) ps qs)
  | CChecked tail =>
      '(out, m', vc') ← na_read 0 (Z.to_nat tail) m vc; Some (mkSpscRa m' vp vc' p (CRead tail out) ps qs)
  | CRead tail out =>
      let '(m', vc') := store at_tail (ring_next Capacity tail) m vc in
      Some (mkSpscRa m' vp vc' p CIdle ps (qs ++ [out]))
  end.

Lemma push_exec_sound item k s s' : push_exec item k s = Some s' → push_ra_step Capacity s s'.
Proof.
  destruct s as [m vp vc p c ps qs]. destruct p as [|x head|x head nx|x nx]; cbn [push_exec].
  - destruct (load _ _ _ _ _) as [[head v]|] eqn:Hl; cbn [mbind option_bind]; [|done]. intros [= <-]. by eapply ra_push_begin.
  - destruct (load _ _ _ _ _) as [[tail v]|] eqn:Hl; cbn [mbind option_bind]; [|done]. intros [= <-].
    destruct (Z.eqb_spec (ring_next Capacity head) tail); [by eapply ra_push_full|by eapply ra_push_room].
  - destruct (na_write _ _ _ _ _) as [[m' v]|] eqn:Hw; cbn [mbind option_bind]; [|done]. intros [= <-]. by apply ra_push_write.
  - intros [= <-]. by apply ra_push_publish.
Qed.

Lemma pop_exec_sound k s s' : pop_exec k s = Some s' → pop_ra_step Capacity s s'.
Proof.
  destruct s as [m vp vc p c ps qs]. destruct c as [|tail|tail|tail out]; cbn [pop_exec].
  - destruct (load _ _ _ _ _) as [[tail v]|] eqn:Hl; cbn [mbind option_bind]; [|done]. intros [= <-]. by eapply ra_pop_begin.
  - destruct (load _ _ _ _ _) as [[head v]|] eqn:Hl; cbn [mbind option_bind]; [|done]. intros [= <-].
    destruct (Z.eqb_spec tail head); [by eapply ra_pop_empty|by eapply ra_pop_some].
  - destruct (na_read _ _ _ _) as [[[out m'] v]|] eqn:Hr; cbn [mbind option_bind]; [|done]. intros [= <-]. by apply ra_pop_read.
  - intros [= <-]. by apply ra_pop_publish.
Qed.

(** [inl (item, k)]: the producer moves; [inr k]: the consumer. *)
Definition spsc_ra_exec (a : (T * nat) + nat) (s : SpscRa T) : option (SpscRa T) :=
  match a with inl (item, k) => push_exec item k s | inr k => pop_exec k s end.

Lemma spsc_ra_exec_sound a s s' : spsc_ra_exec a s = Some s' → spsc_ra_step Capacity s s'.
Proof. destruct a as [[item k]|k]; [left; by eapply push_exec_sound|right; by eapply pop_exec_sound]. Qed.
End Exec.

(** Two pushes; then the consumer's load of [head_] returns the older message. *)
Definition stale_schedule : list ((Z * nat) + nat) :=
  ((λ k, inl (7, k)) <$> [0; 0; 0; 0]%nat) ++ ((λ k, inl (8, k)) <$> [1; 0; 0; 0]%nat) ++ (inr <$> [0; 1]%nat).

Lemma stale_reach :
  ∃ s, spsc_ra_reach 4 (-1) s ∧ (sr_pushed s, sr_popped s, sr_cons s) = ([7; 8], [], CChecked 0).
Proof. apply (run_acts_reach _ _ (spsc_ra_exec_sound 4)) with (acts := stale_schedule). vm_compute. reflexivity. Qed.

Lemma spsc_release_acquire_witness :
  ∃ (s : SpscRa Z) x m' vc', na_read 0 0 (sr_mem s) (sr_vc s) = Some (x, m', vc') ∧ [x] `prefix_of` [7; 8].
Proof.
  destruct stale_reach as (s & Hr & [= Hps Hqs Hc]).
  destruct (spsc_release_acquire 4 pow2_capacity_4 (-1) s Hr) as (_ & _ & _ & Hread).
  destruct (Hread 0 Hc) as (_ & x & m' & vc' & Hx & Hpre). exists s, x, m', vc'. split; [exact Hx|].
  by rewrite Hps, Hqs in Hpre.
Defined.

(** The [acquire] is needed: had [pop] loaded [head_] relaxed, its read would race. *)
Example relaxed_pop_races :
  (let '(m, V) := default (mem_init (-1), bottom) (na_write 1 0 7 (mem_init (-1)) bottom) in
   let '(m, _) := store at_head 1 m V in
   '(_, c) ← load false at_head 1 m bottom; na_read 0 0 m c) = None ∧
  is_Some (let '(m, V) := default (mem_init (-1), bottom) (na_write 1 0 7 (mem_init (-1)) bottom) in
   let '(m, _) := store at_head 1 m V in
   '(_, c) ← load true at_head 1 m bottom; na_read 0 0 m c).
Proof. split; [reflexivity|vm_compute; eauto]. Qed.
