(* ===== verification/FeedRa.v ===== *)
(** * FeedRa: the end of the feed under release/acquire

    The two threads of [main.cpp] around the queue of [SpscRa]: the feed handler
    pushes every event, retrying while the queue is full, and then stores
    [feed_done] with [release]; the engine stops when a [pop] failed, an [acquire]
    load of [feed_done] returned [true] and [empty] found the indices equal, in
    this order.  What the engine does with an order is the business of [Pipeline];
    here it is whether it can miss one. *)

From stdpp Require Import functions.
From S2P Require Import Prelude SpscRing RaMemory RaRing SpscRa.

#[local] Open Scope Z_scope.

Abbreviation at_done := 2%nat.

(** Where the engine's loop is: in [pop], after a [pop] that failed, inside
    [ring.empty()], and after the [break]. *)
Inductive LoopRa := LPop | LFailed | LSawDone | LHead (head : Z) | LStopped.

Record FeedRa (T : Type) := mkFeedRa {
  fr_ring : SpscRa T;
  fr_fed : bool;               (* the feed handler's thread has ended *)
  fr_loop : LoopRa
}.
Arguments mkFeedRa {T} _ _ _.
Arguments fr_ring {T} _.
Arguments fr_fed {T} _.
Arguments fr_loop {T} _.

Section FeedRa.
Context {T : Type} (Capacity : nat) (stamp : Z → T → T) (feed_events : list T).

(** The order pushed next is the next event, with the time put in. *)
Definition next_event (r : SpscRa T) (item : T) : Prop :=
  ∃ x ts, feed_events !! length (sr_pushed r) = Some x ∧ item = stamp ts x.

Definition pop_failed (c c' : @ConsumerPc T) : bool :=
  match c, c' with CLoadedTail _, CIdle => true | _, _ => false end.

Definition set_producer (m : Mem T) (v : View) (r : SpscRa T) : SpscRa T :=
  mkSpscRa m v (sr_vc r) (sr_prod r) (sr_cons r) (sr_pushed r) (sr_popped r).
Definition set_vc (v : View) (r : SpscRa T) : SpscRa T :=
  mkSpscRa (sr_mem r) (sr_vp r) v (sr_prod r) (sr_cons r) (sr_pushed r) (sr_popped r).

Inductive feed_ra_step : FeedRa T → FeedRa T → Prop :=
| fra_push r r' lp :
    push_ra_step Capacity r r' →
    (∀ item head, sr_prod r = PIdle → sr_prod r' = PLoadedHead item head → next_event r item) →
    feed_ra_step (mkFeedRa r false lp) (mkFeedRa r' false lp)
| fra_done r lp m v :
    sr_prod r = PIdle → length (sr_pushed r) = length feed_events →
    store at_done 1 (sr_mem r) (sr_vp r) = (m, v) →
    feed_ra_step (mkFeedRa r false lp) (mkFeedRa (set_producer m v r) true lp)
| fra_pop r r' fd :
    pop_ra_step Capacity r r' →
    feed_ra_step (mkFeedRa r fd LPop) (mkFeedRa r' fd (if pop_failed (sr_cons r) (sr_cons r') then LFailed else LPop))
| fra_load_done r fd k z v :
    load true at_done k (sr_mem r) (sr_vc r) = Some (z, v) →
    feed_ra_step (mkFeedRa r fd LFailed) (mkFeedRa (set_vc v r) fd (if z =? 0 then LPop else LSawDone))
| fra_empty_head r fd k head v :
    load true at_head k (sr_mem r) (sr_vc r) = Some (head, v) →
    feed_ra_step (mkFeedRa r fd LSawDone) (mkFeedRa (set_vc v r) fd (LHead head))
| fra_empty_tail r fd head k tail v :
    load true at_tail k (sr_mem r) (sr_vc r) = Some (tail, v) →
    feed_ra_step (mkFeedRa r fd (LHead head)) (mkFeedRa (set_vc v r) fd (if head =? tail then LStopped else LPop)).

Definition feed_ra_init (dflt : T) : FeedRa T := mkFeedRa (spsc_ra_init dflt) false LPop.

Definition feed_ra_reach (dflt : T) (s : FeedRa T) : Prop := rtc feed_ra_step (feed_ra_init dflt) s.

(** ** The invariant *)

Definition stamped (x y : T) : Prop := ∃ ts, y = stamp ts x.

Definition holds (p : @ProducerPc T) : list T :=
  match p with PIdle => [] | PLoadedHead x _ | PChecked x _ _ | PWritten x _ => [x] end.

(** Everything is pushed, and the owner of the view knows it. *)
Definition knows_end (s : FeedRa T) (v : View) : Prop :=
  fr_fed s = true ∧ (length (sr_pushed (fr_ring s)) ≤ va v at_head)%nat.

Definition loop_at (s : FeedRa T) : Prop :=
  let r := fr_ring s in
  match fr_loop s with
  | LPop => True
  | LFailed => sr_cons r = CIdle
  | LSawDone => sr_cons r = CIdle ∧ knows_end s (sr_vc r)
  | LHead head => sr_cons r = CIdle ∧ knows_end s (sr_vc r) ∧ head = index Capacity (length (sr_pushed r))
  | LStopped => sr_cons r = CIdle ∧ knows_end s (sr_vc r) ∧ sr_popped r = sr_pushed r
  end.

Record feed_ra_ok (s : FeedRa T) : Prop := {
  fk_ring : spsc_ra_ok Capacity (fr_ring s);
  fk_pushed : Forall2 stamped (take (length (sr_pushed (fr_ring s))) feed_events) (sr_pushed (fr_ring s));
  fk_next : ∀ item, item ∈ holds (sr_prod (fr_ring s)) → next_event (fr_ring s) item;
  fk_fed : fr_fed s = true →
    sr_prod (fr_ring s) = PIdle ∧ length (sr_pushed (fr_ring s)) = length feed_events;
  fk_flag : ∀ k z W, m_msgs (sr_mem (fr_ring s)) at_done !! k = Some (z, W) → z ≠ 0 → knows_end s W;
  fk_loop : loop_at s
}.

Hypothesis Hpow : pow2_capacity Capacity.

(** ** What the queue's steps do not touch *)

Lemma push_flag (r r' : SpscRa T) : push_ra_step Capacity r r' → m_msgs (sr_mem r') at_done = m_msgs (sr_mem r) at_done.
Proof.
  destruct 1; cbn; try done.
  - unfold na_write in H. destruct (write_free _ _ _ _); by simplify_eq/=.
  - unfold store in H. by simplify_eq/=.
Qed.

Lemma pop_flag (r r' : SpscRa T) : pop_ra_step Capacity r r' → m_msgs (sr_mem r') at_done = m_msgs (sr_mem r) at_done.
Proof.
  destruct 1; cbn; try done.
  - unfold na_read in H. destruct (_ =? _)%nat; by simplify_eq/=.
  - unfold store in H. by simplify_eq/=.
Qed.

Lemma push_frame (r r' : SpscRa T) :
  push_ra_step Capacity r r' → sr_cons r' = sr_cons r ∧ sr_vc r' = sr_vc r ∧ sr_popped r' = sr_popped r.
Proof. by destruct 1. Qed.

Lemma pop_frame (r r' : SpscRa T) :
  pop_ra_step Capacity r r' → sr_prod r' = sr_prod r ∧ sr_pushed r' = sr_pushed r.
Proof. by destruct 1. Qed.

(** What the producer holds goes to the end of what is pushed, or is kept. *)
Lemma push_moves (r r' : SpscRa T) :
  push_ra_step Capacity r r' →
  (∃ item head, sr_prod r = PIdle ∧ sr_prod r' = PLoadedHead item head ∧ sr_pushed r' = sr_pushed r) ∨
  (sr_pushed r' = sr_pushed r ∧ holds (sr_prod r') ⊆ holds (sr_prod r)) ∨
  (∃ item, item ∈ holds (sr_prod r) ∧ sr_prod r' = PIdle ∧ sr_pushed r' = sr_pushed r ++ [item]).
Proof.
  destruct 1; cbn.
  - left. eauto.
  - right; left. set_solver.
  - right; left. set_solver.
  - right; left. set_solver.
  - right; right. exists item. split; [set_solver|done].
Qed.

(** ** Every step keeps the invariant *)

Lemma push_ok r r' lp :
  feed_ra_ok (mkFeedRa r false lp) → push_ra_step Capacity r r' →
  (∀ item head, sr_prod r = PIdle → sr_prod r' = PLoadedHead item head → next_event r item) →
  feed_ra_ok (mkFeedRa r' false lp).
Proof.
  intros [Hring Hps Hnext _ Hflag Hloop] Hstep Hbegin. cbn in *. destruct (push_frame _ _ Hstep) as (Hc & Hvc & Hq).
  split; cbn; [by eapply push_ra_step_ok| | |done| |].
  - destruct (push_moves _ _ Hstep) as [(item & head & _ & _ & ->)|[[-> _]|(item & Hin & _ & ->)]]; [done|done|].
    destruct (Hnext item Hin) as (x & ts & Hx & ->). rewrite length_app, Nat.add_1_r, (take_S_r _ _ x) by done.
    apply Forall2_app; [done|]. repeat constructor. by exists ts.
  - destruct (push_moves _ _ Hstep) as [(item & head & Hp & Hp' & Hps')|[[Hps' Hsub]|(item & Hin & -> & _)]].
    + rewrite Hp'. intros y ->%list_elem_of_singleton. unfold next_event. rewrite Hps'. by eapply Hbegin.
    + intros y Hy. unfold next_event. rewrite Hps'. apply Hnext. set_solver.
    + cbn. set_solver.
  - intros k z W. rewrite (push_flag _ _ Hstep). intros Hk Hz. by destruct (Hflag k z W Hk Hz).
  - unfold loop_at, knows_end in *. cbn in *. rewrite Hc. destruct lp; naive_solver.
Qed.

Lemma done_ok r lp m v :
  feed_ra_ok (mkFeedRa r false lp) → sr_prod r = PIdle → length (sr_pushed r) = length feed_events →
  store at_done 1 (sr_mem r) (sr_vp r) = (m, v) → feed_ra_ok (mkFeedRa (set_producer m v r) true lp).
Proof.
  intros [[Hring Hpop _ Hcons] Hps Hnext _ Hflag Hloop] Hp Hlen Hst. cbn in *.
  pose proof (writer_other_store Capacity _ 1 (room_le Capacity) _ _ _ _ _ _ _ _ _ _ at_done 1 ltac:(lia) Hring) as Hok.
  pose proof (store_lookup at_done 1 (sr_mem r) (sr_vp r)) as Hmsg. rewrite Hst in Hok, Hmsg. cbn [fst snd] in Hmsg.
  destruct Hok as [Hva Hok]. split; cbn; [|done|done|done| |].
  - split; cbn; [done|done|by rewrite Hp|done].
  - intros k z W [Hk|(_ & _ & _ & ->)]%Hmsg Hz; [by destruct (Hflag k z W Hk Hz)|]. split; [done|]. cbn.
    rewrite Hva by done. by rewrite (wo_cursor _ _ _ _ _ _ _ (rk_writer _ _ _ _ _ _ _ _ _ _ _ _ _ Hring)).
  - unfold loop_at, knows_end in *. cbn in *. destruct lp; naive_solver.
Qed.

Lemma pop_ok r r' fd :
  feed_ra_ok (mkFeedRa r fd LPop) → pop_ra_step Capacity r r' →
  feed_ra_ok (mkFeedRa r' fd (if pop_failed (sr_cons r) (sr_cons r') then LFailed else LPop)).
Proof.
  intros [Hring Hps Hnext Hfed Hflag _] Hstep. cbn in *. destruct (pop_frame _ _ Hstep) as [Hp Hpushed].
  split; cbn; unfold next_event in *; rewrite ?Hp, ?Hpushed; try done.
  - by eapply pop_ra_step_ok.
  - intros k z W. rewrite (pop_flag _ _ Hstep). unfold knows_end. cbn. rewrite Hpushed. apply Hflag.
  - destruct (pop_failed _ _) eqn:Hf; [|done]. unfold loop_at. cbn. unfold pop_failed in Hf.
    by destruct (sr_cons r), (sr_cons r').
Qed.

(** The idle consumer loads with [acquire]. *)
Lemma consumer_acquires (r : SpscRa T) a k z v :
  spsc_ra_ok Capacity r → sr_cons r = CIdle → load true a k (sr_mem r) (sr_vc r) = Some (z, v) →
  spsc_ra_ok Capacity (set_vc v r) ∧ (va (sr_vc r) a ≤ k)%nat ∧ (∀ b, (va (sr_vc r) b ≤ va v b)%nat) ∧
  ∃ W, m_msgs (sr_mem r) a !! k = Some (z, W) ∧ ∀ b, (va W b ≤ va v b)%nat.
Proof.
  intros [Hring Hpop Hprod Hcons] Hc Hl. pose proof (load_mono _ _ _ _ _ _ _ Hl) as Hup.
  destruct (reader_acquires Capacity _ 1 (room_le Capacity) _ _ _ _ _ _ _ _ _ _ 0 _ _ _ _ ltac:(lia) Hring Hl)
    as (Hok & Hk & HW). split; [|split_and!; [lia|done|done]].
  split; cbn; [|done|done|by rewrite Hc].
  revert Hok. by apply one_reader; [apply fn_lookup_insert|..].
Qed.

(** A load by the idle consumer that does not end the call. *)
Lemma load_ok r fd lp lp' a k z v :
  feed_ra_ok (mkFeedRa r fd lp) → sr_cons r = CIdle → load true a k (sr_mem r) (sr_vc r) = Some (z, v) →
  (spsc_ra_ok Capacity (set_vc v r) → loop_at (mkFeedRa (set_vc v r) fd lp')) →
  feed_ra_ok (mkFeedRa (set_vc v r) fd lp').
Proof.
  intros [Hring Hps Hnext Hfed Hflag Hloop] Hc Hl Hlp.
  destruct (consumer_acquires _ _ _ _ _ Hring Hc Hl) as (Hring' & _). split; try done. by apply Hlp.
Qed.

Lemma load_done_ok r fd k z v :
  feed_ra_ok (mkFeedRa r fd LFailed) → load true at_done k (sr_mem r) (sr_vc r) = Some (z, v) →
  feed_ra_ok (mkFeedRa (set_vc v r) fd (if z =? 0 then LPop else LSawDone)).
Proof.
  intros Hok Hl. pose proof (fk_loop _ Hok) as Hc. cbn in Hc.
  destruct (consumer_acquires _ _ _ _ _ (fk_ring _ Hok) Hc Hl) as (_ & _ & _ & W & Hmsg & HW).
  eapply load_ok; [done|done|done|]. intros _. destruct (Z.eqb_spec z 0) as [->|Hz]; [done|].
  destruct (fk_flag _ Hok k z W Hmsg Hz) as [Hfd Hle]. split; [done|]. split; [done|]. cbn in *.
  specialize (HW at_head). lia.
Qed.

Lemma empty_head_ok r fd k head v :
  feed_ra_ok (mkFeedRa r fd LSawDone) → load true at_head k (sr_mem r) (sr_vc r) = Some (head, v) →
  feed_ra_ok (mkFeedRa (set_vc v r) fd (LHead head)).
Proof.
  intros Hok Hl. destruct (fk_loop _ Hok) as (Hc & Hfd & Hle). cbn in Hc, Hfd, Hle.
  pose proof (fk_ring _ Hok) as Hring. cbn in Hring.
  destruct (consumer_acquires _ _ _ _ _ Hring Hc Hl) as (_ & Hk & Hup & W & Hmsg & HW).
  eapply load_ok; [done|done|done|]. intros _.
  pose proof (rk_mem _ _ _ _ _ _ _ _ _ _ _ _ _ (sk_ring _ _ Hring)) as Hm. cbn in Hm.
  pose proof (lookup_lt_Some _ _ _ Hmsg) as Hlt. rewrite (mo_head _ _ _ _ _ _ _ _ _ _ Hm) in Hlt.
  pose proof (mo_head_value _ _ _ _ _ _ _ _ _ _ Hm _ _ _ Hmsg) as ->.
  split; [done|]. split; [split; [done|cbn; specialize (Hup at_head); lia]|]. cbn. f_equal. lia.
Qed.

Lemma empty_tail_ok r fd head k tail v :
  feed_ra_ok (mkFeedRa r fd (LHead head)) → load true at_tail k (sr_mem r) (sr_vc r) = Some (tail, v) →
  feed_ra_ok (mkFeedRa (set_vc v r) fd (if head =? tail then LStopped else LPop)).
Proof.
  intros Hok Hl. destruct (fk_loop _ Hok) as (Hc & [Hfd Hle] & Hh). cbn in Hc, Hfd, Hle, Hh.
  pose proof (fk_ring _ Hok) as Hring. cbn in Hring.
  destruct (consumer_acquires _ _ _ _ _ Hring Hc Hl) as (_ & Hk & Hup & W & Hmsg & HW).
  eapply load_ok; [done|done|done|]. intros _. destruct (Z.eqb_spec head tail) as [<-|]; [|done].
  destruct (sk_ring _ _ Hring) as [Hm _ Hr]. cbn in Hm.
  pose proof (lookup_lt_Some _ _ _ Hmsg) as Hlt. rewrite (mo_tail _ _ _ _ _ _ _ _ _ _ Hm 0%nat ltac:(lia)) in Hlt.
  pose proof (mo_tail_value _ _ _ _ _ _ _ _ _ _ Hm 0%nat _ _ _ ltac:(lia) Hmsg) as Hv.
  pose proof (ro_cursor _ _ _ _ _ _ _ (Hr 0%nat ltac:(lia))) as Hq. cbn in Hq.
  assert (k = length (sr_popped r)) as -> by lia.
  pose proof (in_flight Capacity Hpow r Hring). pose proof (sk_popped _ _ Hring) as Hpop.
  assert (length (sr_popped r) ≤ length (sr_pushed r))%nat by (rewrite Hpop, length_take; lia).
  assert (length (sr_popped r) = length (sr_pushed r)) as Heq.
  { apply (index_inj Capacity Hpow); [done|lia|congruence]. }
  split; [done|]. split; [split; [done|cbn; specialize (Hup at_head); lia]|]. cbn.
  by rewrite Hpop, Heq, take_ge.
Qed.

Lemma feed_ra_step_ok s s' : feed_ra_step s s' → feed_ra_ok s → feed_ra_ok s'.
Proof. destruct 1; eauto using push_ok, done_ok, pop_ok, load_done_ok, empty_head_ok, empty_tail_ok. Qed.

Lemma feed_ra_reach_ok dflt s : feed_ra_reach dflt s → feed_ra_ok s.
Proof.
  assert (feed_ra_ok (feed_ra_init dflt)) as Hinit.
  { split; cbn; try done.
    - by apply (spsc_ra_reach_ok Capacity Hpow dflt), rtc_refl.
    - intros item. set_solver.
    - intros k z W Hk Hz. by apply list_lookup_singleton_Some in Hk as [_ [= ? _]]. }
  intros Hr. unfold feed_ra_reach in Hr. revert Hinit. induction Hr; eauto using feed_ra_step_ok.
Qed.

(** C17: The engine thread of [main.cpp] cannot stop too early, even with stale
    loads: once it has left its loop, the feed handler has ended and the engine
    has popped every feed event, in order and each once, with the time put in. *)
Theorem feed_done_complete dflt s :
  feed_ra_reach dflt s → fr_loop s = LStopped →
  fr_fed s = true ∧ Forall2 stamped feed_events (sr_popped (fr_ring s)).
Proof.
  intros Hok%feed_ra_reach_ok Hstop. pose proof (fk_loop s Hok) as Hl. unfold loop_at in Hl. rewrite Hstop in Hl.
  destruct Hl as (_ & [Hfd _] & ->). split; [done|]. destruct (fk_fed s Hok Hfd) as [_ Hlen].
  pose proof (fk_pushed s Hok) as Hp. by rewrite Hlen, take_ge in Hp.
Qed.

End FeedRa.

(** ** Schedules, executed *)

Inductive FeedAct (T : Type) := FPush (ts : Z) (k : nat) | FDone | FEngine (k : nat).
Arguments FPush {T} _ _.
Arguments FDone {T}.
Arguments FEngine {T} _.

Section Exec.
Context {T : Type} (Capacity : nat) (stamp : Z → T → T) (feed_events : list T).

Definition feed_exec (a : FeedAct T) (s : FeedRa T) : option (FeedRa T) :=
  let 'mkFeedRa r fd lp := s in
  match a, fd with
  | FPush ts k, false =>
      x ← feed_events !! length (sr_pushed r);
      r' ← push_exec Capacity (stamp ts x) k r; Some (mkFeedRa r' false lp)
  | FDone, false =>
      match sr_prod r with
      | PIdle =>
          guard (length (sr_pushed r) = length feed_events);;
          let '(m, v) := store at_done 1 (sr_mem r) (sr_vp r) in Some (mkFeedRa (set_producer m v r) true lp)
      | _ => None
      end
  | FEngine k, _ =>
      match lp with
      | LPop =>
          r' ← pop_exec Capacity k r;
          Some (mkFeedRa r' fd (if pop_failed (sr_cons r) (sr_cons r') then LFailed else LPop))
      | LFailed =>
          '(z, v) ← load true at_done k (sr_mem r) (sr_vc r);
          Some (mkFeedRa (set_vc v r) fd (if z =? 0 then LPop else LSawDone))
      | LSawDone =>
          '(head, v) ← load true at_head k (sr_mem r) (sr_vc r); Some (mkFeedRa (set_vc v r) fd (LHead head))
      | LHead head =>
          '(tail, v) ← load true at_tail k (sr_mem r) (sr_vc r);
          Some (mkFeedRa (set_vc v r) fd (if head =? tail then LStopped else LPop))
      | LStopped => None
      end
  | _, _ => None
  end.

Lemma feed_exec_sound a s s' : feed_exec a s = Some s' → feed_ra_step Capacity stamp feed_events s s'.
Proof.
  destruct s as [r fd lp]. destruct a as [ts k| |k]; cbn [feed_exec].
  - destruct fd; [done|]. destruct (feed_events !! _) as [x|] eqn:Hx; cbn [mbind option_bind]; [|done].
    destruct (push_exec _ _ _ _) as [r'|] eqn:Hp; cbn [mbind option_bind]; [|done]. intros [= <-].
    apply fra_push; [by eapply push_exec_sound|]. intros item head Hidle Hl. exists x, ts. split; [done|].
    destruct r as [m vp vc p c ps qs]. cbn in Hidle. subst p. cbn in Hp.
    destruct (load _ _ _ _ _) as [[h v]|]; cbn in Hp; [|done]. injection Hp as <-. cbn in Hl. by injection Hl.
  - destruct fd; [done|]. destruct (sr_prod r) eqn:Hp; try done. case_guard; [|done].
    intros [= <-]. by apply fra_done.
  - destruct lp as [| | |head|]; [| | | |by destruct fd]; intros Hs;
      [destruct (pop_exec _ _ _) eqn:Hl|destruct (load _ _ _ _ _) as [[z v]|] eqn:Hl..];
      destruct fd; cbn [mbind option_bind] in Hs; simplify_eq;
      eauto using fra_pop, pop_exec_sound, fra_load_done, fra_empty_head, fra_empty_tail.
Qed.

End Exec.

(** One order, which the engine pops; its first look at [feed_done] is stale. *)
Definition feed_demo : list (FeedAct Z) :=
  [FPush 100 0; FPush 100 0; FPush 100 0; FPush 100 0; FEngine 0; FEngine 1; FEngine 1; FEngine 1; FDone;
   FEngine 1; FEngine 1; FEngine 0; FEngine 1; FEngine 1; FEngine 1; FEngine 1; FEngine 1].

Lemma feed_ra_demo :
  ∃ s, feed_ra_reach 2 (λ ts x, ts + x) [5] 0 s ∧ (fr_loop s, sr_popped (fr_ring s)) = (LStopped, [105]).
Proof. apply (run_acts_reach _ _ (feed_exec_sound 2 (λ ts x, ts + x) [5])) with (acts := feed_demo). vm_compute. reflexivity. Qed.

Lemma feed_done_complete_witness :
  ∃ s, feed_ra_reach 2 (λ ts x, ts + x) [5] 0 s ∧ Forall2 (stamped (λ ts x, ts + x)) [5] (sr_popped (fr_ring s)).
Proof.
  destruct feed_ra_demo as (s & Hr & [= Hstop _]). exists s. split; [done|].
  exact (proj2 (feed_done_complete 2 (λ ts x, ts + x) [5] pow2_capacity_2 0 s Hr Hstop)).
Defined.
