(* ===== verification/BcastRa.v ===== *)
(** * BcastRa: the broadcast ring under the memory orders it asks for

    [BroadcastRing::try_publish] and [try_consume] of [include/broadcast_ring.hpp]
    on the memory of [RaMemory].  Location 0 is [write_cursor_], location [S i] is
    [cursors_[i]]: own cursors are loaded [relaxed], the others' [acquire], and
    every cursor is stored [release].  [cached_min_] is loaded and stored by the
    writer only, so it is a variable of the writer; [consumer_count_] is constant
    once the threads run.  The control points are those of [BroadcastRing]. *)

From stdpp Require Import functions.
From S2P Require Import Prelude BroadcastRing RaMemory RaRing.

#[local] Open Scope Z_scope.

Abbreviation at_write := 0%nat.
Abbreviation at_cursor i := (S i).

Record BcastRa (T : Type) := mkBcastRa {
  br_mem : Mem T;
  br_cached : Z;
  br_vw : View;                      (* the writer's view *)
  br_writer : @WriterPc T;
  br_vr : nat → View;                (* the readers' *)
  br_readers : nat → @Reader T;
  br_published : list T
}.
Arguments mkBcastRa {T} _ _ _ _ _ _ _.
Arguments br_mem {T} _.
Arguments br_cached {T} _.
Arguments br_vw {T} _.
Arguments br_writer {T} _.
Arguments br_vr {T} _ _.
Arguments br_readers {T} _ _.
Arguments br_published {T} _.

Section BcastRa.
Context {T : Type} (Capacity consumers : nat).

Definition slot (c : Z) : nat := Z.to_nat (Z.land c (kMask Capacity)).

Inductive bcast_ra_step : BcastRa T → BcastRa T → Prop :=
| bra_publish_cached m cm v v' vr rs ps item k write :
    load false at_write k m v = Some (write, v') → u64 (write - cm) < Z.of_nat Capacity →
    bcast_ra_step (mkBcastRa m cm v WIdle vr rs ps) (mkBcastRa m cm v' (WGated item write) vr rs ps)
| bra_publish_scan m cm v v' vr rs ps item k write :
    load false at_write k m v = Some (write, v') → Z.of_nat Capacity ≤ u64 (write - cm) →
    bcast_ra_step (mkBcastRa m cm v WIdle vr rs ps)
      (mkBcastRa m cm v' (WScan item write (Z.of_nat consumers) 0 UINT64_MAX) vr rs ps)
| bra_scan_cursor m cm v v' vr rs ps item write n (i : nat) min k c :
    Z.of_nat i < n → load true (at_cursor i) k m v = Some (c, v') →
    bcast_ra_step (mkBcastRa m cm v (WScan item write n (Z.of_nat i) min) vr rs ps)
      (mkBcastRa m cm v' (WScan item write n (Z.of_nat i + 1) (if c <? min then c else min)) vr rs ps)
| bra_scan_full m cm v vr rs ps item write n i min :
    n ≤ i → Z.of_nat Capacity ≤ u64 (write - fresh_min_of write n min) →
    bcast_ra_step (mkBcastRa m cm v (WScan item write n i min) vr rs ps)
      (mkBcastRa m (fresh_min_of write n min) v WIdle vr rs ps)
| bra_scan_room m cm v vr rs ps item write n i min :
    n ≤ i → u64 (write - fresh_min_of write n min) < Z.of_nat Capacity →
    bcast_ra_step (mkBcastRa m cm v (WScan item write n i min) vr rs ps)
      (mkBcastRa m (fresh_min_of write n min) v (WGated item write) vr rs ps)
| bra_write_slot m m' cm v v' vr rs ps item write :
    na_write consumers (slot write) item m v = Some (m', v') →
    bcast_ra_step (mkBcastRa m cm v (WGated item write) vr rs ps)
      (mkBcastRa m' cm v' (WWritten item write) vr rs ps)
| bra_publish m m' cm v v' vr rs ps item write :
    store at_write (u64 (write + 1)) m v = (m', v') →
    bcast_ra_step (mkBcastRa m cm v (WWritten item write) vr rs ps)
      (mkBcastRa m' cm v' WIdle vr rs (ps ++ [item]))
| bra_consume_empty m cm v w vr rs ps i seen k k' read write v1 v2 :
    (i < consumers)%nat → rs i = mkReader RIdle seen →
    load false (at_cursor i) k m (vr i) = Some (read, v1) →
    load true at_write k' m v1 = Some (write, v2) → write ≤ read →
    bcast_ra_step (mkBcastRa m cm v w vr rs ps) (mkBcastRa m cm v w (<[i := v2]> vr) rs ps)
| bra_consume_check m cm v w vr rs ps i seen k k' read write v1 v2 :
    (i < consumers)%nat → rs i = mkReader RIdle seen →
    load false (at_cursor i) k m (vr i) = Some (read, v1) →
    load true at_write k' m v1 = Some (write, v2) → read < write →
    bcast_ra_step (mkBcastRa m cm v w vr rs ps)
      (mkBcastRa m cm v w (<[i := v2]> vr) (<[i := mkReader (RChecked read) seen]> rs) ps)
| bra_consume_read m m' cm v w vr rs ps i seen read out v' :
    (i < consumers)%nat → rs i = mkReader (RChecked read) seen →
    na_read i (slot read) m (vr i) = Some (out, m', v') →
    bcast_ra_step (mkBcastRa m cm v w vr rs ps)
      (mkBcastRa m' cm v w (<[i := v']> vr) (<[i := mkReader (RRead read out) seen]> rs) ps)
| bra_consume_store m m' cm v w vr rs ps i seen read out v' :
    (i < consumers)%nat → rs i = mkReader (RRead read out) seen →
    store (at_cursor i) (u64 (read + 1)) m (vr i) = (m', v') →
    bcast_ra_step (mkBcastRa m cm v w vr rs ps)
      (mkBcastRa m' cm v w (<[i := v']> vr) (<[i := mkReader RIdle (seen ++ [out])]> rs) ps).

Definition bcast_ra_init (dflt : T) : BcastRa T :=
  mkBcastRa (mem_init dflt) 0 bottom WIdle (λ _, bottom) (λ _, mkReader RIdle []) [].

Definition bcast_ra_reach (dflt : T) (s : BcastRa T) : Prop := rtc bcast_ra_step (bcast_ra_init dflt) s.

(** ** The invariant *)

(** The value of a cursor after [k] items. *)
Definition cursor_value (k : nat) : Z := u64 (Z.of_nat k).

Definition unpublished (w : @WriterPc T) : list T := match w with WWritten item _ => [item] | _ => [] end.
Definition holding (rd : @Reader T) : nat := match rd_pc rd with RRead _ _ => 1 | _ => 0 end.

(** The writer has seen every cursor at [c] or later. *)
Definition seen_from (v : View) (upto : nat) (c : Z) : Prop :=
  ∀ i, (i < upto)%nat → c ≤ Z.of_nat (va v (at_cursor i)).

Definition writer_at (n : nat) (v : View) (w : @WriterPc T) : Prop :=
  match w with
  | WIdle => True
  | WScan _ write cs i min =>
      write = Z.of_nat n ∧ cs = Z.of_nat consumers ∧ 0 ≤ min ∧
      ∃ k : nat, i = Z.of_nat k ∧ (k ≤ consumers)%nat ∧ seen_from v k min ∧
        (k = 0%nat ∨ min ≤ Z.of_nat n)
  | WGated _ write => write = Z.of_nat n ∧ ∀ i, (i < consumers)%nat → (n < va v (at_cursor i) + Capacity)%nat
  | WWritten _ write => write = Z.of_nat n
  end.

Definition reader_at (ps : list T) (v : View) (rd : @Reader T) : Prop :=
  rd_seen rd = take (rd_count rd) ps ∧
  match rd_pc rd with
  | RIdle => True
  | RChecked read => read = Z.of_nat (rd_count rd) ∧ (rd_count rd < va v at_write)%nat
  | RRead read out => read = Z.of_nat (rd_count rd) ∧ ps !! rd_count rd = Some out
  end.

Abbreviation ring_ok := (@ring_ok Capacity Capacity consumers cursor_value cursor_value T).

Record bcast_ra_ok (s : BcastRa T) : Prop := {
  bk_ring : ring_ok (br_mem s) (br_vw s) (br_vr s) (length (br_published s)) (length (unpublished (br_writer s)))
              (λ i, rd_count (br_readers s i)) (λ i, holding (br_readers s i))
              (br_published s ++ unpublished (br_writer s));
  bk_cached : 0 ≤ br_cached s ≤ Z.of_nat (length (br_published s)) ∧ seen_from (br_vw s) consumers (br_cached s);
  bk_writer : writer_at (length (br_published s)) (br_vw s) (br_writer s);
  bk_readers : ∀ i, (i < consumers)%nat → reader_at (br_published s) (br_vr s i) (br_readers s i)
}.

Hypothesis Hpow : pow2_capacity Capacity.

Lemma slot_of_nat k : slot (Z.of_nat k) = (k `mod` Capacity)%nat.
Proof. unfold slot, kMask. rewrite (land_mask_nat Capacity Hpow). apply Nat2Z.id. Qed.

Lemma cursor_small k n : (k ≤ n)%nat → Z.of_nat n < 2 ^ 64 → cursor_value k = Z.of_nat k.
Proof. intros. unfold cursor_value. unwrap. done. Qed.

Lemma seen_from_mono v v' n c : (∀ a, (va v a ≤ va v' a)%nat) → seen_from v n c → seen_from v' n c.
Proof. intros Hle Hs i Hi. specialize (Hs i Hi). specialize (Hle (at_cursor i)). lia. Qed.

Lemma lag (n : nat) c : 0 ≤ c ≤ Z.of_nat n → Z.of_nat n < 2 ^ 64 → u64 (Z.of_nat n - c) = Z.of_nat n - c.
Proof. intros. unwrap. done. Qed.

(** ** The writer *)

(** One iteration of the scan, with a cursor that may be stale. *)
Lemma scan_sees m v vr (ps : list T) w q d l item write n (i : nat) min k c v' :
  ring_ok m v vr (length ps) w q d l → Z.of_nat (length ps) < 2 ^ 64 →
  writer_at (length ps) v (WScan item write n (Z.of_nat i) min) → Z.of_nat i < n →
  load true (at_cursor i) k m v = Some (c, v') →
  ring_ok m v' vr (length ps) w q d l ∧
  writer_at (length ps) v' (WScan item write n (Z.of_nat i + 1) (if c <? min then c else min)).
Proof.
  intros Hok Hsm (-> & -> & Hmin & j & Hj & Hle & Hseen & Hor) Hlt Hl. apply Nat2Z.inj in Hj as <-.
  pose proof (load_mono _ _ _ _ _ _ _ Hl) as Hup.
  destruct (writer_load_tail Capacity _ consumers (le_n Capacity) _ _ _ _ _ _ _ _ _ _ i _ _ _ ltac:(lia) Hok Hl)
    as (-> & Hk & Hk' & Hok'). split; [done|].
  destruct (reader_behind Capacity _ consumers (le_n Capacity) _ _ _ _ _ _ _ _ _ _ i ltac:(lia) Hok) as (_ & Hq & _).
  rewrite (cursor_small k (length ps)) by lia.
  split_and!; [done|done|destruct (Z.ltb_spec (Z.of_nat k) min); lia|]. exists (S i).
  split_and!; [lia|lia| |].
  - intros j Hj. destruct (decide (j = i)) as [->|Hne].
    + destruct (Z.ltb_spec (Z.of_nat k) min); lia.
    + specialize (seen_from_mono _ _ _ _ Hup Hseen j ltac:(lia)) as Hs.
      destruct (Z.ltb_spec (Z.of_nat k) min); lia.
  - right. destruct (Z.ltb_spec (Z.of_nat k) min); lia.
Qed.

(** What the writer knows when the scan is over. *)
Lemma scan_over n v item write cs i min :
  writer_at n v (WScan item write cs i min) → cs ≤ i →
  write = Z.of_nat n ∧ 0 ≤ fresh_min_of write cs min ≤ Z.of_nat n ∧ seen_from v consumers (fresh_min_of write cs min).
Proof.
  intros (-> & -> & Hmin & k & -> & Hle & Hseen & Hor) Hdone. unfold fresh_min_of. split; [done|].
  destruct (Z.eqb_spec (Z.of_nat consumers) 0); [split; [lia|]; intros i Hi; lia|].
  split; [lia|]. intros i Hi. apply Hseen. lia.
Qed.

Lemma gate_open n v c :
  0 ≤ c ≤ Z.of_nat n → Z.of_nat n < 2 ^ 64 → seen_from v consumers c → u64 (Z.of_nat n - c) < Z.of_nat Capacity →
  ∀ i, (i < consumers)%nat → (n < va v (at_cursor i) + Capacity)%nat.
Proof. intros Hc Hn Hseen Hlt i Hi. rewrite lag in Hlt by done. specialize (Hseen i Hi). lia. Qed.

(** ** A reader *)

Lemma consume_loads m v vr n w q d l i k k' read write v1 v2 :
  ring_ok m v vr n w q d l → Z.of_nat n < 2 ^ 64 → (i < consumers)%nat →
  load false (at_cursor i) k m (vr i) = Some (read, v1) → load true at_write k' m v1 = Some (write, v2) →
  read = Z.of_nat (q i) ∧ write = Z.of_nat k' ∧ (k' ≤ va v2 at_write)%nat ∧
  ring_ok m v (<[i := v2]> vr) n w q d l.
Proof.
  intros Hok Hn Hi H1 H2.
  destruct (reader_behind Capacity _ consumers (le_n Capacity) _ _ _ _ _ _ _ _ _ _ i Hi Hok) as (_ & Hq & _).
  destruct (reader_load_own Capacity _ consumers (le_n Capacity) _ _ _ _ _ _ _ _ _ _ i _ _ _ Hi Hok H1) as (-> & _ & Hok1).
  rewrite <-(fn_lookup_insert vr i v1) in H2.
  destruct (reader_load_head Capacity _ consumers (le_n Capacity) _ _ _ _ _ _ _ _ _ _ i _ _ _ Hi Hok1 H2)
    as (-> & Hk & Hk' & Hok2).
  rewrite (cursor_small (q i) n), (cursor_small k' n) by lia. split_and!; [done|done|done|].
  revert Hok2. apply ring_ok_ext. intros j Hj. split; [|done]. unfold insert, fn_insert. by case_decide.
Qed.

Lemma readers_update (ps : list T) vr rs i v rd :
  (∀ j, (j < consumers)%nat → reader_at ps (vr j) (rs j)) → reader_at ps v rd →
  ∀ j, (j < consumers)%nat → reader_at ps ((<[i := v]> vr : nat → View) j) ((<[i := rd]> rs : nat → Reader) j).
Proof. intros Hall Hrd j Hj. unfold insert, fn_insert. case_decide; [done|by apply Hall]. Qed.

(** The counters of the readers, when one of them changes. *)
Lemma ring_update m v vr n w l q d rs i rd :
  q i = rd_count rd → d i = holding rd → (∀ j, j ≠ i → q j = rd_count (rs j) ∧ d j = holding (rs j)) →
  ring_ok m v vr n w q d l →
  ring_ok m v vr n w (λ j, rd_count ((<[i := rd]> rs : nat → Reader) j)) (λ j, holding ((<[i := rd]> rs : nat → Reader) j)) l.
Proof.
  intros Hq Hd Hne. apply ring_ok_ext. intros j Hj. split; [done|]. unfold insert, fn_insert.
  case_decide; [by subst|by apply Hne].
Qed.

Lemma reader_at_publish ps v rd item : reader_at ps v rd → reader_at (ps ++ [item]) v rd.
Proof.
  intros [Hseen Hpc]. assert (rd_count rd ≤ length ps)%nat as Hle.
  { unfold rd_count. rewrite Hseen, length_take. lia. }
  split; [by rewrite take_app_le|]. destruct (rd_pc rd); [done|done|].
  destruct Hpc as [-> Hx]. split; [done|]. by apply lookup_app_l_Some.
Qed.

(** ** Every step keeps the invariant *)

Lemma publish_begin_ok m cm v v' vr rs ps k write :
  bcast_ra_ok (mkBcastRa m cm v WIdle vr rs ps) → Z.of_nat (length ps) < 2 ^ 64 →
  load false at_write k m v = Some (write, v') →
  write = Z.of_nat (length ps) ∧ bcast_ra_ok (mkBcastRa m cm v' WIdle vr rs ps).
Proof.
  intros [Hring [Hcm Hseen] _ Hrd] Hsm Hl. cbn in *. pose proof (load_mono _ _ _ _ _ _ _ Hl) as Hup.
  destruct (writer_load_own Capacity _ consumers (le_n Capacity) _ _ _ _ _ _ _ _ _ _ _ _ _ Hring Hl) as [-> Hok].
  split; [by eapply cursor_small|]. split; cbn; [done| |done|done]. split; [done|by eapply seen_from_mono].
Qed.

Lemma write_slot_ok m m' cm v v' vr rs ps item write :
  bcast_ra_ok (mkBcastRa m cm v (WGated item write) vr rs ps) →
  na_write consumers (slot write) item m v = Some (m', v') →
  bcast_ra_ok (mkBcastRa m' cm v' (WWritten item write) vr rs ps).
Proof.
  intros [Hring [Hcm Hseen] [-> Hgate] Hrd] Hw. cbn in *. rewrite slot_of_nat in Hw. rewrite app_nil_r in Hring.
  destruct (writer_writes Capacity _ consumers Hpow (le_n Capacity) _ _ _ _ _ _ _ _ _ item Hring Hgate)
    as (m1 & v1 & Hw1 & Hva & Hok). rewrite Hw in Hw1. injection Hw1 as <- <-. split; cbn; try done.
  split; [done|]. intros i Hi. rewrite Hva. by apply Hseen.
Qed.

Lemma publish_ok m m' cm v v' vr rs ps item write :
  bcast_ra_ok (mkBcastRa m cm v (WWritten item write) vr rs ps) →
  store at_write (u64 (write + 1)) m v = (m', v') →
  bcast_ra_ok (mkBcastRa m' cm v' WIdle vr rs (ps ++ [item])).
Proof.
  intros [Hring [Hcm Hseen] Hwr Hrd] Hst. cbn in *. subst write.
  replace (Z.of_nat (length ps) + 1) with (Z.of_nat (S (length ps))) in Hst by lia.
  pose proof (writer_stores Capacity _ consumers (le_n Capacity) _ _ _ _ _ _ _ _ _ Hring) as Hok.
  unfold cursor_value at 1 in Hok. rewrite Hst in Hok. destruct Hok as (_ & Hva & Hok).
  split; cbn; rewrite ?app_nil_r, ?length_app, ?Nat.add_1_r; try done.
  - split; [lia|]. intros i Hi. rewrite Hva. by apply Hseen.
  - intros i Hi. by apply reader_at_publish, Hrd.
Qed.

Lemma consume_read_ok m m' cm v w vr rs ps i seen read out v' :
  bcast_ra_ok (mkBcastRa m cm v w vr rs ps) → (i < consumers)%nat → rs i = mkReader (RChecked read) seen →
  na_read i (slot read) m (vr i) = Some (out, m', v') →
  bcast_ra_ok (mkBcastRa m' cm v w (<[i := v']> vr) (<[i := mkReader (RRead read out) seen]> rs) ps).
Proof.
  intros [Hring Hcached Hwr Hrd] Hi Hrs Hread. cbn in *. destruct (Hrd i Hi) as [Hseen Hpc].
  rewrite Hrs in Hseen, Hpc. cbn in Hseen, Hpc. destruct Hpc as [-> Hlt]. rewrite slot_of_nat in Hread.
  unfold rd_count in Hlt, Hread. cbn in Hlt, Hread.
  assert (rd_count (rs i) = length seen) as Hq by (by rewrite Hrs).
  destruct (reader_reads Capacity _ consumers Hpow (le_n Capacity) _ _ _ _ _ _ _ _ _ _ i Hi Hring) as (x & m1 & v1 & Hr1 & Hx & Hok).
  { by rewrite Hrs. } { by rewrite Hq. }
  rewrite Hq in Hr1, Hx. rewrite Hread in Hr1. injection Hr1 as <- <- <-.
  split; cbn; [|done|done|].
  - revert Hok. apply ring_update; [done|by rewrite fn_lookup_insert|].
    intros j Hj. split; [done|by rewrite fn_lookup_insert_ne].
  - apply readers_update; [done|]. split; [done|]. split; [done|].
    destruct (reader_behind Capacity _ consumers (le_n Capacity) _ _ _ _ _ _ _ _ _ _ i Hi Hring) as (_ & _ & Hh & _).
    apply lookup_app_Some in Hx as [Hx|[Hge _]]; [done|lia].
Qed.

Lemma consume_store_ok m m' cm v w vr rs ps i seen read out v' :
  bcast_ra_ok (mkBcastRa m cm v w vr rs ps) → (i < consumers)%nat → rs i = mkReader (RRead read out) seen →
  store (at_cursor i) (u64 (read + 1)) m (vr i) = (m', v') →
  bcast_ra_ok (mkBcastRa m' cm v w (<[i := v']> vr) (<[i := mkReader RIdle (seen ++ [out])]> rs) ps).
Proof.
  intros [Hring Hcached Hwr Hrd] Hi Hrs Hst. cbn in *. destruct (Hrd i Hi) as [Hseen Hpc].
  rewrite Hrs in Hseen, Hpc. cbn in Hseen, Hpc. destruct Hpc as [-> Hx]. unfold rd_count in Hseen, Hx, Hst. cbn in Hseen, Hx, Hst.
  assert (rd_count (rs i) = length seen) as Hq by (by rewrite Hrs).
  replace (Z.of_nat (length seen) + 1) with (Z.of_nat (S (length seen))) in Hst by lia.
  pose proof (reader_stores Capacity _ consumers (le_n Capacity) _ _ _ _ _ _ _ _ _ _ i Hi Hring (f_equal holding Hrs)) as Hok.
  cbv beta in Hok. rewrite Hq in Hok. unfold cursor_value at 1 in Hok. rewrite Hst in Hok.
  assert (rd_count (mkReader RIdle (seen ++ [out])) = S (length seen)) as Hq'.
  { unfold rd_count. cbn. rewrite length_app, Nat.add_1_r. done. }
  split; cbn; [|done|done|].
  - revert Hok. apply ring_update; [by rewrite fn_lookup_insert|by rewrite fn_lookup_insert|].
    intros j Hj. by rewrite !fn_lookup_insert_ne.
  - apply readers_update; [done|]. split; [|done]. rewrite Hq'. cbn. rewrite (take_S_r _ _ out) by done.
    by rewrite <-Hseen.
Qed.

Lemma bcast_ra_step_ok s s' :
  bcast_ra_step s s' → Z.of_nat (length (br_published s)) < 2 ^ 64 → bcast_ra_ok s → bcast_ra_ok s'.
Proof.
  intros Hstep Hsm Hok. destruct Hstep; cbn in Hsm.
  - destruct (publish_begin_ok _ _ _ _ _ _ _ _ _ Hok Hsm H) as [-> [Hring [Hcm Hseen] _ Hrd]].
    split; cbn in *; try done. split; [done|by eapply gate_open].
  - destruct (publish_begin_ok _ _ _ _ _ _ _ _ _ Hok Hsm H) as [-> [Hring [Hcm Hseen] _ Hrd]].
    split; cbn in *; try done. split_and!; [done|done|done|]. exists 0%nat.
    split_and!; [done|lia|intros i Hi; lia|by left].
  - destruct Hok as [Hring [Hcm Hseen] Hwr Hrd].
    destruct (scan_sees _ _ _ _ _ _ _ _ _ _ _ _ _ _ _ _ Hring Hsm Hwr H H0) as [Hring' Hwr'].
    split; cbn; try done. split; [done|]. eapply seen_from_mono; [by eapply load_mono|done].
  - destruct Hok as [Hring [Hcm Hseen] Hwr Hrd]. destruct (scan_over (length ps) _ _ _ _ _ _ Hwr H) as (-> & Hf & Hs).
    by split.
  - destruct Hok as [Hring [Hcm Hseen] Hwr Hrd]. destruct (scan_over (length ps) _ _ _ _ _ _ Hwr H) as (-> & Hf & Hs).
    split; cbn; try done. split; [done|by apply (gate_open _ _ _ Hf)].
  - by eapply write_slot_ok.
  - by eapply publish_ok.
  - destruct Hok as [Hring Hcached Hwr Hrd]. cbn in *.
    destruct (consume_loads _ _ _ _ _ _ _ _ _ _ _ _ _ _ _ Hring Hsm H H1 H2) as (_ & _ & _ & Hok).
    split; cbn; try done. intros j Hj. unfold insert, fn_insert. case_decide as Hij; [subst j|by apply Hrd].
    destruct (Hrd i Hj) as [Hs _]. rewrite H0 in Hs |- *. by split.
  - destruct Hok as [Hring Hcached Hwr Hrd]. cbn in *.
    destruct (consume_loads _ _ _ _ _ _ _ _ _ _ _ _ _ _ _ Hring Hsm H H1 H2) as (-> & -> & Hk & Hok).
    destruct (Hrd i H) as [Hs _]. rewrite H0 in *. split; cbn; [|done|done|].
    + revert Hok. apply ring_update; [by rewrite H0|by rewrite H0|done].
    + apply readers_update; [done|]. split; [done|]. split; [done|]. cbn in *. unfold rd_count in *. cbn in *. lia.
  - by eapply consume_read_ok.
  - by eapply consume_store_ok.
Qed.

Lemma bcast_ra_step_published s s' :
  bcast_ra_step s s' → (length (br_published s) ≤ length (br_published s'))%nat.
Proof. destruct 1; cbn; rewrite ?length_app; lia. Qed.

Lemma bcast_ra_reach_ok dflt s :
  bcast_ra_reach dflt s → Z.of_nat (length (br_published s)) < 2 ^ 64 → bcast_ra_ok s.
Proof.
  revert s. apply (rtc_ind_r (λ s, Z.of_nat (length (br_published s)) < 2 ^ 64 → bcast_ra_ok s)).
  - intros _. split; cbn; [by apply ring_start| |done|done]. split; [lia|]. intros i Hi. cbn. lia.
  - intros s1 s2 Hr Hstep IH Hlim. pose proof (bcast_ra_step_published _ _ Hstep).
    eapply bcast_ra_step_ok; [done| |apply IH]; lia.
Qed.

(** ** What the invariant gives at each control point *)

Lemma slot_bound k : (slot (Z.of_nat k) < Capacity)%nat.
Proof. rewrite slot_of_nat. apply Nat.mod_upper_bound. pose proof (capacity_pos Capacity Hpow). lia. Qed.

Lemma gated_write s item write :
  bcast_ra_ok s → br_writer s = WGated item write →
  (slot write < Capacity)%nat ∧ is_Some (na_write consumers (slot write) item (br_mem s) (br_vw s)).
Proof.
  intros [Hring _ Hwr _] Hp. rewrite Hp in *. cbn in Hring, Hwr. destruct Hwr as [-> Hgate].
  split; [apply slot_bound|]. rewrite slot_of_nat.
  destruct (writer_writes Capacity _ consumers Hpow (le_n Capacity) _ _ _ _ _ _ _ _ _ item Hring Hgate)
    as (m' & v' & -> & _). done.
Qed.

Lemma checked_consume s i read seen :
  bcast_ra_ok s → (i < consumers)%nat → br_readers s i = mkReader (RChecked read) seen →
  (slot read < Capacity)%nat ∧
  ∃ x m' v', na_read i (slot read) (br_mem s) (br_vr s i) = Some (x, m', v') ∧
    (seen ++ [x]) `prefix_of` br_published s.
Proof.
  intros [Hring _ _ Hrd] Hi Hrs. destruct (Hrd i Hi) as [Hseen Hpc]. rewrite Hrs in Hseen, Hpc.
  cbn in Hseen, Hpc. destruct Hpc as [-> Hlt]. split; [apply slot_bound|]. rewrite slot_of_nat.
  assert (rd_count (br_readers s i) = length seen) as Hq by (by rewrite Hrs).
  unfold rd_count in Hseen, Hlt |- *. cbn in Hseen, Hlt |- *.
  destruct (reader_reads Capacity _ consumers Hpow (le_n Capacity) _ _ _ _ _ _ _ _ _ _ i Hi Hring)
    as (x & m' & v' & Hr & Hx & _); [by rewrite Hrs|by rewrite Hq|].
  rewrite Hq in Hr, Hx. exists x, m', v'. split; [done|].
  destruct (reader_behind Capacity _ consumers (le_n Capacity) _ _ _ _ _ _ _ _ _ _ i Hi Hring) as (_ & _ & Hh & _).
  apply lookup_app_Some in Hx as [Hx|[Hge _]]; [|lia].
  rewrite Hseen. rewrite <-(take_S_r _ _ _ Hx). apply prefix_take.
Qed.

(** C5: The broadcast ring needs no more than the release/acquire orders the code
    asks for.  Whatever stale cursors its loads return, each consumer has read a
    prefix of what was published and is at most [Capacity] behind; the plain write
    of a slot after the writer's gate is ordered after every earlier access to
    that slot by any consumer, and the plain read after a consumer's check is
    ordered after the write of its very next item: there is no data race. *)
Theorem bcast_release_acquire dflt s :
  bcast_ra_reach dflt s → Z.of_nat (length (br_published s)) < 2 ^ 64 →
  (∀ i, (i < consumers)%nat →
     rd_seen (br_readers s i) `prefix_of` br_published s ∧
     (length (br_published s) ≤ length (rd_seen (br_readers s i)) + Capacity)%nat) ∧
  (∀ item write, br_writer s = WGated item write →
     (slot write < Capacity)%nat ∧ is_Some (na_write consumers (slot write) item (br_mem s) (br_vw s))) ∧
  (∀ i read seen, (i < consumers)%nat → br_readers s i = mkReader (RChecked read) seen →
     (slot read < Capacity)%nat ∧
     ∃ x m' v', na_read i (slot read) (br_mem s) (br_vr s i) = Some (x, m', v') ∧
       (seen ++ [x]) `prefix_of` br_published s).
Proof.
  intros Hr Hlim. pose proof (bcast_ra_reach_ok dflt s Hr Hlim) as Hok. split_and!.
  - intros i Hi. destruct (bk_readers s Hok i Hi) as [Hseen _]. split; [rewrite Hseen; apply prefix_take|].
    destruct (reader_behind Capacity _ consumers (le_n Capacity) _ _ _ _ _ _ _ _ _ _ i Hi (bk_ring s Hok)) as (_ & _ & _ & Hb).
    unfold rd_count in Hb. lia.
  - intros item write. by apply gated_write.
  - intros i read seen. by apply checked_consume.
Qed.

End BcastRa.

(** ** Schedules, executed

    Which thread moves, and which message its loads return. *)
Inductive RaAct (T : Type) :=
| APublish (item : T) (k : nat)
| AScan (k : nat)
| AWriter
| AConsume (i k k' : nat)
| AReader (i : nat).
Arguments APublish {T} _ _.
Arguments AScan {T} _.
Arguments AWriter {T}.
Arguments AConsume {T} _ _ _.
Arguments AReader {T} _.

Section Exec.
Context {T : Type} (Capacity consumers : nat).

Definition writer_moves (s : BcastRa T) : option (BcastRa T) :=
  let 'mkBcastRa m cm v w vr rs ps := s in
  match w with
  | WScan item write n i min =>
      if n <=? i then
        let fresh := fresh_min_of write n min in
        Some (mkBcastRa m fresh v (if u64 (write - fresh) <? Z.of_nat Capacity then WGated item write else WIdle) vr rs ps)
      else None
  | WGated item write =>
      '(m', v') ← na_write consumers (slot Capacity write) item m v;
      Some (mkBcastRa m' cm v' (WWritten item write) vr rs ps)
  | WWritten item write =>
      let '(m', v') := store at_write (u64 (write + 1)) m v in Some (mkBcastRa m' cm v' WIdle vr rs (ps ++ [item]))
  | WIdle => None
  end.

Definition reader_moves (i : nat) (s : BcastRa T) : option (BcastRa T) :=
  let 'mkBcastRa m cm v w vr rs ps := s in
  match rs i with
  | mkReader (RChecked read) seen =>
      '(out, m', v') ← na_read i (slot Capacity read) m (vr i);
      Some (mkBcastRa m' cm v w (<[i := v']> vr) (<[i := mkReader (RRead read out) seen]> rs) ps)
  | mkReader (RRead read out) seen =>
      let '(m', v') := store (at_cursor i) (u64 (read + 1)) m (vr i) in
      Some (mkBcastRa m' cm v w (<[i := v']> vr) (<[i := mkReader RIdle (seen ++ [out])]> rs) ps)
  | mkReader RIdle _ => None
  end.

Definition bcast_ra_exec (a : RaAct T) (s : BcastRa T) : option (BcastRa T) :=
  let 'mkBcastRa m cm v w vr rs ps := s in
  match a with
  | APublish item k =>
      match w with
      | WIdle =>
          '(write, v') ← load false at_write k m v;
          Some (mkBcastRa m cm v' (if u64 (write - cm) <? Z.of_nat Capacity then WGated item write
                                   else WScan item write (Z.of_nat consumers) 0 UINT64_MAX) vr rs ps)
      | _ => None
      end
  | AScan k =>
      match w with
      | WScan item write n i min =>
          guard (0 ≤ i < n);;
          '(c, v') ← load true (at_cursor (Z.to_nat i)) k m v;
          Some (mkBcastRa m cm v' (WScan item write n (i + 1) (if c <? min then c else min)) vr rs ps)
      | _ => None
      end
  | AWriter => writer_moves s
  | AConsume i k k' =>
      guard (i < consumers)%nat;;
      match rs i with
      | mkReader RIdle seen =>
          '(read, v1) ← load false (at_cursor i) k m (vr i);
          '(write, v2) ← load true at_write k' m v1;
          Some (mkBcastRa m cm v w (<[i := v2]> vr)
                  (if write <=? read then rs else <[i := mkReader (RChecked read) seen]> rs) ps)
      | _ => None
      end
  | AReader i => guard (i < consumers)%nat;; reader_moves i s
  end.

(** What a schedule executes are steps. *)
Lemma writer_moves_sound s s' : writer_moves s = Some s' → bcast_ra_step Capacity consumers s s'.
Proof.
  destruct s as [m cm v w vr rs ps]. destruct w as [|item write n i min|item write|item write]; cbn; [done| | |].
  - destruct (Z.leb_spec n i); [|done]. intros [= <-].
    destruct (Z.ltb_spec (u64 (write - fresh_min_of write n min)) (Z.of_nat Capacity)).
    + by apply bra_scan_room.
    + by apply bra_scan_full.
  - destruct (na_write _ _ _ _ _) as [[m' v']|] eqn:Hw; cbn; [|done]. intros [= <-]. by apply bra_write_slot.
  - intros [= <-]. by apply bra_publish.
Qed.

Lemma reader_moves_sound i s s' :
  (i < consumers)%nat → reader_moves i s = Some s' → bcast_ra_step Capacity consumers s s'.
Proof.
  destruct s as [m cm v w vr rs ps]. intros Hi. unfold reader_moves.
  destruct (rs i) as [[|read|read out] seen] eqn:Hrs; [done| |].
  - destruct (na_read _ _ _ _) as [[[out m'] v']|] eqn:Hr; cbn; [|done]. intros [= <-]. by eapply bra_consume_read.
  - cbn. intros [= <-]. by eapply bra_consume_store.
Qed.

Lemma bcast_ra_exec_sound a s s' : bcast_ra_exec a s = Some s' → bcast_ra_step Capacity consumers s s'.
Proof.
  destruct a as [item k|k| |i k k'|i].
  - destruct s as [m cm v w vr rs ps]. cbn [bcast_ra_exec]. destruct w; try done.
    destruct (load _ _ _ _ _) as [[write v']|] eqn:Hl; cbn [mbind option_bind]; [|done]. intros [= <-].
    destruct (Z.ltb_spec (u64 (write - cm)) (Z.of_nat Capacity)).
    + by eapply bra_publish_cached.
    + by eapply bra_publish_scan.
  - destruct s as [m cm v w vr rs ps]. cbn [bcast_ra_exec]. destruct w as [|item write n i min| |]; try done.
    case_guard as Hi; [|done]. cbn [mbind option_bind].
    destruct (load _ _ _ _ _) as [[c v']|] eqn:Hl; cbn [mbind option_bind]; [|done]. intros [= <-].
    rewrite <-(Z2Nat.id i) at 1 2 by lia. eapply bra_scan_cursor; [lia|done].
  - destruct s. apply writer_moves_sound.
  - destruct s as [m cm v w vr rs ps]. cbn [bcast_ra_exec]. case_guard as Hi; [|done]. cbn [mbind option_bind].
    destruct (rs i) as [[|read|read out] seen] eqn:Hrs; [|done|done].
    destruct (load _ _ _ _ (vr i)) as [[read v1]|] eqn:H1; cbn [mbind option_bind]; [|done].
    destruct (load _ _ _ _ v1) as [[write v2]|] eqn:H2; cbn [mbind option_bind]; [|done]. intros [= <-].
    destruct (Z.leb_spec write read).
    + by eapply bra_consume_empty.
    + by eapply bra_consume_check.
  - destruct s. cbn [bcast_ra_exec]. case_guard; [|done]. by apply reader_moves_sound.
Qed.

End Exec.

(** Two items fill a ring of two slots; both consumers read one of them, the first
    after a stale load of [write_cursor_]; the writer rescans and passes its gate. *)
Definition demo_schedule : list (RaAct Z) :=
  [APublish 7 0; AWriter; AWriter; APublish 8 1; AWriter; AWriter;
   AConsume 0 0 1; AReader 0; AReader 0; AConsume 1 0 2; AReader 1; AReader 1;
   APublish 9 2; AScan 1; AScan 1; AWriter; AConsume 0 1 2].

Lemma bcast_ra_demo :
  ∃ s : BcastRa Z, bcast_ra_reach 2 2 0 s ∧
    (br_published s, br_writer s, br_readers s 0%nat) = ([7; 8], WGated 9 2, mkReader (RChecked 1) [7]).
Proof. apply (run_acts_reach _ _ (bcast_ra_exec_sound 2 2)) with (acts := demo_schedule). vm_compute. reflexivity. Qed.

Lemma bcast_release_acquire_witness :
  ∃ (s : BcastRa Z) x m' v',
    is_Some (na_write 2 0 9 (br_mem s) (br_vw s)) ∧
    na_read 0 1 (br_mem s) (br_vr s 0%nat) = Some (x, m', v') ∧ [7; x] `prefix_of` [7; 8].
Proof.
  destruct bcast_ra_demo as (s & Hr & [= Hps Hw Hrd]).
  destruct (bcast_release_acquire 2 2 pow2_capacity_2 0 s Hr) as (_ & Hwrite & Hread); [by rewrite Hps|].
  destruct (Hwrite _ _ Hw) as [_ Hfree]. destruct (Hread 0%nat _ _ ltac:(lia) Hrd) as (_ & x & m' & v' & Hx & Hpre).
  exists s, x, m', v'. rewrite <-Hps. split_and!; [exact Hfree|exact Hx|exact Hpre].
Defined.
