(* ===== verification/DrainRa.v ===== *)
(** * DrainRa: the shutdown of the consumers under release/acquire

    The comment on [stop] of [matching_engine_consumer.hpp] says when the final
    drain of a consumer is complete: the sequencer must have been stopped and
    joined first.  Under sequential consistency that is [Process]; here are the
    [running_] flags and the joins of [sequencer.hpp], of the consumers and of the
    end of [gateway_main.cpp] on the memory of [RaMemory], around the ring of
    [BcastRa]: flags are stored [release] and loaded [acquire], possibly stale,
    and [join] passes on what the joined thread knew. *)

From stdpp Require Import functions.
From S2P Require Import Prelude BroadcastRing RaMemory RaRing BcastRa.

#[local] Open Scope Z_scope.

(** Where a consumer's [run] is: in the loop on [running_], in the final drain, or
    returned. *)
Inductive Phase := Looping | Draining | Finished.

(** Where [main] is: serving, in the [join] of the sequencer, about to stop
    consumer [i], in its [join]. *)
Inductive StopPc := Serving | JoiningSeq | Stopping (i : nat) | Joining (i : nat).

Record DrainRa (T : Type) := mkDrain {
  dr_ring : BcastRa T;
  dr_seq : bool;               (* the sequencer's thread runs *)
  dr_main : StopPc;
  dr_vm : View;                (* the view of main's thread *)
  dr_phase : nat → Phase
}.
Arguments mkDrain {T} _ _ _ _ _.
Arguments dr_ring {T} _.
Arguments dr_seq {T} _.
Arguments dr_main {T} _.
Arguments dr_vm {T} _.
Arguments dr_phase {T} _ _.

Section DrainRa.
Context {T : Type} (Capacity consumers : nat).

(** [running_] of consumer [i]; that of the sequencer is the last. *)
Definition running_loc (i : nat) : nat := S (consumers + i).

Definition set_mem (m : Mem T) (r : BcastRa T) : BcastRa T :=
  mkBcastRa m (br_cached r) (br_vw r) (br_writer r) (br_vr r) (br_readers r) (br_published r).
Definition set_vw (v : View) (r : BcastRa T) : BcastRa T :=
  mkBcastRa (br_mem r) (br_cached r) v (br_writer r) (br_vr r) (br_readers r) (br_published r).
Definition set_vr (i : nat) (v : View) (r : BcastRa T) : BcastRa T :=
  mkBcastRa (br_mem r) (br_cached r) (br_vw r) (br_writer r) (<[i := v]> (br_vr r)) (br_readers r) (br_published r).

Definition is_idle (rd : @Reader T) : bool := match rd_pc rd with RIdle => true | _ => false end.

(** A [try_consume] that returned [false] ends the drain. *)
Definition after_consume (p : Phase) (rd : @Reader T) : Phase :=
  match p with Draining => if is_idle rd then Finished else Draining | _ => p end.

Definition writer_act (a : RaAct T) : bool :=
  match a with APublish _ _ | AScan _ | AWriter => true | _ => false end.

Inductive drain_step : DrainRa T → DrainRa T → Prop :=
| dstep_sequencer r r' mn vm ph a :
    writer_act a = true → bcast_ra_exec Capacity consumers a r = Some r' →
    drain_step (mkDrain r true mn vm ph) (mkDrain r' true mn vm ph)
| dstep_seq_running r mn vm ph k z v :
    br_writer r = WIdle → load true (running_loc consumers) k (br_mem r) (br_vw r) = Some (z, v) →
    drain_step (mkDrain r true mn vm ph) (mkDrain (set_vw v r) (negb (z =? 0)) mn vm ph)
| dstep_running r sq mn vm ph (i k : nat) z v :
    (i < consumers)%nat → ph i = Looping → is_idle (br_readers r i) = true →
    load true (running_loc i) k (br_mem r) (br_vr r i) = Some (z, v) →
    drain_step (mkDrain r sq mn vm ph)
      (mkDrain (set_vr i v r) sq mn vm (if z =? 0 then <[i := Draining]> ph else ph))
| dstep_consume r r' sq mn vm ph i k k' :
    ph i ≠ Finished → bcast_ra_exec Capacity consumers (AConsume i k k') r = Some r' →
    drain_step (mkDrain r sq mn vm ph)
      (mkDrain r' sq mn vm (<[i := after_consume (ph i) (br_readers r' i)]> ph))
| dstep_reader r r' sq mn vm ph i :
    bcast_ra_exec Capacity consumers (AReader i) r = Some r' →
    drain_step (mkDrain r sq mn vm ph) (mkDrain r' sq mn vm ph)
| dstep_stop_seq r sq vm ph m v :
    store (running_loc consumers) 0 (br_mem r) vm = (m, v) →
    drain_step (mkDrain r sq Serving vm ph) (mkDrain (set_mem m r) sq JoiningSeq v ph)
| dstep_join_seq r vm ph :
    drain_step (mkDrain r false JoiningSeq vm ph) (mkDrain r false (Stopping 0) (view_join vm (br_vw r)) ph)
| dstep_stop r sq vm ph i m v :
    (i < consumers)%nat → store (running_loc i) 0 (br_mem r) vm = (m, v) →
    drain_step (mkDrain r sq (Stopping i) vm ph) (mkDrain (set_mem m r) sq (Joining i) v ph)
| dstep_join r sq vm ph i :
    (i < consumers)%nat → ph i = Finished →
    drain_step (mkDrain r sq (Joining i) vm ph) (mkDrain r sq (Stopping (S i)) (view_join vm (br_vr r i)) ph).

(** All threads are started: [start] has set the flags. *)
Definition drain_init (dflt : T) : DrainRa T :=
  mkDrain (mkBcastRa (mem_start (λ a, if (a <=? consumers)%nat then 0 else 1) dflt) 0 bottom WIdle (λ _, bottom)
             (λ _, mkReader RIdle []) [])
    true Serving bottom (λ _, Looping).

Definition drain_reach (dflt : T) (s : DrainRa T) : Prop := rtc drain_step (drain_init dflt) s.

(** ** What steps of the ring do not touch *)

Lemma step_mem_le (r r' : BcastRa T) : bcast_ra_step Capacity consumers r r' → mem_le (br_mem r) (br_mem r').
Proof.
  destruct 1; cbn; try done.
  - by eapply na_write_le.
  - pose proof (store_le at_write (u64 (write + 1)) m v) as Hle. by rewrite H in Hle.
  - by eapply na_read_le.
  - pose proof (store_le (at_cursor i) (u64 (read + 1)) m (vr i)) as Hle. by rewrite H1 in Hle.
Qed.

Lemma step_flags (r r' : BcastRa T) a :
  bcast_ra_step Capacity consumers r r' → (consumers < a)%nat → m_msgs (br_mem r') a = m_msgs (br_mem r) a.
Proof.
  destruct 1; cbn; try done; intros Ha.
  - unfold na_write in H. destruct (write_free _ _ _ _); by simplify_eq/=.
  - unfold store in H. simplify_eq/=. by rewrite fn_lookup_insert_ne by lia.
  - unfold na_read in H1. destruct (_ =? _)%nat; by simplify_eq/=.
  - unfold store in H1. simplify_eq/=. by rewrite fn_lookup_insert_ne by lia.
Qed.

Lemma update_le (vr : nat → View) i v j :
  (va (vr i) 0 ≤ va v 0)%nat → (va (vr j) 0 ≤ va ((<[i := v]> vr : nat → View) j) 0)%nat.
Proof. intros Hle. unfold insert, fn_insert. case_decide; by subst. Qed.

Lemma step_views (r r' : BcastRa T) j :
  bcast_ra_step Capacity consumers r r' → (va (br_vr r j) at_write ≤ va (br_vr r' j) at_write)%nat.
Proof.
  destruct 1; cbn; try done; apply update_le.
  - etrans; eapply load_mono; eassumption.
  - etrans; eapply load_mono; eassumption.
  - unfold na_read in H1. destruct (_ =? _)%nat; by simplify_eq/=.
  - unfold store in H1. simplify_eq/=. by rewrite fn_lookup_insert_ne.
Qed.

(** The sequencer's thread moves nothing of the readers', and a reader nothing of
    the writer's. *)
Lemma writer_act_frame a (r r' : BcastRa T) :
  writer_act a = true → bcast_ra_exec Capacity consumers a r = Some r' →
  br_readers r' = br_readers r ∧ br_vr r' = br_vr r.
Proof.
  destruct r as [m cm v w vr rs ps]. destruct a; [| | |done|done]; intros _; cbn.
  - destruct w; try done. destruct (load _ _ _ _ _) as [[write v']|]; cbn; by intros [= <-].
  - destruct w; try done. case_guard; [|done]. cbn. destruct (load _ _ _ _ _) as [[c v']|]; cbn; by intros [= <-].
  - destruct w; [done| | |].
    + destruct (_ <=? _); by intros [= <-].
    + destruct (na_write _ _ _ _ _) as [[m' v']|]; cbn; by intros [= <-].
    + by intros [= <-].
Qed.

Lemma reader_act_frame a (r r' : BcastRa T) :
  writer_act a = false → bcast_ra_exec Capacity consumers a r = Some r' →
  br_writer r' = br_writer r ∧ br_published r' = br_published r ∧ br_vw r' = br_vw r.
Proof.
  destruct r as [m cm v w vr rs ps]. destruct a as [| | |i k k'|i]; [done|done|done| |]; intros _; cbn;
    (case_guard; [|done]); cbn; destruct (rs i) as [[|read|read out] seen]; try done.
  - destruct (load _ _ _ _ (vr i)) as [[read v1]|]; cbn; [|done].
    destruct (load _ _ _ _ v1) as [[write v2]|]; cbn; by intros [= <-].
  - destruct (na_read _ _ _ _) as [[[out m'] v']|]; cbn; by intros [= <-].
  - by intros [= <-].
Qed.

(** ** The invariant *)

Definition stopped (main : StopPc) : bool := match main with Stopping _ | Joining _ => true | _ => false end.
Definition joined (main : StopPc) : nat := match main with Stopping i | Joining i => i | _ => 0 end.

(** The thread whose view this is knows of everything published, and nothing more
    will be. *)
Definition knows_all (s : DrainRa T) (v : View) : Prop :=
  dr_seq s = false ∧ (length (br_published (dr_ring s)) ≤ va v at_write)%nat.

Record drain_ok (s : DrainRa T) : Prop := {
  dk_ring : bcast_ra_ok Capacity consumers (dr_ring s);
  dk_view : closed (br_mem (dr_ring s)) (dr_vm s) ∧ informed Capacity consumers (dr_vm s);
  dk_idle : dr_seq s = false → br_writer (dr_ring s) = WIdle;
  dk_main : stopped (dr_main s) = true → knows_all s (dr_vm s);
  dk_flags : ∀ (i k : nat) W, (i < consumers)%nat → m_msgs (br_mem (dr_ring s)) (running_loc i) !! k = Some (0, W) → knows_all s W;
  dk_phase : ∀ i, (i < consumers)%nat → dr_phase s i ≠ Looping → knows_all s (br_vr (dr_ring s) i);
  dk_finished : ∀ i, (i < consumers)%nat → dr_phase s i = Finished →
    br_readers (dr_ring s) i = mkReader RIdle (br_published (dr_ring s));
  dk_joined : ∀ i, (i < joined (dr_main s))%nat → dr_phase s i = Finished
}.

Hypothesis Hpow : pow2_capacity Capacity.

(** A step of a thread on the ring, whoever takes it. *)
Lemma ring_step_ok r r' sq mn vm ph :
  drain_ok (mkDrain r sq mn vm ph) → Z.of_nat (length (br_published r)) < 2 ^ 64 →
  bcast_ra_step Capacity consumers r r' → (sq = false → br_writer r' = br_writer r) →
  (sq = false → br_published r' = br_published r) →
  (∀ i, (i < consumers)%nat → ph i = Finished → br_readers r' i = br_readers r i) →
  drain_ok (mkDrain r' sq mn vm ph).
Proof.
  intros [Hring [Hc Hi] Hidle Hmain Hflags Hphase Hfin Hj] Hsm Hstep Hw Hp Hrd.
  assert (∀ v v', knows_all (mkDrain r sq mn vm ph) v → (va v at_write ≤ va v' at_write)%nat →
    knows_all (mkDrain r' sq mn vm ph) v') as Hknow.
  { intros v v' [Hsq Hle] Hv. split; [done|]. cbn in *. rewrite Hp by done. lia. }
  split; cbn in *.
  - by eapply bcast_ra_step_ok.
  - split; [|done]. eapply closed_mono; [by eapply step_mem_le|done].
  - intros Hsq. rewrite Hw; auto.
  - intros Hst. by eapply Hknow; [apply Hmain|].
  - intros i k W Hlt Hk. rewrite (step_flags r r') in Hk by (done || unfold running_loc; lia). by eapply Hknow; [eapply Hflags|].
  - intros i Hlt Hph. eapply Hknow; [by apply Hphase|by apply step_views].
  - intros i Hlt Hph. destruct (Hphase i Hlt) as [Hsq _]; [by rewrite Hph|]. rewrite Hrd, Hp by done. by apply Hfin.
  - done.
Qed.

(** A drain that comes up empty has read everything. *)
Lemma consume_empty_all (r r' : BcastRa T) i k k' :
  bcast_ra_ok Capacity consumers r → Z.of_nat (length (br_published r)) < 2 ^ 64 →
  (length (br_published r) ≤ va (br_vr r i) at_write)%nat →
  bcast_ra_exec Capacity consumers (AConsume i k k') r = Some r' → is_idle (br_readers r' i) = true →
  br_readers r' i = mkReader RIdle (br_published r').
Proof.
  destruct r as [m cm v w vr rs ps]. intros [Hring _ _ Hrd] Hsm Hall. cbn in *. case_guard as Hi; [|done]. cbn.
  destruct (rs i) as [[|read|read out] seen] eqn:Hrs; [|done|done].
  destruct (load _ _ _ _ (vr i)) as [[read v1]|] eqn:H1; cbn; [|done].
  destruct (load _ _ _ _ v1) as [[write v2]|] eqn:H2; cbn; [|done].
  destruct (consume_loads _ _ _ _ _ _ _ _ _ _ _ _ _ _ _ _ _ Hring Hsm Hi H1 H2) as (-> & -> & _ & Hring').
  pose proof (load_mono _ _ _ _ _ _ _ H1 at_write) as Hup. apply load_inv in H2 as (Hk & _).
  intros [= <-]. cbn. destruct (Z.leb_spec (Z.of_nat k') (Z.of_nat (rd_count (rs i)))) as [Hle|];
    [|by rewrite fn_lookup_insert].
  intros _. destruct (Hrd i Hi) as [Hseen _]. rewrite Hrs in Hseen, Hle |- *. cbn in Hseen, Hle. f_equal.
  by rewrite Hseen, take_ge by lia.
Qed.

(** A reader touches only its own position. *)
Lemma reader_act_other a (r r' : BcastRa T) i j :
  a = AReader i ∨ (∃ k k', a = AConsume i k k') → j ≠ i →
  bcast_ra_exec Capacity consumers a r = Some r' → br_readers r' j = br_readers r j.
Proof.
  destruct r as [m cm v w vr rs ps]. intros Ha Hne. destruct Ha as [->|(k & k' & ->)]; cbn;
    (case_guard; [|done]); cbn; destruct (rs i) as [[|read|read out] seen]; try done.
  - destruct (na_read _ _ _ _) as [[[out m'] v']|]; cbn; intros [= <-]. cbn. by rewrite fn_lookup_insert_ne.
  - intros [= <-]. cbn. by rewrite fn_lookup_insert_ne.
  - destruct (load _ _ _ _ (vr i)) as [[read v1]|]; cbn; [|done].
    destruct (load _ _ _ _ v1) as [[write v2]|]; cbn; intros [= <-]. cbn.
    destruct (_ <=? _); [done|]. by rewrite fn_lookup_insert_ne.
Qed.

Lemma finished_not_moving (r r' : BcastRa T) i :
  bcast_ra_exec Capacity consumers (AReader i) r = Some r' → is_idle (br_readers r i) = false.
Proof.
  destruct r as [m cm v w vr rs ps]. cbn. case_guard; [|done]. cbn. by destruct (rs i) as [[] ?].
Qed.

Lemma consume_ok r r' sq mn vm ph i k k' :
  drain_ok (mkDrain r sq mn vm ph) → Z.of_nat (length (br_published r)) < 2 ^ 64 → ph i ≠ Finished →
  bcast_ra_exec Capacity consumers (AConsume i k k') r = Some r' →
  drain_ok (mkDrain r' sq mn vm (<[i := after_consume (ph i) (br_readers r' i)]> ph)).
Proof.
  intros Hok Hsm Hph Hex. destruct (reader_act_frame (AConsume i k k') _ _ eq_refl Hex) as (Hw & Hp & _).
  assert (drain_ok (mkDrain r' sq mn vm ph)) as Hok'.
  { eapply ring_step_ok; [done|done|by eapply bcast_ra_exec_sound|done|done|].
    intros j Hj Hfin. eapply reader_act_other; [right; eauto| |done]. by intros ->. }
  assert (i < consumers)%nat as Hi.
  { destruct r. cbn in Hex. by case_guard. }
  destruct Hok' as [Hring Hv Hidle Hmain Hflags Hphase Hfin Hj]. split; cbn in *; try done.
  - intros j Hlt. unfold insert, fn_insert. case_decide as Hij; [subst j|by apply Hphase].
    intros Hne. apply Hphase; [done|]. by destruct (ph i).
  - intros j Hlt. unfold insert, fn_insert. case_decide as Hij; [subst j|by apply Hfin].
    destruct (ph i) eqn:Hpi; cbn; [done| |done]. destruct (is_idle (br_readers r' i)) eqn:Hid; [|done]. intros _.
    eapply consume_empty_all; [apply Hok|done| |done|done].
    by destruct (dk_phase _ Hok i Hi) as [_ Hle]; [cbn; rewrite Hpi|].
  - intros j Hlt. unfold insert, fn_insert. case_decide as Hij; [subst j|by apply Hj].
    by rewrite (Hj i Hlt) in Hph.
Qed.

Lemma reader_ok_act r r' sq mn vm ph i :
  drain_ok (mkDrain r sq mn vm ph) → Z.of_nat (length (br_published r)) < 2 ^ 64 →
  bcast_ra_exec Capacity consumers (AReader i) r = Some r' → drain_ok (mkDrain r' sq mn vm ph).
Proof.
  intros Hok Hsm Hex. destruct (reader_act_frame (AReader i) _ _ eq_refl Hex) as (Hw & Hp & _).
  eapply ring_step_ok; [done|done|by eapply bcast_ra_exec_sound|done|done|].
  intros j Hj Hfin. destruct (decide (j = i)) as [->|Hne]; [|by eapply reader_act_other; [left| |]].
  pose proof (finished_not_moving _ _ _ Hex) as Hid. pose proof (dk_finished _ Hok i Hj Hfin) as Hrd. cbn in Hrd.
  by rewrite Hrd in Hid.
Qed.

(** The sequencer looks at its flag. *)
Lemma seq_running_ok r mn vm ph k z v :
  drain_ok (mkDrain r true mn vm ph) → br_writer r = WIdle →
  load true (running_loc consumers) k (br_mem r) (br_vw r) = Some (z, v) →
  drain_ok (mkDrain (set_vw v r) (negb (z =? 0)) mn vm ph).
Proof.
  intros [[Hring [Hcm Hseen] Hwr Hrd] Hv Hidle Hmain Hflags Hphase Hfin Hj] Hw Hl. cbn in *.
  pose proof (load_mono _ _ _ _ _ _ _ Hl) as Hup.
  destruct (writer_acquires Capacity _ consumers (le_n _) _ _ _ _ _ _ _ _ _ _ (running_loc consumers) _ _ _ ltac:(done) Hring Hl)
    as (Hring' & _).
  split; cbn; try done.
  - split; cbn; [done| |by rewrite Hw|done]. split; [done|by eapply seen_from_mono].
  - intros Hst. by destruct (Hmain Hst).
  - intros i k' W Hi Hk. by destruct (Hflags i k' W Hi Hk).
  - intros i Hi Hne. by destruct (Hphase i Hi Hne).
Qed.

(** A consumer looks at its flag: if it is down, everything published is known. *)
Lemma running_ok r sq mn vm ph (i k : nat) z v :
  drain_ok (mkDrain r sq mn vm ph) → (i < consumers)%nat → ph i = Looping → is_idle (br_readers r i) = true →
  load true (running_loc i) k (br_mem r) (br_vr r i) = Some (z, v) →
  drain_ok (mkDrain (set_vr i v r) sq mn vm (if z =? 0 then <[i := Draining]> ph else ph)).
Proof.
  intros [[Hring Hcm Hwr Hrd] Hv Hidle Hmain Hflags Hphase Hfin Hj] Hi Hph Hid Hl. cbn in *.
  destruct (reader_acquires Capacity _ consumers (le_n _) _ _ _ _ _ _ _ _ _ _ i (running_loc i) _ _ _ Hi Hring Hl)
    as (Hring' & _ & W & Hmsg & HW).
  assert (∀ j p, (if z =? 0 then <[i := Draining]> ph else ph : nat → Phase) j = p → p ≠ Looping →
    j = i ∧ p = Draining ∧ z = 0 ∨ j ≠ i ∧ ph j = p) as Hph'.
  { intros j p. destruct (Z.eqb_spec z 0) as [->|]; [unfold insert, fn_insert; case_decide; subst; auto|].
    intros <- Hne. right. split; [congruence|done]. }
  split; cbn; try done.
  - split; cbn; try done. intros j Hlt. unfold insert, fn_insert. case_decide as Hij; [subst j|by apply Hrd].
    destruct (Hrd i Hlt) as [Hseen _]. unfold is_idle in Hid. split; [done|]. by destruct (rd_pc (br_readers r i)).
  - intros j Hlt Hne. destruct (Hph' j _ eq_refl Hne) as [(-> & _ & ->)|[Hji Hpj]].
    + destruct (Hflags i k W Hi Hmsg) as [Hsq Hle]. split; [done|]. cbn in *. rewrite fn_lookup_insert.
      specialize (HW at_write). lia.
    + rewrite <-Hpj in Hne. destruct (Hphase j Hlt Hne) as [Hsq Hle]. split; [done|]. cbn in *. by rewrite fn_lookup_insert_ne.
  - intros j Hlt Hpj. destruct (Hph' j _ Hpj ltac:(done)) as [(_ & ? & _)|[_ ?]]; [done|auto].
  - intros j Hlt. specialize (Hj j Hlt). destruct (decide (j = i)) as [->|Hne]; [congruence|].
    destruct (z =? 0); [by rewrite fn_lookup_insert_ne|done].
Qed.

(** [main] lowers a flag. *)
Lemma lower_ok r sq mn mn' vm ph i m v :
  drain_ok (mkDrain r sq mn vm ph) → (i ≤ consumers)%nat →
  ((i < consumers)%nat → stopped mn = true) → stopped mn' = stopped mn → joined mn' = joined mn →
  store (running_loc i) 0 (br_mem r) vm = (m, v) → drain_ok (mkDrain (set_mem m r) sq mn' v ph).
Proof.
  intros [[Hring Hcm Hwr Hrd] [Hc Hi] Hidle Hmain Hflags Hphase Hfin Hj] Hle Hst Hs' Hj' Hstore. cbn in *.
  pose proof (other_store Capacity _ consumers (le_n _) _ _ _ _ _ _ _ _ _ _ (running_loc i) 0 vm ltac:(unfold running_loc; lia) Hring Hc Hi) as Hok.
  assert (va v at_write = va vm at_write) as Hva.
  { unfold store in Hstore. injection Hstore as _ <-. cbn. by rewrite fn_lookup_insert_ne. }
  pose proof (store_lookup (running_loc i) 0 (br_mem r) vm) as Hmsg. rewrite Hstore in Hok, Hmsg. cbn [fst snd] in Hmsg.
  destruct Hok as (Hring' & Hc' & Hi').
  split; cbn; try done.
  - rewrite Hs'. intros Hs. destruct (Hmain Hs) as [Hsq Hn]. split; [done|]. cbn in *. lia.
  - intros j k W Hlt [Hk|(Heq & _ & _ & ->)]%Hmsg; [by eapply (Hflags j k W)|].
    destruct (Hmain (Hst ltac:(unfold running_loc in Heq; lia))) as [Hsq Hn]. split; [done|]. cbn in *. lia.
  - rewrite Hj'. done.
Qed.

(** [main] joins a thread and knows what that thread knew. *)
Lemma join_ok r sq mn mn' vm v ph :
  drain_ok (mkDrain r sq mn vm ph) → closed (br_mem r) v → informed Capacity consumers v →
  (stopped mn' = true → sq = false ∧ (length (br_published r) ≤ va (view_join vm v) at_write)%nat) →
  (∀ i, (i < joined mn')%nat → ph i = Finished) → drain_ok (mkDrain r sq mn' (view_join vm v) ph).
Proof.
  intros [Hring [Hc Hi] Hidle Hmain Hflags Hphase Hfin Hj] Hcv Hiv Hst Hjn. split; cbn in *; try done.
  split; [by apply closed_join|by eapply (informed_join _ Capacity)].
Qed.

Lemma drain_step_ok s s' :
  drain_step s s' → Z.of_nat (length (br_published (dr_ring s))) < 2 ^ 64 → drain_ok s → drain_ok s'.
Proof.
  intros Hstep Hsm Hok. destruct Hstep; cbn in Hsm.
  - destruct (writer_act_frame _ _ _ H H0) as [Hrd _].
    eapply ring_step_ok; [done|done|by eapply bcast_ra_exec_sound|done|done|]. intros i _ _. by rewrite Hrd.
  - by eapply seq_running_ok.
  - by eapply running_ok.
  - by eapply consume_ok.
  - by eapply reader_ok_act.
  - by eapply (lower_ok _ _ _ _ _ _ consumers); [done|done|lia|..].
  - destruct (bk_ring _ _ _ (dk_ring _ Hok)) as [_ Hw _]. cbn in Hw.
    eapply join_ok; [done|apply Hw|apply Hw| |intros i Hi; cbn in Hi; lia].
    intros _. split; [done|]. cbn. rewrite (wo_cursor _ _ _ _ _ _ _ Hw). lia.
  - eapply lower_ok; [done| |done|done|done|done]. lia.
  - destruct (bk_ring _ _ _ (dk_ring _ Hok)) as [_ _ Hr]. specialize (Hr i H). cbn in Hr.
    eapply join_ok; [done|apply Hr|apply Hr| |].
    + intros _. destruct (dk_main _ Hok eq_refl) as [Hsq Hle]. split; [done|]. cbn in *. lia.
    + intros j Hj. cbn in Hj. destruct (decide (j = i)) as [->|]; [done|]. apply (dk_joined _ Hok). cbn. lia.
Qed.

Lemma drain_step_published s s' :
  drain_step s s' → (length (br_published (dr_ring s)) ≤ length (br_published (dr_ring s')))%nat.
Proof.
  assert (∀ a (r r' : BcastRa T), bcast_ra_exec Capacity consumers a r = Some r' →
    (length (br_published r) ≤ length (br_published r'))%nat) as Hex.
  { intros a r r' Hr%bcast_ra_exec_sound. by eapply bcast_ra_step_published. }
  destruct 1; cbn; eauto.
Qed.

Lemma drain_init_ok dflt : drain_ok (drain_init dflt).
Proof.
  split; cbn; try done.
  - split; cbn; try done.
    apply ring_start; [done|done|]. intros i Hi. by rewrite (proj2 (Nat.leb_le (S i) consumers)) by lia.
  - split; split; cbn; unfold cnt; cbn; lia.
  - intros i k W Hi Hk. apply list_lookup_singleton_Some in Hk as [-> [= Hz _]].
    pose proof (proj2 (Nat.leb_gt (running_loc i) consumers) ltac:(unfold running_loc; lia)) as Hf. cbn in Hf. by rewrite Hf in Hz.
  - intros i Hi. lia.
Qed.

Lemma drain_reach_ok dflt s :
  drain_reach dflt s → Z.of_nat (length (br_published (dr_ring s))) < 2 ^ 64 → drain_ok s.
Proof.
  revert s. apply (rtc_ind_r (λ s, Z.of_nat (length (br_published (dr_ring s))) < 2 ^ 64 → drain_ok s)).
  - intros _. apply drain_init_ok.
  - intros s1 s2 Hr Hstep IH Hlim. pose proof (drain_step_published _ _ Hstep).
    eapply drain_step_ok; [done| |apply IH]; lia.
Qed.

(** C16: The final drain of a consumer is complete, with the release/acquire orders
    of the code and however stale its loads are: a consumer whose [run] has returned
    has read exactly what the sequencer published, the sequencer's thread has
    ended, and nothing will be added; and when [main] has joined the consumers,
    all of them have read the whole stream. *)
Theorem drain_complete dflt s :
  drain_reach dflt s → Z.of_nat (length (br_published (dr_ring s))) < 2 ^ 64 →
  (∀ i, (i < consumers)%nat → dr_phase s i = Finished →
     br_readers (dr_ring s) i = mkReader RIdle (br_published (dr_ring s)) ∧
     dr_seq s = false ∧ br_writer (dr_ring s) = WIdle) ∧
  (dr_main s = Stopping consumers →
     ∀ i, (i < consumers)%nat → rd_seen (br_readers (dr_ring s) i) = br_published (dr_ring s)).
Proof.
  intros Hr Hlim. pose proof (drain_reach_ok dflt s Hr Hlim) as Hok. split.
  - intros i Hi Hfin. destruct (dk_phase s Hok i Hi) as [Hsq _]; [by rewrite Hfin|].
    split_and!; [by apply dk_finished|done|by apply dk_idle].
  - intros Hmain i Hi. rewrite (dk_finished s Hok i Hi); [done|]. apply (dk_joined s Hok). by rewrite Hmain.
Qed.

(** ** Schedules, executed *)

Inductive DrainAct :=
| DSequencer (a : RaAct T)
| DSeqFlag (k : nat)
| DFlag (i k : nat)
| DConsume (i k k' : nat)
| DReader (i : nat)
| DMain.

Definition main_moves (s : DrainRa T) : option (DrainRa T) :=
  let 'mkDrain r sq mn vm ph := s in
  match mn with
  | Serving => let '(m, v) := store (running_loc consumers) 0 (br_mem r) vm in Some (mkDrain (set_mem m r) sq JoiningSeq v ph)
  | JoiningSeq => if sq then None else Some (mkDrain r false (Stopping 0) (view_join vm (br_vw r)) ph)
  | Stopping i =>
      guard (i < consumers)%nat;;
      let '(m, v) := store (running_loc i) 0 (br_mem r) vm in Some (mkDrain (set_mem m r) sq (Joining i) v ph)
  | Joining i =>
      guard (i < consumers)%nat;;
      match ph i with Finished => Some (mkDrain r sq (Stopping (S i)) (view_join vm (br_vr r i)) ph) | _ => None end
  end.

Definition drain_exec (a : DrainAct) (s : DrainRa T) : option (DrainRa T) :=
  let 'mkDrain r sq mn vm ph := s in
  match a with
  | DSequencer a =>
      if sq && writer_act a then r' ← bcast_ra_exec Capacity consumers a r; Some (mkDrain r' true mn vm ph) else None
  | DSeqFlag k =>
      match sq, br_writer r with
      | true, WIdle =>
          '(z, v) ← load true (running_loc consumers) k (br_mem r) (br_vw r);
          Some (mkDrain (set_vw v r) (negb (z =? 0)) mn vm ph)
      | _, _ => None
      end
  | DFlag i k =>
      guard (i < consumers)%nat;;
      match ph i, is_idle (br_readers r i) with
      | Looping, true =>
          '(z, v) ← load true (running_loc i) k (br_mem r) (br_vr r i);
          Some (mkDrain (set_vr i v r) sq mn vm (if z =? 0 then <[i := Draining]> ph else ph))
      | _, _ => None
      end
  | DConsume i k k' =>
      match ph i with
      | Finished => None
      | p => r' ← bcast_ra_exec Capacity consumers (AConsume i k k') r;
             Some (mkDrain r' sq mn vm (<[i := after_consume p (br_readers r' i)]> ph))
      end
  | DReader i => r' ← bcast_ra_exec Capacity consumers (AReader i) r; Some (mkDrain r' sq mn vm ph)
  | DMain => main_moves s
  end.

Lemma main_moves_sound s s' : main_moves s = Some s' → drain_step s s'.
Proof.
  destruct s as [r sq mn vm ph]. destruct mn as [| |i|i]; cbn [main_moves].
  - intros [= <-]. by eapply dstep_stop_seq.
  - destruct sq; [done|]. intros [= <-]. apply dstep_join_seq.
  - case_guard; [|done]. intros [= <-]. by eapply dstep_stop.
  - case_guard; [|done]. cbn [mbind option_bind]. destruct (ph i) eqn:Hp; try done. intros [= <-]. by apply dstep_join.
Qed.

Lemma drain_exec_sound a s s' : drain_exec a s = Some s' → drain_step s s'.
Proof.
  destruct s as [r sq mn vm ph]. destruct a as [a|k|i k|i k k'|i|]; cbn [drain_exec].
  - destruct sq; cbn [andb]; [|done]. destruct (writer_act a) eqn:Ha; [|done].
    destruct (bcast_ra_exec _ _ _ _) eqn:Hr; cbn [mbind option_bind]; [|done]. intros [= <-]. by eapply dstep_sequencer.
  - destruct sq; [|done]. destruct (br_writer r) eqn:Hw; try done.
    destruct (load _ _ _ _ _) as [[z v]|] eqn:Hl; cbn [mbind option_bind]; [|done]. intros [= <-]. by eapply dstep_seq_running.
  - case_guard; [|done]. cbn [mbind option_bind]. destruct (ph i) eqn:Hp; try done.
    destruct (is_idle _) eqn:Hid; [|done].
    destruct (load _ _ _ _ _) as [[z v]|] eqn:Hl; cbn [mbind option_bind]; [|done]. intros [= <-]. by eapply dstep_running.
  - destruct (ph i) eqn:Hp; try done;
      (destruct (bcast_ra_exec _ _ _ _) eqn:Hr; cbn [mbind option_bind]; [|done]);
      intros [= <-]; pose proof (dstep_consume r b sq mn vm ph i k k') as Hstep; rewrite Hp in Hstep; by apply Hstep.
  - destruct (bcast_ra_exec _ _ _ _) eqn:Hr; cbn [mbind option_bind]; [|done]. intros [= <-]. by eapply dstep_reader.
  - apply main_moves_sound.
Qed.
End DrainRa.

(** Two items, one consumer.  The consumer misses the second one at first, because
    its load of [write_cursor_] is stale, then sees its flag down and drains. *)
Definition drain_demo : list (DrainAct (T := Z)) :=
  [DSequencer (APublish 7 0); DSequencer AWriter; DSequencer AWriter; DFlag 0 0; DConsume 0 0 1; DReader 0; DReader 0;
   DSequencer (APublish 8 1); DSequencer AWriter; DSequencer AWriter; DConsume 0 1 1;
   DMain; DSeqFlag 0; DSeqFlag 1; DMain; DMain; DFlag 0 0; DFlag 0 1; DConsume 0 1 2; DReader 0; DReader 0;
   DConsume 0 2 2; DMain].

Lemma drain_demo_reach :
  ∃ s : DrainRa Z, drain_reach 2 1 0 s ∧ (br_published (dr_ring s), dr_main s) = ([7; 8], Stopping 1).
Proof. apply (run_acts_reach _ _ (drain_exec_sound 2 1)) with (acts := drain_demo). vm_compute. reflexivity. Qed.

Lemma drain_complete_witness :
  ∃ s : DrainRa Z, drain_reach 2 1 0 s ∧ rd_seen (br_readers (dr_ring s) 0%nat) = [7; 8].
Proof.
  destruct drain_demo_reach as (s & Hr & [= Hps Hm]). exists s. split; [done|]. rewrite <-Hps.
  destruct (drain_complete 2 1 pow2_capacity_2 0 s Hr) as [_ Hall]; [by rewrite Hps|].
  apply (Hall Hm). lia.
Defined.
