(* ===== verification/Consumer.v ===== *)
(** * Consumer: the loop every ring consumer runs

    [MatchingEngineConsumer::run], [WalConsumer::run] and the ring half of
    [DbConsumer::run] are one loop: batches of at most 32 events while the
    running flag is up, then a final drain.  It is modelled once, over what the
    consumer does with an event, at the end of a pass and on the way out. *)

From S2P Require Import Prelude Types BroadcastRing.

Section Consumer.
Context {E B : Type} `{Broadcast B SequencedEvent} (consumer_id : nat).
Context (handle : SequencedEvent → E → option E) (after_pass at_exit : E → option E).

(** [for (int i = 0; i < 32 && ring_.try_consume(consumer_id_, ev); ++i)],
    [k] iterations left. *)
Fixpoint consume_batch (k : nat) (b : B) (e : E) : option (B * E) :=
  match k with
  | O => Some (b, e)
  | S k =>
      '(r, b') ← bc_consume consumer_id b;
      match r with
      | None => Some (b', e)
      | Some ev => e' ← handle ev e; consume_batch k b' e'
      end
  end.

(** [while (ring_.try_consume(consumer_id_, ev))]. *)
Fixpoint consume_all (fuel : nat) (b : B) (e : E) : option (B * E) :=
  match fuel with
  | O => None
  | S fuel =>
      '(r, b') ← bc_consume consumer_id b;
      match r with
      | None => Some (b', e)
      | Some ev => e' ← handle ev e; consume_all fuel b' e'
      end
  end.

(** [running n] is what [running_.load()] returns on pass [n]; [passes] bounds
    the number of passes and [fuel] the final drain. *)
Fixpoint consumer_run (passes fuel : nat) (n : nat) (running : nat → bool) (b : B) (e : E)
    : option (B * E) :=
  match passes with
  | O => None
  | S passes =>
      if running n then
        '(b', e') ← consume_batch 32 b e;
        e'' ← after_pass e';
        consumer_run passes fuel (S n) running b' e''
      else
        '(b', e') ← consume_all fuel b e;
        e'' ← at_exit e';
        Some (b', e'')
  end.

(** ** Correctness

    [P l e]: the consumer in state [e] has handled exactly [l].  [R l e]: the
    same, after the way out. *)

Context `{!BroadcastLaws B SequencedEvent} (hist : list SequencedEvent).
Context (P R : list SequencedEvent → E → Prop).

Hypothesis handle_ok : ∀ l ev e,
  (l ++ [ev]) `prefix_of` hist → P l e → ∃ e', handle ev e = Some e' ∧ P (l ++ [ev]) e'.
Hypothesis pass_ok : ∀ l e, P l e → ∃ e', after_pass e = Some e' ∧ P l e'.
Hypothesis exit_ok : ∀ l e, P l e → ∃ e', at_exit e = Some e' ∧ R l e'.

(** One [try_consume]: the next event, or none left. *)
Lemma consume_step b cs c :
  bc_rep b hist cs → cs !! consumer_id = Some c →
  (∃ ev b', bc_consume consumer_id b = Some (Some ev, b') ∧
     take (S c) hist = take c hist ++ [ev] ∧ c < length hist ∧
     bc_rep b' hist (<[consumer_id := S c]> cs) ∧
     <[consumer_id := S c]> cs !! consumer_id = Some (S c)) ∨
  (bc_consume consumer_id b = Some (None, b) ∧ c = length hist).
Proof.
  intros Hrep Hc. pose proof (bc_consume_law b hist cs consumer_id c Hrep Hc) as Hlaw.
  destruct (hist !! c) as [ev|] eqn:Hx.
  - left. destruct Hlaw as (b' & Hb & Hrep'). exists ev, b'.
    split_and!; [done|by apply take_S_r|by eapply lookup_lt_Some|done|].
    apply list_lookup_insert_eq. by eapply lookup_lt_Some.
  - right. split; [done|]. apply lookup_ge_None in Hx.
    pose proof (bc_cursors_law b hist cs Hrep) as Hcs. eapply Forall_lookup_1 in Hcs; [|exact Hc].
    cbn in Hcs. lia.
Qed.

Lemma consume_batch_spec : ∀ k b cs c e,
  bc_rep b hist cs → cs !! consumer_id = Some c → P (take c hist) e →
  ∃ b' c' e', consume_batch k b e = Some (b', e') ∧
    bc_rep b' hist (<[consumer_id := c']> cs) ∧ P (take c' hist) e'.
Proof.
  induction k as [|k IH]; intros b cs c e Hrep Hc HP; cbn [consume_batch].
  { exists b, c, e. by rewrite list_insert_id. }
  destruct (consume_step b cs c Hrep Hc) as [(ev & b1 & -> & Ht & Hlt & Hrep1 & Hc1)|[-> ->]]; cbn.
  - destruct (handle_ok (take c hist) ev e) as (e1 & -> & HP1); [rewrite <-Ht; apply prefix_take|done|].
    cbn. rewrite <-Ht in HP1. destruct (IH b1 _ _ e1 Hrep1 Hc1 HP1) as (b2 & c2 & e2 & H2 & Hrep2 & HP2).
    exists b2, c2, e2. by rewrite list_insert_insert_eq in Hrep2.
  - exists b, (length hist), e. by rewrite list_insert_id.
Qed.

Lemma consume_all_spec : ∀ fuel b cs c e,
  bc_rep b hist cs → cs !! consumer_id = Some c → length hist - c < fuel → P (take c hist) e →
  ∃ b' e', consume_all fuel b e = Some (b', e') ∧
    bc_rep b' hist (<[consumer_id := length hist]> cs) ∧ P hist e'.
Proof.
  induction fuel as [|fuel IH]; intros b cs c e Hrep Hc Hf HP; [lia|]. cbn [consume_all].
  destruct (consume_step b cs c Hrep Hc) as [(ev & b1 & -> & Ht & Hlt & Hrep1 & Hc1)|[-> ->]]; cbn.
  - destruct (handle_ok (take c hist) ev e) as (e1 & -> & HP1); [rewrite <-Ht; apply prefix_take|done|].
    cbn. rewrite <-Ht in HP1.
    destruct (IH b1 _ _ e1 Hrep1 Hc1) as (b2 & e2 & H2 & Hrep2 & HP2); [lia|done|].
    exists b2, e2. by rewrite list_insert_insert_eq in Hrep2.
  - rewrite firstn_all in HP. exists b, e. by rewrite list_insert_id.
Qed.

(** However long the flag stays up, the whole stream is handled, once and in
    order, before the loop returns. *)
Lemma consumer_run_spec running : ∀ passes n m fuel b cs c e,
  n ≤ m < n + passes → running m = false → length hist < fuel →
  bc_rep b hist cs → cs !! consumer_id = Some c → P (take c hist) e →
  ∃ b' e', consumer_run passes fuel n running b e = Some (b', e') ∧
    bc_rep b' hist (<[consumer_id := length hist]> cs) ∧ R hist e'.
Proof.
  induction passes as [|passes IH]; intros n m fuel b cs c e Hm Hrun Hfuel Hrep Hc HP; [lia|].
  cbn [consumer_run]. destruct (running n) eqn:Hn.
  - destruct (consume_batch_spec 32 b cs c e Hrep Hc HP) as (b1 & c1 & e1 & -> & Hrep1 & HP1).
    cbn [mbind option_bind]. destruct (pass_ok _ _ HP1) as (e2 & -> & HP2). cbn [mbind option_bind].
    destruct (IH (S n) m fuel b1 (<[consumer_id := c1]> cs) c1 e2) as (b3 & e3 & H3 & Hrep3 & HR);
      try done.
    { destruct (decide (n = m)) as [->|]; [congruence|lia]. }
    { apply list_lookup_insert_eq. by eapply lookup_lt_Some. }
    exists b3, e3. by rewrite list_insert_insert_eq in Hrep3.
  - destruct (consume_all_spec fuel b cs c e Hrep Hc) as (b1 & e1 & -> & Hrep1 & HP1); [lia|done|].
    cbn [mbind option_bind]. destruct (exit_ok _ _ HP1) as (e2 & -> & HR). cbn. eauto.
Qed.

End Consumer.
