(* ===== verification/Sequencer.v ===== *)
(** * Sequencer: one total order out of three input queues

    Models [include/sequencer.hpp].  [seq_step] is one step of the thread that
    runs [Sequencer::run]: the control point [SeqPc] is the position in its
    nested loops.  [sys_step] puts the thread beside the producers that push to
    the input queues and the consumers that read the output ring.  The queues
    are any [Fifo] and the ring is any [Broadcast], so the theorems hold of
    every implementation of the two interfaces; the witnesses use the real
    ones. *)

From S2P Require Import Prelude Types SpscRing BroadcastRing.

#[local] Open Scope Z_scope.

Definition kMaxBatch : nat := 32.

(** [static_cast<ProducerId>(p)] for a loop index [p < Count]. *)
Definition producer_of (p : nat) : ProducerId :=
  match p with O => Gateway | S O => FeedReplay | _ => Admin end.

Definition stamp (seq now : Z) (p : nat) (ev : SequencedEvent) : SequencedEvent :=
  mkEvent seq (ev_ingress_ts ev) now (ev_type ev) (producer_of p) (ev_session ev)
          (ev_client_order_id ev) (ev_side_byte ev) (ev_price ev) (ev_quantity ev).

(** Where [run] is: at the loop condition of a pass, inside the batch loop of
    producer [p], spinning on [try_publish], or returned. *)
Inductive SeqPc :=
| SqPass
| SqBatch (p i : nat)
| SqPublish (p i : nat) (ev : SequencedEvent)
| SqDone.

Record Sequencer (Q B : Type) := mkSequencer {
  inputs_ : list Q;
  output_ : B;
  next_seq_ : Z;
  publish_stalls_ : Z;
  running_ : bool;
  sq_pc : SeqPc
}.
Arguments mkSequencer {Q B} _ _ _ _ _ _.
Arguments inputs_ {Q B} _.
Arguments output_ {Q B} _.
Arguments next_seq_ {Q B} _.
Arguments publish_stalls_ {Q B} _.
Arguments running_ {Q B} _.
Arguments sq_pc {Q B} _.

Section Sequencer.
Context {Q B : Type} `{Fifo Q SequencedEvent} `{Broadcast B SequencedEvent}.

(** [now_ns()] reads a hardware counter, once per event: [now_ns k] is the
    reading taken for the event numbered [k]. *)
Context (now_ns : Z → Z).

Definition set_pc (pc : SeqPc) (s : Sequencer Q B) : Sequencer Q B :=
  mkSequencer (inputs_ s) (output_ s) (next_seq_ s) (publish_stalls_ s) (running_ s) pc.

Definition seq_step (s : Sequencer Q B) : option (Sequencer Q B) :=
  match sq_pc s with
  | SqPass => Some (set_pc (if running_ s then SqBatch 0 0 else SqDone) s)
  | SqBatch p i =>
      if (p <? producer_count)%nat then
        if (i <? kMaxBatch)%nat then
          q ← inputs_ s !! p;
          '(r, q') ← fifo_pop q;
          let inputs := <[p := q']> (inputs_ s) in
          match r with
          | None => Some (mkSequencer inputs (output_ s) (next_seq_ s) (publish_stalls_ s)
                            (running_ s) (SqBatch (S p) 0))
          | Some ev =>
              let seq := next_seq_ s in
              Some (mkSequencer inputs (output_ s) (u64 (seq + 1)) (publish_stalls_ s)
                      (running_ s) (SqPublish p i (stamp seq (now_ns seq) p ev)))
          end
        else Some (set_pc (SqBatch (S p) 0) s)
      else Some (set_pc SqPass s)
  | SqPublish p i ev =>
      '(ok, out) ← bc_publish ev (output_ s);
      Some (if ok : bool
            then mkSequencer (inputs_ s) out (next_seq_ s) (publish_stalls_ s) (running_ s)
                   (SqBatch p (S i))
            else mkSequencer (inputs_ s) out (next_seq_ s) (u64 (publish_stalls_ s + 1))
                   (running_ s) (SqPublish p i ev))
  | SqDone => None
  end.

(** [stop()]. *)
Definition seq_stop (s : Sequencer Q B) : Sequencer Q B :=
  mkSequencer (inputs_ s) (output_ s) (next_seq_ s) (publish_stalls_ s) false (sq_pc s).

Definition seq_new (inputs : list Q) (output : B) : Sequencer Q B :=
  mkSequencer inputs output 1 0 true SqPass.

(** ** The whole pipeline

    [sy_pushed !! p] is what producer [p] has pushed, [sy_published] what the
    sequencer has published and [sy_seen !! i] what consumer [i] has read. *)

Record SeqSys := mkSys {
  sy_seq : Sequencer Q B;
  sy_pushed : list (list SequencedEvent);
  sy_published : list SequencedEvent;
  sy_seen : list (list SequencedEvent)
}.

(** The event that a thread step has published, if any. *)
Definition emitted (s s' : Sequencer Q B) : list SequencedEvent :=
  match sq_pc s, sq_pc s' with
  | SqPublish _ _ ev, SqBatch _ _ => [ev]
  | _, _ => []
  end.

Definition set_input (p : nat) (q : Q) (s : Sequencer Q B) : Sequencer Q B :=
  mkSequencer (<[p := q]> (inputs_ s)) (output_ s) (next_seq_ s) (publish_stalls_ s)
    (running_ s) (sq_pc s).
Definition set_output (b : B) (s : Sequencer Q B) : Sequencer Q B :=
  mkSequencer (inputs_ s) b (next_seq_ s) (publish_stalls_ s) (running_ s) (sq_pc s).

Inductive sys_step : SeqSys → SeqSys → Prop :=
| sys_thread s s' ps pub seen :
    seq_step s = Some s' →
    sys_step (mkSys s ps pub seen) (mkSys s' ps (pub ++ emitted s s') seen)
| sys_produce s ps pub seen p q q' l ev :
    inputs_ s !! p = Some q → fifo_push ev q = Some (true, q') → ps !! p = Some l →
    sys_step (mkSys s ps pub seen) (mkSys (set_input p q' s) (<[p := l ++ [ev]]> ps) pub seen)
| sys_consume s ps pub seen i l ev b' :
    seen !! i = Some l → bc_consume i (output_ s) = Some (Some ev, b') →
    sys_step (mkSys s ps pub seen) (mkSys (set_output b' s) ps pub (<[i := l ++ [ev]]> seen))
| sys_stop s ps pub seen :
    sys_step (mkSys s ps pub seen) (mkSys (seq_stop s) ps pub seen).

Definition sys_init (inputs : list Q) (output : B) (n : nat) : SeqSys :=
  mkSys (seq_new inputs output) (replicate (length inputs) []) [] (replicate n []).

(** ** What the sequencer maintains *)

(** The fields the sequencer passes through unchanged. *)
Definition payload (ev : SequencedEvent) :=
  (ev_ingress_ts ev, ev_type ev, ev_session ev, ev_client_order_id ev,
   ev_side_byte ev, ev_price ev, ev_quantity ev).

(** The event popped but not yet published. *)
Definition in_flight (s : Sequencer Q B) : list SequencedEvent :=
  match sq_pc s with SqPublish _ _ ev => [ev] | _ => [] end.

Definition from (p : nat) (l : list SequencedEvent) : list SequencedEvent :=
  filter (λ ev, ev_producer ev = producer_of p) l.

#[local] Arguments from : simpl never.

Definition numbered (l : list SequencedEvent) : Prop :=
  ∀ i ev, l !! i = Some ev → ev_seq_num ev = Z.of_nat i + 1.

Lemma numbered_app l ev :
  numbered l → ev_seq_num ev = Z.of_nat (length l) + 1 → numbered (l ++ [ev]).
Proof.
  intros Hl Hev i e [Hi|[Hge Hi]]%lookup_app_Some; [by apply Hl|].
  apply list_lookup_singleton_Some in Hi as [Hz <-]. rewrite Hev. lia.
Qed.

Lemma from_app p l1 l2 : from p (l1 ++ l2) = from p l1 ++ from p l2.
Proof. apply filter_app. Qed.

Lemma from_stamp p p' seq now ev :
  (p < producer_count)%nat → (p' < producer_count)%nat →
  from p [stamp seq now p' ev] = if decide (p = p') then [stamp seq now p' ev] else [].
Proof.
  intros Hp Hp'. unfold from. rewrite filter_cons, filter_nil. cbn.
  unfold producer_count in *. destruct p as [|[|[|]]], p' as [|[|[|]]]; (reflexivity || lia).
Qed.

Definition pc_ok (pc : SeqPc) : Prop :=
  match pc with
  | SqPublish p i _ => (p < producer_count ∧ i < kMaxBatch)%nat
  | SqBatch p i => (p ≤ producer_count ∧ i ≤ kMaxBatch)%nat
  | _ => True
  end.

Record sys_ok (y : SeqSys) (qs : list (list SequencedEvent)) : Prop := {
  so_inputs : Forall2 fifo_rep (inputs_ (sy_seq y)) qs;
  so_count : length qs = producer_count ∧ length (sy_pushed y) = producer_count;
  so_output : bc_rep (output_ (sy_seq y)) (sy_published y) (length <$> sy_seen y);
  so_seen : Forall (λ l, l = take (length l) (sy_published y)) (sy_seen y);
  so_pc : pc_ok (sq_pc (sy_seq y));
  so_numbered : numbered (sy_published y ++ in_flight (sy_seq y));
  so_next : next_seq_ (sy_seq y) =
            Z.of_nat (length (sy_published y ++ in_flight (sy_seq y))) + 1;
  so_fifo : ∀ p ps l, sy_pushed y !! p = Some ps → qs !! p = Some l →
    payload <$> ps = (payload <$> from p (sy_published y ++ in_flight (sy_seq y))) ++ (payload <$> l)
}.

Context `{!FifoLaws Q SequencedEvent} `{!BroadcastLaws B SequencedEvent}.

(** [uint64_t] event numbers do not wrap before the ring's cursors do. *)
Definition below_limit (n : nat) : Prop :=
  Z.of_nat n < bc_limit - 1 ∧ bc_limit ≤ 2 ^ 64 - 1.

Lemma sys_pop_ok s ps pub seen qs p i q q' ev :
  sys_ok (mkSys s ps pub seen) qs → below_limit (length pub) →
  sq_pc s = SqBatch p i → (p < producer_count)%nat → (i < kMaxBatch)%nat →
  inputs_ s !! p = Some q → fifo_pop q = Some (Some ev, q') →
  ∃ qs', sys_ok (mkSys (mkSequencer (<[p := q']> (inputs_ s)) (output_ s) (u64 (next_seq_ s + 1))
                   (publish_stalls_ s) (running_ s)
                   (SqPublish p i (stamp (next_seq_ s) (now_ns (next_seq_ s)) p ev)))
                 ps pub seen) qs'.
Proof.
  intros [Hin Hcnt Hout Hseen Hpc Hnum Hnext Hfifo] [Hl1 Hl2] Epc Hp Hi Hq Hpop. cbn in *.
  unfold in_flight in *. rewrite Epc in *. rewrite app_nil_r in *.
  destruct (Forall2_lookup_l _ _ _ _ _ Hin Hq) as (l & Hlq & Hrep).
  pose proof (fifo_pop_law q l Hrep) as Hlaw. destruct l as [|x l']; [congruence|].
  destruct Hlaw as (q1 & Hq1 & Hrep'). rewrite Hpop in Hq1. injection Hq1 as <- <-.
  exists (<[p := l']> qs). constructor; cbn; try done.
  - by apply Forall2_insert.
  - by rewrite length_insert.
  - apply numbered_app; [done|]. cbn. lia.
  - rewrite length_app. cbn. unwrap. lia.
  - intros p' ps' l'' Hps Hl''. unfold in_flight. cbn. rewrite from_app, fmap_app.
    assert (p' < producer_count)%nat as Hp' by (apply lookup_lt_Some in Hps; lia).
    rewrite from_stamp by done. case_decide as Heq.
    + subst p'. rewrite list_lookup_insert_eq in Hl'' by (apply lookup_lt_Some in Hlq; lia).
      injection Hl'' as <-. rewrite (Hfifo p ps' (ev :: l') Hps Hlq). cbn. by rewrite <-app_assoc.
    + rewrite list_lookup_insert_ne in Hl'' by done. cbn. rewrite app_nil_r. by apply Hfifo.
Qed.

Lemma sys_publish_ok s ps pub seen qs p i ev out :
  sys_ok (mkSys s ps pub seen) qs → below_limit (length pub) → sq_pc s = SqPublish p i ev →
  bc_publish ev (output_ s) = Some (true, out) →
  sys_ok (mkSys (mkSequencer (inputs_ s) out (next_seq_ s) (publish_stalls_ s) (running_ s)
                   (SqBatch p (S i))) ps (pub ++ [ev]) seen) qs.
Proof.
  intros [Hin Hcnt Hout Hseen Hpc Hnum Hnext Hfifo] [Hl1 Hl2] Epc Hpub. cbn in *.
  unfold in_flight in *. rewrite Epc in *.
  pose proof (bc_publish_law (output_ s) pub _ ev Hout ltac:(lia)) as Hlaw.
  case_decide; destruct Hlaw as (b' & Hb & Hrep); [congruence|].
  rewrite Hpub in Hb. injection Hb as <-.
  constructor; cbn; unfold in_flight; cbn; rewrite ?app_nil_r; try done.
  - eapply Forall_impl; [exact Hseen|]. cbn. intros l Hl. rewrite take_app_le; [done|].
    rewrite Hl, length_take. lia.
  - cbn in Hpc. lia.
Qed.

Lemma sys_keep_ok s s' ps pub seen qs :
  sys_ok (mkSys s ps pub seen) qs → Forall2 fifo_rep (inputs_ s') qs →
  bc_rep (output_ s') pub (length <$> seen) → next_seq_ s' = next_seq_ s →
  in_flight s' = in_flight s → pc_ok (sq_pc s') → sys_ok (mkSys s' ps pub seen) qs.
Proof.
  intros [Hin Hcnt Hout Hseen Hpc Hnum Hnext Hfifo] Hin' Hout' Hn Hf Hpc'. cbn in *.
  constructor; cbn; rewrite ?Hf, ?Hn; done.
Qed.

Lemma sys_thread_ok s s' ps pub seen qs :
  sys_ok (mkSys s ps pub seen) qs → below_limit (length pub) → seq_step s = Some s' →
  ∃ qs', sys_ok (mkSys s' ps (pub ++ emitted s s') seen) qs'.
Proof.
  intros Hok Hlim Hstep. destruct (Hok) as [Hin [Hcnt _] Hout _ Hpc _ _ _]. cbn in *.
  unfold seq_step in Hstep. destruct (sq_pc s) as [|p i|p i ev|] eqn:Epc; [| | |done].
  - injection Hstep as <-. exists qs. unfold emitted. rewrite Epc, app_nil_r.
    eapply sys_keep_ok; [done|done|done|done|by unfold in_flight; rewrite Epc; cbn; destruct (running_ s)|].
    cbn. destruct (running_ s); cbn; lia.
  - assert (emitted s s' = []) as -> by (unfold emitted; by rewrite Epc). rewrite app_nil_r.
    destruct (Nat.ltb_spec p producer_count) as [Hp|Hp];
      [destruct (Nat.ltb_spec i kMaxBatch) as [Hi|Hi]|].
    + destruct (inputs_ s !! p) as [q|] eqn:Hq; [|done]. cbn in Hstep.
      destruct (fifo_pop q) as [[[ev|] q']|] eqn:Hpop; [| |done]; cbn in Hstep; injection Hstep as <-.
      * by eapply sys_pop_ok.
      * exists qs. destruct (Forall2_lookup_l _ _ _ _ _ Hin Hq) as (l & Hlq & Hrep).
        pose proof (fifo_pop_law q l Hrep) as Hlaw.
        destruct l as [|x l']; [|destruct Hlaw as (? & ? & _); congruence].
        rewrite Hpop in Hlaw. injection Hlaw as ->. rewrite list_insert_id by done.
        eapply sys_keep_ok; [done|done|done|done|by unfold in_flight; rewrite Epc|cbn; lia].
    + injection Hstep as <-. exists qs.
      eapply sys_keep_ok; [done|done|done|done|by unfold in_flight; rewrite Epc|cbn; lia].
    + injection Hstep as <-. exists qs.
      eapply sys_keep_ok; [done|done|done|done|by unfold in_flight; rewrite Epc|done].
  - destruct (bc_publish ev (output_ s)) as [[[|] out]|] eqn:Hpub; [| |done];
      cbn in Hstep; injection Hstep as <-; exists qs.
    + unfold emitted. rewrite Epc. cbn. by eapply sys_publish_ok.
    + unfold emitted. rewrite Epc. cbn. rewrite app_nil_r.
      pose proof (bc_publish_law (output_ s) pub _ ev Hout) as Hlaw. destruct Hlim.
      specialize (Hlaw ltac:(lia)).
      case_decide; destruct Hlaw as (b' & Hb & Hrep); [|congruence].
      rewrite Hpub in Hb. injection Hb as <-.
      eapply sys_keep_ok; [done|done|done|done|by unfold in_flight; rewrite Epc|done].
Qed.

Lemma sys_step_ok y y' qs :
  sys_step y y' → below_limit (length (sy_published y')) → sys_ok y qs → ∃ qs', sys_ok y' qs'.
Proof.
  intros Hstep Hlim Hok. destruct Hstep as [s s' ps pub seen Hs|s ps pub seen p q q' l ev Hq Hpush Hps
                                           |s ps pub seen i l ev b' Hl Hc|s ps pub seen]; cbn in *.
  - apply (sys_thread_ok s s' ps pub seen qs Hok); [|done].
    rewrite length_app in Hlim. unfold below_limit in *. lia.
  - destruct Hok as [Hin Hcnt Hout Hseen Hpc Hnum Hnext Hfifo]; cbn in *.
    destruct (Forall2_lookup_l _ _ _ _ _ Hin Hq) as (lq & Hlq & Hrep).
    pose proof (fifo_push_law q lq ev Hrep) as Hlaw.
    case_decide; [destruct Hlaw as (q1 & Hq1 & Hrep')|congruence].
    rewrite Hpush in Hq1. injection Hq1 as <-.
    exists (<[p := lq ++ [ev]]> qs). constructor; cbn; try done.
    + by apply Forall2_insert.
    + by rewrite !length_insert.
    + intros p' ps' l' Hps' Hl'. destruct (decide (p = p')) as [<-|Hne].
      * rewrite list_lookup_insert_eq in Hps' by (by eapply lookup_lt_Some).
        rewrite list_lookup_insert_eq in Hl' by (by eapply lookup_lt_Some).
        simplify_eq. rewrite !fmap_app, (Hfifo p l lq Hps Hlq). by rewrite app_assoc.
      * rewrite list_lookup_insert_ne in Hps', Hl' by done. by apply Hfifo.
  - destruct Hok as [Hin Hcnt Hout Hseen Hpc Hnum Hnext Hfifo]; cbn in *.
    pose proof (bc_consume_law (output_ s) pub _ i (length l) Hout) as Hlaw.
    rewrite list_lookup_fmap, Hl in Hlaw. specialize (Hlaw eq_refl).
    destruct (pub !! length l) as [x|] eqn:Hx; [destruct Hlaw as (b1 & Hb & Hrep)|congruence].
    rewrite Hc in Hb. injection Hb as <- <-. exists qs. constructor; cbn; try done.
    + rewrite list_fmap_insert, length_app, Nat.add_1_r. done.
    + apply Forall_insert; [done|]. rewrite length_app, Nat.add_1_r, (take_S_r _ _ ev) by done.
      eapply Forall_lookup_1 in Hseen; [|exact Hl]. cbn in Hseen. by rewrite <-Hseen.
  - exists qs. destruct (Hok). by eapply sys_keep_ok.
Qed.

Lemma sys_step_published y y' :
  sys_step y y' → (length (sy_published y) ≤ length (sy_published y'))%nat.
Proof. destruct 1; cbn; rewrite ?length_app; lia. Qed.

Lemma sys_reach_ok inputs output n y :
  length inputs = producer_count → Forall (λ q, fifo_rep q []) inputs →
  bc_rep output [] (replicate n 0%nat) →
  rtc sys_step (sys_init inputs output n) y → below_limit (length (sy_published y)) →
  ∃ qs, sys_ok y qs.
Proof.
  intros Hlen Hin Hout Hr. revert y Hr.
  apply (rtc_ind_r (λ y, below_limit (length (sy_published y)) → ∃ qs, sys_ok y qs)).
  - intros _. exists (replicate (length inputs) []). constructor; cbn; rewrite ?length_replicate; try done.
    + by apply Forall2_replicate_r.
    + by rewrite fmap_replicate.
    + by apply Forall_replicate.
    + intros p ps l Hps Hl. apply lookup_replicate in Hps as [-> _].
      by apply lookup_replicate in Hl as [-> _].
  - intros y1 y2 _ Hstep IH Hlim. destruct IH as [qs Hok].
    + pose proof (sys_step_published _ _ Hstep). unfold below_limit in *. lia.
    + by eapply sys_step_ok.
Qed.

(** ** One pass, without interference *)

Definition thread_step (s s' : Sequencer Q B) : Prop := seq_step s = Some s'.

(** Reference definition: [l] stamped with consecutive numbers from [seq] on. *)
Fixpoint stamp_all (seq : Z) (p : nat) (l : list SequencedEvent) : list SequencedEvent :=
  match l with
  | [] => []
  | ev :: l' => stamp seq (now_ns seq) p ev :: stamp_all (seq + 1) p l'
  end.

(** Reference definition: the log after a pass over the queues [qs]. *)
Fixpoint pass_output (p : nat) (qs : list (list SequencedEvent)) (hist : list SequencedEvent)
    : list SequencedEvent :=
  match qs with
  | [] => hist
  | l :: qs' =>
      pass_output (S p) qs'
        (hist ++ stamp_all (Z.of_nat (length hist) + 1) p (take kMaxBatch l))
  end.

Record pass_st (s : Sequencer Q B) (qs : list (list SequencedEvent))
    (hist : list SequencedEvent) (cs : list nat) : Prop := {
  ps_inputs : Forall2 fifo_rep (inputs_ s) qs;
  ps_output : bc_rep (output_ s) hist cs;
  ps_next : next_seq_ s = Z.of_nat (length hist) + 1;
  ps_running : running_ s = true
}.

Lemma length_stamp_all p l : ∀ seq, length (stamp_all seq p l) = length l.
Proof. induction l as [|ev l IH]; intros seq; cbn; [done|]. by rewrite IH. Qed.

(** Every consumer has room for [k] more events, and the numbers do too. *)
Definition room_for (k : nat) (hist : list SequencedEvent) (cs : list nat) : Prop :=
  below_limit (length hist + k) ∧ Forall (λ c, length hist + k ≤ c + bc_room)%nat cs.

Lemma room_for_le k k' hist cs : (k' ≤ k)%nat → room_for k hist cs → room_for k' hist cs.
Proof.
  intros Hk [[Hl1 Hl2] Hall]. split; [unfold below_limit; lia|].
  eapply Forall_impl; [exact Hall|]. cbn. lia.
Qed.

Lemma room_for_app k hist l cs :
  room_for (length l + k) hist cs → room_for k (hist ++ l) cs.
Proof. unfold room_for. by rewrite length_app, Nat.add_assoc. Qed.

Lemma room_not_lapped k hist cs :
  room_for (S k) hist cs → ¬ lapped bc_room (length hist) cs.
Proof.
  intros [_ Hall] (c & Hc & Hle)%Exists_exists. rewrite Forall_forall in Hall.
  specialize (Hall c Hc). cbn in Hle. lia.
Qed.

(** One iteration of the batch loop on a non-empty queue. *)
Lemma batch_one s qs hist cs p i ev l :
  pass_st s qs hist cs → sq_pc s = SqBatch p i → (p < producer_count)%nat → (i < kMaxBatch)%nat →
  qs !! p = Some (ev :: l) → room_for 1 hist cs →
  ∃ s', rtc thread_step s s' ∧ sq_pc s' = SqBatch p (S i) ∧
        pass_st s' (<[p := l]> qs)
          (hist ++ [stamp (Z.of_nat (length hist) + 1) (now_ns (Z.of_nat (length hist) + 1)) p ev]) cs.
Proof.
  intros [Hin Hout Hnext Hrun] Epc Hp Hi Hl Hroom.
  destruct (Forall2_lookup_r _ _ _ _ _ Hin Hl) as (q & Hq & Hrep).
  pose proof (fifo_pop_law q (ev :: l) Hrep) as (q' & Hpop & Hrep').
  pose proof (room_not_lapped 0 hist cs Hroom) as Hnl. destruct Hroom as [[Hl1 Hl2] _].
  pose proof (bc_publish_law (output_ s) hist cs
    (stamp (Z.of_nat (length hist) + 1) (now_ns (Z.of_nat (length hist) + 1)) p ev) Hout ltac:(lia)) as Hlaw.
  rewrite decide_False in Hlaw by done. destruct Hlaw as (out & Hpub & Hrep'').
  eexists. split.
  - eapply rtc_l.
    { unfold thread_step, seq_step. rewrite Epc.
      rewrite (proj2 (Nat.ltb_lt _ _) Hp), (proj2 (Nat.ltb_lt _ _) Hi), Hq. cbn. by rewrite Hpop. }
    eapply rtc_l; [|apply rtc_refl]. unfold thread_step, seq_step. cbn.
    rewrite Hnext, Hpub. done.
  - split; [done|]. constructor; cbn; [by apply Forall2_insert|done| |done].
    rewrite length_app. cbn. unwrap. lia.
Qed.

Lemma batch_drains p : ∀ k i l s qs hist cs,
  (i + k = kMaxBatch)%nat → (p < producer_count)%nat →
  pass_st s qs hist cs → sq_pc s = SqBatch p i → qs !! p = Some l →
  room_for (length (take k l)) hist cs →
  ∃ s', rtc thread_step s s' ∧ sq_pc s' = SqBatch (S p) 0 ∧
        pass_st s' (<[p := drop k l]> qs)
          (hist ++ stamp_all (Z.of_nat (length hist) + 1) p (take k l)) cs.
Proof.
  induction k as [|k IH]; intros i l s qs hist cs Hik Hp Hst Epc Hl Hroom.
  - eexists. split.
    { eapply rtc_l; [|apply rtc_refl]. unfold thread_step, seq_step. rewrite Epc.
      rewrite (proj2 (Nat.ltb_lt _ _) Hp), (proj2 (Nat.ltb_ge _ _)) by lia. done. }
    split; [done|]. cbn. rewrite app_nil_r, drop_0, list_insert_id by done. destruct Hst. by constructor.
  - destruct l as [|ev l].
    + destruct Hst as [Hin Hout Hnext Hrun].
      destruct (Forall2_lookup_r _ _ _ _ _ Hin Hl) as (q & Hq & Hrep).
      pose proof (fifo_pop_law q [] Hrep) as Hpop. eexists. split.
      { eapply rtc_l; [|apply rtc_refl]. unfold thread_step, seq_step. rewrite Epc.
        rewrite (proj2 (Nat.ltb_lt _ _) Hp), (proj2 (Nat.ltb_lt _ _)) by lia.
        rewrite Hq. cbn. by rewrite Hpop. }
      split; [done|]. cbn. rewrite app_nil_r, !list_insert_id by done. by constructor.
    + destruct (batch_one s qs hist cs p i ev l) as (s1 & Hr1 & Epc1 & Hst1); try done; [lia| |].
      { eapply room_for_le; [|exact Hroom]. cbn. lia. }
      destruct (IH (S i) l s1 _ _ cs ltac:(lia) Hp Hst1 Epc1) as (s2 & Hr2 & Epc2 & Hst2).
      { apply list_lookup_insert_eq. by eapply lookup_lt_Some. }
      { apply room_for_app. exact Hroom. }
      exists s2. split; [by etrans|]. split; [done|].
      rewrite list_insert_insert_eq, length_app, <-app_assoc in Hst2. cbn in Hst2 |- *.
      replace (Z.of_nat (length hist + 1) + 1) with (Z.of_nat (length hist) + 1 + 1) in Hst2 by lia.
      done.
Qed.

Lemma pass_runs s l0 l1 l2 hist cs :
  pass_st s [l0; l1; l2] hist cs → sq_pc s = SqPass → room_for (3 * kMaxBatch) hist cs →
  ∃ s', rtc thread_step s s' ∧ sq_pc s' = SqPass ∧
        pass_st s' (drop kMaxBatch <$> [l0; l1; l2]) (pass_output 0 [l0; l1; l2] hist) cs.
Proof.
  intros Hst Epc Hroom.
  assert (thread_step s (set_pc (SqBatch 0 0) s)) as Hr0.
  { unfold thread_step, seq_step. rewrite Epc. by rewrite (ps_running _ _ _ _ Hst). }
  assert (pass_st (set_pc (SqBatch 0 0) s) [l0; l1; l2] hist cs) as Hst0
    by (destruct Hst; by constructor).
  assert (∀ l : list SequencedEvent, length (take kMaxBatch l) ≤ kMaxBatch)%nat as Hlen
    by (intros l; rewrite length_take; lia).
  destruct (batch_drains 0 kMaxBatch 0 l0 _ _ hist cs eq_refl ltac:(unfold producer_count; lia) Hst0)
    as (s1 & Hr1 & Epc1 & Hst1); [done|done| |].
  { eapply room_for_le; [|exact Hroom]. pose proof (Hlen l0). lia. }
  destruct (batch_drains 1 kMaxBatch 0 l1 s1 _ _ cs eq_refl ltac:(unfold producer_count; lia) Hst1)
    as (s2 & Hr2 & Epc2 & Hst2); [done|done| |].
  { apply room_for_app. rewrite length_stamp_all. eapply room_for_le; [|exact Hroom].
    pose proof (Hlen l0). pose proof (Hlen l1). lia. }
  destruct (batch_drains 2 kMaxBatch 0 l2 s2 _ _ cs eq_refl ltac:(unfold producer_count; lia) Hst2)
    as (s3 & Hr3 & Epc3 & Hst3); [done|done| |].
  { do 2 apply room_for_app. rewrite !length_stamp_all. eapply room_for_le; [|exact Hroom].
    pose proof (Hlen l0). pose proof (Hlen l1). pose proof (Hlen l2). lia. }
  exists (set_pc SqPass s3). split.
  - eapply rtc_l; [exact Hr0|]. do 3 (etrans; [eassumption|]). apply rtc_once.
    unfold thread_step, seq_step. by rewrite Epc3.
  - split; [done|]. destruct Hst3. by constructor.
Qed.

(** ** Properties *)

(** C3: Total order.  In every state that the sequencer, its three producers and
    the [n] consumers can reach, the published events are numbered 1, 2, 3, ...
    without gap; every consumer has read a prefix of that one sequence; and the
    events of each producer appear in the order it pushed them, none lost,
    duplicated or altered except for the three stamped fields. *)
Theorem sequencer_total_order inputs output n y :
  length inputs = producer_count → Forall (λ q, fifo_rep q []) inputs →
  bc_rep output [] (replicate n 0%nat) →
  rtc sys_step (sys_init inputs output n) y → below_limit (length (sy_published y)) →
  (∀ i ev, sy_published y !! i = Some ev → ev_seq_num ev = Z.of_nat i + 1) ∧
  Forall (λ seen, seen `prefix_of` sy_published y) (sy_seen y) ∧
  (∀ p ps, sy_pushed y !! p = Some ps →
     (payload <$> from p (sy_published y)) `prefix_of` (payload <$> ps)).
Proof.
  intros Hlen Hin Hout Hr Hlim.
  destruct (sys_reach_ok inputs output n y Hlen Hin Hout Hr Hlim)
    as [qs [_ [Hc Hc'] _ Hseen _ Hnum _ Hfifo]].
  split_and!.
  - intros i ev Hi. apply Hnum. by apply lookup_app_l_Some.
  - eapply Forall_impl; [exact Hseen|]. cbn. intros l ->. apply prefix_take.
  - intros p ps Hps. destruct (lookup_lt_is_Some_2 qs p) as [l Hl].
    { apply lookup_lt_Some in Hps. lia. }
    rewrite (Hfifo p ps l Hps Hl), from_app, fmap_app, <-app_assoc. by apply prefix_app_r.
Qed.

(** One pass of [run], when no consumer is within a pass of being lapped,
    comes back to the loop condition; it has taken exactly the first 32 events
    (or all of them) of each producer, in producer order, and published them
    with consecutive numbers.  No producer can keep the others waiting, and the
    result depends on the contents of the queues only. *)
Theorem sequencer_pass_fair s l0 l1 l2 hist cs :
  pass_st s [l0; l1; l2] hist cs → sq_pc s = SqPass → room_for (3 * kMaxBatch) hist cs →
  ∃ s', rtc thread_step s s' ∧ sq_pc s' = SqPass ∧
        pass_st s' [drop 32 l0; drop 32 l1; drop 32 l2] (pass_output 0 [l0; l1; l2] hist) cs.
Proof. apply pass_runs. Qed.

End Sequencer.

(** ** Witnesses: the real queue and ring, at small capacities *)

Section Demo.
#[local] Instance demo_queue : Fifo (SpscRing SequencedEvent) SequencedEvent :=
  spsc_fifo SequencedEvent 4.
#[local] Instance demo_ring : Broadcast (BroadcastRing SequencedEvent) SequencedEvent :=
  bcast_broadcast SequencedEvent 128 8.

Lemma demo_queue_laws : FifoLaws (SpscRing SequencedEvent) SequencedEvent.
Proof. apply spsc_fifo_laws. exists 2. lia. Qed.

Lemma demo_ring_laws : BroadcastLaws (BroadcastRing SequencedEvent) SequencedEvent.
Proof. apply bcast_broadcast_laws. exists 7. lia. Qed.

Definition demo_event (client qty : Z) : SequencedEvent :=
  mkEvent 0 0 0 EvNewOrder Gateway 5 client Buy 100 qty.

Definition demo_inputs : list (SpscRing SequencedEvent) :=
  replicate 3 (spsc_new 4 (demo_event 0 0)).
Definition demo_output : BroadcastRing SequencedEvent :=
  register_n 1 (bcast_new 128 8 (demo_event 0 0)).

Lemma demo_inputs_rep : Forall (λ q, fifo_rep q []) demo_inputs.
Proof.
  apply Forall_replicate. exists [], 0%nat. split; [|done]. apply spsc_new_inv. exists 2. lia.
Qed.

Lemma demo_output_rep : bc_rep demo_output [] [0%nat].
Proof. apply (registered_rep 128 8 ltac:(lia) (demo_event 0 0) 1). lia. Qed.

Abbreviation DemoSys := (@SeqSys (SpscRing SequencedEvent) (BroadcastRing SequencedEvent)).

(** The feed producer has pushed one event; the sequencer has popped and
    published it. *)
Definition demo_start : Sequencer (SpscRing SequencedEvent) (BroadcastRing SequencedEvent) :=
  set_input 1 (match push 4 (demo_event 9 3) (spsc_new 4 (demo_event 0 0)) with
               | Some (_, q) => q | None => spsc_new 4 (demo_event 0 0) end)
    (seq_new demo_inputs demo_output).

Lemma sequencer_total_order_witness :
  ∃ y : DemoSys, sy_published y = [mkEvent 1 0 1001 EvNewOrder FeedReplay 5 9 Buy 100 3] ∧
       (∀ i ev, sy_published y !! i = Some ev → ev_seq_num ev = Z.of_nat i + 1).
Proof.
  assert (∃ y : DemoSys, sy_published y = [mkEvent 1 0 1001 EvNewOrder FeedReplay 5 9 Buy 100 3] ∧
               rtc (sys_step (λ k, 1000 + k)) (sys_init demo_inputs demo_output 1) y)
    as (y & Hy & Hr).
  { eexists. split; cycle 1.
    - eapply rtc_l. { by eapply (sys_produce _ _ _ _ _ 1%nat _ _ _ (demo_event 9 3)). }
      eapply rtc_l. { eapply sys_thread. reflexivity. }
      eapply rtc_l. { eapply sys_thread. reflexivity. }
      eapply rtc_l. { eapply sys_thread. reflexivity. }
      eapply rtc_l. { eapply sys_thread. reflexivity. }
      apply rtc_refl.
    - reflexivity. }
  exists y. split; [exact Hy|].
  pose proof demo_queue_laws. pose proof demo_ring_laws.
  apply (sequencer_total_order (λ k, 1000 + k) demo_inputs demo_output 1 y eq_refl
           demo_inputs_rep demo_output_rep Hr).
  rewrite Hy. unfold below_limit. cbn. lia.
Defined.

Lemma sequencer_pass_fair_witness :
  ∃ s', rtc (thread_step (λ k, 1000 + k)) demo_start s' ∧ sq_pc s' = SqPass ∧
        pass_st s' [[]; []; []] [mkEvent 1 0 1001 EvNewOrder FeedReplay 5 9 Buy 100 3] [0%nat].
Proof.
  pose proof demo_queue_laws as HF. pose proof demo_ring_laws.
  apply (sequencer_pass_fair (λ k, 1000 + k) demo_start [] [demo_event 9 3] [] [] [0%nat]).
  - constructor; [|apply demo_output_rep|done|done].
    destruct (proj1 (Forall_cons _ _ _) demo_inputs_rep) as [Hq _].
    pose proof (fifo_push_law _ [] (demo_event 9 3) Hq) as Hpush.
    rewrite decide_True in Hpush by (cbn; lia). destruct Hpush as (q' & Hq' & Hrep').
    injection Hq' as <-. repeat constructor; assumption.
  - reflexivity.
  - split; [unfold below_limit; cbn; lia|]. repeat constructor; cbn; lia.
Defined.

End Demo.
