(* ===== verification/MatchingEngine.v ===== *)
(** * MatchingEngine: the consumer that owns the book

    Models [include/matching_engine_consumer.hpp]: it applies sequenced events
    to the order book, keeps the maps between exchange ids and the clients'
    (session, client_order_id) keys, and reports every outcome as an
    [OutboundAck].  Acks go to an [AckSink]; the engine's behaviour is stated
    for every sink and the real one, two bounded queues with drop counters, is
    [AckOut] below. *)

From S2P Require Import Prelude Types ObjectPool OrderBook SpscRing BroadcastRing Consumer.

#[local] Open Scope Z_scope.

Abbreviation OrderKey := (Z * Z)%type (only parsing).

Record RestingOrderInfo := mkInfo {
  ri_session : Z;
  ri_client : Z;
  ri_remaining : Z
}.

Definition ri_key (i : RestingOrderInfo) : OrderKey := (ri_session i, ri_client i).

Definition ev_key (ev : SequencedEvent) : OrderKey := (ev_session ev, ev_client_order_id ev).

(** ** Where acks go *)

(** [push_ack] returns [None] on undefined behaviour only; on a sink that is
    [sink_ok] it always returns. *)
Class AckSink (S : Type) := {
  push_ack : OutboundAck → S → option S;
  sink_ok : S → Prop
}.

Class AckSinkLaws (S : Type) `{AckSink S} : Prop := {
  push_ack_law a s : sink_ok s → ∃ s', push_ack a s = Some s' ∧ sink_ok s'
}.

Fixpoint push_acks {S} `{AckSink S} (acks : list OutboundAck) (s : S) : option S :=
  match acks with
  | [] => Some s
  | a :: acks' => s' ← push_ack a s; push_acks acks' s'
  end.

Lemma push_acks_app {S} `{AckSink S} l1 l2 (s : S) :
  push_acks (l1 ++ l2) s = s' ← push_acks l1 s; push_acks l2 s'.
Proof.
  revert s. induction l1 as [|a l1 IH]; intros s; cbn; [done|].
  destruct (push_ack a s); cbn; [apply IH|done].
Qed.

(** ** The engine *)

Record Engine (S : Type) := mkEngine {
  book_ : OrderBook;
  by_client_ : gmap OrderKey Z;
  resting_ : gmap Z RestingOrderInfo;
  trades_ : list Trade;
  out_ : S
}.
Arguments mkEngine {S} _ _ _ _ _.
Arguments book_ {S} _.
Arguments by_client_ {S} _.
Arguments resting_ {S} _.
Arguments trades_ {S} _.
Arguments out_ {S} _.

Section Engine.
Context {S : Type} `{AckSink S}.

Definition engine_new (PoolCapacity : nat) (out : S) : Engine S :=
  mkEngine (book_new PoolCapacity) ∅ ∅ [] out.

(** What the loop over [trades_] updates. *)
Record FillState := mkFill {
  fs_filled : Z;
  fs_by_client : gmap OrderKey Z;
  fs_resting : gmap Z RestingOrderInfo;
  fs_out : S
}.

(** The body of [for (const auto& t : trades_)]. *)
Definition fill_trade (exchange_id : Z) (t : Trade) (s : FillState) : option FillState :=
  let incoming_is_buy := t_buy t =? exchange_id in
  let filled := u32 (fs_filled s + t_qty t) in
  let counterparty := if incoming_is_buy then t_sell t else t_buy t in
  match fs_resting s !! counterparty with
  | None => Some (mkFill filled (fs_by_client s) (fs_resting s) (fs_out s))
  | Some info =>
      let remaining := u32 (ri_remaining info - t_qty t) in
      let info' := mkInfo (ri_session info) (ri_client info) remaining in
      let done := remaining =? 0 in
      out ← push_ack (mkAck (ri_session info) (ri_client info) counterparty
                        (if done then Filled else PartialFill)
                        (u32 (t_price t)) (t_qty t) remaining) (fs_out s);
      Some (if done
            then mkFill filled (delete (ri_key info) (fs_by_client s))
                   (delete counterparty (<[counterparty := info']> (fs_resting s))) out
            else mkFill filled (fs_by_client s)
                   (<[counterparty := info']> (fs_resting s)) out)
  end.

Fixpoint fill_trades (exchange_id : Z) (trs : list Trade) (s : FillState) : option FillState :=
  match trs with
  | [] => Some s
  | t :: trs' => s' ← fill_trade exchange_id t s; fill_trades exchange_id trs' s'
  end.

Definition apply_new_order (ev : SequencedEvent) (e : Engine S) : option (Engine S) :=
  let exchange_id := ev_seq_num ev in
  '(book, trades) ← add_limit_order exchange_id (ev_side ev) (ev_price ev) (ev_quantity ev)
                      (ev_sequence_ts ev) (book_ e) [];
  s ← fill_trades exchange_id trades (mkFill 0 (by_client_ e) (resting_ e) (out_ e));
  let leaves := u32 (ev_quantity ev - fs_filled s) in
  let by_client := if 0 <? leaves then <[ev_key ev := exchange_id]> (fs_by_client s)
                   else fs_by_client s in
  let resting := if 0 <? leaves
                 then <[exchange_id := mkInfo (ev_session ev) (ev_client_order_id ev) leaves]>
                        (fs_resting s)
                 else fs_resting s in
  let status := if fs_filled s =? 0 then Accepted
                else if leaves =? 0 then Filled else PartialFill in
  let last_px := match last trades with None => 0 | Some t => u32 (t_price t) end in
  out ← push_ack (mkAck (ev_session ev) (ev_client_order_id ev) exchange_id status
                    last_px (fs_filled s) leaves) (fs_out s);
  Some (mkEngine book by_client resting trades out).

Definition apply_cancel_order (ev : SequencedEvent) (e : Engine S) : option (Engine S) :=
  match by_client_ e !! ev_key ev with
  | None =>
      out ← push_ack (mkAck (ev_session ev) (ev_client_order_id ev) 0 Rejected 0 0 0) (out_ e);
      Some (mkEngine (book_ e) (by_client_ e) (resting_ e) (trades_ e) out)
  | Some exchange_id =>
      '(removed, book) ← cancel exchange_id (book_ e);
      out ← push_ack (mkAck (ev_session ev) (ev_client_order_id ev) exchange_id
                        (if removed : bool then Canceled else Rejected) 0 0 0) (out_ e);
      Some (mkEngine book (delete (ev_key ev) (by_client_ e)) (delete exchange_id (resting_ e))
              (trades_ e) out)
  end.

Definition apply (ev : SequencedEvent) (e : Engine S) : option (Engine S) :=
  match ev_type ev with
  | EvNewOrder => apply_new_order ev e
  | EvCancelOrder => apply_cancel_order ev e
  | _ => Some e
  end.

Fixpoint apply_all (evs : list SequencedEvent) (e : Engine S) : option (Engine S) :=
  match evs with
  | [] => Some e
  | ev :: evs' => e' ← apply ev e; apply_all evs' e'
  end.

Definition engine_resting_orders (e : Engine S) : nat := resting_orders (book_ e).

(** ** The consumer thread *)

Context {B : Type} `{Broadcast B SequencedEvent} (consumer_id : nat).

(** [run]: apply every event; nothing happens between passes or on the way
    out. *)
Definition engine_run (passes fuel : nat) : nat → (nat → bool) → B → Engine S → option (B * Engine S) :=
  consumer_run consumer_id apply Some Some passes fuel.

End Engine.

Arguments FillState : clear implicits.

(** ** Sinks *)

(** All acks, in order. *)
#[export] Instance trace_sink : AckSink (list OutboundAck) := {|
  push_ack a s := Some (s ++ [a]);
  sink_ok _ := True
|}.

#[export] Instance trace_sink_laws : AckSinkLaws (list OutboundAck).
Proof. constructor. intros a s _. by eexists. Qed.

(** The real sink: [acks_], the optional [fills_] and the two drop counters. *)
Record AckOut (Q : Type) := mkAckOut {
  acks_ : Q;
  fills_ : option Q;
  acks_dropped_ : Z;
  fills_dropped_ : Z
}.
Arguments mkAckOut {Q} _ _ _ _.
Arguments acks_ {Q} _.
Arguments fills_ {Q} _.
Arguments acks_dropped_ {Q} _.
Arguments fills_dropped_ {Q} _.

Section AckOut.
Context {Q : Type} `{Fifo Q OutboundAck}.

(** [kMaxSpins], and what the gateway thread has done to the queue between two
    attempts: [drain n q] is the queue that attempt [n + 1] finds after attempt
    [n] left [q]. *)
Context (kMaxSpins : nat) (drain : nat → Q → Q).

(** [for (int spins = 0; !acks_.push(ack); ++spins) { if (spins > kMaxSpins) ... }]:
    [tries] more failures are tolerated. *)
Fixpoint spin_push (tries spins : nat) (ack : OutboundAck) (q : Q) : option (bool * Q) :=
  '(ok, q') ← fifo_push ack q;
  if ok : bool then Some (true, q')
  else match tries with
       | O => Some (false, q')
       | S tries => spin_push tries (S spins) ack (drain spins q')
       end.

Definition engine_push_ack (ack : OutboundAck) (s : AckOut Q) : option (AckOut Q) :=
  '(ok, acks) ← spin_push (S kMaxSpins) 0 ack (acks_ s);
  if ok : bool then
    match fills_ s with
    | None => Some (mkAckOut acks None (acks_dropped_ s) (fills_dropped_ s))
    | Some fq =>
        '(fok, fq') ← fifo_push ack fq;
        Some (mkAckOut acks (Some fq') (acks_dropped_ s)
                (if fok : bool then fills_dropped_ s else u64 (fills_dropped_ s + 1)))
    end
  else Some (mkAckOut acks (fills_ s) (u64 (acks_dropped_ s + 1)) (fills_dropped_ s)).

End AckOut.
