(* ===== verification/EngineProofs.v ===== *)
(** * EngineProofs: the matching engine's invariant

    Relates the three data structures of the engine, the book, [resting_] and
    [by_client_], to each other and to the specification [ABook] of the book,
    and computes the acks that each event produces. *)

From S2P Require Import Prelude Types ObjectPool OrderBook PriceTime OrderBookProofs BookProperties SpscRing BroadcastRing MatchingEngine.

#[local] Open Scope Z_scope.

(** ** The acks an order should produce *)

(** For the resting order [o], placed by the client in [info] and hit by [t]. *)
Definition maker_ack (info : RestingOrderInfo) (o : Order) (t : Trade) : OutboundAck :=
  let leaves := o_qty o - t_qty t in
  mkAck (ri_session info) (ri_client info) (o_id o)
    (if leaves =? 0 then Filled else PartialFill) (t_price t) (t_qty t) leaves.

(** For the resting orders [l] in priority order, hit by the trades [tr]. *)
Fixpoint maker_acks (resting : gmap Z RestingOrderInfo) (l : list Order) (tr : list Trade)
    : list OutboundAck :=
  match l, tr with
  | o :: l', t :: tr' =>
      match resting !! o_id o with
      | Some info => maker_ack info o t :: maker_acks resting l' tr'
      | None => maker_acks resting l' tr'
      end
  | _, _ => []
  end.

(** For the incoming order itself. *)
Definition taker_ack (ev : SequencedEvent) (tr : list Trade) : OutboundAck :=
  let filled := sumZ t_qty tr in
  let leaves := ev_quantity ev - filled in
  mkAck (ev_session ev) (ev_client_order_id ev) (ev_seq_num ev)
    (if filled =? 0 then Accepted else if leaves =? 0 then Filled else PartialFill)
    (match last tr with None => 0 | Some t => t_price t end) filled leaves.

(** ** How the maps fit together *)

(** [resting_] knows every order of [l], with the quantity it has left. *)
Definition tracked (resting : gmap Z RestingOrderInfo) (l : list Order) : Prop :=
  ∀ o, o ∈ l → ∃ info, resting !! o_id o = Some info ∧ ri_remaining info = o_qty o.

(** [by_client_] resolves a key only to an order placed under that key. *)
Definition client_ok (by_client : gmap (Z * Z) Z) (resting : gmap Z RestingOrderInfo) : Prop :=
  ∀ k id, by_client !! k = Some id → ∃ info, resting !! id = Some info ∧ ri_key info = k.

(** Every resting order can be found under its key. *)
Definition client_full (by_client : gmap (Z * Z) Z) (resting : gmap Z RestingOrderInfo) : Prop :=
  ∀ id info, resting !! id = Some info → by_client !! ri_key info = Some id.

Lemma maker_acks_ext r1 r2 l : ∀ tr,
  (∀ o, o ∈ l → r1 !! o_id o = r2 !! o_id o) → maker_acks r1 l tr = maker_acks r2 l tr.
Proof.
  induction l as [|o l IH]; intros [|t tr] Hext; cbn; try done.
  rewrite (Hext o) by (by left). rewrite (IH tr); [done|]. intros o' Ho'. apply Hext. by right.
Qed.

(** ** The loop over the trades *)

Section Fill.
Context {S : Type} `{AckSink S, !AckSinkLaws S}.
Context (side : Side) (id ts : Z).

(** What a run of the loop does to the maps, for the orders [l] of which [r]
    are left. *)
Record fill_post (l r : list Order) (s s' : FillState S) : Prop := {
  fp_tracked : tracked (fs_resting s') r;
  fp_frame : ∀ x, x ∉ o_id <$> l → fs_resting s' !! x = fs_resting s !! x;
  fp_keys : ∀ x i', fs_resting s' !! x = Some i' →
              ∃ i, fs_resting s !! x = Some i ∧ ri_key i = ri_key i';
  fp_gone : ∀ x, x ∈ o_id <$> l → x ∉ o_id <$> r → fs_resting s' !! x = None;
  fp_client : client_ok (fs_by_client s) (fs_resting s) → client_ok (fs_by_client s') (fs_resting s');
  fp_full : client_full (fs_by_client s) (fs_resting s) →
            client_full (fs_by_client s') (fs_resting s');
  fp_by_client : fs_by_client s' ⊆ fs_by_client s;
  fp_sink : sink_ok (fs_out s')
}.

(** The state after the body has run for the order [o] with owner [info]. *)
Definition after_fill (info : RestingOrderInfo) (o : Order) (fill : Z) (s : FillState S) (out : S)
    : FillState S :=
  let rem := o_qty o - fill in
  let info' := mkInfo (ri_session info) (ri_client info) rem in
  mkFill (fs_filled s + fill)
    (if rem =? 0 then delete (ri_key info) (fs_by_client s) else fs_by_client s)
    (if rem =? 0 then delete (o_id o) (fs_resting s) else <[o_id o := info']> (fs_resting s))
    out.

Lemma fill_trade_step o info fill s :
  o_id o ≠ id → fs_resting s !! o_id o = Some info → ri_remaining info = o_qty o →
  0 < fill ≤ o_qty o → o_qty o < 2 ^ 32 → is_u32 (o_price o) →
  0 ≤ fs_filled s → fs_filled s + fill < 2 ^ 32 → sink_ok (fs_out s) →
  let t := trade_of side id (o_id o) (o_price o) fill ts in
  ∃ out, push_ack (maker_ack info o t) (fs_out s) = Some out ∧ sink_ok out ∧
         fill_trade id t s = Some (after_fill info o fill s out).
Proof.
  intros Hne Hinfo Hrem Hfill Hmax Hpx Hf0 Hf1 Hok t. unfold t.
  assert ((if t_buy (trade_of side id (o_id o) (o_price o) fill ts) =? id
           then t_sell (trade_of side id (o_id o) (o_price o) fill ts)
           else t_buy (trade_of side id (o_id o) (o_price o) fill ts)) = o_id o) as Hcp.
  { destruct side; cbn; [by rewrite Z.eqb_refl|]. by rewrite (proj2 (Z.eqb_neq _ _)). }
  destruct (push_ack_law (maker_ack info o (trade_of side id (o_id o) (o_price o) fill ts))
              (fs_out s) Hok) as (out & Hpush & Hok').
  exists out. split_and!; [done|done|]. unfold fill_trade. cbv zeta. rewrite Hcp, Hinfo, Hrem.
  cbn [t_qty t_price trade_of] in *.
  rewrite (wrap_unsigned_id 32 (o_qty o - fill)) by word_lia.
  rewrite (wrap_unsigned_id 32 (fs_filled s + fill)) by word_lia.
  rewrite (wrap_unsigned_id 32 (o_price o)) by done.
  unfold maker_ack in Hpush. cbn [t_qty t_price trade_of] in Hpush. rewrite Hpush. cbn.
  unfold after_fill. destruct (o_qty o - fill =? 0); [|done].
  by rewrite delete_insert_eq.
Qed.

(** The body keeps both directions of the key maps. *)
Lemma after_fill_client info o fill s out :
  fs_resting s !! o_id o = Some info →
  client_ok (fs_by_client s) (fs_resting s) →
  client_ok (fs_by_client (after_fill info o fill s out)) (fs_resting (after_fill info o fill s out)).
Proof.
  intros Hinfo Hc k i. unfold after_fill. cbn. destruct (o_qty o - fill =? 0).
  - intros [Hk Hi]%lookup_delete_Some. destruct (Hc k i Hi) as (inf & Hinf & <-).
    exists inf. split; [|done]. rewrite lookup_delete_ne; [done|]. intros <-. congruence.
  - intros Hi. destruct (Hc k i Hi) as (inf & Hinf & <-).
    destruct (decide (o_id o = i)) as [<-|Hne].
    + rewrite lookup_insert_eq. eexists. split; [done|]. by simplify_eq.
    + rewrite lookup_insert_ne by done. eauto.
Qed.

Lemma after_fill_full info o fill s out :
  fs_resting s !! o_id o = Some info →
  client_full (fs_by_client s) (fs_resting s) →
  client_full (fs_by_client (after_fill info o fill s out)) (fs_resting (after_fill info o fill s out)).
Proof.
  intros Hinfo Hc i inf. unfold after_fill. cbn. destruct (o_qty o - fill =? 0).
  - intros [Hne Hi]%lookup_delete_Some. rewrite lookup_delete_ne; [by apply Hc|].
    intros Heq. apply Hc in Hi, Hinfo. congruence.
  - intros [[<- <-]|[Hne Hi]]%lookup_insert_Some; [|by apply Hc]. apply (Hc _ info Hinfo).
Qed.

Lemma tracked_cons resting o l :
  tracked resting (o :: l) →
  (∃ info, resting !! o_id o = Some info ∧ ri_remaining info = o_qty o) ∧ tracked resting l.
Proof.
  intros Ht. split; [apply Ht; by left|]. intros o' Ho'. apply Ht. by right.
Qed.

Lemma fill_post_refl l s :
  tracked (fs_resting s) l → sink_ok (fs_out s) → fill_post l l s s.
Proof. intros Ht Hok. constructor; try done; eauto. Qed.

(** Filling [o] completely, then going on with [l]. *)
Lemma fill_post_full o info l r s s' out :
  fs_resting s !! o_id o = Some info → o_id o ∉ o_id <$> l → (o_id <$> r) ⊆ (o_id <$> l) →
  fill_post l r (after_fill info o (o_qty o) s out) s' → fill_post (o :: l) r s s'.
Proof.
  intros Hinfo Hnew Hsub [Htr Hfr Hk Hg Hc Hf Hb Hs].
  assert (fs_resting (after_fill info o (o_qty o) s out) = delete (o_id o) (fs_resting s)) as Hres.
  { unfold after_fill. cbn. by rewrite Z.sub_diag. }
  constructor; try done.
  - intros x Hx. rewrite fmap_cons, not_elem_of_cons in Hx. destruct Hx as [Hx1 Hx2].
    rewrite Hfr, Hres, lookup_delete_ne by done. done.
  - intros x i' Hx. destruct (Hk x i' Hx) as (i & Hi & Hkey).
    rewrite Hres in Hi. apply lookup_delete_Some in Hi as [_ Hi]. eauto.
  - intros x Hx Hr. rewrite fmap_cons in Hx. apply elem_of_cons in Hx as [->|Hx]; [|by apply Hg].
    by rewrite Hfr, Hres, lookup_delete_eq by done.
  - intros Hok. apply Hc. by apply after_fill_client.
  - intros Hok. apply Hf. by apply after_fill_full.
  - etrans; [exact Hb|]. unfold after_fill. cbn. rewrite Z.sub_diag. cbn. apply delete_subseteq.
Qed.

Lemma fill_post_part o info l fill s out :
  fs_resting s !! o_id o = Some info → ri_remaining info = o_qty o → o_id o ∉ o_id <$> l →
  tracked (fs_resting s) l → fill < o_qty o → sink_ok out →
  fill_post (o :: l) (set_o_qty o (o_qty o - fill) :: l) s (after_fill info o fill s out).
Proof.
  intros Hinfo Hrem Hnew Ht Hlt Hok.
  assert ((o_qty o - fill =? 0) = false) as Hnz by (apply Z.eqb_neq; lia).
  assert (∃ i', fs_resting (after_fill info o fill s out) = <[o_id o := i']> (fs_resting s) ∧
                ri_remaining i' = o_qty o - fill ∧ ri_key i' = ri_key info) as (i' & Hres & Hr' & Hk').
  { unfold after_fill. rewrite Hnz. by eexists. }
  constructor; try done.
  - intros o' Ho'. rewrite Hres. apply elem_of_cons in Ho' as [->|Ho'].
    + cbn. rewrite lookup_insert_eq. eauto.
    + rewrite lookup_insert_ne; [by apply Ht|]. intros Heq. apply Hnew. rewrite Heq.
      by apply list_elem_of_fmap_2.
  - intros x Hx. rewrite fmap_cons, not_elem_of_cons in Hx. rewrite Hres, lookup_insert_ne; [done|].
    naive_solver.
  - intros x i Hx. rewrite Hres in Hx. apply lookup_insert_Some in Hx as [[<- <-]|[_ Hx]]; eauto.
  - intros Hc. by apply after_fill_client.
  - intros Hc. by apply after_fill_full.
  - unfold after_fill. cbn. by rewrite Hnz.
Qed.

Lemma Matched_ids_sub crosses qty l q r tr :
  Matched crosses side id ts qty l q r tr → (o_id <$> r) ⊆ (o_id <$> l).
Proof.
  intros Hm. apply Matched_suffix, suffix_ids in Hm as [k ->]. set_solver.
Qed.

(** What the loop needs of the orders it will meet. *)
Record fill_pre (l : list Order) (s : FillState S) (qty : Z) : Prop := {
  fq_tracked : tracked (fs_resting s) l;
  fq_nodup : NoDup (o_id <$> l);
  fq_fresh : id ∉ o_id <$> l;
  fq_live : Forall live_qty l;
  fq_prices : Forall (λ o, is_u32 (o_price o)) l;
  fq_filled : 0 ≤ fs_filled s ∧ fs_filled s + qty < 2 ^ 32;
  fq_sink : sink_ok (fs_out s)
}.

Lemma fill_pre_next o info l s qty out :
  fill_pre (o :: l) s qty → sink_ok out →
  fill_pre l (after_fill info o (o_qty o) s out) (qty - o_qty o).
Proof.
  intros [Ht Hnd Hfr Hl Hp Hf _] Hok.
  rewrite fmap_cons in Hnd, Hfr. apply NoDup_cons in Hnd as [Hnew Hnd].
  apply not_elem_of_cons in Hfr as [_ Hfr].
  apply Forall_cons in Hl as [Ho Hl]. apply Forall_cons in Hp as [_ Hp].
  unfold live_qty in Ho. constructor; try done; cbn; [|lia].
  rewrite Z.sub_diag. cbn. intros o' Ho'. rewrite lookup_delete_ne; [apply Ht; by right|].
  intros Heq. apply Hnew. rewrite Heq. by apply list_elem_of_fmap_2.
Qed.

(** The body of the loop for the order at the head of the list. *)
Lemma fill_head o l s qty fill :
  fill_pre (o :: l) s qty → 0 < fill ≤ o_qty o → fill ≤ qty →
  let t := trade_of side id (o_id o) (o_price o) fill ts in
  ∃ info out, fs_resting s !! o_id o = Some info ∧ ri_remaining info = o_qty o ∧
    push_ack (maker_ack info o t) (fs_out s) = Some out ∧ sink_ok out ∧
    fill_trade id t s = Some (after_fill info o fill s out) ∧
    (o_id o ∉ o_id <$> l) ∧ tracked (fs_resting s) l.
Proof.
  intros [Ht Hnd Hfr Hl Hp Hf Hok] Hfill Hle t.
  destruct (tracked_cons _ _ _ Ht) as [(info & Hinfo & Hrem) Htl].
  rewrite fmap_cons in Hnd, Hfr. apply NoDup_cons in Hnd as [Hnew _].
  apply not_elem_of_cons in Hfr as [Hne _].
  apply Forall_cons in Hl as [Ho _]. apply Forall_cons in Hp as [Hpx _]. unfold live_qty in Ho.
  destruct (fill_trade_step o info fill s) as (out & Hpush & Hok' & Hstep); try done; try lia.
  exists info, out. done.
Qed.

Lemma fill_trades_sim crosses qty l q r tr :
  Matched crosses side id ts qty l q r tr → ∀ s, fill_pre l s qty →
  ∃ s', fill_trades id tr s = Some s' ∧ fs_filled s' = fs_filled s + sumZ t_qty tr ∧
    push_acks (maker_acks (fs_resting s) l tr) (fs_out s) = Some (fs_out s') ∧
    length (maker_acks (fs_resting s) l tr) = length tr ∧ fill_post l r s s'.
Proof.
  induction 1 as [qty l Hstop|qty o l q r tr Hq Hc Ho Hm IH|qty o l Hc Hq]; intros s Hpre.
  - exists s. cbn. assert (maker_acks (fs_resting s) l [] = []) as -> by (by destruct l).
    split_and!; [done|lia|done|done|]. apply fill_post_refl; apply Hpre.
  - destruct (fill_head o l s qty (o_qty o) Hpre ltac:(lia) ltac:(lia))
      as (info & out & Hinfo & Hrem & Hpush & Hok & Hstep & Hnew & Htl).
    destruct (IH (after_fill info o (o_qty o) s out)) as (s' & Hs' & Hfil & Hacks & Hlen & Hpost).
    { by apply fill_pre_next. }
    assert (maker_acks (fs_resting (after_fill info o (o_qty o) s out)) l tr =
            maker_acks (fs_resting s) l tr) as Hext.
    { apply maker_acks_ext. intros o' Ho'. cbn. rewrite Z.sub_diag. cbn.
      apply lookup_delete_ne. intros Heq. apply Hnew. rewrite Heq. by apply list_elem_of_fmap_2. }
    rewrite Hext in Hacks, Hlen. exists s'. cbn. rewrite Hinfo, Hstep. cbn. rewrite Hpush. cbn in *.
    split_and!; [done|lia|done|lia|].
    by apply (fill_post_full o info l r s s' out Hinfo Hnew (Matched_ids_sub _ _ _ _ _ _ Hm)).
  - destruct (fill_head o l s qty qty Hpre ltac:(lia) ltac:(lia))
      as (info & out & Hinfo & Hrem & Hpush & Hok & Hstep & Hnew & Htl).
    exists (after_fill info o qty s out). cbn. rewrite Hinfo, Hstep. cbn. rewrite Hpush. cbn.
    assert (maker_acks (fs_resting s) l [] = []) as -> by (by destruct l).
    split_and!; [done|lia|done|done|]. by apply fill_post_part; [..|lia|].
Qed.

End Fill.

(** ** The invariant of the engine

    [n] is above every exchange id handed out so far. *)

Record engine_inv {S} `{AckSink S} (cap : nat) (e : Engine S) (a : ABook) (n : Z) : Prop := {
  ei_book : book_rep cap (book_ e) a;
  ei_wf : abook_wf a;
  ei_prices : Forall (λ o, is_u32 (o_price o)) (ab_orders a);
  ei_tracked : tracked (resting_ e) (ab_orders a);
  ei_ids : ∀ id info, resting_ e !! id = Some info → id < n;
  ei_client : client_ok (by_client_ e) (resting_ e);
  ei_sink : sink_ok (out_ e)
}.

(** The maps know nothing but the book, and every order is reachable through
    its key.  This needs what the code does not check: room in the pool, and
    keys that are not reused while live. *)
Record engine_exact {S} (e : Engine S) (a : ABook) : Prop := {
  ex_dom : ∀ id info, resting_ e !! id = Some info → id ∈ o_id <$> ab_orders a;
  ex_full : client_full (by_client_ e) (resting_ e)
}.

Lemma engine_new_inv {S} `{AckSink S} cap (out : S) n :
  Z.of_nat cap < 2 ^ 31 → sink_ok out → engine_inv cap (engine_new cap out) (mkABook [] []) n.
Proof.
  intros Hcap Hok. constructor; cbn; [by apply book_new_rep|apply abook_empty_wf|done| | | |done].
  - intros o Ho. by apply elem_of_nil in Ho.
  - intros id info. by rewrite lookup_empty.
  - intros k id. by rewrite lookup_empty.
Qed.

Lemma engine_new_exact {S} cap (out : S) : engine_exact (engine_new cap out) (mkABook [] []).
Proof. split; cbn; intros id info; by rewrite lookup_empty. Qed.

Lemma elem_of_ab_set s l a o : o ∈ ab_orders (ab_set s l a) ↔ o ∈ l ∨ o ∈ ab_side (opposite s) a.
Proof. destruct s; unfold ab_orders; cbn; rewrite elem_of_app; tauto. Qed.

Lemma elem_of_ab_orders s a o : o ∈ ab_orders a ↔ o ∈ ab_side s a ∨ o ∈ ab_side (opposite s) a.
Proof. destruct s; unfold ab_orders; cbn; rewrite elem_of_app; tauto. Qed.

(** The orders that rest after [ab_add]. *)
Lemma ab_add_elem cap (side : Side) (new : Order) (q : Z) (l : list Order) (a : ABook) o :
  let a1 := ab_set (opposite side) l a in
  o ∈ ab_orders (if (0 <? q) && (length (ab_orders a1) <? cap)%nat
                 then ab_set side (insert_order (better_of side) new (ab_side side a1)) a1
                 else a1) ↔
  (0 < q ∧ (length (ab_orders a1) < cap)%nat ∧ o = new) ∨ o ∈ l ∨ o ∈ ab_side side a.
Proof.
  intros a1. unfold a1. destruct (Z.ltb_spec 0 q); cbn [andb];
    [destruct (Nat.ltb_spec (length (ab_orders (ab_set (opposite side) l a))) cap)|].
  - rewrite elem_of_ab_set, elem_of_insert_order, ab_side_set_ne, ab_side_set_eq. tauto.
  - rewrite elem_of_ab_set, opposite_opposite. naive_solver lia.
  - rewrite elem_of_ab_set, opposite_opposite. naive_solver lia.
Qed.

Lemma side_ids_disjoint s a o :
  abook_wf a → o ∈ ab_side s a → o_id o ∉ o_id <$> ab_side (opposite s) a.
Proof.
  intros Hwf Ho. pose proof (wf_ids a Hwf) as Hnd.
  rewrite (ab_orders_side s), fmap_app in Hnd. apply NoDup_app in Hnd as (_ & Hdis & _).
  apply Hdis. by apply list_elem_of_fmap_2.
Qed.

Lemma okey_suffix_elem r l o :
  (okey <$> r) `suffix_of` (okey <$> l) → o ∈ r → ∃ o', o' ∈ l ∧ o_price o' = o_price o ∧ o_id o' = o_id o.
Proof.
  intros [k Hk] Ho. assert (okey o ∈ okey <$> l) as (o' & Heq & Ho')%list_elem_of_fmap.
  { rewrite Hk. apply elem_of_app. right. by apply list_elem_of_fmap_2. }
  exists o'. injection Heq as Hid _ Hp _. done.
Qed.

Lemma ab_add_prices cap side (new : Order) q l a :
  Forall (λ o, is_u32 (o_price o)) (ab_orders a) →
  (okey <$> l) `suffix_of` (okey <$> ab_side (opposite side) a) → is_u32 (o_price new) →
  let a1 := ab_set (opposite side) l a in
  Forall (λ o, is_u32 (o_price o))
    (ab_orders (if (0 <? q) && (length (ab_orders a1) <? cap)%nat
                then ab_set side (insert_order (better_of side) new (ab_side side a1)) a1
                else a1)).
Proof.
  rewrite Forall_forall. intros Hall Hsuf Hnew a1. apply Forall_forall. intros o.
  setoid_rewrite (elem_of_ab_orders side) in Hall.
  intros [(_ & _ & ->)|[Ho|Ho]]%ab_add_elem; [done| |by apply Hall; left].
  destruct (okey_suffix_elem _ _ o Hsuf Ho) as (o' & Ho' & <- & _). apply Hall. by right.
Qed.

(** With room in the pool a remainder does rest. *)
Lemma ab_add_rests cap id side price qty ts a a' tr :
  abook_wf a → is_u32 qty → (length (ab_orders a) < cap)%nat →
  ab_add cap id side price qty ts a = (a', tr) → 0 < qty - sumZ t_qty tr →
  id ∈ o_id <$> ab_orders a'.
Proof.
  intros Hwf Hq Hroom Hab Hleft.
  destruct (ab_add_cases _ _ _ _ _ _ _ _ _ Hwf (proj1 Hq) Hab) as (q & l & Hm & ->).
  pose proof (Matched_conserve _ _ _ _ _ Hm) as Hc.
  pose proof (Matched_suffix _ _ _ _ _ Hm) as [k Hk]. apply (f_equal length) in Hk.
  rewrite length_app, !length_fmap in Hk. rewrite (ab_orders_side side), length_app in Hroom.
  apply list_elem_of_fmap. setoid_rewrite ab_add_elem.
  eexists (mkOrder id side price q ts). split; [done|]. left. split_and!; [lia| |done].
  rewrite (ab_orders_set_side (opposite side)), opposite_opposite, length_app. lia.
Qed.

Lemma last_price_u32 (l : list Order) (tr : list Trade) :
  Forall (λ o, is_u32 (o_price o)) l →
  Forall (λ t, ∃ o, o ∈ l ∧ t_price t = o_price o) tr →
  match last tr with None => 0 | Some t => u32 (t_price t) end =
  match last tr with None => 0 | Some t => t_price t end.
Proof.
  intros Hl Htr. destruct (last tr) as [t|] eqn:Ht; [|done].
  apply last_Some in Ht as [tr' ->]. apply Forall_app in Htr as [_ Htr].
  apply Forall_cons in Htr as [(o & Ho & ->) _].
  apply wrap_unsigned_id. rewrite Forall_forall in Hl. by apply Hl.
Qed.

Lemma Matched_qty crosses side id ts qty l q r tr :
  Matched crosses side id ts qty l q r tr → is_u32 qty →
  is_u32 q ∧ qty - sumZ t_qty tr = q ∧ 0 ≤ sumZ t_qty tr.
Proof.
  intros Hm Hq. pose proof (Matched_conserve _ _ _ _ _ Hm).
  pose proof (Matched_nonneg _ _ _ _ _ Hm ltac:(apply Hq)).
  assert (0 ≤ sumZ t_qty tr); [|unfold fits_unsigned in *; lia].
  apply sumZ_nonneg. eapply Forall_impl; [exact (Matched_trades _ _ _ _ _ Hm)|]. cbn. naive_solver lia.
Qed.

Lemma maker_acks_balance crosses side id ts qty l q r tr resting :
  Matched crosses side id ts qty l q r tr → tracked resting l →
  sumZ a_fill_quantity (maker_acks resting l tr) = sumZ t_qty tr ∧
  Forall (λ k, 0 ≤ a_leaves_quantity k ∧ 0 ≤ a_fill_quantity k) (maker_acks resting l tr).
Proof.
  induction 1 as [qty l Hstop|qty o l q r tr Hq Hc Ho Hm IH|qty o l Hc Hq]; intros Ht.
  - by destruct l.
  - destruct (tracked_cons _ _ _ Ht) as [(info & Hinfo & _) Htl]. destruct (IH Htl) as [IH1 IH2].
    cbn. rewrite Hinfo. cbn. split; [lia|]. constructor; [cbn; lia|done].
  - destruct (tracked_cons _ _ _ Ht) as [(info & Hinfo & _) _].
    cbn. rewrite Hinfo. cbn. destruct l; cbn; (split; [lia|]); (constructor; [cbn; lia|done]).
Qed.

Section Apply.
Context {S : Type} `{AckSink S, !AckSinkLaws S}.
Context (cap : nat) (Hcap : Z.of_nat cap < 2 ^ 31).

Lemma engine_inv_fresh (e : Engine S) a n id :
  engine_inv cap e a n → n ≤ id → id ∉ o_id <$> ab_orders a.
Proof.
  intros Hinv Hid (o & -> & Ho)%list_elem_of_fmap.
  destruct (ei_tracked _ _ _ _ Hinv o Ho) as (info & Hinfo & _).
  apply (ei_ids _ _ _ _ Hinv) in Hinfo. lia.
Qed.

Lemma engine_fill_pre (e : Engine S) a n side id qty :
  engine_inv cap e a n → n ≤ id → is_u32 qty →
  fill_pre id (ab_side (opposite side) a) (mkFill 0 (by_client_ e) (resting_ e) (out_ e)) qty.
Proof.
  intros Hinv Hid Hq. pose proof (engine_inv_fresh e a n id Hinv Hid) as Hfr.
  destruct Hinv as [_ Hwf Hpx Htr _ _ Hok].
  pose proof (wf_ids a Hwf) as Hnd. rewrite (ab_orders_side side), fmap_app in Hnd, Hfr.
  rewrite (ab_orders_side side), Forall_app in Hpx.
  constructor; cbn; [|by apply NoDup_app in Hnd as (_ & _ & Hnd)| |apply (wf_live a Hwf)|apply Hpx| |done].
  - intros o Ho. apply Htr. rewrite elem_of_ab_orders. eauto.
  - rewrite elem_of_app in Hfr. tauto.
  - unfold fits_unsigned in Hq. lia.
Qed.

(** The maps after the remainder [q] of a new order has been recorded. *)
Definition rested (q id : Z) (info : RestingOrderInfo) (s : FillState S) : gmap Z RestingOrderInfo :=
  if 0 <? q then <[id := info]> (fs_resting s) else fs_resting s.
Definition keyed (q id : Z) (info : RestingOrderInfo) (s : FillState S) : gmap (Z * Z) Z :=
  if 0 <? q then <[ri_key info := id]> (fs_by_client s) else fs_by_client s.

Section Maps.
Context (e : Engine S) (a : ABook) (n : Z) (side : Side) (id q : Z) (l : list Order).
Context (new : Order) (info : RestingOrderInfo) (s : FillState S).
Hypothesis Hinv : engine_inv cap e a n.
Hypothesis Hid : n ≤ id.
Hypothesis Hnew : o_id new = id ∧ o_qty new = q.
Hypothesis Hinfo : ri_remaining info = q.
Hypothesis Hpost : fill_post (ab_side (opposite side) a) l
                     (mkFill 0 (by_client_ e) (resting_ e) (out_ e)) s.
Hypothesis Hsuf : (okey <$> l) `suffix_of` (okey <$> ab_side (opposite side) a).

Abbreviation a1 := (ab_set (opposite side) l a).
Abbreviation a' := (if (0 <? q) && (length (ab_orders a1) <? cap)%nat
                    then ab_set side (insert_order (better_of side) new (ab_side side a1)) a1
                    else a1).

Lemma kept_tracked o : o ∈ l ∨ o ∈ ab_side side a →
  o_id o ≠ id ∧ ∃ i, fs_resting s !! o_id o = Some i ∧ ri_remaining i = o_qty o.
Proof.
  intros Ho. assert (∃ i, fs_resting s !! o_id o = Some i ∧ ri_remaining i = o_qty o) as (i & Hi & Hr).
  { destruct Ho as [Ho|Ho]; [by apply (fp_tracked _ _ _ _ Hpost)|].
    rewrite (fp_frame _ _ _ _ Hpost).
    - apply (ei_tracked _ _ _ _ Hinv). apply (elem_of_ab_orders side). by left.
    - apply side_ids_disjoint; [apply Hinv|done]. }
  split; [|eauto]. destruct (fp_keys _ _ _ _ Hpost _ _ Hi) as (i0 & Hi0 & _).
  apply (ei_ids _ _ _ _ Hinv) in Hi0. lia.
Qed.

Lemma rested_tracked : tracked (rested q id info s) (ab_orders a').
Proof.
  intros o. rewrite ab_add_elem. unfold rested. destruct Hnew as [Hid' Hq'].
  intros [(Hq & _ & ->)|Ho].
  - rewrite (proj2 (Z.ltb_lt 0 q) Hq), Hid', lookup_insert_eq. eexists. split; [done|]. congruence.
  - destruct (kept_tracked o Ho) as [Hne Hex].
    destruct (0 <? q); [rewrite lookup_insert_ne by done|]; done.
Qed.

Lemma rested_ids x i : rested q id info s !! x = Some i → x < id + 1.
Proof.
  assert (∀ i, fs_resting s !! x = Some i → x < id + 1) as Hold.
  { intros i' Hx. destruct (fp_keys _ _ _ _ Hpost _ _ Hx) as (i0 & Hi0 & _).
    apply (ei_ids _ _ _ _ Hinv) in Hi0. lia. }
  unfold rested. destruct (0 <? q); [|by apply Hold].
  intros [[<- _]|[_ Hx]]%lookup_insert_Some; [lia|by eapply Hold].
Qed.

Lemma fill_fresh : fs_resting s !! id = None.
Proof.
  destruct (fs_resting s !! id) as [i|] eqn:Hi; [|done].
  destruct (fp_keys _ _ _ _ Hpost _ _ Hi) as (i0 & Hi0 & _).
  apply (ei_ids _ _ _ _ Hinv) in Hi0. lia.
Qed.

Lemma keyed_client : client_ok (keyed q id info s) (rested q id info s).
Proof.
  pose proof (fp_client _ _ _ _ Hpost (ei_client _ _ _ _ Hinv)) as Hc. unfold keyed, rested.
  destruct (0 <? q); [|done]. intros k i [[<- <-]|[Hk Hi]]%lookup_insert_Some.
  - rewrite lookup_insert_eq. eauto.
  - destruct (Hc k i Hi) as (inf & Hinf & <-). exists inf. split; [|done].
    rewrite lookup_insert_ne; [done|]. intros <-. rewrite fill_fresh in Hinf. done.
Qed.

Lemma keyed_exact :
  engine_exact e a → (0 < q → by_client_ e !! ri_key info = None) →
  (length (ab_orders a) < cap)%nat →
  (∀ x i, rested q id info s !! x = Some i → x ∈ o_id <$> ab_orders a') ∧
  client_full (keyed q id info s) (rested q id info s).
Proof.
  intros [Hdom Hfull] Hkey Hroom. pose proof (fp_full _ _ _ _ Hpost Hfull) as Hf.
  assert (length (ab_orders a1) < cap)%nat as Hroom1.
  { destruct Hsuf as [k Hk]. apply (f_equal length) in Hk. rewrite length_app, !length_fmap in Hk.
    rewrite (ab_orders_set_side (opposite side)), opposite_opposite, length_app.
    rewrite (ab_orders_side side), length_app in Hroom. lia. }
  assert (∀ x i, fs_resting s !! x = Some i → ∃ o, x = o_id o ∧ (o ∈ l ∨ o ∈ ab_side side a)) as Hold.
  { intros x i Hx. destruct (fp_keys _ _ _ _ Hpost _ _ Hx) as (i0 & Hi0 & _).
    apply Hdom in Hi0. apply list_elem_of_fmap in Hi0 as (o & -> & Ho).
    apply (elem_of_ab_orders side) in Ho as [Ho|Ho]; [eauto|].
    destruct (decide (o_id o ∈ o_id <$> l)) as [(o' & Heq & Ho')%list_elem_of_fmap|Hn]; [eauto|].
    rewrite (fp_gone _ _ _ _ Hpost) in Hx; [done|by apply list_elem_of_fmap_2|done]. }
  split.
  - intros x i Hx. apply list_elem_of_fmap. setoid_rewrite ab_add_elem.
    unfold rested in Hx. destruct (Z.ltb_spec 0 q) as [Hq|Hq].
    + apply lookup_insert_Some in Hx as [[<- _]|[_ Hx]]; [destruct Hnew; eauto 8|].
      destruct (Hold x i Hx) as (o & -> & Ho). eauto.
    + destruct (Hold x i Hx) as (o & -> & Ho). eauto.
  - unfold keyed, rested. destruct (Z.ltb_spec 0 q) as [Hq|Hq]; [|done].
    intros x i [[<- <-]|[Hne Hx]]%lookup_insert_Some; [by rewrite lookup_insert_eq|].
    rewrite lookup_insert_ne; [by apply Hf|]. intros Heq. apply Hf in Hx.
    pose proof (fp_by_client _ _ _ _ Hpost) as Hsub. rewrite map_subseteq_spec in Hsub.
    apply Hsub in Hx. cbn in Hx. rewrite <-Heq, Hkey in Hx by done. done.
Qed.

End Maps.

(** What a new order does, in terms of the specification. *)
Definition new_order_post (ev : SequencedEvent) (e e' : Engine S) (a a' : ABook) (tr : list Trade)
    : Prop :=
  ab_add cap (ev_seq_num ev) (ev_side ev) (ev_price ev) (ev_quantity ev) (ev_sequence_ts ev) a
    = (a', tr) ∧
  engine_inv cap e' a' (ev_seq_num ev + 1) ∧
  push_acks (maker_acks (resting_ e) (ab_side (opposite (ev_side ev)) a) tr ++ [taker_ack ev tr])
    (out_ e) = Some (out_ e') ∧
  length (maker_acks (resting_ e) (ab_side (opposite (ev_side ev)) a) tr) = length tr ∧
  (engine_exact e a → by_client_ e !! ev_key ev = None → (length (ab_orders a) < cap)%nat →
     engine_exact e' a') ∧
  (0 < ev_quantity ev - sumZ t_qty tr → by_client_ e' !! ev_key ev = Some (ev_seq_num ev)).

Lemma apply_new_order_sim (e : Engine S) a n ev :
  engine_inv cap e a n → event_fits ev → n ≤ ev_seq_num ev →
  ∃ e' a' tr, apply_new_order ev e = Some e' ∧ new_order_post ev e e' a a' tr.
Proof.
  intros Hinv Hfits Hn. pose proof (ef_quantity _ Hfits) as Hq.
  assert (locate_ (book_ e) !! ev_seq_num ev = None) as Hid.
  { apply (book_rep_fresh cap _ a); [apply Hinv|]. by eapply engine_inv_fresh. }
  destruct (add_sim_wf cap (ev_seq_num ev) (ev_side ev) (ev_price ev) (ev_quantity ev)
              (ev_sequence_ts ev) (book_ e) a [] Hcap (ei_book _ _ _ _ Hinv) (ei_wf _ _ _ _ Hinv) Hq Hid)
    as (a' & tr & b' & Hab & Hadd & Hrep' & Hwf'). change ([] ++ tr) with tr in Hadd.
  destruct (ab_add_cases _ _ _ _ _ _ _ _ _ (ei_wf _ _ _ _ Hinv) ltac:(apply Hq) Hab) as (q & l & Hm & Ha').
  destruct (fill_trades_sim _ _ _ _ _ _ _ _ _ Hm _ (engine_fill_pre e a n _ _ _ Hinv Hn Hq))
    as (s & Hs & Hfil & Hacks & Hlen & Hpost). cbn [fs_filled fs_resting fs_out] in *.
  rewrite Z.add_0_l in Hfil.
  destruct (Matched_qty _ _ _ _ _ _ _ _ _ Hm Hq) as (Hq' & Hleaves & Hsum).
  destruct (push_ack_law (taker_ack ev tr) (fs_out s) (fp_sink _ _ _ _ Hpost)) as (out & Hout & Hok).
  set (info := mkInfo (ev_session ev) (ev_client_order_id ev) q).
  exists (mkEngine b' (keyed q (ev_seq_num ev) info s) (rested q (ev_seq_num ev) info s) tr out), a', tr.
  assert (Forall (λ o, is_u32 (o_price o)) (ab_side (opposite (ev_side ev)) a)) as Hpx.
  { pose proof (ei_prices _ _ _ _ Hinv) as Hall. rewrite (ab_orders_side (opposite (ev_side ev))) in Hall.
    by apply Forall_app in Hall as [Hall _]. }
  assert (Forall (λ t, ∃ o, o ∈ ab_side (opposite (ev_side ev)) a ∧ t_price t = o_price o) tr) as Htpx.
  { eapply Forall_impl; [exact (Matched_trades _ _ _ _ _ Hm)|]. cbn.
    intros t (o & Ho & _ & _ & ->). eauto. }
  split.
  - unfold apply_new_order. rewrite Hadd. cbn [mbind option_bind]. rewrite Hs. cbn [mbind option_bind].
    rewrite Hfil, Hleaves, (wrap_unsigned_id 32 q Hq'), (last_price_u32 _ _ Hpx Htpx).
    unfold taker_ack in Hout. cbv zeta in Hout. rewrite Hleaves in Hout. rewrite Hout. done.
  - split_and!; [done| | |done| |].
    + constructor; cbn; try done.
      * rewrite Ha'. apply ab_add_prices; [apply Hinv|by eapply Matched_suffix|apply Hfits].
      * rewrite Ha'. by eapply rested_tracked.
      * intros x i. by eapply rested_ids.
      * by eapply keyed_client.
    + rewrite push_acks_app, Hacks. cbn. by rewrite Hout.
    + intros Hex Hkey Hroom. destruct (keyed_exact e a (ev_side ev) (ev_seq_num ev) q l
        (mkOrder (ev_seq_num ev) (ev_side ev) (ev_price ev) q (ev_sequence_ts ev)) info s)
        as [Hd Hf]; try done.
      { by eapply Matched_suffix. }
      constructor; cbn; [|done]. by rewrite Ha'.
    + intros Hpos. cbn. unfold keyed. rewrite (proj2 (Z.ltb_lt 0 q)) by lia. apply lookup_insert_eq.
Qed.

(** ** Cancelling *)

Definition cancel_ack (ev : SequencedEvent) (found : option Z) (removed : bool) : OutboundAck :=
  mkAck (ev_session ev) (ev_client_order_id ev) (default 0 found)
    (if removed then Canceled else Rejected) 0 0 0.

Lemma ab_cancel_elem id a o : o ∈ ab_orders (ab_cancel id a).2 ↔ o ∈ ab_orders a ∧ o_id o ≠ id.
Proof.
  unfold ab_cancel. case_decide as Hin; cbn.
  - unfold ab_orders. cbn. rewrite !elem_of_app, !elem_of_ab_remove. tauto.
  - split; [|by intros [? _]]. intros Ho. split; [done|]. intros <-.
    apply Hin. by apply list_elem_of_fmap_2.
Qed.

Lemma delete_client_ok by_client resting k id :
  client_ok by_client resting → by_client !! k = Some id →
  client_ok (delete k by_client) (delete id resting).
Proof.
  intros Hc Hk k' i [Hne Hi]%lookup_delete_Some. destruct (Hc k' i Hi) as (inf & Hinf & <-).
  exists inf. split; [|done]. rewrite lookup_delete_ne; [done|]. intros <-.
  destruct (Hc k id Hk) as (inf' & Hinf' & <-). congruence.
Qed.

Lemma delete_client_full by_client resting k id :
  client_full by_client resting → by_client !! k = Some id →
  client_full (delete k by_client) (delete id resting).
Proof.
  intros Hc Hk i inf [Hne Hi]%lookup_delete_Some. apply Hc in Hi.
  rewrite lookup_delete_ne; [done|]. intros Heq. rewrite Heq in Hk. congruence.
Qed.

Definition cancel_post (ev : SequencedEvent) (e e' : Engine S) (a a' : ABook) : Prop :=
  match by_client_ e !! ev_key ev with
  | None =>
      a' = a ∧ push_ack (cancel_ack ev None false) (out_ e) = Some (out_ e') ∧
      book_ e' = book_ e ∧ by_client_ e' = by_client_ e ∧ resting_ e' = resting_ e
  | Some id =>
      a' = (ab_cancel id a).2 ∧
      push_ack (cancel_ack ev (Some id) (ab_cancel id a).1) (out_ e) = Some (out_ e') ∧
      by_client_ e' = delete (ev_key ev) (by_client_ e) ∧ resting_ e' = delete id (resting_ e)
  end.

Lemma cancel_exact ev (e e' : Engine S) a a' :
  cancel_post ev e e' a a' → engine_exact e a → engine_exact e' a'.
Proof.
  unfold cancel_post. destruct (by_client_ e !! ev_key ev) as [id|] eqn:Hk.
  - intros (-> & _ & Hby & Hre) [Hd Hf]. constructor; rewrite Hre.
    + intros x i [Hne Hx]%lookup_delete_Some. apply Hd in Hx as (o & -> & Ho)%list_elem_of_fmap.
      apply list_elem_of_fmap_2, ab_cancel_elem. done.
    + rewrite Hby. by apply delete_client_full.
  - intros (-> & _ & Hb & Hby & Hre) [Hd Hf]. constructor; rewrite Hre, ?Hby; done.
Qed.

Lemma apply_cancel_order_sim (e : Engine S) a n ev :
  engine_inv cap e a n →
  ∃ e' a', apply_cancel_order ev e = Some e' ∧ cancel_post ev e e' a a' ∧ engine_inv cap e' a' n.
Proof.
  intros Hinv. pose proof (ei_sink _ _ _ _ Hinv) as Hok. unfold apply_cancel_order, cancel_post.
  destruct (by_client_ e !! ev_key ev) as [id|] eqn:Hk.
  - destruct (cancel_sim_wf cap id (book_ e) a Hcap (ei_book _ _ _ _ Hinv) (ei_wf _ _ _ _ Hinv))
      as (b' & Hb & Hrep & Hwf). rewrite Hb. cbn [mbind option_bind].
    destruct (push_ack_law (cancel_ack ev (Some id) (ab_cancel id a).1) (out_ e) Hok) as (out & Hout & Hok').
    unfold cancel_ack in Hout at 1. cbn in Hout. rewrite Hout. cbn.
    eexists _, _. split; [done|]. split; [by split_and!|]. destruct Hinv as [_ _ Hpx Htr Hids Hc _].
    constructor; cbn; try done.
    + apply Forall_forall. intros o [Ho _]%ab_cancel_elem. rewrite Forall_forall in Hpx. by apply Hpx.
    + intros o [Ho Hne]%ab_cancel_elem. rewrite lookup_delete_ne by done. by apply Htr.
    + intros x i [_ Hx]%lookup_delete_Some. by eapply Hids.
    + by apply delete_client_ok.
  - destruct (push_ack_law (cancel_ack ev None false) (out_ e) Hok) as (out & Hout & Hok').
    unfold cancel_ack in Hout at 1. cbn in Hout. rewrite Hout. cbn.
    eexists _, _. split; [done|]. split; [by split_and!|]. destruct Hinv. by constructor.
Qed.

(** ** Streams of events *)

Lemma engine_inv_mono (e : Engine S) a n n' : n ≤ n' → engine_inv cap e a n → engine_inv cap e a n'.
Proof.
  intros Hn [? ? ? ? Hids ? ?]. constructor; try done. intros id info Hi. specialize (Hids _ _ Hi). lia.
Qed.

Lemma apply_sim (e : Engine S) a n ev :
  engine_inv cap e a n → event_fits ev → n ≤ ev_seq_num ev →
  ∃ e' a', apply ev e = Some e' ∧ engine_inv cap e' a' (ev_seq_num ev + 1).
Proof.
  intros Hinv Hfits Hn. unfold apply. destruct (ev_type ev).
  - destruct (apply_new_order_sim e a n ev Hinv Hfits Hn) as (e' & a' & tr & He & Hpost).
    destruct Hpost as (_ & Hinv' & _). eauto.
  - destruct (apply_cancel_order_sim e a n ev Hinv) as (e' & a' & He & _ & Hinv').
    exists e', a'. split; [done|]. eapply engine_inv_mono; [|done]. lia.
  - exists e, a. split; [done|]. eapply engine_inv_mono; [|done]. lia.
  - exists e, a. split; [done|]. eapply engine_inv_mono; [|done]. lia.
Qed.

(** Events as the sequencer publishes them: the fields fit their types and the
    numbers increase, from [n] on. *)
Fixpoint stream_ok (n : Z) (evs : list SequencedEvent) : Prop :=
  match evs with
  | [] => True
  | ev :: evs' => event_fits ev ∧ n ≤ ev_seq_num ev ∧ stream_ok (ev_seq_num ev + 1) evs'
  end.

Lemma apply_all_sim evs : ∀ (e : Engine S) a n,
  engine_inv cap e a n → stream_ok n evs →
  ∃ e' a' n', apply_all evs e = Some e' ∧ engine_inv cap e' a' n'.
Proof.
  induction evs as [|ev evs IH]; intros e a n Hinv Hst; cbn; [eauto|].
  destruct Hst as (Hf & Hn & Hst). destruct (apply_sim e a n ev Hinv Hf Hn) as (e1 & a1 & -> & Hinv1).
  cbn. by eapply IH.
Qed.

End Apply.
