(* ===== verification/EngineProperties.v ===== *)
(** * EngineProperties: what the matching engine guarantees

    The consumer thread, the two kinds of ack sink, and the properties of
    [apply] on the engines that the sequenced stream can produce. *)

From S2P Require Import Prelude Types ObjectPool OrderBook PriceTime OrderBookProofs BookProperties SpscRing BroadcastRing Consumer MatchingEngine EngineProofs.

#[local] Open Scope Z_scope.

Lemma apply_all_app {S} `{AckSink S} l1 l2 (e : Engine S) :
  apply_all (l1 ++ l2) e = e' ← apply_all l1 e; apply_all l2 e'.
Proof.
  revert e. induction l1 as [|ev l1 IH]; intros e; cbn; [done|].
  destruct (apply ev e); cbn; [apply IH|done].
Qed.

(** ** The real sink *)

Section Sink.
Context {Q : Type} `{Fifo Q OutboundAck, !FifoLaws Q OutboundAck}.
Context (kMaxSpins : nat) (drain : nat → Q → Q).

(** The other thread only pops. *)
Definition only_drains : Prop :=
  ∀ n q l, fifo_rep q l → ∃ k, fifo_rep (drain n q) (drop k l).

Hypothesis Hdrain : only_drains.

Lemma spin_push_spec ack : ∀ tries spins q l,
  fifo_rep q l →
  ∃ ok q' k, spin_push drain tries spins ack q = Some (ok, q') ∧
    fifo_rep q' (drop k l ++ if ok then [ack] else []) ∧
    (ok = false → length (drop k l) = fifo_room) ∧
    ((length l < fifo_room)%nat → ok = true ∧ k = 0%nat).
Proof.
  induction tries as [|tries IH]; intros spins q l Hrep; cbn [spin_push].
  all: pose proof (fifo_push_law q l ack Hrep) as Hlaw; pose proof (fifo_bound q l Hrep) as Hb.
  all: case_decide as Hroom; [destruct Hlaw as (q' & -> & Hrep'); cbn; exists true, q', 0%nat; done|].
  - rewrite Hlaw. cbn. exists false, q, 0%nat. rewrite drop_0, app_nil_r.
    split_and!; [done|done|lia|lia].
  - rewrite Hlaw. cbn [mbind option_bind]. destruct (Hdrain spins q l Hrep) as (k1 & Hrep1).
    destruct (IH (Datatypes.S spins) (drain spins q) (drop k1 l) Hrep1)
      as (ok & q' & k & -> & Hrep' & Hfull & _).
    exists ok, q', (k1 + k)%nat. rewrite <-drop_drop. split_and!; [done|done|done|lia].
Qed.

Definition out_rep (s : AckOut Q) (l : list OutboundAck) (fl : option (list OutboundAck)) : Prop :=
  fifo_rep (acks_ s) l ∧
  match fills_ s, fl with
  | None, None => True
  | Some q, Some l' => fifo_rep q l'
  | _, _ => False
  end.

(** The copy for persistence: appended, or dropped. *)
Definition mirrored (ack : OutboundAck) (fl : option (list OutboundAck))
    : option (list OutboundAck) * bool :=
  match fl with
  | None => (None, false)
  | Some l => if decide (length l < fifo_room)%nat then (Some (l ++ [ack]), false) else (Some l, true)
  end.

Lemma engine_push_ack_spec ack s l fl :
  out_rep s l fl →
  ∃ s' k, engine_push_ack kMaxSpins drain ack s = Some s' ∧
    ((out_rep s' (drop k l ++ [ack]) (mirrored ack fl).1 ∧ acks_dropped_ s' = acks_dropped_ s ∧
      fills_dropped_ s' = (if (mirrored ack fl).2 then u64 (fills_dropped_ s + 1)
                           else fills_dropped_ s) ∧
      ((length l < fifo_room)%nat → k = 0%nat)) ∨
     (out_rep s' (drop k l) fl ∧ acks_dropped_ s' = u64 (acks_dropped_ s + 1) ∧
      fills_dropped_ s' = fills_dropped_ s ∧
      length (drop k l) = fifo_room ∧ length l = fifo_room)).
Proof.
  intros [Ha Hf]. unfold engine_push_ack. pose proof (fifo_bound _ _ Ha) as Hb.
  destruct (spin_push_spec ack (Datatypes.S kMaxSpins) 0 (acks_ s) l Ha)
    as (ok & q' & k & -> & Hrep & Hfull & Hroom). cbn [mbind option_bind].
  destruct ok; cbn.
  - destruct (fills_ s) as [fq|] eqn:Hfq, fl as [fl|]; try done.
    + pose proof (fifo_push_law fq fl ack Hf) as Hlaw. unfold mirrored. case_decide.
      * destruct Hlaw as (fq' & -> & Hf'). cbn. eexists _, k. split; [done|]. left.
        split_and!; [done|done|done|naive_solver].
      * rewrite Hlaw. cbn. eexists _, k. split; [done|]. left.
        split_and!; [done|done|done|naive_solver].
    + eexists _, k. split; [done|]. left. cbn. split_and!; [done|done|done|naive_solver].
  - specialize (Hfull eq_refl). rewrite app_nil_r in Hrep. eexists _, k. split; [done|]. right.
    split_and!; [done|done|done|done|]. rewrite length_drop in Hfull. lia.
Qed.

(** The real sink as an [AckSink]. *)
Definition out_sink : AckSink (AckOut Q) := {|
  push_ack := engine_push_ack kMaxSpins drain;
  sink_ok s := ∃ l fl, out_rep s l fl
|}.

Lemma out_sink_laws : @AckSinkLaws (AckOut Q) out_sink.
Proof.
  constructor. intros a s (l & fl & Hrep). cbn.
  destruct (engine_push_ack_spec a s l fl Hrep) as (s' & k & Hs & Hor). exists s'. split; [done|].
  destruct Hor as [(Hrep' & _)|(Hrep' & _)]; eauto.
Qed.

End Sink.

(** ** Properties *)

Section Properties.
Context {S : Type} `{AckSink S, !AckSinkLaws S}.
Context (cap : nat).

(** C4: A new order, on every branch.  [apply] matches the order on the book as
    the specification says, then reports: one fill ack per trade, in trade
    order, to the client that placed the resting order, with the price and
    quantity of that trade and what the resting order has left, "filled" when
    that is zero (the "shouldn't happen" branch is never taken: there are as
    many such acks as trades); and last one ack for the incoming order with the
    total filled, the last trade's price and the remainder.  The engine's
    invariant holds afterwards. *)
Theorem engine_new_order_acks (e : Engine S) a n ev :
  Z.of_nat cap < 2 ^ 31 → engine_inv cap e a n → event_fits ev → n ≤ ev_seq_num ev →
  ev_type ev = EvNewOrder →
  let makers := ab_side (opposite (ev_side ev)) a in
  ∃ e' a' tr, apply ev e = Some e' ∧
    ab_add cap (ev_seq_num ev) (ev_side ev) (ev_price ev) (ev_quantity ev) (ev_sequence_ts ev) a
      = (a', tr) ∧
    push_acks (maker_acks (resting_ e) makers tr ++ [taker_ack ev tr]) (out_ e) = Some (out_ e') ∧
    length (maker_acks (resting_ e) makers tr) = length tr ∧
    engine_inv cap e' a' (ev_seq_num ev + 1).
Proof.
  intros Hcap Hinv Hfits Hn Ht makers. unfold apply. rewrite Ht.
  destruct (apply_new_order_sim cap Hcap e a n ev Hinv Hfits Hn)
    as (e' & a' & tr & He & Hab & Hinv' & Hacks & Hlen & _).
  exists e', a', tr. done.
Qed.

(** C20: Cancelling, on every branch.  A key that is not known is rejected with
    exchange id 0 and changes nothing.  A known key is forgotten together with
    its exchange id; the ack says "canceled" exactly when that order was resting
    in the book, which then no longer holds it, and nothing else is removed. *)
Theorem engine_cancel_branches (e : Engine S) a n ev :
  Z.of_nat cap < 2 ^ 31 → engine_inv cap e a n → ev_type ev = EvCancelOrder →
  ∃ e' a', apply ev e = Some e' ∧ engine_inv cap e' a' n ∧
    match by_client_ e !! ev_key ev with
    | None =>
        push_ack (mkAck (ev_session ev) (ev_client_order_id ev) 0 Rejected 0 0 0) (out_ e)
          = Some (out_ e') ∧
        a' = a ∧ book_ e' = book_ e ∧ by_client_ e' = by_client_ e ∧ resting_ e' = resting_ e
    | Some id =>
        push_ack (mkAck (ev_session ev) (ev_client_order_id ev) id
                    (if decide (id ∈ o_id <$> ab_orders a) then Canceled else Rejected) 0 0 0)
          (out_ e) = Some (out_ e') ∧
        (∀ o, o ∈ ab_orders a' ↔ o ∈ ab_orders a ∧ o_id o ≠ id) ∧
        by_client_ e' = delete (ev_key ev) (by_client_ e) ∧ resting_ e' = delete id (resting_ e)
    end.
Proof.
  intros Hcap Hinv Ht. unfold apply. rewrite Ht.
  destruct (apply_cancel_order_sim cap Hcap e a n ev Hinv) as (e' & a' & He & Hpost & Hinv').
  exists e', a'. split; [done|]. split; [done|]. unfold cancel_post in Hpost.
  destruct (by_client_ e !! ev_key ev) as [id|].
  - destruct Hpost as (-> & Hack & Hby & Hre). split_and!; [|apply ab_cancel_elem|done|done].
    unfold cancel_ack, ab_cancel in Hack. cbn in Hack. by case_decide.
  - destruct Hpost as (-> & Hack & Hb & Hby & Hre). done.
Qed.

(** Session isolation.  A cancel request from one session never touches an
    order that another session placed: the order keeps its place in the book
    and its bookkeeping. *)
Theorem engine_session_isolation (e : Engine S) a n ev e' id info o :
  Z.of_nat cap < 2 ^ 31 → engine_inv cap e a n → ev_type ev = EvCancelOrder →
  apply ev e = Some e' →
  resting_ e !! id = Some info → ri_session info ≠ ev_session ev →
  o ∈ ab_orders a → o_id o = id →
  resting_ e' !! id = Some info ∧ ∃ a', book_rep cap (book_ e') a' ∧ o ∈ ab_orders a'.
Proof.
  intros Hcap Hinv Ht Happ Hres Hses Ho Hid. unfold apply in Happ. rewrite Ht in Happ.
  destruct (apply_cancel_order_sim cap Hcap e a n ev Hinv) as (e1 & a1 & He & Hpost & Hinv').
  rewrite Happ in He. injection He as <-. unfold cancel_post in Hpost.
  destruct (by_client_ e !! ev_key ev) as [id'|] eqn:Hk.
  - destruct Hpost as (-> & _ & _ & ->).
    destruct (ei_client _ _ _ _ Hinv _ _ Hk) as (info' & Hinfo' & Hkey).
    assert (id ≠ id') as Hne.
    { intros <-. rewrite Hres in Hinfo'. injection Hinfo' as <-. apply Hses.
      by apply (f_equal fst) in Hkey. }
    rewrite lookup_delete_ne by done. split; [done|].
    exists (ab_cancel id' a).2. split; [apply Hinv'|]. apply ab_cancel_elem. by subst.
  - destruct Hpost as (-> & _ & _ & _ & ->). split; [done|]. exists a. split; [apply Hinv'|done].
Qed.

(** What is accepted can be cancelled.  On an engine whose maps agree with
    the book, with room in the pool, a new order under a key that is not in use
    and that is not completely filled leaves the maps in agreement; and a later
    cancel under the same key is answered "canceled" with the order's exchange
    id and takes it out of the book. *)
Theorem engine_place_then_cancel (e : Engine S) a n ev cev :
  Z.of_nat cap < 2 ^ 31 → engine_inv cap e a n → engine_exact e a →
  event_fits ev → n ≤ ev_seq_num ev → ev_type ev = EvNewOrder →
  by_client_ e !! ev_key ev = None → (length (ab_orders a) < cap)%nat →
  ev_type cev = EvCancelOrder → ev_key cev = ev_key ev →
  ∃ e1 a1 tr e2 a2, apply ev e = Some e1 ∧ engine_inv cap e1 a1 (ev_seq_num ev + 1) ∧
    engine_exact e1 a1 ∧ apply cev e1 = Some e2 ∧ engine_exact e2 a2 ∧
    ab_add cap (ev_seq_num ev) (ev_side ev) (ev_price ev) (ev_quantity ev) (ev_sequence_ts ev) a
      = (a1, tr) ∧
    (0 < ev_quantity ev - sumZ t_qty tr →
       push_ack (mkAck (ev_session cev) (ev_client_order_id cev) (ev_seq_num ev) Canceled 0 0 0)
         (out_ e1) = Some (out_ e2) ∧
       (ev_seq_num ev ∉ o_id <$> ab_orders a2) ∧ by_client_ e2 !! ev_key ev = None).
Proof.
  intros Hcap Hinv Hex Hfits Hn Ht Hkey Hroom Htc Hkc. unfold apply. rewrite Ht, Htc.
  destruct (apply_new_order_sim cap Hcap e a n ev Hinv Hfits Hn)
    as (e1 & a1 & tr & He1 & Hab & Hinv1 & _ & _ & Hexact & Hby).
  specialize (Hexact Hex Hkey Hroom).
  destruct (apply_cancel_order_sim cap Hcap e1 a1 _ cev Hinv1) as (e2 & a2 & He2 & Hpost & Hinv2).
  exists e1, a1, tr, e2, a2. split_and!; try done; [by eapply cancel_exact|]. intros Hleft.
  pose proof (ab_add_rests _ _ _ _ _ _ _ _ _ (ei_wf _ _ _ _ Hinv) (ef_quantity _ Hfits) Hroom Hab Hleft)
    as Hin.
  unfold cancel_post in Hpost. rewrite Hkc, (Hby Hleft) in Hpost.
  destruct Hpost as (-> & Hack & -> & _). split_and!.
  - unfold cancel_ack, ab_cancel in Hack. by rewrite decide_True in Hack.
  - intros (o & Hid & Ho)%list_elem_of_fmap. apply ab_cancel_elem in Ho as [_ Hne]. done.
  - apply lookup_delete_eq.
Qed.

(** Quantities agree on both legs.  The fills reported to the owners of the
    resting orders add up to the fill reported for the incoming order; that fill
    plus the reported remainder is the quantity ordered, with no wrap-around;
    and every reported remainder is non-negative. *)
Theorem engine_fills_balance (e : Engine S) a n ev a' tr :
  engine_inv cap e a n → event_fits ev → n ≤ ev_seq_num ev →
  ab_add cap (ev_seq_num ev) (ev_side ev) (ev_price ev) (ev_quantity ev) (ev_sequence_ts ev) a
    = (a', tr) →
  let acks := maker_acks (resting_ e) (ab_side (opposite (ev_side ev)) a) tr in
  sumZ a_fill_quantity acks = a_fill_quantity (taker_ack ev tr) ∧
  a_fill_quantity (taker_ack ev tr) + a_leaves_quantity (taker_ack ev tr) = ev_quantity ev ∧
  Forall (λ k, 0 ≤ a_leaves_quantity k ∧ 0 ≤ a_fill_quantity k) (taker_ack ev tr :: acks).
Proof.
  intros Hinv Hfits Hn Hab acks. pose proof (ef_quantity _ Hfits) as Hq.
  destruct (ab_add_cases _ _ _ _ _ _ _ _ _ (ei_wf _ _ _ _ Hinv) (proj1 Hq) Hab) as (q & l & Hm & _).
  destruct (Matched_qty _ _ _ _ _ _ _ _ _ Hm Hq) as (Hq' & Hl & Hs). unfold fits_unsigned in Hq'.
  assert (tracked (resting_ e) (ab_side (opposite (ev_side ev)) a)) as Htr.
  { intros o Ho. apply (ei_tracked _ _ _ _ Hinv), (elem_of_ab_orders (ev_side ev)). by right. }
  destruct (maker_acks_balance _ _ _ _ _ _ _ _ _ _ Hm Htr) as [Hsum Hall].
  unfold acks, taker_ack. cbn. split_and!; [done|lia|]. constructor; [cbn; lia|done].
Qed.

(** The engine accepts every stream the sequencer can publish: from a fresh
    engine, on events whose numbers increase, [apply] always returns and the
    invariant holds at the end. *)
Theorem engine_stream_safe (out : S) n evs :
  Z.of_nat cap < 2 ^ 31 → sink_ok out → stream_ok n evs →
  ∃ e a n', apply_all evs (engine_new cap out) = Some e ∧ engine_inv cap e a n'.
Proof.
  intros Hcap Hok Hst. eapply apply_all_sim; [done| |done]. by apply engine_new_inv.
Qed.

(** A full pool makes the engine lie.  When the book already holds [cap]
    orders and the opposite side is empty, the book drops the new order, yet the
    client is told "accepted" with the whole quantity remaining and the engine
    records it as resting. *)
Theorem engine_pool_full_ack (e : Engine S) a n ev :
  Z.of_nat cap < 2 ^ 31 → engine_inv cap e a n → event_fits ev → n ≤ ev_seq_num ev →
  ev_type ev = EvNewOrder → 0 < ev_quantity ev →
  length (ab_orders a) = cap → ab_side (opposite (ev_side ev)) a = [] →
  ∃ e', apply ev e = Some e' ∧ book_rep cap (book_ e') a ∧
    push_ack (mkAck (ev_session ev) (ev_client_order_id ev) (ev_seq_num ev) Accepted 0 0
                (ev_quantity ev)) (out_ e) = Some (out_ e') ∧
    by_client_ e' !! ev_key ev = Some (ev_seq_num ev) ∧
    (ev_seq_num ev ∉ o_id <$> ab_orders a).
Proof.
  intros Hcap Hinv Hfits Hn Ht Hpos Hfull Hopp. unfold apply. rewrite Ht.
  destruct (apply_new_order_sim cap Hcap e a n ev Hinv Hfits Hn)
    as (e' & a' & tr & He & Hab & Hinv' & Hacks & _ & _ & Hby).
  exists e'. split; [done|]. unfold ab_add in Hab. rewrite Hopp in Hab. cbn [match_orders] in Hab.
  rewrite (proj2 (Nat.ltb_ge _ _)) in Hab
    by (rewrite ab_orders_set_side, opposite_opposite; cbn;
        rewrite (ab_orders_side (opposite (ev_side ev))), Hopp, opposite_opposite in Hfull; cbn in Hfull; lia).
  rewrite andb_false_r in Hab. injection Hab as Ha' Htr. subst tr. cbn in Hby, Hacks.
  rewrite Hopp in Hacks. cbn in Hacks. unfold taker_ack in Hacks. cbn in Hacks.
  rewrite Z.sub_0_r in Hacks. split_and!.
  - assert (a' = a) as <- by (rewrite <-Ha'; revert Hopp; destruct (ev_side ev), a; cbn; congruence).
    apply Hinv'.
  - by destruct (push_ack _ (out_ e)).
  - apply Hby. lia.
  - by eapply engine_inv_fresh.
Qed.

End Properties.

(** The consumer thread from any point: having applied the first [c] events, it
    applies the rest and returns. *)
Lemma engine_run_from {S B} `{AckSink S, !AckSinkLaws S}
    `{Broadcast B SequencedEvent, !BroadcastLaws B SequencedEvent}
    (cap consumer_id : nat) (running : nat → bool) (stop : nat) (b : B) hist cs c (out : S) e0 :
  Z.of_nat cap < 2 ^ 31 → sink_ok out → stream_ok 1 hist →
  bc_rep b hist cs → cs !! consumer_id = Some c → running stop = false →
  apply_all (take c hist) (engine_new cap out) = Some e0 →
  ∃ b' e a n, engine_run consumer_id (Datatypes.S stop) (Datatypes.S (length hist)) 0 running b e0
                = Some (b', e) ∧
    apply_all hist (engine_new cap out) = Some e ∧ engine_inv cap e a n ∧
    bc_rep b' hist (<[consumer_id := length hist]> cs).
Proof.
  intros Hcap Hok Hst Hrep Hc Hstop He0.
  destruct (apply_all_sim cap Hcap hist (engine_new cap out) (mkABook [] []) 1) as (e & a & n & He & Hinv);
    [by apply engine_new_inv|done|].
  destruct (consumer_run_spec consumer_id apply Some Some hist
              (λ l e, apply_all l (engine_new cap out) = Some e)
              (λ l e, apply_all l (engine_new cap out) = Some e)) with
    (running := running) (passes := Datatypes.S stop) (n := 0%nat) (m := stop)
    (fuel := Datatypes.S (length hist)) (b := b) (cs := cs) (c := c) (e := e0)
    as (b' & e' & Hrun & Hrep' & Happ); try done; try lia.
  - intros l ev e1 [k ->] Hl. rewrite !apply_all_app, Hl in He. cbn in He.
    destruct (apply ev e1) as [e2|] eqn:He2; [|done]. exists e2. split; [done|].
    rewrite apply_all_app, Hl. cbn. by rewrite He2.
  - intros l e1 Hl. eauto.
  - intros l e1 Hl. eauto.
  - rewrite Happ in He. injection He as <-. exists b', e', a, n. done.
Qed.

(** The consumer thread applies the whole stream.  Whenever [stop] is
    noticed, once the sequencer has stopped publishing, [run] returns, having
    applied every published event exactly once and in order, in batches of 32
    and then in its final drain. *)
Theorem engine_run_applies_all {S B} `{AckSink S, !AckSinkLaws S}
    `{Broadcast B SequencedEvent, !BroadcastLaws B SequencedEvent}
    (cap consumer_id : nat) (running : nat → bool) (stop : nat) (b : B) hist cs (out : S) :
  Z.of_nat cap < 2 ^ 31 → sink_ok out → stream_ok 1 hist →
  bc_rep b hist cs → cs !! consumer_id = Some 0%nat → running stop = false →
  ∃ b' e a n, engine_run consumer_id (Datatypes.S stop) (Datatypes.S (length hist)) 0 running b
                (engine_new cap out) = Some (b', e) ∧
    apply_all hist (engine_new cap out) = Some e ∧ engine_inv cap e a n ∧
    bc_rep b' hist (<[consumer_id := length hist]> cs).
Proof. intros Hcap Hok Hst Hrep Hc Hstop. by eapply (engine_run_from cap consumer_id). Qed.

(** The part of the engine that matters for replay. *)
Definition engine_core {S} (e : Engine S) := (book_ e, by_client_ e, resting_ e, trades_ e).

(** Equal up to the sink. *)
Definition same_core {S1 S2} (e1 : Engine S1) (e2 : Engine S2) : Prop :=
  engine_core e1 = engine_core e2.

Section Replay.
Context {S1 S2 : Type} `{AckSink S1} `{AckSink S2}.

Lemma fill_trades_core exchange_id trs : ∀ (s1 : FillState S1) (s2 : FillState S2) s1' s2',
  fs_filled s1 = fs_filled s2 → fs_by_client s1 = fs_by_client s2 → fs_resting s1 = fs_resting s2 →
  fill_trades exchange_id trs s1 = Some s1' → fill_trades exchange_id trs s2 = Some s2' →
  fs_filled s1' = fs_filled s2' ∧ fs_by_client s1' = fs_by_client s2' ∧ fs_resting s1' = fs_resting s2'.
Proof.
  induction trs as [|t trs IH]; intros [f1 b1 r1 o1] [f2 b2 r2 o2] s1' s2'; cbn;
    intros -> -> ->; [by intros [= <-] [= <-]|].
  unfold fill_trade. cbn. destruct (r2 !! _) as [info|]; cbn; [|by apply IH].
  destruct (push_ack _ o1) as [o1'|], (push_ack _ o2) as [o2'|]; cbn; [|done..].
  destruct (_ =? 0); by apply IH.
Qed.

Lemma apply_core ev (e1 : Engine S1) (e2 : Engine S2) e1' e2' :
  same_core e1 e2 → apply ev e1 = Some e1' → apply ev e2 = Some e2' → same_core e1' e2'.
Proof.
  destruct e1 as [k1 c1 r1 t1 o1], e2 as [k2 c2 r2 t2 o2]. unfold same_core, engine_core. cbn.
  intros [= -> -> -> ->]. unfold apply. destruct (ev_type ev); [| |by intros [= <-] [= <-]..].
  - unfold apply_new_order. cbn. destruct (add_limit_order _ _ _ _ _ _ _) as [[b tr]|]; cbn; [|done].
    destruct (fill_trades _ _ _) as [s1|] eqn:Hs1; cbn; [|done].
    destruct (fill_trades _ _ (mkFill 0 _ _ o2)) as [s2|] eqn:Hs2; cbn; [|by destruct (push_ack _ _)].
    destruct (fill_trades_core _ _ (mkFill 0 c2 r2 o1) (mkFill 0 c2 r2 o2) _ _
                eq_refl eq_refl eq_refl Hs1 Hs2) as (-> & -> & ->).
    destruct (push_ack _ _) as [o1'|]; cbn; [|done]. destruct (push_ack _ (fs_out s2)) as [o2'|]; cbn; [|done].
    by intros [= <-] [= <-].
  - unfold apply_cancel_order. cbn. destruct (c2 !! _) as [id|].
    + destruct (cancel _ _) as [[rm b]|]; cbn; [|done].
      destruct (push_ack _ o1), (push_ack _ o2); cbn; [|done..]. by intros [= <-] [= <-].
    + destruct (push_ack _ o1), (push_ack _ o2); cbn; [|done..]. by intros [= <-] [= <-].
Qed.

End Replay.

(** Replay.  The book, the key maps and the trades after a stream do not
    depend on what happens to the acks: two engines that apply the same events
    from the same state, whatever their sinks, end in the same state. *)
Lemma engine_replay {S1 S2} `{AckSink S1} `{AckSink S2} evs : ∀ (e1 : Engine S1) (e2 : Engine S2) e1' e2',
  same_core e1 e2 → apply_all evs e1 = Some e1' → apply_all evs e2 = Some e2' → same_core e1' e2'.
Proof.
  induction evs as [|ev evs IH]; intros e1 e2 e1' e2' Hc; cbn; [by intros [= <-] [= <-]|].
  destruct (apply ev e1) as [e1a|] eqn:H1, (apply ev e2) as [e2a|] eqn:H2; cbn; [|done..].
  apply IH. by eapply apply_core.
Qed.

(** No ack disappears silently.  [push_ack] always returns.  The ack is
    appended to the client-facing queue, at once if there is room, and then
    mirrored for persistence or counted in [fills_dropped_]; or, only if the
    queue was full at the first and at the last attempt, it is counted in
    [acks_dropped_] and not mirrored either. *)
Theorem ack_delivered_or_counted {Q} `{Fifo Q OutboundAck, !FifoLaws Q OutboundAck}
    (kMaxSpins : nat) (drain : nat → Q → Q) ack (s : AckOut Q) l fl :
  only_drains drain → out_rep s l fl →
  ∃ s' k, engine_push_ack kMaxSpins drain ack s = Some s' ∧
    ((out_rep s' (drop k l ++ [ack]) (mirrored ack fl).1 ∧ acks_dropped_ s' = acks_dropped_ s ∧
      fills_dropped_ s' = (if (mirrored ack fl).2 then u64 (fills_dropped_ s + 1)
                           else fills_dropped_ s) ∧
      ((length l < fifo_room)%nat → k = 0%nat)) ∨
     (out_rep s' (drop k l) fl ∧ acks_dropped_ s' = u64 (acks_dropped_ s + 1) ∧
      fills_dropped_ s' = fills_dropped_ s ∧
      length (drop k l) = fifo_room ∧ length l = fifo_room)).
Proof. intros. by apply engine_push_ack_spec. Qed.

(** ** A concrete engine used by the witnesses

    Session 5 offers 5 at 100 (client id 7), session 6 offers 4 at 101 (client
    id 7 too); acks are collected in a list. *)

Definition new_ev (seq session client : Z) (side : Side) (price qty : Z) : SequencedEvent :=
  mkEvent seq 0 0 EvNewOrder Gateway session client side price qty.
Definition cancel_ev (seq session client : Z) : SequencedEvent :=
  mkEvent seq 0 0 EvCancelOrder Gateway session client Buy 0 0.

Definition applied (ev : SequencedEvent) (e : Engine (list OutboundAck)) : Engine (list OutboundAck) :=
  default e (apply ev e).

Definition demo_engine0 : Engine (list OutboundAck) := engine_new 4 [].
Definition demo_engine1 : Engine (list OutboundAck) := applied (new_ev 1 5 7 Sell 100 5) demo_engine0.
Definition demo_engine2 : Engine (list OutboundAck) := applied (new_ev 2 6 7 Sell 101 4) demo_engine1.

Definition demo_asks : ABook :=
  mkABook [] [mkOrder 1 Sell 100 5 0; mkOrder 2 Sell 101 4 0].

Lemma new_ev_fits seq session client side price qty :
  is_u64 seq → is_u32 session → is_u64 client → is_u32 price → is_u32 qty →
  event_fits (new_ev seq session client side price qty).
Proof. intros. constructor; cbn; try done; [word_lia..|apply side_code_fits]. Qed.

Ltac fits := apply new_ev_fits; word_lia.

Lemma applied_inv cap e a n seq session client side price qty a' tr :
  Z.of_nat cap < 2 ^ 31 → engine_inv cap e a n → engine_exact e a →
  event_fits (new_ev seq session client side price qty) → n ≤ seq →
  ab_add cap seq side price qty 0 a = (a', tr) →
  by_client_ e !! (session, client) = None → (length (ab_orders a) < cap)%nat →
  engine_inv cap (applied (new_ev seq session client side price qty) e) a' (seq + 1) ∧
  engine_exact (applied (new_ev seq session client side price qty) e) a'.
Proof.
  intros Hcap Hinv Hex Hf Hn Hab Hk Hroom. unfold applied, apply. cbn [ev_type new_ev].
  destruct (apply_new_order_sim cap Hcap e a n (new_ev seq session client side price qty) Hinv Hf Hn)
    as (e' & a1 & tr1 & -> & Hab' & Hinv' & _ & _ & Hexact & _).
  unfold ev_side in Hab'. cbn in Hab'. rewrite side_of_code, Hab in Hab'. injection Hab' as <- <-. cbn. split; [done|].
  by apply Hexact.
Qed.

Lemma demo_engine_ok : engine_inv 4 demo_engine2 demo_asks 3 ∧ engine_exact demo_engine2 demo_asks.
Proof.
  destruct (applied_inv 4 demo_engine0 (mkABook [] []) 0 1 5 7 Sell 100 5
              (mkABook [] [mkOrder 1 Sell 100 5 0]) []) as [H1 H2];
    [lia|by apply engine_new_inv|apply engine_new_exact|fits|lia|reflexivity|reflexivity|cbn; lia|].
  apply (applied_inv 4 demo_engine1 _ 2 2 6 7 Sell 101 4 demo_asks [] ltac:(lia) H1 H2);
    [fits|lia|reflexivity|reflexivity|cbn; lia].
Qed.

Lemma engine_new_order_acks_witness :
  option_map out_ (apply (new_ev 3 8 1 Buy 101 7) demo_engine2) =
  Some [mkAck 5 7 1 Accepted 0 0 5; mkAck 6 7 2 Accepted 0 0 4;
        mkAck 5 7 1 Filled 100 5 0; mkAck 6 7 2 PartialFill 101 2 2; mkAck 8 1 3 Filled 101 7 0].
Proof.
  destruct (engine_new_order_acks 4 demo_engine2 demo_asks 3 (new_ev 3 8 1 Buy 101 7) ltac:(lia)
              (proj1 demo_engine_ok) ltac:(fits) ltac:(cbn; lia) eq_refl)
    as (e' & a' & tr & He & Hab & Hacks & _ & _).
  rewrite He. cbn. rewrite <-Hacks. injection Hab as _ <-. vm_compute. reflexivity.
Defined.

Lemma engine_cancel_branches_witness :
  ∃ e', apply (cancel_ev 3 5 7) demo_engine2 = Some e' ∧
        push_ack (mkAck 5 7 1 Canceled 0 0 0) (out_ demo_engine2) = Some (out_ e').
Proof.
  destruct (engine_cancel_branches 4 demo_engine2 demo_asks 3 (cancel_ev 3 5 7) ltac:(lia)
              (proj1 demo_engine_ok) eq_refl) as (e' & a' & He & _ & Hcase).
  exists e'. split; [exact He|].
  change (by_client_ demo_engine2 !! ev_key (cancel_ev 3 5 7)) with (Some 1) in Hcase.
  exact (proj1 Hcase).
Defined.

Lemma engine_session_isolation_witness :
  resting_ (applied (cancel_ev 3 5 7) demo_engine2) !! 2 = Some (mkInfo 6 7 4).
Proof.
  apply (engine_session_isolation 4 demo_engine2 demo_asks 3 (cancel_ev 3 5 7)
           (applied (cancel_ev 3 5 7) demo_engine2) 2 (mkInfo 6 7 4) (mkOrder 2 Sell 101 4 0)
           ltac:(lia) (proj1 demo_engine_ok)).
  - reflexivity.
  - vm_compute. reflexivity.
  - vm_compute. reflexivity.
  - discriminate.
  - right. left.
  - reflexivity.
Defined.

Lemma engine_place_then_cancel_witness :
  ∃ e1 a1 tr e2 a2, apply (new_ev 3 8 1 Buy 99 7) demo_engine2 = Some e1 ∧
    ab_add 4 3 Buy 99 7 0 demo_asks = (a1, tr) ∧ apply (cancel_ev 4 8 1) e1 = Some e2 ∧
    (0 < 7 - sumZ t_qty tr →
     push_ack (mkAck 8 1 3 Canceled 0 0 0) (out_ e1) = Some (out_ e2) ∧ (3 ∉ o_id <$> ab_orders a2)).
Proof.
  destruct demo_engine_ok as [Hinv Hex].
  destruct (engine_place_then_cancel 4 demo_engine2 demo_asks 3 (new_ev 3 8 1 Buy 99 7)
              (cancel_ev 4 8 1) ltac:(lia) Hinv Hex ltac:(fits) ltac:(cbn; lia)
              eq_refl eq_refl ltac:(cbn; lia) eq_refl eq_refl)
    as (e1 & a1 & tr & e2 & a2 & H1 & _ & _ & H2 & _ & Hab & Hc).
  exists e1, a1, tr, e2, a2. split; [exact H1|]. split; [exact Hab|]. split; [exact H2|].
  intros Hl. destruct (Hc Hl) as (Ha & Hb & _). exact (conj Ha Hb).
Defined.

Lemma engine_fills_balance_witness :
  let tr := [mkTrade 3 1 100 5 0; mkTrade 3 2 101 2 0] in
  sumZ a_fill_quantity (maker_acks (resting_ demo_engine2) (ab_asks demo_asks) tr) = 7.
Proof.
  exact (proj1 (engine_fills_balance 4 demo_engine2 demo_asks 3 (new_ev 3 8 1 Buy 101 7)
           (mkABook [] [mkOrder 2 Sell 101 2 0]) [mkTrade 3 1 100 5 0; mkTrade 3 2 101 2 0]
           (proj1 demo_engine_ok) ltac:(fits) ltac:(cbn; lia) eq_refl)).
Defined.

Lemma engine_stream_safe_witness :
  ∃ e a n, apply_all [new_ev 1 5 7 Sell 100 5; cancel_ev 2 5 7] demo_engine0 = Some e ∧
           engine_inv 4 e a n.
Proof.
  apply (engine_stream_safe 4 ([] : list OutboundAck) 1); [lia|exact I|].
  cbn. split_and!; [fits|lia|constructor; cbn; word_lia|lia|exact I].
Defined.

Lemma engine_pool_full_ack_witness :
  ∃ e', apply (new_ev 3 5 9 Sell 102 1) (applied (new_ev 1 5 7 Sell 100 5) (engine_new 1 [])) = Some e' ∧
        by_client_ e' !! (5, 9) = Some 3.
Proof.
  destruct (applied_inv 1 (engine_new 1 []) (mkABook [] []) 0 1 5 7 Sell 100 5
              (mkABook [] [mkOrder 1 Sell 100 5 0]) []) as [Hinv _];
    [lia|by apply engine_new_inv|apply engine_new_exact|fits|lia|reflexivity|reflexivity|cbn; lia|].
  destruct (engine_pool_full_ack 1 _ _ 2 (new_ev 3 5 9 Sell 102 1) ltac:(lia) Hinv ltac:(fits)
              ltac:(cbn; lia) eq_refl ltac:(cbn; lia) eq_refl eq_refl) as (e' & He & _ & _ & Hby & _).
  exists e'. exact (conj He Hby).
Defined.

(** Reusing a client order id strands an order.  A session places two sell
    orders under one client id; the first is filled, which erases the key of
    the second; the cancel of the second is rejected although it is resting. *)
Theorem client_id_reuse_strands_order :
  let evs := [new_ev 1 5 7 Sell 100 5; new_ev 2 5 7 Sell 101 5; new_ev 3 8 1 Buy 100 5;
              cancel_ev 4 5 7] in
  ∃ e, apply_all evs demo_engine0 = Some e ∧
    last (out_ e) = Some (mkAck 5 7 0 Rejected 0 0 0) ∧
    locate_ (book_ e) !! 2 = Some (Sell, 101) ∧ resting_ e !! 2 = Some (mkInfo 5 7 5).
Proof. vm_compute. eexists. split_and!; reflexivity. Qed.

Section DemoThread.
#[local] Instance demo_ev_ring : Broadcast (BroadcastRing SequencedEvent) SequencedEvent :=
  bcast_broadcast SequencedEvent 2 8.
#[local] Instance demo_ack_queue : Fifo (SpscRing OutboundAck) OutboundAck :=
  spsc_fifo OutboundAck 2.

Lemma engine_run_applies_all_witness :
  ∃ r b' e a n, bcast_rep 2 8 r [new_ev 1 5 7 Sell 100 5] [0%nat] ∧
    engine_run 0 3 2 0 (λ k, (k <? 2)%nat) r demo_engine0 = Some (b', e) ∧
    apply_all [new_ev 1 5 7 Sell 100 5] demo_engine0 = Some e ∧ engine_inv 4 e a n ∧
    bcast_rep 2 8 b' [new_ev 1 5 7 Sell 100 5] [1%nat].
Proof.
  assert (BroadcastLaws (BroadcastRing SequencedEvent) SequencedEvent) as Hlaws
    by apply bcast_broadcast_laws, pow2_capacity_2.
  pose proof (try_publish_spec 2 8 pow2_capacity_2 _ _ _ (new_ev 1 5 7 Sell 100 5)
    (registered_rep 2 8 ltac:(lia) (new_ev 0 0 0 Buy 0 0) 1 ltac:(lia)) ltac:(cbn; lia)) as Hpub.
  rewrite decide_False in Hpub by (intros [Hle|Hex%Exists_nil]%Exists_cons; [cbn in Hle; lia|done]).
  destruct Hpub as (r & _ & Hrep).
  destruct (engine_run_applies_all 4 0 (λ k, (k <? 2)%nat) 2 r [new_ev 1 5 7 Sell 100 5] [0%nat]
              ([] : list OutboundAck) ltac:(lia) I) as (b' & e & a & n & H1 & H2 & H3 & H4).
  - cbn. split_and!; [fits|lia|exact I].
  - exact Hrep.
  - reflexivity.
  - reflexivity.
  - exists r, b', e, a, n. exact (conj Hrep (conj H1 (conj H2 (conj H3 H4)))).
Defined.

Lemma ack_delivered_or_counted_witness :
  ∃ s', engine_push_ack 3 (λ _ q, q) (mkAck 5 7 1 Accepted 0 0 5)
          (mkAckOut (spsc_new 2 (mkAck 0 0 0 Accepted 0 0 0)) None 0 0) = Some s' ∧
        acks_dropped_ s' = 0.
Proof.
  assert (FifoLaws (SpscRing OutboundAck) OutboundAck) as Hlaws
    by apply spsc_fifo_laws, pow2_capacity_2.
  assert (fifo_rep (spsc_new 2 (mkAck 0 0 0 Accepted 0 0 0)) []) as Hrep.
  { exists [], 0%nat. split; [by apply spsc_new_inv, pow2_capacity_2|done]. }
  destruct (ack_delivered_or_counted 3 (λ _ q, q) (mkAck 5 7 1 Accepted 0 0 5)
              (mkAckOut (spsc_new 2 (mkAck 0 0 0 Accepted 0 0 0)) None 0 0) [] None)
    as (s' & k & Hs & [(_ & Hd & _)|(_ & _ & _ & _ & Hfull)]).
  - intros n q l Hq. exists 0%nat. exact Hq.
  - exact (conj Hrep I).
  - exists s'. exact (conj Hs Hd).
  - discriminate.
Defined.

End DemoThread.
