(* ===== verification/Protocol.v ===== *)
(** * Protocol: the binary wire protocol and its framing

    Models [include/gateway_protocol.hpp] and [include/frame_reader.hpp].  The
    structs are packed and the target is little-endian, so the bytes of a struct
    are the little-endian bytes of its fields in order; a byte is a [Z] below
    256.  [memcpy] of a struct out of a buffer is the struct's decoder. *)

From S2P Require Import Prelude Types.

#[local] Open Scope Z_scope.

Abbreviation bytes := (list Z).
Definition is_byte (b : Z) : Prop := is_u8 b.

(** ** Little-endian integers *)

Fixpoint le_encode (n : nat) (z : Z) : bytes :=
  match n with O => [] | S n => z mod 256 :: le_encode n (z / 256) end.

Fixpoint le_decode (bs : bytes) : Z :=
  match bs with [] => 0 | b :: bs' => b + 256 * le_decode bs' end.

Lemma length_le_encode n z : length (le_encode n z) = n.
Proof. revert z. induction n as [|n IH]; intros z; cbn; [done|]. by rewrite IH. Qed.

Lemma le_encode_bytes n z : Forall is_byte (le_encode n z).
Proof.
  revert z. induction n as [|n IH]; intros z; cbn; [done|].
  constructor; [|apply IH]. unfold is_byte, fits_unsigned. change (2 ^ 8) with 256.
  apply Z.mod_pos_bound. lia.
Qed.

Lemma le_decode_encode n z : fits_unsigned (8 * Z.of_nat n) z → le_decode (le_encode n z) = z.
Proof.
  revert z. induction n as [|n IH]; intros z Hz; cbn [le_encode le_decode].
  - unfold fits_unsigned in Hz. cbn in Hz. lia.
  - rewrite IH; [pose proof (Z.div_mod z 256); lia|]. unfold fits_unsigned in *.
    replace (8 * Z.of_nat (S n)) with (8 + 8 * Z.of_nat n) in Hz by lia.
    rewrite Z.pow_add_r in Hz by lia. change (2 ^ 8) with 256 in Hz. split.
    + apply Z.div_pos; lia.
    + apply Z.div_lt_upper_bound; lia.
Qed.

Lemma le_encode_decode bs : Forall is_byte bs → le_encode (length bs) (le_decode bs) = bs.
Proof.
  induction 1 as [|b bs Hb Hbs IH]; cbn [le_encode le_decode length]; [done|].
  unfold is_byte, fits_unsigned in Hb. change (2 ^ 8) with 256 in Hb.
  f_equal.
  - rewrite Z.mul_comm, Z.mod_add by lia. apply Z.mod_small. lia.
  - rewrite Z.mul_comm, Z.div_add, (Z.div_small b) by lia. exact IH.
Qed.

(** Read the [n] bytes at offset [off]. *)
Definition field (off n : nat) (bs : bytes) : Z := le_decode (take n (drop off bs)).

(** ** gateway_protocol.hpp *)

Inductive MsgType :=
| MtLogon | MtLogout | MtHeartbeat | MtTestRequest | MtResendRequest
| MtNewOrder | MtCancelOrder | MtReplaceOrder | MtExecutionReport | MtReject.

#[export] Instance MsgType_eq_dec : EqDecision MsgType.
Proof. solve_decision. Defined.

Definition msg_type_code (t : MsgType) : Z :=
  match t with
  | MtLogon => 1 | MtLogout => 2 | MtHeartbeat => 3 | MtTestRequest => 4 | MtResendRequest => 5
  | MtNewOrder => 10 | MtCancelOrder => 11 | MtReplaceOrder => 12
  | MtExecutionReport => 20 | MtReject => 21
  end.

(** The enumerator with a given code; any other byte has none and falls through
    to [default:] in a [switch]. *)
Definition msg_type_of (c : Z) : option MsgType :=
  if c =? 1 then Some MtLogon else if c =? 2 then Some MtLogout
  else if c =? 3 then Some MtHeartbeat else if c =? 4 then Some MtTestRequest
  else if c =? 5 then Some MtResendRequest else if c =? 10 then Some MtNewOrder
  else if c =? 11 then Some MtCancelOrder else if c =? 12 then Some MtReplaceOrder
  else if c =? 20 then Some MtExecutionReport else if c =? 21 then Some MtReject
  else None.

Lemma msg_type_of_code t : msg_type_of (msg_type_code t) = Some t.
Proof. by destruct t. Qed.

(** Header fields as they are on the wire; [h_type] is the raw byte. *)
Record MsgHeader := mkHeader { h_body_length : Z; h_type : Z; h_seq_num : Z }.

Record LogonMsg := mkLogon {
  l_client_id : Z; l_heartbeat_interval_ms : Z; l_starting_seq_num : Z }.

(** [n_side] is the raw byte of the [Side] enumeration. *)
Record NewOrderMsg := mkNewOrder {
  n_client_order_id : Z; n_symbol : bytes; n_side : Z; n_price : Z; n_quantity : Z }.

Record CancelOrderMsg := mkCancel { c_client_order_id : Z }.

Record ExecutionReportMsg := mkReport {
  x_client_order_id : Z; x_exchange_order_id : Z; x_status : Z;
  x_fill_price : Z; x_fill_quantity : Z; x_leaves_quantity : Z }.

Definition sizeof_MsgHeader : nat := 7.
Definition sizeof_LogonMsg : nat := 16.
Definition sizeof_NewOrderMsg : nat := 25.
Definition sizeof_CancelOrderMsg : nat := 8.
Definition sizeof_ExecutionReportMsg : nat := 29.

Definition encode_header (h : MsgHeader) : bytes :=
  le_encode 2 (h_body_length h) ++ le_encode 1 (h_type h) ++ le_encode 4 (h_seq_num h).
Definition decode_header (bs : bytes) : MsgHeader :=
  mkHeader (field 0 2 bs) (field 2 1 bs) (field 3 4 bs).

Definition encode_logon (m : LogonMsg) : bytes :=
  le_encode 8 (l_client_id m) ++ le_encode 4 (l_heartbeat_interval_ms m) ++
  le_encode 4 (l_starting_seq_num m).
Definition decode_logon (bs : bytes) : LogonMsg :=
  mkLogon (field 0 8 bs) (field 8 4 bs) (field 12 4 bs).

Definition encode_new_order (m : NewOrderMsg) : bytes :=
  le_encode 8 (n_client_order_id m) ++ n_symbol m ++ le_encode 1 (n_side m) ++
  le_encode 4 (n_price m) ++ le_encode 4 (n_quantity m).
Definition decode_new_order (bs : bytes) : NewOrderMsg :=
  mkNewOrder (field 0 8 bs) (take 8 (drop 8 bs)) (field 16 1 bs) (field 17 4 bs) (field 21 4 bs).

Definition encode_cancel (m : CancelOrderMsg) : bytes := le_encode 8 (c_client_order_id m).
Definition decode_cancel (bs : bytes) : CancelOrderMsg := mkCancel (field 0 8 bs).

Definition encode_report (m : ExecutionReportMsg) : bytes :=
  le_encode 8 (x_client_order_id m) ++ le_encode 8 (x_exchange_order_id m) ++
  le_encode 1 (x_status m) ++ le_encode 4 (x_fill_price m) ++
  le_encode 4 (x_fill_quantity m) ++ le_encode 4 (x_leaves_quantity m).
Definition decode_report (bs : bytes) : ExecutionReportMsg :=
  mkReport (field 0 8 bs) (field 8 8 bs) (field 16 1 bs) (field 17 4 bs) (field 21 4 bs)
           (field 25 4 bs).

(** A frame: a header whose length field is right, and the body. *)
Definition make_frame (type seq : Z) (body : bytes) : bytes :=
  encode_header (mkHeader (Z.of_nat (length body)) type seq) ++ body.

(** *** Reading a field of a concatenation *)

Lemma field_here n z rest :
  fits_unsigned (8 * Z.of_nat n) z → field 0 n (le_encode n z ++ rest) = z.
Proof.
  intros Hz. unfold field. rewrite drop_0, take_app_le by (by rewrite length_le_encode).
  rewrite take_ge by (by rewrite length_le_encode). by apply le_decode_encode.
Qed.

Lemma field_skip off n xs rest :
  (length xs ≤ off)%nat → field off n (xs ++ rest) = field (off - length xs) n rest.
Proof. intros Hle. unfold field. by rewrite drop_app_ge. Qed.

Lemma field_app off n xs rest :
  (off + n ≤ length xs)%nat → field off n (xs ++ rest) = field off n xs.
Proof.
  intros Hle. unfold field. rewrite drop_app_le by lia. by rewrite take_app_le by (rewrite length_drop; lia).
Qed.

(** Evaluates [field] on encoded fields. *)
Ltac fields :=
  repeat first
    [ rewrite field_here by assumption
    | rewrite field_skip by (rewrite ?length_le_encode; lia);
      rewrite ?length_le_encode;
      repeat match goal with Hlen : length _ = _ |- _ => rewrite !Hlen end;
      cbn [Nat.sub] ].

(** *** What each message needs to be representable *)

Definition header_fits (h : MsgHeader) : Prop :=
  is_u16 (h_body_length h) ∧ is_u8 (h_type h) ∧ is_u32 (h_seq_num h).
Definition logon_fits (m : LogonMsg) : Prop :=
  is_u64 (l_client_id m) ∧ is_u32 (l_heartbeat_interval_ms m) ∧ is_u32 (l_starting_seq_num m).
Definition new_order_fits (m : NewOrderMsg) : Prop :=
  is_u64 (n_client_order_id m) ∧ length (n_symbol m) = 8%nat ∧ is_u8 (n_side m) ∧
  is_u32 (n_price m) ∧ is_u32 (n_quantity m).
Definition cancel_fits (m : CancelOrderMsg) : Prop := is_u64 (c_client_order_id m).
Definition report_fits (m : ExecutionReportMsg) : Prop :=
  is_u64 (x_client_order_id m) ∧ is_u64 (x_exchange_order_id m) ∧ is_u8 (x_status m) ∧
  is_u32 (x_fill_price m) ∧ is_u32 (x_fill_quantity m) ∧ is_u32 (x_leaves_quantity m).

Lemma decode_encode_header h rest :
  header_fits h → decode_header (encode_header h ++ rest) = h.
Proof.
  intros (H1 & H2 & H3). unfold decode_header, encode_header. rewrite <-!app_assoc.
  fields. by destruct h.
Qed.

Lemma decode_encode_logon m rest : logon_fits m → decode_logon (encode_logon m ++ rest) = m.
Proof.
  intros (H1 & H2 & H3). unfold decode_logon, encode_logon. rewrite <-!app_assoc.
  fields. by destruct m.
Qed.

Lemma decode_encode_new_order m rest :
  new_order_fits m → decode_new_order (encode_new_order m ++ rest) = m.
Proof.
  intros (H1 & H2 & H3 & H4 & H5). unfold decode_new_order, encode_new_order. rewrite <-!app_assoc.
  assert (take 8 (drop 8 (le_encode 8 (n_client_order_id m) ++ n_symbol m ++ le_encode 1 (n_side m) ++
            le_encode 4 (n_price m) ++ le_encode 4 (n_quantity m) ++ rest)) = n_symbol m) as ->.
  { rewrite drop_app_ge by (by rewrite length_le_encode). rewrite length_le_encode, Nat.sub_diag, drop_0.
    rewrite take_app_le by lia. by apply take_ge; lia. }
  fields. by destruct m.
Qed.

Lemma decode_encode_cancel m rest : cancel_fits m → decode_cancel (encode_cancel m ++ rest) = m.
Proof. intros H1. unfold decode_cancel, encode_cancel. fields. by destruct m. Qed.

Lemma decode_encode_report m rest : report_fits m → decode_report (encode_report m ++ rest) = m.
Proof.
  intros (H1 & H2 & H3 & H4 & H5 & H6). unfold decode_report, encode_report. rewrite <-!app_assoc.
  fields. by destruct m.
Qed.

Lemma length_encode_header h : length (encode_header h) = sizeof_MsgHeader.
Proof. done. Qed.

(** ** frame_reader.hpp

    The reader's state is its [buffer_]. *)

Definition feed (data : bytes) (buffer_ : bytes) : bytes := buffer_ ++ data.

Definition next_frame (buffer_ : bytes) : option bytes * bytes :=
  if (length buffer_ <? sizeof_MsgHeader)%nat then (None, buffer_)
  else
    let header := decode_header buffer_ in
    let total_len := (sizeof_MsgHeader + Z.to_nat (h_body_length header))%nat in
    if (length buffer_ <? total_len)%nat then (None, buffer_)
    else (Some (take total_len buffer_), drop total_len buffer_).

(** [while (auto frame = reader.next_frame())], collecting the frames. *)
Fixpoint all_frames (fuel : nat) (buffer_ : bytes) : option (list bytes * bytes) :=
  match fuel with
  | O => None
  | S fuel =>
      match next_frame buffer_ with
      | (None, buf) => Some ([], buf)
      | (Some f, buf) => '(fs, buf') ← all_frames fuel buf; Some (f :: fs, buf')
      end
  end.

(** A frame consumes at least a header, so one more step than bytes is enough. *)
Definition frames (buffer_ : bytes) : list bytes * bytes :=
  default ([], buffer_) (all_frames (S (length buffer_)) buffer_).

(** Feeding chunk by chunk and draining after each, as [handle_readable] does. *)
Fixpoint feed_chunks (chunks : list bytes) (buffer_ : bytes) : list bytes * bytes :=
  match chunks with
  | [] => ([], buffer_)
  | c :: chunks' =>
      let '(fs, buf) := frames (feed c buffer_) in
      let '(fs', buf') := feed_chunks chunks' buf in
      (fs ++ fs', buf')
  end.

#[local] Arguments frames : simpl never.

Lemma next_frame_shrinks buf f buf' :
  next_frame buf = (Some f, buf') → buf = f ++ buf' ∧ (length buf' < length buf)%nat.
Proof.
  unfold next_frame. destruct (Nat.ltb_spec (length buf) sizeof_MsgHeader); [done|]. cbv zeta.
  destruct (Nat.ltb_spec (length buf) (sizeof_MsgHeader + Z.to_nat (h_body_length (decode_header buf))));
    [done|].
  intros [= <- <-]. split; [by rewrite take_drop|]. rewrite length_drop.
  unfold sizeof_MsgHeader in *. lia.
Qed.

Lemma next_frame_none buf buf' : next_frame buf = (None, buf') → buf' = buf.
Proof. unfold next_frame. cbv zeta. repeat case_match; congruence. Qed.

(** More input does not change the first frame. *)
Lemma next_frame_app buf f buf' more :
  next_frame buf = (Some f, buf') → next_frame (buf ++ more) = (Some f, buf' ++ more).
Proof.
  unfold next_frame. destruct (Nat.ltb_spec (length buf) sizeof_MsgHeader) as [|Hh]; [done|]. cbv zeta.
  assert (h_body_length (decode_header (buf ++ more)) = h_body_length (decode_header buf)) as ->.
  { cbn. apply field_app. unfold sizeof_MsgHeader in Hh. lia. }
  set (n := (sizeof_MsgHeader + Z.to_nat (h_body_length (decode_header buf)))%nat).
  destruct (Nat.ltb_spec (length buf) n) as [|Hn]; [done|]. intros [= <- <-].
  rewrite length_app.
  destruct (Nat.ltb_spec (length buf + length more) sizeof_MsgHeader); [lia|].
  destruct (Nat.ltb_spec (length buf + length more) n); [lia|].
  by rewrite take_app_le, drop_app_le by lia.
Qed.

Lemma all_frames_enough fuel1 : ∀ fuel2 buf,
  (length buf < fuel1)%nat → (length buf < fuel2)%nat →
  all_frames fuel1 buf = all_frames fuel2 buf ∧ is_Some (all_frames fuel1 buf).
Proof.
  induction fuel1 as [|fuel1 IH]; intros [|fuel2] buf H1 H2; try lia. cbn.
  destruct (next_frame buf) as [[f|] buf'] eqn:Hn; [|by eauto].
  apply next_frame_shrinks in Hn as [_ Hlt].
  destruct (IH fuel2 buf') as [Heq [[fs b] Hs]]; [lia..|].
  rewrite <-Heq, Hs. cbn. eauto.
Qed.

(** [frames] satisfies the loop's equation. *)
Lemma frames_unfold buf :
  frames buf = match next_frame buf with
               | (None, _) => ([], buf)
               | (Some f, buf') => let '(fs, b) := frames buf' in (f :: fs, b)
               end.
Proof.
  unfold frames at 1. cbn [all_frames].
  destruct (next_frame buf) as [[f|] buf'] eqn:Hn; [|by apply next_frame_none in Hn as ->].
  apply next_frame_shrinks in Hn as [_ Hlt].
  destruct (all_frames_enough (length buf) (S (length buf')) buf') as [Heq [[fs b] Hs]]; [lia..|].
  unfold frames. by rewrite <-Heq, Hs.
Qed.

Lemma frames_induction (P : bytes → Prop) :
  (∀ buf, (∀ f buf', next_frame buf = (Some f, buf') → P buf') → P buf) → ∀ buf, P buf.
Proof.
  intros Hstep. assert (∀ n buf, (length buf < n)%nat → P buf) as Hall.
  { induction n as [|n IH]; intros buf Hlt; [lia|]. apply Hstep. intros f buf' Hn. apply IH.
    apply next_frame_shrinks in Hn as [_ Hs]. lia. }
  intros buf. apply (Hall (S (length buf))). lia.
Qed.

(** The frames of more input continue where the remainder left off. *)
Lemma frames_app buf more :
  frames (buf ++ more) =
  let '(fs, rest) := frames buf in
  let '(fs', rest') := frames (rest ++ more) in (fs ++ fs', rest').
Proof.
  revert buf. apply (frames_induction (λ buf, frames (buf ++ more) =
    let '(fs, rest) := frames buf in
    let '(fs', rest') := frames (rest ++ more) in (fs ++ fs', rest'))).
  intros buf IH. rewrite (frames_unfold buf).
  destruct (next_frame buf) as [[f|] buf'] eqn:Hn.
  - rewrite (frames_unfold (buf ++ more)), (next_frame_app _ _ _ more Hn), (IH f buf' eq_refl).
    destruct (frames buf') as [fs rest]. by destruct (frames (rest ++ more)).
  - by destruct (frames (buf ++ more)).
Qed.

Lemma frames_drained buf : frames (frames buf).2 = ([], (frames buf).2).
Proof.
  revert buf. apply (frames_induction (λ buf, frames (frames buf).2 = ([], (frames buf).2))).
  intros buf IH. rewrite (frames_unfold buf). destruct (next_frame buf) as [[f|] buf'] eqn:Hn.
  - specialize (IH f buf' eq_refl). by destruct (frames buf').
  - cbn [snd]. by rewrite frames_unfold, Hn.
Qed.

Lemma next_frame_make type seq body rest :
  is_u8 type → is_u32 seq → (Z.of_nat (length body) < 2 ^ 16) →
  next_frame (make_frame type seq body ++ rest) = (Some (make_frame type seq body), rest).
Proof.
  intros Ht Hs Hb. unfold next_frame, make_frame.
  set (h := mkHeader (Z.of_nat (length body)) type seq).
  assert (header_fits h) as Hfit by (unfold h, header_fits, fits_unsigned in *; cbn; lia).
  rewrite <-app_assoc, decode_encode_header by done. cbv zeta. cbn [h_body_length h].
  rewrite Nat2Z.id, !length_app, length_encode_header.
  destruct (Nat.ltb_spec (sizeof_MsgHeader + (length body + length rest)) sizeof_MsgHeader); [lia|].
  destruct (Nat.ltb_spec (sizeof_MsgHeader + (length body + length rest))
                         (sizeof_MsgHeader + length body)); [lia|].
  rewrite app_assoc.
  assert (length (encode_header h ++ body) = sizeof_MsgHeader + length body)%nat as Hl
    by (by rewrite length_app).
  by rewrite <-Hl, take_app_length, drop_app_length.
Qed.

(** ** Properties *)

(** A message that a peer frames. *)
Record WireMsg := mkWire { w_type : Z; w_seq : Z; w_body : bytes }.
Definition wire_fits (m : WireMsg) : Prop :=
  is_u8 (w_type m) ∧ is_u32 (w_seq m) ∧ Z.of_nat (length (w_body m)) < 2 ^ 16.
Definition wire_bytes (m : WireMsg) : bytes := make_frame (w_type m) (w_seq m) (w_body m).

(** C6: Framing does not depend on how the stream is cut.  However TCP splits
    the bytes into [recv] chunks, feeding the chunks one at a time and draining
    complete frames after each yields the same frames, in the same order, and
    leaves the same bytes buffered, as feeding everything at once. *)
Theorem framing_chunk_independent buffer_ chunks :
  frames buffer_ = ([], buffer_) →
  feed_chunks chunks buffer_ = frames (buffer_ ++ concat chunks).
Proof.
  revert buffer_. induction chunks as [|c chunks IH]; intros buf Hd; cbn.
  - by rewrite app_nil_r.
  - unfold feed. rewrite app_assoc, (frames_app (buf ++ c)). pose proof (frames_drained (buf ++ c)) as Hd'.
    destruct (frames (buf ++ c)) as [fs rest]. cbn in Hd'. by rewrite (IH rest Hd').
Qed.

Lemma framing_chunk_independent_witness :
  feed_chunks [[0; 0; 3]; [9; 0; 0; 0; 1]] [] = frames [0; 0; 3; 9; 0; 0; 0; 1].
Proof. exact (framing_chunk_independent [] [[0; 0; 3]; [9; 0; 0; 0; 1]] eq_refl). Defined.

(** Framing round trip.  The concatenation of any sequence of well-formed
    frames, followed by an incomplete one, is split back into exactly those
    frames and the incomplete remainder. *)
Theorem framing_roundtrip msgs rest :
  Forall wire_fits msgs → next_frame rest = (None, rest) →
  frames (concat (wire_bytes <$> msgs) ++ rest) = (wire_bytes <$> msgs, rest).
Proof.
  intros Hfit Hrest. induction Hfit as [|m msgs (Ht & Hs & Hb) Hfit IH].
  - cbn [fmap list_fmap concat app]. by rewrite frames_unfold, Hrest.
  - pose proof (next_frame_make _ _ _ (concat (wire_bytes <$> msgs) ++ rest) Ht Hs Hb) as Hn.
    fold (wire_bytes m) in Hn. rewrite fmap_cons. cbn [concat]. by rewrite <-app_assoc, frames_unfold, Hn, IH.
Qed.

Lemma framing_roundtrip_witness :
  frames (wire_bytes (mkWire 3 1 []) ++ wire_bytes (mkWire 11 2 [1; 0; 0; 0; 0; 0; 0; 0]) ++ [5; 5])
  = ([wire_bytes (mkWire 3 1 []); wire_bytes (mkWire 11 2 [1; 0; 0; 0; 0; 0; 0; 0])], [5; 5]).
Proof.
  apply (framing_roundtrip [mkWire 3 1 []; mkWire 11 2 [1; 0; 0; 0; 0; 0; 0; 0]] [5; 5]).
  - repeat constructor; unfold fits_unsigned; cbn; lia.
  - reflexivity.
Defined.

(** Every message survives the wire: decoding the encoding of a header, a
    logon, a new order, a cancel or an execution report whose fields fit their
    types gives the message back, whatever bytes follow. *)
Theorem messages_roundtrip h lg no ca xr rest :
  header_fits h → logon_fits lg → new_order_fits no → cancel_fits ca → report_fits xr →
  decode_header (encode_header h ++ rest) = h ∧ decode_logon (encode_logon lg ++ rest) = lg ∧
  decode_new_order (encode_new_order no ++ rest) = no ∧
  decode_cancel (encode_cancel ca ++ rest) = ca ∧ decode_report (encode_report xr ++ rest) = xr.
Proof.
  intros. split_and!; [by apply decode_encode_header|by apply decode_encode_logon
    |by apply decode_encode_new_order|by apply decode_encode_cancel|by apply decode_encode_report].
Qed.

Lemma messages_roundtrip_witness :
  decode_new_order (encode_new_order (mkNewOrder 77 [65; 65; 80; 76; 0; 0; 0; 0] 1 15000 300) ++ [9])
  = mkNewOrder 77 [65; 65; 80; 76; 0; 0; 0; 0] 1 15000 300.
Proof.
  apply (messages_roundtrip (mkHeader 25 10 4) (mkLogon 1 1000 0)
           (mkNewOrder 77 [65; 65; 80; 76; 0; 0; 0; 0] 1 15000 300) (mkCancel 77)
           (mkReport 77 3 1 0 0 300) [9]);
    repeat split; unfold fits_unsigned; cbn; lia.
Defined.
