(* ===== verification/Session.v ===== *)
(** * Session: one client session

    Models [include/session_state.hpp].  [clock::now()] is an argument, in
    nanoseconds; [uint32_t] sequence numbers wrap where the source increments
    them. *)

From S2P Require Import Prelude.

#[local] Open Scope Z_scope.

Inductive SessionStatus := AwaitingLogon | LoggedOn | LoggedOut | Disconnected.

#[export] Instance SessionStatus_eq_dec : EqDecision SessionStatus.
Proof. solve_decision. Defined.

Record SessionState := mkSession {
  status_ : SessionStatus;
  client_id_ : Z;
  heartbeat_interval_ : Z;          (* milliseconds *)
  expected_peer_seq_ : Z;
  outbound_seq_ : Z;
  last_peer_activity_ : Z;
  last_outbound_activity_ : Z
}.

Definition session_new : SessionState := mkSession AwaitingLogon 0 1000 0 0 0 0.

Definition handle_logon (now client_id heartbeat_interval_ms peer_starting_seq : Z)
    (s : SessionState) : bool * SessionState :=
  if decide (status_ s = AwaitingLogon) then
    (true, mkSession LoggedOn client_id heartbeat_interval_ms (u32 (peer_starting_seq + 1))
             (outbound_seq_ s) now (last_outbound_activity_ s))
  else (false, s).

Definition set_expected (now e : Z) (s : SessionState) : SessionState :=
  mkSession (status_ s) (client_id_ s) (heartbeat_interval_ s) e (outbound_seq_ s)
    now (last_outbound_activity_ s).

Definition track_inbound_seq (now seq_num : Z) (s : SessionState)
    : option (Z * Z) * SessionState :=
  let e := expected_peer_seq_ s in
  if seq_num =? e then (None, set_expected now (u32 (e + 1)) s)
  else if e <? seq_num then
    (Some (e, u32 (seq_num - 1)), set_expected now (u32 (seq_num + 1)) s)
  else (None, set_expected now e s).

Definition next_outbound_seq (s : SessionState) : Z * SessionState :=
  (outbound_seq_ s,
   mkSession (status_ s) (client_id_ s) (heartbeat_interval_ s) (expected_peer_seq_ s)
     (u32 (outbound_seq_ s + 1)) (last_peer_activity_ s) (last_outbound_activity_ s)).

Definition ns_per_ms : Z := 1000000.

Definition should_send_heartbeat (now : Z) (s : SessionState) : bool :=
  heartbeat_interval_ s * ns_per_ms <=? now - last_outbound_activity_ s.

Definition is_peer_dead (now : Z) (s : SessionState) : bool :=
  let missed_intervals_allowed := 2 in
  heartbeat_interval_ s * missed_intervals_allowed * ns_per_ms <? now - last_peer_activity_ s.

Definition mark_outbound_activity (now : Z) (s : SessionState) : SessionState :=
  mkSession (status_ s) (client_id_ s) (heartbeat_interval_ s) (expected_peer_seq_ s)
    (outbound_seq_ s) (last_peer_activity_ s) now.

Definition set_status (st : SessionStatus) (s : SessionState) : SessionState :=
  mkSession st (client_id_ s) (heartbeat_interval_ s) (expected_peer_seq_ s)
    (outbound_seq_ s) (last_peer_activity_ s) (last_outbound_activity_ s).

Definition logout : SessionState → SessionState := set_status LoggedOut.
Definition disconnect : SessionState → SessionState := set_status Disconnected.

(** ** The sequence numbers of a stream of messages *)

(** Inbound messages, numbered [seqs], with the gaps reported on the way. *)
Fixpoint track_all (seqs : list Z) (s : SessionState) : list (Z * Z) * SessionState :=
  match seqs with
  | [] => ([], s)
  | q :: seqs' =>
      let '(g, s1) := track_inbound_seq 0 q s in
      let '(gs, s2) := track_all seqs' s1 in
      (match g with Some r => r :: gs | None => gs end, s2)
  end.

Definition in_gap (x : Z) (g : Z * Z) : Prop := g.1 ≤ x ≤ g.2.

Lemma track_cases now q s :
  is_u32 (expected_peer_seq_ s) → 0 ≤ q < 2 ^ 32 - 1 →
  let '(g, s') := track_inbound_seq now q s in
  expected_peer_seq_ s ≤ expected_peer_seq_ s' ∧ is_u32 (expected_peer_seq_ s') ∧
  (∀ x, expected_peer_seq_ s ≤ x < expected_peer_seq_ s' ↔
        (x = q ∧ expected_peer_seq_ s ≤ q) ∨ (∃ r, g = Some r ∧ in_gap x r)) ∧
  (∀ r, g = Some r → ¬ in_gap q r ∧ expected_peer_seq_ s ≤ r.1 ≤ r.2 ∧ r.2 < expected_peer_seq_ s').
Proof.
  unfold fits_unsigned. intros He Hq. unfold track_inbound_seq. cbv zeta.
  destruct (Z.eqb_spec q (expected_peer_seq_ s)) as [->|Hne];
    [|destruct (Z.ltb_spec (expected_peer_seq_ s) q)]; cbn.
  - unwrap. split_and!; [lia|lia|lia| |done].
    intros x. split; [left; lia|]. intros [?|(r & [=] & _)]; lia.
  - unwrap. split_and!; [lia|lia|lia| |].
    + intros x. split.
      * intros Hx. destruct (decide (x = q)) as [->|]; [left; lia|].
        right. eexists. split; [done|]. unfold in_gap. cbn. lia.
      * intros [?|(r & [= <-] & Hr)]; [lia|]. unfold in_gap in Hr. cbn in Hr. lia.
    + intros r [= <-]. unfold in_gap. cbn. lia.
  - split_and!; [lia|lia|lia| |done].
    intros x. split; [lia|]. intros [?|(r & [=] & _)]; lia.
Qed.

(** Gap detection is complete and exact.  Over any stream of inbound
    sequence numbers (that stays below the wrap-around), the expected number
    never goes back, and every number it has passed was either received or is
    inside a reported gap; reported gaps are disjoint from everything received
    as new at that time and contain only numbers that were skipped. *)
Theorem gaps_complete seqs s :
  is_u32 (expected_peer_seq_ s) → Forall (λ q, 0 ≤ q < 2 ^ 32 - 1) seqs →
  let '(gs, s') := track_all seqs s in
  expected_peer_seq_ s ≤ expected_peer_seq_ s' ∧
  (∀ x, expected_peer_seq_ s ≤ x < expected_peer_seq_ s' →
        x ∈ seqs ∨ ∃ g, g ∈ gs ∧ in_gap x g) ∧
  Forall (λ g, expected_peer_seq_ s ≤ g.1 ≤ g.2 ∧ g.2 < expected_peer_seq_ s') gs ∧
  StronglySorted (λ g1 g2, g1.2 < g2.1) gs.
Proof.
  intros He Hall. revert s He. induction Hall as [|q seqs Hq Hall IH]; intros s He; cbn.
  { split_and!; [lia|lia|constructor|constructor]. }
  pose proof (track_cases 0 q s He Hq) as Hc.
  destruct (track_inbound_seq 0 q s) as [g s1]. destruct Hc as (Hle & He1 & Hcov & Hg).
  specialize (IH s1 He1). destruct (track_all seqs s1) as [gs s2].
  destruct IH as (Hle2 & Hcov2 & Hgs & Hso).
  assert (Forall (λ g0, expected_peer_seq_ s ≤ g0.1 ≤ g0.2 ∧ g0.2 < expected_peer_seq_ s2) gs) as Hgs'.
  { eapply Forall_impl; [exact Hgs|]. cbn. lia. }
  assert (∀ x, expected_peer_seq_ s ≤ x < expected_peer_seq_ s2 →
     x ∈ q :: seqs ∨ (∃ r, g = Some r ∧ in_gap x r) ∨ ∃ g0, g0 ∈ gs ∧ in_gap x g0) as Hx.
  { intros x Hx. destruct (Z.lt_ge_cases x (expected_peer_seq_ s1)).
    - destruct (proj1 (Hcov x) ltac:(lia)) as [[-> _]|Hr]; [left; by left|eauto].
    - destruct (Hcov2 x ltac:(lia)) as [Hin|Hin]; [left; by right|eauto]. }
  split; [lia|]. destruct g as [r|].
  - destruct (Hg r eq_refl) as (_ & Hr1 & Hr2). split_and!.
    + intros x Hxr. destruct (Hx x Hxr) as [|[(r' & [= <-] & Hr)|(g0 & Hin & Hg0)]]; [by left|right..].
      * exists r. split; [by left|done].
      * exists g0. split; [by right|done].
    + constructor; [lia|done].
    + constructor; [done|]. eapply Forall_impl; [exact Hgs|]. cbn. lia.
  - split_and!; [|done|done].
    intros x Hxr. destruct (Hx x Hxr) as [|[(r' & [=] & _)|(g0 & Hin & Hg0)]]; [by left|right; eauto].
Qed.

Lemma gaps_complete_witness :
  let s := (handle_logon 0 1 1000 4 session_new).2 in
  let '(gs, s') := track_all [5; 8; 8; 9; 6] s in
  (∀ x, 5 ≤ x < expected_peer_seq_ s' → x ∈ [5; 8; 8; 9; 6] ∨ ∃ g, g ∈ gs ∧ in_gap x g) ∧
  gs = [(6, 7)] ∧ expected_peer_seq_ s' = 10.
Proof.
  cbv zeta.
  pose proof (gaps_complete [5; 8; 8; 9; 6] (handle_logon 0 1 1000 4 session_new).2) as Hg.
  specialize (Hg ltac:(vm_compute; split; congruence)).
  specialize (Hg ltac:(repeat constructor; lia)).
  destruct (track_all [5; 8; 8; 9; 6] (handle_logon 0 1 1000 4 session_new).2) as [gs s'] eqn:Ht.
  destruct Hg as (_ & Hc & _ & _). split; [exact Hc|].
  vm_compute in Ht. injection Ht as <- <-. split; reflexivity.
Defined.

(** ** The life of a session *)

Inductive SessionOp :=
| OpLogon (now client_id interval seq : Z)
| OpTrack (now seq : Z)
| OpSend (now : Z)
| OpLogout
| OpDisconnect.

Definition run_op (op : SessionOp) (s : SessionState) : SessionState :=
  match op with
  | OpLogon now c i q => (handle_logon now c i q s).2
  | OpTrack now q => (track_inbound_seq now q s).2
  | OpSend now => mark_outbound_activity now (next_outbound_seq s).2
  | OpLogout => logout s
  | OpDisconnect => disconnect s
  end.

Definition run_ops (ops : list SessionOp) (s : SessionState) : SessionState :=
  foldl (λ s op, run_op op s) s ops.

Definition op_logon (op : SessionOp) (s : SessionState) : nat :=
  match op with OpLogon now c i q => if (handle_logon now c i q s).1 then 1 else 0 | _ => 0 end.
Definition op_sends (op : SessionOp) : nat := match op with OpSend _ => 1 | _ => 0 end.

(** The successful logons along a run, and the frames sent. *)
Fixpoint logons (ops : list SessionOp) (s : SessionState) : nat :=
  match ops with [] => 0 | op :: ops' => (op_logon op s + logons ops' (run_op op s))%nat end.
Fixpoint sends (ops : list SessionOp) : nat :=
  match ops with [] => 0 | op :: ops' => (op_sends op + sends ops')%nat end.

Definition may_logon (s : SessionState) : nat := if decide (status_ s = AwaitingLogon) then 1 else 0.
Definition closed (s : SessionState) : Prop := status_ s = LoggedOut ∨ status_ s = Disconnected.

Lemma run_op_logon op s : (op_logon op s + may_logon (run_op op s) ≤ may_logon s)%nat.
Proof.
  unfold may_logon. destruct op as [now c i q|now q|now| |]; cbn; try (repeat case_decide; done || lia).
  - unfold handle_logon. destruct (decide (status_ s = AwaitingLogon)); cbn; repeat case_decide; done || lia.
  - unfold track_inbound_seq. cbv zeta. destruct (q =? expected_peer_seq_ s), (expected_peer_seq_ s <? q); cbn; lia.
Qed.

Lemma run_op_closed op s : closed s → closed (run_op op s).
Proof.
  unfold closed. destruct op as [now c i q|now q|now| |]; cbn [run_op]; [| |cbn; tauto..].
  - unfold handle_logon. case_decide; [intros [?|?]; congruence|done].
  - unfold track_inbound_seq. cbv zeta. by destruct (q =? expected_peer_seq_ s), (expected_peer_seq_ s <? q).
Qed.

Lemma run_op_outbound op s :
  is_u32 (outbound_seq_ s) →
  outbound_seq_ (run_op op s) = u32 (outbound_seq_ s + Z.of_nat (op_sends op)).
Proof.
  intros Ho. destruct op as [now c i q|now q|now| |]; cbn [run_op op_sends Z.of_nat];
    rewrite ?Z.add_0_r, ?(wrap_unsigned_id 32 _ Ho); [| |done..].
  - unfold handle_logon. by case_decide.
  - unfold track_inbound_seq. cbv zeta. by destruct (q =? expected_peer_seq_ s), (expected_peer_seq_ s <? q).
Qed.

(** A session logs on at most once and never comes back: once logged out or
    disconnected it stays so.  Outbound numbers count the frames sent, modulo
    2^32, whatever else happens in between. *)
Theorem session_life ops s :
  is_u32 (outbound_seq_ s) →
  (logons ops s ≤ 1)%nat ∧ (closed s → closed (run_ops ops s)) ∧
  outbound_seq_ (run_ops ops s) = u32 (outbound_seq_ s + Z.of_nat (sends ops)).
Proof.
  intros Ho. assert (logons ops s ≤ may_logon s)%nat as Hl.
  { clear Ho. revert s. induction ops as [|op ops IH]; intros s; cbn; [lia|].
    specialize (IH (run_op op s)). pose proof (run_op_logon op s). lia. }
  split; [unfold may_logon in Hl; case_decide; lia|]. clear Hl.
  revert s Ho. induction ops as [|op ops IH]; intros s Ho; cbn.
  { split; [done|]. by rewrite Z.add_0_r, wrap_unsigned_id. }
  pose proof (run_op_outbound op s Ho) as Hop.
  destruct (IH (run_op op s)) as [IH1 IH2]; [rewrite Hop; by apply wrap_unsigned_fits|].
  split; [by intros Hc; apply IH1, run_op_closed|].
  unfold run_ops in IH2. rewrite IH2, Hop, wrap_unsigned_add_l. f_equal. lia.
Qed.

Lemma session_life_witness :
  (logons [OpLogon 0 1 1000 0; OpSend 1; OpLogout; OpLogon 2 1 1000 0; OpSend 3] session_new ≤ 1)%nat ∧
  outbound_seq_ (run_ops [OpLogon 0 1 1000 0; OpSend 1; OpLogout; OpLogon 2 1 1000 0; OpSend 3]
                   session_new) = 2.
Proof.
  destruct (session_life [OpLogon 0 1 1000 0; OpSend 1; OpLogout; OpLogon 2 1 1000 0; OpSend 3]
              session_new) as (H1 & _ & H2); [vm_compute; split; congruence|].
  split; [exact H1|]. rewrite H2. reflexivity.
Defined.
