(* ===== verification/Gateway.v ===== *)
(** * Gateway: the TCP front end

    Models [include/gateway_server.hpp].  The operating system's socket calls
    and clock are an interface, [Sockets]; a handler is a computation in the
    monad [M], which threads the server's state and distinguishes undefined
    behaviour ([UB]: a dangling reference into [connections_]) from running out
    of fuel.  [gw_sent] records the frames handed to [send_frame].  Console
    output is left out. *)

From S2P Require Import Prelude Types SpscRing Protocol Session.

#[local] Open Scope Z_scope.

(** ** The operating system *)

Inductive RecvResult :=
| RecvData (data : bytes)
| RecvEof
| RecvWouldBlock
| RecvError.

Class Sockets (W : Type) := {
  os_send : Z → bytes → W → Z * W;
  os_recv : Z → W → RecvResult * W;
  os_accept : W → Z * W;
  os_register : Z → W → W;            (* O_NONBLOCK and EV_ADD *)
  os_close : Z → W → W;               (* EV_DELETE and close *)
  os_now : W → Z * W
}.

(** ** State *)

Record ConnectionState := mkConn { reader : bytes; session : SessionState }.

Record SentFrame := mkSent { sf_fd : Z; sf_type : MsgType; sf_seq : Z; sf_body : bytes }.

Record Gw (Q A W : Type) := mkGw {
  sequencer_input_ : Q;
  gw_acks_ : A;
  connections_ : gmap Z ConnectionState;
  listen_fd_ : Z;
  gw_world : W;
  gw_sent : list SentFrame
}.
Arguments mkGw {Q A W} _ _ _ _ _ _.
Arguments sequencer_input_ {Q A W} _.
Arguments gw_acks_ {Q A W} _.
Arguments connections_ {Q A W} _.
Arguments listen_fd_ {Q A W} _.
Arguments gw_world {Q A W} _.
Arguments gw_sent {Q A W} _.

Section Gateway.
Context {Q A W : Type} `{Fifo Q SequencedEvent} `{Fifo A OutboundAck} `{Sockets W}.

Abbreviation G := (Gw Q A W).

(** ** The monad *)

Inductive Outcome (X : Type) :=
| Ret (x : X) (g : G)
| UB
| NoFuel.
Arguments Ret {X} _ _.
Arguments UB {X}.
Arguments NoFuel {X}.

Definition M (X : Type) : Type := G → Outcome X.

#[global] Instance M_ret : MRet M := λ X x g, Ret x g.
#[global] Instance M_bind : MBind M := λ X Y k m g,
  match m g with Ret x g' => k x g' | UB => UB | NoFuel => NoFuel end.

Definition done : M unit := mret ().
Definition undefined {X} : M X := λ _, UB.

(** [it->second] where [it] was found under [fd]: undefined once erased. *)
Definition get_conn (fd : Z) : M ConnectionState := λ g,
  match connections_ g !! fd with Some c => Ret c g | None => UB end.

Definition update_conns (f : gmap Z ConnectionState → gmap Z ConnectionState) : M unit := λ g,
  Ret () (mkGw (sequencer_input_ g) (gw_acks_ g) (f (connections_ g)) (listen_fd_ g)
            (gw_world g) (gw_sent g)).

Definition put_conn (fd : Z) (c : ConnectionState) : M unit := update_conns (insert fd c).

Definition put_session (fd : Z) (s : SessionState) : M unit :=
  c ← get_conn fd; put_conn fd (mkConn (reader c) s).

Definition world {X} (f : W → X * W) : M X := λ g,
  let '(x, w) := f (gw_world g) in
  Ret x (mkGw (sequencer_input_ g) (gw_acks_ g) (connections_ g) (listen_fd_ g) w (gw_sent g)).

Definition find_conn (fd : Z) : M (option ConnectionState) := λ g, Ret (connections_ g !! fd) g.

Definition clock_now : M Z := world os_now.

(** [sequencer_input_->push(ev)] and [acks_->pop(ack)]. *)
Definition input_push (ev : SequencedEvent) : M bool := λ g,
  match fifo_push ev (sequencer_input_ g) with
  | None => UB
  | Some (ok, q) => Ret ok (mkGw q (gw_acks_ g) (connections_ g) (listen_fd_ g) (gw_world g) (gw_sent g))
  end.
Definition acks_pop : M (option OutboundAck) := λ g,
  match fifo_pop (gw_acks_ g) with
  | None => UB
  | Some (r, q) => Ret r (mkGw (sequencer_input_ g) q (connections_ g) (listen_fd_ g) (gw_world g) (gw_sent g))
  end.

(** ** Sending *)

(** [while (sent < out.size()) { n = send(...); if (n <= 0) return; sent += n; }];
    every round sends at least a byte. *)
Fixpoint send_loop (fuel : nat) (fd : Z) (out : bytes) (w : W) : W :=
  match fuel, out with
  | _, [] => w
  | O, _ => w
  | S fuel, _ =>
      let '(n, w') := os_send fd out w in
      if n <=? 0 then w' else send_loop fuel fd (drop (Z.to_nat n) out) w'
  end.

Definition send_frame (fd : Z) (type : MsgType) (seq_num : Z) (body : bytes) : M unit := λ g,
  let out := make_frame (msg_type_code type) seq_num body in
  Ret () (mkGw (sequencer_input_ g) (gw_acks_ g) (connections_ g) (listen_fd_ g)
            (send_loop (length out) fd out (gw_world g))
            (gw_sent g ++ [mkSent fd type seq_num body])).

(** [session.next_outbound_seq()], [session.mark_outbound_activity()]. *)
Definition take_outbound_seq (fd : Z) : M Z :=
  c ← get_conn fd;
  let '(q, s) := next_outbound_seq (session c) in
  _ ← put_session fd s; mret q.
Definition mark_outbound (fd : Z) : M unit :=
  t ← clock_now; c ← get_conn fd; put_session fd (mark_outbound_activity t (session c)).

Definition send_numbered (fd : Z) (type : MsgType) (body : bytes) : M unit :=
  q ← take_outbound_seq fd; _ ← send_frame fd type q body; mark_outbound fd.

Definition send_logon_ack (fd : Z) : M unit :=
  send_numbered fd MtLogon (encode_logon (mkLogon 0 0 0)).

Definition send_resend_request (fd from_seq to_seq : Z) : M unit :=
  send_numbered fd MtResendRequest (le_encode 4 from_seq ++ le_encode 4 to_seq).

Definition send_execution_report (fd client_order_id : Z) (status : ExecStatus)
    (fill_price fill_qty leaves_qty : Z) : M unit :=
  send_numbered fd MtExecutionReport
    (encode_report (mkReport client_order_id 0 (exec_status_code status)
                      fill_price fill_qty leaves_qty)).

(** ** Inbound messages *)

Definition close_connection (fd : Z) : M unit :=
  _ ← world (λ w, ((), os_close fd w)); update_conns (delete fd).

Definition report_seq_gap_if_any (fd seq_num : Z) : M unit :=
  t ← clock_now;
  c ← get_conn fd;
  let '(gap, s) := track_inbound_seq t seq_num (session c) in
  _ ← put_session fd s;
  match gap with
  | Some (a, b) => send_resend_request fd a b
  | None => done
  end.

(** [RiskEngine::check] approves everything. *)
Definition risk_check (fd : Z) (order : NewOrderMsg) : bool := true.

Definition order_event (fd : Z) (m : NewOrderMsg) : SequencedEvent :=
  mkEvent 0 0 0 EvNewOrder Types.Gateway (u32 fd) (n_client_order_id m)
          (n_side m) (n_price m) (n_quantity m).
Definition cancel_event (fd : Z) (m : CancelOrderMsg) : SequencedEvent :=
  mkEvent 0 0 0 EvCancelOrder Types.Gateway (u32 fd) (c_client_order_id m) Buy 0 0.

Definition submit (fd client_order_id : Z) (ev : SequencedEvent) : M unit :=
  ok ← input_push ev;
  if ok : bool then done
  else send_execution_report fd client_order_id Rejected 0 0 0.

Definition dispatch (fd : Z) (frame : bytes) : M unit :=
  if (length frame <? sizeof_MsgHeader)%nat then done
  else
    let header := decode_header frame in
    let body := drop sizeof_MsgHeader frame in
    match msg_type_of (h_type header) with
    | Some MtLogon =>
        if h_body_length header <? Z.of_nat sizeof_LogonMsg then done
        else
          let logon := decode_logon body in
          t ← clock_now;
          c ← get_conn fd;
          let '(accepted, s) := handle_logon t (l_client_id logon) (l_heartbeat_interval_ms logon)
                                  (h_seq_num header) (session c) in
          _ ← put_session fd s;
          if accepted : bool then send_logon_ack fd else close_connection fd
    | Some MtHeartbeat | Some MtTestRequest => report_seq_gap_if_any fd (h_seq_num header)
    | Some MtNewOrder =>
        _ ← report_seq_gap_if_any fd (h_seq_num header);
        if h_body_length header <? Z.of_nat sizeof_NewOrderMsg then done
        else
          let order := decode_new_order body in
          if negb (risk_check fd order) then
            send_execution_report fd (n_client_order_id order) Rejected 0 0 0
          else submit fd (n_client_order_id order) (order_event fd order)
    | Some MtCancelOrder =>
        _ ← report_seq_gap_if_any fd (h_seq_num header);
        if h_body_length header <? Z.of_nat sizeof_CancelOrderMsg then done
        else
          let cancel := decode_cancel body in
          submit fd (c_client_order_id cancel) (cancel_event fd cancel)
    | Some MtLogout =>
        c ← get_conn fd;
        _ ← put_session fd (logout (session c));
        close_connection fd
    | _ => done
    end.

(** [while (auto frame = it->second.reader.next_frame()) dispatch(...)]. *)
Fixpoint dispatch_frames (fuel : nat) (fd : Z) : M unit :=
  match fuel with
  | O => λ _, NoFuel
  | S fuel =>
      c ← get_conn fd;
      let '(f, buf) := next_frame (reader c) in
      _ ← put_conn fd (mkConn buf (session c));
      match f with
      | None => done
      | Some frame => _ ← dispatch fd frame; dispatch_frames fuel fd
      end
  end.

(** The [recv] loop of [handle_readable], [fuel] calls at most. *)
Fixpoint recv_loop (fuel : nat) (fd : Z) : M unit :=
  match fuel with
  | O => λ _, NoFuel
  | S fuel =>
      r ← world (os_recv fd);
      match r with
      | RecvData data =>
          c ← get_conn fd;
          let buf := feed data (reader c) in
          _ ← put_conn fd (mkConn buf (session c));
          _ ← dispatch_frames (S (length buf)) fd;
          recv_loop fuel fd
      | RecvEof => close_connection fd
      | RecvWouldBlock => done
      | RecvError => close_connection fd
      end
  end.

Definition handle_readable (fuel : nat) (fd : Z) : M unit :=
  c ← find_conn fd;
  match c with None => done | Some _ => recv_loop fuel fd end.

Definition accept_new_connection : M unit :=
  client_fd ← world os_accept;
  if client_fd <? 0 then done
  else
    _ ← world (λ w, ((), os_register client_fd w));
    put_conn client_fd (mkConn [] session_new).

(** ** Outbound acks and heartbeats *)

Definition report_of (ack : OutboundAck) : ExecutionReportMsg :=
  mkReport (a_client_order_id ack) (a_exchange_order_id ack) (exec_status_code (a_status ack))
    (a_fill_price ack) (a_fill_quantity ack) (a_leaves_quantity ack).

(** [static_cast<int>] of the 32-bit session id. *)
Definition ack_fd (ack : OutboundAck) : Z := i32 (a_session ack).

Fixpoint drain_acks (fuel : nat) : M unit :=
  match fuel with
  | O => λ _, NoFuel
  | S fuel =>
      r ← acks_pop;
      match r with
      | None => done
      | Some ack =>
          c ← find_conn (ack_fd ack);
          match c with
          | None => drain_acks fuel
          | Some _ =>
              _ ← send_numbered (ack_fd ack) MtExecutionReport (encode_report (report_of ack));
              drain_acks fuel
          end
      end
  end.

Definition check_heartbeat (fd : Z) : M unit :=
  c ← find_conn fd;
  match c with
  | None => done
  | Some c =>
      if decide (status_ (session c) = LoggedOn) then
        t ← clock_now;
        if is_peer_dead t (session c) then
          _ ← put_session fd (disconnect (session c)); close_connection fd
        else
          t' ← clock_now;
          if should_send_heartbeat t' (session c) then send_numbered fd MtHeartbeat [] else done
      else done
  end.

Fixpoint check_each (fds : list Z) : M unit :=
  match fds with [] => done | fd :: fds' => _ ← check_heartbeat fd; check_each fds' end.

Definition check_heartbeats : M unit := λ g, check_each ((map_to_list (connections_ g)).*1) g.

(** ** The event loop *)

(** One ready event of [kevent]: the descriptor and its EV_EOF flag. *)
Definition handle_event (fuel : nat) (e : Z * bool) : M unit := λ g,
  (if e.1 =? listen_fd_ g then accept_new_connection
   else if e.2 then close_connection e.1
   else handle_readable fuel e.1) g.

Fixpoint handle_events (fuel : nat) (events : list (Z * bool)) : M unit :=
  match events with
  | [] => done
  | e :: events' => _ ← handle_event fuel e; handle_events fuel events'
  end.

Definition poll_once (fuel : nat) (events : list (Z * bool)) : M unit :=
  _ ← handle_events fuel events; _ ← check_heartbeats; drain_acks fuel.

End Gateway.

Arguments Ret {Q A W X} _ _.
Arguments UB {Q A W X}.
Arguments NoFuel {Q A W X}.
