(* ===== verification/GatewayProofs.v ===== *)
(** * GatewayProofs: what the gateway does with bytes and acks

    From frames to sequencer events, from acks to execution reports, and what
    happens when a handler closes the connection it is reading from. *)

From S2P Require Import Prelude Types SpscRing Protocol Session Gateway.

#[local] Open Scope Z_scope.

Section GatewayProofs.
Context {Q A W : Type} `{FQ : Fifo Q SequencedEvent, !FifoLaws Q SequencedEvent}.
Context `{FA : Fifo A OutboundAck, !FifoLaws A OutboundAck} `{SW : Sockets W}.

Abbreviation G := (Gw Q A W).
Implicit Types (g : G) (fd : Z).

Lemma bind_ret {X Y} (m : M X) (k : X → M Y) g x g' : m g = Ret x g' → (m ≫= k) g = k x g'.
Proof. intros Hm. unfold mbind, M_bind. by rewrite Hm. Qed.

(** ** What a step of a handler may change

    Nothing but the session of [fd], the log of sent frames and the world. *)

Record kept (fd : Z) (c : ConnectionState) (new : list SentFrame) (g g' : G) : Prop := {
  k_input : sequencer_input_ g' = sequencer_input_ g;
  k_acks : gw_acks_ g' = gw_acks_ g;
  k_listen : listen_fd_ g' = listen_fd_ g;
  k_sent : gw_sent g' = gw_sent g ++ new;
  k_conns : ∃ s, connections_ g' = <[fd := mkConn (reader c) s]> (connections_ g)
}.

Lemma kept_lookup fd c new g g' :
  kept fd c new g g' → ∃ s, connections_ g' !! fd = Some (mkConn (reader c) s).
Proof. intros [_ _ _ _ [s ->]]. exists s. apply lookup_insert_eq. Qed.

Lemma kept_trans fd c c' new1 new2 g1 g2 g3 :
  reader c' = reader c → kept fd c new1 g1 g2 → kept fd c' new2 g2 g3 →
  kept fd c (new1 ++ new2) g1 g3.
Proof.
  intros Hr [I1 A1 L1 S1 [s1 C1]] [I2 A2 L2 S2 [s2 C2]]. constructor; [congruence..| |].
  - by rewrite S2, S1, app_assoc.
  - exists s2. by rewrite C2, C1, insert_insert_eq, Hr.
Qed.

Lemma put_session_ret fd s g c :
  connections_ g !! fd = Some c →
  ∃ g', put_session fd s g = Ret () g' ∧ kept fd c [] g g' ∧
        connections_ g' !! fd = Some (mkConn (reader c) s).
Proof.
  intros Hc. unfold put_session. erewrite bind_ret by (unfold get_conn; by rewrite Hc).
  unfold put_conn, update_conns. eexists. split; [done|]. split; [|apply lookup_insert_eq].
  constructor; cbn; try done; [by rewrite app_nil_r|eauto].
Qed.

Lemma clock_now_ret g c fd :
  connections_ g !! fd = Some c →
  ∃ t g', clock_now g = Ret t g' ∧ kept fd c [] g g' ∧ connections_ g' !! fd = Some c.
Proof.
  intros Hc. unfold clock_now, world. destruct (os_now (gw_world g)) as [t w].
  eexists _, _. split; [done|]. split; [|done].
  constructor; cbn; try done; [by rewrite app_nil_r|]. exists (session c). by rewrite insert_id; destruct c.
Qed.

Lemma send_numbered_ret fd ty body g c :
  connections_ g !! fd = Some c →
  ∃ g', send_numbered fd ty body g = Ret () g' ∧
        kept fd c [mkSent fd ty (outbound_seq_ (session c)) body] g g' ∧
        ∃ s, connections_ g' !! fd = Some (mkConn (reader c) s) ∧ outbound_seq_ s = u32 (outbound_seq_ (session c) + 1).
Proof.
  intros Hc. unfold send_numbered.
  assert (∃ g1 s1, take_outbound_seq fd g = Ret (outbound_seq_ (session c)) g1 ∧ kept fd c [] g g1 ∧
            connections_ g1 !! fd = Some (mkConn (reader c) s1) ∧
            outbound_seq_ s1 = u32 (outbound_seq_ (session c) + 1)) as (g1 & s1 & H1 & K1 & C1 & O1).
  { unfold take_outbound_seq. erewrite bind_ret by (unfold get_conn; by rewrite Hc). cbn.
    destruct (put_session_ret fd (next_outbound_seq (session c)).2 g c Hc) as (g1 & Hp & K & C).
    rewrite (bind_ret _ _ _ _ _ Hp). by eauto 10. }
  rewrite (bind_ret _ _ _ _ _ H1). unfold send_frame at 1. erewrite bind_ret by done.
  set (g2 := mkGw _ _ _ _ _ _ : G).
  assert (connections_ g2 !! fd = Some (mkConn (reader c) s1)) as C2 by done.
  unfold mark_outbound. destruct (clock_now_ret g2 _ fd C2) as (t & g3 & H3 & K3 & C3).
  rewrite (bind_ret _ _ _ _ _ H3). erewrite bind_ret by (unfold get_conn; by rewrite C3). cbn [session].
  destruct (put_session_ret fd (mark_outbound_activity t s1) g3 _ C3) as (g4 & H4 & K4 & C4).
  exists g4. split; [done|]. split; [|by exists (mark_outbound_activity t s1)].
  destruct K1 as [I1 A1 L1 S1 [s1' E1]]. rewrite app_nil_r in S1.
  assert (kept fd c [mkSent fd ty (outbound_seq_ (session c)) body] g g2) as K2.
  { constructor; cbn; [done..|by rewrite S1|eauto]. }
  rewrite <-(app_nil_r [_]). apply (kept_trans fd c (mkConn (reader c) s1) _ [] g g2 g4); [done|done|].
  by apply (kept_trans fd _ (mkConn (reader c) s1) [] [] g2 g3 g4).
Qed.

(** The frame [report_seq_gap_if_any] sends, if any. *)
Definition gap_frames (fd : Z) (s : SessionState) (seq_num : Z) : list SentFrame :=
  match (track_inbound_seq 0 seq_num s).1 with
  | Some (a, b) => [mkSent fd MtResendRequest (outbound_seq_ s) (le_encode 4 a ++ le_encode 4 b)]
  | None => []
  end.

Lemma track_now t seq_num s :
  (track_inbound_seq t seq_num s).1 = (track_inbound_seq 0 seq_num s).1 ∧
  outbound_seq_ (track_inbound_seq t seq_num s).2 = outbound_seq_ s.
Proof. unfold track_inbound_seq. cbv zeta. by repeat case_match. Qed.

(** The outbound number after it. *)
Definition gap_next (s : SessionState) (seq_num : Z) : Z :=
  match (track_inbound_seq 0 seq_num s).1 with
  | Some _ => u32 (outbound_seq_ s + 1)
  | None => outbound_seq_ s
  end.

Lemma report_seq_gap_ret fd seq_num g c :
  connections_ g !! fd = Some c →
  ∃ g', report_seq_gap_if_any fd seq_num g = Ret () g' ∧
        kept fd c (gap_frames fd (session c) seq_num) g g' ∧
        ∃ s, connections_ g' !! fd = Some (mkConn (reader c) s) ∧ outbound_seq_ s = gap_next (session c) seq_num.
Proof.
  intros Hc. unfold report_seq_gap_if_any.
  destruct (clock_now_ret g c fd Hc) as (t & g1 & H1 & K1 & C1). rewrite (bind_ret _ _ _ _ _ H1).
  erewrite bind_ret by (unfold get_conn; by rewrite C1).
  destruct (track_now t seq_num (session c)) as [Hg Ho]. unfold gap_frames, gap_next. rewrite <-Hg.
  destruct (track_inbound_seq t seq_num (session c)) as [gap s]. cbn in Ho |- *.
  destruct (put_session_ret fd s g1 c C1) as (g2 & H2 & K2 & C2). rewrite (bind_ret _ _ _ _ _ H2).
  pose proof (kept_trans fd c c [] [] g g1 g2 eq_refl K1 K2) as K12.
  destruct gap as [[a b]|]; [|exists g2; split_and!; [done|done|by exists s]].
  destruct (send_numbered_ret fd MtResendRequest (le_encode 4 a ++ le_encode 4 b) g2 _ C2) as (g3 & H3 & K3 & s3 & C3 & O3).
  exists g3. split; [done|]. rewrite <-Ho. split; [|by exists s3].
  by apply (kept_trans fd c (mkConn (reader c) s) [] _ g g2 g3).
Qed.

Lemma gap_frames_spec fd s seq_num :
  let gap := expected_peer_seq_ s <? seq_num in
  gap_frames fd s seq_num =
    (if gap then [mkSent fd MtResendRequest (outbound_seq_ s)
                    (le_encode 4 (expected_peer_seq_ s) ++ le_encode 4 (u32 (seq_num - 1)))] else []) ∧
  gap_next s seq_num = if gap then u32 (outbound_seq_ s + 1) else outbound_seq_ s.
Proof.
  unfold gap_frames, gap_next, track_inbound_seq. cbv zeta.
  destruct (Z.eqb_spec seq_num (expected_peer_seq_ s)) as [->|_]; [by rewrite Z.ltb_irrefl|]. by destruct (_ <? _).
Qed.

(** ** From frames to events *)

(** The sequencer event that a frame asks for, if any. *)
Definition frame_event (fd : Z) (frame : bytes) : option SequencedEvent :=
  let header := decode_header frame in
  let body := drop sizeof_MsgHeader frame in
  match msg_type_of (h_type header) with
  | Some MtNewOrder =>
      if h_body_length header <? Z.of_nat sizeof_NewOrderMsg then None
      else Some (order_event fd (decode_new_order body))
  | Some MtCancelOrder =>
      if h_body_length header <? Z.of_nat sizeof_CancelOrderMsg then None
      else Some (cancel_event fd (decode_cancel body))
  | _ => None
  end.

(** Frames that never close the connection. *)
Definition harmless (frame : bytes) : Prop :=
  (sizeof_MsgHeader ≤ length frame)%nat ∧
  msg_type_of (h_type (decode_header frame)) ≠ Some MtLogon ∧
  msg_type_of (h_type (decode_header frame)) ≠ Some MtLogout.

(** A push to the input queue, with the report sent when it is full. *)
Lemma submit_ret fd id ev g c l :
  connections_ g !! fd = Some c → fifo_rep (sequencer_input_ g) l →
  ∃ g' s, submit fd id ev g = Ret () g' ∧
    connections_ g' = <[fd := mkConn (reader c) s]> (connections_ g) ∧
    if decide (length l < @fifo_room _ _ FQ)%nat
    then fifo_rep (sequencer_input_ g') (l ++ [ev]) ∧ gw_sent g' = gw_sent g
    else fifo_rep (sequencer_input_ g') l ∧
         gw_sent g' = gw_sent g ++
           [mkSent fd MtExecutionReport (outbound_seq_ (session c))
              (encode_report (mkReport id 0 (exec_status_code Rejected) 0 0 0))].
Proof.
  intros Hc Hrep. pose proof (fifo_push_law (sequencer_input_ g) l ev Hrep) as Hlaw.
  unfold submit. case_decide.
  - destruct Hlaw as (q' & Hq & Hrep'). erewrite bind_ret by (unfold input_push; by rewrite Hq). cbn.
    eexists _, (session c). split; [done|]. split; [|done]. cbn. rewrite insert_id; [done|]. by destruct c.
  - erewrite bind_ret by (unfold input_push; by rewrite Hlaw). cbn.
    set (g1 := mkGw _ _ _ _ _ _ : G).
    destruct (send_numbered_ret fd MtExecutionReport
                (encode_report (mkReport id 0 (exec_status_code Rejected) 0 0 0)) g1 c Hc)
      as (g' & Hg & [Hi _ _ Hs [s Hs']] & _).
    exists g', s. split; [done|]. split; [done|]. rewrite Hi. done.
Qed.

(** One harmless frame: the event it asks for is pushed if there is room. *)
Lemma dispatch_ret fd frame g c l :
  connections_ g !! fd = Some c → fifo_rep (sequencer_input_ g) l → harmless frame →
  (length l + length (option_list (frame_event fd frame)) ≤ @fifo_room _ _ FQ)%nat →
  ∃ g' s, dispatch fd frame g = Ret () g' ∧
    connections_ g' = <[fd := mkConn (reader c) s]> (connections_ g) ∧
    fifo_rep (sequencer_input_ g') (l ++ option_list (frame_event fd frame)).
Proof.
  intros Hc Hrep (Hlen & Hlogon & Hlogout) Hroom.
  destruct (report_seq_gap_ret fd (h_seq_num (decode_header frame)) g c Hc) as (g1 & Hgap & K1 & s1 & C1 & _).
  destruct (K1) as [I1 _ _ _ [s1' E1]].
  assert (∃ g' s, Ret (A:=A) () g1 = Ret () g' ∧
            connections_ g' = <[fd := mkConn (reader c) s]> (connections_ g) ∧
            fifo_rep (sequencer_input_ g') (l ++ [])) as Hnone.
  { exists g1, s1'. rewrite app_nil_r, I1. done. }
  assert (∀ id ev, (length l + 1 ≤ @fifo_room _ _ FQ)%nat →
    ∃ g' s, submit fd id ev g1 = Ret () g' ∧
      connections_ g' = <[fd := mkConn (reader c) s]> (connections_ g) ∧
      fifo_rep (sequencer_input_ g') (l ++ [ev])) as Hsub.
  { intros id ev Hr. destruct (submit_ret fd id ev g1 _ l C1) as (g' & s & Hg & Hcs & Hif);
      [by rewrite I1|]. rewrite decide_True in Hif by lia. exists g', s.
    split_and!; [done| |apply Hif]. by rewrite Hcs, E1, insert_insert_eq. }
  unfold dispatch. destruct (Nat.ltb_spec (length frame) sizeof_MsgHeader); [lia|]. cbv zeta.
  unfold frame_event in *. cbv zeta in *.
  assert (∃ g' s, done (A:=A) g = Ret () g' ∧
            connections_ g' = <[fd := mkConn (reader c) s]> (connections_ g) ∧
            fifo_rep (sequencer_input_ g') (l ++ [])) as Hskip.
  { exists g, (session c). rewrite app_nil_r. split_and!; [done| |done].
    rewrite insert_id; [done|by destruct c]. }
  destruct (msg_type_of (h_type (decode_header frame))) as [[]|]; try done.
  - by rewrite Hgap.
  - by rewrite Hgap.
  - rewrite (bind_ret _ _ _ _ _ Hgap). destruct (_ <? _); [done|]. cbn in Hroom |- *. by apply Hsub.
  - rewrite (bind_ret _ _ _ _ _ Hgap). destruct (_ <? _); [done|]. cbn in Hroom |- *. by apply Hsub.
Qed.

Lemma dispatch_frames_ret fd : ∀ fuel g c l,
  connections_ g !! fd = Some c → fifo_rep (sequencer_input_ g) l →
  (length (reader c) < fuel)%nat →
  let '(fs, rest) := frames (reader c) in
  Forall harmless fs →
  (length l + length (omap (frame_event fd) fs) ≤ @fifo_room _ _ FQ)%nat →
  ∃ g' s, dispatch_frames fuel fd g = Ret () g' ∧
    connections_ g' = <[fd := mkConn rest s]> (connections_ g) ∧
    fifo_rep (sequencer_input_ g') (l ++ omap (frame_event fd) fs).
Proof.
  induction fuel as [|fuel IH]; intros g c l Hc Hrep Hf; [lia|].
  rewrite frames_unfold. cbn [dispatch_frames].
  erewrite bind_ret by (unfold get_conn; by rewrite Hc).
  destruct (next_frame (reader c)) as [[frame|] buf] eqn:Hn.
  - apply next_frame_shrinks in Hn as [_ Hlt].
    erewrite bind_ret by (unfold put_conn, update_conns; done). set (g1 := mkGw _ _ _ _ _ _ : G).
    assert (connections_ g1 !! fd = Some (mkConn buf (session c))) as C1 by apply lookup_insert_eq.
    destruct (frames buf) as [fs rest] eqn:Hfr. intros Hall Hroom.
    apply Forall_cons in Hall as [Hh Hall].
    assert (omap (frame_event fd) (frame :: fs) =
            option_list (frame_event fd frame) ++ omap (frame_event fd) fs) as Hom
      by (cbn; by destruct (frame_event fd frame)).
    rewrite Hom, length_app in Hroom. rewrite Hom.
    destruct (dispatch_ret fd frame g1 _ l C1 Hrep Hh ltac:(lia)) as (g2 & s2 & H2 & E2 & R2).
    rewrite (bind_ret _ _ _ _ _ H2). cbn [reader session] in E2.
    specialize (IH g2 (mkConn buf s2) (l ++ option_list (frame_event fd frame))).
    rewrite E2, lookup_insert_eq in IH. cbn [reader] in IH. rewrite Hfr in IH.
    destruct (IH eq_refl R2 ltac:(lia) Hall) as (g3 & s3 & H3 & E3 & R3).
    { rewrite length_app. lia. }
    exists g3, s3. split; [done|]. split; [|by rewrite app_assoc].
    rewrite E3. cbn. by rewrite !insert_insert_eq.
  - apply next_frame_none in Hn as ->. intros _ _.
    erewrite bind_ret by (unfold put_conn, update_conns; done).
    eexists _, _. split; [done|]. split; [done|]. cbn. by rewrite app_nil_r.
Qed.

(** ** Acks *)

(** The reports for the acks [l], to whoever is connected. *)
Definition deliverable (conns : gmap Z ConnectionState) (l : list OutboundAck)
    : list (Z * MsgType * bytes) :=
  (λ k, (ack_fd k, MtExecutionReport, encode_report (report_of k)))
    <$> filter (λ k, is_Some (conns !! ack_fd k)) l.

Definition sent_what (f : SentFrame) : Z * MsgType * bytes := (sf_fd f, sf_type f, sf_body f).

Lemma deliverable_ext conns conns' l :
  (∀ x, is_Some (conns !! x) ↔ is_Some (conns' !! x)) → deliverable conns l = deliverable conns' l.
Proof. intros Hext. unfold deliverable. f_equal. apply list_filter_iff. naive_solver. Qed.

Lemma drain_acks_ret : ∀ l fuel g,
  fifo_rep (gw_acks_ g) l → (length l < fuel)%nat →
  ∃ g' new, drain_acks fuel g = Ret () g' ∧ fifo_rep (gw_acks_ g') [] ∧
    gw_sent g' = gw_sent g ++ new ∧ sent_what <$> new = deliverable (connections_ g) l ∧
    (∀ x, is_Some (connections_ g' !! x) ↔ is_Some (connections_ g !! x)).
Proof.
  induction l as [|k l IH]; intros [|fuel] g Hrep Hf; cbn in Hf; try lia; cbn [drain_acks].
  - pose proof (fifo_pop_law (gw_acks_ g) [] Hrep) as Hlaw.
    erewrite bind_ret by (unfold acks_pop; by rewrite Hlaw).
    eexists _, []. split; [done|]. cbn. rewrite app_nil_r. done.
  - pose proof (fifo_pop_law (gw_acks_ g) (k :: l) Hrep) as (q' & Hq & Hrep').
    erewrite bind_ret by (unfold acks_pop; by rewrite Hq). set (g1 := mkGw _ _ _ _ _ _ : G).
    unfold find_conn at 1. erewrite bind_ret by done.
    unfold deliverable. rewrite filter_cons. cbn [connections_ g1].
    destruct (connections_ g !! ack_fd k) as [c|] eqn:Hc.
    + rewrite decide_True by eauto.
      destruct (send_numbered_ret (ack_fd k) MtExecutionReport (encode_report (report_of k)) g1 c Hc)
        as (g2 & H2 & [I2 A2 L2 S2 [s2 E2]] & _). rewrite (bind_ret _ _ _ _ _ H2).
      destruct (IH fuel g2) as (g3 & new & H3 & R3 & S3 & D3 & X3); [by rewrite A2|lia|].
      assert (∀ x, is_Some (connections_ g2 !! x) ↔ is_Some (connections_ g !! x)) as X2.
      { intros x. rewrite E2. cbn. destruct (decide (ack_fd k = x)) as [<-|Hne].
        - rewrite lookup_insert_eq, Hc. naive_solver.
        - by rewrite lookup_insert_ne. }
      eexists g3, (_ :: new). split; [done|]. split; [done|]. split.
      { rewrite S3, S2, <-app_assoc. done. }
      split; [|naive_solver].
      rewrite fmap_cons. rewrite D3. cbn. f_equal. by apply deliverable_ext.
    + rewrite decide_False by (by intros [? ?]).
      destruct (IH fuel g1) as (g3 & new & H3 & R3 & S3 & D3 & X3); [done|lia|].
      exists g3, new. done.
Qed.

Lemma next_frame_length buf f rest :
  next_frame buf = (Some f, rest) → (sizeof_MsgHeader ≤ length f)%nat.
Proof.
  unfold next_frame. destruct (Nat.ltb_spec (length buf) sizeof_MsgHeader); [done|]. cbv zeta.
  destruct (Nat.ltb_spec (length buf) (sizeof_MsgHeader + Z.to_nat (h_body_length (decode_header buf))));
    [done|].
  intros [= <- <-]. rewrite length_take. unfold sizeof_MsgHeader in *. lia.
Qed.

(** A frame that closes its own connection. *)
Lemma dispatch_logout fd frame g c :
  connections_ g !! fd = Some c → (sizeof_MsgHeader ≤ length frame)%nat →
  msg_type_of (h_type (decode_header frame)) = Some MtLogout →
  ∃ g', dispatch fd frame g = Ret () g' ∧ connections_ g' = delete fd (connections_ g).
Proof.
  intros Hc Hlen Ht. unfold dispatch.
  destruct (Nat.ltb_spec (length frame) sizeof_MsgHeader); [lia|]. cbv zeta. rewrite Ht.
  erewrite bind_ret by (unfold get_conn; by rewrite Hc).
  destruct (put_session_ret fd (logout (session c)) g c Hc) as (g1 & H1 & [_ _ _ _ [s E1]] & _).
  rewrite (bind_ret _ _ _ _ _ H1). unfold close_connection.
  erewrite bind_ret by (unfold world; done). unfold update_conns. eexists. split; [done|]. cbn.
  by rewrite E1, delete_insert_eq.
Qed.

(** ** Properties *)


(** C33: Every order is queued or answered, and nothing checks that the session
    has logged on.  A new-order frame with a complete body is pushed to the
    sequencer with the client's fields as they came, the raw side byte included,
    or, exactly when the queue is full, answered with a "rejected" report under the
    session's next outbound number.  When the frame's own number is beyond the
    expected one a resend request for the missing numbers goes out first, and takes
    one outbound number; the order itself is treated the same.  This holds in every
    session status. *)
Theorem gateway_order_queued_or_rejected fd frame g c l :
  connections_ g !! fd = Some c → fifo_rep (sequencer_input_ g) l →
  (sizeof_MsgHeader ≤ length frame)%nat →
  msg_type_of (h_type (decode_header frame)) = Some MtNewOrder →
  Z.of_nat sizeof_NewOrderMsg ≤ h_body_length (decode_header frame) →
  let order := decode_new_order (drop sizeof_MsgHeader frame) in
  let seq_num := h_seq_num (decode_header frame) in
  let expected := expected_peer_seq_ (session c) in
  let n := outbound_seq_ (session c) in
  let gap := expected <? seq_num in
  let resend := if gap then [mkSent fd MtResendRequest n (le_encode 4 expected ++ le_encode 4 (u32 (seq_num - 1)))] else [] in
  ∃ g', dispatch fd frame g = Ret () g' ∧
    if decide (length l < @fifo_room _ _ FQ)%nat
    then fifo_rep (sequencer_input_ g') (l ++ [mkEvent 0 0 0 EvNewOrder Types.Gateway (u32 fd) (n_client_order_id order)
             (n_side order) (n_price order) (n_quantity order)]) ∧
         gw_sent g' = gw_sent g ++ resend
    else fifo_rep (sequencer_input_ g') l ∧
         gw_sent g' = gw_sent g ++ resend ++
           [mkSent fd MtExecutionReport (if gap then u32 (n + 1) else n)
              (encode_report (mkReport (n_client_order_id order) 0 (exec_status_code Rejected) 0 0 0))].
Proof.
  intros Hc Hrep Hlen Ht Hbody order seq_num expected n gap resend.
  destruct (report_seq_gap_ret fd seq_num g c Hc) as (g1 & H1 & K1 & s1 & C1 & O1).
  destruct (gap_frames_spec fd (session c) seq_num) as [Hgf Hgn]. rewrite Hgf in K1. rewrite Hgn in O1.
  destruct K1 as [I1 _ _ S1 _].
  destruct (submit_ret fd (n_client_order_id order) (order_event fd order) g1 _ l C1)
    as (g' & s & Hg & _ & Hif); [by rewrite I1|].
  exists g'. split.
  - unfold dispatch. destruct (Nat.ltb_spec (length frame) sizeof_MsgHeader); [lia|]. cbv zeta.
    rewrite Ht, (bind_ret _ _ _ _ _ H1), (proj2 (Z.ltb_ge _ _)) by done. exact Hg.
  - cbn [session] in Hif. rewrite S1, O1, <-app_assoc in Hif. case_decide; exact Hif.
Qed.

(** C34: Acks reach their owner.  [drain_acks] returns with the queue empty; it
    has sent, in queue order, one execution report for each ack whose session is
    still connected, on that session's connection and with the ack's contents;
    acks of closed connections are skipped and no connection is closed. *)
Theorem gateway_acks_routed l g fuel :
  fifo_rep (gw_acks_ g) l → (length l < fuel)%nat →
  ∃ g' new, drain_acks fuel g = Ret () g' ∧ fifo_rep (gw_acks_ g') [] ∧
    gw_sent g' = gw_sent g ++ new ∧ sent_what <$> new = deliverable (connections_ g) l ∧
    (∀ x, is_Some (connections_ g' !! x) ↔ is_Some (connections_ g !! x)).
Proof. apply drain_acks_ret. Qed.

(** C35: A logout frame is a use after free.  Its handler erases the connection
    from [connections_]; the loop that called it then asks the erased
    connection's reader for the next frame. *)
Theorem gateway_logout_dangles fd g c data w frame rest fuel :
  connections_ g !! fd = Some c → os_recv fd (gw_world g) = (RecvData data, w) →
  next_frame (feed data (reader c)) = (Some frame, rest) →
  msg_type_of (h_type (decode_header frame)) = Some MtLogout →
  handle_readable (S fuel) fd g = UB.
Proof.
  intros Hc Hrecv Hn Ht. unfold handle_readable, find_conn. erewrite bind_ret by done. rewrite Hc.
  cbn [recv_loop]. erewrite bind_ret by (unfold world; by rewrite Hrecv). cbv beta iota.
  erewrite bind_ret by (unfold get_conn; cbn; by rewrite Hc).
  erewrite bind_ret by (unfold put_conn, update_conns; done).
  set (g1 := mkGw _ _ _ _ _ _ : G).
  assert (connections_ g1 !! fd = Some (mkConn (feed data (reader c)) (session c))) as C1
    by apply lookup_insert_eq.
  assert (dispatch_frames (S (length (feed data (reader c)))) fd g1 = UB) as Hub.
  { cbn [dispatch_frames]. erewrite bind_ret by (unfold get_conn; by rewrite C1). cbn [reader].
    rewrite Hn. erewrite bind_ret by (unfold put_conn, update_conns; done).
    set (g2 := mkGw _ _ _ _ _ _ : G).
    destruct (dispatch_logout fd frame g2 (mkConn rest (session c))) as (g3 & H3 & E3);
      [apply lookup_insert_eq|by eapply next_frame_length|done|].
    rewrite (bind_ret _ _ _ _ _ H3). apply next_frame_shrinks in Hn as [_ Hlt].
    destruct (length (feed data (reader c))) as [|n]; [lia|]. cbn [dispatch_frames].
    unfold mbind, M_bind, get_conn. by rewrite E3, lookup_delete_eq. }
  unfold mbind at 1, M_bind at 1. by rewrite Hub.
Qed.

End GatewayProofs.

(** ** Witnesses: a scripted operating system *)

Definition script_sockets : Sockets (list RecvResult) := {|
  os_send _ out w := (Z.of_nat (length out), w);
  os_recv _ w := match w with r :: w' => (r, w') | [] => (RecvWouldBlock, []) end;
  os_accept w := (-1, w);
  os_register _ w := w;
  os_close _ w := w;
  os_now w := (0, w)
|}.

Section Demo.
#[local] Existing Instance script_sockets.
#[local] Instance gw_demo_input : Fifo (SpscRing SequencedEvent) SequencedEvent :=
  spsc_fifo SequencedEvent 4.
#[local] Instance gw_demo_acks : Fifo (SpscRing OutboundAck) OutboundAck := spsc_fifo OutboundAck 4.

Definition blank_event : SequencedEvent := mkEvent 0 0 0 EvNewOrder Types.Gateway 0 0 Buy 0 0.
Definition blank_ack : OutboundAck := mkAck 0 0 0 Accepted 0 0 0.

Definition demo_order_frame : bytes :=
  make_frame 10 0 (encode_new_order (mkNewOrder 77 [65; 65; 80; 76; 0; 0; 0; 0] 0 150 3)).

(** Connection 9, which has not logged on, with [buf] received. *)
Definition demo_gw (buf : bytes) (script : list RecvResult) (acks : SpscRing OutboundAck)
    : Gw (SpscRing SequencedEvent) (SpscRing OutboundAck) (list RecvResult) :=
  mkGw (spsc_new 4 blank_event) acks {[ 9 := mkConn buf session_new ]} 3 script [].

Lemma gw_demo_input_laws : FifoLaws (SpscRing SequencedEvent) SequencedEvent.
Proof. apply spsc_fifo_laws, pow2_capacity_4. Qed.
Lemma gw_demo_acks_laws : FifoLaws (SpscRing OutboundAck) OutboundAck.
Proof. apply spsc_fifo_laws, pow2_capacity_4. Qed.

Lemma spsc_new_rep {T} (x : T) : spsc_rep 4 (spsc_new 4 x) [].
Proof. exists [], 0%nat. split; [by apply spsc_new_inv, pow2_capacity_4|done]. Qed.


Lemma gateway_order_queued_or_rejected_witness :
  ∃ g', dispatch 9 demo_order_frame (demo_gw [] [] (spsc_new 4 blank_ack)) = Ret () g' ∧
        spsc_rep 4 (sequencer_input_ g') [mkEvent 0 0 0 EvNewOrder Types.Gateway 9 77 Buy 150 3].
Proof.
  pose proof gw_demo_input_laws. pose proof gw_demo_acks_laws.
  destruct (gateway_order_queued_or_rejected 9 demo_order_frame (demo_gw [] [] (spsc_new 4 blank_ack))
              (mkConn [] session_new) []) as (g' & H1 & H2).
  - reflexivity.
  - apply spsc_new_rep.
  - vm_compute. lia.
  - reflexivity.
  - vm_compute. congruence.
  - exists g'. split; [exact H1|]. rewrite decide_True in H2 by (cbn; lia). exact (proj1 H2).
Defined.

Definition one_ack : SpscRing OutboundAck :=
  match push 4 (mkAck 9 77 1 Accepted 0 0 3) (spsc_new 4 blank_ack) with
  | Some (_, q) => q | None => spsc_new 4 blank_ack end.

Lemma gateway_acks_routed_witness :
  ∃ g' new, drain_acks 2 (demo_gw [] [] one_ack) = Ret () g' ∧ gw_sent g' = new ∧
    sent_what <$> new = [(9, MtExecutionReport, encode_report (mkReport 77 1 1 0 0 3))].
Proof.
  pose proof gw_demo_input_laws. pose proof gw_demo_acks_laws as HL.
  pose proof (fifo_push_law _ [] (mkAck 9 77 1 Accepted 0 0 3) (spsc_new_rep blank_ack)) as Hp.
  rewrite decide_True in Hp by (cbn; lia). destruct Hp as (q & Hq & Hrep). injection Hq as <-.
  destruct (gateway_acks_routed [mkAck 9 77 1 Accepted 0 0 3] (demo_gw [] [] one_ack) 2 Hrep)
    as (g' & new & H1 & _ & H2 & H3 & _); [cbn; lia|].
  exists g', new. split; [exact H1|]. split; [exact H2|]. rewrite H3. reflexivity.
Defined.

Lemma gateway_logout_dangles_witness :
  handle_readable 1 9 (demo_gw [] [RecvData (make_frame 2 0 [])] (spsc_new 4 blank_ack)) = UB.
Proof.
  apply (gateway_logout_dangles 9 _ (mkConn [] session_new) (make_frame 2 0 []) []
           (make_frame 2 0 []) [] 0); reflexivity.
Defined.

End Demo.
