(* ===== verification/GatewayConn.v ===== *)
(** * GatewayConn: the life of a connection

    Logon, heartbeats, the bytes that [send_frame] gets onto the wire, and what
    a reused descriptor does, for the handlers of [Gateway]. *)

From S2P Require Import Prelude Types SpscRing Protocol Session Gateway GatewayProofs.

#[local] Open Scope Z_scope.

(** The steady clock: readings never go back, whatever happens in between. *)
Class SteadyClock (W : Type) `{Sockets W} := {
  time_of : W → Z;
  now_law w : time_of w ≤ (os_now w).1 ≤ time_of (os_now w).2;
  send_time fd out w : time_of w ≤ time_of (os_send fd out w).2;
  close_time fd w : time_of w ≤ time_of (os_close fd w)
}.

Section GatewayConn.
Context {Q A W : Type} `{FQ : Fifo Q SequencedEvent, !FifoLaws Q SequencedEvent}.
Context `{FA : Fifo A OutboundAck, !FifoLaws A OutboundAck} `{SW : Sockets W}.

Abbreviation G := (Gw Q A W).
Implicit Types (g : G) (fd : Z).

(** ** The parts of a handler, with the world they leave *)

(** The session after a frame has been sent at [t]. *)
Definition beat (t : Z) (s : SessionState) : SessionState :=
  mark_outbound_activity t (next_outbound_seq s).2.

(** Everything but the connections, the log of sent frames and the world. *)
Definition rest_of g := (sequencer_input_ g, gw_acks_ g, listen_fd_ g).

Lemma clock_now_w g :
  ∃ g', clock_now g = Ret (os_now (gw_world g)).1 g' ∧ connections_ g' = connections_ g ∧ gw_sent g' = gw_sent g ∧
    rest_of g' = rest_of g ∧ gw_world g' = (os_now (gw_world g)).2.
Proof. unfold clock_now, world. destruct (os_now (gw_world g)) as [t w]. by eexists. Qed.

Lemma put_session_w fd s g c :
  connections_ g !! fd = Some c →
  ∃ g', put_session fd s g = Ret () g' ∧ connections_ g' = <[fd := mkConn (reader c) s]> (connections_ g) ∧
    gw_sent g' = gw_sent g ∧ rest_of g' = rest_of g ∧ gw_world g' = gw_world g.
Proof.
  intros Hc. unfold put_session. erewrite bind_ret by (unfold get_conn; by rewrite Hc). by eexists.
Qed.

Lemma close_connection_w fd g :
  ∃ g', close_connection fd g = Ret () g' ∧ connections_ g' = delete fd (connections_ g) ∧
    gw_sent g' = gw_sent g ∧ rest_of g' = rest_of g ∧ gw_world g' = os_close fd (gw_world g).
Proof. unfold close_connection. erewrite bind_ret by (unfold world; done). by eexists. Qed.

(** [send_numbered], up to the reading of the clock that it ends with. *)
Lemma send_numbered_w fd ty body g c :
  connections_ g !! fd = Some c →
  ∃ g' w, send_numbered fd ty body g = Ret () g' ∧
    connections_ g' = <[fd := mkConn (reader c) (beat (os_now w).1 (session c))]> (connections_ g) ∧
    gw_sent g' = gw_sent g ++ [mkSent fd ty (outbound_seq_ (session c)) body] ∧ rest_of g' = rest_of g ∧
    (∃ out, w = send_loop (length out) fd out (gw_world g)) ∧ gw_world g' = (os_now w).2.
Proof.
  intros Hc. unfold send_numbered, take_outbound_seq.
  set (s1 := (next_outbound_seq (session c)).2).
  destruct (put_session_w fd s1 g c Hc) as (g1 & H1 & C1 & S1 & R1 & W1).
  erewrite bind_ret.
  2: { erewrite bind_ret by (unfold get_conn; by rewrite Hc). cbn. by rewrite (bind_ret _ _ _ _ _ H1). }
  unfold send_frame at 1. erewrite bind_ret by done. set (g2 := mkGw _ _ _ _ _ _ : G).
  unfold mark_outbound. destruct (clock_now_w g2) as (g3 & H3 & C3 & S3 & R3 & W3). rewrite (bind_ret _ _ _ _ _ H3).
  assert (connections_ g3 !! fd = Some (mkConn (reader c) s1)) as Hc3.
  { rewrite C3. cbn. rewrite C1. apply lookup_insert_eq. }
  erewrite bind_ret by (unfold get_conn; by rewrite Hc3).
  destruct (put_session_w fd (mark_outbound_activity (os_now (gw_world g2)).1 s1) g3 _ Hc3) as (g4 & H4 & C4 & S4 & R4 & W4).
  exists g4, (gw_world g2). split; [exact H4|]. split_and!.
  - rewrite C4, C3. cbn. by rewrite C1, insert_insert_eq.
  - rewrite S4, S3. cbn. by rewrite S1.
  - rewrite R4, R3. rewrite <-R1. done.
  - exists (make_frame (msg_type_code ty) (outbound_seq_ (session c)) body). unfold g2. cbn [gw_world]. by rewrite W1.
  - by rewrite W4, W3.
Qed.

(** ** Heartbeats *)

Section Steady.
Context `{!SteadyClock W}.

Lemma send_loop_time fd : ∀ fuel out (w : W), time_of w ≤ time_of (send_loop fuel fd out w).
Proof.
  induction fuel as [|fuel IH]; intros out w; [by destruct out|]. destruct out as [|b out]; [done|]. cbn [send_loop].
  pose proof (send_time fd (b :: out) w) as Ht. destruct (os_send fd (b :: out) w) as [n w']. cbn in Ht.
  destruct (n <=? 0); [done|]. etrans; [exact Ht|apply IH].
Qed.

(** The time at which a handler ends. *)
Definition time g : Z := time_of (gw_world g).

Lemma send_numbered_t fd ty body g c :
  connections_ g !! fd = Some c →
  ∃ g' t, send_numbered fd ty body g = Ret () g' ∧ time g ≤ t ≤ time g' ∧
    connections_ g' = <[fd := mkConn (reader c) (beat t (session c))]> (connections_ g) ∧
    gw_sent g' = gw_sent g ++ [mkSent fd ty (outbound_seq_ (session c)) body] ∧ rest_of g' = rest_of g.
Proof.
  intros Hc. destruct (send_numbered_w fd ty body g c Hc) as (g' & w & H & C & S' & R & (out & ->) & W').
  eexists g', _. split_and!; [exact H|..|exact C|done|done].
  - etrans; [apply send_loop_time|]. apply now_law.
  - unfold time. rewrite W'. apply now_law.
Qed.

Lemma clock_now_t g :
  ∃ g' t, clock_now g = Ret t g' ∧ time g ≤ t ≤ time g' ∧ connections_ g' = connections_ g ∧ gw_sent g' = gw_sent g ∧
    rest_of g' = rest_of g.
Proof.
  destruct (clock_now_w g) as (g' & H & C & S' & R & W'). eexists g', _. split_and!; [exact H|..|done|done|done].
  - apply now_law.
  - unfold time. rewrite W'. apply now_law.
Qed.

(** What a check between the times [lo] and [hi] may do to a connection.  It is
    dropped when its peer is logged on and found silent for more than two
    intervals; a heartbeat goes out when the peer is alive but nothing was sent to
    it for an interval; and otherwise it stays as it is. *)
Inductive heartbeat_checked (lo hi : Z) (c : ConnectionState) : option ConnectionState → bool → Prop :=
| ck_dropped t :
    lo ≤ t ≤ hi → status_ (session c) = LoggedOn → is_peer_dead t (session c) = true → heartbeat_checked lo hi c None false
| ck_beat t u v :
    lo ≤ t ≤ u → u ≤ v ≤ hi → status_ (session c) = LoggedOn →
    is_peer_dead t (session c) = false → should_send_heartbeat u (session c) = true →
    heartbeat_checked lo hi c (Some (mkConn (reader c) (beat v (session c)))) true
| ck_kept t u :
    lo ≤ t ≤ u → u ≤ hi →
    status_ (session c) ≠ LoggedOn ∨ is_peer_dead t (session c) = false ∧ should_send_heartbeat u (session c) = false →
    heartbeat_checked lo hi c (Some c) false.

Lemma heartbeat_checked_wider lo hi lo' hi' c o b : lo' ≤ lo → hi ≤ hi' → heartbeat_checked lo hi c o b → heartbeat_checked lo' hi' c o b.
Proof.
  intros H1 H2 [t ? ? ?|t u v ? ? ? ? ?|t u ? ? ?]; [apply (ck_dropped _ _ _ t)|apply (ck_beat _ _ _ t u v)|apply (ck_kept _ _ _ t u)];
    done || lia.
Qed.

Definition heartbeat_frame (fd : Z) (c : ConnectionState) : SentFrame :=
  mkSent fd MtHeartbeat (outbound_seq_ (session c)) [].

Lemma check_heartbeat_t fd g c : connections_ g !! fd = Some c →
  ∃ g' o (b : bool), check_heartbeat fd g = Ret () g' ∧ time g ≤ time g' ∧ heartbeat_checked (time g) (time g') c o b ∧
    connections_ g' = partial_alter (λ _, o) fd (connections_ g) ∧
    gw_sent g' = gw_sent g ++ (if b then [heartbeat_frame fd c] else []) ∧ rest_of g' = rest_of g.
Proof.
  intros Hc. unfold check_heartbeat, find_conn. erewrite bind_ret by done. rewrite Hc.
  assert (∀ m : gmap Z ConnectionState, m !! fd = Some c → m = partial_alter (λ _, Some c) fd m) as Hsame.
  { intros m Hm. symmetry. rewrite <-Hm. apply partial_alter_self. }
  case_decide as Hst.
  2: { exists g, (Some c), false. split_and!; [done|done| |by apply Hsame|by rewrite app_nil_r|done].
       eapply (ck_kept _ _ _ (time g) (time g)); [lia|lia|by left]. }
  destruct (clock_now_t g) as (g1 & t & H1 & T1 & C1 & S1 & R1). rewrite (bind_ret _ _ _ _ _ H1).
  assert (connections_ g1 !! fd = Some c) as Hc1 by congruence.
  destruct (is_peer_dead t (session c)) eqn:Hdead.
  - destruct (put_session_w fd (disconnect (session c)) g1 c Hc1) as (g2 & H2 & C2 & S2 & R2 & W2).
    rewrite (bind_ret _ _ _ _ _ H2). destruct (close_connection_w fd g2) as (g3 & H3 & C3 & S3 & R3 & W3).
    assert (time g1 ≤ time g3) as T3 by (unfold time; rewrite W3, W2; apply close_time).
    exists g3, None, false. split_and!; [done|lia|apply (ck_dropped _ _ _ t); [lia|done|done]| |by rewrite app_nil_r; congruence|congruence].
    rewrite C3, C2, C1. by rewrite delete_insert_eq.
  - destruct (clock_now_t g1) as (g2 & u & H2 & T2 & C2 & S2 & R2). rewrite (bind_ret _ _ _ _ _ H2).
    destruct (should_send_heartbeat u (session c)) eqn:Hsend.
    + destruct (send_numbered_t fd MtHeartbeat [] g2 c) as (g3 & v & H3 & T3 & C3 & S3 & R3); [congruence|].
      eexists g3, _, true. split_and!; [done|lia|eapply (ck_beat _ _ _ t u v); done || lia| |by rewrite S3, S2, S1|congruence].
      by rewrite C3, C2, C1.
    + exists g2, (Some c), false. split_and!; [done|lia|eapply (ck_kept _ _ _ t u); [lia|lia|by right]| |by rewrite app_nil_r; congruence|congruence].
      rewrite C2, C1. by apply Hsame.
Qed.

(** The connections [fds], checked one after the other; [beats] are those that were
    sent a heartbeat. *)
Lemma check_each_t fds : ∀ g, NoDup fds → (∀ fd, fd ∈ fds → is_Some (connections_ g !! fd)) →
  ∃ g' beats, check_each fds g = Ret () g' ∧ time g ≤ time g' ∧ beats `sublist_of` fds ∧
    (∀ fd c, fd ∈ fds → connections_ g !! fd = Some c →
       heartbeat_checked (time g) (time g') c (connections_ g' !! fd) (bool_decide (fd ∈ beats))) ∧
    (∀ fd, fd ∉ fds → connections_ g' !! fd = connections_ g !! fd) ∧
    gw_sent g' = gw_sent g ++ omap (λ fd, heartbeat_frame fd <$> connections_ g !! fd) beats ∧ rest_of g' = rest_of g.
Proof.
  induction fds as [|fd fds IH]; intros g Hnd Hin; cbn [check_each].
  { exists g, []. split_and!; [done|done|done|by intros ? ? ?%not_elem_of_nil|done|by rewrite app_nil_r|done]. }
  apply NoDup_cons in Hnd as [Hni Hnd]. destruct (Hin fd ltac:(by left)) as [c Hc].
  destruct (check_heartbeat_t fd g c Hc) as (g1 & o & b & H1 & T1 & K1 & C1 & S1 & R1). rewrite (bind_ret _ _ _ _ _ H1).
  assert (∀ x, x ≠ fd → connections_ g1 !! x = connections_ g !! x) as Hother.
  { intros x Hx. rewrite C1. by apply lookup_partial_alter_ne. }
  destruct (IH g1 Hnd) as (g2 & beats & H2 & T2 & Hsub & K2 & O2 & S2 & R2).
  { intros x Hx. rewrite Hother by (by intros ->). apply Hin. by right. }
  assert (∀ x, x ∈ beats → x ∈ fds) as Hsub' by (intros x Hx; by eapply elem_of_sublist).
  exists g2, ((if b then [fd] else []) ++ beats). split_and!; [done|lia| | | | |congruence].
  - destruct b; cbn; [by apply sublist_skip|by apply sublist_cons].
  - intros x cx Hx Hcx. destruct (decide (x = fd)) as [->|Hne].
    + assert (cx = c) as -> by congruence. rewrite O2, C1, lookup_partial_alter_eq by done.
      eapply heartbeat_checked_wider; [..|replace (bool_decide _) with b; [exact K1|]]; [done|lia|].
      destruct b; cbn; [by rewrite bool_decide_eq_true_2 by (by left)|by rewrite bool_decide_eq_false_2 by auto].
    + assert (x ∈ fds) as Hx' by (by apply elem_of_cons in Hx as [?|?]).
      specialize (K2 x cx Hx'). rewrite Hother in K2 by done. specialize (K2 Hcx).
      eapply heartbeat_checked_wider; [..|replace (bool_decide _) with (bool_decide (x ∈ beats)); [exact K2|]]; [lia|lia|].
      apply bool_decide_ext. destruct b; set_solver.
  - intros x Hx. rewrite O2 by set_solver. apply Hother. set_solver.
  - rewrite S2, S1, <-app_assoc. f_equal. rewrite omap_app. f_equal; [destruct b; cbn; by rewrite ?Hc|].
    clear -Hsub' Hni Hother. induction beats as [|x beats IH]; [done|]. cbn. rewrite IH by (intros; apply Hsub'; by right).
    rewrite Hother; [done|]. intros ->. apply Hni, Hsub'. by left.
Qed.

(** The heartbeat check, on every branch.  [check_heartbeats] always returns; each
    connection is [heartbeat_checked] at some time between the beginning and the end; the
    heartbeats that go out bear the next sequence number of their session; no
    connection is added, and the queues are left as they are. *)
Theorem gateway_heartbeats g :
  ∃ g' beats, check_heartbeats g = Ret () g' ∧ NoDup beats ∧
    (∀ fd c, connections_ g !! fd = Some c →
       heartbeat_checked (time g) (time g') c (connections_ g' !! fd) (bool_decide (fd ∈ beats))) ∧
    (∀ fd, connections_ g !! fd = None → connections_ g' !! fd = None) ∧
    gw_sent g' = gw_sent g ++ omap (λ fd, heartbeat_frame fd <$> connections_ g !! fd) beats ∧
    sequencer_input_ g' = sequencer_input_ g ∧ gw_acks_ g' = gw_acks_ g.
Proof.
  unfold check_heartbeats. set (fds := (map_to_list (connections_ g)).*1).
  assert (∀ fd, fd ∈ fds ↔ is_Some (connections_ g !! fd)) as Hfds.
  { intros fd. unfold fds. rewrite list_elem_of_fmap. split.
    - intros ([? c] & -> & Hc%elem_of_map_to_list). by exists c.
    - intros [c Hc]. exists (fd, c). split; [done|]. by apply elem_of_map_to_list. }
  assert (NoDup fds) as Hnd by apply NoDup_fst_map_to_list.
  destruct (check_each_t fds g Hnd) as (g' & beats & H & _ & Hsub & K & O & S' & R); [intros fd; apply Hfds|].
  exists g', beats. split_and!; [done|by eapply sublist_NoDup| | |done|exact (f_equal (λ p, p.1.1) R)|exact (f_equal (λ p, p.1.2) R)].
  - intros fd c Hc. apply K; [apply Hfds; by exists c|done].
  - intros fd Hn. rewrite O; [done|]. rewrite Hfds, Hn. by intros [? ?].
Qed.

(** ** Logging on *)

Lemma dispatch_logon_t fd frame g c :
  connections_ g !! fd = Some c → (sizeof_MsgHeader ≤ length frame)%nat →
  msg_type_of (h_type (decode_header frame)) = Some MtLogon →
  Z.of_nat sizeof_LogonMsg ≤ h_body_length (decode_header frame) →
  let lg := decode_logon (drop sizeof_MsgHeader frame) in
  ∃ g' t, dispatch fd frame g = Ret () g' ∧ rest_of g' = rest_of g ∧ time g ≤ t ≤ time g' ∧
    let '(ok, s) := handle_logon t (l_client_id lg) (l_heartbeat_interval_ms lg)
                      (h_seq_num (decode_header frame)) (session c) in
    if ok then (∃ u, t ≤ u ≤ time g' ∧ connections_ g' = <[fd := mkConn (reader c) (beat u s)]> (connections_ g)) ∧
               gw_sent g' = gw_sent g ++ [mkSent fd MtLogon (outbound_seq_ s) (encode_logon (mkLogon 0 0 0))]
    else connections_ g' = delete fd (connections_ g) ∧ gw_sent g' = gw_sent g.
Proof.
  intros Hc Hlen Ht Hb lg. unfold dispatch.
  destruct (Nat.ltb_spec (length frame) sizeof_MsgHeader); [lia|]. cbv zeta. rewrite Ht.
  destruct (Z.ltb_spec (h_body_length (decode_header frame)) (Z.of_nat sizeof_LogonMsg)); [lia|].
  destruct (clock_now_t g) as (g1 & t & H1 & T1 & C1 & S1 & R1). rewrite (bind_ret _ _ _ _ _ H1).
  assert (connections_ g1 !! fd = Some c) as Hc1 by congruence.
  erewrite bind_ret by (unfold get_conn; by rewrite Hc1). fold lg.
  destruct (handle_logon t _ _ _ _) as [ok s] eqn:Hh.
  destruct (put_session_w fd s g1 c Hc1) as (g2 & H2 & C2 & S2 & R2 & W2). rewrite (bind_ret _ _ _ _ _ H2).
  assert (time g2 = time g1) as T2 by (unfold time; by rewrite W2).
  destruct ok.
  - destruct (send_numbered_t fd MtLogon (encode_logon (mkLogon 0 0 0)) g2 (mkConn (reader c) s))
      as (g3 & u & H3 & T3 & C3 & S3 & R3); [rewrite C2; apply lookup_insert_eq|].
    exists g3, t. rewrite Hh. split_and!; [done|congruence|lia|lia| |by rewrite S3, S2, S1].
    exists u. split; [lia|]. by rewrite C3, C2, C1, insert_insert_eq.
  - destruct (close_connection_w fd g2) as (g3 & H3 & C3 & S3 & R3 & W3).
    assert (time g2 ≤ time g3) by (unfold time; rewrite W3; apply close_time).
    exists g3, t. rewrite Hh. split_and!; [done|congruence|lia|lia| |congruence]. by rewrite C3, C2, C1, delete_insert_eq.
Qed.

(** Logging on, on both branches.  The first logon of a connection is
    accepted: the session is logged on with the client's id and interval, expects
    the number after the client's first, and a logon answer goes out with number
    0.  A logon on a session that is not awaiting one closes the connection and
    sends nothing. *)
Theorem gateway_logon fd frame g c :
  connections_ g !! fd = Some c → (sizeof_MsgHeader ≤ length frame)%nat →
  msg_type_of (h_type (decode_header frame)) = Some MtLogon →
  Z.of_nat sizeof_LogonMsg ≤ h_body_length (decode_header frame) →
  let lg := decode_logon (drop sizeof_MsgHeader frame) in
  ∃ g' t u, dispatch fd frame g = Ret () g' ∧ time g ≤ t ≤ u ∧
    (session c = session_new →
       u ≤ time g' ∧
       connections_ g' = <[fd := mkConn (reader c)
         (mkSession LoggedOn (l_client_id lg) (l_heartbeat_interval_ms lg)
            (u32 (h_seq_num (decode_header frame) + 1)) 1 t u)]> (connections_ g) ∧
       gw_sent g' = gw_sent g ++ [mkSent fd MtLogon 0 (encode_logon (mkLogon 0 0 0))]) ∧
    (status_ (session c) ≠ AwaitingLogon →
       connections_ g' = delete fd (connections_ g) ∧ gw_sent g' = gw_sent g).
Proof.
  intros Hc Hlen Ht Hb lg. destruct (dispatch_logon_t fd frame g c Hc Hlen Ht Hb) as (g' & t & Hd & _ & Tt & Hr). fold lg in Hr.
  unfold handle_logon in Hr. case_decide as Hst.
  - destruct Hr as [(u & Tu & H1) H2]. exists g', t, u. split_and!; [done|lia|lia| |done].
    intros Hn. rewrite H1, H2, Hn. split_and!; [lia|done|done].
  - destruct Hr as [H1 H2]. exists g', t, t. split_and!; [done|lia|lia| |done]. intros Hn. by rewrite Hn in Hst.
Qed.

End Steady.

(** ** A reused descriptor *)

(** C36: A finding: acks follow the descriptor, not the client.  When a client
    disconnects and [accept] hands its descriptor to the next client, an ack for
    an order of the first client that is still on its way is sent to the second
    one, which has not even logged on. *)
Theorem gateway_fd_reuse_misroutes fd g w a :
  0 ≤ fd → ack_fd a = fd → fifo_rep (gw_acks_ g) [a] → os_accept (os_close fd (gw_world g)) = (fd, w) →
  ∃ g', (close_connection fd ≫= λ _, accept_new_connection ≫= λ _, drain_acks 2) g = Ret () g' ∧
    (∃ s, connections_ g' !! fd = Some (mkConn [] s) ∧ status_ s = AwaitingLogon) ∧
    gw_sent g' = gw_sent g ++ [mkSent fd MtExecutionReport 0 (encode_report (report_of a))].
Proof.
  intros Hfd Ha Hrep Hacc. destruct (close_connection_w fd g) as (g1 & H1 & C1 & S1 & R1 & W1).
  rewrite (bind_ret _ _ _ _ _ H1). unfold accept_new_connection.
  assert (gw_acks_ g1 = gw_acks_ g) as Ak by exact (f_equal (λ p, p.1.2) R1).
  erewrite bind_ret.
  2: { erewrite bind_ret by (unfold world; rewrite W1, Hacc; done).
       destruct (Z.ltb_spec fd 0); [lia|]. erewrite bind_ret by (unfold world; done). reflexivity. }
  match goal with |- context [drain_acks 2 ?x] => set (g2 := x) end.
  assert (gw_acks_ g2 = gw_acks_ g) as Ak2 by exact Ak.
  pose proof (fifo_pop_law (gw_acks_ g) [a] Hrep) as (q & Hq & Hrep').
  cbn [drain_acks]. erewrite bind_ret by (unfold acks_pop; rewrite Ak2, Hq; reflexivity).
  set (g3 := mkGw _ q _ _ _ _ : G).
  cbv beta iota. erewrite bind_ret by (unfold find_conn; done). rewrite Ha.
  assert (connections_ g3 !! fd = Some (mkConn [] session_new)) as Hc by (cbn; apply lookup_insert_eq).
  rewrite Hc. destruct (send_numbered_w fd MtExecutionReport (encode_report (report_of a)) g3 _ Hc)
    as (g4 & w4 & H4 & C4 & S4 & R4 & _). rewrite (bind_ret _ _ _ _ _ H4).
  pose proof (fifo_pop_law q [] Hrep') as Hq'. assert (gw_acks_ g4 = q) as Aq by exact (f_equal (λ p, p.1.2) R4).
  erewrite bind_ret by (unfold acks_pop; rewrite Aq, Hq'; reflexivity).
  eexists. split; [done|]. cbn. split.
  - rewrite C4, lookup_insert_eq. by eexists.
  - rewrite S4. cbn. by rewrite S1.
Qed.

End GatewayConn.

(** ** The bytes on the wire *)

(** What [send] has put into the stream of each descriptor.  On a non-blocking
    socket it takes a part of what it is given, or nothing. *)
Class ByteStream (W : Type) `{Sockets W} := {
  delivered : Z → W → bytes;
  os_send_law fd out w n w' : os_send fd out w = (n, w') →
    n ≤ Z.of_nat (length out) ∧ delivered fd w' = delivered fd w ++ take (Z.to_nat n) out
}.

Section Wire.
Context {Q A W : Type} `{SW : Sockets W, !ByteStream W}.

Lemma send_loop_prefix fd : ∀ fuel out (w : W),
  ∃ k, delivered fd (send_loop fuel fd out w) = delivered fd w ++ take k out ∧
    ((length out ≤ fuel)%nat → (∀ out' w', out' ≠ [] → 0 < (os_send fd out' w').1) → k = length out).
Proof.
  induction fuel as [|fuel IH]; intros out w.
  { exists 0%nat. cbn. rewrite app_nil_r. split; [by destruct out|]. intros Hl _. lia. }
  destruct out as [|b out]; [exists 0%nat; by rewrite app_nil_r|]. cbn [send_loop].
  destruct (os_send fd (b :: out) w) as [n w'] eqn:Hs. destruct (os_send_law _ _ _ _ _ Hs) as [Hn Hd].
  destruct (Z.leb_spec n 0) as [Hz|Hz].
  - exists (Z.to_nat n). split; [done|]. intros _ Hpos. specialize (Hpos (b :: out) w). rewrite Hs in Hpos.
    specialize (Hpos ltac:(done)). cbn in Hpos. lia.
  - destruct (IH (drop (Z.to_nat n) (b :: out)) w') as (k & Hk & Hfull).
    exists (Z.to_nat n + k)%nat. rewrite Hk, Hd, <-app_assoc, take_take_drop. split; [done|].
    intros Hl Hpos. rewrite Hfull, length_drop; [lia| |done]. rewrite length_drop. cbn in *. lia.
Qed.

(** A frame that [send_frame] hands to a socket reaches the peer as a prefix;
    and when [send] never refuses, as a whole: if the peer's reader had split the
    stream so far into [fs] with nothing left over, it now finds exactly one
    frame more, the one that was sent. *)
Theorem gateway_send_intact fd ty seq body (g g' : Gw Q A W) fs :
  is_u32 seq → Z.of_nat (length body) < 2 ^ 16 → frames (delivered fd (gw_world g)) = (fs, []) →
  send_frame fd ty seq body g = Ret () g' →
  let frame := make_frame (msg_type_code ty) seq body in
  (∃ k, delivered fd (gw_world g') = delivered fd (gw_world g) ++ take k frame) ∧
  ((∀ out' w', out' ≠ [] → 0 < (os_send fd out' w').1) →
   frames (delivered fd (gw_world g')) = (fs ++ [frame], [])).
Proof.
  intros Hs Hb Hf Hg frame.
  assert (gw_world g' = send_loop (length frame) fd frame (gw_world g)) as -> by (by injection Hg as <-).
  destruct (send_loop_prefix fd (length frame) frame (gw_world g)) as (k & Hk & Hfull).
  split; [by exists k|]. intros Hpos. rewrite (Hfull ltac:(lia) Hpos) in Hk. rewrite firstn_all in Hk.
  assert (next_frame frame = (Some frame, [])) as Hn.
  { rewrite <-(app_nil_r frame) at 1. apply next_frame_make; [|done|done]. destruct ty; cbn; word_lia. }
  rewrite Hk, frames_app, Hf, app_nil_l, frames_unfold, Hn. reflexivity.
Qed.

End Wire.

(** *** Witnesses *)

(** A socket that takes as many bytes as the script says, [-1] when it would
    block; the stream of the only client; and a clock that advances by 1 ms with
    every reading. *)
Record SlowWorld := mkSlow { sl_budget : list Z; sl_stream : bytes; sl_time : Z }.

Definition slow_sockets : Sockets SlowWorld := {|
  os_send fd out w :=
    let b := match sl_budget w with b :: _ => b | [] => Z.of_nat (length out) end in
    let n := Z.min b (Z.of_nat (length out)) in
    (n, mkSlow (tail (sl_budget w)) (sl_stream w ++ take (Z.to_nat n) out) (sl_time w));
  os_recv _ w := (RecvWouldBlock, w);
  os_accept w := (9, w);
  os_register _ w := w;
  os_close _ w := w;
  os_now w := (sl_time w, mkSlow (sl_budget w) (sl_stream w) (sl_time w + ns_per_ms))
|}.

Section DemoConn.
#[local] Existing Instance slow_sockets.
#[local] Instance conn_demo_input : Fifo (SpscRing SequencedEvent) SequencedEvent := spsc_fifo SequencedEvent 4.
#[local] Instance conn_demo_acks : Fifo (SpscRing OutboundAck) OutboundAck := spsc_fifo OutboundAck 4.
#[local] Instance conn_demo_input_laws : FifoLaws (SpscRing SequencedEvent) SequencedEvent :=
  spsc_fifo_laws SequencedEvent 4 pow2_capacity_4.
#[local] Instance conn_demo_acks_laws : FifoLaws (SpscRing OutboundAck) OutboundAck :=
  spsc_fifo_laws OutboundAck 4 pow2_capacity_4.

#[local] Instance slow_clock : SteadyClock SlowWorld.
Proof. refine {| time_of w := sl_time w |}; intros; cbn; unfold ns_per_ms; lia. Defined.

#[local] Instance slow_stream : ByteStream SlowWorld.
Proof.
  refine {| delivered _ w := sl_stream w |}. intros fd out [bs d t] n w' [= <- <-]. split; [lia|done].
Defined.

(** Connection 9, logged on with an interval of 1 s at time 0, and [budget] for
    the next calls of [send]. *)
Definition conn_gw (budget : list Z) (acks : SpscRing OutboundAck)
    : Gw (SpscRing SequencedEvent) (SpscRing OutboundAck) SlowWorld :=
  mkGw (spsc_new 4 blank_event) acks
    {[ 9 := mkConn [] (mkSession LoggedOn 1 1000 1 0 4000000000 0);
       8 := mkConn [] (mkSession LoggedOn 2 1000 1 0 0 0) ]} 3 (mkSlow budget [] 5000000000) [].

(** At 5 s the peer of 8 has been silent for 5 s and is dropped, and the peer of
    9, heard from 1 s ago, is not. *)
Lemma gateway_heartbeats_witness :
  ∃ g', check_heartbeats (conn_gw [] (spsc_new 4 blank_ack)) = Ret () g' ∧ connections_ g' !! 8 = None ∧
    is_Some (connections_ g' !! 9).
Proof.
  destruct (gateway_heartbeats (conn_gw [] (spsc_new 4 blank_ack))) as (g' & beats & H1 & _ & H2 & _).
  exists g'. split; [exact H1|]. assert (time g' = 5004000000) as Ht by (vm_compute in H1; by injection H1 as <-).
  rewrite Ht in H2. split.
  - destruct (H2 8 _ eq_refl) as [t _ _ _|t u v Hl _ _ Hd _|t u Hl _ [Hs|[Hd _]]]; [done|exfalso|by destruct Hs|exfalso];
      revert Hd; unfold is_peer_dead, time in *; cbn in *; unfold ns_per_ms; rewrite Z.ltb_ge; lia.
  - destruct (H2 9 _ eq_refl) as [t Hl _ Hd| |]; [|by eexists..]; exfalso.
    revert Hd; unfold is_peer_dead, time in *; cbn in *; unfold ns_per_ms; rewrite Z.ltb_lt; lia.
Defined.

Definition logon_frame : bytes := make_frame 1 7 (encode_logon (mkLogon 42 500 7)).

Lemma gateway_logon_witness :
  ∃ g', dispatch 9 logon_frame (conn_gw [] (spsc_new 4 blank_ack)) = Ret () g' ∧ connections_ g' !! 9 = None.
Proof.
  destruct (gateway_logon 9 logon_frame (conn_gw [] (spsc_new 4 blank_ack))
              (mkConn [] (mkSession LoggedOn 1 1000 1 0 4000000000 0))) as (g' & t & u & H1 & _ & _ & H2).
  - reflexivity.
  - vm_compute. lia.
  - reflexivity.
  - vm_compute. discriminate.
  - exists g'. split; [exact H1|]. rewrite (proj1 (H2 ltac:(discriminate))). reflexivity.
Defined.

Lemma gateway_fd_reuse_misroutes_witness :
  ∃ g' : Gw (SpscRing SequencedEvent) (SpscRing OutboundAck) SlowWorld, gw_sent g' = [mkSent 9 MtExecutionReport 0 (encode_report (mkReport 77 1 4 100 2 1))] ∧
    ∃ s, connections_ g' !! 9 = Some (mkConn [] s) ∧ status_ s = AwaitingLogon.
Proof.
  pose proof (fifo_push_law _ [] (mkAck 9 77 1 PartialFill 100 2 1) (spsc_new_rep blank_ack)) as Hp.
  rewrite decide_True in Hp by (cbn; lia). destruct Hp as (q & _ & Hrep).
  destruct (gateway_fd_reuse_misroutes 9 (conn_gw [] q) (mkSlow [] [] 5000000000)
              (mkAck 9 77 1 PartialFill 100 2 1)) as (g' & _ & H1 & H2).
  - lia.
  - reflexivity.
  - exact Hrep.
  - reflexivity.
  - exists g'. split; [exact H2|exact H1].
Defined.

Lemma gateway_send_intact_witness :
  ∃ g', send_frame 9 MtHeartbeat 4 [] (conn_gw [3; 2] (spsc_new 4 blank_ack)) = Ret () g' ∧
    delivered 9 (gw_world g') = [0; 0; 3; 4; 0; 0; 0] ∧
    ∃ k, delivered 9 (gw_world g') = take k (make_frame 3 4 []).
Proof.
  eexists. split; [reflexivity|].
  destruct (gateway_send_intact 9 MtHeartbeat 4 [] (conn_gw [3; 2] (spsc_new 4 blank_ack)) _ []
              ltac:(word_lia) ltac:(cbn; lia) eq_refl eq_refl) as [Hk _].
  split; [vm_compute; reflexivity|exact Hk].
Defined.

(** Two reports for descriptor 9, of which the socket takes ten bytes of the
    first before its buffer is full. *)
Definition cut_reports : list OutboundAck := [mkAck 9 77 1 Accepted 0 0 3; mkAck 9 78 2 Accepted 0 0 5].
Definition cut_queue : SpscRing OutboundAck :=
  match push 4 (mkAck 9 77 1 Accepted 0 0 3) (spsc_new 4 blank_ack) with
  | Some (_, q) => match push 4 (mkAck 9 78 2 Accepted 0 0 5) q with Some (_, q') => q' | None => q end
  | None => spsc_new 4 blank_ack
  end.

(** A finding: the sockets are non-blocking, and [send_frame] takes a [send]
    that would block for a peer that is gone.  The rest of the frame is dropped
    while the connection lives on, so the next frame lands inside the cut one: of
    two reports handed to a slow client, its reader recovers neither. *)
Theorem gateway_partial_send_desyncs :
  ∃ g', drain_acks 3 (conn_gw [10; -1] cut_queue) = Ret () g' ∧
    sf_body <$> gw_sent g' = (λ a, encode_report (report_of a)) <$> cut_reports ∧
    is_Some (connections_ g' !! 9) ∧
    Forall (λ f, f ∉ (frames (delivered 9 (gw_world g'))).1)
      [make_frame 20 0 (encode_report (report_of (mkAck 9 77 1 Accepted 0 0 3)));
       make_frame 20 1 (encode_report (report_of (mkAck 9 78 2 Accepted 0 0 5)))].
Proof.
  eexists. split; [vm_compute; reflexivity|]. split; [reflexivity|]. split; [eexists; reflexivity|].
  repeat constructor; apply (bool_decide_unpack _); vm_compute; exact I.
Qed.

End DemoConn.
