(* ===== verification/GatewayPoll.v ===== *)
(** * GatewayPoll: from the bytes that arrive to the events that are pushed

    One [poll_once] of [include/gateway_server.hpp].  What it pushes to the
    sequencer is determined by the bytes that arrive while it runs; and it comes to
    an end, without undefined behaviour, when the clients neither log out nor log on
    twice ([gateway_logout_dangles] is about the others). *)

From stdpp Require Import relations.
From S2P Require Import Prelude Types SpscRing Protocol Session Gateway GatewayProofs GatewayConn.

#[local] Open Scope Z_scope.

(** A call of the operating system. *)
Inductive os_step {W : Type} `{Sockets W} : W → W → Prop :=
| step_send fd out w : os_step w (os_send fd out w).2
| step_recv fd w : os_step w (os_recv fd w).2
| step_accept w : os_step w (os_accept w).2
| step_register fd w : os_step w (os_register fd w)
| step_close fd w : os_step w (os_close fd w)
| step_now w : os_step w (os_now w).2.

Definition received (r : RecvResult) : bytes := match r with RecvData data => data | _ => [] end.

(** What [recv] has returned for a descriptor since it was accepted, and how many
    more times it will return data, of what is still on its way too: each such call
    takes some of it.  Only [recv] and [accept] have to do with either. *)
Class ClientStreams (W : Type) `{Sockets W} := {
  arrived : Z → W → bytes;
  backlog : Z → W → nat;
  stream_send fd out w x : arrived x (os_send fd out w).2 = arrived x w ∧ (backlog x (os_send fd out w).2 ≤ backlog x w)%nat;
  stream_register fd w x : arrived x (os_register fd w) = arrived x w;
  stream_close fd w x : arrived x (os_close fd w) = arrived x w ∧ (backlog x (os_close fd w) ≤ backlog x w)%nat;
  stream_now w x : arrived x (os_now w).2 = arrived x w ∧ (backlog x (os_now w).2 ≤ backlog x w)%nat;
  stream_accept w x : x ≠ (os_accept w).1 ∨ (os_accept w).1 < 0 → arrived x (os_accept w).2 = arrived x w;
  stream_accepted w : 0 ≤ (os_accept w).1 → arrived (os_accept w).1 (os_accept w).2 = [];
  stream_recv fd w x :
    arrived x (os_recv fd w).2 = arrived x w ++ (if decide (x = fd) then received (os_recv fd w).1 else []);
  stream_backlog fd w : (backlog fd (os_recv fd w).2 ≤ backlog fd w)%nat;
  stream_drains fd w data : (os_recv fd w).1 = RecvData data → (backlog fd (os_recv fd w).2 < backlog fd w)%nat
}.

Section GatewayPoll.
Context {Q A W : Type} `{FQ : Fifo Q SequencedEvent, !FifoLaws Q SequencedEvent}.
Context `{FA : Fifo A OutboundAck, !FifoLaws A OutboundAck} `{SW : Sockets W, !ClientStreams W}.

Abbreviation G := (Gw Q A W).
Implicit Types (g : G) (fd : Z) (l evs : list SequencedEvent).

(** ** What is pushed *)

(** The queue [l] after the pushes of [evs], as far as there is room. *)
Definition fill l evs : list SequencedEvent := l ++ take (@fifo_room _ _ FQ - length l) evs.

Lemma fill_nil l : fill l [] = l.
Proof. unfold fill. by rewrite take_nil, app_nil_r. Qed.

Lemma fill_fill l evs evs' : fill (fill l evs) evs' = fill l (evs ++ evs').
Proof.
  unfold fill. rewrite <-app_assoc, take_app, length_app, length_take. do 3 f_equal. lia.
Qed.

(** The streams of all clients are what they were. *)
Definition quiet (w w' : W) : Prop := ∀ x, arrived x w' = arrived x w ∧ (backlog x w' ≤ backlog x w)%nat.

(** From [g] to [g'] the events [evs] have been pushed, and no byte received. *)
Record pinned evs g g' : Prop := {
  pn_queue l : fifo_rep (sequencer_input_ g) l → fifo_rep (sequencer_input_ g') (fill l evs);
  pn_readers fd c' : connections_ g' !! fd = Some c' → ∃ c, connections_ g !! fd = Some c ∧ reader c' = reader c;
  pn_world : rtc os_step (gw_world g) (gw_world g');
  pn_quiet : quiet (gw_world g) (gw_world g')
}.

Definition pin {X} evs (m : M X) : Prop := ∀ g x g', m g = Ret x g' → pinned evs g g'.

Lemma pinned_refl g : pinned [] g g.
Proof. split; [intros l; by rewrite fill_nil|by eauto|apply rtc_refl|done]. Qed.

Lemma pinned_trans evs evs' g g1 g2 : pinned evs g g1 → pinned evs' g1 g2 → pinned (evs ++ evs') g g2.
Proof.
  intros [Q1 R1 W1 A1] [Q2 R2 W2 A2]. split.
  - intros l Hl. rewrite <-fill_fill. auto.
  - intros fd c2 (c1 & H1 & E1)%R2. destruct (R1 fd c1 H1) as (c & H & E). exists c. split; [done|congruence].
  - by etrans.
  - intros x. destruct (A1 x), (A2 x). split; [congruence|lia].
Qed.

Lemma pin_bind {X Y} evs evs' (m : M X) (k : X → M Y) : pin evs m → (∀ x, pin evs' (k x)) → pin (evs ++ evs') (m ≫= k).
Proof.
  intros Hm Hk g y g' Hr. unfold mbind, M_bind in Hr. destruct (m g) as [x g1| |] eqn:Em; [|done..].
  eapply pinned_trans; [by eapply Hm|by eapply Hk].
Qed.

(** Most computations push nothing. *)
Lemma pin_then {X Y} evs (m : M X) (k : X → M Y) : pin [] m → (∀ x, pin evs (k x)) → pin evs (m ≫= k).
Proof. apply (pin_bind []). Qed.

Lemma pin_ret {X} (x : X) : pin [] (mret x).
Proof. intros g y g' [= <- <-]. apply pinned_refl. Qed.
Lemma pin_done : pin [] done.
Proof. apply pin_ret. Qed.
Lemma pin_get_conn fd : pin [] (get_conn fd).
Proof. intros g c g'. unfold get_conn. destruct (_ !! _); [|done]. intros [= <- <-]. apply pinned_refl. Qed.
Lemma pin_find_conn fd : pin [] (find_conn fd).
Proof. intros g c g' [= <- <-]. apply pinned_refl. Qed.

Lemma pinned_same g g' :
  sequencer_input_ g' = sequencer_input_ g → connections_ g' = connections_ g → rtc os_step (gw_world g) (gw_world g') →
  quiet (gw_world g) (gw_world g') → pinned [] g g'.
Proof. intros HQ HC HW HA. split; [intros l; by rewrite fill_nil, HQ|rewrite HC; by eauto|done|done]. Qed.

Lemma pin_clock : pin [] clock_now.
Proof.
  intros g t g' H. unfold clock_now, world in H. pose proof (step_now (gw_world g)) as Hs. pose proof (stream_now (gw_world g)) as Hq.
  destruct (os_now (gw_world g)) as [t' w]. injection H as <- <-.
  apply pinned_same; cbn; [done|done|by apply rtc_once|exact Hq].
Qed.

Lemma send_loop_quiet fd : ∀ fuel out (w : W), rtc os_step w (send_loop fuel fd out w) ∧ quiet w (send_loop fuel fd out w).
Proof.
  induction fuel as [|fuel IH]; intros out w; [split; [by destruct out|intros x; by destruct out]|].
  destruct out as [|b out]; [split; [apply rtc_refl|done]|]. cbn [send_loop].
  pose proof (step_send fd (b :: out) w) as Hs. pose proof (stream_send fd (b :: out) w) as Hq.
  destruct (os_send fd (b :: out) w) as [n w']. cbn in Hs, Hq. destruct (n <=? 0); [split; [by apply rtc_once|done]|].
  destruct (IH (drop (Z.to_nat n) (b :: out)) w') as [Hr Hq']. split; [by eapply rtc_l|].
  intros x. destruct (Hq x) as [H1 H2], (Hq' x) as [H3 H4]. split; [congruence|lia].
Qed.

Lemma pin_send_frame fd ty seq body : pin [] (send_frame fd ty seq body).
Proof.
  intros g [] g' H. injection H as <-. destruct (send_loop_quiet fd (length (make_frame (msg_type_code ty) seq body))
    (make_frame (msg_type_code ty) seq body) (gw_world g)) as [Hr Hq].
  by apply pinned_same.
Qed.

Lemma pin_put_session fd s : pin [] (put_session fd s).
Proof.
  intros g [] g'. unfold put_session, mbind, M_bind, get_conn. destruct (connections_ g !! fd) as [c|] eqn:Hc; [|done].
  intros [= <-]. split; cbn; [intros l; by rewrite fill_nil| |apply rtc_refl|done].
  intros x c' Hx. destruct (decide (x = fd)) as [->|Hne].
  - rewrite lookup_insert_eq in Hx. injection Hx as <-. by exists c.
  - rewrite lookup_insert_ne in Hx by done. by exists c'.
Qed.

Lemma pin_close fd : pin [] (close_connection fd).
Proof.
  intros g [] g' H. injection H as <-. split; cbn.
  - intros l. by rewrite fill_nil.
  - intros x c' Hx. apply lookup_delete_Some in Hx as [_ Hx]. by exists c'.
  - apply rtc_once, step_close.
  - exact (stream_close fd (gw_world g)).
Qed.

Create HintDb pin.
#[local] Hint Resolve pin_ret pin_done pin_get_conn pin_find_conn pin_clock pin_send_frame pin_put_session pin_close : pin.

(** Along the binds of a computation that pushes nothing. *)
Ltac pin_seq := repeat first [solve [auto with pin]|apply pin_then; [solve [auto with pin]|intros ?]].

Lemma pin_send_numbered fd ty body : pin [] (send_numbered fd ty body).
Proof.
  unfold send_numbered. apply pin_then; [|intros q; unfold mark_outbound; pin_seq].
  unfold take_outbound_seq. apply pin_then; [auto with pin|]. intros c. destruct (next_outbound_seq (session c)). pin_seq.
Qed.
#[local] Hint Resolve pin_send_numbered : pin.

Lemma pin_gap fd seq_num : pin [] (report_seq_gap_if_any fd seq_num).
Proof.
  unfold report_seq_gap_if_any, send_resend_request. apply pin_then; [auto with pin|intros t].
  apply pin_then; [auto with pin|intros c]. destruct (track_inbound_seq t seq_num (session c)) as [[[a b]|] s]; pin_seq.
Qed.
#[local] Hint Resolve pin_gap : pin.

Lemma pin_push ev : pin [ev] (input_push ev).
Proof.
  intros g ok g' H.
  unfold input_push in H. destruct (fifo_push ev (sequencer_input_ g)) as [[ok' q]|] eqn:Hp; [|done]. injection H as <- <-.
  split; cbn; [|by eauto|apply rtc_refl|done]. intros l Hl. pose proof (fifo_push_law _ l ev Hl) as Hlaw.
  pose proof (fifo_bound _ _ Hl) as Hb. unfold fill. case_decide as Hd.
  - destruct Hlaw as (q' & Hq & Hrep). rewrite Hp in Hq. injection Hq as -> ->.
    destruct (fifo_room - length l)%nat as [|n] eqn:Hn; [lia|]. cbn. by rewrite take_nil.
  - rewrite Hp in Hlaw. injection Hlaw as -> ->. replace (fifo_room - length l)%nat with 0%nat by lia. by rewrite app_nil_r.
Qed.

Lemma pin_submit fd id ev : pin [ev] (submit fd id ev).
Proof.
  unfold submit, send_execution_report. apply (pin_bind [ev] []); [apply pin_push|]. intros [|]; auto with pin.
Qed.

(** A frame pushes its event, if it asks for one. *)
Lemma pin_dispatch fd frame :
  (sizeof_MsgHeader ≤ length frame)%nat → pin (option_list (frame_event fd frame)) (dispatch fd frame).
Proof.
  intros Hlen. unfold dispatch, frame_event, send_logon_ack, send_execution_report.
  destruct (Nat.ltb_spec (length frame) sizeof_MsgHeader); [lia|]. cbv zeta.
  destruct (msg_type_of (h_type (decode_header frame))) as [[]|]; cbn [option_list]; auto with pin.
  - destruct (_ <? _); [auto with pin|]. apply pin_then; [auto with pin|intros t]. apply pin_then; [auto with pin|intros c].
    destruct (handle_logon _ _ _ _ _) as [[] s]; pin_seq.
  - pin_seq.
  - apply pin_then; [auto with pin|intros _]. destruct (_ <? _); [auto with pin|]. apply pin_submit.
  - apply pin_then; [auto with pin|intros _]. destruct (_ <? _); [auto with pin|]. apply pin_submit.
Qed.

(** *** The loops *)

(** From [g] to [g'] the events [evs] have been pushed, and [new] has been received
    from [fd]. *)
Record moved fd evs (new : bytes) g g' : Prop := {
  mv_queue l : fifo_rep (sequencer_input_ g) l → fifo_rep (sequencer_input_ g') (fill l evs);
  mv_readers x c' : x ≠ fd → connections_ g' !! x = Some c' → ∃ c, connections_ g !! x = Some c ∧ reader c' = reader c;
  mv_world : rtc os_step (gw_world g) (gw_world g');
  mv_arrived x : arrived x (gw_world g') = arrived x (gw_world g) ++ (if decide (x = fd) then new else []);
  mv_backlog : (backlog fd (gw_world g') ≤ backlog fd (gw_world g))%nat
}.

Lemma pinned_moved fd evs g g' : pinned evs g g' → moved fd evs [] g g'.
Proof.
  intros [HQ HR HW HA]. split; [done|by eauto|done| |apply HA]. intros x. rewrite (proj1 (HA x)). by destruct (decide _); rewrite app_nil_r.
Qed.

Lemma moved_trans fd evs evs' new new' g g1 g2 :
  moved fd evs new g g1 → moved fd evs' new' g1 g2 → moved fd (evs ++ evs') (new ++ new') g g2.
Proof.
  intros [Q1 R1 W1 A1 B1] [Q2 R2 W2 A2 B2]. split.
  - intros l Hl. rewrite <-fill_fill. auto.
  - intros x c2 Hx (c1 & H1 & E1)%R2; [|done]. destruct (R1 x c1 Hx H1) as (c & H & E). exists c. split; [done|congruence].
  - by etrans.
  - intros x. rewrite A2, A1, <-app_assoc. by destruct (decide _).
  - by etrans.
Qed.

Lemma moved_put fd c g g' : put_conn fd c g = Ret () g' → moved fd [] [] g g' ∧ connections_ g' !! fd = Some c.
Proof.
  intros [= <-]. split; [|apply lookup_insert_eq]. split; cbn; [intros l; by rewrite fill_nil| |apply rtc_refl| |done].
  - intros x c' Hx. rewrite lookup_insert_ne by done. by eauto.
  - intros x. by destruct (decide _); rewrite app_nil_r.
Qed.

Lemma bind_inv {X Y} (m : M X) (k : X → M Y) g y g' : (m ≫= k) g = Ret y g' → ∃ x g1, m g = Ret x g1 ∧ k x g1 = Ret y g'.
Proof. unfold mbind, M_bind. destruct (m g) as [x g1| |]; [|done..]. by eauto. Qed.

Lemma get_conn_inv fd c g g' : get_conn fd g = Ret c g' → g' = g ∧ connections_ g !! fd = Some c.
Proof. unfold get_conn. destruct (connections_ g !! fd); [|done]. by intros [= -> ->]. Qed.

Lemma dispatch_frames_moved fd : ∀ fuel g g' c,
  connections_ g !! fd = Some c → dispatch_frames fuel fd g = Ret () g' →
  moved fd (omap (frame_event fd) (frames (reader c)).1) [] g g' ∧
  ∃ c', connections_ g' !! fd = Some c' ∧ reader c' = (frames (reader c)).2.
Proof.
  induction fuel as [|fuel IH]; intros g g' c Hc Hr; [done|]. cbn [dispatch_frames] in Hr.
  apply bind_inv in Hr as (c0 & g0 & [-> Hc0]%get_conn_inv & Hr). assert (c0 = c) as -> by congruence.
  rewrite frames_unfold. destruct (next_frame (reader c)) as [[frame|] buf] eqn:Hn.
  - apply bind_inv in Hr as ([] & g1 & [M1 C1]%moved_put & Hr). apply bind_inv in Hr as ([] & g2 & Hd & Hr).
    pose proof (pin_dispatch fd frame (next_frame_length _ _ _ Hn) _ _ _ Hd) as P2.
    assert (∃ c2, connections_ g2 !! fd = Some c2 ∧ reader c2 = buf) as (c2 & C2 & E2).
    { destruct fuel as [|fuel]; [done|]. cbn [dispatch_frames] in Hr. apply bind_inv in Hr as (c2 & g3 & [_ C2]%get_conn_inv & _).
      exists c2. split; [done|]. destruct (pn_readers _ _ _ P2 fd c2 C2) as (c1 & C1' & ->). rewrite C1 in C1'. by injection C1' as <-. }
    destruct (IH g2 g' c2 C2 Hr) as [M3 (c' & C' & E')]. rewrite E2 in M3, E'. destruct (frames buf) as [fs rest]. cbn [fst snd] in *.
    split; [|by exists c']. replace (omap (frame_event fd) (frame :: fs)) with ([] ++ option_list (frame_event fd frame) ++ omap (frame_event fd) fs)
      by (cbn; by destruct (frame_event fd frame)).
    apply (moved_trans fd _ _ [] [] g g1 g'); [done|]. apply (moved_trans fd _ _ [] [] g1 g2 g'); [by apply pinned_moved|done].
  - apply next_frame_none in Hn as ->. apply bind_inv in Hr as ([] & g1 & [M1 C1]%moved_put & Hr). injection Hr as <-.
    split; [done|]. by eexists.
Qed.

(** The readers hold no complete frame. *)
Definition drained g : Prop := map_Forall (λ _ c, frames (reader c) = ([], reader c)) (connections_ g).

Lemma recv_inv fd g g' r :
  world (os_recv fd) g = Ret r g' → moved fd [] (received r) g g' ∧ connections_ g' = connections_ g.
Proof.
  unfold world. pose proof (step_recv fd (gw_world g)) as Hs. pose proof (stream_recv fd (gw_world g)) as Ha.
  pose proof (stream_backlog fd (gw_world g)) as Hb.
  destruct (os_recv fd (gw_world g)) as [r' w]. intros [= <- <-]. split; [|done]. split; cbn in *.
  - intros l. by rewrite fill_nil.
  - by eauto.
  - by apply rtc_once.
  - done.
  - done.
Qed.

Lemma recv_loop_moved fd : ∀ fuel g g' c,
  connections_ g !! fd = Some c → frames (reader c) = ([], reader c) → recv_loop fuel fd g = Ret () g' →
  ∃ new, moved fd (omap (frame_event fd) (frames (reader c ++ new)).1) new g g' ∧
    ∀ c', connections_ g' !! fd = Some c' → reader c' = (frames (reader c ++ new)).2.
Proof.
  induction fuel as [|fuel IH]; intros g g' c Hc Hf Hr; [done|]. cbn [recv_loop] in Hr.
  apply bind_inv in Hr as (r & g1 & [M1 C1]%recv_inv & Hr).
  assert (∀ g2, close_connection fd g1 = Ret () g2 → received r = [] → ∃ new, moved fd (omap (frame_event fd) (frames (reader c ++ new)).1) new g g2 ∧
    ∀ c', connections_ g2 !! fd = Some c' → reader c' = (frames (reader c ++ new)).2) as Hclose.
  { intros g2 H2 Hn. rewrite Hn in M1. exists []. rewrite app_nil_r, Hf. split.
    - apply (moved_trans fd [] [] [] [] g g1 g2); [done|]. by apply pinned_moved, (pin_close fd _ _ _ H2).
    - injection H2 as <-. cbn. intros c'. by rewrite lookup_delete_eq. }
  destruct r as [data| | |]; [|by eapply Hclose| |by eapply Hclose].
  - apply bind_inv in Hr as (c0 & g0 & [-> Hc0]%get_conn_inv & Hr). rewrite C1, Hc in Hc0. injection Hc0 as <-.
    apply bind_inv in Hr as ([] & g2 & [M2 C2]%moved_put & Hr). apply bind_inv in Hr as ([] & g3 & Hd & Hr).
    destruct (dispatch_frames_moved fd _ _ _ _ C2 Hd) as [M3 (c3 & C3 & E3)]. cbn [reader] in M3, E3. unfold feed in M3, E3.
    pose proof (frames_drained (reader c ++ data)) as Hdr. rewrite <-E3 in Hdr.
    destruct (IH g3 g' c3 C3 Hdr Hr) as (new & M4 & E4). exists (data ++ new).
    rewrite app_assoc, frames_app. rewrite E3 in M4, E4. destruct (frames (reader c ++ data)) as [fs1 rest1]. cbn [fst snd] in *.
    destruct (frames (rest1 ++ new)) as [fs2 rest2]. cbn [fst snd] in *. split; [|done]. rewrite omap_app.
    apply (moved_trans fd [] _ data new g g1 g'); [done|]. apply (moved_trans fd [] _ [] new g1 g2 g'); [done|].
    by apply (moved_trans fd _ _ [] new g2 g3 g').
  - injection Hr as <-. exists []. rewrite app_nil_r, Hf. split; [done|]. intros c'. rewrite C1, Hc. by intros [= <-].
Qed.

(** What one ready event makes the gateway push: the events of the frames that are
    complete with the bytes [new] that arrive for it. *)
Definition event_handled (fuel : nat) (e : Z * bool) g evs g' : Prop :=
  handle_event fuel e g = Ret () g' ∧
  match (if (e.1 =? listen_fd_ g) || e.2 then None else connections_ g !! e.1) with
  | None => evs = []
  | Some c => ∃ new, arrived e.1 (gw_world g') = arrived e.1 (gw_world g) ++ new ∧
                evs = omap (frame_event e.1) (frames (reader c ++ new)).1
  end.

Inductive handled (fuel : nat) : list (Z * bool) → G → list SequencedEvent → G → Prop :=
| handled_none g : handled fuel [] g [] g
| handled_next e es g evs g1 evs' g2 :
    event_handled fuel e g evs g1 → handled fuel es g1 evs' g2 → handled fuel (e :: es) g (evs ++ evs') g2.

Lemma handle_event_moved fuel e g g' : drained g → handle_event fuel e g = Ret () g' →
  ∃ evs, event_handled fuel e g evs g' ∧ (∀ l, fifo_rep (sequencer_input_ g) l → fifo_rep (sequencer_input_ g') (fill l evs)) ∧
    drained g'.
Proof.
  intros Hd He. unfold event_handled. rewrite He. unfold handle_event in He. destruct e as [fd eof]. cbn [fst snd] in *.
  destruct (fd =? listen_fd_ g); cbn [orb].
  - unfold accept_new_connection in He. apply bind_inv in He as (cfd & g1 & H1 & He). exists [].
    assert (sequencer_input_ g1 = sequencer_input_ g ∧ connections_ g1 = connections_ g) as [Q1 C1].
    { unfold world in H1. destruct (os_accept (gw_world g)). by injection H1 as <- <-. }
    destruct (cfd <? 0).
    + injection He as <-. split; [done|]. split; [intros l; by rewrite fill_nil, Q1|]. unfold drained. by rewrite C1.
    + apply bind_inv in He as ([] & g2 & H2 & He). injection H2 as <-. injection He as <-. cbn. split; [done|].
      split; [intros l; by rewrite fill_nil, Q1|]. unfold drained. cbn. rewrite C1. by apply map_Forall_insert_2.
  - destruct eof.
    + exists []. destruct (pin_close fd _ _ _ He) as [HQ HR _ _]. split; [done|]. split; [done|].
      intros x c' (c & Hc & ->)%HR. by eapply Hd.
    + unfold handle_readable in He. apply bind_inv in He as (o & g1 & [= <- <-] & He).
      destruct (connections_ g !! fd) as [c|] eqn:Hc; cycle 1.
      { injection He as <-. exists []. split; [done|]. split; [intros l; by rewrite fill_nil|done]. }
      destruct (recv_loop_moved fd fuel g g' c Hc (Hd fd c Hc) He) as (new & [HQ HR HW HA _] & Hc').
      eexists. split; [split; [done|]; exists new; split; [|reflexivity]|].
      { rewrite HA. by rewrite decide_True. }
      split; [exact HQ|]. intros x c' Hx. destruct (decide (x = fd)) as [->|Hne].
      * rewrite (Hc' c' Hx). apply frames_drained.
      * destruct (HR x c' Hne Hx) as (c0 & H0 & ->). by eapply Hd.
Qed.

Lemma handle_events_moved fuel : ∀ es g g', drained g → handle_events fuel es g = Ret () g' →
  ∃ evs, handled fuel es g evs g' ∧ (∀ l, fifo_rep (sequencer_input_ g) l → fifo_rep (sequencer_input_ g') (fill l evs)) ∧
    drained g'.
Proof.
  induction es as [|e es IH]; intros g g' Hd Hr; cbn [handle_events] in Hr.
  { injection Hr as <-. exists []. split; [constructor|]. split; [intros l; by rewrite fill_nil|done]. }
  apply bind_inv in Hr as ([] & g1 & H1 & Hr). destruct (handle_event_moved fuel e g g1 Hd H1) as (evs & E1 & Q1 & D1).
  destruct (IH g1 g' D1 Hr) as (evs' & E2 & Q2 & D2). exists (evs ++ evs'). split; [by econstructor|]. split; [|done].
  intros l Hl. rewrite <-fill_fill. auto.
Qed.

Lemma pin_heartbeats : pin [] check_heartbeats.
Proof.
  intros g x g'. unfold check_heartbeats. generalize ((map_to_list (connections_ g)).*1). intros fds. revert g x g'.
  change (pin [] (check_each fds)). induction fds as [|fd fds IH]; [apply pin_done|]. cbn [check_each]. apply pin_then; [|done].
  unfold check_heartbeat. apply pin_then; [auto with pin|intros [c|]; [|auto with pin]]. case_decide; [|auto with pin].
  apply pin_then; [auto with pin|intros t]. destruct (is_peer_dead t (session c)); [pin_seq|].
  apply pin_then; [auto with pin|intros t']. destruct (should_send_heartbeat t' (session c)); auto with pin.
Qed.

Lemma pin_acks_pop : pin [] acks_pop.
Proof.
  intros g r g'. unfold acks_pop. destruct (fifo_pop (gw_acks_ g)) as [[r' q]|]; [|done]. intros [= <- <-].
  by apply pinned_same.
Qed.

Lemma pin_drain_acks : ∀ fuel, pin [] (drain_acks fuel).
Proof.
  induction fuel as [|fuel IH]; [by intros g x g'|]. cbn [drain_acks]. apply pin_then; [apply pin_acks_pop|].
  intros [a|]; [|auto with pin]. apply pin_then; [auto with pin|]. intros [c|]; [|done]. pin_seq.
Qed.

(** The whole poll. *)
Lemma poll_moved fuel es g g' : drained g → poll_once fuel es g = Ret () g' →
  ∃ evs g1, handled fuel es g evs g1 ∧ drained g' ∧
    ∀ l, fifo_rep (sequencer_input_ g) l → fifo_rep (sequencer_input_ g') (fill l evs).
Proof.
  intros Hd Hr. unfold poll_once in Hr. apply bind_inv in Hr as ([] & g1 & H1 & Hr). apply bind_inv in Hr as ([] & g2 & H2 & H3).
  destruct (handle_events_moved fuel es g g1 Hd H1) as (evs & E1 & Q1 & D1).
  pose proof (pinned_trans [] [] _ _ _ (pin_heartbeats _ _ _ H2) (pin_drain_acks _ _ _ _ H3)) as [HQ HR _ _].
  exists evs, g1. split_and!; [done| |].
  - intros x c' (c & Hc & ->)%HR. by eapply D1.
  - intros l Hl%Q1%HQ. by rewrite fill_nil in Hl.
Qed.

(** ** That it returns *)

(** A frame that makes the gateway erase the connection it is reading from: a
    logout, or a logon in a session that does not await one. *)
Definition is_logon (frame : bytes) : bool :=
  match msg_type_of (h_type (decode_header frame)) with
  | Some MtLogon => Z.of_nat sizeof_LogonMsg <=? h_body_length (decode_header frame)
  | _ => false
  end.
Definition is_logout (frame : bytes) : bool :=
  match msg_type_of (h_type (decode_header frame)) with Some MtLogout => true | _ => false end.

Definition closing (st : SessionStatus) (frame : bytes) : bool :=
  is_logout frame || is_logon frame && negb (bool_decide (st = AwaitingLogon)).
Definition status_after (st : SessionStatus) (frame : bytes) : SessionStatus := if is_logon frame then LoggedOn else st.

(** A client's frames, none of which is [closing] when it comes. *)
Fixpoint serves (st : SessionStatus) (fs : list bytes) : bool :=
  match fs with [] => true | f :: fs => negb (closing st f) && serves (status_after st f) fs end.

Lemma serves_app st fs fs' : serves st (fs ++ fs') = serves st fs && serves (foldl status_after st fs) fs'.
Proof. revert st. induction fs as [|f fs IH]; intros st; cbn; [done|]. by rewrite IH, andb_assoc. Qed.

(** From [g] to [g'] only the connection of [fd] has changed, and the queue may
    have more in it. *)
Record served fd (c' : ConnectionState) g g' : Prop := {
  sv_conns : connections_ g' = <[fd := c']> (connections_ g);
  sv_input : (∃ l, fifo_rep (sequencer_input_ g) l) → ∃ l, fifo_rep (sequencer_input_ g') l;
  sv_acks : gw_acks_ g' = gw_acks_ g;
  sv_listen : listen_fd_ g' = listen_fd_ g
}.

Lemma served_trans fd c c' g g1 g2 : served fd c g g1 → served fd c' g1 g2 → served fd c' g g2.
Proof. intros [C1 I1 A1 L1] [C2 I2 A2 L2]. split; [by rewrite C2, C1, insert_insert_eq|by auto|congruence|congruence]. Qed.

Lemma served_rest fd c' g g' : connections_ g' = <[fd := c']> (connections_ g) → rest_of g' = rest_of g → served fd c' g g'.
Proof. intros HC [= HI HA HL]. split; [done|by rewrite HI|done|done]. Qed.

Lemma served_lookup fd c' g g' : served fd c' g g' → connections_ g' !! fd = Some c'.
Proof. intros [-> _ _ _]. apply lookup_insert_eq. Qed.

Lemma gap_serves fd seq_num g c : connections_ g !! fd = Some c →
  ∃ g' s, report_seq_gap_if_any fd seq_num g = Ret () g' ∧ served fd (mkConn (reader c) s) g g' ∧ status_ s = status_ (session c).
Proof.
  intros Hc. unfold report_seq_gap_if_any. destruct (clock_now_w g) as (g1 & H1 & C1 & _ & R1 & _). rewrite (bind_ret _ _ _ _ _ H1).
  assert (connections_ g1 !! fd = Some c) as Hc1 by congruence. erewrite bind_ret by (unfold get_conn; by rewrite Hc1).
  set (t := (os_now (gw_world g)).1). destruct (track_inbound_seq t seq_num (session c)) as [gap s] eqn:Ht.
  assert (status_ s = status_ (session c)) as Hs.
  { replace s with (track_inbound_seq t seq_num (session c)).2 by (by rewrite Ht).
    unfold track_inbound_seq. cbv zeta. destruct (_ =? _); [done|]. by destruct (_ <? _). }
  destruct (put_session_w fd s g1 c Hc1) as (g2 & H2 & C2 & _ & R2 & _). rewrite (bind_ret _ _ _ _ _ H2).
  assert (served fd (mkConn (reader c) s) g g2) as S2 by (apply served_rest; congruence).
  destruct gap as [[a b]|]; [|exists g2, s; split; [reflexivity|by split]].
  destruct (send_numbered_w fd MtResendRequest (le_encode 4 a ++ le_encode 4 b) g2 _ (served_lookup _ _ _ _ S2))
    as (g3 & w & H3 & C3 & _ & R3 & _). exists g3, (beat (os_now w).1 s). split; [exact H3|]. split; [|exact Hs].
  eapply served_trans; [exact S2|]. by apply served_rest.
Qed.

Lemma submit_serves fd id ev g c : connections_ g !! fd = Some c → (∃ l, fifo_rep (sequencer_input_ g) l) →
  ∃ g' s, submit fd id ev g = Ret () g' ∧ served fd (mkConn (reader c) s) g g' ∧ status_ s = status_ (session c).
Proof.
  intros Hc [l Hl]. pose proof (fifo_push_law _ l ev Hl) as Hlaw. unfold submit.
  assert (∃ ok q l', fifo_push ev (sequencer_input_ g) = Some (ok, q) ∧ fifo_rep q l') as (ok & q & l' & Hp & Hrep).
  { case_decide; [destruct Hlaw as (q & ? & ?); by eauto|by eauto]. }
  erewrite bind_ret by (unfold input_push; by rewrite Hp). set (g1 := mkGw _ _ _ _ _ _ : G).
  assert (served fd c g g1) as S1.
  { split; cbn; [by rewrite insert_id|by eauto|done|done]. }
  destruct ok; [exists g1, (session c); split_and!; [done|by destruct c|done]|].
  destruct (send_numbered_w fd MtExecutionReport (encode_report (mkReport id 0 (exec_status_code Rejected) 0 0 0)) g1 c Hc)
    as (g2 & w & H2 & C2 & _ & R2 & _). exists g2, (beat (os_now w).1 (session c)). split; [exact H2|]. split; [|done].
  eapply served_trans; [exact S1|]. by apply served_rest.
Qed.

Lemma dispatch_serves fd frame g c : connections_ g !! fd = Some c → (∃ l, fifo_rep (sequencer_input_ g) l) →
  (sizeof_MsgHeader ≤ length frame)%nat → closing (status_ (session c)) frame = false →
  ∃ g' s, dispatch fd frame g = Ret () g' ∧ served fd (mkConn (reader c) s) g g' ∧
    status_ s = status_after (status_ (session c)) frame.
Proof.
  intros Hc Hq Hlen Hcl. unfold dispatch. destruct (Nat.ltb_spec (length frame) sizeof_MsgHeader); [lia|]. cbv zeta.
  assert (∃ g' s, done g = Ret () g' ∧ served fd (mkConn (reader c) s) g g' ∧ status_ s = status_ (session c)) as Hskip.
  { exists g, (session c). split_and!; [done| |done]. split; [|done..]. rewrite insert_id; [done|by destruct c]. }
  destruct (gap_serves fd (h_seq_num (decode_header frame)) g c Hc) as (g1 & s1 & H1 & S1 & E1).
  assert (∀ id ev, ∃ g' s, submit fd id ev g1 = Ret () g' ∧ served fd (mkConn (reader c) s) g g' ∧ status_ s = status_ (session c)) as Hsub.
  { intros id ev. destruct (submit_serves fd id ev g1 _ (served_lookup _ _ _ _ S1) (sv_input _ _ _ _ S1 Hq)) as (g2 & s2 & H2 & S2 & E2).
    exists g2, s2. split_and!; [done|by eapply served_trans|by rewrite E2]. }
  unfold closing, status_after, is_logon, is_logout in *.
  destruct (msg_type_of (h_type (decode_header frame))) as [[]|]; try done; cbn [orb andb] in *.
  - destruct (Z.leb_spec (Z.of_nat sizeof_LogonMsg) (h_body_length (decode_header frame))) as [Hb|Hb]; cbn [andb] in *;
      [rewrite (proj2 (Z.ltb_ge _ _) Hb)|by rewrite (proj2 (Z.ltb_lt _ _) Hb)].
    apply negb_false_iff, bool_decide_eq_true in Hcl.
    destruct (clock_now_w g) as (g2 & H2 & C2 & _ & R2 & _). rewrite (bind_ret _ _ _ _ _ H2).
    assert (connections_ g2 !! fd = Some c) as Hc2 by congruence. erewrite bind_ret by (unfold get_conn; by rewrite Hc2).
    unfold handle_logon. rewrite decide_True by done. set (s := mkSession _ _ _ _ _ _ _).
    destruct (put_session_w fd s g2 c Hc2) as (g3 & H3 & C3 & _ & R3 & _). rewrite (bind_ret _ _ _ _ _ H3).
    assert (served fd (mkConn (reader c) s) g g3) as S3 by (apply served_rest; congruence).
    destruct (send_numbered_w fd MtLogon (encode_logon (mkLogon 0 0 0)) g3 _ (served_lookup _ _ _ _ S3)) as (g4 & w & H4 & C4 & _ & R4 & _).
    exists g4, (beat (os_now w).1 s). split; [exact H4|]. split; [|done]. eapply served_trans; [exact S3|]. by apply served_rest.
  - exists g1, s1. split; [exact H1|by split].
  - exists g1, s1. split; [exact H1|by split].
  - rewrite (bind_ret _ _ _ _ _ H1). destruct (_ <? _); [exists g1, s1; split; [reflexivity|by split]|]. apply Hsub.
  - rewrite (bind_ret _ _ _ _ _ H1). destruct (_ <? _); [exists g1, s1; split; [reflexivity|by split]|]. apply Hsub.
Qed.

Lemma dispatch_frames_serves fd : ∀ fuel g c,
  connections_ g !! fd = Some c → (∃ l, fifo_rep (sequencer_input_ g) l) → (length (reader c) < fuel)%nat →
  serves (status_ (session c)) (frames (reader c)).1 = true →
  ∃ g' s, dispatch_frames fuel fd g = Ret () g' ∧ served fd (mkConn (frames (reader c)).2 s) g g' ∧
    status_ s = foldl status_after (status_ (session c)) (frames (reader c)).1.
Proof.
  induction fuel as [|fuel IH]; intros g c Hc Hq Hf; [lia|]. rewrite frames_unfold. cbn [dispatch_frames].
  erewrite bind_ret by (unfold get_conn; by rewrite Hc). destruct (next_frame (reader c)) as [[frame|] buf] eqn:Hn.
  - pose proof (next_frame_length _ _ _ Hn) as Hlen. apply next_frame_shrinks in Hn as [_ Hlt].
    erewrite bind_ret by (unfold put_conn, update_conns; done). set (g1 := mkGw _ _ _ _ _ _ : G).
    assert (served fd (mkConn buf (session c)) g g1) as S1 by (by split).
    destruct (frames buf) as [fs rest] eqn:Hfr. cbn [fst snd serves foldl]. intros [Hcl%negb_true_iff Hserves]%andb_true_iff.
    destruct (dispatch_serves fd frame g1 _ (served_lookup _ _ _ _ S1) Hq Hlen Hcl) as (g2 & s2 & H2 & S2 & E2).
    cbn [reader session] in S2, E2. rewrite (bind_ret _ _ _ _ _ H2).
    destruct (IH g2 (mkConn buf s2) (served_lookup _ _ _ _ S2) (sv_input _ _ _ _ S2 Hq)) as (g3 & s3 & H3 & S3 & E3); cbn [reader session].
    + lia.
    + by rewrite Hfr, E2.
    + cbn [reader session] in S3, E3. rewrite Hfr in S3, E3. cbn [fst snd] in S3, E3. exists g3, s3. split_and!; [done| |by rewrite E3, E2].
      eapply served_trans; [exact S1|]. by eapply served_trans.
  - intros _. erewrite bind_ret by (unfold put_conn, update_conns; done). eexists _, (session c).
    split; [reflexivity|]. split; [|done]. apply next_frame_none in Hn as ->. by split.
Qed.

(** A connection has dealt with all that has arrived. *)
Definition in_step fd (c : ConnectionState) (w : W) : Prop :=
  reader c = (frames (arrived fd w)).2 ∧
  status_ (session c) = foldl status_after AwaitingLogon (frames (arrived fd w)).1.

(** From [w] on, no client sends a [closing] frame. *)
Definition polite (w : W) : Prop := ∀ w' fd, rtc os_step w w' → serves AwaitingLogon (frames (arrived fd w')).1 = true.

Lemma polite_later w w' : rtc os_step w w' → polite w → polite w'.
Proof. intros Hr Hp w2 fd Hr2. apply Hp. by etrans. Qed.

(** What a handler leaves that has closed or served [fd]. *)
Record left_by fd g g' : Prop := {
  lb_others x : x ≠ fd → connections_ g' !! x = connections_ g !! x;
  lb_input : (∃ l, fifo_rep (sequencer_input_ g) l) → ∃ l, fifo_rep (sequencer_input_ g') l;
  lb_acks : gw_acks_ g' = gw_acks_ g;
  lb_listen : listen_fd_ g' = listen_fd_ g
}.

Lemma left_by_refl fd g g' :
  connections_ g' = connections_ g → sequencer_input_ g' = sequencer_input_ g → gw_acks_ g' = gw_acks_ g →
  listen_fd_ g' = listen_fd_ g → left_by fd g g'.
Proof. intros HC HI HA HL. split; [by rewrite HC|by rewrite HI|done|done]. Qed.

Lemma left_by_trans fd g g1 g2 : left_by fd g g1 → left_by fd g1 g2 → left_by fd g g2.
Proof. intros [C1 I1 A1 L1] [C2 I2 A2 L2]. split; [intros x Hx; by rewrite C2, C1|by auto|congruence|congruence]. Qed.

Lemma served_left fd c g g' : served fd c g g' → left_by fd g g'.
Proof. intros [C I A' L]. split; [intros x Hx; by rewrite C, lookup_insert_ne|done..]. Qed.

Lemma close_left fd g : ∃ g', close_connection fd g = Ret () g' ∧ left_by fd g g' ∧ connections_ g' !! fd = None.
Proof.
  destruct (close_connection_w fd g) as (g' & H & C & _ & R & _). exists g'. injection R as RI RA RL.
  split_and!; [done| |by rewrite C, lookup_delete_eq]. split; [intros x Hx; by rewrite C, lookup_delete_ne|by rewrite RI|done|done].
Qed.

Lemma recv_loop_serves fd : ∀ fuel g c,
  connections_ g !! fd = Some c → (∃ l, fifo_rep (sequencer_input_ g) l) → in_step fd c (gw_world g) →
  polite (gw_world g) → (backlog fd (gw_world g) < fuel)%nat →
  ∃ g', recv_loop fuel fd g = Ret () g' ∧ left_by fd g g' ∧
    ∀ c', connections_ g' !! fd = Some c' → in_step fd c' (gw_world g').
Proof.
  induction fuel as [|fuel IH]; intros g c Hc Hq [Hrd Hst] Hp Hf; [lia|]. cbn [recv_loop].
  assert (∃ g1, world (os_recv fd) g = Ret (os_recv fd (gw_world g)).1 g1 ∧ gw_world g1 = (os_recv fd (gw_world g)).2 ∧
    connections_ g1 = connections_ g ∧ left_by fd g g1) as (g1 & H1 & W1 & C1 & L1).
  { unfold world. destruct (os_recv fd (gw_world g)) as [r w]. eexists. split; [reflexivity|]. by split_and!; [..|apply left_by_refl]. }
  rewrite (bind_ret _ _ _ _ _ H1).
  assert (∀ x, arrived x (gw_world g1) = arrived x (gw_world g) ++ if decide (x = fd) then received (os_recv fd (gw_world g)).1 else []) as A1.
  { intros x. rewrite W1. apply stream_recv. }
  specialize (A1 fd). rewrite decide_True in A1 by done.
  pose proof (stream_drains fd (gw_world g)) as Hdr. pose proof (step_recv fd (gw_world g)) as Hs. rewrite <-W1 in Hdr, Hs.
  assert (∃ g2, close_connection fd g1 = Ret () g2 ∧ left_by fd g g2 ∧
    ∀ c', connections_ g2 !! fd = Some c' → in_step fd c' (gw_world g2)) as Hclose.
  { destruct (close_left fd g1) as (g2 & H2 & L2 & N2). exists g2. split_and!; [done|by eapply left_by_trans|]. by rewrite N2. }
  destruct (os_recv fd (gw_world g)).1 as [data| | |]; [|done| |done].
  - assert (connections_ g1 !! fd = Some c) as Hc1 by congruence. erewrite bind_ret by (unfold get_conn; by rewrite Hc1).
    erewrite bind_ret by (unfold put_conn, update_conns; done). set (g2 := mkGw _ _ _ _ _ _ : G).
    set (c2 := mkConn (feed data (reader c)) (session c)). assert (connections_ g2 !! fd = Some c2) as Hc2 by apply lookup_insert_eq.
    assert (left_by fd g1 g2) as L2.
    { split; cbn; [intros x Hx; by rewrite lookup_insert_ne|done..]. }
    assert (polite (gw_world g1)) as Hp1 by (eapply polite_later; [by apply rtc_once|done]).
    pose proof (Hp1 _ fd (rtc_refl _ _)) as Hserves. cbn [received] in A1. rewrite A1, frames_app in Hserves.
    assert (frames (arrived fd (gw_world g1)) = let '(fs, rest) := frames (arrived fd (gw_world g)) in
      let '(fs', rest') := frames (rest ++ data) in (fs ++ fs', rest')) as Hfr by (by rewrite A1, frames_app).
    destruct (frames (arrived fd (gw_world g))) as [fs rest]. cbn [fst snd] in *. subst rest.
    destruct (dispatch_frames_serves fd (S (length (feed data (reader c)))) g2 c2 Hc2) as (g3 & s3 & H3 & S3 & E3); [by apply L2, L1|cbn; lia| |].
    { cbn [c2 reader session]. unfold feed. rewrite Hst. destruct (frames (reader c ++ data)) as [fs' rest']. cbn [fst] in *.
      rewrite serves_app in Hserves. by apply andb_true_iff in Hserves as [_ ?]. }
    cbn [c2 reader session] in S3, E3. unfold feed in S3, E3. rewrite (bind_ret _ _ _ _ _ H3).
    destruct (dispatch_frames_moved fd _ _ _ _ Hc2 H3) as [[_ _ W3 A3 B3] _].
    specialize (A3 fd). rewrite decide_True, app_nil_r in A3 by done. change (gw_world g2) with (gw_world g1) in A3, B3, W3.
    destruct (IH g3 (mkConn (frames (reader c ++ data)).2 s3)) as (g4 & H4 & L4 & C4).
    + by eapply served_lookup.
    + by apply (sv_input _ _ _ _ S3), L2, L1.
    + split; cbn [reader session]; rewrite A3, Hfr; destruct (frames (reader c ++ data)) as [fs' rest']; cbn [fst snd] in *; [done|].
      by rewrite E3, foldl_app, Hst.
    + by eapply polite_later.
    + specialize (Hdr data eq_refl). lia.
    + exists g4. split_and!; [done| |done]. eapply left_by_trans; [exact L1|]. eapply left_by_trans; [exact L2|].
      eapply left_by_trans; [by eapply served_left|done].
  - exists g1. split_and!; [reflexivity|done|]. intros c'. rewrite C1, Hc. intros [= <-]. split; rewrite A1; cbn [received]; by rewrite app_nil_r.
Qed.

(** All connections have. *)
Definition settled g : Prop :=
  map_Forall (λ fd c, in_step fd c (gw_world g)) (connections_ g) ∧ ∃ l, fifo_rep (sequencer_input_ g) l.

Lemma in_step_same fd c w w' : arrived fd w' = arrived fd w → in_step fd c w → in_step fd c w'.
Proof. unfold in_step. by intros ->. Qed.

Lemma accept_serves g : settled g → ∃ g', accept_new_connection g = Ret () g' ∧ settled g' ∧
  rtc os_step (gw_world g) (gw_world g') ∧ gw_acks_ g' = gw_acks_ g.
Proof.
  intros [Hin Hq]. unfold accept_new_connection. pose proof (stream_accept (gw_world g)) as Ha.
  pose proof (stream_accepted (gw_world g)) as Hn. pose proof (step_accept (gw_world g)) as Hs.
  destruct (os_accept (gw_world g)) as [fd w] eqn:Hw. cbn [fst snd] in *. erewrite bind_ret by (unfold world; by rewrite Hw).
  set (g1 := mkGw _ _ _ _ _ _ : G). destruct (Z.ltb_spec fd 0).
  - exists g1. split_and!; [reflexivity| |by apply rtc_once|done]. split; [|done].
    intros x c Hc. cbn in Hc |- *. eapply in_step_same; [|by apply Hin]. apply Ha. by right.
  - erewrite bind_ret by (unfold world; done). eexists. split; [reflexivity|]. cbn.
    split_and!; [|eapply rtc_l; [exact Hs|]; apply rtc_once, step_register|done]. split; [|done]. cbn.
    intros x c Hc. destruct (decide (x = fd)) as [->|Hne].
    + rewrite lookup_insert_eq in Hc. injection Hc as <-. unfold in_step. rewrite stream_register, Hn by done. by split.
    + rewrite lookup_insert_ne in Hc by done. eapply in_step_same; [|by apply Hin]. rewrite stream_register. apply Ha. by left.
Qed.

(** Enough fuel: more than any client has data for. *)
Definition enough (fuel : nat) (w : W) : Prop := ∀ w' fd, rtc os_step w w' → (backlog fd w' < fuel)%nat.

Lemma handle_event_serves fuel e g : settled g → polite (gw_world g) → enough fuel (gw_world g) →
  ∃ g', handle_event fuel e g = Ret () g' ∧ settled g' ∧ rtc os_step (gw_world g) (gw_world g') ∧ gw_acks_ g' = gw_acks_ g.
Proof.
  intros [Hin Hq] Hp Hf. destruct e as [fd eof]. unfold handle_event. cbn [fst snd].
  destruct (fd =? listen_fd_ g); [by apply accept_serves|]. destruct eof.
  - destruct (close_left fd g) as (g' & H & [C I A' L] & N). exists g'. destruct (pin_close fd _ _ _ H) as [_ _ HW HA].
    split_and!; [done| |done|done]. split; [|by auto]. intros x c Hc. destruct (decide (x = fd)) as [->|Hne]; [congruence|].
    rewrite C in Hc by done. eapply in_step_same; [apply HA|by apply Hin].
  - unfold handle_readable. erewrite bind_ret by (unfold find_conn; done). destruct (connections_ g !! fd) as [c|] eqn:Hc.
    + destruct (recv_loop_serves fd fuel g c Hc Hq (Hin fd c Hc) Hp (Hf _ fd (rtc_refl _ _))) as (g' & H & [C I A' L] & Hfd).
      assert (frames (reader c) = ([], reader c)) as Hdr by (rewrite (proj1 (Hin fd c Hc)); apply frames_drained).
      destruct (recv_loop_moved fd fuel g g' c Hc Hdr H) as (new & [_ _ HW HA _] & _).
      exists g'. split_and!; [done| |done|done]. split; [|by auto]. intros x c' Hx.
      destruct (decide (x = fd)) as [->|Hne]; [by apply Hfd|]. rewrite C in Hx by done.
      eapply in_step_same; [|by apply Hin]. rewrite HA, decide_False, app_nil_r by done. done.
    + exists g. split_and!; [reflexivity|done|apply rtc_refl|done].
Qed.

Lemma handle_events_serves fuel : ∀ es g, settled g → polite (gw_world g) → enough fuel (gw_world g) →
  ∃ g', handle_events fuel es g = Ret () g' ∧ settled g' ∧ gw_acks_ g' = gw_acks_ g.
Proof.
  induction es as [|e es IH]; intros g Hs Hp Hf; cbn [handle_events]; [by exists g|].
  destruct (handle_event_serves fuel e g Hs Hp Hf) as (g1 & H1 & S1 & W1 & A1). rewrite (bind_ret _ _ _ _ _ H1).
  destruct (IH g1 S1) as (g' & H' & S' & A'); [by eapply polite_later|intros w' fd Hr; apply Hf; by etrans|].
  exists g'. split_and!; [done|done|congruence].
Qed.

(** The connections of [g'] are connections of [g], with the same reader and
    status. *)
Definition calm g g' : Prop := ∀ x c', connections_ g' !! x = Some c' →
  ∃ c, connections_ g !! x = Some c ∧ reader c' = reader c ∧ status_ (session c') = status_ (session c).

Lemma calm_refl g g' : connections_ g' = connections_ g → calm g g'.
Proof. intros HC x c'. rewrite HC. by eauto. Qed.

Lemma calm_trans g g1 g2 : calm g g1 → calm g1 g2 → calm g g2.
Proof.
  intros H1 H2 x c2 (c1 & C1 & R1 & S1)%H2. destruct (H1 x c1 C1) as (c & C & R & S'). exists c. split_and!; [done|congruence|congruence].
Qed.

Lemma calm_insert fd c s g g' : connections_ g !! fd = Some c → status_ s = status_ (session c) →
  connections_ g' = <[fd := mkConn (reader c) s]> (connections_ g) → calm g g'.
Proof.
  intros Hc Hs HC x c'. rewrite HC. intros [[<- <-]|[_ Hx]]%lookup_insert_Some; [by exists c|by exists c'].
Qed.

Lemma check_each_ret : ∀ fds g, ∃ g', check_each fds g = Ret () g' ∧ gw_acks_ g' = gw_acks_ g ∧ calm g g'.
Proof.
  induction fds as [|fd fds IH]; intros g; cbn [check_each]; [exists g; split_and!; [done|done|by apply calm_refl]|].
  assert (∃ g1, check_heartbeat fd g = Ret () g1 ∧ gw_acks_ g1 = gw_acks_ g ∧ calm g g1) as (g1 & H1 & A1 & K1).
  2: { rewrite (bind_ret _ _ _ _ _ H1). destruct (IH g1) as (g' & H' & A' & K'). exists g'. split_and!; [done|congruence|by eapply calm_trans]. }
  assert (∃ g1, done g = Ret () g1 ∧ gw_acks_ g1 = gw_acks_ g ∧ calm g g1) as Hskip by (exists g; split_and!; [done|done|by apply calm_refl]).
  unfold check_heartbeat. erewrite bind_ret by (unfold find_conn; done). destruct (connections_ g !! fd) as [c|] eqn:Hc; [|done].
  case_decide; [|done]. destruct (clock_now_w g) as (g1 & H1 & C1 & _ & R1 & _). rewrite (bind_ret _ _ _ _ _ H1).
  assert (connections_ g1 !! fd = Some c) as Hc1 by congruence. injection R1 as _ A1 _.
  destruct (is_peer_dead _ _).
  - destruct (put_session_w fd (disconnect (session c)) g1 c Hc1) as (g2 & H2 & C2 & _ & R2 & _). rewrite (bind_ret _ _ _ _ _ H2).
    destruct (close_connection_w fd g2) as (g3 & H3 & C3 & _ & R3 & _). injection R2 as _ A2 _. injection R3 as _ A3 _.
    exists g3. split_and!; [done|congruence|]. intros x c'. rewrite C3, C2, C1, delete_insert_eq.
    intros [_ Hx]%lookup_delete_Some. by exists c'.
  - destruct (clock_now_w g1) as (g2 & H2 & C2 & _ & R2 & _). rewrite (bind_ret _ _ _ _ _ H2). injection R2 as _ A2 _.
    destruct (should_send_heartbeat _ _); [|exists g2; split_and!; [reflexivity|congruence|apply calm_refl; congruence]].
    destruct (send_numbered_w fd MtHeartbeat [] g2 c) as (g3 & w & H3 & C3 & _ & R3 & _); [congruence|].
    injection R3 as _ A3 _. exists g3. split_and!; [done|congruence|].
    eapply calm_trans; [by apply calm_refl|]. eapply calm_trans; [by apply calm_refl|]. eapply (calm_insert fd c (beat (os_now w).1 (session c))); [congruence|done|exact C3].
Qed.

(** When [drain_acks] returns, the queue is empty. *)
Lemma drain_acks_empties : ∀ fuel g g' acks, fifo_rep (gw_acks_ g) acks → drain_acks fuel g = Ret () g' →
  fifo_rep (gw_acks_ g') [] ∧ calm g g'.
Proof.
  induction fuel as [|fuel IH]; intros g g' acks Ha Hr; [done|]. cbn [drain_acks] in Hr. apply bind_inv in Hr as (r & g1 & H1 & Hr).
  unfold acks_pop in H1. pose proof (fifo_pop_law _ _ Ha) as Hlaw. destruct acks as [|a acks].
  - rewrite Hlaw in H1. injection H1 as <- <-. injection Hr as <-. split; [done|by apply calm_refl].
  - destruct Hlaw as (q & Hq & Hrep). rewrite Hq in H1. injection H1 as <- <-. apply bind_inv in Hr as (o & g2 & [= <- <-] & Hr).
    set (g1 := mkGw _ _ _ _ _ _ : G) in Hr. assert (calm g g1) as K1 by (by apply calm_refl).
    cbn [connections_] in Hr. destruct (connections_ g1 !! ack_fd a) as [c|] eqn:Hc.
    2: { change (connections_ g1 !! ack_fd a) with (connections_ g !! ack_fd a) in Hc. rewrite Hc in Hr.
         destruct (IH g1 g' acks Hrep Hr) as [Hf K']. split; [exact Hf|exact (calm_trans _ _ _ K1 K')]. }
    change (connections_ g1 !! ack_fd a) with (connections_ g !! ack_fd a) in Hc. rewrite Hc in Hr.
    apply bind_inv in Hr as ([] & g3 & H3 & Hr).
    destruct (send_numbered_w (ack_fd a) MtExecutionReport (encode_report (report_of a)) g1 c Hc) as (g3' & w & H3' & C3 & _ & R3 & _).
    rewrite H3 in H3'. injection H3' as <-. injection R3 as _ A3 _.
    destruct (IH g3 g' acks) as [Hf K']; [by rewrite A3|exact Hr|]. split; [done|].
    eapply calm_trans; [exact K1|]. eapply calm_trans; [|exact K']. by eapply (calm_insert (ack_fd a) c (beat (os_now w).1 (session c))).
Qed.

(** The whole poll returns, and leaves the connections as it found them: up to date
    with what has arrived. *)
Lemma poll_serves fuel es g acks : settled g → polite (gw_world g) → enough fuel (gw_world g) →
  fifo_rep (gw_acks_ g) acks → (length acks < fuel)%nat → ∃ g', poll_once fuel es g = Ret () g' ∧ settled g'.
Proof.
  intros Hs Hp Hf Ha Hl. unfold poll_once. destruct (handle_events_serves fuel es g Hs Hp Hf) as (g1 & H1 & [Hin Hq] & A1).
  rewrite (bind_ret _ _ _ _ _ H1). destruct (check_each_ret (map_to_list (connections_ g1)).*1 g1) as (g2 & H2 & A2 & K2).
  change (check_heartbeats g1 = Ret () g2) in H2. rewrite (bind_ret _ _ _ _ _ H2).
  assert (fifo_rep (gw_acks_ g2) acks) as Ha2 by (by rewrite A2, A1).
  destruct (drain_acks_ret acks fuel g2) as (g3 & new & H3 & _); [done|done|]. exists g3. split; [done|].
  destruct (drain_acks_empties fuel g2 g3 acks Ha2 H3) as [_ K3].
  pose proof (pinned_trans [] [] _ _ _ (pin_heartbeats _ _ _ H2) (pin_drain_acks _ _ _ _ H3)) as [HQ _ _ HA].
  split.
  - intros x c3 Hc3. destruct (calm_trans _ _ _ K2 K3 x c3 Hc3) as (c & Hc & Hrd & Hst). unfold in_step.
    rewrite (proj1 (HA x)), Hrd, Hst. by apply Hin.
  - destruct Hq as [l Hq]. eexists. by apply HQ.
Qed.

Lemma settled_drained g : settled g → drained g.
Proof. intros [Hin _] x c Hc. rewrite (proj1 (Hin x c Hc)). apply frames_drained. Qed.

(** The acks, when the poll has returned. *)
Lemma poll_empties fuel es g g' : poll_once fuel es g = Ret () g' →
  (∀ g1, handle_events fuel es g = Ret () g1 → ∃ acks, fifo_rep (gw_acks_ g1) acks) → fifo_rep (gw_acks_ g') [].
Proof.
  intros Hr He. unfold poll_once in Hr. apply bind_inv in Hr as ([] & g1 & H1 & Hr). apply bind_inv in Hr as ([] & g2 & H2 & H3).
  destruct (He g1 H1) as [acks Ha]. destruct (check_each_ret (map_to_list (connections_ g1)).*1 g1) as (g2' & H2' & A2 & _).
  change (check_heartbeats g1 = Ret () g2') in H2'. rewrite H2 in H2'. injection H2' as <-.
  eapply drain_acks_empties; [|exact H3]. by rewrite A2.
Qed.

End GatewayPoll.
