(* ===== verification/Wal.v ===== *)
(** * Wal: the write-ahead log

    Models [include/wal_consumer.hpp].  The file is the sequence of records
    written to it, split into those covered by the last [fsync] and those after
    it, which a power failure may lose; a record is the raw memory of a
    [SequencedEvent], padding included.  The filesystem calls succeed, except
    [fopen], whose result is an argument; [WalCrash] and [WalFaults] have the calls
    one by one, with crashes and failures. *)

From S2P Require Import Prelude Types BroadcastRing Consumer Protocol.

#[local] Open Scope Z_scope.

(** ** One record

    The layout of [SequencedEvent] on a 64-bit target: the fields in order, two
    bytes of padding after [producer], three after [side] and four at the end. *)

Definition sizeof_SequencedEvent : nat := 56.

Record Padding := mkPadding { pad1 : bytes; pad2 : bytes; pad3 : bytes }.
Definition padding_ok (p : Padding) : Prop :=
  length (pad1 p) = 2%nat ∧ length (pad2 p) = 3%nat ∧ length (pad3 p) = 4%nat.

Definition event_bytes (p : Padding) (ev : SequencedEvent) : bytes :=
  le_encode 8 (ev_seq_num ev) ++ le_encode 8 (ev_ingress_ts ev) ++ le_encode 8 (ev_sequence_ts ev) ++
  le_encode 1 (event_type_code (ev_type ev)) ++ le_encode 1 (producer_code (ev_producer ev)) ++
  pad1 p ++ le_encode 4 (ev_session ev) ++ le_encode 8 (ev_client_order_id ev) ++
  le_encode 1 (ev_side_byte ev) ++ pad2 p ++
  le_encode 4 (ev_price ev) ++ le_encode 4 (ev_quantity ev) ++ pad3 p.

Definition event_type_of (c : Z) : EventType :=
  if c =? 1 then EvNewOrder else if c =? 2 then EvCancelOrder
  else if c =? 3 then EvMarketDataOrder else EvAdmin.
Definition producer_of_code (c : Z) : ProducerId :=
  if c =? 0 then Gateway else if c =? 1 then FeedReplay else Admin.

(** What a reader of the log recovers from a record. *)
Definition event_of_bytes (bs : bytes) : SequencedEvent :=
  mkEvent (field 0 8 bs) (field 8 8 bs) (field 16 8 bs) (event_type_of (field 24 1 bs))
    (producer_of_code (field 25 1 bs)) (field 28 4 bs) (field 32 8 bs)
    (field 40 1 bs) (field 44 4 bs) (field 48 4 bs).

(** ** The consumer *)

Record Wal := mkWal {
  wal_open : bool;
  wal_durable : list SequencedEvent;
  wal_unsynced : list SequencedEvent;
  unsynced_count_ : Z;
  last_sync_ : Z;
  records_written_ : Z;
  wal_ticks : nat
}.

Section Wal.
(** [fsync_every_n_], [fsync_interval_] in nanoseconds, and the readings of
    [steady_clock::now()] in the order in which they are taken. *)
Context (fsync_every_n_ fsync_interval_ : Z) (clock : nat → Z).

(** A consumer on a file that already holds [old]. *)
Definition wal_new (old : list SequencedEvent) : Wal := mkWal false old [] 0 0 0 0.

Definition wal_open_file (fopen_ok : bool) (w : Wal) : bool * Wal :=
  if fopen_ok then
    (true, mkWal true (wal_durable w) (wal_unsynced w) (unsynced_count_ w) (clock (wal_ticks w))
             (records_written_ w) (S (wal_ticks w)))
  else (false, w).

(** [fflush], [fsync] and the bookkeeping after them. *)
Definition sync_now (ticks : nat) (w : Wal) : Wal :=
  mkWal (wal_open w) (wal_durable w ++ wal_unsynced w) [] 0 (clock ticks) (records_written_ w) (S ticks).

Definition maybe_fsync (force : bool) (w : Wal) : option Wal :=
  if (unsynced_count_ w =? 0) && negb force then Some w
  else if negb (wal_open w) then None
  else if negb force && (unsynced_count_ w <? fsync_every_n_) then
    if clock (wal_ticks w) - last_sync_ w <? fsync_interval_
    then Some (mkWal (wal_open w) (wal_durable w) (wal_unsynced w) (unsynced_count_ w)
                 (last_sync_ w) (records_written_ w) (S (wal_ticks w)))
    else Some (sync_now (S (wal_ticks w)) w)
  else Some (sync_now (wal_ticks w) w).

Definition append (ev : SequencedEvent) (w : Wal) : option Wal :=
  if wal_open w then
    maybe_fsync false
      (mkWal true (wal_durable w) (wal_unsynced w ++ [ev]) (u64 (unsynced_count_ w + 1))
         (last_sync_ w) (u64 (records_written_ w + 1)) (wal_ticks w))
  else None.

Definition wal_close (w : Wal) : option Wal :=
  if wal_open w then
    w' ← maybe_fsync true w;
    Some (mkWal false (wal_durable w') (wal_unsynced w') (unsynced_count_ w') (last_sync_ w')
            (records_written_ w') (wal_ticks w'))
  else Some w.

Definition wal_run {B} `{Broadcast B SequencedEvent} (consumer_id passes fuel : nat)
    : nat → (nat → bool) → B → Wal → option (B * Wal) :=
  consumer_run consumer_id append (maybe_fsync false) wal_close passes fuel.

(** ** The invariant

    Everything appended is in the file; the records at risk are counted, and
    are fewer than [fsync_every_n_]. *)

Record wal_inv (old l : list SequencedEvent) (w : Wal) : Prop := {
  wi_open : wal_open w = true;
  wi_file : wal_durable w ++ wal_unsynced w = old ++ l;
  wi_count : unsynced_count_ w = Z.of_nat (length (wal_unsynced w));
  wi_window : Z.of_nat (length (wal_unsynced w)) < fsync_every_n_;
  wi_written : records_written_ w = u64 (Z.of_nat (length l))
}.

Hypothesis Hn : 0 < fsync_every_n_ < 2 ^ 64.

(** After a non-forced check that keeps records back, they are recent. *)
Definition fresh_window (w : Wal) : Prop :=
  wal_unsynced w = [] ∨ ∃ t, clock t - last_sync_ w < fsync_interval_ ∧ (t < wal_ticks w)%nat.

Lemma sync_now_file ticks w :
  wal_durable (sync_now ticks w) ++ wal_unsynced (sync_now ticks w) = wal_durable w ++ wal_unsynced w.
Proof. cbn. by rewrite app_nil_r. Qed.

(** The state between [fwrite] and [maybe_fsync]. *)
Lemma maybe_fsync_ok old l w :
  wal_open w = true → wal_durable w ++ wal_unsynced w = old ++ l →
  unsynced_count_ w = Z.of_nat (length (wal_unsynced w)) →
  records_written_ w = u64 (Z.of_nat (length l)) →
  ∃ w', maybe_fsync false w = Some w' ∧ wal_inv old l w' ∧ fresh_window w'.
Proof.
  intros Ho Hf Hc Hw. unfold maybe_fsync. rewrite Ho. cbn [negb andb].
  destruct (Z.eqb_spec (unsynced_count_ w) 0) as [Hz|Hz]; cbn [andb].
  - assert (wal_unsynced w = []) as He by (apply nil_length_inv; lia).
    exists w. split; [done|]. split; [constructor; try done; rewrite He; cbn; lia|by left].
  - destruct (Z.ltb_spec (unsynced_count_ w) fsync_every_n_);
      [destruct (Z.ltb_spec (clock (wal_ticks w) - last_sync_ w) fsync_interval_)|].
    + eexists. split; [done|]. split; [constructor; cbn; try done; lia|].
      right. exists (wal_ticks w). cbn. split; [done|lia].
    + eexists. split; [done|]. split; [|by left].
      constructor; [done|by rewrite sync_now_file|done|cbn; lia|done].
    + eexists. split; [done|]. split; [|by left].
      constructor; [done|by rewrite sync_now_file|done|cbn; lia|done].
Qed.

Lemma append_ok old l ev w :
  wal_inv old l w →
  ∃ w', append ev w = Some w' ∧ wal_inv old (l ++ [ev]) w' ∧ fresh_window w'.
Proof.
  intros [Ho Hf Hc Hw Hr]. unfold append. rewrite Ho. apply maybe_fsync_ok; cbn; [done| | |].
  - by rewrite app_assoc, Hf, app_assoc.
  - rewrite length_app, wrap_unsigned_id by word_lia. cbn. lia.
  - rewrite Hr, wrap_unsigned_add_l, length_app. f_equal. cbn. lia.
Qed.

Lemma wal_close_ok old l w :
  wal_inv old l w →
  ∃ w', wal_close w = Some w' ∧ wal_open w' = false ∧ wal_durable w' = old ++ l ∧
        wal_unsynced w' = [] ∧ records_written_ w' = u64 (Z.of_nat (length l)).
Proof.
  intros [Ho Hf Hc Hw Hr]. unfold wal_close, maybe_fsync. rewrite Ho. cbn [negb].
  rewrite andb_false_r. cbn. eexists. split; [done|]. by rewrite Hf.
Qed.

Lemma wal_open_inv old :
  wal_inv old [] (wal_open_file true (wal_new old)).2.
Proof. constructor; cbn; [done|done|done|lia|done]. Qed.

End Wal.

(** ** Properties *)

Lemma event_type_of_code t : event_type_of (event_type_code t) = t.
Proof. by destruct t. Qed.
Lemma producer_of_code_code p : producer_of_code (producer_code p) = p.
Proof. by destruct p. Qed.

Lemma event_type_code_fits t : fits_unsigned 8 (event_type_code t).
Proof. destruct t; split; reflexivity || discriminate. Qed.
Lemma producer_code_fits p : fits_unsigned 8 (producer_code p).
Proof. destruct p; split; reflexivity || discriminate. Qed.

(** A log record can be read back: whatever the padding bytes, decoding the
    raw memory of an event gives the event. *)
Theorem wal_record_roundtrip p ev :
  padding_ok p → event_fits ev →
  event_of_bytes (event_bytes p ev) = ev ∧ length (event_bytes p ev) = sizeof_SequencedEvent.
Proof.
  intros (P1 & P2 & P3) [F1 F2 F3 F4 F5 F6 F7 F8].
  pose proof (event_type_code_fits (ev_type ev)). pose proof (producer_code_fits (ev_producer ev)). split.
  - unfold event_of_bytes, event_bytes. fields.
    rewrite event_type_of_code, producer_of_code_code. by destruct ev.
  - unfold event_bytes. rewrite !length_app, !length_le_encode, P1, P2, P3. reflexivity.
Qed.

Lemma wal_record_roundtrip_witness :
  event_of_bytes (event_bytes (mkPadding [1; 2] [3; 4; 5] [6; 7; 8; 9])
                    (mkEvent 1 0 99 EvCancelOrder FeedReplay 5 7 Sell 100 3))
  = mkEvent 1 0 99 EvCancelOrder FeedReplay 5 7 Sell 100 3.
Proof.
  apply (wal_record_roundtrip (mkPadding [1; 2] [3; 4; 5] [6; 7; 8; 9])).
  - repeat split.
  - constructor; cbn; word_lia.
Defined.

(** The loss window.  After every [append] to an open log the file holds
    everything appended so far, in order, behind what it held before; the
    records that a crash could still lose are the last ones, fewer than
    [fsync_every_n_] of them, and the last sync was less than [fsync_interval_]
    before some clock reading taken since. *)
Theorem wal_loss_window fsync_every_n_ fsync_interval_ clock old l ev w :
  0 < fsync_every_n_ < 2 ^ 64 → wal_inv fsync_every_n_ old l w →
  ∃ w', append fsync_every_n_ fsync_interval_ clock ev w = Some w' ∧
    wal_durable w' ++ wal_unsynced w' = old ++ l ++ [ev] ∧
    Z.of_nat (length (wal_unsynced w')) < fsync_every_n_ ∧
    (wal_unsynced w' = [] ∨
     ∃ t, clock t - last_sync_ w' < fsync_interval_ ∧ (t < wal_ticks w')%nat) ∧
    wal_inv fsync_every_n_ old (l ++ [ev]) w'.
Proof.
  intros Hn Hinv. destruct (append_ok fsync_every_n_ fsync_interval_ clock Hn old l ev w Hinv)
    as (w' & Hw & Hinv' & Hfresh).
  exists w'. split_and!; [done|apply Hinv'|apply Hinv'|done|done].
Qed.

Lemma wal_loss_window_witness :
  ∃ w', append 2 50 (λ k, 10 * Z.of_nat k) (mkEvent 1 0 0 EvNewOrder Gateway 5 7 Buy 1 1)
          (wal_open_file (λ k, 10 * Z.of_nat k) true (wal_new [])).2 = Some w' ∧
        Z.of_nat (length (wal_unsynced w')) < 2.
Proof.
  destruct (wal_loss_window 2 50 (λ k, 10 * Z.of_nat k) [] []
              (mkEvent 1 0 0 EvNewOrder Gateway 5 7 Buy 1 1)
              (wal_open_file (λ k, 10 * Z.of_nat k) true (wal_new [])).2) as (w' & H1 & _ & H2 & _).
  - lia.
  - apply wal_open_inv. lia.
  - exists w'. exact (conj H1 H2).
Defined.

(** The log thread from any point: having logged the first [c] events, it logs
    the rest, syncs and closes the file. *)
Lemma wal_run_from {B} `{Broadcast B SequencedEvent, !BroadcastLaws B SequencedEvent}
    fsync_every_n_ fsync_interval_ clock (consumer_id stop : nat) (running : nat → bool)
    (b : B) hist cs c old w0 :
  0 < fsync_every_n_ < 2 ^ 64 → bc_rep b hist cs → cs !! consumer_id = Some c →
  running stop = false → wal_inv fsync_every_n_ old (take c hist) w0 →
  ∃ b' w, wal_run fsync_every_n_ fsync_interval_ clock consumer_id (S stop) (S (length hist)) 0
            running b w0 = Some (b', w) ∧
    bc_rep b' hist (<[consumer_id := length hist]> cs) ∧
    wal_open w = false ∧ wal_durable w = old ++ hist ∧ wal_unsynced w = [] ∧
    records_written_ w = u64 (Z.of_nat (length hist)).
Proof.
  intros Hn Hrep Hc Hstop Hw0.
  destruct (consumer_run_spec consumer_id (append fsync_every_n_ fsync_interval_ clock)
              (maybe_fsync fsync_every_n_ fsync_interval_ clock false)
              (wal_close fsync_every_n_ fsync_interval_ clock) hist (wal_inv fsync_every_n_ old)
              (λ l w, wal_open w = false ∧ wal_durable w = old ++ l ∧ wal_unsynced w = [] ∧
                      records_written_ w = u64 (Z.of_nat (length l)))) with
    (running := running) (passes := S stop) (n := 0%nat) (m := stop) (fuel := S (length hist))
    (b := b) (cs := cs) (c := c) (e := w0)
    as (b' & w & Hrun & Hrep' & HR); try done; try lia.
  - intros l ev w _ Hw. destruct (append_ok fsync_every_n_ fsync_interval_ clock Hn old l ev w Hw)
      as (w' & ? & ? & _). eauto.
  - intros l w [? ? ? ? ?].
    destruct (maybe_fsync_ok fsync_every_n_ fsync_interval_ clock Hn old l w) as (w' & ? & ? & _); eauto.
  - intros l w Hw. by apply wal_close_ok.
  - exists b', w. done.
Qed.

(** A clean shutdown loses nothing.  Once the sequencer has stopped, the
    log thread returns with the file closed, and everything published, exactly
    once and in order, is durable behind the previous contents of the file. *)
Theorem wal_run_durable {B} `{Broadcast B SequencedEvent, !BroadcastLaws B SequencedEvent}
    fsync_every_n_ fsync_interval_ clock (consumer_id stop : nat) (running : nat → bool)
    (b : B) hist cs old :
  0 < fsync_every_n_ < 2 ^ 64 → bc_rep b hist cs → cs !! consumer_id = Some 0%nat →
  running stop = false →
  ∃ b' w, wal_run fsync_every_n_ fsync_interval_ clock consumer_id (S stop) (S (length hist)) 0
            running b (wal_open_file clock true (wal_new old)).2 = Some (b', w) ∧
    wal_open w = false ∧ wal_durable w = old ++ hist ∧ wal_unsynced w = [] ∧
    records_written_ w = u64 (Z.of_nat (length hist)).
Proof.
  intros Hn Hrep Hc Hstop.
  destruct (wal_run_from fsync_every_n_ fsync_interval_ clock consumer_id stop running b hist cs 0 old
              (wal_open_file clock true (wal_new old)).2) as (b' & w & Hrun & _ & HR); try done.
  - by apply wal_open_inv.
  - by exists b', w.
Qed.

Section DemoWal.
#[local] Instance wal_demo_ring : Broadcast (BroadcastRing SequencedEvent) SequencedEvent :=
  bcast_broadcast SequencedEvent 2 8.

Lemma wal_run_durable_witness :
  ∃ b' w, wal_run 2 50 (λ k, 10 * Z.of_nat k) 0 1 1 0 (λ _, false)
            (register_n 1 (bcast_new 2 8 (mkEvent 0 0 0 EvAdmin Admin 0 0 Buy 0 0)))
            (wal_open_file (λ k, 10 * Z.of_nat k) true (wal_new [])).2 = Some (b', w) ∧
          wal_durable w = [].
Proof.
  assert (BroadcastLaws (BroadcastRing SequencedEvent) SequencedEvent) as Hlaws
    by apply bcast_broadcast_laws, pow2_capacity_2.
  destruct (wal_run_durable 2 50 (λ k, 10 * Z.of_nat k) 0 0 (λ _, false)
              (register_n 1 (bcast_new 2 8 (mkEvent 0 0 0 EvAdmin Admin 0 0 Buy 0 0))) [] [0%nat] [])
    as (b' & w & H1 & _ & H2 & _).
  - lia.
  - apply (registered_rep 2 8 ltac:(lia) _ 1). lia.
  - reflexivity.
  - reflexivity.
  - exists b', w. exact (conj H1 H2).
Defined.

End DemoWal.
