(* ===== verification/WalCrash.v ===== *)
(** * WalCrash: the log below its records

    [Wal] counts records; this file counts bytes.  [append], [maybe_fsync] and
    [close] of [include/wal_consumer.hpp] are broken up into their calls of the C
    library, [fwrite], [fflush] and [fsync], over a file that has a buffer in the
    process, a part that the operating system has been given and a part that an
    [fsync] has covered.  The library may pass on any part of its buffer at any
    [fwrite].  Between any two calls the process can be killed, which leaves what
    the system has been given, or the power can fail, which leaves what an [fsync]
    has covered and behind it anything at all: the system writes its pages back
    when and in which order it likes. *)

From S2P Require Import Prelude Types Protocol Wal.

#[local] Open Scope Z_scope.

(** Covered by an [fsync]; given to the system since; still in the process. *)
Record LogFile := mkFile { f_disk : bytes; f_cache : bytes; f_buffer : bytes }.

Definition f_content (f : LogFile) : bytes := f_disk f ++ f_cache f ++ f_buffer f.

(** The file after the process has been killed. *)
Definition killed_file (f : LogFile) : bytes := f_disk f ++ f_cache f.

(** [bs] can be the file after a power failure. *)
Definition power_lost (f : LogFile) (bs : bytes) : Prop := f_disk f `prefix_of` bs.

(** Between two operations; after the [fwrite] of [append]; between [fflush] and
    [fsync], with the bookkeeping still to be done. *)
Inductive IoPc := IoIdle | IoWrote | IoFlushed (w : Wal).

Record LogIo := mkIo {
  io_file : LogFile;
  io_wal : Wal;
  io_pc : IoPc;
  io_log : list (Padding * SequencedEvent)    (* all records, the old ones first *)
}.

Definition log_bytes (l : list (Padding * SequencedEvent)) : bytes := l ≫= λ r, event_bytes r.1 r.2.

#[local] Arguments event_bytes : simpl never.
#[local] Arguments log_bytes : simpl never.

(** Reading a log: whole records, one after the other; a remainder is no record. *)
Definition read_log (bs : bytes) : list SequencedEvent :=
  (λ i, event_of_bytes (take sizeof_SequencedEvent (drop (i * sizeof_SequencedEvent) bs)))
    <$> seq 0 (length bs / sizeof_SequencedEvent).

Section WalCrash.
Context (fsync_every_n_ fsync_interval_ : Z) (clock : nat → Z).

(** The two early returns of [maybe_fsync]. *)
Definition sync_due (force : bool) (w : Wal) : bool :=
  if (unsynced_count_ w =? 0) && negb force then false
  else if negb force && (unsynced_count_ w <? fsync_every_n_)
  then negb (clock (wal_ticks w) - last_sync_ w <? fsync_interval_)
  else true.

Definition record_fwrite (ev : SequencedEvent) (w : Wal) : Wal :=
  mkWal true (wal_durable w) (wal_unsynced w ++ [ev]) (u64 (unsynced_count_ w + 1))
    (last_sync_ w) (u64 (records_written_ w + 1)) (wal_ticks w).

Inductive log_step : LogIo → LogIo → Prop :=
| io_fwrite d c b w log p ev k :
    wal_open w = true → padding_ok p → event_fits ev →
    log_step (mkIo (mkFile d c b) w IoIdle log)
      (mkIo (mkFile d (c ++ take k (b ++ event_bytes p ev)) (drop k (b ++ event_bytes p ev)))
         (record_fwrite ev w) IoWrote (log ++ [(p, ev)]))
| io_keep f w w' pc log force :
    (pc = IoIdle ∨ pc = IoWrote) → sync_due force w = false →
    maybe_fsync fsync_every_n_ fsync_interval_ clock force w = Some w' →
    log_step (mkIo f w pc log) (mkIo f w' IoIdle log)
| io_fflush d c b w w' pc log force :
    (pc = IoIdle ∨ pc = IoWrote) → sync_due force w = true →
    maybe_fsync fsync_every_n_ fsync_interval_ clock force w = Some w' →
    log_step (mkIo (mkFile d c b) w pc log) (mkIo (mkFile d (c ++ b) []) w (IoFlushed w') log)
| io_fsync d c b w w' log :
    log_step (mkIo (mkFile d c b) w (IoFlushed w') log) (mkIo (mkFile (d ++ c) [] b) w' IoIdle log).

(** [open] on a log that holds [old]. *)
Definition log_init (old : list (Padding * SequencedEvent)) : LogIo :=
  mkIo (mkFile (log_bytes old) [] []) (wal_open_file clock true (wal_new old.*2)).2 IoIdle old.

Definition log_reach (old : list (Padding * SequencedEvent)) (s : LogIo) : Prop := rtc log_step (log_init old) s.

(** ** Records and bytes *)

Lemma length_event_bytes p ev : padding_ok p → length (event_bytes p ev) = sizeof_SequencedEvent.
Proof.
  intros (P1 & P2 & P3). unfold event_bytes. by rewrite !length_app, !length_le_encode, P1, P2, P3.
Qed.

Definition record_ok (r : Padding * SequencedEvent) : Prop := padding_ok r.1 ∧ event_fits r.2.

Lemma log_bytes_app l l' : log_bytes (l ++ l') = log_bytes l ++ log_bytes l'.
Proof. unfold log_bytes. apply bind_app. Qed.

Lemma log_bytes_one p ev : log_bytes [(p, ev)] = event_bytes p ev.
Proof. apply app_nil_r. Qed.

Lemma length_log_bytes l : Forall record_ok l → length (log_bytes l) = (length l * sizeof_SequencedEvent)%nat.
Proof.
  induction 1 as [|[p ev] l [Hp _] _ IH]; [done|]. unfold log_bytes in *. cbn [mbind list_bind] in *.
  rewrite length_app, IH, length_event_bytes by done. cbn [length]. lia.
Qed.

(** Record [i] of a log is found at its place, in any prefix that contains it. *)
Lemma log_record l f i r :
  Forall record_ok l → f `prefix_of` log_bytes l → l !! i = Some r →
  (S i * sizeof_SequencedEvent ≤ length f)%nat →
  event_of_bytes (take sizeof_SequencedEvent (drop (i * sizeof_SequencedEvent) f)) = r.2.
Proof.
  intros Hok [rest Hf] Hi Hlen. destruct r as [p ev].
  destruct (Forall_lookup_1 _ _ _ _ Hok Hi) as [Hp Hev]. cbn [fst snd] in Hp, Hev |- *.
  apply take_drop_middle in Hi. rewrite <-Hi in Hf, Hok. apply Forall_app in Hok as [Hok1 _].
  rewrite log_bytes_app in Hf. pose proof (length_log_bytes _ Hok1) as Hl1.
  assert (take sizeof_SequencedEvent (drop (i * sizeof_SequencedEvent) (f ++ rest)) = event_bytes p ev) as He.
  { rewrite <-Hf. assert (length (take i l) = i) as Hti.
    { rewrite length_take. apply (f_equal length) in Hi. rewrite length_app, length_take in Hi. cbn in Hi.
      rewrite length_drop in Hi. lia. }
    rewrite Hti in Hl1. rewrite <-Hl1, drop_app_length. unfold log_bytes. cbn [mbind list_bind].
    apply take_app_length'. by rewrite length_event_bytes. }
  rewrite drop_app_le, take_app_le in He by (rewrite ?length_drop; lia). rewrite He.
  by apply wal_record_roundtrip.
Qed.

(** Reading a prefix of a log gives a prefix of its events. *)
Lemma read_log_prefix l f :
  Forall record_ok l → f `prefix_of` log_bytes l → read_log f = take (length f / sizeof_SequencedEvent) l.*2.
Proof.
  intros Hok Hf. pose proof (prefix_length _ _ Hf) as Hle. rewrite length_log_bytes in Hle by done.
  set (n := (length f / sizeof_SequencedEvent)%nat).
  assert (n * sizeof_SequencedEvent ≤ length f)%nat as Hn by (rewrite Nat.mul_comm; by apply Nat.Div0.mul_div_le).
  assert (n ≤ length l)%nat as Hnl by (unfold sizeof_SequencedEvent in *; lia).
  unfold read_log. fold n. clearbody n. apply list_eq. intros i. rewrite list_lookup_fmap.
  destruct (decide (i < n)%nat) as [Hi|Hi].
  - rewrite lookup_seq_lt, lookup_take_lt by done. rewrite list_lookup_fmap.
    destruct (lookup_lt_is_Some_2 l i ltac:(lia)) as [r Hr]. rewrite Hr. cbn. f_equal.
    eapply log_record; [done|done|done|]. unfold sizeof_SequencedEvent in *. lia.
  - rewrite lookup_seq_ge by lia. cbn. symmetry. apply lookup_ge_None. rewrite length_take, length_fmap. lia.
Qed.

(** ** The invariant *)

Record log_ok (s : LogIo) : Prop := {
  ik_content : f_content (io_file s) = log_bytes (io_log s);
  ik_records : Forall record_ok (io_log s);
  ik_events : wal_durable (io_wal s) ++ wal_unsynced (io_wal s) = (io_log s).*2;
  ik_durable : (length (wal_durable (io_wal s)) * sizeof_SequencedEvent ≤ length (f_disk (io_file s)))%nat;
  ik_count : unsynced_count_ (io_wal s) = Z.of_nat (length (wal_unsynced (io_wal s)));
  ik_window : match io_pc s with
    | IoIdle => Z.of_nat (length (wal_unsynced (io_wal s))) < fsync_every_n_
    | IoWrote => Z.of_nat (length (wal_unsynced (io_wal s))) ≤ fsync_every_n_
    | IoFlushed w' =>
        Z.of_nat (length (wal_unsynced (io_wal s))) ≤ fsync_every_n_ ∧ f_buffer (io_file s) = [] ∧
        ∃ t, w' = sync_now clock t (io_wal s)
    end
}.

Hypothesis Hn : 0 < fsync_every_n_ < 2 ^ 64.

Lemma window_le s : log_ok s → Z.of_nat (length (wal_unsynced (io_wal s))) ≤ fsync_every_n_.
Proof. intros [_ _ _ _ _ Hw]. destruct (io_pc s); [lia|done|by destruct Hw]. Qed.

(** The outcome of [maybe_fsync], by its early returns. *)
Lemma maybe_fsync_kept force w w' :
  maybe_fsync fsync_every_n_ fsync_interval_ clock force w = Some w' → sync_due force w = false →
  wal_durable w' = wal_durable w ∧ wal_unsynced w' = wal_unsynced w ∧ unsynced_count_ w' = unsynced_count_ w ∧
  unsynced_count_ w < fsync_every_n_.
Proof.
  unfold maybe_fsync, sync_due. destruct (Z.eqb_spec (unsynced_count_ w) 0) as [Hz|]; destruct force; cbn [andb negb].
  - by destruct (wal_open w).
  - intros [= <-] _. split_and!; [done|done|done|lia].
  - by destruct (wal_open w).
  - destruct (wal_open w); [|done]. cbn [negb]. destruct (Z.ltb_spec (unsynced_count_ w) fsync_every_n_); [|done].
    destruct (_ <? _); [|done]. intros [= <-] _. done.
Qed.

Lemma maybe_fsync_synced force w w' :
  maybe_fsync fsync_every_n_ fsync_interval_ clock force w = Some w' → sync_due force w = true →
  ∃ t, w' = sync_now clock t w.
Proof.
  unfold maybe_fsync, sync_due. destruct (_ && _); [done|]. destruct (wal_open w); [|done]. cbn [negb].
  destruct (negb force && _).
  - destruct (_ <? _); [done|]. intros [= <-]. eauto.
  - intros [= <-]. eauto.
Qed.

Lemma log_step_ok s s' : log_step s s' → log_ok s → log_ok s'.
Proof.
  intros Hstep Hok. pose proof (window_le s Hok) as Hwin. destruct Hok as [Hc Hr He Hd Hcnt Hw].
  destruct Hstep as [d c b w log p ev k Ho Hp Hev|f w w' pc log force Hpc Hdue Hm|d c b w w' pc log force Hpc Hdue Hm
    |d c b w w' log]; cbn in *.
  - split; cbn [io_file io_wal io_pc io_log f_disk record_fwrite wal_durable wal_unsynced unsynced_count_].
    + unfold f_content in *. cbn in Hc |- *. rewrite log_bytes_app, log_bytes_one, <-Hc.
      rewrite <-!app_assoc, take_drop. done.
    + apply Forall_app. split; [done|]. by apply Forall_singleton.
    + by rewrite app_assoc, He, fmap_app.
    + done.
    + rewrite length_app, Hcnt. cbn. unwrap. lia.
    + rewrite length_app. cbn. lia.
  - destruct (maybe_fsync_kept _ _ _ Hm Hdue) as (Hdu & Hun & Hcn & Hlt).
    split; cbn; rewrite ?Hdu, ?Hun, ?Hcn; try done. lia.
  - split; cbn; try done.
    + unfold f_content in *. cbn in Hc |- *. by rewrite app_nil_r.
    + split_and!; [done|done|by eapply maybe_fsync_synced].
  - destruct Hw as (_ & -> & t & ->). unfold f_content in *. cbn in *. rewrite app_nil_r in Hc. split; cbn; try done.
    + unfold f_content. cbn. by rewrite app_nil_r.
    + by rewrite app_nil_r.
    + rewrite He, Hc, length_log_bytes, length_fmap by done. done.
    + lia.
Qed.

Lemma log_reach_ok old s : Forall record_ok old → log_reach old s → log_ok s.
Proof.
  intros Hold Hr. assert (log_ok (log_init old)) as Hinit.
  { split; cbn; try done.
    - unfold f_content. cbn. by rewrite app_nil_r.
    - by rewrite app_nil_r.
    - by rewrite length_log_bytes, length_fmap.
    - lia. }
  unfold log_reach in Hr. revert Hinit. induction Hr; eauto using log_step_ok.
Qed.

Lemma log_ok_killed s :
  log_ok s → let es := read_log (killed_file (io_file s)) in
  wal_durable (io_wal s) `prefix_of` es ∧ es `prefix_of` (io_log s).*2 ∧
  Z.of_nat (length (io_log s)) ≤ Z.of_nat (length es) + fsync_every_n_.
Proof.
  intros Hok. pose proof (window_le s Hok) as Hwin. destruct Hok as [Hc Hrec He Hd _ _].
  assert (killed_file (io_file s) `prefix_of` log_bytes (io_log s)) as Hpre.
  { rewrite <-Hc. unfold killed_file, f_content. apply prefix_app. by eexists. }
  cbv zeta. rewrite (read_log_prefix (io_log s)) by done. set (n := (_ / _)%nat).
  assert (length (wal_durable (io_wal s)) ≤ n)%nat as Hle.
  { apply Nat.div_le_lower_bound; [done|]. unfold killed_file. rewrite length_app. lia. }
  clearbody n. rewrite <-He. split_and!.
  - rewrite take_app. rewrite (take_ge (wal_durable _)) by done. by eexists.
  - apply prefix_take.
  - apply (f_equal length) in He. rewrite length_app, length_fmap in He.
    rewrite length_take, length_app. lia.
Qed.

(** At most one window is not synced. *)
Lemma log_ok_window s : log_ok s →
  Z.of_nat (length (io_log s)) ≤ Z.of_nat (length (wal_durable (io_wal s))) + fsync_every_n_.
Proof.
  intros Hok. pose proof (window_le s Hok). pose proof (ik_events s Hok) as He.
  apply (f_equal length) in He. rewrite length_app, length_fmap in He. lia.
Qed.

(** A process that is killed between any two calls leaves a log that reads as a
    prefix of what was logged, if the calls themselves do not fail ([WalFaults] has
    those that do, and the failures of the power). *)
Theorem wal_crash_prefix old s :
  Forall record_ok old → log_reach old s →
  let es := read_log (killed_file (io_file s)) in
  wal_durable (io_wal s) `prefix_of` es ∧ es `prefix_of` (io_log s).*2 ∧
  Z.of_nat (length (io_log s)) ≤ Z.of_nat (length es) + fsync_every_n_.
Proof. intros Hold Hr. by apply log_ok_killed, (log_reach_ok old). Qed.

(** ** Appending to a log after a crash *)

(** Whole records in front do not disturb what follows. *)
Lemma read_log_app f g :
  (length f `mod` sizeof_SequencedEvent = 0)%nat → read_log (f ++ g) = read_log f ++ read_log g.
Proof.
  intros Hmod. apply Nat.Div0.mod_divides in Hmod as [n Hlen]. rewrite Nat.mul_comm in Hlen.
  assert (sizeof_SequencedEvent ≠ 0)%nat as Hz by done.
  assert (length f / sizeof_SequencedEvent = n)%nat as Hf by (rewrite Hlen; by apply Nat.div_mul).
  unfold read_log at 1. rewrite length_app, Hlen, (Nat.add_comm (n * _)), Nat.div_add, Nat.add_comm by done.
  rewrite seq_app, fmap_app. unfold read_log. rewrite Hf. f_equal.
  - apply list_fmap_ext. intros j i Hj. apply lookup_seq in Hj as [-> Hj]. f_equal.
    rewrite drop_app_le, take_app_le; [done|rewrite length_drop|]; unfold sizeof_SequencedEvent in *; lia.
  - replace (seq (0 + n) _) with (Nat.add n <$> seq 0 (length g / sizeof_SequencedEvent))
      by (by rewrite fmap_add_seq, Nat.add_0_r).
    rewrite <-list_fmap_compose. apply list_fmap_ext. intros j i Hj. cbn [compose]. do 2 f_equal.
    rewrite drop_app_ge by (unfold sizeof_SequencedEvent in *; lia). f_equal. unfold sizeof_SequencedEvent in *. lia.
Qed.

(** If the crash left whole records, the next run's log is readable. *)
Lemma read_log_append f l :
  (length f `mod` sizeof_SequencedEvent = 0)%nat → Forall record_ok l →
  read_log (f ++ log_bytes l) = read_log f ++ l.*2.
Proof.
  intros Hmod Hl. rewrite read_log_app by done. f_equal. rewrite (read_log_prefix l) by done.
  rewrite length_log_bytes, Nat.div_mul by done. apply take_ge. by rewrite length_fmap.
Qed.

(** Records that stay in the buffer of the process. *)
Lemma buffered_reach l :
  (∀ t t', clock t - clock t' < fsync_interval_) → Forall record_ok l → Z.of_nat (length l) < fsync_every_n_ →
  ∃ w, log_reach [] (mkIo (mkFile [] [] (log_bytes l)) w IoIdle l) ∧ wal_open w = true ∧
    unsynced_count_ w = Z.of_nat (length l) ∧ ∃ t, last_sync_ w = clock t.
Proof.
  intros Hclock. induction l as [|[p ev] l IH] using rev_ind; intros Hl Hlt.
  { eexists. split; [apply rtc_refl|]. split_and!; [done|done|by exists 0%nat]. }
  apply Forall_app in Hl as [Hl [Hp Hev]%Forall_singleton]. rewrite length_app in Hlt. cbn in Hlt, Hp, Hev.
  destruct (IH Hl ltac:(lia)) as (w & Hr & Ho & Hcnt & t & Ht).
  set (w1 := record_fwrite ev w).
  assert (unsynced_count_ w1 = Z.of_nat (length l) + 1) as Hc1 by (cbn; rewrite Hcnt; unwrap; lia).
  assert (sync_due false w1 = false ∧ ∃ w2, maybe_fsync fsync_every_n_ fsync_interval_ clock false w1 = Some w2 ∧
    wal_open w2 = true ∧ unsynced_count_ w2 = unsynced_count_ w1 ∧ last_sync_ w2 = last_sync_ w) as (Hdue & w2 & Hw2 & Ho2 & Hc2 & Ht2).
  { unfold sync_due, maybe_fsync. rewrite Hc1. rewrite (proj2 (Z.eqb_neq _ _)) by lia. cbn [andb negb wal_open w1 record_fwrite].
    rewrite (proj2 (Z.ltb_lt _ _)) by lia. specialize (Hclock (wal_ticks w1) t). rewrite <-Ht in Hclock.
    change (last_sync_ w1) with (last_sync_ w). rewrite (proj2 (Z.ltb_lt _ _) Hclock). split; [done|].
    eexists. split; [done|]. cbn. by rewrite <-Hc1. }
  exists w2. split_and!; [|done|rewrite length_app; cbn; lia|by exists t; rewrite Ht2].
  rewrite log_bytes_app, log_bytes_one. eapply rtc_r; [eapply rtc_r; [exact Hr|]|].
  - by apply (io_fwrite _ _ _ _ _ p ev 0).
  - cbn [take drop app]. eapply (io_keep _ _ _ _ _ false); [by right|exact Hdue|exact Hw2].
Qed.

End WalCrash.

(** ** A torn record

    The records of 74 orders are more than a buffer of 4096 bytes holds. *)

Definition block : nat := 4096.
Definition no_padding : Padding := mkPadding [0; 0] [0; 0; 0] [0; 0; 0; 0].
Definition crash_event (i : nat) : SequencedEvent :=
  mkEvent (Z.of_nat (S i)) 0 0 EvNewOrder Gateway 5 (Z.of_nat i) Buy 100 1.
Definition crash_records (n : nat) : list (Padding * SequencedEvent) := (λ i, (no_padding, crash_event i)) <$> seq 0 n.

Lemma crash_records_ok n : (n < 1000)%nat → Forall record_ok (crash_records n).
Proof.
  intros Hn. apply Forall_fmap, Forall_forall. intros i Hi%elem_of_seq. split; cbn; [by repeat split|].
  constructor; cbn; word_lia.
Qed.

Lemma field_take off n k bs : (off + n ≤ k)%nat → field off n (take k bs) = field off n bs.
Proof. intros Hle. unfold field. rewrite skipn_firstn_comm, take_take. do 2 f_equal. lia. Qed.

(** What is read when 8 bytes of a record precede the next one. *)
Lemma torn_record p ev :
  padding_ok p → event_fits ev →
  let e' := event_of_bytes (take sizeof_SequencedEvent (le_encode 8 74 ++ event_bytes p ev)) in
  ev_seq_num e' = 74 ∧ ev_ingress_ts e' = ev_seq_num ev.
Proof.
  intros Hp [F1 _ _ _ _ _ _]. cbv zeta. cbn [ev_seq_num ev_ingress_ts event_of_bytes]. unfold event_bytes.
  rewrite !field_take by (unfold sizeof_SequencedEvent; lia).
  assert (fits_unsigned (8 * Z.of_nat 8) 74) by word_lia. by split; fields.
Qed.

(** The process is killed when the system has half of the first record. *)
Lemma wal_crash_prefix_witness :
  ∃ s, log_reach 256 50000000 (λ _, 0) [] s ∧ read_log (killed_file (io_file s)) `prefix_of` [crash_event 0].
Proof.
  assert (∃ s, log_reach 256 50000000 (λ _, 0) [] s ∧ io_log s = [(no_padding, crash_event 0)]) as (s & Hr & Hlog).
  { eexists. split; [eapply rtc_once, (io_fwrite _ _ _ _ _ _ _ [] no_padding (crash_event 0) 28); [done|by repeat split|]|done].
    constructor; cbn; word_lia. }
  exists s. split; [exact Hr|].
  destruct (wal_crash_prefix 256 50000000 (λ _, 0) ltac:(lia) [] s (Forall_nil_2 _) Hr) as (_ & Hpre & _).
  by rewrite Hlog in Hpre.
Defined.

(** C37: A crash can spoil the log for the runs that follow.  The C library writes
    its buffer in blocks that are no multiple of a record, so a process that is
    killed can leave a part of a record at the end of the file; [open] appends
    behind it.  After 74 orders with a buffer of 4096 bytes and the default
    thresholds, 73 records and 8 bytes are left, and whatever the next run logs
    first is read back as an event with number 74 whose fields are shifted. *)
Theorem wal_torn_restart :
  ∃ s, log_reach 256 50000000 (λ _, 0) [] s ∧
    let f := killed_file (io_file s) in
    length f = block ∧ read_log f = crash_event <$> seq 0 73 ∧
    ∀ p ev, padding_ok p → event_fits ev → ev_seq_num ev ≠ 74 →
      ∃ e', read_log (f ++ event_bytes p ev) = read_log f ++ [e'] ∧
        e' ≠ ev ∧ ev_seq_num e' = 74 ∧ ev_ingress_ts e' = ev_seq_num ev.
Proof.
  destruct (buffered_reach 256 50000000 (λ _, 0) ltac:(lia) (crash_records 73)) as (w & Hr & Ho & _).
  { done. } { apply crash_records_ok. lia. } { done. }
  eexists. split.
  { eapply rtc_r; [exact Hr|]. apply (io_fwrite _ _ _ _ _ _ _ _ no_padding (crash_event 73) block); [done|by repeat split|].
    constructor; cbn; word_lia. }
  cbv zeta. cbn [io_file f_cache]. rewrite app_nil_l.
  set (f := killed_file _).
  assert (f = log_bytes (crash_records 73) ++ le_encode 8 74) as ->.
  { unfold f. vm_compute. reflexivity. }
  rewrite !read_log_app by done. split_and!; [done|by vm_compute|].
  intros p ev Hp Hev Hne. rewrite <-app_assoc, read_log_app by done.
  exists (event_of_bytes (take sizeof_SequencedEvent (le_encode 8 74 ++ event_bytes p ev))). split.
  { rewrite app_nil_r. f_equal. unfold read_log. by rewrite length_app, length_le_encode, length_event_bytes. }
  destruct (torn_record p ev Hp Hev) as [Hs Hi]. split_and!; [|done|done]. intros Heq. by rewrite Heq in Hs.
Qed.
