(* ===== verification/WalFaults.v ===== *)
(** * WalFaults: the log when its writes fail

    [append] and [maybe_fsync] of [include/wal_consumer.hpp] do not look at what
    [fwrite], [fflush] and [fsync] return.  Here any of these calls may fail, in
    addition to the crashes of [WalCrash]: it may do anything to what no [fsync] has
    covered and write anything behind the rest, and the code goes on as after a
    success. *)

From S2P Require Import Prelude Types Protocol Wal WalCrash.

#[local] Open Scope Z_scope.

(** [fo_mark]: the records that were synced when a call failed for the first time. *)
Record FaultIo := mkFaultIo { fo_io : LogIo; fo_mark : option (list SequencedEvent) }.

Section WalFaults.
Context (fsync_every_n_ fsync_interval_ : Z) (clock : nat → Z).
Abbreviation log_step := (log_step fsync_every_n_ fsync_interval_ clock).

Inductive fault_step : FaultIo → FaultIo → Prop :=
| fs_works io io' m : log_step io io' → fault_step (mkFaultIo io m) (mkFaultIo io' m)
| fs_fails io io' m f : log_step io io' → f_disk (io_file io) `prefix_of` f_disk f →
    fault_step (mkFaultIo io m)
      (mkFaultIo (mkIo f (io_wal io') (io_pc io') (io_log io')) (Some (default (wal_durable (io_wal io)) m))).

Definition fault_reach (old : list (Padding * SequencedEvent)) : FaultIo → Prop :=
  rtc fault_step (mkFaultIo (log_init clock old) None).

(** ** What the object believes *)

Record book_ok (old : list (Padding * SequencedEvent)) (s : LogIo) : Prop := {
  bk_old : old `prefix_of` io_log s;
  bk_records : Forall record_ok (io_log s);
  bk_events : wal_durable (io_wal s) ++ wal_unsynced (io_wal s) = (io_log s).*2;
  bk_durable : old.*2 `prefix_of` wal_durable (io_wal s);
  bk_count : unsynced_count_ (io_wal s) = Z.of_nat (length (wal_unsynced (io_wal s)));
  bk_written : records_written_ (io_wal s) = u64 (Z.of_nat (length (io_log s)) - Z.of_nat (length old));
  bk_window : Z.of_nat (length (wal_unsynced (io_wal s))) < fsync_every_n_ + match io_pc s with IoIdle => 0 | _ => 1 end;
  bk_pc : match io_pc s with IoFlushed w' => ∃ t, w' = sync_now clock t (io_wal s) | _ => True end
}.

Hypothesis Hn : 0 < fsync_every_n_ < 2 ^ 64.

Lemma book_init old : Forall record_ok old → book_ok old (log_init clock old).
Proof.
  intros Hold. split; cbn; try done.
  - by rewrite app_nil_r.
  - by rewrite Z.sub_diag.
  - lia.
Qed.

Lemma records_count n old : u64 (u64 (Z.of_nat n - old) + 1) = u64 (Z.of_nat (n + 1) - old).
Proof. unfold wrap_unsigned. rewrite Zplus_mod_idemp_l. f_equal. lia. Qed.

Lemma book_step old s s' : log_step s s' → book_ok old s → book_ok old s'.
Proof.
  intros Hstep [Ho Hr He Hd Hc Hw Hwin Hpc].
  assert (Z.of_nat (length (wal_unsynced (io_wal s))) ≤ fsync_every_n_) as Hle by (destruct (io_pc s); lia).
  destruct Hstep as [d c b w log p ev k Hopen Hp Hev|f w w' pc log force Hpc' Hdue Hm|d c b w w' pc log force Hpc' Hdue Hm
    |d c b w w' log]; cbn in *.
  - split; cbn [io_wal io_pc io_log record_fwrite wal_durable wal_unsynced unsynced_count_ records_written_].
    + by apply prefix_app_r.
    + apply Forall_app. split; [done|]. by apply Forall_singleton.
    + by rewrite app_assoc, He, fmap_app.
    + done.
    + rewrite length_app, Hc. cbn. unwrap. lia.
    + rewrite Hw, length_app. apply records_count.
    + rewrite length_app. cbn. lia.
    + done.
  - destruct (maybe_fsync_kept _ _ _ Hn _ _ _ Hm Hdue) as (Hdu & Hun & Hcn & Hlt).
    assert (records_written_ w' = records_written_ w) as Hwr.
    { revert Hm. unfold maybe_fsync. repeat case_match; try done; intros [= <-]; done. }
    split; cbn; rewrite ?Hdu, ?Hun, ?Hcn, ?Hwr; try done. lia.
  - split; cbn; try done; [lia|]. by eapply maybe_fsync_synced.
  - destruct Hpc as [t ->]. split; cbn; try done.
    + by rewrite app_nil_r.
    + by apply prefix_app_r.
    + lia.
Qed.

(** ** What the disk holds *)

(** The disk begins with the records of [es]. *)
Definition on_disk (es : list SequencedEvent) (f : LogFile) : Prop :=
  ∃ rs, Forall record_ok rs ∧ rs.*2 = es ∧ log_bytes rs `prefix_of` f_disk f.

Lemma synced_on_disk s : log_ok fsync_every_n_ clock s → on_disk (wal_durable (io_wal s)) (io_file s).
Proof.
  intros [Hc Hr He Hd _ _]. set (n := length (wal_durable (io_wal s))) in *. exists (take n (io_log s)).
  assert (n ≤ length (io_log s))%nat as Hn'.
  { apply (f_equal length) in He. rewrite length_app, length_fmap in He. fold n in He. lia. }
  split_and!; [by apply Forall_take|rewrite fmap_take, <-He; by apply take_app_length|].
  assert (log_bytes (take n (io_log s)) `prefix_of` f_content (io_file s)) as Hp.
  { rewrite Hc. exists (log_bytes (drop n (io_log s))). by rewrite <-log_bytes_app, take_drop. }
  unfold f_content in Hp. destruct (prefix_weak_total _ _ _ Hp (prefix_app_r _ _ _ (reflexivity _))) as [?|Hq]; [done|].
  rewrite (prefix_length_eq _ _ Hq); [done|]. rewrite length_log_bytes, length_take, Nat.min_l by (by apply Forall_take || lia). done.
Qed.

Lemma disk_grows s s' : log_step s s' → f_disk (io_file s) `prefix_of` f_disk (io_file s').
Proof. intros []; cbn; try done; by eexists. Qed.

Lemma on_disk_grows es f f' : f_disk f `prefix_of` f_disk f' → on_disk es f → on_disk es f'.
Proof. intros Hf (rs & ? & ? & ?). exists rs. split_and!; [done..|]. by etrans. Qed.

(** Reading a file that begins with whole records. *)
Lemma read_log_on_disk es f bs : on_disk es f → power_lost f bs → es `prefix_of` read_log bs.
Proof.
  intros (rs & Hr & <- & rest & Hf) [x ->]. rewrite Hf, <-app_assoc.
  rewrite read_log_app; [|rewrite length_log_bytes by done; by apply Nat.Div0.mod_mul].
  rewrite (read_log_prefix rs) by done. rewrite length_log_bytes, Nat.div_mul by done.
  rewrite take_ge by (by rewrite length_fmap). by eexists.
Qed.

Definition fault_ok (old : list (Padding * SequencedEvent)) (s : FaultIo) : Prop :=
  book_ok old (fo_io s) ∧
  match fo_mark s with
  | None => log_ok fsync_every_n_ clock (fo_io s)
  | Some es => on_disk es (io_file (fo_io s)) ∧ es `prefix_of` (io_log (fo_io s)).*2 ∧ old.*2 `prefix_of` es
  end.

Lemma log_grows s s' : log_step s s' → (io_log s).*2 `prefix_of` (io_log s').*2.
Proof. intros []; cbn; try done. rewrite fmap_app. by eexists. Qed.

Lemma fault_step_ok old s s' : fault_step s s' → fault_ok old s → fault_ok old s'.
Proof.
  intros Hstep [Hb Hm]. destruct Hstep as [io io' m Hs|io io' m f Hs Hf]; cbn in *.
  - split; [by eapply book_step|]. destruct m as [es|]; cbn in *; [|by eapply log_step_ok].
    destruct Hm as (Hd & Hp & Ho). split_and!; [|by etrans; [|eapply log_grows]|done].
    eapply on_disk_grows; [by eapply disk_grows|done].
  - pose proof (book_step _ _ _ Hs Hb) as Hb'. split; [by destruct Hb'|]. cbn.
    pose proof (log_grows _ _ Hs) as Hg. destruct m as [es|]; cbn in *.
    + destruct Hm as (Hd & Hp & Ho). split_and!; [by eapply on_disk_grows|by etrans|done].
    + split_and!; [eapply on_disk_grows; [done|by apply synced_on_disk]| |apply Hb].
      etrans; [|exact Hg]. rewrite <-(bk_events _ _ Hb). by eexists.
Qed.

Lemma fault_reach_ok old s : Forall record_ok old → fault_reach old s → fault_ok old s.
Proof.
  intros Hold Hr. assert (fault_ok old (mkFaultIo (log_init clock old) None)) as Hinit.
  { split; [by apply book_init|]. cbn. apply (log_reach_ok fsync_every_n_ fsync_interval_ clock Hn old); [done|apply rtc_refl]. }
  unfold fault_reach in Hr. revert Hinit. induction Hr; eauto using fault_step_ok.
Qed.

Lemma killed_power_lost f : power_lost f (killed_file f).
Proof. by eexists. Qed.

(** C27: What a crash and a failing disk can do to the log.  While no call has
    failed, a process that is killed at any point leaves a file that reads as a
    prefix of what was logged; everything that [fsync] has covered is in it and at
    most [fsync_every_n_] events are missing.  A power failure leaves a file that
    begins with everything that [fsync] has covered, which is all but the last
    [fsync_every_n_] events at most; what follows there may be anything.  Once a
    call has failed, whatever it did, both leave a file that begins with all events
    that were synced before it, those of earlier runs included, and nothing more
    can be said: the object counts every record as written, and as durable after
    every [fsync], whether or not the calls have succeeded. *)
Theorem wal_failures_contained old s :
  Forall record_ok old → fault_reach old s →
  let io := fo_io s in
  let killed := read_log (killed_file (io_file io)) in
  wal_durable (io_wal io) ++ wal_unsynced (io_wal io) = (io_log io).*2 ∧
  records_written_ (io_wal io) = u64 (Z.of_nat (length (io_log io)) - Z.of_nat (length old)) ∧
  unsynced_count_ (io_wal io) = Z.of_nat (length (wal_unsynced (io_wal io))) ∧
  unsynced_count_ (io_wal io) ≤ fsync_every_n_ ∧
  match fo_mark s with
  | None =>
      wal_durable (io_wal io) `prefix_of` killed ∧ killed `prefix_of` (io_log io).*2 ∧
      Z.of_nat (length (io_log io)) ≤ Z.of_nat (length killed) + fsync_every_n_ ∧
      (∀ bs, power_lost (io_file io) bs → wal_durable (io_wal io) `prefix_of` read_log bs) ∧
      Z.of_nat (length (io_log io)) ≤ Z.of_nat (length (wal_durable (io_wal io))) + fsync_every_n_
  | Some synced =>
      old.*2 `prefix_of` synced ∧ synced `prefix_of` (io_log io).*2 ∧ synced `prefix_of` killed ∧
      ∀ bs, power_lost (io_file io) bs → synced `prefix_of` read_log bs
  end.
Proof.
  intros Hold Hr. destruct (fault_reach_ok old s Hold Hr) as [[_ _ He _ Hc Hw Hwin _] Hm]. cbv zeta.
  split_and!; [done|done|done|rewrite Hc; destruct (io_pc (fo_io s)); lia|]. destruct (fo_mark s) as [synced|].
  - destruct Hm as (Hd & Hp & Ho). split_and!; [done..|by apply (read_log_on_disk _ _ _ Hd), killed_power_lost|].
    intros bs. by apply read_log_on_disk.
  - destruct (log_ok_killed fsync_every_n_ clock Hn _ Hm) as (H1 & H2 & H3). split_and!; [done..| |by eapply log_ok_window].
    intros bs. by apply read_log_on_disk, synced_on_disk.
Qed.

End WalFaults.

(** ** A record that is lost without a trace

    Three orders.  The [fwrite] of the second fails, say because the disk is full,
    and the others succeed. *)

Lemma crash_event_record i : (i < 1000)%nat → padding_ok no_padding ∧ event_fits (crash_event i).
Proof. intros Hi. split; [by repeat split|]. constructor; cbn; word_lia. Qed.

(** What follows the [fwrite] when every record is synced. *)
Lemma syncs d b w log m :
  wal_open w = true → unsynced_count_ w = 1 →
  rtc (fault_step 1 50000000 (λ _, 0)) (mkFaultIo (mkIo (mkFile d [] b) w IoWrote log) m)
    (mkFaultIo (mkIo (mkFile (d ++ b) [] []) (sync_now (λ _, 0) (wal_ticks w) w) IoIdle log) m).
Proof.
  intros Ho Hc. eapply rtc_l; [eapply fs_works, (io_fflush _ _ _ _ _ _ _ (sync_now (λ _, 0) (wal_ticks w) w) _ _ false); [by right|..]|].
  - unfold sync_due. by rewrite Hc.
  - unfold maybe_fsync. by rewrite Hc, Ho.
  - eapply rtc_once, fs_works, io_fsync.
Qed.

(** [append], with an [fwrite] that works or writes nothing. *)
Definition appended (i : nat) (w : Wal) : Wal := sync_now (λ _, 0) (wal_ticks w) (record_fwrite (crash_event i) w).

Lemma append_works d w log i m :
  wal_open w = true → unsynced_count_ w = 0 → (i < 1000)%nat →
  rtc (fault_step 1 50000000 (λ _, 0)) (mkFaultIo (mkIo (mkFile d [] []) w IoIdle log) m)
    (mkFaultIo (mkIo (mkFile (d ++ event_bytes no_padding (crash_event i)) [] []) (appended i w) IoIdle
       (log ++ [(no_padding, crash_event i)])) m).
Proof.
  intros Ho Hc Hi. destruct (crash_event_record i Hi) as [Hp Hev].
  eapply rtc_l; [by apply fs_works, (io_fwrite _ _ _ _ _ _ _ _ no_padding (crash_event i) 0)|].
  apply syncs; [done|]. cbn. by rewrite Hc.
Qed.

Lemma append_fails d w log i :
  wal_open w = true → unsynced_count_ w = 0 → (i < 1000)%nat →
  rtc (fault_step 1 50000000 (λ _, 0)) (mkFaultIo (mkIo (mkFile d [] []) w IoIdle log) None)
    (mkFaultIo (mkIo (mkFile d [] []) (appended i w) IoIdle (log ++ [(no_padding, crash_event i)])) (Some (wal_durable w))).
Proof.
  intros Ho Hc Hi. destruct (crash_event_record i Hi) as [Hp Hev].
  eapply rtc_l; [eapply (fs_fails _ _ _ _ _ _ (mkFile d [] [])); [by apply (io_fwrite _ _ _ d [] [] w log no_padding (crash_event i) 0)|done]|].
  cbn [io_wal io_pc io_log default]. rewrite <-(app_nil_r d) at 2. apply syncs; [done|]. cbn. by rewrite Hc.
Qed.

Definition lost_wal : Wal := appended 2 (appended 1 (appended 0 (io_wal (log_init (λ _, 0) [])))).

Definition lost_state : FaultIo :=
  mkFaultIo (mkIo (mkFile (log_bytes (crash_records 1) ++ event_bytes no_padding (crash_event 2)) [] []) lost_wal IoIdle
    (crash_records 3)) (Some [crash_event 0]).

Lemma lost_reach : fault_reach 1 50000000 (λ _, 0) [] lost_state.
Proof.
  unfold fault_reach. etrans; [apply (append_works [] _ [] 0); [done|done|lia]|].
  etrans; [apply (append_fails _ _ _ 1); [done|done|lia]|].
  refine (eq_ind _ (rtc _ _) (append_works _ _ _ 2 _ _ _ _) _ _); [done|done|lia|vm_compute; reflexivity].
Qed.

(** All three are counted as written and durable, nothing is reported, and the
    file is a readable log in which the second order is missing. *)
Theorem wal_failure_silent :
  fault_reach 1 50000000 (λ _, 0) [] lost_state ∧
  records_written_ lost_wal = 3 ∧ unsynced_count_ lost_wal = 0 ∧
  wal_durable lost_wal = crash_event <$> [0; 1; 2]%nat ∧
  read_log (killed_file (io_file (fo_io lost_state))) = crash_event <$> [0; 2]%nat.
Proof. split; [apply lost_reach|]. split_and!; vm_compute; reflexivity. Qed.

Lemma wal_failures_contained_witness :
  fault_reach 1 50000000 (λ _, 0) [] lost_state ∧
  [crash_event 0] `prefix_of` read_log (killed_file (io_file (fo_io lost_state))).
Proof.
  destruct (wal_failures_contained 1 50000000 (λ _, 0) ltac:(lia) [] lost_state (Forall_nil_2 _) lost_reach)
    as (_ & _ & _ & _ & _ & _ & Hpre & _).
  exact (conj lost_reach Hpre).
Defined.
