(* ===== verification/Db.v ===== *)
(** * Db: the SQLite consumer

    Models [include/db_consumer.hpp].  SQLite is not part of the repository: it
    is a parameter ([Sqlite]) with its documented behaviour as laws
    ([SqliteFaultLaws], [SqliteKeyLaws]): any call may fail, inserts take effect in
    the open transaction, which a failing one may roll back, and [COMMIT] makes it
    durable.  [step_checked] prints a failed insert and goes on; [exec] throws, and
    [None] is that exception, which nothing catches.  [MemDb] is an instance. *)

From Stdlib Require Import String.
From S2P Require Import Prelude Types SpscRing BroadcastRing Consumer.

#[local] Open Scope Z_scope.

(** ** Rows *)

(** The columns of [orders], as [sqlite3_int64] or [int]. *)
Record OrderRow := mkOrderRow {
  or_seq_num : Z; or_ts_ns : Z; or_event_type : Z; or_session_id : Z;
  or_client_order_id : Z; or_side : Z; or_price : Z; or_quantity : Z }.

(** The columns of [execution_reports] but the row id. *)
Record ExecRow := mkExecRow {
  er_ts_ns : Z; er_session_id : Z; er_client_order_id : Z; er_exchange_order_id : Z;
  er_status : Z; er_fill_price : Z; er_fill_quantity : Z; er_leaves_quantity : Z }.

(** The bindings of [append_order]. *)
Definition order_row (ev : SequencedEvent) : OrderRow :=
  mkOrderRow (i64 (ev_seq_num ev)) (i64 (ev_sequence_ts ev)) (event_type_code (ev_type ev))
    (ev_session ev) (i64 (ev_client_order_id ev)) (ev_side_byte ev)
    (ev_price ev) (ev_quantity ev).

(** The bindings of [append_execution_report]; [ts] is [wall_clock_ns()]. *)
Definition exec_row (ts : Z) (ack : OutboundAck) : ExecRow :=
  mkExecRow (i64 ts) (a_session ack) (i64 (a_client_order_id ack)) (i64 (a_exchange_order_id ack))
    (exec_status_code (a_status ack)) (a_fill_price ack) (a_fill_quantity ack)
    (a_leaves_quantity ack).

Record Tables := mkTables { tb_orders : list OrderRow; tb_execs : list ExecRow }.

(** A row of either table, and the tables with it. *)
Inductive Row := ROrder (r : OrderRow) | RExec (r : ExecRow).

Definition add_row (T : Tables) (r : Row) : Tables :=
  match r with
  | ROrder r => mkTables (tb_orders T ++ [r]) (tb_execs T)
  | RExec r => mkTables (tb_orders T) (tb_execs T ++ [r])
  end.

(** ** SQLite as an interface *)

Class Sqlite (D : Type) := {
  sq_schema : D → option D;                  (* pragmas, CREATE ... IF NOT EXISTS, prepare *)
  sq_begin : D → option D;                   (* BEGIN; [None] is an error *)
  sq_commit : D → option D;                  (* COMMIT *)
  sq_insert_order : OrderRow → D → bool * D; (* [true] is SQLITE_DONE *)
  sq_insert_exec : ExecRow → D → bool * D;
  (* the durable tables, and the tables as the open transaction sees them *)
  sq_rep : D → Tables → option Tables → Prop
}.

(** [sqlite3_step] of the prepared statement for the row. *)
Definition sq_insert {D} `{Sqlite D} (r : Row) (d : D) : bool * D :=
  match r with ROrder r => sq_insert_order r d | RExec r => sq_insert_exec r d end.

(** Any call may fail.  A statement that succeeds has taken effect, in the open
    transaction or, when there is none, at once.  One that fails has not, and may
    have rolled the transaction back; [BEGIN] fails inside of a transaction and
    [COMMIT] outside of one. *)
Class SqliteFaultLaws (D : Type) `{Sqlite D} : Prop := {
  sf_schema d d' T : sq_rep d T None → sq_schema d = Some d' → sq_rep d' T None;
  sf_begin d d' T o : sq_rep d T o → sq_begin d = Some d' → o = None ∧ sq_rep d' T (Some T);
  sf_commit d d' T o : sq_rep d T o → sq_commit d = Some d' → ∃ T', o = Some T' ∧ sq_rep d' T' None;
  sf_insert d T o r : sq_rep d T o →
    let '(ok, d') := sq_insert r d in
    if ok : bool then
      match o with
      | Some T' => sq_rep d' T (Some (add_row T' r))
      | None => sq_rep d' (add_row T r) None
      end
    else sq_rep d' T o ∨ sq_rep d' T None
}.

(** [seq_num INTEGER PRIMARY KEY]: a second row under the same key is refused. *)
Class SqliteKeyLaws (D : Type) `{Sqlite D} : Prop := {
  sk_unique d T o r : sq_rep d T o → or_seq_num r ∈ or_seq_num <$> tb_orders (default T o) →
    (sq_insert_order r d).1 = false
}.

(** A flush at [d] throws. *)
Definition sq_stops {D} `{Sqlite D} (d : D) : Prop :=
  sq_commit d = None ∨ ∃ d', sq_commit d = Some d' ∧ sq_begin d' = None.

(** ... at once, or after one more row. *)
Definition sq_refuses {D} `{Sqlite D} (d : D) : Prop :=
  sq_stops d ∨ ∃ r, sq_stops (sq_insert r d).2.

(** ** The consumer *)

Record Db (D : Type) := mkDb {
  db_ : option D;          (* None: not open *)
  in_txn_ : bool;
  pending_ : Z;
  last_flush_ : Z;
  orders_written_ : Z;
  execs_written_ : Z;
  db_ticks : nat;          (* readings of the steady clock so far *)
  db_walls : nat;          (* readings of the wall clock so far *)
  db_stderr : list string  (* what [step_checked] has complained about *)
}.
Arguments mkDb {D} _ _ _ _ _ _ _ _ _.
Arguments db_ {D} _.
Arguments in_txn_ {D} _.
Arguments pending_ {D} _.
Arguments last_flush_ {D} _.
Arguments orders_written_ {D} _.
Arguments execs_written_ {D} _.
Arguments db_ticks {D} _.
Arguments db_walls {D} _.
Arguments db_stderr {D} _.

Section Db.
Context {D : Type} `{Sqlite D}.
(** [batch_every_n_], [batch_interval_] in nanoseconds, and the clocks. *)
Context (batch_every_n_ batch_interval_ : Z) (clock wall : nat → Z).

Definition db_new : Db D := mkDb None false 0 0 0 0 0 0 [].

(** [open()]; [file] is what [sqlite3_open] yields.  The outer [None] is an
    exception. *)
Definition db_open (file : option D) (s : Db D) : option (bool * Db D) :=
  match file with
  | None =>
      (* close(): a forced flush with no transaction open *)
      Some (false, mkDb None false 0 (clock (db_ticks s)) (orders_written_ s) (execs_written_ s)
                     (S (db_ticks s)) (db_walls s) (db_stderr s))
  | Some d =>
      d1 ← sq_schema d;
      d2 ← sq_begin d1;
      Some (true, mkDb (Some d2) true (pending_ s) (clock (db_ticks s)) (orders_written_ s)
                    (execs_written_ s) (S (db_ticks s)) (db_walls s) (db_stderr s))
  end.

(** [COMMIT], the bookkeeping, and [BEGIN] unless [force]. *)
Definition flush_now (force : bool) (ticks : nat) (s : Db D) : option (Db D) :=
  d ← db_ s;
  d1 ← (if in_txn_ s then sq_commit d else Some d);
  if force then
    Some (mkDb (Some d1) false 0 (clock ticks) (orders_written_ s) (execs_written_ s) (S ticks) (db_walls s) (db_stderr s))
  else
    d2 ← sq_begin d1;
    Some (mkDb (Some d2) true 0 (clock ticks) (orders_written_ s) (execs_written_ s) (S ticks) (db_walls s) (db_stderr s)).

Definition maybe_flush (force : bool) (s : Db D) : option (Db D) :=
  if (pending_ s =? 0) && negb force then Some s
  else if negb force && (pending_ s <? batch_every_n_) then
    if clock (db_ticks s) - last_flush_ s <? batch_interval_
    then Some (mkDb (db_ s) (in_txn_ s) (pending_ s) (last_flush_ s) (orders_written_ s)
                 (execs_written_ s) (S (db_ticks s)) (db_walls s) (db_stderr s))
    else flush_now force (S (db_ticks s)) s
  else flush_now force (db_ticks s) s.

(** [step_checked] reports a failed insert and goes on. *)
Definition step_report (ok : bool) (what : string) (err : list string) : list string :=
  if ok then err else err ++ [what].

Definition append_order (ev : SequencedEvent) (s : Db D) : option (Db D) :=
  d ← db_ s;
  let '(ok, d') := sq_insert_order (order_row ev) d in
  maybe_flush false
    (mkDb (Some d') (in_txn_ s) (u64 (pending_ s + 1)) (last_flush_ s) (u64 (orders_written_ s + 1))
       (execs_written_ s) (db_ticks s) (db_walls s) (step_report ok "insert orders" (db_stderr s))).

Definition append_execution_report (ack : OutboundAck) (s : Db D) : option (Db D) :=
  d ← db_ s;
  let '(ok, d') := sq_insert_exec (exec_row (wall (db_walls s)) ack) d in
  maybe_flush false
    (mkDb (Some d') (in_txn_ s) (u64 (pending_ s + 1)) (last_flush_ s) (orders_written_ s)
       (u64 (execs_written_ s + 1)) (db_ticks s) (S (db_walls s))
       (step_report ok "insert execution_reports" (db_stderr s))).

(** [close()] hands the file back. *)
Definition db_close (s : Db D) : option (option D * Db D) :=
  match db_ s with
  | None => Some (None, s)
  | Some _ =>
      s' ← maybe_flush true s;
      Some (db_ s', mkDb None (in_txn_ s') (pending_ s') (last_flush_ s') (orders_written_ s')
                      (execs_written_ s') (db_ticks s') (db_walls s') (db_stderr s'))
  end.

(** [run()] takes only these. *)
Definition is_order (ev : SequencedEvent) : bool :=
  match ev_type ev with EvNewOrder | EvCancelOrder => true | _ => false end.

End Db.

(** ** What the tables hold *)

Definition complaints (what : string) (err : list string) : nat := length (filter (λ x, x = what) err).

(** The tables [T] are [T0] with the rows for the orders [l] and the acks [acks]
    behind it, in their order, but for as many as were complained about. *)
Record kept_rows (wall : nat → Z) (T0 : Tables) (l : list SequencedEvent) (acks : list OutboundAck)
    (err : list string) (T : Tables) : Prop := {
  kr_orders : ∃ rows, tb_orders T = tb_orders T0 ++ rows ∧ rows `sublist_of` (order_row <$> l) ∧
    (length rows + complaints "insert orders" err)%nat = length l;
  kr_execs : ∃ rows, tb_execs T = tb_execs T0 ++ rows ∧ rows `sublist_of` imap (λ i a, exec_row (wall i) a) acks ∧
    (length rows + complaints "insert execution_reports" err)%nat = length acks
}.

Lemma complaints_snoc what what' err :
  complaints what (err ++ [what']) = (complaints what err + if decide (what' = what) then 1 else 0)%nat.
Proof. unfold complaints. rewrite filter_app, length_app, filter_cons, filter_nil. by destruct (decide _). Qed.

Lemma sublist_length_eq {X} (l k : list X) : l `sublist_of` k → (length k ≤ length l)%nat → l = k.
Proof.
  induction 1 as [|x l k _ IH|x l k Hs _]; intros Hl; [done|f_equal; apply IH; cbn in Hl; lia|].
  apply sublist_length in Hs. cbn in Hl. lia.
Qed.

(** Nothing was complained about: everything is there. *)
Lemma kept_rows_all wall T0 l acks T :
  kept_rows wall T0 l acks [] T →
  T = mkTables (tb_orders T0 ++ (order_row <$> l)) (tb_execs T0 ++ imap (λ i a, exec_row (wall i) a) acks).
Proof.
  intros [(ro & Ho & Hso & Hlo) (re & He & Hse & Hle)]. unfold complaints in *. cbn in Hlo, Hle.
  apply sublist_length_eq in Hso; [|rewrite length_fmap; lia]. apply sublist_length_eq in Hse; [|rewrite length_imap; lia].
  destruct T. cbn in *. by subst.
Qed.

Lemma kept_rows_nil wall T0 : kept_rows wall T0 [] [] [] T0.
Proof. split; exists []; rewrite app_nil_r; by split_and!. Qed.

Section DbProofs.
Context {D : Type} `{SqliteFaultLaws D}.
Context (batch_every_n_ batch_interval_ : Z) (clock wall : nat → Z).
Hypothesis Hn : 0 < batch_every_n_ < 2 ^ 64.

(** The consumer has written [l] and [acks].  The rows are in the open
    transaction, or SQLite has rolled it back and the next flush throws. *)
Record db_inv (T0 : Tables) (l : list SequencedEvent) (acks : list OutboundAck) (s : Db D) : Prop := {
  di_db : ∃ d T, db_ s = Some d ∧
    ((∃ T', sq_rep d T (Some T') ∧ kept_rows wall T0 l acks (db_stderr s) T') ∨ sq_rep d T None);
  di_txn : in_txn_ s = true;
  di_pending : 0 ≤ pending_ s;
  di_walls : db_walls s = length acks;
  di_orders : orders_written_ s = u64 (Z.of_nat (length l));
  di_execs : execs_written_ s = u64 (Z.of_nat (length acks))
}.

(** The durable tables at the end. *)
Definition db_final (T0 : Tables) (l : list SequencedEvent) (acks : list OutboundAck) (d : D) (s : Db D) : Prop :=
  ∃ T, sq_rep d T None ∧ kept_rows wall T0 l acks (db_stderr s) T ∧
    orders_written_ s = u64 (Z.of_nat (length l)) ∧ execs_written_ s = u64 (Z.of_nat (length acks)).

Lemma db_inv_window T0 l acks s ticks :
  db_inv T0 l acks s →
  db_inv T0 l acks (mkDb (db_ s) (in_txn_ s) (pending_ s) (last_flush_ s) (orders_written_ s)
                     (execs_written_ s) ticks (db_walls s) (db_stderr s)).
Proof. by intros []. Qed.

(** Committing either leaves all rows that were not complained about, or throws
    because SQLite refuses. *)
Lemma flush_now_ok T0 l acks s force ticks :
  db_inv T0 l acks s →
  match flush_now clock force ticks s with
  | Some s' => if force : bool then ∃ d, db_ s' = Some d ∧ db_final T0 l acks d s'
               else db_inv T0 l acks s' ∧ pending_ s' = 0
  | None => ∃ d, db_ s = Some d ∧ sq_stops d
  end.
Proof.
  intros [(d & T & Hd & Hrep) Ht _ Hw Ho He]. unfold flush_now. rewrite Hd, Ht. cbn [mbind option_bind].
  destruct (sq_commit d) as [d1|] eqn:Hc; cbn [mbind option_bind]; [|exists d; split; [done|by left]].
  assert (∃ T', sq_rep d1 T' None ∧ kept_rows wall T0 l acks (db_stderr s) T') as (T' & Hrep1 & Hk).
  { destruct Hrep as [(T' & Hrep & Hk)|Hrep]; destruct (sf_commit _ _ _ _ Hrep Hc) as (T1 & [= <-] & ?). by exists T'. }
  destruct force; [exists d1; split; [done|by exists T']|].
  destruct (sq_begin d1) as [d2|] eqn:Hb; cbn [mbind option_bind].
  - destruct (sf_begin _ _ _ _ Hrep1 Hb) as [_ Hrep2]. split; [|done]. split; cbn; try done.
    exists d2, T'. split; [done|]. left. by exists T'.
  - exists d. split; [done|]. right. by exists d1.
Qed.

(** A non-forced flush leaves less than a batch uncommitted. *)
Lemma maybe_flush_ok T0 l acks s :
  db_inv T0 l acks s →
  match maybe_flush batch_every_n_ batch_interval_ clock false s with
  | Some s' => db_inv T0 l acks s' ∧ pending_ s' < batch_every_n_
  | None => ∃ d, db_ s = Some d ∧ sq_stops d
  end.
Proof.
  intros Hinv. unfold maybe_flush. cbn [negb andb].
  destruct (Z.eqb_spec (pending_ s) 0) as [Hz|Hz]; cbn [andb]; [split; [done|lia]|].
  assert (∀ ticks, match flush_now clock false ticks s with
    | Some s' => db_inv T0 l acks s' ∧ pending_ s' < batch_every_n_
    | None => ∃ d, db_ s = Some d ∧ sq_stops d end) as Hflush.
  { intros ticks. pose proof (flush_now_ok T0 l acks s false ticks Hinv) as Hf.
    destruct (flush_now clock false ticks s) as [s'|]; [|done]. destruct Hf as [Hi Hp]. split; [done|lia]. }
  destruct (Z.ltb_spec (pending_ s) batch_every_n_); [|apply Hflush].
  destruct (_ <? _); [|apply Hflush]. split; [by apply db_inv_window|done].
Qed.

Lemma kept_order T0 l acks err T ev (ok : bool) :
  kept_rows wall T0 l acks err T →
  kept_rows wall T0 (l ++ [ev]) acks (step_report ok "insert orders" err)
    (if ok then add_row T (ROrder (order_row ev)) else T).
Proof.
  intros [(ro & Ho & Hso & Hlo) (re & He & Hse & Hle)]. unfold step_report. destruct ok; split; cbn.
  - exists (ro ++ [order_row ev]). rewrite Ho, app_assoc, fmap_app, !length_app. cbn. split_and!; [done|by apply sublist_app|lia].
  - by exists re.
  - exists ro. rewrite complaints_snoc, decide_True, fmap_app, length_app by done. cbn. split_and!; [done|by apply sublist_inserts_r|lia].
  - exists re. rewrite complaints_snoc, decide_False by done. cbn. split_and!; [done..|lia].
Qed.

Lemma kept_exec T0 l acks err T a (ok : bool) :
  kept_rows wall T0 l acks err T →
  kept_rows wall T0 l (acks ++ [a]) (step_report ok "insert execution_reports" err)
    (if ok then add_row T (RExec (exec_row (wall (length acks)) a)) else T).
Proof.
  intros [(ro & Ho & Hso & Hlo) (re & He & Hse & Hle)]. unfold step_report.
  destruct ok; split; cbn; rewrite ?imap_app; cbn; rewrite ?Nat.add_0_r.
  - by exists ro.
  - exists (re ++ [exec_row (wall (length acks)) a]). rewrite He, app_assoc, !length_app. cbn.
    split_and!; [done|by apply sublist_app|lia].
  - exists ro. rewrite complaints_snoc, decide_False by done. cbn. split_and!; [done..|lia].
  - exists re. rewrite complaints_snoc, decide_True, length_app by done. cbn. split_and!; [done|by apply sublist_inserts_r|lia].
Qed.

(** One more row, whatever becomes of it. *)
Lemma insert_kept (kept : Tables → Prop) (kept' : bool → Tables → Prop) r d T :
  (∀ ok T', kept T' → kept' ok (if ok : bool then add_row T' r else T')) →
  ((∃ T', sq_rep d T (Some T') ∧ kept T') ∨ sq_rep d T None) →
  let '(ok, d') := sq_insert r d in
  ∃ T1, (∃ T', sq_rep d' T1 (Some T') ∧ kept' ok T') ∨ sq_rep d' T1 None.
Proof.
  intros Hk Hrep. destruct (sq_insert r d) as [ok d'] eqn:Hi. destruct Hrep as [(T' & Hrep & HT')|Hrep];
    pose proof (sf_insert _ _ _ r Hrep) as Hlaw; rewrite Hi in Hlaw; specialize (Hk ok).
  - destruct ok; [exists T; left; eexists; split; [exact Hlaw|by apply (Hk T')]|].
    exists T. destruct Hlaw as [?|?]; [left; exists T'; split; [done|by apply Hk]|by right].
  - destruct ok; [by exists (add_row T r); right|]. exists T. right. by destruct Hlaw.
Qed.

Lemma append_order_ok T0 l acks ev s :
  db_inv T0 l acks s → pending_ s < batch_every_n_ →
  match append_order batch_every_n_ batch_interval_ clock ev s with
  | Some s' => db_inv T0 (l ++ [ev]) acks s' ∧ pending_ s' < batch_every_n_
  | None => ∃ d, db_ s = Some d ∧ sq_refuses d
  end.
Proof.
  intros [(d & T & Hd & Hrep) Ht Hp0 Hw Ho He] Hlt. unfold append_order. rewrite Hd. cbn [mbind option_bind].
  pose proof (insert_kept _ (λ ok, kept_rows wall T0 (l ++ [ev]) acks (step_report ok "insert orders" (db_stderr s)))
    (ROrder (order_row ev)) d T (λ ok T', kept_order T0 l acks (db_stderr s) T' ev ok) Hrep) as Hins.
  cbn [sq_insert] in Hins. destruct (sq_insert_order (order_row ev) d) as [ok d'] eqn:Hi. destruct Hins as [T1 Hrep1].
  set (s1 := mkDb _ _ _ _ _ _ _ _ _).
  assert (db_inv T0 (l ++ [ev]) acks s1) as Hinv.
  { split; cbn; [by exists d', T1|done| |done| |done].
    - rewrite wrap_unsigned_id by word_lia. lia.
    - rewrite Ho, wrap_unsigned_add_l, length_app. f_equal. cbn. lia. }
  pose proof (maybe_flush_ok _ _ _ _ Hinv) as Hf. destruct (maybe_flush _ _ _ _ s1) as [s'|]; [done|].
  destruct Hf as (d2 & [= <-] & Hst). exists d. split; [done|]. right. exists (ROrder (order_row ev)). cbn. by rewrite Hi.
Qed.

Lemma append_exec_ok T0 l acks a s :
  db_inv T0 l acks s → pending_ s < batch_every_n_ →
  match append_execution_report batch_every_n_ batch_interval_ clock wall a s with
  | Some s' => db_inv T0 l (acks ++ [a]) s' ∧ pending_ s' < batch_every_n_
  | None => ∃ d, db_ s = Some d ∧ sq_refuses d
  end.
Proof.
  intros [(d & T & Hd & Hrep) Ht Hp0 Hw Ho He] Hlt. unfold append_execution_report. rewrite Hd, Hw. cbn [mbind option_bind].
  pose proof (insert_kept _ (λ ok, kept_rows wall T0 l (acks ++ [a]) (step_report ok "insert execution_reports" (db_stderr s)))
    (RExec (exec_row (wall (length acks)) a)) d T (λ ok T', kept_exec T0 l acks (db_stderr s) T' a ok) Hrep) as Hins.
  cbn [sq_insert] in Hins. destruct (sq_insert_exec _ d) as [ok d'] eqn:Hi. destruct Hins as [T1 Hrep1].
  set (s1 := mkDb _ _ _ _ _ _ _ _ _).
  assert (db_inv T0 l (acks ++ [a]) s1) as Hinv.
  { split; cbn; [by exists d', T1|done| |rewrite length_app; cbn; lia|done|].
    - rewrite wrap_unsigned_id by word_lia. lia.
    - rewrite He, wrap_unsigned_add_l, length_app. f_equal. cbn. lia. }
  pose proof (maybe_flush_ok _ _ _ _ Hinv) as Hf. destruct (maybe_flush _ _ _ _ s1) as [s'|]; [done|].
  destruct Hf as (d2 & [= <-] & Hst). exists d. split; [done|]. right.
  exists (RExec (exec_row (wall (length acks)) a)). cbn. by rewrite Hi.
Qed.

Lemma db_close_ok T0 l acks s :
  db_inv T0 l acks s →
  match db_close batch_every_n_ batch_interval_ clock s with
  | Some (f, s') => ∃ d, f = Some d ∧ db_final T0 l acks d s' ∧ db_ s' = None
  | None => ∃ d, db_ s = Some d ∧ sq_stops d
  end.
Proof.
  intros Hinv. destruct (Hinv) as [(d & T & Hd & _) _ _ _ _ _]. unfold db_close. rewrite Hd.
  unfold maybe_flush. cbn [negb andb]. rewrite andb_false_r.
  pose proof (flush_now_ok T0 l acks s true (db_ticks s) Hinv) as Hf.
  destruct (flush_now clock true (db_ticks s) s) as [s'|]; cbn [mbind option_bind]; [|by rewrite <-Hd].
  destruct Hf as (d' & Hd' & Hfin). exists d'. split; [done|]. split; [exact Hfin|done].
Qed.

Lemma db_open_ok d T0 :
  sq_rep d T0 None →
  match db_open clock (Some d) db_new with
  | Some (ok, s) => ok = true ∧ db_inv T0 [] [] s ∧ pending_ s = 0
  | None => sq_schema d = None ∨ ∃ d', sq_schema d = Some d' ∧ sq_begin d' = None
  end.
Proof.
  intros Hrep. unfold db_open. destruct (sq_schema d) as [d1|] eqn:Hs; cbn [mbind option_bind]; [|by left].
  pose proof (sf_schema _ _ _ Hrep Hs) as Hrep1.
  destruct (sq_begin d1) as [d2|] eqn:Hb; cbn [mbind option_bind]; [|right; by exists d1].
  destruct (sf_begin _ _ _ _ Hrep1 Hb) as [_ Hrep2]. split; [done|]. split; [|done]. split; cbn; try done.
  exists d2, T0. split; [done|]. left. exists T0. split; [done|apply kept_rows_nil].
Qed.

End DbProofs.

(** ** An instance: a database in memory *)

Record MemDb := mkMemDb { md_durable : Tables; md_txn : option Tables }.

Definition md_update (f : Tables → Tables) (d : MemDb) : MemDb :=
  match md_txn d with
  | Some t => mkMemDb (md_durable d) (Some (f t))
  | None => mkMemDb (f (md_durable d)) None
  end.

Definition md_tables (d : MemDb) : Tables := default (md_durable d) (md_txn d).

(** The key is taken. *)
Definition md_has (r : OrderRow) (d : MemDb) : bool :=
  bool_decide (or_seq_num r ∈ or_seq_num <$> tb_orders (md_tables d)).

#[export] Instance mem_sqlite : Sqlite MemDb := {
  sq_schema d := Some d;
  sq_begin d := match md_txn d with None => Some (mkMemDb (md_durable d) (Some (md_durable d))) | Some _ => None end;
  sq_commit d := match md_txn d with Some t => Some (mkMemDb t None) | None => None end;
  sq_insert_order r d := if md_has r d then (false, d) else (true, md_update (λ t, add_row t (ROrder r)) d);
  sq_insert_exec r d := (true, md_update (λ t, add_row t (RExec r)) d);
  sq_rep d T o := md_durable d = T ∧ md_txn d = o
}.

Lemma md_update_rep r d T o : sq_rep d T o →
  match o with
  | Some T' => sq_rep (md_update (λ t, add_row t r) d) T (Some (add_row T' r))
  | None => sq_rep (md_update (λ t, add_row t r) d) (add_row T r) None
  end.
Proof. destruct d as [du tx]. intros [<- <-]. by destruct tx. Qed.

#[export] Instance mem_sqlite_laws : SqliteFaultLaws MemDb.
Proof.
  split.
  - by intros d d' T Hrep [= <-].
  - intros [du [t|]] d' T o [<- <-]; cbn; [done|]. by intros [= <-].
  - intros [du [t|]] d' T o [<- <-]; cbn; [|done]. intros [= <-]. by exists t.
  - intros d T o [r|r] Hrep; cbn [sq_insert sq_insert_order sq_insert_exec mem_sqlite].
    + destruct (md_has r d); [by left|]. by apply md_update_rep.
    + by apply md_update_rep.
Qed.

#[export] Instance mem_sqlite_keys : SqliteKeyLaws MemDb.
Proof.
  split. intros [du tx] T o r [<- <-] Hin. cbn. unfold md_has. by rewrite bool_decide_eq_true_2.
Qed.

(** ** Properties *)

Lemma maybe_flush_counts {D} `{Sqlite D} n interval clock force (s s' : Db D) :
  maybe_flush n interval clock force s = Some s' →
  db_stderr s' = db_stderr s ∧ orders_written_ s' = orders_written_ s ∧ execs_written_ s' = execs_written_ s.
Proof.
  assert (∀ ticks, flush_now clock force ticks s = Some s' →
    db_stderr s' = db_stderr s ∧ orders_written_ s' = orders_written_ s ∧ execs_written_ s' = execs_written_ s) as Hf.
  { intros ticks. unfold flush_now. destruct (db_ s) as [d|]; [|done]. cbn [mbind option_bind].
    destruct (if in_txn_ s then sq_commit d else Some d) as [d1|]; [|done]. cbn [mbind option_bind].
    destruct force; [by intros [= <-]|]. destruct (sq_begin d1); [|done]. by intros [= <-]. }
  unfold maybe_flush. destruct (_ && _); [by intros [= <-]|]. destruct (_ && _); [|apply Hf].
  destruct (_ <? _); [by intros [= <-]|apply Hf].
Qed.

(** A row whose sequence number is already in the file is lost.  The insert
    changes nothing (or rolls everything back), [step_checked] complains, and
    [orders_written_] counts the row.  The sequencer starts from 1 in every run,
    so every run after the first on the same file meets this. *)
Theorem db_duplicate_seq_lost {D} `{Sqlite D, !SqliteFaultLaws D, !SqliteKeyLaws D} n interval clock
    (s : Db D) d T o ev :
  db_ s = Some d → sq_rep d T o → or_seq_num (order_row ev) ∈ or_seq_num <$> tb_orders (default T o) →
  (sq_rep (sq_insert_order (order_row ev) d).2 T o ∨ sq_rep (sq_insert_order (order_row ev) d).2 T None) ∧
  ∀ s', append_order n interval clock ev s = Some s' →
    db_stderr s' = db_stderr s ++ ["insert orders"%string] ∧ orders_written_ s' = u64 (orders_written_ s + 1).
Proof.
  intros Hd Hrep Hin. pose proof (sk_unique _ _ _ _ Hrep Hin) as Hk. pose proof (sf_insert _ _ _ (ROrder (order_row ev)) Hrep) as Hl.
  unfold append_order. rewrite Hd. cbn in Hl |- *.
  destruct (sq_insert_order (order_row ev) d) as [ok d']. cbn in Hk. subst ok. split; [done|].
  intros s' (-> & -> & _)%maybe_flush_counts. done.
Qed.

(** ** An example *)

Definition demo_event : SequencedEvent := mkEvent 1 0 9 EvNewOrder Gateway 5 7 Buy 100 3.
Definition demo_ack : OutboundAck := mkAck 5 7 1 Accepted 0 0 3.
Definition demo_file : MemDb := mkMemDb (mkTables [] []) None.
Definition demo_clock (k : nat) : Z := 10 * Z.of_nat k.

(** A file that an earlier run left with sequence number 1 in it. *)
Definition demo_old : Tables := mkTables [order_row demo_event] [].

Lemma mem_rep T : sq_rep (mkMemDb T None) T None.
Proof. done. Qed.

Lemma db_duplicate_seq_lost_witness :
  ∃ s s', db_open demo_clock (Some (mkMemDb demo_old None)) db_new = Some (true, s) ∧
    append_order 2 50 demo_clock demo_event s = Some s' ∧ orders_written_ s' = 1 ∧
    db_stderr s' = ["insert orders"%string] ∧ md_tables <$> db_ s' = Some demo_old.
Proof.
  destruct (db_open demo_clock (Some (mkMemDb demo_old None)) db_new) as [[[|] s]|] eqn:Hs; try (vm_compute in Hs; discriminate).
  destruct (append_order 2 50 demo_clock demo_event s) as [s'|] eqn:Hs';
    [|vm_compute in Hs; injection Hs as <-; vm_compute in Hs'; discriminate].
  exists s, s'. destruct (db_duplicate_seq_lost 2 50 demo_clock s (mkMemDb demo_old (Some demo_old)) demo_old (Some demo_old) demo_event)
    as (_ & Hlost); [vm_compute in Hs; by injection Hs as <-|done|vm_compute; left|].
  destruct (Hlost s' Hs') as [He Ho]. vm_compute in Hs. injection Hs as <-. vm_compute in Hs'. injection Hs' as <-.
  split_and!; [reflexivity|reflexivity|exact Ho|exact He|reflexivity].
Defined.
