(* ===== verification/DbFaults.v ===== *)
(** * DbFaults: the database consumer when SQLite fails

    [Db] accounts for the rows at the end.  Here is every moment before it, when
    any call of [include/db_consumer.hpp] may fail, as the documentation of SQLite
    allows: [sqlite3_step] may fail with or without rolling back the open
    transaction, [COMMIT] and [BEGIN] may return an error.  [step_checked] prints
    the error and goes on; [exec] throws, and nothing on the thread catches it, so
    that [None] ends the process by [std::terminate].  [FaultDb] is an instance
    that follows a script of faults. *)

From S2P Require Import Prelude Types SpscRing BroadcastRing Consumer Db.

#[local] Open Scope Z_scope.

Definition tables_of (T0 : Tables) (rows : list Row) : Tables := foldl add_row T0 rows.

(** ** What the thread does *)

Section Writes.
Context {D : Type} `{Sqlite D}.
Context (batch_every_n_ batch_interval_ : Z) (clock wall : nat → Z).

(** What [run()] does to the database: write an order or a report, or flush at
    the end of a pass. *)
Inductive DbOp := OpOrder (ev : SequencedEvent) | OpReport (a : OutboundAck) | OpPass.

(** The state after the operation, and the row that it has written unless
    [step_checked] has complained about it. *)
Definition db_op (x : DbOp) (s : Db D) : option (list Row * Db D) :=
  let done (r : Row) (d : D) := if (sq_insert r d).1 then [r] else [] in
  match x with
  | OpOrder ev =>
      d ← db_ s;
      s' ← append_order batch_every_n_ batch_interval_ clock ev s;
      Some (done (ROrder (order_row ev)) d, s')
  | OpReport a =>
      d ← db_ s;
      s' ← append_execution_report batch_every_n_ batch_interval_ clock wall a s;
      Some (done (RExec (exec_row (wall (db_walls s)) a)) d, s')
  | OpPass =>
      s' ← maybe_flush batch_every_n_ batch_interval_ clock false s;
      Some ([], s')
  end.

(** [None]: the thread has died of an exception. *)
Fixpoint db_ops (xs : list DbOp) (s : Db D) : option (list Row * Db D) :=
  match xs with
  | [] => Some ([], s)
  | x :: xs =>
      '(r, s1) ← db_op x s;
      '(rows, s2) ← db_ops xs s1;
      Some (r ++ rows, s2)
  end.

Definition writes (x : DbOp) : nat := match x with OpPass => 0 | _ => 1 end.

End Writes.

Section Faults.
Context {D : Type} `{SqliteFaultLaws D}.
Context (batch_every_n_ batch_interval_ : Z) (clock wall : nat → Z).
Hypothesis Hn : 0 < batch_every_n_ < 2 ^ 64.

(** What SQLite holds, when [rows] were written: [kept] is durable and, while
    the transaction stands, [lost] is in it.  Once SQLite has rolled it back,
    [lost] is gone and every [later] row is durable at once. *)
Definition held (T0 : Tables) (rows : list Row) (pending : Z) (d : D) : Prop :=
  ∃ kept lost later, rows = kept ++ lost ++ later ∧ Z.of_nat (length (lost ++ later)) ≤ pending ∧
    (later = [] ∧ sq_rep d (tables_of T0 kept) (Some (tables_of T0 rows)) ∨
     sq_rep d (tables_of T0 (kept ++ later)) None).

Record fault_inv (T0 : Tables) (rows : list Row) (s : Db D) : Prop := {
  fi_db : ∃ d, db_ s = Some d ∧ held T0 rows (pending_ s) d;
  fi_txn : in_txn_ s = true;
  fi_pending : 0 ≤ pending_ s < batch_every_n_
}.

Lemma tables_of_app T0 k l : tables_of T0 (k ++ l) = tables_of (tables_of T0 k) l.
Proof. apply foldl_app. Qed.

(** One insert, whatever becomes of it. *)
Lemma held_insert T0 rows p d r :
  held T0 rows p d → let '(ok, d') := sq_insert r d in
  held T0 (rows ++ if ok : bool then [r] else []) (p + 1) d'.
Proof.
  intros (kept & lost & later & Hrows & Hp & Hrep). destruct (sq_insert r d) as [ok d'] eqn:Hi.
  assert (∀ T o, sq_rep d T o → if ok then match o with Some T' => sq_rep d' T (Some (add_row T' r))
            | None => sq_rep d' (add_row T r) None end else sq_rep d' T o ∨ sq_rep d' T None) as Hlaw.
  { intros T o Hr. pose proof (sf_insert d T o r Hr) as Hl. by rewrite Hi in Hl. }
  destruct Hrep as [[-> Hrep]|Hrep]; specialize (Hlaw _ _ Hrep); destruct ok.
  - exists kept, (lost ++ [r]), []. rewrite !app_nil_r in *. subst rows. split_and!.
    + by rewrite app_assoc.
    + rewrite length_app. cbn. lia.
    + left. split; [done|]. by rewrite tables_of_app.
  - exists kept, lost, []. rewrite !app_nil_r in *. split_and!; [done|lia|].
    destruct Hlaw as [Hr|Hr]; [by left|by right].
  - exists kept, lost, (later ++ [r]). subst rows. split_and!.
    + by rewrite <-!app_assoc.
    + rewrite !length_app in *. cbn. lia.
    + right. by rewrite app_assoc, tables_of_app.
  - exists kept, lost, later. rewrite !app_nil_r. split_and!; [done|lia|]. right. by destruct Hlaw.
Qed.

(** A flush that does not throw has committed everything. *)
Lemma held_flush T0 rows p d d1 d2 :
  held T0 rows p d → sq_commit d = Some d1 → sq_begin d1 = Some d2 → held T0 rows 0 d2.
Proof.
  intros (kept & lost & later & -> & _ & Hrep) Hc Hb. exists (kept ++ lost ++ later), [], []. rewrite !app_nil_r.
  split_and!; [done|cbn; lia|]. left. split; [done|]. destruct Hrep as [[_ Hrep]|Hrep].
  - destruct (sf_commit _ _ _ _ Hrep Hc) as (T' & [= <-] & Hrep').
    by destruct (sf_begin _ _ _ _ Hrep' Hb) as [_ ?].
  - by destruct (sf_commit _ _ _ _ Hrep Hc) as (? & ? & _).
Qed.

(** [maybe_flush(false)], when it does not throw. *)
Lemma flush_faults T0 rows s s' d :
  db_ s = Some d → held T0 rows (pending_ s) d → in_txn_ s = true → 0 ≤ pending_ s →
  maybe_flush batch_every_n_ batch_interval_ clock false s = Some s' → fault_inv T0 rows s'.
Proof.
  intros Hd Hh Ht Hp. unfold maybe_flush. cbn [negb andb].
  assert (∀ ticks s', flush_now clock false ticks s = Some s' → fault_inv T0 rows s') as Hflush.
  { intros ticks s1. unfold flush_now. rewrite Hd, Ht. cbn [mbind option_bind].
    destruct (sq_commit d) as [d1|] eqn:Hc; [|done]. cbn [mbind option_bind].
    destruct (sq_begin d1) as [d2|] eqn:Hb; [|done]. intros [= <-].
    split; [|done|cbn; lia]. exists d2. split; [done|]. cbn. by eapply held_flush. }
  destruct (Z.eqb_spec (pending_ s) 0) as [Hz|Hz]; cbn [andb].
  { intros [= <-]. split; [by exists d|done|lia]. }
  destruct (Z.ltb_spec (pending_ s) batch_every_n_); [|apply Hflush]. destruct (_ <? _); [|apply Hflush].
  intros [= <-]. split; [by exists d|done|done].
Qed.

(** What an operation is, whichever it is: an insert or nothing, and
    [maybe_flush]. *)
Lemma db_op_inv x s rs s' d :
  db_ s = Some d → 0 ≤ pending_ s < batch_every_n_ →
  db_op batch_every_n_ batch_interval_ clock wall x s = Some (rs, s') →
  ∃ s1 d1, db_ s1 = Some d1 ∧ in_txn_ s1 = in_txn_ s ∧ pending_ s1 = pending_ s + Z.of_nat (writes x) ∧
    maybe_flush batch_every_n_ batch_interval_ clock false s1 = Some s' ∧
    (s1 = s ∧ rs = [] ∧ writes x = 0%nat ∨
     ∃ r ok, sq_insert r d = (ok, d1) ∧ rs = (if ok : bool then [r] else []) ∧ writes x = 1%nat).
Proof.
  intros Hd Hp. assert (u64 (pending_ s + 1) = pending_ s + 1) as Hu by (apply wrap_unsigned_id; word_lia).
  destruct x as [ev|a|]; unfold db_op, append_order, append_execution_report; rewrite ?Hd; cbn [mbind option_bind].
  - destruct (sq_insert_order (order_row ev) d) as [ok1 d1] eqn:Hi. set (s1 := mkDb _ _ _ _ _ _ _ _ _).
    destruct (maybe_flush _ _ _ _ _) as [s2|] eqn:Hf; cbn [mbind option_bind]; [|done].
    intros [= <- <-]. exists s1, d1. split_and!; try done. right.
    exists (ROrder (order_row ev)), ok1. cbn. by rewrite Hi.
  - destruct (sq_insert_exec _ d) as [ok1 d1] eqn:Hi. set (s1 := mkDb _ _ _ _ _ _ _ _ _).
    destruct (maybe_flush _ _ _ _ _) as [s2|] eqn:Hf; cbn [mbind option_bind]; [|done].
    intros [= <- <-]. exists s1, d1. split_and!; try done. right.
    exists (RExec (exec_row (wall (db_walls s)) a)), ok1. cbn. by rewrite Hi.
  - destruct (maybe_flush _ _ _ _ _) as [s2|] eqn:Hf; cbn [mbind option_bind]; [|done].
    intros [= <- <-]. exists s, d. split_and!; try done; [cbn; lia|by left].
Qed.

Lemma db_ops_inv T0 xs : ∀ rows s rows' s',
  fault_inv T0 rows s → db_ops batch_every_n_ batch_interval_ clock wall xs s = Some (rows', s') →
  fault_inv T0 (rows ++ rows') s'.
Proof.
  induction xs as [|x xs IH]; intros rows s rows' s' Hinv; cbn.
  { intros [= <- <-]. by rewrite app_nil_r. }
  destruct (db_op _ _ _ _ x s) as [[rs s1]|] eqn:Hw; cbn [mbind option_bind]; [|done].
  destruct (db_ops _ _ _ _ xs s1) as [[rows1 s2]|] eqn:Hws; cbn [mbind option_bind]; [|done].
  intros [= <- <-]. rewrite app_assoc. apply (IH _ s1); [|done].
  destruct Hinv as [(d & Hd & Hh) Ht Hp]. destruct (db_op_inv _ _ _ _ _ Hd Hp Hw) as (s0 & d0 & Hd0 & Ht0 & Hp0 & Hf & Hcase).
  eapply flush_faults; [exact Hd0| |by rewrite Ht0|lia|exact Hf].
  destruct Hcase as [(-> & -> & _)|(r & ok & Hi & -> & Hx)].
  - rewrite app_nil_r. by simplify_eq.
  - pose proof (held_insert _ _ _ _ r Hh) as Hins. rewrite Hi in Hins. by rewrite Hp0, Hx.
Qed.

(** SQLite has rolled back behind the consumer's back. *)
Definition rolled_back (s : Db D) : Prop :=
  in_txn_ s = true ∧ ∃ d T, db_ s = Some d ∧ sq_rep d T None.

(** The next [COMMIT] then throws. *)
Lemma rolled_back_flush force ticks s : rolled_back s → flush_now clock force ticks s = None.
Proof.
  intros (Ht & d & T & Hd & Hrep). unfold flush_now. rewrite Hd, Ht. cbn [mbind option_bind].
  destruct (sq_commit d) as [d'|] eqn:Hc; [|done]. by destruct (sf_commit _ _ _ _ Hrep Hc) as (? & ? & _).
Qed.

Lemma rolled_back_close s : rolled_back s → db_close batch_every_n_ batch_interval_ clock s = None.
Proof.
  intros Hr. pose proof Hr as (_ & d & T & Hd & _). unfold db_close. rewrite Hd. unfold maybe_flush.
  cbn [negb andb]. rewrite andb_false_r. by rewrite (rolled_back_flush _ _ _ Hr).
Qed.

(** ... after fewer than [batch_every_n_] more rows. *)
Lemma rolled_back_dies xs : ∀ s rows s', rolled_back s → 0 ≤ pending_ s < batch_every_n_ →
  db_ops batch_every_n_ batch_interval_ clock wall xs s = Some (rows, s') →
  pending_ s + Z.of_nat (sum_list (writes <$> xs)) < batch_every_n_.
Proof.
  induction xs as [|x xs IH]; intros s rows s' Hr Hp; cbn -[Z.of_nat].
  { intros _. cbn. lia. }
  destruct (db_op _ _ _ _ x s) as [[rs s1]|] eqn:Hw; cbn [mbind option_bind]; [|done].
  destruct (db_ops _ _ _ _ xs s1) as [[rows1 s2]|] eqn:Hws; [|done]. intros _.
  destruct Hr as (Ht & d & T & Hd & Hrep).
  destruct (db_op_inv _ _ _ _ _ Hd Hp Hw) as (s0 & d0 & Hd0 & Ht0 & Hp0 & Hf & Hcase).
  assert (rolled_back s0) as Hr0.
  { split; [by rewrite Ht0|]. exists d0. destruct Hcase as [(-> & _)|(r & ok & Hi & _)].
    - exists T. by simplify_eq.
    - pose proof (sf_insert d T None r Hrep) as Hl. rewrite Hi in Hl.
      destruct ok; [by exists (add_row T r)|exists T; by destruct Hl]. }
  assert (rolled_back s1 ∧ pending_ s1 = pending_ s0 ∧ pending_ s0 < batch_every_n_) as (Hr1 & Hp1 & Hlt).
  { unfold maybe_flush in Hf. cbn [negb andb] in Hf. rewrite !(rolled_back_flush _ _ _ Hr0) in Hf.
    destruct (Z.eqb_spec (pending_ s0) 0); cbn [andb] in Hf; [injection Hf as <-; split_and!; [done..|lia]|].
    destruct (Z.ltb_spec (pending_ s0) batch_every_n_); [|done]. destruct (_ <? _); [|done].
    by injection Hf as <-. }
  specialize (IH s1 rows1 s2 Hr1 ltac:(lia) Hws). lia.
Qed.

Lemma db_open_faults d s T0 :
  sq_rep d T0 None → db_open clock (Some d) db_new = Some (true, s) → fault_inv T0 [] s.
Proof.
  intros Hrep. unfold db_open. destruct (sq_schema d) as [d1|] eqn:Hs; [|done]. cbn [mbind option_bind].
  destruct (sq_begin d1) as [d2|] eqn:Hb; [|done]. intros [= <-].
  pose proof (sf_schema _ _ _ Hrep Hs) as Hrep1. destruct (sf_begin _ _ _ _ Hrep1 Hb) as [_ Hrep2].
  split; [|done|cbn; lia]. exists d2. split; [done|]. exists [], [], []. split_and!; [done|cbn; lia|by left].
Qed.

(** C28: The database under arbitrary failures of SQLite.  Open a file, and let
    the thread write any sequence of orders and reports and flush in between; while the thread is alive, [rows] being
    the rows that [step_checked] did not complain about: either the transaction
    stands, then it holds exactly those rows, fewer than [batch_every_n_] of them
    not yet durable, and closing the file leaves exactly those rows in it or
    throws; or SQLite has rolled back behind the consumer's back, then the rows
    of that batch are gone although later ones are durable, closing throws, and
    so does a flush within [batch_every_n_] more rows. *)
Theorem db_faults_accounted d s0 s T0 xs rows :
  sq_rep d T0 None → db_open clock (Some d) db_new = Some (true, s0) →
  db_ops batch_every_n_ batch_interval_ clock wall xs s0 = Some (rows, s) →
  ∃ d' kept lost later, db_ s = Some d' ∧ rows = kept ++ lost ++ later ∧
    Z.of_nat (length (lost ++ later)) < batch_every_n_ ∧
    ((later = [] ∧ sq_rep d' (tables_of T0 kept) (Some (tables_of T0 rows)) ∧
      ∀ f s', db_close batch_every_n_ batch_interval_ clock s = Some (f, s') →
        ∃ d'', f = Some d'' ∧ sq_rep d'' (tables_of T0 rows) None) ∨
     (sq_rep d' (tables_of T0 (kept ++ later)) None ∧
      db_close batch_every_n_ batch_interval_ clock s = None ∧
      ∀ ys, batch_every_n_ ≤ Z.of_nat (sum_list (writes <$> ys)) →
        db_ops batch_every_n_ batch_interval_ clock wall ys s = None)).
Proof.
  intros Hrep Hopen Hws.
  destruct (db_ops_inv T0 xs [] s0 rows s (db_open_faults _ _ _ Hrep Hopen) Hws) as [(d' & Hd & Hh) Ht Hp].
  destruct Hh as (kept & lost & later & Hrows & Hlen & Hcase). exists d', kept, lost, later.
  split_and!; [done|done|lia|]. destruct Hcase as [[-> Hr]|Hr]; [left|right].
  - split_and!; [done|done|]. intros f s'. unfold db_close, maybe_flush. rewrite Hd. cbn [negb andb].
    rewrite andb_false_r. unfold flush_now. rewrite Hd, Ht. cbn [mbind option_bind].
    destruct (sq_commit d') as [d1|] eqn:Hc; [|done]. intros [= <- <-].
    destruct (sf_commit _ _ _ _ Hr Hc) as (T' & [= <-] & Hr'). by exists d1.
  - assert (rolled_back s) as Hrb by (split; [done|]; by eexists _, _).
    split_and!; [done|by apply rolled_back_close|]. intros ys Hys.
    destruct (db_ops _ _ _ _ ys s) as [[rows1 s1]|] eqn:Hw; [|done].
    pose proof (rolled_back_dies ys s rows1 s1 Hrb Hp Hw). lia.
Qed.

End Faults.

(** ** An instance that fails on demand *)

(** What the next call of SQLite does. *)
Inductive Fault := Works | Fails | RollsBack.

(** [fd_script]: the faults to come; afterwards everything works. *)
Record FaultDb := mkFaultDb { fd_mem : MemDb; fd_script : list Fault }.

Definition next_fault (d : FaultDb) : Fault := default Works (head (fd_script d)).

Definition fault_call (f : MemDb → option MemDb) (d : FaultDb) : option FaultDb :=
  match next_fault d with
  | Works => m ← f (fd_mem d); Some (mkFaultDb m (tail (fd_script d)))
  | _ => None
  end.

Definition fault_insert (f : MemDb → bool * MemDb) (d : FaultDb) : bool * FaultDb :=
  match next_fault d with
  | Works => let '(ok, m) := f (fd_mem d) in (ok, mkFaultDb (if ok : bool then m else fd_mem d) (tail (fd_script d)))
  | Fails => (false, mkFaultDb (fd_mem d) (tail (fd_script d)))
  | RollsBack => (false, mkFaultDb (mkMemDb (md_durable (fd_mem d)) None) (tail (fd_script d)))
  end.

#[export] Instance fault_sqlite : Sqlite FaultDb := {
  sq_schema := fault_call sq_schema;
  sq_begin := fault_call sq_begin;
  sq_commit := fault_call sq_commit;
  sq_insert_order r := fault_insert (sq_insert_order r);
  sq_insert_exec r := fault_insert (sq_insert_exec r);
  sq_rep d := sq_rep (fd_mem d)
}.

(** The row [r] has taken effect between two states of the memory. *)
Definition mem_effect (r : Row) (m m' : MemDb) : Prop := ∀ T o, sq_rep m T o →
  match o with
  | Some T' => sq_rep m' T (Some (add_row T' r))
  | None => sq_rep m' (add_row T r) None
  end.

Lemma mem_insert_effect r (m m' : MemDb) : sq_insert r m = (true, m') → mem_effect r m m'.
Proof.
  intros Hi T o Hrep. pose proof (sf_insert _ _ _ r Hrep) as Hl. rewrite Hi in Hl. exact Hl.
Qed.

Lemma fault_insert_law f r d T o :
  (∀ m m', f m = (true, m') → mem_effect r m m') → sq_rep (fd_mem d) T o →
  let '(ok, d') := fault_insert f d in
  if ok : bool then
    match o with
    | Some T' => sq_rep (fd_mem d') T (Some (add_row T' r))
    | None => sq_rep (fd_mem d') (add_row T r) None
    end
  else sq_rep (fd_mem d') T o ∨ sq_rep (fd_mem d') T None.
Proof.
  intros Hf Hrep. unfold fault_insert. destruct (next_fault d).
  - destruct (f (fd_mem d)) as [[|] m] eqn:Hi; [by apply (Hf _ _ Hi)|by left].
  - by left.
  - right. by destruct Hrep as [<- _].
Qed.

#[export] Instance fault_sqlite_laws : SqliteFaultLaws FaultDb.
Proof.
  split.
  - intros [m sc] d' T. cbn. unfold fault_call. destruct (next_fault _); [|done..]. cbn. by intros ? [= <-].
  - intros [[du tx] sc] d' T o. cbn. unfold fault_call. destruct (next_fault _); [|done..]. cbn.
    intros [<- <-]. by destruct tx; cbn; [|intros [= <-]].
  - intros [[du tx] sc] d' T o. cbn. unfold fault_call. destruct (next_fault _); [|done..]. cbn.
    intros [<- <-]. destruct tx as [t|]; cbn; [|done]. intros [= <-]. by exists t.
  - intros d T o [r|r] Hrep.
    + apply (fault_insert_law (sq_insert_order r) (ROrder r)); [apply (mem_insert_effect (ROrder r))|done].
    + apply (fault_insert_law (sq_insert_exec r) (RExec r)); [apply (mem_insert_effect (RExec r))|done].
Qed.

(** Three orders; SQLite rolls back at the second one. *)
Definition fault_order (n : Z) : SequencedEvent := mkEvent n 0 9 EvNewOrder Gateway 5 n Buy 100 3.
Definition fault_file : FaultDb := mkFaultDb demo_file [Works; Works; Works; RollsBack].

Lemma fault_file_rep : sq_rep fault_file (mkTables [] []) None.
Proof. exact (mem_rep (mkTables [] [])). Qed.

(** The first order is gone, the third durable, and closing throws. *)
Lemma db_faults_accounted_witness :
  ∃ s0 rows s, db_open demo_clock (Some fault_file) db_new = Some (true, s0) ∧
    db_ops 8 500 demo_clock demo_clock (OpOrder ∘ fault_order <$> [1; 2; 3]) s0 = Some (rows, s) ∧
    rows = [ROrder (order_row (fault_order 1)); ROrder (order_row (fault_order 3))] ∧
    (md_durable ∘ fd_mem <$> db_ s) = Some (mkTables [order_row (fault_order 3)] []) ∧
    db_close 8 500 demo_clock s = None.
Proof.
  destruct (db_open demo_clock (Some fault_file) db_new) as [[[|] s0]|] eqn:Ho; try (vm_compute in Ho; discriminate).
  destruct (db_ops 8 500 demo_clock demo_clock (OpOrder ∘ fault_order <$> [1; 2; 3]) s0) as [[rows s]|] eqn:Hw;
    [|vm_compute in Ho; injection Ho as <-; vm_compute in Hw; discriminate].
  exists s0, rows, s. split; [reflexivity|]. split; [exact Hw|].
  destruct (db_faults_accounted 8 500 demo_clock demo_clock ltac:(lia) fault_file s0 s (mkTables [] []) _ rows
              fault_file_rep Ho Hw) as (d & kept & lost & later & Hd & _ & _ & Hcase).
  vm_compute in Ho. injection Ho as <-. vm_compute in Hw. injection Hw as <- <-. split; [reflexivity|].
  split; [reflexivity|]. destruct Hcase as [(_ & [_ Hr] & _)|(_ & Hc & _)]; [|exact Hc].
  injection Hd as <-. discriminate Hr.
Defined.
