(* ===== verification/DbHandle.v ===== *)
(** * DbHandle: the calls that the database consumer makes to SQLite

    [Db] and [DbFaults] are about the rows; here are the calls themselves.  The
    functions of [include/db_consumer.hpp] that talk to SQLite are written call by
    call, in a monad in which [exec] and [prepare] throw and the object keeps the
    state it had at the throw.  Any call may fail.  [replay] is the other side: what
    SQLite's documentation asks of its callers. *)

From S2P Require Import Prelude.

#[local] Open Scope Z_scope.

(** ** Calls and answers *)

Inductive SqlTable := TOrders | TExecs.

#[export] Instance sql_table_eq_dec : EqDecision SqlTable.
Proof. solve_decision. Defined.

Inductive Sql := PragmaJournalWal | PragmaSynchronousNormal | CreateTable (t : SqlTable) | CreateIndex (t : SqlTable)
  | SqlBegin | SqlCommit.

Inductive DbCall := COpen | CExec (q : Sql) | CPrepare (t : SqlTable) | CReset (t : SqlTable)
  | CBind (t : SqlTable) (i : nat) | CStep (t : SqlTable) | CFinalize (t : SqlTable) | CClose.

(** [ErrsNull]: an error for which [sqlite3_open] has not even a handle to give.
    [RollsBack]: an error of a step or a [COMMIT] at which SQLite has rolled the
    open transaction back by itself. *)
Inductive Answer := Succeeds | Errs | ErrsNull | RollsBack.

#[export] Instance answer_eq_dec : EqDecision Answer.
Proof. solve_decision. Defined.

(** ** What SQLite asks of its callers *)

(** What the caller holds: the handle, the statements ([Some true]: ready for
    parameters and a step), a transaction that it has begun and not committed, and
    whether SQLite has rolled that one back behind its back. *)
Record Held := mkHeld {
  hd_db : bool; hd_order : option bool; hd_exec : option bool; hd_txn : bool; hd_undone : bool
}.

Definition nothing_held : Held := mkHeld false None None false false.

Definition hd_stmt (l : Held) (t : SqlTable) : option bool :=
  match t with TOrders => hd_order l | TExecs => hd_exec l end.

Definition hd_set (t : SqlTable) (o : option bool) (l : Held) : Held :=
  match t with
  | TOrders => mkHeld (hd_db l) o (hd_exec l) (hd_txn l) (hd_undone l)
  | TExecs => mkHeld (hd_db l) (hd_order l) o (hd_txn l) (hd_undone l)
  end.

Definition with_txn (b : bool) (l : Held) : Held := mkHeld (hd_db l) (hd_order l) (hd_exec l) b false.

(** After a failure at which the transaction may have gone. *)
Definition undo (a : Answer) (l : Held) : Held :=
  if decide (a = RollsBack) then mkHeld (hd_db l) (hd_order l) (hd_exec l) (hd_txn l) true else l.

(** [None]: the call is not allowed here.  The connection must be open;
    transactions do not nest, only one that was begun is committed, and the schema
    and the mode are set outside of one; a statement is prepared once, reset before
    its parameters are set again, stepped between [BEGIN] and [COMMIT] and
    finalized once; and no statement is left when the connection is closed.  When
    SQLite has rolled the transaction back by itself the steps that follow take
    effect at once, and the [COMMIT] is refused. *)
Definition replay_call (l : Held) (c : DbCall) (a : Answer) : option Held :=
  match c with
  | COpen =>
      guard (hd_db l = false);;
      Some (mkHeld (bool_decide (a ≠ ErrsNull)) (hd_order l) (hd_exec l) (hd_txn l) (hd_undone l))
  | CExec SqlBegin =>
      guard (hd_db l = true);; guard (hd_txn l = false);;
      Some (if decide (a = Succeeds) then with_txn true l else l)
  | CExec SqlCommit =>
      guard (hd_db l = true);; guard (hd_txn l = true);; guard (hd_undone l = true → a ≠ Succeeds);;
      Some (if decide (a = Succeeds) then with_txn false l else undo a l)
  | CExec _ => guard (hd_db l = true);; guard (hd_txn l = false);; Some l
  | CPrepare t =>
      guard (hd_db l = true);; guard (hd_stmt l t = None);;
      Some (hd_set t (if decide (a = Succeeds) then Some true else None) l)
  | CReset t => guard (is_Some (hd_stmt l t));; Some (hd_set t (Some true) l)
  | CBind t i => guard (hd_stmt l t = Some true);; guard (1 ≤ i ≤ 8)%nat;; Some l
  | CStep t => guard (hd_stmt l t = Some true);; guard (hd_txn l = true);; Some (undo a (hd_set t (Some false) l))
  | CFinalize t => guard (is_Some (hd_stmt l t));; Some (hd_set t None l)
  | CClose =>
      guard (hd_db l = true);; guard (hd_order l = None);; guard (hd_exec l = None);; Some nothing_held
  end.

Definition replay (cs : list (DbCall * Answer)) : option Held :=
  foldl (λ o '(c, a), l ← o; replay_call l c a) (Some nothing_held) cs.

Lemma replay_snoc cs c a l l' :
  replay cs = Some l → replay_call l c a = Some l' → replay (cs ++ [(c, a)]) = Some l'.
Proof. intros H H'. unfold replay in *. rewrite foldl_app, H. exact H'. Qed.

(** The answer to a call after the calls [cs], when SQLite means to answer [a]:
    without a transaction it cannot commit. *)
Definition reply (cs : list (DbCall * Answer)) (c : DbCall) (a : Answer) : Answer :=
  match c, replay cs with
  | CExec SqlCommit, Some l => if hd_undone l && bool_decide (a = Succeeds) then Errs else a
  | _, _ => a
  end.

(** ** The object *)

(** Which of [db_], [insert_order_stmt_] and [insert_exec_stmt_] are not null,
    [in_txn_], [pending_], [last_flush_], the readings of the clock so far, and the
    calls so far with their answers. *)
Record Conn := mkConn {
  cn_db : bool;
  cn_stmt : SqlTable → bool;
  cn_txn : bool;
  cn_pending : Z;
  cn_last : Z;
  cn_ticks : nat;
  cn_calls : list (DbCall * Answer)
}.

Definition conn_new : Conn := mkConn false (λ _, false) false 0 0 0 [].

(** [None]: an exception is on its way. *)
Definition DbM (A : Type) : Type := Conn → option A * Conn.

#[export] Instance dbm_ret : MRet DbM := λ A a s, (Some a, s).
#[export] Instance dbm_bind : MBind DbM := λ A B f m s,
  match m s with (Some a, s') => f a s' | (None, s') => (None, s') end.

Definition throw {A} : DbM A := λ s, (None, s).
Definition get {A} (f : Conn → A) : DbM A := λ s, (Some (f s), s).
Definition modify (f : Conn → Conn) : DbM unit := λ s, (Some tt, f s).

Definition set_db (b : bool) : DbM unit := modify (λ s,
  mkConn b (cn_stmt s) (cn_txn s) (cn_pending s) (cn_last s) (cn_ticks s) (cn_calls s)).
Definition set_stmt (t : SqlTable) (b : bool) : DbM unit := modify (λ s,
  mkConn (cn_db s) (λ t', if decide (t' = t) then b else cn_stmt s t') (cn_txn s) (cn_pending s) (cn_last s)
    (cn_ticks s) (cn_calls s)).
Definition set_txn (b : bool) : DbM unit := modify (λ s,
  mkConn (cn_db s) (cn_stmt s) b (cn_pending s) (cn_last s) (cn_ticks s) (cn_calls s)).
Definition set_pending (n : Z) : DbM unit := modify (λ s,
  mkConn (cn_db s) (cn_stmt s) (cn_txn s) n (cn_last s) (cn_ticks s) (cn_calls s)).
Definition set_last (t : Z) : DbM unit := modify (λ s,
  mkConn (cn_db s) (cn_stmt s) (cn_txn s) (cn_pending s) t (cn_ticks s) (cn_calls s)).

Section DbHandle.
(** What SQLite means to answer to its [n]-th call, and the steady clock. *)
Context (answer : nat → Answer) (clock : nat → Z).
Context (batch_every_n_ batch_interval_ : Z).

Definition call (c : DbCall) : DbM Answer := λ s,
  let a := reply (cn_calls s) c (answer (length (cn_calls s))) in
  (Some a, mkConn (cn_db s) (cn_stmt s) (cn_txn s) (cn_pending s) (cn_last s) (cn_ticks s) (cn_calls s ++ [(c, a)])).

(** [steady_clock::now()]. *)
Definition conn_now : DbM Z := λ s,
  (Some (clock (cn_ticks s)),
   mkConn (cn_db s) (cn_stmt s) (cn_txn s) (cn_pending s) (cn_last s) (S (cn_ticks s)) (cn_calls s)).

Definition exec (q : Sql) : DbM unit :=
  a ← call (CExec q); if decide (a = Succeeds) then mret tt else throw.

(** [sqlite3_prepare_v2] sets the statement to null when it fails. *)
Definition prepare (t : SqlTable) : DbM unit :=
  a ← call (CPrepare t);
  set_stmt t (bool_decide (a = Succeeds));;
  if decide (a = Succeeds) then mret tt else throw.

(** [exec("BEGIN;"); in_txn_ = true;] and [exec("COMMIT;"); in_txn_ = false;]. *)
Definition begin_txn : DbM unit := exec SqlBegin;; set_txn true.
Definition commit_txn : DbM unit := exec SqlCommit;; set_txn false.

(** The error is printed and forgotten. *)
Definition step_checked (t : SqlTable) : DbM unit := call (CStep t);; mret tt.

(** [if (in_txn_) { ... }]. *)
Definition commit_if_open : DbM unit :=
  txn ← get cn_txn; if txn : bool then commit_txn else mret tt.

Definition conn_flush_now (force : bool) : DbM unit :=
  commit_if_open;;
  set_pending 0;;
  t ← conn_now;
  set_last t;;
  if force then mret tt else begin_txn.

Definition conn_maybe_flush (force : bool) : DbM unit :=
  pending ← get cn_pending;
  if (pending =? 0) && negb force then mret tt
  else if negb force && (pending <? batch_every_n_) then
    t ← conn_now;
    last ← get cn_last;
    if t - last <? batch_interval_ then mret tt else conn_flush_now force
  else conn_flush_now force.

Definition finalize (t : SqlTable) : DbM unit :=
  p ← get (λ s, cn_stmt s t);
  if p : bool then call (CFinalize t);; set_stmt t false else mret tt.

(** [sqlite3_open(..., &db_)] and [sqlite3_close(db_); db_ = nullptr;]. *)
Definition open_handle : DbM Answer := a ← call COpen; set_db (bool_decide (a ≠ ErrsNull));; mret a.
Definition close_handle : DbM unit := call CClose;; set_db false.

Definition conn_close : DbM unit :=
  open ← get cn_db;
  if negb open then mret tt
  else
    conn_maybe_flush true;;
    finalize TOrders;;
    finalize TExecs;;
    close_handle.

(** [dirs]: [create_directories] does not throw. *)
Definition conn_open (dirs : bool) : DbM bool :=
  if negb dirs then throw
  else
    a ← open_handle;
    if decide (a = Succeeds) then
      exec PragmaJournalWal;;
      exec PragmaSynchronousNormal;;
      exec (CreateTable TOrders);;
      exec (CreateTable TExecs);;
      exec (CreateIndex TOrders);;
      exec (CreateIndex TExecs);;
      prepare TOrders;;
      prepare TExecs;;
      t ← conn_now;
      set_last t;;
      begin_txn;;
      mret true
    else conn_close;; mret false.

Fixpoint binds (t : SqlTable) (i n : nat) : DbM unit :=
  match n with
  | O => mret tt
  | S n => call (CBind t i);; binds t (S i) n
  end.

(** [append_order] and [append_execution_report] are the same calls on their own
    statements. *)
Definition conn_append (t : SqlTable) : DbM unit :=
  call (CReset t);;
  binds t 1 8;;
  step_checked t;;
  pending ← get cn_pending;
  set_pending (u64 (pending + 1));;
  conn_maybe_flush false.

(** What [run()] does: write a row, or flush at the end of a pass. *)
Definition conn_op (x : option SqlTable) : DbM unit :=
  match x with Some t => conn_append t | None => conn_maybe_flush false end.

Fixpoint conn_ops (xs : list (option SqlTable)) : DbM unit :=
  match xs with
  | [] => mret tt
  | x :: xs => conn_op x;; conn_ops xs
  end.

(** [run()], from [start] to the end of the thread: it writes what comes, flushes,
    and closes. *)
Definition conn_run (xs : list (option SqlTable)) : DbM unit := conn_ops xs;; conn_close.

(** [open()], and when it returns true the writes. *)
Definition conn_use (dirs : bool) (xs : list (option SqlTable)) : DbM bool :=
  ok ← conn_open dirs;
  if ok : bool then conn_ops xs;; mret true else mret false.

End DbHandle.

(** ** Triples *)

(** From [P], [m] returns into [Q] or throws into [E]. *)
Definition triple {A} (P : Conn → Prop) (m : DbM A) (Q : A → Conn → Prop) (E : Conn → Prop) : Prop :=
  ∀ s, P s → match m s with (Some a, s') => Q a s' | (None, s') => E s' end.

Lemma triple_bind {A B} P (m : DbM A) (f : A → DbM B) Q R E :
  triple P m Q E → (∀ a, triple (Q a) (f a) R E) → triple P (m ≫= f) R E.
Proof.
  intros Hm Hf s Hs. specialize (Hm s Hs). unfold mbind, dbm_bind. destruct (m s) as [[a|] s']; [|done]. by apply Hf.
Qed.

Lemma triple_ret {A} (P : Conn → Prop) (a : A) (Q : A → Conn → Prop) E : (∀ s, P s → Q a s) → triple P (mret a) Q E.
Proof. intros H s Hs. by apply H. Qed.

Lemma triple_get {A} (P : Conn → Prop) (f : Conn → A) E : triple P (get f) (λ a s, P s ∧ a = f s) E.
Proof. by intros s Hs. Qed.

Lemma triple_pre {A} (P P' : Conn → Prop) (m : DbM A) Q E : (∀ s, P s → P' s) → triple P' m Q E → triple P m Q E.
Proof. intros H Hm s Hs. by apply Hm, H. Qed.

Lemma triple_post {A} P (m : DbM A) (Q Q' : A → Conn → Prop) (E E' : Conn → Prop) :
  (∀ a s, Q a s → Q' a s) → (∀ s, E s → E' s) → triple P m Q E → triple P m Q' E'.
Proof. intros HQ HE Hm s Hs. specialize (Hm s Hs). destruct (m s) as [[a|] s']; auto. Qed.

(** The object knows what it holds, and got it by calls that SQLite allows. *)
Record tracks (l : Held) (s : Conn) : Prop := {
  tk_replay : replay (cn_calls s) = Some l;
  tk_db : cn_db s = hd_db l;
  tk_stmt t : cn_stmt s t = bool_decide (is_Some (hd_stmt l t));
  tk_txn : cn_txn s = hd_txn l;
  tk_undone : hd_undone l = true → hd_txn l = true
}.

Definition sane (s : Conn) : Prop := ∃ l, tracks l s ∧ (hd_db l = true ∨ l = nothing_held).

(** The last call was a refused [COMMIT]. *)
Definition commit_refused (s : Conn) : Prop :=
  cn_txn s = true ∧ ∃ a, a ≠ Succeeds ∧ last (cn_calls s) = Some (CExec SqlCommit, a).

Lemma tracks_new : tracks nothing_held conn_new.
Proof. split; [done..| |done|done]. by intros []. Qed.

Lemma hd_set_stmt t t' o l : hd_stmt (hd_set t o l) t' = if decide (t' = t) then o else hd_stmt l t'.
Proof. by destruct t, t'. Qed.

Lemma hd_set_same t l : hd_set t (hd_stmt l t) l = l.
Proof. by destruct t, l. Qed.

Lemma undo_stmt a l t : hd_stmt (undo a l) t = hd_stmt l t.
Proof. unfold undo. case_decide; by destruct t. Qed.

(** Everything is there for a row to be written. *)
Definition ready (s : Conn) : Prop :=
  ∃ l, tracks l s ∧ hd_db l = true ∧ hd_txn l = true ∧ ∀ t, is_Some (hd_stmt l t).

Section Handles.
Context (answer : nat → Answer) (clock : nat → Z) (batch_every_n_ batch_interval_ : Z).
Abbreviation exec := (exec answer).
Abbreviation flush_now := (conn_flush_now answer clock).
Abbreviation maybe_flush := (conn_maybe_flush answer clock batch_every_n_ batch_interval_).

(** Calls whose answer is looked at later or not at all. *)
Lemma call_triple c l (l' : Answer → Held) :
  (∀ a, replay_call l c a = Some (l' a)) → (∀ a, hd_db (l' a) = hd_db l) → (∀ a, hd_txn (l' a) = hd_txn l) →
  (∀ a t, is_Some (hd_stmt (l' a) t) ↔ is_Some (hd_stmt l t)) → 
  (∀ a, hd_undone (l' a) = true → hd_undone l = true ∨ hd_txn l = true) →
  triple (tracks l) (call answer c) (λ a, tracks (l' a)) (λ _, False).
Proof.
  intros Hc Hdb Htx Hst Hun s [Hr Hd Ht Hx Hu]. cbn. set (a := reply _ _ _).
  split; cbn; [by eapply replay_snoc|by rewrite Hdb|..].
  - intros t. rewrite Ht. by apply bool_decide_ext.
  - by rewrite Htx.
  - rewrite Htx. intros H. destruct (Hun _ H); auto.
Qed.

Lemma exec_schema q l :
  q ≠ SqlBegin → q ≠ SqlCommit → hd_db l = true → hd_txn l = false →
  triple (tracks l) (exec q) (λ _, tracks l) (tracks l).
Proof.
  intros H1 H2 Hdb Htx s [Hr Hd Ht Hx Hu].
  assert (∀ a, replay (cn_calls s ++ [(CExec q, a)]) = Some l) as Hcall.
  { intros a. eapply replay_snoc; [exact Hr|]. destruct q; try done; cbn; by rewrite Hdb, Htx. }
  unfold DbHandle.exec, mbind, dbm_bind, call. case_decide; split; cbn; auto.
Qed.

Lemma begin_triple l :
  hd_db l = true → hd_txn l = false → triple (tracks l) (begin_txn answer) (λ _, tracks (with_txn true l)) (tracks l).
Proof.
  intros Hdb Htx s [Hr Hd Ht Hx Hu].
  assert (∀ a, replay_call l (CExec SqlBegin) a = Some (if decide (a = Succeeds) then with_txn true l else l)) as Hcall.
  { intros a. cbn. by rewrite Hdb, Htx. }
  unfold begin_txn, DbHandle.exec, mbind, dbm_bind, call. set (a := reply _ _ _).
  pose proof (replay_snoc _ _ _ _ _ Hr (Hcall a)) as Hr'. case_decide as Ha; split; cbn; auto; done.
Qed.

Lemma commit_triple l :
  hd_db l = true → hd_txn l = true →
  triple (tracks l) (commit_txn answer) (λ _ s, hd_undone l = false ∧ tracks (with_txn false l) s)
    (λ s, (∃ a, tracks (undo a l) s) ∧ commit_refused s).
Proof.
  intros Hdb Htx s [Hr Hd Ht Hx Hu].
  unfold commit_txn, DbHandle.exec, mbind, dbm_bind, call. set (a := reply _ _ _).
  assert (hd_undone l = true → a ≠ Succeeds) as Hun.
  { intros Hul. unfold a, reply. rewrite Hr, Hul. cbn [andb]. case_bool_decide; [done|done]. }
  assert (replay (cn_calls s ++ [(CExec SqlCommit, a)]) = Some (if decide (a = Succeeds) then with_txn false l else undo a l)) as Hr'.
  { eapply replay_snoc; [exact Hr|]. cbn. rewrite Hdb, Htx. cbn. by case_guard. }
  case_decide as Ha; split.
  - destruct (hd_undone l); [by destruct Hun|done].
  - split; cbn; done.
  - exists a. unfold undo in *. case_decide; split; cbn; auto.
  - split; [cbn; congruence|]. exists a. split; [done|apply last_snoc].
Qed.

Lemma prepare_triple t l :
  hd_db l = true → hd_stmt l t = None →
  triple (tracks l) (prepare answer t) (λ _, tracks (hd_set t (Some true) l)) (tracks l).
Proof.
  intros Hdb Hst s [Hr Hd Ht Hx Hu]. unfold prepare, mbind, dbm_bind, call. cbn.
  set (a := answer _).
  assert (replay (cn_calls s ++ [(CPrepare t, a)]) = Some (hd_set t (if decide (a = Succeeds) then Some true else None) l)) as Hc.
  { eapply replay_snoc; [exact Hr|]. cbn. by rewrite Hdb, Hst. }
  case_decide as Ha; cbn.
  - split; cbn; [done|by destruct t| |by destruct t..]. intros t'. rewrite hd_set_stmt. case_decide; [|apply Ht].
    by rewrite !bool_decide_eq_true_2.
  - rewrite <-Hst, hd_set_same in Hc. split; cbn; [done..| |done|done]. intros t'. case_decide; [subst t'|apply Ht].
    rewrite Hst, !bool_decide_eq_false_2; [done| |done]. by intros [? ?].
Qed.

Lemma finalize_triple t l : triple (tracks l) (finalize answer t) (λ _, tracks (hd_set t None l)) (λ _, False).
Proof.
  intros s [Hr Hd Ht Hx Hu]. unfold finalize, mbind, dbm_bind, get. rewrite Ht. case_bool_decide as Hst; cbn.
  - split; cbn; [|by destruct t| |by destruct t..].
    + eapply replay_snoc; [exact Hr|]. cbn. by case_guard.
    + intros t'. rewrite hd_set_stmt. case_decide; [|apply Ht]. by rewrite bool_decide_eq_false_2 by (by intros [? ?]).
  - apply eq_None_not_Some in Hst. rewrite <-Hst, hd_set_same. by split.
Qed.

Lemma close_handle_triple l :
  hd_db l = true → hd_txn l = false → (∀ t, hd_stmt l t = None) →
  triple (tracks l) (close_handle answer) (λ _, tracks nothing_held) (λ _, False).
Proof.
  intros Hdb Htx Hst s [Hr Hd Ht Hx Hu]. pose proof (Hst TOrders). pose proof (Hst TExecs). cbn in *. split; cbn; [|done| | |done].
  - eapply replay_snoc; [exact Hr|]. cbn. by repeat case_guard.
  - intros t. rewrite Ht, Hst. by destruct t.
  - by rewrite Hx.
Qed.

Lemma open_handle_triple :
  triple (tracks nothing_held) (open_handle answer)
    (λ a, tracks (mkHeld (bool_decide (a ≠ ErrsNull)) None None false false)) (λ _, False).
Proof.
  intros s [Hr Hd Ht Hx Hu]. split; cbn; [by eapply replay_snoc|done|apply Ht|done|done].
Qed.

(** Assignments to members that SQLite knows nothing of. *)
Lemma set_pending_triple n l E : triple (tracks l) (set_pending n) (λ _, tracks l) E.
Proof. intros s []. by split. Qed.
Lemma set_last_triple t l E : triple (tracks l) (set_last t) (λ _, tracks l) E.
Proof. intros s []. by split. Qed.
Lemma now_triple l E : triple (tracks l) (conn_now clock) (λ _, tracks l) E.
Proof. intros s []. by split. Qed.

(** ** Flushing and closing *)

Lemma flush_commits l : hd_db l = true →
  triple (tracks l) (commit_if_open answer)
    (λ _ s, hd_undone l = false ∧ tracks (with_txn false l) s) (λ s, (∃ a, tracks (undo a l) s) ∧ commit_refused s).
Proof.
  intros Hdb. eapply triple_bind; [apply triple_get|]. intros txn s [Hs ->].
  pose proof (tk_txn _ _ Hs) as Hx. destruct (cn_txn s).
  - by apply commit_triple.
  - assert (hd_undone l = false) as Hu by (destruct (hd_undone l) eqn:E; [|done]; pose proof (tk_undone _ _ Hs E); congruence).
    cbn. by replace (with_txn false l) with l by (destruct l; cbn in *; by subst).
Qed.

Lemma flush_forced l : hd_db l = true →
  triple (tracks l) (flush_now true) (λ _ s, hd_undone l = false ∧ tracks (with_txn false l) s)
    (λ s, (∃ a, tracks (undo a l) s) ∧ commit_refused s).
Proof.
  intros Hdb. eapply triple_bind; [by apply flush_commits|]. intros ? s [Hu Hs]. revert s Hs.
  eapply triple_bind; [apply set_pending_triple|]. intros ?. eapply triple_bind; [apply now_triple|]. intros t.
  eapply triple_bind; [apply set_last_triple|]. intros ?. by apply triple_ret.
Qed.

Lemma sane_undo a l s : hd_db l = true → tracks (undo a l) s → sane s.
Proof. intros Hdb Hs. exists (undo a l). split; [done|left]. unfold undo. by case_decide. Qed.

Lemma flush_batch l : hd_db l = true →
  triple (tracks l) (flush_now false) (λ _, tracks (with_txn true l)) sane.
Proof.
  intros Hdb. eapply triple_bind; [eapply triple_post; [..|by apply flush_commits]; [done|]; intros s [[a ?] _]; by eapply sane_undo|].
  intros ? s [_ Hs]. revert s Hs. eapply triple_bind; [apply set_pending_triple|]. intros ?. eapply triple_bind; [apply now_triple|]. intros t.
  eapply triple_bind; [apply set_last_triple|]. intros ?.
  eapply triple_post; [..|by apply (begin_triple (with_txn false l))]; [done|]. intros s ?. eexists; split; [done|by left].
Qed.

Lemma maybe_flush_forced l : hd_db l = true →
  triple (tracks l) (maybe_flush true) (λ _ s, hd_undone l = false ∧ tracks (with_txn false l) s)
    (λ s, (∃ a, tracks (undo a l) s) ∧ commit_refused s).
Proof.
  intros Hdb. eapply triple_bind; [apply triple_get|]. intros p. cbn [negb andb]. rewrite andb_false_r.
  eapply triple_pre; [|by apply flush_forced]. by intros s [? _].
Qed.

Lemma maybe_flush_batch : triple ready (maybe_flush false) (λ _, ready) sane.
Proof.
  assert (triple ready (flush_now false) (λ _, ready) sane) as Hf.
  { intros s (l & Hs & Hdb & Htx & Hst). pose proof (flush_batch l Hdb s Hs) as H. destruct (flush_now false s) as [[?|] s']; [|done].
    exists (with_txn true l). split_and!; [done..|]. by intros [];  [apply (Hst TOrders)|apply (Hst TExecs)]. }
  eapply triple_bind; [apply triple_get|]. intros p. cbn [negb andb].
  eapply triple_pre; [by intros s [? _]|]. destruct (p =? 0); cbn [andb]; [by apply triple_ret|].
  destruct (p <? batch_every_n_); [|done].
  eapply (triple_bind _ _ _ (λ _, ready)); [intros s (l & [] & ?); exists l; by split|]. intros t.
  eapply triple_bind; [apply triple_get|]. intros la. eapply triple_pre; [by intros s [? _]|].
  destruct (_ <? _); [by apply triple_ret|done].
Qed.

(** [close()] gives everything back, or its [COMMIT] was refused; refused it is when
    SQLite has rolled the transaction back. *)
Lemma close_tracks l : hd_db l = true ∨ l = nothing_held →
  triple (tracks l) (conn_close answer clock batch_every_n_ batch_interval_)
    (λ _ s, hd_undone l = false ∧ tracks nothing_held s) (λ s, sane s ∧ commit_refused s).
Proof.
  intros [Hdb| ->].
  2: { intros s Hs. unfold conn_close, get, mbind, dbm_bind. by rewrite (tk_db _ _ Hs). }
  apply (triple_bind _ _ _ (λ o s, tracks l s ∧ o = true)).
  { intros s Hs. cbn. by rewrite (tk_db _ _ Hs). }
  intros o s [Hs ->]. revert s Hs. cbn [negb].
  eapply triple_bind; [eapply triple_post; [..|by apply maybe_flush_forced]; [done|]; intros s [[a ?] ?]; split; [by eapply sane_undo|done]|].
  intros ? s [Hu Hs]. revert s Hs. eapply triple_bind; [eapply triple_post; [..|apply finalize_triple]; done|].
  intros ?. eapply triple_bind; [eapply triple_post; [..|apply finalize_triple]; done|].
  intros ?. eapply triple_post; [..|apply close_handle_triple]; try done. by intros [].
Qed.

Lemma close_triple : triple sane (conn_close answer clock batch_every_n_ batch_interval_)
  (λ _, tracks nothing_held) (λ s, sane s ∧ commit_refused s).
Proof.
  intros s (l & Hs & Hl). pose proof (close_tracks l Hl s Hs) as H. destruct (conn_close _ _ _ _ s) as [[?|] s']; [|done]. apply H.
Qed.

(** ** Opening and writing *)

Lemma open_triple dirs :
  triple (tracks nothing_held) (conn_open answer clock batch_every_n_ batch_interval_ dirs)
    (λ ok s, if ok : bool then ready s else tracks nothing_held s) sane.
Proof.
  unfold conn_open. destruct dirs; cbn [negb]; [|intros s Hs; exists nothing_held; by auto].
  eapply triple_bind; [eapply triple_post; [..|apply open_handle_triple]; done|]. intros a. cbn beta.
  case_decide as Ha.
  - subst a. set (l := mkHeld _ None None false false).
    assert (∀ q, q ≠ SqlBegin → q ≠ SqlCommit → triple (tracks l) (exec q) (λ _, tracks l) sane) as Hq.
    { intros q H1 H2. eapply triple_post; [..|by apply exec_schema]; [done|]. intros s ?. exists l. by auto. }
    do 6 (eapply triple_bind; [by apply Hq|]; intros ?).
    assert (∀ t l', hd_db l' = true → hd_stmt l' t = None →
      triple (tracks l') (prepare answer t) (λ _, tracks (hd_set t (Some true) l')) sane) as Hp.
    { intros t l' ? ?. eapply triple_post; [..|by apply prepare_triple]; [done|]. intros s ?. exists l'. by auto. }
    eapply triple_bind; [by apply Hp|]. intros ?. eapply triple_bind; [by apply Hp|]. intros ?.
    eapply triple_bind; [apply now_triple|]. intros t. eapply triple_bind; [apply set_last_triple|]. intros ?.
    eapply triple_bind; [eapply triple_post; [..|by apply begin_triple]; [done|]; intros s ?; eexists; split; [done|by left]|].
    intros ?. apply triple_ret. intros s Hs. eexists. split_and!; [exact Hs|done|done|by intros []].
  - eapply triple_pre; [|eapply triple_bind; [eapply triple_post; [..|apply close_triple]; [done|by intros s [? _]]|]].
    + intros s Hs. eexists. split; [exact Hs|]. destruct a; cbn; auto.
    + intros ?. by apply triple_ret.
Qed.

Lemma binds_triple t l n : ∀ i, hd_stmt l t = Some true → (1 ≤ i)%nat → (i + n ≤ 9)%nat →
  triple (tracks l) (binds answer t i n) (λ _, tracks l) (λ _, False).
Proof.
  induction n as [|n IH]; intros i Hl H1 H9; cbn [binds]; [by apply triple_ret|].
  eapply triple_bind; [|intros ?; apply IH; [done|lia..]].
  apply (call_triple _ l (λ _, l)); [|done..|by left]. intros a. cbn. rewrite Hl. cbn. case_guard; [done|lia].
Qed.

Lemma append_triple t :
  triple ready (conn_append answer clock batch_every_n_ batch_interval_ t) (λ _, ready) sane.
Proof.
  intros s (l & Hs & Hdb & Htx & Hst). revert s Hs.
  set (l1 := hd_set t (Some true) l). set (l2 := hd_set t (Some false) l1).
  assert (hd_stmt l1 t = Some true) as H1 by (unfold l1; rewrite hd_set_stmt; by case_decide).
  assert (∀ t', is_Some (hd_stmt l1 t')) as Hst1 by (intros t'; unfold l1; rewrite hd_set_stmt; by case_decide).
  assert (∀ t', is_Some (hd_stmt l2 t')) as Hst2 by (intros t'; unfold l2; rewrite hd_set_stmt; by case_decide).
  assert (∀ A (m : DbM A) P Q, triple P m Q (λ _, False) → triple P m Q sane) as Hweak.
  { intros A m P Q. by apply triple_post. }
  eapply triple_bind; [apply Hweak, (call_triple _ l (λ _, l1))|].
  { intros a. cbn. case_guard as Hg; [done|destruct Hg; apply Hst]. }
  1,2: intros _; by destruct t.
  2: { intros _ ?. right. by destruct t. }
  { intros _ t'. by split. }
  intros ?. eapply triple_bind; [apply Hweak, binds_triple; [done|lia..]|]. intros ?.
  eapply (triple_bind _ _ _ (λ _ s, ∃ a, tracks (undo a l2) s)).
  { eapply triple_bind; [apply Hweak, (call_triple _ l1 (λ a, undo a l2))|intros b; apply triple_ret; by eauto].
    - intros b. cbn. rewrite H1. cbn. case_guard as Hg; [done|destruct Hg; by destruct t].
    - intros b. unfold undo. case_decide; by destruct t.
    - intros b. unfold undo. case_decide; by destruct t.
    - intros b t'. rewrite undo_stmt. by split.
    - intros b _. right. by destruct t. }
  intros ? s [b Hs]. revert s Hs. eapply triple_bind; [apply triple_get|]. intros pd. eapply triple_pre; [by intros s [? _]|].
  eapply triple_bind; [apply set_pending_triple|]. intros ?. eapply triple_pre; [|apply maybe_flush_batch].
  intros s Hs. exists (undo b l2). split_and!; [done|..|intros t'; by rewrite undo_stmt];
    unfold undo; case_decide; by destruct t.
Qed.

Lemma ready_sane s : ready s → sane s.
Proof. intros (l & ? & ? & _). exists l. by auto. Qed.

Lemma ops_triple xs :
  triple ready (conn_ops answer clock batch_every_n_ batch_interval_ xs) (λ _, ready) sane.
Proof.
  induction xs as [|x xs IH]; cbn [conn_ops]; [by apply triple_ret|].
  eapply triple_bind; [|intros ?; exact IH]. destruct x; [apply append_triple|apply maybe_flush_batch].
Qed.

Lemma use_triple dirs xs :
  triple (tracks nothing_held) (conn_use answer clock batch_every_n_ batch_interval_ dirs xs) (λ _, sane) sane.
Proof.
  eapply triple_bind; [apply open_triple|]. intros [|]; cbn beta iota.
  - eapply triple_bind; [apply ops_triple|]. intros ?. apply triple_ret, ready_sane.
  - apply triple_ret. intros s Hs. exists nothing_held. by auto.
Qed.

(** *** The thread *)

(** A [BEGIN] or [COMMIT] that SQLite did not carry out. *)
Definition txn_call_refused (ca : DbCall * Answer) : bool :=
  match ca with
  | (CExec SqlBegin, a) | (CExec SqlCommit, a) => bool_decide (a ≠ Succeeds)
  | _ => false
  end.

Definition txn_refused (s : Conn) : bool := existsb txn_call_refused (cn_calls s).

Definition untroubled (s : Conn) : Prop := txn_refused s = false.
Definition troubled (s : Conn) : Prop := txn_refused s = true.

(** Code that throws when a [BEGIN] or [COMMIT] is refused, and only then. *)
Definition throws_when_refused {A} (m : DbM A) : Prop := triple untroubled m (λ _, untroubled) troubled.

Lemma twr_bind {A B} (m : DbM A) (f : A → DbM B) :
  throws_when_refused m → (∀ a, throws_when_refused (f a)) → throws_when_refused (m ≫= f).
Proof. apply triple_bind. Qed.
Lemma twr_ret {A} (a : A) : throws_when_refused (mret a).
Proof. by intros s Hs. Qed.
Lemma twr_get {A} (f : Conn → A) : throws_when_refused (get f).
Proof. by intros s Hs. Qed.
Lemma twr_modify (f : Conn → Conn) : (∀ s, cn_calls (f s) = cn_calls s) → throws_when_refused (modify f).
Proof. intros H s Hs. unfold untroubled, txn_refused in *. cbn. by rewrite H. Qed.
Lemma twr_now : throws_when_refused (conn_now clock).
Proof. by intros s Hs. Qed.
Lemma twr_call c : (∀ q, c ≠ CExec q) → throws_when_refused (call answer c).
Proof.
  intros Hc s Hs. unfold untroubled, txn_refused in *. cbn. rewrite existsb_app, Hs. by destruct c as [|q| | | | | |]; [|destruct (Hc q)|..].
Qed.
Lemma twr_exec q : q = SqlBegin ∨ q = SqlCommit → throws_when_refused (exec q).
Proof.
  intros Hq s Hs. unfold DbHandle.exec, mbind, dbm_bind, call, untroubled, troubled, txn_refused in *.
  generalize (reply (cn_calls s) (CExec q) (answer (length (cn_calls s)))); intros a.
  case_decide as Ha; cbn; rewrite existsb_app, Hs; cbn.
  - rewrite Ha. by destruct Hq as [-> | ->].
  - assert (bool_decide (a ≠ Succeeds) = true) as Hd by (by apply bool_decide_eq_true). by destruct Hq as [-> | ->]; rewrite Hd.
Qed.

(** One step along the code. *)
Ltac twr := repeat lazymatch goal with
  | |- throws_when_refused (DbHandle.exec _ _) => apply twr_exec; by auto
  | |- throws_when_refused (mbind _ _) => apply twr_bind; [|intros ?]
  | |- throws_when_refused (mret _) => apply twr_ret
  | |- throws_when_refused (get _) => apply twr_get
  | |- throws_when_refused (conn_now _) => apply twr_now
  | |- throws_when_refused (call _ _) => apply twr_call; done
  | |- throws_when_refused (modify _) => apply twr_modify; done
  | |- throws_when_refused (if _ then _ else _) => case_match
  end.

Lemma twr_flush force : throws_when_refused (maybe_flush force).
Proof. unfold conn_maybe_flush, conn_flush_now, commit_if_open, commit_txn, begin_txn, set_txn, set_pending, set_last. twr. Qed.

Lemma twr_binds t n : ∀ i, throws_when_refused (binds answer t i n).
Proof. induction n as [|n IH]; intros i; cbn [binds]; twr. apply IH. Qed.

Lemma twr_run xs : throws_when_refused (conn_run answer clock batch_every_n_ batch_interval_ xs).
Proof.
  apply twr_bind; [|intros ?; unfold conn_close, finalize, close_handle, set_db, set_stmt; twr; apply twr_flush].
  induction xs as [|x xs IH]; cbn [conn_ops]; [apply twr_ret|]. apply twr_bind; [|intros ?; exact IH].
  destruct x as [t|]; [|apply twr_flush]. unfold conn_op, conn_append, step_checked, set_pending. twr; [apply twr_binds|apply twr_flush].
Qed.

Lemma run_triple xs : triple ready (conn_run answer clock batch_every_n_ batch_interval_ xs) (λ _, tracks nothing_held) sane.
Proof.
  eapply triple_bind; [apply ops_triple|]. intros ?. eapply triple_pre; [apply ready_sane|].
  eapply triple_post; [..|apply close_triple]; [done|]. by intros s [? _].
Qed.

(** The calls of an [open()] that goes through. *)
Definition open_calls : list DbCall :=
  [COpen; CExec PragmaJournalWal; CExec PragmaSynchronousNormal; CExec (CreateTable TOrders); CExec (CreateTable TExecs);
   CExec (CreateIndex TOrders); CExec (CreateIndex TExecs); CPrepare TOrders; CPrepare TExecs; CExec SqlBegin].

(** How many of [n] calls are made from the [i]-th on when the first refusal is the
    last one. *)
Fixpoint until_refused (i n : nat) : nat :=
  match n with
  | O => O
  | S n => S (if decide (answer i = Succeeds) then until_refused (S i) n else O)
  end.

Lemma open_result dirs :
  let '(r, s) := conn_open answer clock batch_every_n_ batch_interval_ dirs conn_new in
  r = (if negb dirs then None
       else if decide (answer 0%nat = Succeeds) then
         if forallb (λ i, bool_decide (answer i = Succeeds)) (seq 1 9) then Some true else None
       else Some false) ∧
  (dirs = true → answer 0%nat = Succeeds → (cn_calls s).*1 = take (until_refused 0 10) open_calls).
Proof.
  destruct dirs; [|done]. vm_compute.
  repeat (match goal with |- context [answer ?k] => destruct (answer k) end; [|split; done..]). done.
Qed.

Lemma open_untroubled :
  answer 0%nat = Succeeds → forallb (λ i, bool_decide (answer i = Succeeds)) (seq 1 9) = true →
  untroubled (conn_open answer clock batch_every_n_ batch_interval_ true conn_new).2.
Proof.
  vm_compute. repeat (match goal with |- context [answer ?k] => destruct (answer k) end; [|done..]). done.
Qed.

(** C29: Handles and transactions of the database consumer, whatever SQLite refuses.
    Open the database, write any rows and flush in between as long as nothing
    throws, and destroy the object.  Every call that is made is allowed by SQLite
    at that point (no statement is used before it is prepared or after it is
    finalized, no parameter is set between a step and the reset, transactions do
    not nest); the destructor has given back the statements and the handle, each
    once, unless its [COMMIT] is refused, which throws out of a destructor.  A
    transaction that SQLite has rolled back by itself goes unnoticed, since only
    the error of the step is printed: the calls go on until the next [COMMIT], which
    is refused, and the destructor, which tries it again, throws for sure.  And
    [open] returns false exactly when the file cannot be opened, throws exactly
    when one of the nine calls after that is refused, and has then made the calls
    up to that one in their order. *)
Theorem db_handle_safe dirs xs :
  let opened := conn_open answer clock batch_every_n_ batch_interval_ dirs conn_new in
  let used := conn_use answer clock batch_every_n_ batch_interval_ dirs xs conn_new in
  let '(destroyed, s) := conn_close answer clock batch_every_n_ batch_interval_ used.2 in
  match destroyed with
  | Some _ => replay (cn_calls s) = Some nothing_held ∧ cn_db s = false ∧ ∀ t, cn_stmt s t = false
  | None => is_Some (replay (cn_calls s)) ∧ commit_refused s
  end ∧
  (∃ l, replay (cn_calls used.2) = Some l ∧ (hd_undone l = true → destroyed = None)) ∧
  opened.1 = (if negb dirs then None
    else if decide (answer 0%nat = Succeeds) then
      if forallb (λ i, bool_decide (answer i = Succeeds)) (seq 1 9) then Some true else None
    else Some false) ∧
  (dirs = true → answer 0%nat = Succeeds → (cn_calls opened.2).*1 = take (until_refused 0 10) open_calls).
Proof.
  intros opened used. pose proof (use_triple dirs xs _ tracks_new) as Hu. pose proof (open_result dirs) as Ho.
  fold used in Hu. fold opened in Ho. clearbody used opened. destruct opened as [ro so], Ho as [Ho1 Ho2].
  assert (sane used.2) as (l & Hs & Hl) by (by destruct used as [[?|] ?]). pose proof (close_tracks l Hl _ Hs) as Hc.
  destruct (conn_close _ _ _ _ used.2) as [[?|] s]; (split; [|split; [|by split]]).
  - destruct Hc as [_ [Hr Hd Ht _ _]]. split_and!; [done..|]. intros t. rewrite Ht. by destruct t.
  - exists l. split; [apply Hs|]. destruct Hc as [-> _]. done.
  - destruct Hc as [(l' & Hl' & _) ?]. split; [|done]. rewrite (tk_replay _ _ Hl'). done.
  - exists l. by split; [apply Hs|].
Qed.
End Handles.
