(* ===== verification/Lifecycle.v ===== *)
(** * Lifecycle: who owns a thread, and when it may be destroyed

    [Sequencer], [MatchingEngineConsumer], [WalConsumer] and [DbConsumer] each own
    a [std::thread]; the last two also own a file that their [run] closes.  Here
    are their [start], [stop] and destructors with the rules of C++: assigning to
    or destroying a [std::thread] that is still joinable calls [std::terminate],
    and so does an exception that nobody catches, in [main] or in a thread.  Whether
    a file opens, and whether the database's thread comes to the end of its [run],
    is computed from what the operating system and SQLite answer ([DbHandle]).
    [life_main] is [main] of [gateway_main.cpp] as the sequence of these calls, on
    every path, up to the destruction of the four objects. *)

From S2P Require Import Prelude DbHandle.

(** How a call ends. *)
Inductive CallResult (A : Type) := Fine (a : A) | Throws | Terminated.
Arguments Fine {A} _.
Arguments Throws {A}.
Arguments Terminated {A}.

#[export] Instance outcome_ret : MRet CallResult := λ A a, Fine a.
#[export] Instance outcome_bind : MBind CallResult := λ A B f x,
  match x with Fine a => f a | Throws => Throws | Terminated => Terminated end.

(** An object that owns a thread: [running_], whether [thread_] is joinable,
    whether the file is open, and whether the [run] of the thread lets an exception
    out. *)
Record Owner := mkOwner { ow_running : bool; ow_joinable : bool; ow_open : bool; ow_throws : bool }.

Definition owner_new : Owner := mkOwner false false false false.

(** [running_.store(true); thread_ = std::thread([this] { run(); })], where that
    [run] throws or does not. *)
Definition thread_start (throws : bool) (o : Owner) : CallResult Owner :=
  if ow_joinable o then Terminated else Fine (mkOwner true true (ow_open o) throws).

(** What opening the file comes to: it opens, it is refused, or an exception is
    thrown ([create_directories] or, in the database, [exec] and [prepare]). *)
Inductive Opening := Opens | Refused | OpenThrows.

(** [WalConsumer::open()]: [dirs], [create_directories] does not throw; [file],
    [fopen] does not return null. *)
Definition wal_opening (dirs file : bool) : Opening :=
  if negb dirs then OpenThrows else if file then Opens else Refused.

(** [DbConsumer::open()] on a new object. *)
Definition db_opening (answer : nat → Answer) (clock : nat → Z) (n interval : Z) (dirs : bool) : Opening :=
  match (conn_open answer clock n interval dirs conn_new).1 with
  | Some true => Opens
  | Some false => Refused
  | None => OpenThrows
  end.

(** The [run] of the database's thread throws: [xs] is what comes to be written, in
    the connection that [open()] made. *)
Definition db_run_throws (answer : nat → Answer) (clock : nat → Z) (n interval : Z) (xs : list (option SqlTable)) : bool :=
  let s := (conn_open answer clock n interval true conn_new).2 in
  match (conn_run answer clock n interval xs s).1 with Some _ => false | None => true end.

(** [if (!open()) return false; ...]: a refused open leaves no file behind. *)
Definition file_start (r : Opening) (throws : bool) (o : Owner) : CallResult (bool * Owner) :=
  match r with
  | Opens => o' ← thread_start throws (mkOwner (ow_running o) (ow_joinable o) true (ow_throws o)); mret (true, o')
  | Refused => mret (false, mkOwner (ow_running o) (ow_joinable o) false (ow_throws o))
  | OpenThrows => Throws
  end.

(** [running_.store(false); if (thread_.joinable()) thread_.join();]: the joined
    thread has run to the end of [run], where it closes its file; and when [run]
    throws, the process is gone before [join] returns. *)
Definition owner_stop (o : Owner) : CallResult Owner :=
  if ow_joinable o then
    if ow_throws o then Terminated else Fine owner_new
  else Fine (mkOwner false false (ow_open o) (ow_throws o)).

(** The destructor: [thread_]'s, and that of the class, which closes a file that is
    still open.  ([DbHandle] has the [COMMIT] that closing a database in use makes;
    no object of [main] is destroyed in use.) *)
Definition owner_destroy (o : Owner) : CallResult Owner :=
  if ow_joinable o then Terminated else Fine (mkOwner (ow_running o) false false (ow_throws o)).

(** ** The four classes *)

Definition sequencer_start : Owner → CallResult Owner := thread_start false.
Definition matcher_start : Owner → CallResult Owner := thread_start false.

Definition wal_start (dirs file : bool) (o : Owner) : CallResult (bool * Owner) :=
  file_start (wal_opening dirs file) false o.

Definition db_start (answer : nat → Answer) (clock : nat → Z) (n interval : Z) (dirs : bool)
  (xs : list (option SqlTable)) (o : Owner) : CallResult (bool * Owner) :=
  file_start (db_opening answer clock n interval dirs) (db_run_throws answer clock n interval xs) o.

Definition sequencer_stop : Owner → CallResult Owner := owner_stop.
Definition matcher_stop : Owner → CallResult Owner := owner_stop.
Definition wal_stop : Owner → CallResult Owner := owner_stop.
Definition db_stop : Owner → CallResult Owner := owner_stop.

Definition wal_destroy : Owner → CallResult Owner := owner_destroy.
Definition db_destroy : Owner → CallResult Owner := owner_destroy.

(** ** main *)

Record Life := mkLife { lf_seq : Owner; lf_matcher : Owner; lf_wal : Owner; lf_db : Owner }.

Definition life_new : Life := mkLife owner_new owner_new owner_new owner_new.

(** [sequencer->stop(); matcher->stop(); wal->stop(); db->stop();] *)
Definition stop_all (s : Life) : CallResult Life :=
  sq ← sequencer_stop (lf_seq s);
  matcher ← matcher_stop (lf_matcher s);
  wal ← wal_stop (lf_wal s);
  db ← db_stop (lf_db s);
  mret (mkLife sq matcher wal db).

(** The end of [main]'s scope: in the reverse order of construction. *)
Definition destroy_all (s : Life) : CallResult Life :=
  db ← db_destroy (lf_db s);
  wal ← wal_destroy (lf_wal s);
  matcher ← owner_destroy (lf_matcher s);
  sq ← owner_destroy (lf_seq s);
  mret (mkLife sq matcher wal db).

Section Main.
(** What [create_directories] and [fopen] answer for the log, what the file system
    and SQLite answer for the database, what comes to be written into it, and
    whether the server listens. *)
Context (wal_dirs wal_file : bool) (answer : nat → Answer) (clock : nat → Z) (n interval : Z) (db_dirs : bool).
Context (xs : list (option SqlTable)) (listens : bool).

(** The body of [main]: the code it returns and the objects at that point. *)
Definition life_body : CallResult (Z * Life) :=
  let s := life_new in
  '(wal_started, wal) ← wal_start wal_dirs wal_file (lf_wal s);
  if negb wal_started then mret (1%Z, mkLife (lf_seq s) (lf_matcher s) wal (lf_db s))
  else
    '(db_started, db) ← db_start answer clock n interval db_dirs xs (lf_db s);
    if negb db_started then wal ← wal_stop wal; mret (1%Z, mkLife (lf_seq s) (lf_matcher s) wal db)
    else
      matcher ← matcher_start (lf_matcher s);
      sq ← sequencer_start (lf_seq s);
      let s := mkLife sq matcher wal db in
      if negb listens then s ← stop_all s; mret (1%Z, s) else s ← stop_all s; mret (0%Z, s).

(** Nobody catches what [main] lets through. *)
Definition life_main : CallResult (Z * Life) :=
  match ('(code, s) ← life_body; s' ← destroy_all s; mret (code, s')) with
  | Throws => Terminated
  | x => x
  end.

End Main.

(** The thread throws exactly when one of its [BEGIN]s and [COMMIT]s is refused, and
    has closed the connection otherwise. *)
Lemma db_thread_result answer clock n interval xs :
  answer 0%nat = Succeeds → forallb (λ i, bool_decide (answer i = Succeeds)) (seq 1 9) = true →
  let run := conn_run answer clock n interval xs (conn_open answer clock n interval true conn_new).2 in
  txn_refused run.2 = db_run_throws answer clock n interval xs ∧
  (is_Some run.1 → replay (cn_calls run.2) = Some nothing_held).
Proof.
  intros Ha Hf run. unfold db_run_throws. fold run.
  assert (ready (conn_open answer clock n interval true conn_new).2 ∧ untroubled (conn_open answer clock n interval true conn_new).2) as [Hr Hu].
  { pose proof (open_result answer clock n interval true) as Ho. pose proof (open_triple answer clock n interval true _ tracks_new) as Ht.
    pose proof (open_untroubled answer clock n interval Ha Hf) as Hq.
    destruct (conn_open _ _ _ _ _ _) as [r s], Ho as [-> _]. rewrite Ha, Hf in Ht. by split. }
  pose proof (twr_run answer clock n interval xs _ Hu) as H1. pose proof (run_triple answer clock n interval xs _ Hr) as H2.
  fold run in H1, H2. destruct run as [[?|] s']; split; cbn [fst snd]; [exact H1|intros _; apply H2|exact H1|by intros [? ?]].
Qed.

(** C32: The gateway process destroys no running thread and leaves no file open, on
    any path through [main], whatever the file system, SQLite and the network
    answer, unless an exception terminates it, and it says when that is.  It returns
    0 or 1 as the server listens or not, when both directories and both files can be
    had, SQLite accepts the nine calls that prepare the database, and none of the
    [BEGIN]s and [COMMIT]s that the database's thread makes then is refused; it
    returns 1 when a file is refused; and then, when its four objects are destroyed,
    every thread has been joined, every file closed, and the connection's statements
    and handle given back.  When a directory cannot be made or SQLite refuses one of
    the nine calls the exception ends the process from [main], and when it refuses a
    [BEGIN] or [COMMIT] later, the one of the last [close()] included, from the
    thread. *)
Theorem gateway_threads_joined answer clock n interval wal_dirs wal_file db_dirs xs listens :
  let sqlite_accepts := forallb (λ i, bool_decide (answer i = Succeeds)) (seq 1 9) in
  let outcome := life_main wal_dirs wal_file answer clock n interval db_dirs xs listens in
  let run := conn_run answer clock n interval xs (conn_open answer clock n interval true conn_new).2 in
  if negb wal_dirs then outcome = Terminated
  else if negb wal_file then outcome = Fine (1%Z, life_new)
  else if negb db_dirs then outcome = Terminated
  else if decide (answer 0%nat = Succeeds) then
    if negb sqlite_accepts then outcome = Terminated
    else if txn_refused run.2 then outcome = Terminated
    else outcome = Fine (if listens then 0%Z else 1%Z, life_new) ∧ replay (cn_calls run.2) = Some nothing_held
  else outcome = Fine (1%Z, life_new).
Proof.
  cbv zeta. unfold life_main, life_body, wal_start, wal_opening, db_start, db_opening.
  pose proof (open_result answer clock n interval db_dirs) as Ho.
  destruct wal_dirs, wal_file; cbn [negb]; try reflexivity.
  destruct db_dirs; cbn [negb]; [|reflexivity]. case_decide as Ha; [|by destruct (conn_open _ _ _ _ _ _), Ho as [-> _]].
  destruct (forallb _ _) eqn:Hf; cbn [negb]; [|by destruct (conn_open _ _ _ _ _ _), Ho as [-> _]].
  destruct (db_thread_result answer clock n interval xs Ha Hf) as [Hthrow Hheld].
  unfold db_run_throws in *. destruct (conn_open _ _ _ _ _ _) as [r s], Ho as [-> _]. cbn [fst snd] in *.
  destruct (conn_run _ _ _ _ xs s) as [[?|] s']; cbn [fst snd] in *; rewrite Hthrow; [|by destruct listens].
  split; [by destruct listens|by apply Hheld].
Qed.
