(* ===== verification/System.v ===== *)
(** * System: the gateway process as a whole

    Models how [src/gateway_main.cpp] puts the components together: the order in
    which the consumers register and start, and the state that this leaves.
    [Process] takes it from there to the return of [main]. *)

From S2P Require Import Prelude Types ObjectPool OrderBook PriceTime OrderBookProofs SpscRing BroadcastRing Consumer MatchingEngine EngineProofs EngineProperties Wal Db.

#[local] Open Scope Z_scope.

(** The components of a running process. *)
Record Running (B Q D : Type) := mkRunning {
  rn_ring : B;                        (* sequencer->output() *)
  rn_matcher : Engine (AckOut Q);
  rn_wal : Wal;
  rn_db : Db D
}.
Arguments mkRunning {B Q D} _ _ _ _.
Arguments rn_ring {B Q D} _.
Arguments rn_matcher {B Q D} _.
Arguments rn_wal {B Q D} _.
Arguments rn_db {B Q D} _.

Section System.
Context {Q D : Type} `{Fifo Q OutboundAck} `{Sqlite D}.
Context (PoolCapacity kMaxSpins : nat) (drain : nat → Q → Q).
Context (fsync_every_n_ fsync_interval_ batch_every_n_ batch_interval_ : Z).
Context (wal_clock db_clock wall : nat → Z).

(** Acks go to the gateway's queue and, always in this program, to the
    database's. *)
Definition sys_sink : AckSink (AckOut Q) := {|
  push_ack := engine_push_ack kMaxSpins drain;
  sink_ok s := ∃ l fl, out_rep s l (Some fl)
|}.

(** ** Starting *)

(** [main] up to the listening loop.  [Some (inl ids_and_state)] when everything
    has started, [Some (inr tt)] for the two early returns, [None] for an
    exception.  [wal_ok] and [file] are what opening the two files yields. *)
Definition system_start (RingCapacity MaxConsumers : nat) (dflt : SequencedEvent) (out : AckOut Q)
    (old : list SequencedEvent) (wal_ok : bool) (file : option D)
    : option (Z * Z * Z * Running (BroadcastRing SequencedEvent) Q D + unit) :=
  let ring := bcast_new RingCapacity MaxConsumers dflt in
  let '(matcher_id, ring) := register_consumer ring in
  let '(wal_id, ring) := register_consumer ring in
  let '(db_id, ring) := register_consumer ring in
  let '(wal_started, wal) := wal_open_file wal_clock wal_ok (wal_new old) in
  if negb wal_started then Some (inr ())
  else
    '(db_started, db) ← db_open db_clock file db_new;
    if (db_started : bool) then
      Some (inl (matcher_id, wal_id, db_id, mkRunning ring (engine_new PoolCapacity out) wal db))
    else Some (inr ()).

Context {B : Type} `{Broadcast B SequencedEvent}.

(** ** The state in between

    [hist] is what the sequencer has published; the three consumers have handled
    the first [c0], [c1] and [c2] events of it, and the database has written the
    reports [acks].  [old] and [T0] are what the two files held at the start. *)

Record system_inv (out : AckOut Q) (old : list SequencedEvent) (T0 : Tables)
    (hist : list SequencedEvent) (c0 c1 c2 : nat) (acks : list OutboundAck) (s : Running B Q D) : Prop := {
  sy_ring : bc_rep (rn_ring s) hist [c0; c1; c2];
  sy_matcher : @apply_all _ sys_sink (take c0 hist) (engine_new PoolCapacity out) = Some (rn_matcher s);
  sy_wal : wal_inv fsync_every_n_ old (take c1 hist) (rn_wal s);
  sy_db : db_inv wall T0 (filter is_order (take c2 hist)) acks (rn_db s);
  sy_pending : pending_ (rn_db s) < batch_every_n_
}.

End System.

Section SystemProofs.
Context {Q D : Type} `{FifoLaws Q OutboundAck} `{SqliteFaultLaws D}.
Context (PoolCapacity kMaxSpins : nat) (drain : nat → Q → Q).
Context (fsync_every_n_ fsync_interval_ batch_every_n_ batch_interval_ : Z).
Context (wal_clock db_clock wall : nat → Z).
Hypothesis Hdrain : only_drains drain.
Hypothesis Hcap : Z.of_nat PoolCapacity < 2 ^ 31.
Hypothesis Hfsync : 0 < fsync_every_n_ < 2 ^ 64.
Hypothesis Hbatch : 0 < batch_every_n_ < 2 ^ 64.

Lemma sys_sink_laws : @AckSinkLaws (AckOut Q) (sys_sink kMaxSpins drain).
Proof.
  constructor. intros a s (l & fl & Hrep). cbn.
  destruct (engine_push_ack_spec kMaxSpins drain Hdrain a s l (Some fl) Hrep) as (s' & k & Hs & Hor).
  exists s'. split; [done|]. unfold mirrored in Hor.
  destruct Hor as [(Hrep' & _)|(Hrep' & _)]; [case_decide|]; eauto.
Qed.

(** Starting establishes the invariant, and the ids are the ones that [Threads]
    uses; it can fail only by an exception of SQLite. *)
Lemma system_start_inv RingCapacity MaxConsumers dflt out old d T0 :
  (3 ≤ MaxConsumers)%nat → Z.of_nat MaxConsumers < 2 ^ 64 → sq_rep d T0 None →
  match system_start PoolCapacity wal_clock db_clock RingCapacity MaxConsumers dflt out old true (Some d) with
  | Some r => ∃ s, r = inl (0, 1, 2, s) ∧
      @system_inv Q D _ _ PoolCapacity kMaxSpins drain fsync_every_n_ batch_every_n_ wall
        _ (bcast_broadcast SequencedEvent RingCapacity MaxConsumers) out old T0 [] 0 0 0 [] s
  | None => sq_schema d = None ∨ ∃ d', sq_schema d = Some d' ∧ sq_begin d' = None
  end.
Proof.
  intros Hn3 Hmax Hd. unfold system_start. cbn [register_consumer wal_open_file negb].
  pose proof (db_open_ok db_clock wall d T0 Hd) as Hopen.
  destruct (db_open db_clock (Some d) db_new) as [[ok s]|]; cbn [mbind option_bind]; [|done].
  destruct Hopen as (-> & Hinv & Hp). cbn. eexists. split; [done|]. split; cbn; try done; [|by apply wal_open_inv|lia].
  apply (registered_rep RingCapacity MaxConsumers Hmax dflt 3 Hn3).
Qed.

End SystemProofs.

(** ** A concrete process *)

Section DemoSystem.
#[local] Instance sys_demo_ring : Broadcast (BroadcastRing SequencedEvent) SequencedEvent :=
  bcast_broadcast SequencedEvent 2 8.
#[local] Instance sys_demo_fifo : Fifo (SpscRing OutboundAck) OutboundAck := spsc_fifo OutboundAck 4.
#[local] Instance sys_demo_fifo_laws : FifoLaws (SpscRing OutboundAck) OutboundAck :=
  spsc_fifo_laws OutboundAck 4 pow2_capacity_4.

Definition demo_out : AckOut (SpscRing OutboundAck) :=
  mkAckOut (spsc_new 4 demo_ack) (Some (spsc_new 4 demo_ack)) 0 0.

Lemma demo_out_rep : ∃ l fl, out_rep demo_out l (Some fl).
Proof.
  exists [], []. split; exists [], 0%nat; (split; [by apply spsc_new_inv, pow2_capacity_4|done]).
Qed.

End DemoSystem.
