(* ===== verification/Threads.v ===== *)
(** * Threads: the three consumer threads, one shared access at a time

    [Consumer], [Wal] and [Db] run a consumer's loop as one function.  Here the
    same loops of [MatchingEngineConsumer::run], [WalConsumer::run] and
    [DbConsumer::run] are step functions whose control point is the position in
    the loop, so that [Process] can interleave them: a step performs at most one
    operation on the ring or on a queue, and whatever private work goes with
    it. *)

From S2P Require Import Prelude Types ObjectPool OrderBook PriceTime OrderBookProofs SpscRing BroadcastRing Consumer MatchingEngine EngineProofs EngineProperties Wal Db.

#[local] Open Scope Z_scope.

(** ** An event's acks can be pushed after it has been applied

    [apply] interleaves its private work with calls of [push_ack].  Nothing of
    the private state depends on the outcome of a push, so the acks can be
    collected first. *)

Section Factor.
Context {S : Type} `{AckSink S}.

Lemma fill_trades_factor exchange_id trs : ∀ t t' : FillState (list OutboundAck),
  fill_trades exchange_id trs t = Some t' →
  ∃ acks, fs_out t' = fs_out t ++ acks ∧ ∀ out : S,
    fill_trades exchange_id trs (mkFill (fs_filled t) (fs_by_client t) (fs_resting t) out) =
      out' ← push_acks acks out;
      Some (mkFill (fs_filled t') (fs_by_client t') (fs_resting t') out').
Proof.
  induction trs as [|tr trs IH]; intros [f b r o] t'; cbn.
  { intros [= <-]. exists []. by rewrite app_nil_r. }
  unfold fill_trade. cbn. destruct (r !! _) as [info|]; cbn; [|by apply IH].
  set (a := mkAck _ _ _ _ _ _ _). intros Ht.
  destruct (_ =? 0); destruct (IH _ _ Ht) as (acks & Ho & Hacks);
    (exists (a :: acks); cbn in *; rewrite <-app_assoc in Ho; split; [done|]; intros out;
     destruct (push_ack a out) as [out'|]; cbn; [apply Hacks|done]).
Qed.

(** The same state with another sink. *)
Definition with_out {S1 S2 : Type} (e : Engine S1) (out : S2) : Engine S2 :=
  mkEngine (book_ e) (by_client_ e) (resting_ e) (trades_ e) out.

Lemma apply_factor ev (t t' : Engine (list OutboundAck)) :
  apply ev t = Some t' →
  ∃ acks, out_ t' = out_ t ++ acks ∧ ∀ out : S,
    apply ev (with_out t out) = out' ← push_acks acks out; Some (with_out t' out').
Proof.
  destruct t as [bk bc rs tr o]. unfold apply. destruct (ev_type ev).
  - unfold apply_new_order. cbn. destruct (add_limit_order _ _ _ _ _ _ _) as [[b trs]|]; cbn; [|done].
    destruct (fill_trades _ _ _) as [s|] eqn:Hs; cbn; [|done]. intros [= <-]. cbn.
    destruct (fill_trades_factor _ _ _ _ Hs) as (acks & Ho & Hacks). cbn in Ho, Hacks.
    eexists (acks ++ [_]). rewrite Ho, <-app_assoc. split; [done|]. intros out.
    rewrite Hacks, push_acks_app. destruct (push_acks acks out) as [o1|]; cbn; [|done].
    by destruct (push_ack _ o1).
  - unfold apply_cancel_order. cbn. destruct (bc !! _) as [id|].
    + destruct (cancel _ _) as [[rm b]|]; cbn; [|done]. intros [= <-]. cbn.
      eexists [_]. split; [done|]. intros out. cbn. by destruct (push_ack _ out).
    + intros [= <-]. eexists [_]. split; [done|]. intros out. cbn. by destruct (push_ack _ out).
  - intros [= <-]. exists []. by rewrite app_nil_r.
  - intros [= <-]. exists []. by rewrite app_nil_r.
Qed.

End Factor.

(** ** The threads *)

(** The position in a consumer's loop: at its condition, in the batch loop over
    the ring, in the one over the fills queue, in the final drain of either, or
    returned. *)
Inductive LoopPc :=
| LPass
| LBatch (i : nat)
| LFills (i : nat)
| LDrain
| LDrainFills
| LDone.

(** Inside [push_ack]: trying the client-facing queue, mirroring to the fills
    queue, or not in it. *)
Inductive PushPc :=
| PIdle
| PTry (a : OutboundAck) (rest : list OutboundAck) (spins : nat)
| PMirror (a : OutboundAck) (rest : list OutboundAck).

Definition next_push (acks : list OutboundAck) : PushPc :=
  match acks with [] => PIdle | a :: rest => PTry a rest 0 end.

(** The matching engine: [out_] of the engine lists every ack it has made. *)
Record Matcher := mkMatcher {
  m_engine : Engine (list OutboundAck);
  m_loop : LoopPc;
  m_push : PushPc;
  m_acks_dropped : Z;
  m_fills_dropped : Z
}.

Record WalTh := mkWalTh { w_wal : Wal; w_loop : LoopPc }.
Record DbTh (D : Type) := mkDbTh { d_db : Db D; d_loop : LoopPc; d_file : option D }.
Arguments mkDbTh {D} _ _ _.
Arguments d_db {D} _.
Arguments d_loop {D} _.
Arguments d_file {D} _.

(** What the threads share. *)
Record Shared (B Q : Type) := mkShared { sh_ring : B; sh_acks : Q; sh_fills : Q }.
Arguments mkShared {B Q} _ _ _.
Arguments sh_ring {B Q} _.
Arguments sh_acks {B Q} _.
Arguments sh_fills {B Q} _.

Definition batch_size : nat := 32.

Section Steps.
Context {B Q D : Type} `{Broadcast B SequencedEvent} `{Fifo Q OutboundAck} `{Sqlite D}.
Context (kMaxSpins : nat).
Context (fsync_every_n_ fsync_interval_ batch_every_n_ batch_interval_ : Z).
Context (wal_clock db_clock wall : nat → Z).

(** A step yields the event it has taken from the ring, if any, and the ack it
    has taken from the fills queue, if any.  [None]: returned, or undefined. *)

(** [try_consume(consumer_id, ev)], then [k]. *)
Definition consume {X} (consumer_id : nat) (sh : Shared B Q)
    (k : option SequencedEvent → option X) : option (option SequencedEvent * Shared B Q * X) :=
  '(r, b) ← bc_consume consumer_id (sh_ring sh);
  x ← k r;
  Some (r, mkShared b (sh_acks sh) (sh_fills sh), x).

(** Which acks [apply] has made. *)
Definition new_acks (e e' : Engine (list OutboundAck)) : list OutboundAck :=
  drop (length (out_ e)) (out_ e').

(** [apply(ev)] from the loop position [pc], and back to [pc']. *)
Definition matcher_handle (m : Matcher) (empty next : LoopPc) (r : option SequencedEvent) : option Matcher :=
  match r with
  | None => Some (mkMatcher (m_engine m) empty PIdle (m_acks_dropped m) (m_fills_dropped m))
  | Some ev =>
      e ← apply ev (m_engine m);
      Some (mkMatcher e next (next_push (new_acks (m_engine m) e)) (m_acks_dropped m) (m_fills_dropped m))
  end.

Definition matcher_goto (m : Matcher) (pc : LoopPc) (push : PushPc) : Matcher :=
  mkMatcher (m_engine m) pc push (m_acks_dropped m) (m_fills_dropped m).

Definition matcher_step (running : bool) (sh : Shared B Q) (m : Matcher)
    : option (option SequencedEvent * Shared B Q * Matcher) :=
  match m_push m with
  | PTry a rest spins =>
      '(ok, q) ← fifo_push a (sh_acks sh);
      let sh' := mkShared (sh_ring sh) q (sh_fills sh) in
      if ok : bool then Some (None, sh', matcher_goto m (m_loop m) (PMirror a rest))
      else if (kMaxSpins <? spins)%nat then
        Some (None, sh', mkMatcher (m_engine m) (m_loop m) (next_push rest)
                           (u64 (m_acks_dropped m + 1)) (m_fills_dropped m))
      else Some (None, sh', matcher_goto m (m_loop m) (PTry a rest (S spins)))
  | PMirror a rest =>
      '(ok, q) ← fifo_push a (sh_fills sh);
      Some (None, mkShared (sh_ring sh) (sh_acks sh) q,
            mkMatcher (m_engine m) (m_loop m) (next_push rest) (m_acks_dropped m)
              (if ok : bool then m_fills_dropped m else u64 (m_fills_dropped m + 1)))
  | PIdle =>
      match m_loop m with
      | LPass => Some (None, sh, matcher_goto m (if running then LBatch 0 else LDrain) PIdle)
      | LBatch i =>
          if (i <? batch_size)%nat then consume 0 sh (matcher_handle m LPass (LBatch (S i)))
          else Some (None, sh, matcher_goto m LPass PIdle)
      | LDrain => consume 0 sh (matcher_handle m LDone LDrain)
      | _ => None
      end
  end.

(** [append(ev)], or the end of the loop. *)
Definition wal_handle (w : Wal) (next : LoopPc) (exit : option WalTh) (r : option SequencedEvent)
    : option WalTh :=
  match r with
  | None => exit
  | Some ev => w' ← append fsync_every_n_ fsync_interval_ wal_clock ev w; Some (mkWalTh w' next)
  end.

(** The end of a pass: [maybe_fsync(false)]. *)
Definition wal_end_pass (w : Wal) : option WalTh :=
  w' ← maybe_fsync fsync_every_n_ fsync_interval_ wal_clock false w; Some (mkWalTh w' LPass).

Definition wal_end (w : Wal) : option WalTh :=
  w' ← wal_close fsync_every_n_ fsync_interval_ wal_clock w; Some (mkWalTh w' LDone).

Definition wal_step (running : bool) (sh : Shared B Q) (t : WalTh)
    : option (option SequencedEvent * Shared B Q * WalTh) :=
  match w_loop t with
  | LPass => Some (None, sh, mkWalTh (w_wal t) (if running then LBatch 0 else LDrain))
  | LBatch i =>
      if (i <? batch_size)%nat
      then consume 1 sh (wal_handle (w_wal t) (LBatch (S i)) (wal_end_pass (w_wal t)))
      else t' ← wal_end_pass (w_wal t); Some (None, sh, t')
  | LDrain => consume 1 sh (wal_handle (w_wal t) LDrain (wal_end (w_wal t)))
  | _ => None
  end.

(** [append_order(ev)] if it is an order, or the end of the loop. *)
Definition db_take (t : DbTh D) (empty next : LoopPc) (r : option SequencedEvent) : option (DbTh D) :=
  match r with
  | None => Some (mkDbTh (d_db t) empty (d_file t))
  | Some ev =>
      if is_order ev then
        s ← append_order batch_every_n_ batch_interval_ db_clock ev (d_db t);
        Some (mkDbTh s next (d_file t))
      else Some (mkDbTh (d_db t) next (d_file t))
  end.

(** [fills_.pop(ack)], then [append_execution_report(ack)] or the end of the
    loop. *)
Definition db_pop (sh : Shared B Q) (t : DbTh D) (next : LoopPc) (exit : option (DbTh D))
    : option (option OutboundAck * Shared B Q * DbTh D) :=
  '(r, q) ← fifo_pop (sh_fills sh);
  t' ← match r with
       | None => exit
       | Some a =>
           s ← append_execution_report batch_every_n_ batch_interval_ db_clock wall a (d_db t);
           Some (mkDbTh s next (d_file t))
       end;
  Some (r, mkShared (sh_ring sh) (sh_acks sh) q, t').

Definition db_end_pass (t : DbTh D) : option (DbTh D) :=
  s ← maybe_flush batch_every_n_ batch_interval_ db_clock false (d_db t);
  Some (mkDbTh s LPass (d_file t)).

Definition db_end (t : DbTh D) : option (DbTh D) :=
  '(f, s) ← db_close batch_every_n_ batch_interval_ db_clock (d_db t);
  Some (mkDbTh s LDone f).

Definition with_event {X} (o : option (option SequencedEvent * Shared B Q * X))
    : option (option SequencedEvent * option OutboundAck * Shared B Q * X) :=
  '(r, sh, x) ← o; Some (r, None, sh, x).
Definition with_ack {X} (o : option (option OutboundAck * Shared B Q * X))
    : option (option SequencedEvent * option OutboundAck * Shared B Q * X) :=
  '(r, sh, x) ← o; Some (None, r, sh, x).

Definition db_step (running : bool) (sh : Shared B Q) (t : DbTh D)
    : option (option SequencedEvent * option OutboundAck * Shared B Q * DbTh D) :=
  match d_loop t with
  | LPass => Some (None, None, sh, mkDbTh (d_db t) (if running then LBatch 0 else LDrain) (d_file t))
  | LBatch i =>
      if (i <? batch_size)%nat then with_event (consume 2 sh (db_take t (LFills 0) (LBatch (S i))))
      else Some (None, None, sh, mkDbTh (d_db t) (LFills 0) (d_file t))
  | LFills i =>
      if (i <? batch_size)%nat then with_ack (db_pop sh t (LFills (S i)) (db_end_pass t))
      else t' ← db_end_pass t; Some (None, None, sh, t')
  | LDrain => with_event (consume 2 sh (db_take t LDrainFills LDrain))
  | LDrainFills => with_ack (db_pop sh t LDrainFills (db_end t))
  | LDone => None
  end.

End Steps.

(** ** What a thread maintains

    [hist] is what has been published and [l] what the thread has taken of it. *)

Definition stopping (pc : LoopPc) : bool :=
  match pc with LDrain | LDrainFills | LDone => true | _ => false end.

Definition past_ring (pc : LoopPc) : bool :=
  match pc with LDrainFills | LDone => true | _ => false end.

(** The ack that [push_ack] has delivered but not mirrored yet, and the acks it
    has still to deliver. *)
Definition mirroring (p : PushPc) : list OutboundAck :=
  match p with PMirror a _ => [a] | _ => [] end.
Definition pending (p : PushPc) : list OutboundAck :=
  match p with PIdle => [] | PTry a rest _ => a :: rest | PMirror _ rest => rest end.

(** Every ack made is pending, accepted by the client-facing queue, or counted
    as dropped; every accepted one is being mirrored, accepted by the fills
    queue, or counted. *)
Record ack_flow (made : list OutboundAck) (p : PushPc) (accepted mirrored : list OutboundAck)
    (dropped fdropped : Z) : Prop := {
  af_accepted : ∃ handled, made = handled ++ pending p ∧ accepted `sublist_of` handled ∧
    dropped = u64 (Z.of_nat (length handled) - Z.of_nat (length accepted));
  af_mirrored : ∃ offered, accepted = offered ++ mirroring p ∧ mirrored `sublist_of` offered ∧
    fdropped = u64 (Z.of_nat (length offered) - Z.of_nat (length mirrored))
}.

Lemma pending_next acks : pending (next_push acks) = acks.
Proof. by destruct acks. Qed.
Lemma mirroring_next acks : mirroring (next_push acks) = [].
Proof. by destruct acks. Qed.

Lemma ack_flow_more made acks accepted mirrored n m :
  ack_flow made PIdle accepted mirrored n m →
  ack_flow (made ++ acks) (next_push acks) accepted mirrored n m.
Proof.
  intros [(h & -> & Hs & Hn) (o & -> & Hm & Hf)]. rewrite !app_nil_r in *.
  split; [exists h|exists o]; rewrite ?pending_next, ?mirroring_next, ?app_nil_r; done.
Qed.

Lemma ack_flow_spin made a rest k accepted mirrored n m :
  ack_flow made (PTry a rest k) accepted mirrored n m →
  ack_flow made (PTry a rest (S k)) accepted mirrored n m.
Proof. by intros [Ha Hm]. Qed.

Lemma ack_flow_accept made a rest k accepted mirrored n m :
  ack_flow made (PTry a rest k) accepted mirrored n m →
  ack_flow made (PMirror a rest) (accepted ++ [a]) mirrored n m.
Proof.
  intros [(h & -> & Hs & ->) (o & -> & Hm & ->)]. cbn in *. rewrite app_nil_r in *. split.
  - exists (h ++ [a]). rewrite <-app_assoc. split_and!; [done|by apply sublist_app|].
    rewrite !length_app. cbn. f_equal. lia.
  - by exists o.
Qed.

Lemma ack_flow_drop made a rest k accepted mirrored n m :
  ack_flow made (PTry a rest k) accepted mirrored n m →
  ack_flow made (next_push rest) accepted mirrored (u64 (n + 1)) m.
Proof.
  intros [(h & -> & Hs & ->) (o & -> & Hm & ->)]. cbn in *. rewrite app_nil_r in *. split.
  - exists (h ++ [a]). rewrite pending_next, <-app_assoc. split_and!; [done|by apply sublist_inserts_r|].
    rewrite wrap_unsigned_add_l, length_app. cbn. f_equal. lia.
  - exists o. by rewrite mirroring_next, app_nil_r.
Qed.

Lemma ack_flow_mirror made a rest accepted mirrored n m (ok : bool) :
  ack_flow made (PMirror a rest) accepted mirrored n m →
  ack_flow made (next_push rest) accepted (mirrored ++ if ok then [a] else []) n
    (if ok then m else u64 (m + 1)).
Proof.
  intros [(h & -> & Hs & ->) (o & -> & Hm & ->)]. cbn in *. split.
  - exists h. by rewrite pending_next.
  - exists (o ++ [a]). rewrite mirroring_next, app_nil_r. split_and!; [done| |].
    + apply sublist_app; [done|]. destruct ok; [done|apply sublist_nil_l].
    + destruct ok; rewrite ?wrap_unsigned_add_l, !length_app; cbn; f_equal; lia.
Qed.

Record matcher_inv (cap : nat) (l : list SequencedEvent) (accepted mirrored : list OutboundAck)
    (m : Matcher) : Prop := {
  mi_engine : apply_all l (engine_new cap []) = Some (m_engine m);
  mi_flow : ack_flow (out_ (m_engine m)) (m_push m) accepted mirrored (m_acks_dropped m) (m_fills_dropped m);
  mi_loop : match m_loop m with LFills _ | LDrainFills => False | LDone => m_push m = PIdle | _ => True end
}.

Definition walth_inv (n : Z) (old l : list SequencedEvent) (t : WalTh) : Prop :=
  match w_loop t with
  | LDone => wal_durable (w_wal t) = old ++ l ∧ wal_unsynced (w_wal t) = []
  | LFills _ | LDrainFills => False
  | _ => wal_inv n old l (w_wal t)
  end.

Definition dbth_inv {D} `{Sqlite D} (n : Z) (wall : nat → Z) (T0 : Tables) (l : list SequencedEvent)
    (written : list OutboundAck) (t : DbTh D) : Prop :=
  match d_loop t with
  | LDone => ∃ d, d_file t = Some d ∧ db_final wall T0 (filter is_order l) written d (d_db t)
  | _ => db_inv wall T0 (filter is_order l) written (d_db t) ∧ pending_ (d_db t) < n
  end.

(** The database thread is about to be stopped by an exception: SQLite refuses to
    commit or to begin, now or after the row that is being written. *)
Definition db_refused {D} `{Sqlite D} (t : DbTh D) : Prop := ∃ d, db_ (d_db t) = Some d ∧ sq_refuses d.

Section StepProofs.
Context {B Q : Type} `{BroadcastLaws B SequencedEvent} `{FifoLaws Q OutboundAck}.
Context (hist : list SequencedEvent) (cs : list nat).

(** The state of the ring as consumer [i] finds it. *)
Definition ring_at (i : nat) (l : list SequencedEvent) (sh : Shared B Q) : Prop :=
  bc_rep (sh_ring sh) hist cs ∧ cs !! i = Some (length l) ∧ l = take (length l) hist.

(** What a step does to the ring: nothing, or it takes the next event. *)
Definition ring_post (i : nat) (l : list SequencedEvent) (sh sh' : Shared B Q)
    (r : option SequencedEvent) : Prop :=
  match r with
  | None => sh_ring sh' = sh_ring sh
  | Some ev => bc_consume i (sh_ring sh) = Some (Some ev, sh_ring sh')
  end.

(** How a step moves through the loop. *)
Definition loop_post (running : bool) (pc pc' : LoopPc) (l' : list SequencedEvent) : Prop :=
  (stopping pc' = true → stopping pc = true ∨ running = false) ∧
  (past_ring pc' = true → past_ring pc = true ∨ l' = hist).

Lemma consume_cases {X} i l sh (k : option SequencedEvent → option X) :
  ring_at i l sh →
  (∃ ev b, bc_consume i (sh_ring sh) = Some (Some ev, b) ∧ (l ++ [ev]) `prefix_of` hist ∧
     consume i sh k = x ← k (Some ev); Some (Some ev, mkShared b (sh_acks sh) (sh_fills sh), x)) ∨
  (l = hist ∧ consume i sh k = x ← k None; Some (None, sh, x)).
Proof.
  intros (Hrep & Hc & Hl). destruct (consume_step i hist (sh_ring sh) cs _ Hrep Hc)
    as [(ev & b & Hb & Ht & _)|[Hb Hlen]]; unfold consume; rewrite Hb; cbn [mbind option_bind].
  - left. exists ev, b. split_and!; [done| |done]. rewrite Hl, <-Ht. apply prefix_take.
  - right. split; [|by destruct sh]. rewrite Hlen, firstn_all in Hl. done.
Qed.

(** *** The matching engine *)

Section MatcherProofs.
Context (cap kMaxSpins : nat).
Hypothesis Hcap : Z.of_nat cap < 2 ^ 31.

Lemma apply_next l ev e :
  stream_ok 1 hist → (l ++ [ev]) `prefix_of` hist →
  apply_all l (engine_new cap ([] : list OutboundAck)) = Some e →
  ∃ e', apply ev e = Some e' ∧ apply_all (l ++ [ev]) (engine_new cap []) = Some e' ∧
        out_ e' = out_ e ++ new_acks e e'.
Proof.
  intros Hst [rest ->] He.
  destruct (apply_all_sim cap Hcap (l ++ [ev]) (engine_new cap ([] : list OutboundAck)) (mkABook [] []) 1)
    as (e' & _ & _ & He' & _).
  { by apply engine_new_inv. }
  { clear -Hst. revert Hst. generalize 1. induction (l ++ [ev]) as [|x xs IH]; intros n; cbn; naive_solver. }
  exists e'. assert (apply ev e = Some e') as Hap.
  { rewrite apply_all_app, He in He'. cbn in He'. by destruct (apply ev e). }
  split_and!; [done|done|]. destruct (apply_factor (S := list OutboundAck) ev e e' Hap) as (acks & Ho & _).
  unfold new_acks. rewrite Ho at 1. f_equal. by rewrite Ho, drop_app_length.
Qed.

Lemma matcher_handle_ok l accepted mirrored m empty next ev :
  stream_ok 1 hist → (l ++ [ev]) `prefix_of` hist → m_push m = PIdle →
  matcher_inv cap l accepted mirrored m → (match next with LBatch _ | LDrain => True | _ => False end) →
  ∃ m', matcher_handle m empty next (Some ev) = Some m' ∧
    matcher_inv cap (l ++ [ev]) accepted mirrored m' ∧ m_loop m' = next.
Proof.
  intros Hst Hp Hpush [He Hfl _] Hnext. destruct (apply_next l ev _ Hst Hp He) as (e' & Hap & He' & Ho).
  cbn. rewrite Hap. cbn. eexists. split; [done|]. split; [|done]. split; cbn; [done| |by destruct next].
  rewrite Hpush in Hfl. rewrite Ho. by apply ack_flow_more.
Qed.

Lemma matcher_goto_ok l accepted mirrored m pc :
  m_push m = PIdle → matcher_inv cap l accepted mirrored m →
  (match pc with LFills _ | LDrainFills => False | _ => True end) →
  matcher_inv cap l accepted mirrored (matcher_goto m pc PIdle).
Proof. intros Hp [? Hfl _] Hpc. rewrite Hp in Hfl. split; cbn; [done|done|by destruct pc]. Qed.

(** The result of a step of the matching engine. *)
Definition matcher_post (running : bool) (l : list SequencedEvent) (popped written : list OutboundAck)
    (sh : Shared B Q) (m : Matcher) (r : option SequencedEvent) (sh' : Shared B Q) (m' : Matcher) : Prop :=
  ring_post 0 l sh sh' r ∧ (l ++ option_list r) `prefix_of` hist ∧
  (∃ acks fills, fifo_rep (sh_acks sh') acks ∧ fifo_rep (sh_fills sh') fills ∧
     matcher_inv cap (l ++ option_list r) (popped ++ acks) (written ++ fills) m') ∧
  loop_post running (m_loop m) (m_loop m') (l ++ option_list r).

Lemma matcher_loop_ok running l popped written acks fills sh m :
  stream_ok 1 hist → ring_at 0 l sh → fifo_rep (sh_acks sh) acks → fifo_rep (sh_fills sh) fills →
  matcher_inv cap l (popped ++ acks) (written ++ fills) m → m_push m = PIdle → m_loop m ≠ LDone →
  ∃ r sh' m', matcher_step kMaxSpins running sh m = Some (r, sh', m') ∧
    matcher_post running l popped written sh m r sh' m'.
Proof.
  intros Hst Hring Ha Hf Hinv Hp Hnd. pose proof (mi_loop _ _ _ _ _ Hinv) as Hl.
  assert (l `prefix_of` hist) as Hpre by (destruct Hring as (_ & _ & ->); apply prefix_take).
  assert (∀ pc, (match pc with LFills _ | LDrainFills => False | _ => True end) →
     loop_post running (m_loop m) pc l →
     matcher_post running l popped written sh m None sh (matcher_goto m pc PIdle)) as Hgoto.
  { intros pc Hpc Hlp. unfold matcher_post. cbn. rewrite app_nil_r. split_and!; [done|done| |done].
    exists acks, fills. split_and!; [done|done|]. by apply matcher_goto_ok. }
  assert (∀ empty next, (match empty with LPass | LDone => True | _ => False end) →
     (match next with LBatch _ | LDrain => True | _ => False end) →
     (stopping empty = true → stopping (m_loop m) = true) → (stopping next = true → stopping (m_loop m) = true) →
     ∃ r sh' m', consume 0 sh (matcher_handle m empty next) = Some (r, sh', m') ∧
       matcher_post running l popped written sh m r sh' m') as Hcons.
  { intros empty next He Hn Hse Hsn.
    destruct (consume_cases 0 l sh (matcher_handle m empty next) Hring) as [(ev & b & Hb & Hpr & ->)|[Hlh ->]].
    - destruct (matcher_handle_ok l _ _ m empty next ev Hst Hpr Hp Hinv Hn) as (m' & -> & Hinv' & Hpc).
      eexists _, _, m'. split; [done|]. split_and!; [done|done|by exists acks, fills|].
      unfold loop_post. rewrite Hpc. split; [naive_solver|by destruct next].
    - eexists _, _, _. split; [done|]. apply (Hgoto empty); [by destruct empty|]. split; naive_solver. }
  unfold matcher_step. rewrite Hp. destruct (m_loop m) eqn:Hpc; try done.
  - eexists _, _, _. split; [done|]. apply Hgoto; [by destruct running|]. destruct running; split; naive_solver.
  - destruct (i <? batch_size)%nat; [by apply Hcons|].
    eexists _, _, _. split; [done|]. apply Hgoto; [done|]. by split.
  - by apply Hcons.
Qed.

Lemma matcher_push_ok running l popped written acks fills sh m :
  ring_at 0 l sh → fifo_rep (sh_acks sh) acks → fifo_rep (sh_fills sh) fills →
  matcher_inv cap l (popped ++ acks) (written ++ fills) m → m_push m ≠ PIdle →
  ∃ sh' m', matcher_step kMaxSpins running sh m = Some (None, sh', m') ∧
    matcher_post running l popped written sh m None sh' m'.
Proof.
  intros Hring Ha Hf [He Hfl Hl] Hp.
  assert (l `prefix_of` hist) as Hpre by (destruct Hring as (_ & _ & ->); apply prefix_take).
  assert (∀ sh' m' acks' fills', sh_ring sh' = sh_ring sh → m_engine m' = m_engine m → m_loop m' = m_loop m →
     fifo_rep (sh_acks sh') acks' → fifo_rep (sh_fills sh') fills' →
     ack_flow (out_ (m_engine m)) (m_push m') (popped ++ acks') (written ++ fills')
       (m_acks_dropped m') (m_fills_dropped m') →
     matcher_post running l popped written sh m None sh' m') as Hgo.
  { intros sh' m' acks' fills' Hr Hee Hpc Ha' Hf' Hfl'. unfold matcher_post. cbn. rewrite app_nil_r.
    split_and!; [done|done| |rewrite Hpc; split; naive_solver].
    exists acks', fills'. split_and!; [done|done|]. split; rewrite ?Hee, ?Hpc; [done|done|].
    destruct (m_loop m); naive_solver. }
  unfold matcher_step. destruct (m_push m) as [|a rest k|a rest] eqn:Hm; [done| |].
  - pose proof (fifo_push_law (sh_acks sh) acks a Ha) as Hlaw. case_decide.
    + destruct Hlaw as (q & -> & Hq). cbn. eexists _, _. split; [done|].
      eapply Hgo; cbn; try done. rewrite app_assoc. by eapply ack_flow_accept.
    + rewrite Hlaw. cbn [mbind option_bind]. destruct (kMaxSpins <? k)%nat; (eexists _, _; split; [done|]; eapply Hgo; cbn; try done).
      * by eapply ack_flow_drop.
      * by eapply ack_flow_spin.
  - pose proof (fifo_push_law (sh_fills sh) fills a Hf) as Hlaw. case_decide.
    + destruct Hlaw as (q & -> & Hq). cbn. eexists _, _. split; [done|].
      eapply Hgo; cbn; try done. rewrite app_assoc. by apply (ack_flow_mirror _ a _ _ _ _ _ true).
    + rewrite Hlaw. cbn. eexists _, _. split; [done|]. eapply Hgo; cbn; try done.
      rewrite <-(app_nil_r (written ++ fills)). by apply (ack_flow_mirror _ a _ _ _ _ _ false).
Qed.

Lemma matcher_step_ok running l popped written acks fills sh m :
  stream_ok 1 hist → ring_at 0 l sh → fifo_rep (sh_acks sh) acks → fifo_rep (sh_fills sh) fills →
  matcher_inv cap l (popped ++ acks) (written ++ fills) m → m_loop m ≠ LDone →
  ∃ r sh' m', matcher_step kMaxSpins running sh m = Some (r, sh', m') ∧
    matcher_post running l popped written sh m r sh' m'.
Proof.
  intros Hst Hring Ha Hf Hinv Hnd.
  assert (m_push m = PIdle ∨ m_push m ≠ PIdle) as [Hp|Hp] by (destruct (m_push m); auto).
  - by eapply matcher_loop_ok.
  - destruct (matcher_push_ok running l popped written acks fills sh m) as (sh' & m' & ? & ?); eauto.
Qed.

End MatcherProofs.

(** *** The write-ahead log *)

Section WalProofs.
Context (fsync_every_n_ fsync_interval_ : Z) (wal_clock : nat → Z).
Hypothesis Hfsync : 0 < fsync_every_n_ < 2 ^ 64.

Lemma wal_end_pass_ok old l w :
  wal_inv fsync_every_n_ old l w →
  ∃ w', wal_end_pass fsync_every_n_ fsync_interval_ wal_clock w = Some (mkWalTh w' LPass) ∧
        wal_inv fsync_every_n_ old l w'.
Proof.
  intros [? ? ? ? ?]. unfold wal_end_pass.
  destruct (maybe_fsync_ok fsync_every_n_ fsync_interval_ wal_clock Hfsync old l w) as (w' & -> & ? & _); eauto.
Qed.

Definition wal_post (running : bool) (old l : list SequencedEvent) (sh : Shared B Q) (t : WalTh)
    (r : option SequencedEvent) (sh' : Shared B Q) (t' : WalTh) : Prop :=
  ring_post 1 l sh sh' r ∧ (l ++ option_list r) `prefix_of` hist ∧
  sh_acks sh' = sh_acks sh ∧ sh_fills sh' = sh_fills sh ∧
  walth_inv fsync_every_n_ old (l ++ option_list r) t' ∧
  loop_post running (w_loop t) (w_loop t') (l ++ option_list r).

Lemma wal_stay running old l sh t t' :
  ring_at 1 l sh → walth_inv fsync_every_n_ old l t' → loop_post running (w_loop t) (w_loop t') l →
  wal_post running old l sh t None sh t'.
Proof.
  intros (_ & _ & Hl) Hi Hlp. unfold wal_post. cbn. rewrite app_nil_r. split_and!; try done.
  rewrite Hl. apply prefix_take.
Qed.

Lemma wal_take running old l sh t next exit t' :
  ring_at 1 l sh → wal_inv fsync_every_n_ old l (w_wal t) →
  (match next with LBatch _ | LDrain => True | _ => False end) →
  (stopping next = true → stopping (w_loop t) = true) →
  exit = Some t' → walth_inv fsync_every_n_ old l t' →
  (l = hist → loop_post running (w_loop t) (w_loop t') l) →
  ∃ r sh' t'', consume 1 sh (wal_handle fsync_every_n_ fsync_interval_ wal_clock (w_wal t) next exit)
                = Some (r, sh', t'') ∧ wal_post running old l sh t r sh' t''.
Proof.
  intros Hring Hw Hn Hsn -> Ht' Hlp.
  destruct (consume_cases 1 l sh (wal_handle fsync_every_n_ fsync_interval_ wal_clock (w_wal t) next (Some t')) Hring)
    as [(ev & b & Hb & Hpr & ->)|[Hlh ->]]; cbn.
  - destruct (append_ok fsync_every_n_ fsync_interval_ wal_clock Hfsync old l ev (w_wal t) Hw)
      as (w' & -> & Hw' & _). cbn. eexists _, _, _. split; [done|].
    split_and!; cbn; try done; [by destruct next|]. split; [naive_solver|by destruct next].
  - eexists _, _, _. split; [done|]. apply wal_stay; auto.
Qed.

Lemma wal_step_ok running old l sh t :
  ring_at 1 l sh → walth_inv fsync_every_n_ old l t → w_loop t ≠ LDone →
  ∃ r sh' t', wal_step fsync_every_n_ fsync_interval_ wal_clock running sh t = Some (r, sh', t') ∧
    wal_post running old l sh t r sh' t'.
Proof.
  intros Hring Hinv Hnd. unfold walth_inv in Hinv. unfold wal_step. destruct (w_loop t) eqn:Hpc; try done.
  - eexists _, _, _. split; [done|]. apply wal_stay; [done|by destruct running|].
    rewrite Hpc. cbn. destruct running; split; naive_solver.
  - destruct (wal_end_pass_ok old l (w_wal t) Hinv) as (w' & He & Hw'). destruct (i <? batch_size)%nat.
    + eapply wal_take; try done; rewrite ?Hpc; done.
    + rewrite He. cbn. eexists _, _, _. split; [done|]. apply wal_stay; [done|done|]. rewrite Hpc. done.
  - destruct (wal_close_ok fsync_every_n_ fsync_interval_ wal_clock old l (w_wal t) Hinv)
      as (w' & Hc & _ & Hd & Hu & _).
    eapply wal_take with (t' := mkWalTh w' LDone); try done; rewrite ?Hpc; try done.
    + unfold wal_end. by rewrite Hc.
    + intros Hlh. split; cbn; auto.
Qed.

End WalProofs.

(** *** The database *)

Section DbThreadProofs.
Context {D : Type} `{SqliteFaultLaws D}.
Context (batch_every_n_ batch_interval_ : Z) (db_clock wall : nat → Z).
Hypothesis Hbatch : 0 < batch_every_n_ < 2 ^ 64.

Definition db_post (running : bool) (T0 : Tables) (l : list SequencedEvent) (written fills : list OutboundAck)
    (sh : Shared B Q) (t : DbTh D) (r : option SequencedEvent) (a : option OutboundAck)
    (sh' : Shared B Q) (t' : DbTh D) : Prop :=
  ring_post 2 l sh sh' r ∧ (l ++ option_list r) `prefix_of` hist ∧ sh_acks sh' = sh_acks sh ∧
  (∃ fills', fifo_rep (sh_fills sh') fills' ∧ fills = option_list a ++ fills' ∧
     (d_loop t' = LDone → fills' = [])) ∧
  dbth_inv batch_every_n_ wall T0 (l ++ option_list r) (written ++ option_list a) t' ∧
  loop_post running (d_loop t) (d_loop t') (l ++ option_list r).

(** The database is open; the control point is [pc]. *)
Definition db_live (T0 : Tables) (l : list SequencedEvent) (written : list OutboundAck) (s : Db D) : Prop :=
  db_inv wall T0 (filter is_order l) written s ∧ pending_ s < batch_every_n_.

Lemma db_live_inv T0 l written s pc f :
  db_live T0 l written s → pc ≠ LDone → dbth_inv batch_every_n_ wall T0 l written (mkDbTh s pc f).
Proof. intros Hl Hpc. by destruct pc. Qed.

Lemma db_stay running T0 l written fills sh t t' :
  ring_at 2 l sh → fifo_rep (sh_fills sh) fills → dbth_inv batch_every_n_ wall T0 l written t' →
  loop_post running (d_loop t) (d_loop t') l → (d_loop t' = LDone → fills = []) →
  db_post running T0 l written fills sh t None None sh t'.
Proof.
  intros (_ & _ & Hl) Hf Hi Hlp Hd. unfold db_post. cbn. rewrite !app_nil_r. split_and!; try done.
  - rewrite Hl. apply prefix_take.
  - by exists fills.
Qed.

(** How a step ends. *)
Definition db_outcome (running : bool) (T0 : Tables) (l : list SequencedEvent) (written fills : list OutboundAck)
    (sh : Shared B Q) (t : DbTh D) (o : option (option SequencedEvent * option OutboundAck * Shared B Q * DbTh D)) : Prop :=
  match o with
  | Some (r, a, sh', t') => db_post running T0 l written fills sh t r a sh' t'
  | None => db_refused t
  end.

Lemma db_take_ok running T0 l written fills sh t empty next :
  ring_at 2 l sh → fifo_rep (sh_fills sh) fills → db_live T0 l written (d_db t) →
  empty ≠ LDone → (match next with LBatch _ | LDrain => True | _ => False end) →
  (stopping next = true → stopping (d_loop t) = true) →
  (stopping empty = true → stopping (d_loop t) = true) →
  db_outcome running T0 l written fills sh t
    (with_event (consume 2 sh (db_take batch_every_n_ batch_interval_ db_clock t empty next))).
Proof.
  intros Hring Hf Hlive He Hn Hsn Hse.
  destruct (consume_cases 2 l sh (db_take batch_every_n_ batch_interval_ db_clock t empty next) Hring)
    as [(ev & b & Hb & Hpr & ->)|[Hlh ->]]; cbn.
  - assert (match db_take batch_every_n_ batch_interval_ db_clock t empty next (Some ev) with
            | Some t' => ∃ s, t' = mkDbTh s next (d_file t) ∧ db_live T0 (l ++ [ev]) written s
            | None => db_refused t end) as Htake.
    { cbn. unfold db_live. rewrite filter_app, filter_cons, filter_nil. destruct Hlive as [Hi Hp].
      destruct (is_order ev) eqn:Ho; cbn.
      - rewrite decide_True by done. pose proof (append_order_ok batch_every_n_ batch_interval_ db_clock wall
          Hbatch T0 _ written ev (d_db t) Hi Hp) as Ha. destruct (append_order _ _ _ _ _); [cbn; eauto|done].
      - rewrite decide_False by naive_solver. rewrite app_nil_r. eauto. }
    cbn in Htake. destruct (if is_order ev then _ else _) as [t'|]; cbn; [|done].
    destruct Htake as (s & -> & Hl'). unfold db_post. cbn. rewrite app_nil_r.
    split_and!; try done; [exists fills; split_and!; [done|done|by destruct next]| |].
    + by apply db_live_inv; [|destruct next].
    + split; [naive_solver|by destruct next].
  - apply db_stay; [done|done|by apply db_live_inv|split; naive_solver|]. by intros.
Qed.

Lemma db_pop_ok running T0 l written fills sh t next exit :
  ring_at 2 l sh → fifo_rep (sh_fills sh) fills → db_live T0 l written (d_db t) →
  next ≠ LDone → (stopping next = true → stopping (d_loop t) = true) →
  (past_ring next = true → past_ring (d_loop t) = true) →
  match exit with
  | Some t' => dbth_inv batch_every_n_ wall T0 l written t' ∧ loop_post running (d_loop t) (d_loop t') l
  | None => db_refused t
  end →
  db_outcome running T0 l written fills sh t
    (with_ack (db_pop batch_every_n_ batch_interval_ db_clock wall sh t next exit)).
Proof.
  intros Hring Hf [Hi Hp] Hn Hsn Hpn Hexit. unfold db_pop.
  pose proof (fifo_pop_law (sh_fills sh) fills Hf) as Hlaw. destruct fills as [|a fills].
  - rewrite Hlaw. cbn. destruct exit as [t'|]; cbn; [|done]. replace (mkShared _ _ _) with sh by (by destruct sh).
    destruct Hexit. by apply db_stay.
  - destruct Hlaw as (q & -> & Hq). cbn [mbind option_bind].
    pose proof (append_exec_ok batch_every_n_ batch_interval_ db_clock wall Hbatch T0 _ written a (d_db t) Hi Hp) as Ha.
    destruct (append_execution_report _ _ _ _ _ _) as [s|]; [|done]. destruct Ha as [Hi' Hp']. cbn. unfold db_post. cbn.
    rewrite app_nil_r. split_and!; try done.
    + destruct Hring as (_ & _ & ->). apply prefix_take.
    + by exists fills.
    + by apply db_live_inv.
    + split; naive_solver.
Qed.

Lemma db_end_pass_ok T0 l written t :
  db_live T0 l written (d_db t) →
  match db_end_pass batch_every_n_ batch_interval_ db_clock t with
  | Some t' => ∃ s, t' = mkDbTh s LPass (d_file t) ∧ db_live T0 l written s
  | None => db_refused t
  end.
Proof.
  intros [Hi Hp]. unfold db_end_pass.
  pose proof (maybe_flush_ok batch_every_n_ batch_interval_ db_clock wall Hbatch T0 _ written (d_db t) Hi) as Hf.
  destruct (maybe_flush _ _ _ _ _) as [s|]; cbn; [eexists; split; [done|]; by destruct Hf; split|].
  destruct Hf as (d & Hd & Hs). exists d. split; [done|by left].
Qed.

Lemma db_end_ok T0 l written t :
  db_live T0 l written (d_db t) →
  match db_end batch_every_n_ batch_interval_ db_clock t with
  | Some t' => dbth_inv batch_every_n_ wall T0 l written t' ∧ d_loop t' = LDone
  | None => db_refused t
  end.
Proof.
  intros [Hi Hp]. unfold db_end.
  pose proof (db_close_ok batch_every_n_ batch_interval_ db_clock wall T0 _ written (d_db t) Hi) as Hc.
  destruct (db_close _ _ _ _) as [[f s]|]; cbn.
  - destruct Hc as (d & -> & Hfin & _). split; [|done]. by exists d.
  - destruct Hc as (d & Hd & Hs). exists d. split; [done|by left].
Qed.

Lemma db_step_ok running T0 l written fills sh t :
  ring_at 2 l sh → fifo_rep (sh_fills sh) fills → dbth_inv batch_every_n_ wall T0 l written t →
  d_loop t ≠ LDone →
  db_outcome running T0 l written fills sh t (db_step batch_every_n_ batch_interval_ db_clock wall running sh t).
Proof.
  intros Hring Hf Hinv Hnd. unfold dbth_inv in Hinv. unfold db_step.
  assert (db_live T0 l written (d_db t)) as Hlive by (by destruct (d_loop t)).
  pose proof (db_end_pass_ok T0 l written t Hlive) as He. pose proof (db_end_ok T0 l written t Hlive) as Hc.
  destruct (d_loop t) eqn:Hpc; try done.
  - apply db_stay; [done|done|by destruct running| |by destruct running].
    rewrite Hpc. cbn. destruct running; split; naive_solver.
  - destruct (i <? batch_size)%nat.
    + by apply db_take_ok.
    + by apply db_stay.
  - destruct (i <? batch_size)%nat.
    + apply db_pop_ok; try done; rewrite ?Hpc; try done.
      destruct (db_end_pass _ _ _ _) as [t'|]; [|done]. by destruct He as (s & -> & Hs).
    + destruct (db_end_pass _ _ _ _) as [t'|]; [|done]. destruct He as (s & -> & Hs). by apply db_stay.
  - apply db_take_ok; try done; by rewrite ?Hpc.
  - apply db_pop_ok; try done; rewrite ?Hpc; try done.
    destruct (db_end _ _ _ _) as [t'|]; [|done]. destruct Hc as [Hi ->]. split; [done|]. split; cbn; auto.
Qed.

End DbThreadProofs.

End StepProofs.
