(* ===== verification/Process.v ===== *)
(** * Process: the gateway process as interleaving threads

    [src/gateway_main.cpp] runs the sequencer, the three consumers and the
    gateway's event loop in five threads that share the input queue, the
    broadcast ring, the ack queue and the fills queue.  [proc_step] interleaves
    them, one access to a shared object per step, from the end of start-up to
    the return of [main]; the shutdown sequence is [main_step]. *)

From S2P Require Import Prelude Types ObjectPool OrderBook PriceTime OrderBookProofs SpscRing BroadcastRing Consumer Sequencer MatchingEngine EngineProofs EngineProperties Wal Db System Threads.

#[local] Open Scope Z_scope.

(** [main]: in the event loop, in the [join] of one of the four [stop()]s, or
    returned. *)
Inductive MainPc := MainLoop | JoinSequencer | JoinMatcher | JoinWal | JoinDb | Returned.

Definition main_rank (p : MainPc) : nat :=
  match p with
  | MainLoop => 0 | JoinSequencer => 1 | JoinMatcher => 2 | JoinWal => 3 | JoinDb => 4 | Returned => 5
  end.

(** [p_popped]: the acks that the gateway has taken; [p_written]: the ones that
    the database thread has. *)
Record Proc (Qi Q B D : Type) := mkProc {
  p_sys : @SeqSys Qi B;
  p_acks : Q;
  p_fills : Q;
  p_matcher : Matcher;
  p_wal : WalTh;
  p_db : DbTh D;
  p_main : MainPc;
  p_popped : list OutboundAck;
  p_written : list OutboundAck
}.
Arguments mkProc {Qi Q B D} _ _ _ _ _ _ _ _ _.
Arguments p_sys {Qi Q B D} _.
Arguments p_acks {Qi Q B D} _.
Arguments p_fills {Qi Q B D} _.
Arguments p_matcher {Qi Q B D} _.
Arguments p_wal {Qi Q B D} _.
Arguments p_db {Qi Q B D} _.
Arguments p_main {Qi Q B D} _.
Arguments p_popped {Qi Q B D} _.
Arguments p_written {Qi Q B D} _.

Section Process.
Context {Qi Q B D : Type} `{Fifo Qi SequencedEvent} `{Fifo Q OutboundAck}.
Context `{Broadcast B SequencedEvent} `{Sqlite D}.
Context (PoolCapacity kMaxSpins : nat) (now_ns : Z → Z).
Context (fsync_every_n_ fsync_interval_ batch_every_n_ batch_interval_ : Z).
Context (wal_clock db_clock wall : nat → Z).

Abbreviation P := (Proc Qi Q B D).

Definition published (s : P) : list SequencedEvent := sy_published (p_sys s).
Definition accepted_orders (s : P) : list SequencedEvent := default [] (sy_pushed (p_sys s) !! 0%nat).

Definition shared (s : P) : Shared B Q :=
  mkShared (output_ (sy_seq (p_sys s))) (p_acks s) (p_fills s).

(** A consumer's [running_]: lowered by its [stop()]. *)
Definition flag (turn : nat) (s : P) : bool := (main_rank (p_main s) <? turn)%nat.

(** Consumer [i] has left the ring [b], having taken [r]. *)
Definition took (i : nat) (r : option SequencedEvent) (b : B) (y : @SeqSys Qi B) : @SeqSys Qi B :=
  mkSys (set_output b (sy_seq y)) (sy_pushed y) (sy_published y)
    (alter (λ l, l ++ option_list r) i (sy_seen y)).

Definition set_main (pc : MainPc) (s : P) : P :=
  mkProc (p_sys s) (p_acks s) (p_fills s) (p_matcher s) (p_wal s) (p_db s) pc (p_popped s) (p_written s).

(** Leaving the event loop, [sequencer->stop(); matcher->stop(); wal->stop();
    db->stop(); return 0;]: lower the flag, wait for the thread, next. *)
Definition main_step (s : P) : option P :=
  match p_main s with
  | MainLoop =>
      let y := p_sys s in
      Some (mkProc (mkSys (seq_stop (sy_seq y)) (sy_pushed y) (sy_published y) (sy_seen y))
              (p_acks s) (p_fills s) (p_matcher s) (p_wal s) (p_db s) JoinSequencer
              (p_popped s) (p_written s))
  | JoinSequencer => match sq_pc (sy_seq (p_sys s)) with SqDone => Some (set_main JoinMatcher s) | _ => None end
  | JoinMatcher => match m_loop (p_matcher s) with LDone => Some (set_main JoinWal s) | _ => None end
  | JoinWal => match w_loop (p_wal s) with LDone => Some (set_main JoinDb s) | _ => None end
  | JoinDb => match d_loop (p_db s) with LDone => Some (set_main Returned s) | _ => None end
  | Returned => None
  end.

Inductive proc_step : P → P → Prop :=
| ps_sequencer y sq ak fl m w d pc po wr :
    seq_step now_ns (sy_seq y) = Some sq →
    proc_step (mkProc y ak fl m w d pc po wr)
      (mkProc (mkSys sq (sy_pushed y) (sy_published y ++ emitted (sy_seq y) sq) (sy_seen y))
         ak fl m w d pc po wr)
| ps_matcher s r sh m :
    matcher_step kMaxSpins (flag 2 s) (shared s) (p_matcher s) = Some (r, sh, m) →
    proc_step s (mkProc (took 0 r (sh_ring sh) (p_sys s)) (sh_acks sh) (sh_fills sh) m (p_wal s) (p_db s)
                   (p_main s) (p_popped s) (p_written s))
| ps_wal s r sh w :
    wal_step fsync_every_n_ fsync_interval_ wal_clock (flag 3 s) (shared s) (p_wal s) = Some (r, sh, w) →
    proc_step s (mkProc (took 1 r (sh_ring sh) (p_sys s)) (sh_acks sh) (sh_fills sh) (p_matcher s) w (p_db s)
                   (p_main s) (p_popped s) (p_written s))
| ps_db s r a sh d :
    db_step batch_every_n_ batch_interval_ db_clock wall (flag 4 s) (shared s) (p_db s) = Some (r, a, sh, d) →
    proc_step s (mkProc (took 2 r (sh_ring sh) (p_sys s)) (sh_acks sh) (sh_fills sh) (p_matcher s) (p_wal s) d
                   (p_main s) (p_popped s) (p_written s ++ option_list a))
| ps_submit y ak fl m w d po wr q q' l ev :
    (* the gateway's sequencer_input_->push(ev) *)
    event_fits ev → inputs_ (sy_seq y) !! 0%nat = Some q → fifo_push ev q = Some (true, q') →
    sy_pushed y !! 0%nat = Some l →
    proc_step (mkProc y ak fl m w d MainLoop po wr)
      (mkProc (mkSys (set_input 0 q' (sy_seq y)) (<[0%nat := l ++ [ev]]> (sy_pushed y)) (sy_published y) (sy_seen y))
         ak fl m w d MainLoop po wr)
| ps_take_ack y ak ak' fl m w d po wr a :
    (* the gateway's acks_->pop(ack) *)
    fifo_pop ak = Some (Some a, ak') →
    proc_step (mkProc y ak fl m w d MainLoop po wr) (mkProc y ak' fl m w d MainLoop (po ++ [a]) wr)
| ps_main s s' : main_step s = Some s' → proc_step s s'.

(** The state when [main] enters the event loop: what [system_start] has set up,
    three empty input queues and the two ack queues. *)
Definition proc_init (inputs : list Qi) (rn : Running B Q D) (acks fills : Q) : P :=
  mkProc (sys_init inputs (rn_ring rn) 3) acks fills
    (mkMatcher (engine_new PoolCapacity []) LPass PIdle 0 0)
    (mkWalTh (rn_wal rn) LPass) (mkDbTh (rn_db rn) LPass None) MainLoop [] [].

(** ** The invariant *)

(** The fields that the sequencer passes on fit their types. *)
Definition payload_fits (ev : SequencedEvent) : Prop :=
  is_u64 (ev_ingress_ts ev) ∧ is_u32 (ev_session ev) ∧ is_u64 (ev_client_order_id ev) ∧
  is_u8 (ev_side_byte ev) ∧ is_u32 (ev_price ev) ∧ is_u32 (ev_quantity ev).

Definition stamped (ev : SequencedEvent) : Prop := ev_sequence_ts ev = now_ns (ev_seq_num ev).

(** Where a consumer is, when its [stop()] is the [turn]-th of the shutdown and
    [rank] of them have been entered: it drains only after [stop()], what it has
    taken is then everything, and it has returned before the next [stop()]. *)
Record turn_ok (rank turn : nat) (pc : LoopPc) (l pub : list SequencedEvent) : Prop := {
  tn_stop : stopping pc = true → (turn ≤ rank)%nat;
  tn_ring : past_ring pc = true → l = pub;
  tn_done : (turn < rank)%nat → pc = LDone
}.

(** The same for all threads. *)
Record control (s : P) (l0 l1 l2 : list SequencedEvent) (fills : list OutboundAck) : Prop := {
  ct_seq : running_ (sy_seq (p_sys s)) = flag 1 s;
  ct_seq_stop : sq_pc (sy_seq (p_sys s)) = SqDone → (1 ≤ main_rank (p_main s))%nat;
  ct_seq_done : (1 < main_rank (p_main s))%nat → sq_pc (sy_seq (p_sys s)) = SqDone;
  ct_matcher : turn_ok (main_rank (p_main s)) 2 (m_loop (p_matcher s)) l0 (published s);
  ct_wal : turn_ok (main_rank (p_main s)) 3 (w_loop (p_wal s)) l1 (published s);
  ct_db : turn_ok (main_rank (p_main s)) 4 (d_loop (p_db s)) l2 (published s);
  ct_fills : d_loop (p_db s) = LDone → fills = []
}.

Record proc_inv (old : list SequencedEvent) (T0 : Tables) (s : P)
    (qs : list (list SequencedEvent)) (l0 l1 l2 : list SequencedEvent) (acks fills : list OutboundAck) : Prop := {
  pv_sys : sys_ok (p_sys s) qs;
  pv_seen : sy_seen (p_sys s) = [l0; l1; l2];
  pv_fits : Forall (Forall payload_fits) (sy_pushed (p_sys s));
  pv_stamped : Forall stamped (published s ++ in_flight (sy_seq (p_sys s)));
  pv_gateway : ∃ l, sy_pushed (p_sys s) = [l; []; []];
  pv_acks : fifo_rep (p_acks s) acks;
  pv_fills : fifo_rep (p_fills s) fills;
  pv_matcher : matcher_inv PoolCapacity l0 (p_popped s ++ acks) (p_written s ++ fills) (p_matcher s);
  pv_wal : walth_inv fsync_every_n_ old l1 (p_wal s);
  pv_db : dbth_inv batch_every_n_ wall T0 l2 (p_written s) (p_db s);
  pv_control : control s l0 l1 l2 fills
}.

End Process.

(** ** Running a schedule *)

(** One step of a named thread; [MvSubmit] and [MvTake] are the gateway's. *)
Inductive Move := MvSeq | MvMatcher | MvWal | MvDb | MvSubmit (ev : SequencedEvent) | MvTake | MvMain.

Section Schedule.
Context {Qi Q B D : Type} `{Fifo Qi SequencedEvent} `{Fifo Q OutboundAck}.
Context `{Broadcast B SequencedEvent} `{Sqlite D}.
Context (kMaxSpins : nat) (now_ns : Z → Z).
Context (fsync_every_n_ fsync_interval_ batch_every_n_ batch_interval_ : Z).
Context (wal_clock db_clock wall : nat → Z).

Abbreviation P := (Proc Qi Q B D).
Abbreviation step := (@proc_step Qi Q B D _ _ _ _ kMaxSpins now_ns fsync_every_n_ fsync_interval_
  batch_every_n_ batch_interval_ wal_clock db_clock wall).

Definition move (mv : Move) (s : P) : option P :=
  match mv with
  | MvSeq =>
      let y := p_sys s in
      sq ← seq_step now_ns (sy_seq y);
      Some (mkProc (mkSys sq (sy_pushed y) (sy_published y ++ emitted (sy_seq y) sq) (sy_seen y))
              (p_acks s) (p_fills s) (p_matcher s) (p_wal s) (p_db s) (p_main s) (p_popped s) (p_written s))
  | MvMatcher =>
      '(r, sh, m) ← matcher_step kMaxSpins (flag 2 s) (shared s) (p_matcher s);
      Some (mkProc (took 0 r (sh_ring sh) (p_sys s)) (sh_acks sh) (sh_fills sh) m (p_wal s) (p_db s)
              (p_main s) (p_popped s) (p_written s))
  | MvWal =>
      '(r, sh, w) ← wal_step fsync_every_n_ fsync_interval_ wal_clock (flag 3 s) (shared s) (p_wal s);
      Some (mkProc (took 1 r (sh_ring sh) (p_sys s)) (sh_acks sh) (sh_fills sh) (p_matcher s) w (p_db s)
              (p_main s) (p_popped s) (p_written s))
  | MvDb =>
      '(r, a, sh, d) ← db_step batch_every_n_ batch_interval_ db_clock wall (flag 4 s) (shared s) (p_db s);
      Some (mkProc (took 2 r (sh_ring sh) (p_sys s)) (sh_acks sh) (sh_fills sh) (p_matcher s) (p_wal s) d
              (p_main s) (p_popped s) (p_written s ++ option_list a))
  | MvSubmit ev =>
      let y := p_sys s in
      match p_main s, inputs_ (sy_seq y) !! 0%nat, sy_pushed y !! 0%nat with
      | MainLoop, Some q, Some l =>
          '(ok, q') ← fifo_push ev q;
          if ok : bool then
            Some (mkProc (mkSys (set_input 0 q' (sy_seq y)) (<[0%nat := l ++ [ev]]> (sy_pushed y))
                            (sy_published y) (sy_seen y))
                    (p_acks s) (p_fills s) (p_matcher s) (p_wal s) (p_db s) MainLoop (p_popped s) (p_written s))
          else None
      | _, _, _ => None
      end
  | MvTake =>
      match p_main s with
      | MainLoop =>
          '(r, q) ← fifo_pop (p_acks s);
          a ← r;
          Some (mkProc (p_sys s) q (p_fills s) (p_matcher s) (p_wal s) (p_db s) MainLoop
                  (p_popped s ++ [a]) (p_written s))
      | _ => None
      end
  | MvMain => main_step s
  end.

Definition run_moves (mvs : list Move) (s : P) : option P := foldl (λ o mv, s ← o; move mv s) (Some s) mvs.

Definition move_fits (mv : Move) : Prop := match mv with MvSubmit ev => event_fits ev | _ => True end.

Lemma move_sound mv s s' : move_fits mv → move mv s = Some s' → step s s'.
Proof.
  intros Hf Hm. destruct s as [y ak fl m w d pc po wr]. destruct mv; cbn in Hm.
  - destruct (seq_step now_ns (sy_seq y)) eqn:E; simplify_eq/=. by apply ps_sequencer.
  - destruct (matcher_step _ _ _ _) as [[[r sh] m']|] eqn:E; simplify_eq/=. by eapply ps_matcher.
  - destruct (wal_step _ _ _ _ _ _) as [[[r sh] w']|] eqn:E; simplify_eq/=. by eapply ps_wal.
  - destruct (db_step _ _ _ _ _ _ _) as [[[[r a] sh] d']|] eqn:E; simplify_eq/=. by eapply ps_db.
  - destruct pc; try done. destruct (inputs_ (sy_seq y) !! 0%nat) as [q|] eqn:Hq; [|done].
    destruct (sy_pushed y !! 0%nat) as [l|] eqn:Hl; [|done].
    destruct (fifo_push ev q) as [[[|] q']|] eqn:Hp; simplify_eq/=. by eapply ps_submit.
  - destruct pc; try done. destruct (fifo_pop ak) as [[[a|] q]|] eqn:Hp; simplify_eq/=. by apply ps_take_ack.
  - by apply ps_main.
Qed.

Lemma run_moves_sound mvs : ∀ s s',
  Forall move_fits mvs → run_moves mvs s = Some s' → rtc step s s'.
Proof.
  induction mvs as [|mv mvs IH]; intros s s' Hf Hr; cbn in Hr; [simplify_eq; apply rtc_refl|].
  apply Forall_cons in Hf as [Hf1 Hf]. destruct (move mv s) as [s1|] eqn:Hm.
  - eapply rtc_l; [by apply (move_sound mv)|by apply IH].
  - exfalso. clear -Hr. induction mvs; [done|auto].
Qed.

End Schedule.
