(* ===== verification/ProcessProofs.v ===== *)
(** * ProcessProofs: the invariant of the gateway process

    Every state that [Process.proc_step] reaches from the end of start-up
    satisfies [proc_inv].  [ProcessProgress] builds on it to show that [main] can
    always return, and [ProcessProperties] states what follows. *)

From S2P Require Import Prelude Types ObjectPool OrderBook PriceTime OrderBookProofs SpscRing BroadcastRing Consumer Sequencer MatchingEngine EngineProofs EngineProperties Wal Db System Threads Process.

#[local] Open Scope Z_scope.

(** ** Lists *)

Lemma alter_lookup {A} (f : A → A) (l : list A) (i : nat) x : l !! i = Some x → alter f i l = <[i := f x]> l.
Proof.
  revert i. induction l as [|y l IH]; intros [|i] Hi; cbn in *; [done|done|by simplify_eq|].
  f_equal. by apply IH.
Qed.

(** ** Published events fit their types *)

Lemma numbered_stream l : ∀ n,
  (∀ i ev, l !! i = Some ev → ev_seq_num ev = n + Z.of_nat i) → Forall event_fits l → stream_ok n l.
Proof.
  induction l as [|ev l IH]; intros n Hn Hf; [done|]. apply Forall_cons in Hf as [Hev Hf].
  pose proof (Hn 0%nat ev eq_refl) as H0. split_and!; [done|lia|]. apply IH; [|done].
  intros i ev' Hi. rewrite (Hn (S i) ev' Hi). lia.
Qed.

Lemma stream_ok_take k : ∀ n l, stream_ok n l → stream_ok n (take k l).
Proof. induction k as [|k IH]; intros n [|ev l]; cbn; [done..|]. naive_solver. Qed.

(** ** The sequencer's side of a step *)

Section SequencerSide.
Context {Qi Q B D : Type} `{FifoLaws Qi SequencedEvent} `{Fifo Q OutboundAck}.
Context `{BroadcastLaws B SequencedEvent} (now_ns : Z → Z).

(** A step of the sequencer's thread keeps the event in flight, publishes it, or
    stamps a new one. *)
Lemma seq_step_flow (s s' : Sequencer Qi B) :
  seq_step now_ns s = Some s' →
  running_ s' = running_ s ∧ (sq_pc s' = SqDone → running_ s = false) ∧
  ((emitted s s' ++ in_flight s' = in_flight s) ∨
   (in_flight s = [] ∧ emitted s s' = [] ∧
    ∃ seq p ev, in_flight s' = [stamp seq (now_ns seq) p ev])).
Proof.
  unfold seq_step, in_flight, emitted. destruct (sq_pc s) as [|p i|p i ev|]; [| | |done].
  - intros [= <-]. cbn. destruct (running_ s); cbn; naive_solver.
  - destruct (p <? producer_count)%nat; [destruct (i <? kMaxBatch)%nat|].
    + destruct (inputs_ s !! p) as [q|]; [|done]. cbn [mbind option_bind].
      destruct (fifo_pop q) as [[[ev|] q']|]; cbn; [| |done]; intros [= <-]; cbn; [|naive_solver].
      split_and!; [done|done|]. right. eauto 10.
    + intros [= <-]. cbn. naive_solver.
    + intros [= <-]. cbn. naive_solver.
  - destruct (bc_publish ev (output_ s)) as [[[|] out]|]; cbn; [| |done]; intros [= <-]; cbn; naive_solver.
Qed.

Lemma producer_index (p : ProducerId) : ∃ i, (i < producer_count)%nat ∧ p = producer_of i.
Proof. destruct p; [exists 0%nat|exists 1%nat|exists 2%nat]; split; (done || unfold producer_count; lia). Qed.

Lemma payload_fits_eq ev ev' : payload ev = payload ev' → payload_fits ev → payload_fits ev'.
Proof. unfold payload, payload_fits. by intros [= -> _ -> -> -> -> ->]. Qed.

Lemma published_fits (y : @SeqSys Qi B) qs :
  (∀ k, is_u64 (now_ns k)) → sys_ok y qs → Forall (Forall payload_fits) (sy_pushed y) →
  Forall (stamped now_ns) (sy_published y) → below_limit (length (sy_published y)) →
  Forall event_fits (sy_published y).
Proof.
  intros Hnow Hok Hf Hst [Hl1 Hl2]. apply Forall_lookup. intros i ev Hi.
  destruct (producer_index (ev_producer ev)) as (p & Hp & Hpe).
  destruct (so_count _ _ Hok) as [Hc1 Hc2].
  destruct (lookup_lt_is_Some_2 (sy_pushed y) p) as [ps Hps]; [lia|].
  destruct (lookup_lt_is_Some_2 qs p) as [l Hl]; [lia|].
  assert (payload_fits ev) as (F1 & F2 & F3 & F4 & F5 & F6).
  { assert (payload ev ∈ payload <$> ps) as (ev' & He & Hin)%list_elem_of_fmap.
    { rewrite (so_fifo _ _ Hok p ps l Hps Hl), from_app, fmap_app, !elem_of_app. left. left.
      apply list_elem_of_fmap_2, list_elem_of_filter. split; [done|]. by eapply list_elem_of_lookup_2. }
    apply (payload_fits_eq ev'); [done|]. rewrite Forall_forall in Hf.
    specialize (Hf ps ltac:(by eapply list_elem_of_lookup_2)). rewrite Forall_forall in Hf. by apply Hf. }
  pose proof (so_numbered _ _ Hok i ev) as Hn. rewrite lookup_app_l_Some with (x := ev) in Hn by done.
  specialize (Hn eq_refl). pose proof (lookup_lt_Some _ _ _ Hi).
  constructor; try done; [rewrite Hn; word_lia|].
  eapply Forall_lookup_1 in Hst; [|exact Hi]. rewrite Hst. apply Hnow.
Qed.

(** Only the gateway pushes: everything published or in flight is its. *)
Lemma published_split (y : @SeqSys Qi B) qs l :
  sys_ok y qs → sy_pushed y = [l; []; []] →
  ∃ q, qs = [q; []; []] ∧
    payload <$> l = (payload <$> sy_published y ++ in_flight (sy_seq y)) ++ (payload <$> q).
Proof.
  intros Hok Hp. destruct (so_count _ _ Hok) as [Hc _]. set (evs := sy_published y ++ in_flight (sy_seq y)).
  destruct qs as [|q0 [|q1 [|q2 [|]]]]; try done.
  assert (∀ p q ev, sy_pushed y !! p = Some [] → [q0; q1; q2] !! p = Some q → ev ∈ evs →
            ev_producer ev ≠ producer_of p) as Hnone.
  { intros p q ev Hpp Hq Hin He. assert (ev ∈ from p evs) as Hf by (by apply list_elem_of_filter).
    apply (list_elem_of_fmap_2 payload) in Hf. pose proof (so_fifo _ _ Hok p [] q Hpp Hq) as Hx.
    symmetry in Hx. apply app_eq_nil in Hx as [Hx _]. unfold evs in Hf. rewrite Hx in Hf.
    by apply elem_of_nil in Hf. }
  rewrite Hp in Hnone. assert (from 0 evs = evs) as Hall.
  { apply filter_all, Forall_forall. intros ev Hin. destruct (producer_index (ev_producer ev)) as (p & Hpc & He).
    unfold producer_count in Hpc. destruct p as [|[|[|]]]; [done| | |lia]; exfalso.
    - by apply (Hnone 1%nat q1 ev).
    - by apply (Hnone 2%nat q2 ev). }
  pose proof (so_fifo _ _ Hok 0%nat l q0) as Hx. rewrite Hp in Hx. specialize (Hx eq_refl eq_refl).
  fold evs in Hx. rewrite Hall in Hx. exists q0. split; [|done].
  assert (∀ p q, sy_pushed y !! p = Some [] → [q0; q1; q2] !! p = Some q → q = []) as Hempty.
  { intros p q Hpp Hq. pose proof (so_fifo _ _ Hok p [] q Hpp Hq) as Hz. symmetry in Hz.
    apply app_eq_nil in Hz as [_ Hz]. by apply fmap_nil_inv in Hz. }
  rewrite Hp in Hempty. by rewrite (Hempty 1%nat q1 eq_refl eq_refl), (Hempty 2%nat q2 eq_refl eq_refl).
Qed.

Lemma published_prefix (y : @SeqSys Qi B) qs l :
  sys_ok y qs → sy_pushed y = [l; []; []] →
  (payload <$> sy_published y ++ in_flight (sy_seq y)) `prefix_of` (payload <$> l).
Proof. intros Hok Hp. destruct (published_split y qs l Hok Hp) as (q & _ & ->). by apply prefix_app_r. Qed.

(** ** The sequencer's side of a consumer's step *)

Lemma took_none i b (y : @SeqSys Qi B) : b = output_ (sy_seq y) → took i None b y = y.
Proof.
  intros ->. destruct y as [[] ? ? seen]. unfold took, set_output. cbn. f_equal.
  rewrite <-(list_alter_id (λ l, l ++ []) seen i) at 2; [done|]. intros l. apply app_nil_r.
Qed.

Lemma took_ok i r (y : @SeqSys Qi B) (sh sh' : Shared B Q) qs l :
  sys_ok y qs → below_limit (length (sy_published y)) → sy_seen y !! i = Some l →
  sh_ring sh = output_ (sy_seq y) → ring_post i l sh sh' r →
  ∃ qs', sys_ok (took i r (sh_ring sh') y) qs'.
Proof.
  intros Hok Hlim Hl Hsh Hpost. destruct r as [ev|]; cbn in Hpost.
  - apply (sys_step_ok now_ns y _ qs); [|done|done]. rewrite Hsh in Hpost. destruct y as [sq ps pub seen].
    unfold took. cbn in *.
    rewrite (alter_lookup _ seen i l Hl). by eapply sys_consume.
  - rewrite took_none by congruence. eauto.
Qed.

Lemma ring_of i (s : Proc Qi Q B D) qs l :
  sys_ok (p_sys s) qs → sy_seen (p_sys s) !! i = Some l →
  ring_at (published s) (length <$> sy_seen (p_sys s)) i l (shared s).
Proof.
  intros Hok Hl. split_and!.
  - apply (so_output _ _ Hok).
  - by rewrite list_lookup_fmap, Hl.
  - pose proof (so_seen _ _ Hok) as Hs. eapply Forall_lookup_1 in Hs; [|exact Hl]. done.
Qed.

End SequencerSide.

(** ** Control *)

Lemma turn_ok_early rank turn pc l pub pub' :
  (rank < turn)%nat → turn_ok rank turn pc l pub → turn_ok rank turn pc l pub'.
Proof.
  intros Hr [Hs Hg Hd]. split; [done| |lia]. intros Hp.
  assert (stopping pc = true) as Hs' by (by destruct pc). specialize (Hs Hs'). lia.
Qed.

Lemma turn_ok_step rank turn pc pc' l r pub :
  loop_post pub (rank <? turn)%nat pc pc' (l ++ option_list r) → (l ++ option_list r) `prefix_of` pub →
  pc ≠ LDone → turn_ok rank turn pc l pub → turn_ok rank turn pc' (l ++ option_list r) pub.
Proof.
  intros [Hs Hg] Hpre Hnd [Ts Tg Td]. split.
  - intros Hp. destruct (Hs Hp) as [|Hr]; [auto|]. apply Nat.ltb_ge in Hr. lia.
  - intros Hp. destruct (Hg Hp) as [Hp'|]; [|done]. specialize (Tg Hp'). subst l.
    destruct Hpre as [k Hk]. rewrite <-app_assoc in Hk. rewrite <-(app_nil_r pub) in Hk at 1.
    apply app_inv_head in Hk. symmetry in Hk. apply app_eq_nil in Hk as [-> _]. by rewrite app_nil_r.
  - intros Hr. by specialize (Td Hr).
Qed.

Lemma turn_ok_next rank turn pc l pub :
  (rank = turn → pc = LDone) → turn_ok rank turn pc l pub → turn_ok (S rank) turn pc l pub.
Proof.
  intros Hd [Ts Tg Td]. split; [|done|].
  - intros Hp. specialize (Ts Hp). lia.
  - intros Hr. destruct (decide (rank = turn)); [auto|]. apply Td. lia.
Qed.

Section ProcessProofs.
Context {Qi Q B D : Type} `{FifoLaws Qi SequencedEvent} `{FifoLaws Q OutboundAck}.
Context `{BroadcastLaws B SequencedEvent} `{SqliteFaultLaws D}.
Context (PoolCapacity kMaxSpins : nat) (now_ns : Z → Z).
Context (fsync_every_n_ fsync_interval_ batch_every_n_ batch_interval_ : Z).
Context (wal_clock db_clock wall : nat → Z).
Hypothesis Hnow : ∀ k, is_u64 (now_ns k).
Hypothesis Hcap : Z.of_nat PoolCapacity < 2 ^ 31.
Hypothesis Hfsync : 0 < fsync_every_n_ < 2 ^ 64.
Hypothesis Hbatch : 0 < batch_every_n_ < 2 ^ 64.

Abbreviation P := (Proc Qi Q B D).
Abbreviation inv := (@proc_inv Qi Q B D _ _ _ _ PoolCapacity now_ns fsync_every_n_ batch_every_n_ wall).
Abbreviation step := (@proc_step Qi Q B D _ _ _ _ kMaxSpins now_ns fsync_every_n_ fsync_interval_
  batch_every_n_ batch_interval_ wal_clock db_clock wall).

Lemma inv_stream old T0 s qs l0 l1 l2 acks fills :
  inv old T0 s qs l0 l1 l2 acks fills → below_limit (length (published s)) → stream_ok 1 (published s).
Proof.
  intros [Hok _ Hf Hst _ _ _ _ _ _ _] Hlim. apply Forall_app in Hst as [Hst _]. apply numbered_stream.
  - intros i ev Hi. rewrite (so_numbered _ _ Hok i ev); [lia|]. by apply lookup_app_l_Some.
  - by eapply published_fits.
Qed.

(** ** Preservation *)

Lemma inv_sequencer old T0 y sq ak fl m w d pc po wr qs l0 l1 l2 acks fills :
  seq_step now_ns (sy_seq y) = Some sq →
  let s' := mkProc (mkSys sq (sy_pushed y) (sy_published y ++ emitted (sy_seq y) sq) (sy_seen y))
              ak fl m w d pc po wr : P in
  below_limit (length (published s')) →
  inv old T0 (mkProc y ak fl m w d pc po wr) qs l0 l1 l2 acks fills →
  ∃ qs', inv old T0 s' qs' l0 l1 l2 acks fills.
Proof.
  intros Hstep s' Hlim [Hok Hseen Hf Hst Hgw Ha Hfl Hm Hw Hd Hct]. subst s'. cbn in *.
  destruct (seq_step_flow now_ns _ _ Hstep) as (Hrun & Hdone & Hflow).
  destruct (sys_step_ok now_ns y (mkSys sq (sy_pushed y) (sy_published y ++ emitted (sy_seq y) sq) (sy_seen y)) qs)
    as (qs' & Hok'); [|done|done|].
  { destruct y. by apply sys_thread. }
  exists qs'. split; cbn; try done.
  - unfold published in *. cbn in *. rewrite <-app_assoc. destruct Hflow as [->|(Hn & -> & seq & p & ev & ->)]; [done|].
    rewrite Hn, app_nil_r in Hst. apply Forall_app. split; [done|]. by repeat constructor.
  - destruct Hct as [C1 C2 C3 C4 C5 C6 C7]. unfold flag in *. cbn [p_sys p_main p_matcher p_wal p_db] in *.
    assert (main_rank pc < 2)%nat as Hr.
    { destruct (Nat.lt_ge_cases (main_rank pc) 2) as [|Hge]; [done|].
      unfold seq_step in Hstep. by rewrite (C3 Hge) in Hstep. }
    split; unfold flag; cbn [p_sys p_main p_matcher p_wal p_db sy_seq];
      try (eapply turn_ok_early; [lia|done]); try done.
    + congruence.
    + intros Hx. specialize (Hdone Hx). rewrite C1 in Hdone. apply Nat.ltb_ge in Hdone. lia.
    + lia.
Qed.

Lemma inv_matcher old T0 (s : P) r sh m qs l0 l1 l2 acks fills :
  matcher_step kMaxSpins (flag 2 s) (shared s) (p_matcher s) = Some (r, sh, m) →
  let s' := mkProc (took 0 r (sh_ring sh) (p_sys s)) (sh_acks sh) (sh_fills sh) m (p_wal s) (p_db s)
              (p_main s) (p_popped s) (p_written s) in
  below_limit (length (published s)) → inv old T0 s qs l0 l1 l2 acks fills →
  ∃ qs' l0' acks' fills', inv old T0 s' qs' l0' l1 l2 acks' fills'.
Proof.
  intros Hstep s' Hlim Hinv. pose proof (inv_stream _ _ _ _ _ _ _ _ _ Hinv Hlim) as Hstream.
  destruct Hinv as [Hok Hseen Hf Hst Hgw Ha Hfl Hm Hw Hd [C1 C2 C3 C4 C5 C6 C7]].
  assert (sy_seen (p_sys s) !! 0%nat = Some l0) as Hl by (by rewrite Hseen).
  assert (m_loop (p_matcher s) ≠ LDone) as Hnd.
  { intros Hx. pose proof (mi_loop _ _ _ _ _ Hm) as Hp. rewrite Hx in Hp.
    unfold matcher_step in Hstep. by rewrite Hp, Hx in Hstep. }
  destruct (matcher_step_ok (published s) _ PoolCapacity kMaxSpins Hcap (flag 2 s) l0 (p_popped s) (p_written s)
              acks fills (shared s) (p_matcher s) Hstream (ring_of 0 s qs l0 Hok Hl) Ha Hfl Hm Hnd)
    as (r' & sh' & m' & Hstep' & Hring & Hpre & (acks' & fills' & Ha' & Hf' & Hm') & Hloop).
  rewrite Hstep in Hstep'. simplify_eq.
  destruct (took_ok now_ns 0 r' (p_sys s) (shared s) sh' qs l0 Hok Hlim Hl eq_refl Hring) as (qs' & Hok').
  exists qs', (l0 ++ option_list r'), acks', fills'. split; try done; [cbn; by rewrite Hseen|].
  split; try done; cbn.
  - by apply (turn_ok_step _ _ (m_loop (p_matcher s))).
  - intros Hx. exfalso. destruct C6 as [Cs _ _], C4 as [_ _ Cd]. rewrite Hx in Cs.
    apply Hnd, Cd. specialize (Cs eq_refl). lia.
Qed.

Lemma inv_wal old T0 (s : P) r sh w qs l0 l1 l2 acks fills :
  wal_step fsync_every_n_ fsync_interval_ wal_clock (flag 3 s) (shared s) (p_wal s) = Some (r, sh, w) →
  let s' := mkProc (took 1 r (sh_ring sh) (p_sys s)) (sh_acks sh) (sh_fills sh) (p_matcher s) w (p_db s)
              (p_main s) (p_popped s) (p_written s) in
  below_limit (length (published s)) → inv old T0 s qs l0 l1 l2 acks fills →
  ∃ qs' l1', inv old T0 s' qs' l0 l1' l2 acks fills.
Proof.
  intros Hstep s' Hlim [Hok Hseen Hf Hst Hgw Ha Hfl Hm Hw Hd [C1 C2 C3 C4 C5 C6 C7]].
  assert (sy_seen (p_sys s) !! 1%nat = Some l1) as Hl by (by rewrite Hseen).
  assert (w_loop (p_wal s) ≠ LDone) as Hnd.
  { intros Hx. unfold wal_step in Hstep. by rewrite Hx in Hstep. }
  destruct (wal_step_ok (published s) _ fsync_every_n_ fsync_interval_ wal_clock Hfsync (flag 3 s) old l1
              (shared s) (p_wal s) (ring_of 1 s qs l1 Hok Hl) Hw Hnd)
    as (r' & sh' & w' & Hstep' & Hring & Hpre & Hsa & Hsf & Hw' & Hloop).
  rewrite Hstep in Hstep'. simplify_eq.
  destruct (took_ok now_ns 1 r' (p_sys s) (shared s) sh' qs l1 Hok Hlim Hl eq_refl Hring) as (qs' & Hok').
  exists qs', (l1 ++ option_list r'). split; try done; cbn; rewrite ?Hsa, ?Hsf; try done.
  - by rewrite Hseen.
  - split; try done; cbn. by apply (turn_ok_step _ _ (w_loop (p_wal s))).
Qed.

Lemma inv_db old T0 (s : P) r a sh d qs l0 l1 l2 acks fills :
  db_step batch_every_n_ batch_interval_ db_clock wall (flag 4 s) (shared s) (p_db s) = Some (r, a, sh, d) →
  let s' := mkProc (took 2 r (sh_ring sh) (p_sys s)) (sh_acks sh) (sh_fills sh) (p_matcher s) (p_wal s) d
              (p_main s) (p_popped s) (p_written s ++ option_list a) in
  below_limit (length (published s)) → inv old T0 s qs l0 l1 l2 acks fills →
  ∃ qs' l2' fills', inv old T0 s' qs' l0 l1 l2' acks fills' ∧ fills = option_list a ++ fills'.
Proof.
  intros Hstep s' Hlim [Hok Hseen Hf Hst Hgw Ha Hfl Hm Hw Hd [C1 C2 C3 C4 C5 C6 C7]].
  assert (sy_seen (p_sys s) !! 2%nat = Some l2) as Hl by (by rewrite Hseen).
  assert (d_loop (p_db s) ≠ LDone) as Hnd.
  { intros Hx. unfold db_step in Hstep. by rewrite Hx in Hstep. }
  pose proof (db_step_ok (published s) _ batch_every_n_ batch_interval_ db_clock wall Hbatch (flag 4 s) T0 l2
              (p_written s) fills (shared s) (p_db s) (ring_of 2 s qs l2 Hok Hl) Hfl Hd Hnd) as Hpost.
  rewrite Hstep in Hpost. destruct Hpost as (Hring & Hpre & Hsa & (fills' & Hf' & -> & Hfd) & Hd' & Hloop).
  destruct (took_ok now_ns 2 r (p_sys s) (shared s) sh qs l2 Hok Hlim Hl eq_refl Hring) as (qs' & Hok').
  exists qs', (l2 ++ option_list r), fills'. split; [|done]. split; try done; cbn; rewrite ?Hsa; try done.
  - by rewrite Hseen.
  - by rewrite <-app_assoc.
  - split; try done; cbn. by apply (turn_ok_step _ _ (d_loop (p_db s))).
Qed.

Lemma inv_submit old T0 y ak fl m w d po wr q q' l ev qs l0 l1 l2 acks fills :
  event_fits ev → inputs_ (sy_seq y) !! 0%nat = Some q → fifo_push ev q = Some (true, q') →
  sy_pushed y !! 0%nat = Some l → below_limit (length (sy_published y)) →
  inv old T0 (mkProc y ak fl m w d MainLoop po wr) qs l0 l1 l2 acks fills →
  ∃ qs', inv old T0 (mkProc (mkSys (set_input 0 q' (sy_seq y)) (<[0%nat := l ++ [ev]]> (sy_pushed y))
                       (sy_published y) (sy_seen y)) ak fl m w d MainLoop po wr : P) qs' l0 l1 l2 acks fills.
Proof.
  intros Hev Hq Hpush Hl Hlim [Hok Hseen Hf Hst [lg Hgw] Ha Hfl Hm Hw Hd Hct]. cbn in *.
  destruct (sys_step_ok now_ns y (mkSys (set_input 0 q' (sy_seq y)) (<[0%nat := l ++ [ev]]> (sy_pushed y))
              (sy_published y) (sy_seen y)) qs) as (qs' & Hok'); [|done|done|].
  { destruct y. by eapply sys_produce. }
  exists qs'. split; cbn; try done.
  - apply Forall_insert; [done|]. apply Forall_app. split; [by eapply Forall_lookup_1 in Hf|].
    repeat constructor; apply Hev.
  - rewrite Hgw in *. cbn in *. simplify_eq. eauto.
  - by destruct Hct.
Qed.

Lemma inv_take_ack old T0 y ak ak' fl m w d po wr a qs l0 l1 l2 acks fills :
  fifo_pop ak = Some (Some a, ak') →
  inv old T0 (mkProc y ak fl m w d MainLoop po wr) qs l0 l1 l2 acks fills →
  ∃ acks', inv old T0 (mkProc y ak' fl m w d MainLoop (po ++ [a]) wr : P) qs l0 l1 l2 acks' fills.
Proof.
  intros Hpop [Hok Hseen Hf Hst Hgw Ha Hfl Hm Hw Hd Hct]. cbn in *.
  pose proof (fifo_pop_law ak acks Ha) as Hlaw. destruct acks as [|a' acks]; [congruence|].
  destruct Hlaw as (q & Hq & Hrep). rewrite Hpop in Hq. simplify_eq.
  exists acks. split; cbn; try done; [|by destruct Hct]. by rewrite <-app_assoc.
Qed.

Lemma inv_set_main old T0 (s : P) pc qs l0 l1 l2 acks fills :
  main_rank pc = S (main_rank (p_main s)) → (1 ≤ main_rank (p_main s))%nat →
  (main_rank (p_main s) = 1%nat → sq_pc (sy_seq (p_sys s)) = SqDone) →
  (main_rank (p_main s) = 2%nat → m_loop (p_matcher s) = LDone) →
  (main_rank (p_main s) = 3%nat → w_loop (p_wal s) = LDone) →
  (main_rank (p_main s) = 4%nat → d_loop (p_db s) = LDone) →
  inv old T0 s qs l0 l1 l2 acks fills → inv old T0 (set_main pc s) qs l0 l1 l2 acks fills.
Proof.
  intros Hpc Hr K1 K2 K3 K4 [Hok Hseen Hf Hst Hgw Ha Hfl Hm Hw Hd [C1 C2 C3 C4 C5 C6 C7]].
  split; try done. split; cbn [set_main p_main p_sys p_matcher p_wal p_db]; unfold flag in *;
    cbn [set_main p_main] in *; rewrite ?Hpc; try (by apply turn_ok_next); try done.
  - rewrite C1. rewrite !(proj2 (Nat.ltb_ge _ _)) by lia. done.
  - lia.
  - intros Hlt. destruct (decide (main_rank (p_main s) = 1%nat)); [auto|]. apply C3. lia.
Qed.

Lemma inv_main old T0 (s s' : P) qs l0 l1 l2 acks fills :
  main_step s = Some s' → below_limit (length (published s)) →
  inv old T0 s qs l0 l1 l2 acks fills → ∃ qs', inv old T0 s' qs' l0 l1 l2 acks fills.
Proof.
  intros Hstep Hlim Hinv. unfold main_step in Hstep. destruct (p_main s) eqn:Hpc; [|..|done].
  - destruct Hinv as [Hok Hseen Hf Hst Hgw Ha Hfl Hm Hw Hd [C1 C2 C3 C4 C5 C6 C7]].
    injection Hstep as <-. set (y := p_sys s) in *.
    destruct (sys_step_ok now_ns y (mkSys (seq_stop (sy_seq y)) (sy_pushed y) (sy_published y) (sy_seen y)) qs)
      as (qs' & Hok'); [|done|done|].
    { destruct y. apply sys_stop. }
    exists qs'. split; try done. rewrite Hpc in *. cbn in C4, C5, C6.
    split; cbn; try (apply turn_ok_next; [lia|done]); try done; lia.
  - destruct (sq_pc (sy_seq (p_sys s))) eqn:Hq; [done..|]. injection Hstep as <-. exists qs.
    apply inv_set_main; rewrite ?Hpc; cbn; done || lia.
  - destruct (m_loop (p_matcher s)) eqn:Hq; [done..|]. injection Hstep as <-. exists qs.
    apply inv_set_main; rewrite ?Hpc; cbn; done || lia.
  - destruct (w_loop (p_wal s)) eqn:Hq; [done..|]. injection Hstep as <-. exists qs.
    apply inv_set_main; rewrite ?Hpc; cbn; done || lia.
  - destruct (d_loop (p_db s)) eqn:Hq; [done..|]. injection Hstep as <-. exists qs.
    apply inv_set_main; rewrite ?Hpc; cbn; done || lia.
Qed.

Lemma step_published (s s' : P) : step s s' → (length (published s) ≤ length (published s'))%nat.
Proof.
  destruct 1 as [| | | | | |s s' Hs]; unfold published; cbn; rewrite ?length_app; try lia.
  unfold main_step in Hs. destruct (p_main s); repeat case_match; by simplify_eq.
Qed.

Lemma inv_step old T0 (s s' : P) qs l0 l1 l2 acks fills :
  step s s' → below_limit (length (published s')) → inv old T0 s qs l0 l1 l2 acks fills →
  ∃ qs' l0' l1' l2' acks' fills', inv old T0 s' qs' l0' l1' l2' acks' fills'.
Proof.
  intros Hstep Hlim Hinv. pose proof (step_published _ _ Hstep) as Hle.
  assert (below_limit (length (published s))) as Hlim' by (unfold below_limit in *; lia).
  destruct Hstep.
  - edestruct inv_sequencer; eauto 10.
  - edestruct inv_matcher as (? & ? & ? & ? & ?); eauto 10.
  - edestruct inv_wal as (? & ? & ?); eauto 10.
  - edestruct inv_db as (? & ? & ? & ? & _); eauto 10.
  - edestruct inv_submit; eauto 10.
  - edestruct inv_take_ack; eauto 10.
  - edestruct inv_main; eauto 10.
Qed.

(** ** Reachable states *)

Context (out : AckOut Q) (old : list SequencedEvent) (T0 : Tables).
Context (inputs : list Qi) (rn : Running B Q D) (acks0 fills0 : Q).

(** What [system_start] and the constructors leave. *)
Record started : Prop := {
  st_inputs : length inputs = producer_count ∧ Forall (λ q, fifo_rep q []) inputs;
  st_acks : fifo_rep acks0 [] ∧ fifo_rep fills0 [];
  st_system : ∃ drain, system_inv PoolCapacity kMaxSpins drain fsync_every_n_ batch_every_n_ wall
                out old T0 [] 0 0 0 [] rn
}.

Abbreviation init := (proc_init PoolCapacity inputs rn acks0 fills0).

Lemma inv_init : started → below_limit 0 → ∃ qs, inv old T0 init qs [] [] [] [] [].
Proof.
  intros [[Hlen Hin] [Ha Hf] (drain & [Hring _ Hw Hd Hp])] Hlim.
  destruct (sys_reach_ok now_ns inputs (rn_ring rn) 3 (sys_init inputs (rn_ring rn) 3) Hlen Hin Hring)
    as (qs & Hok); [apply rtc_refl|done|].
  exists qs. split; cbn; try done.
  - rewrite Hlen. by repeat constructor.
  - rewrite Hlen. cbn. by exists [].
  - split; cbn; [done| |done]. split; exists []; cbn; done.
  - split; cbn; try done; try lia; split; cbn; done || lia.
Qed.

Lemma reach_inv (s : P) :
  started → rtc step init s → below_limit (length (published s)) →
  ∃ qs l0 l1 l2 acks fills, inv old T0 s qs l0 l1 l2 acks fills.
Proof.
  intros Hst Hr. revert s Hr.
  apply (rtc_ind_r (λ s, below_limit (length (published s)) →
           ∃ qs l0 l1 l2 acks fills, inv old T0 s qs l0 l1 l2 acks fills)).
  - intros Hlim. destruct (inv_init Hst Hlim) as (qs & Hinv). by eexists _, _, _, _, _, _.
  - intros s1 s2 _ Hstep IH Hlim. pose proof (step_published _ _ Hstep).
    destruct IH as (qs & l0 & l1 & l2 & acks & fills & Hinv); [unfold below_limit in *; lia|].
    by eapply inv_step.
Qed.

End ProcessProofs.
