(* ===== verification/FairRun.v ===== *)
(** * FairRun: what happens under every fair scheduler

    A schedule names, for every instant, who takes the next step; whoever cannot
    step idles.  It is fair when nobody is passed over for ever.  [fair_descent]
    is the proof rule for liveness: if, short of the goal, no step increases a
    well-founded rank and somebody's step would lower it and goes on being able to
    until the rank falls, then every fair run reaches the goal. *)

From Stdlib Require Import Wf_nat.
From S2P Require Import Prelude.

Section FairRun.
Context {S T : Type} (exec : T → S → option S).

Definition turn (t : T) (s : S) : S := default s (exec t s).

(** The state after [n] instants of the schedule. *)
Fixpoint run_schedule (sched : nat → T) (n : nat) (s : S) : S :=
  match n with
  | 0 => s
  | Datatypes.S n => run_schedule (λ k, sched (Datatypes.S k)) n (turn (sched 0) s)
  end.

(** Each of [threads] gets its turn again and again. *)
Definition fair (threads : list T) (sched : nat → T) : Prop :=
  ∀ t, t ∈ threads → ∀ n, ∃ m, n ≤ m ∧ sched m = t.

Lemma fair_shift threads sched : fair threads sched → fair threads (λ k, sched (Datatypes.S k)).
Proof.
  intros Hf t Ht n. destruct (Hf t Ht (Datatypes.S n)) as (m & Hm & <-).
  exists (pred m). split; [lia|]. f_equal. lia.
Qed.

Lemma fair_skip threads sched n : fair threads sched → fair threads (λ k, sched (n + k)).
Proof.
  intros Hf t Ht k. destruct (Hf t Ht (n + k)) as (m & Hm & <-). exists (m - n). split; [lia|]. f_equal. lia.
Qed.

Lemma run_schedule_add n : ∀ m sched s,
  run_schedule sched (n + m) s = run_schedule (λ k, sched (n + k)) m (run_schedule sched n s).
Proof. induction n as [|n IH]; intros m sched s; [done|]. apply (IH m). Qed.

Lemma run_schedule_rtc (step : relation S) : ∀ n sched s,
  (∀ k s s', exec (sched k) s = Some s' → step s s') → rtc step s (run_schedule sched n s).
Proof.
  induction n as [|n IH]; intros sched s Hsound; [apply rtc_refl|]. cbn. unfold turn at 1.
  destruct (exec (sched 0) s) as [s'|] eqn:He; cbn.
  - eapply rtc_l; [by eapply Hsound|]. apply IH. intros k. apply (Hsound (Datatypes.S k)).
  - apply IH. intros k. apply (Hsound (Datatypes.S k)).
Qed.

Section Descent.
Context {M : Type} (smaller : relation M) (threads : list T).
Context (ok : T → S → Prop) (ranked : S → M → Prop) (helps : T → S → Prop) (goal : S → Prop).
Hypothesis Hwf : well_founded smaller.
Hypothesis Hhelp : ∀ s m, ranked s m → goal s ∨ ∃ t, t ∈ threads ∧ helps t s.
Context `{!∀ s, Decision (goal s)}.
Hypothesis Hturn : ∀ s m t, ok t s → ranked s m → ¬ goal s → ∃ m', ranked (turn t s) m' ∧
  (smaller m' m ∨ m' = m ∧ ¬ helps t s ∧ ∀ t', helps t' s → helps t' (turn t s)).

(** [ok]: what is assumed of the schedule, instant by instant. *)
Lemma fair_descent : ∀ m s sched, ranked s m → fair threads sched →
  (∀ n, ok (sched n) (run_schedule sched n s)) →
  ∃ n, goal (run_schedule sched n s) ∧ ∃ m', ranked (run_schedule sched n s) m'.
Proof.
  intros m. induction (Hwf m) as [m _ IH]. intros s sched Hr Hf Hok.
  destruct (Hhelp s m Hr) as [Hg|(t & Hin & Ht)]; [exists 0; by eauto|].
  destruct (Hf t Hin 0) as (k & _ & Hk). revert s sched Hr Hf Hok Ht Hk.
  induction k as [|k IHk]; intros s sched Hr Hf Hok Ht Hk; (destruct (decide (goal s)) as [Hg|Hng]; [exists 0; by eauto|]);
    pose proof (λ n, Hok (Datatypes.S n)) as Hok';
    destruct (Hturn s m (sched 0) (Hok 0) Hr Hng) as (m' & Hr' & [Hsm|(-> & Hn & Hkeep)]).
  1, 3: destruct (IH m' Hsm _ _ Hr' (fair_shift _ _ Hf) Hok') as (n & Hn); by exists (Datatypes.S n).
  - by rewrite Hk in Hn.
  - destruct (IHk _ _ Hr' (fair_shift _ _ Hf) Hok' (Hkeep t Ht) Hk) as (n & Hg). by exists (Datatypes.S n).
Qed.

End Descent.

(** The special case of one thread that gets there by itself, while the others
    leave its distance alone; what happens after the goal does not matter. *)
Lemma fair_until (t : T) (dist : S → nat) (ok : T → S → Prop) (inv goal : S → Prop) `{∀ s, Decision (goal s)} :
  (∀ s u, ok u s → inv s → ¬ goal s → inv (turn u s) ∧
    (dist (turn u s) < dist s ∨ u ≠ t ∧ dist (turn u s) = dist s)) →
  ∀ s sched, inv s → fair [t] sched → (∀ n, ok (sched n) (run_schedule sched n s)) →
  ∃ n, inv (run_schedule sched n s) ∧ goal (run_schedule sched n s).
Proof.
  intros Hturn s. remember (dist s) as d eqn:Hd. revert s Hd.
  induction (lt_wf d) as [d _ IH]. intros s -> sched Hi Hf Hok.
  destruct (Hf t ltac:(set_solver) 0) as (k & _ & Hk). revert s sched IH Hi Hf Hok Hk.
  induction k as [|k IHk]; intros s sched IH Hi Hf Hok Hk; (destruct (decide (goal s)) as [?|Hng]; [by exists 0|]);
    destruct (Hturn s (sched 0) (Hok 0) Hi Hng) as (Hi' & [Hlt|[Hne Heq]]).
  1, 3: destruct (IH _ Hlt _ eq_refl (λ k, sched (Datatypes.S k)) Hi' (fair_shift _ _ Hf) (λ n, Hok (Datatypes.S n)))
    as (n & Hn); by exists (Datatypes.S n).
  - done.
  - destruct (IHk (turn (sched 0) s) (λ k, sched (Datatypes.S k))) as (n & Hn);
      [by rewrite Heq|done|by apply fair_shift|apply (λ n, Hok (Datatypes.S n))|done|by exists (Datatypes.S n)].
Qed.

End FairRun.

(** Taking turns in a fixed order is fair. *)
Definition round_robin {T} (t0 : T) (threads : list T) (n : nat) : T :=
  default t0 (threads !! (n `mod` length threads)).

Lemma round_robin_fair {T} (t0 : T) threads : fair threads (round_robin t0 threads).
Proof.
  intros t (i & Hi)%list_elem_of_lookup n. pose proof (lookup_lt_Some _ _ _ Hi) as Hlt.
  exists (i + n * length threads). split; [nia|]. unfold round_robin.
  by rewrite Nat.Div0.mod_add, Nat.mod_small, Hi.
Qed.

Lemma round_robin_in {T} (t0 : T) threads n : round_robin t0 threads n ∈ t0 :: threads.
Proof.
  unfold round_robin. destruct (threads !! _) as [t|] eqn:Ht; cbn; [|left].
  right. by apply list_elem_of_lookup_2 in Ht.
Qed.
