(* ===== verification/ProcessProgress.v ===== *)
(** * ProcessProgress: the gateway process finishes

    No thread of [Process] is ever stuck on undefined behaviour, and once the
    shutdown has begun [main] returns under every fair scheduler, although the
    sequencer waits for the slowest consumer and a consumer that has caught up
    only turns in its loop.  No step raises a lexicographic measure, and short of
    the return of [main] some thread is in a position to lower it and stays
    there ([somebody_helps], [turn_ranked]); [FairRun] does the rest. *)

From Stdlib Require Import Relation_Operators Lexicographic_Product Wf_nat.
From S2P Require Import Prelude Types ObjectPool OrderBook PriceTime OrderBookProofs SpscRing BroadcastRing Consumer Sequencer MatchingEngine EngineProofs EngineProperties Wal Db System Threads Process ProcessProofs FairRun.

(** ** How far a thread is from its goal *)

(** The sequencer's distance from returning, once its flag is down. *)
Definition seq_dist (pc : SeqPc) : nat :=
  let w p i := (producer_count - p) * (kMaxBatch + 2) + (kMaxBatch + 1 - i) in
  match pc with
  | SqDone => 0
  | SqPass => 1
  | SqPublish p i _ => 1 + 2 * w p i
  | SqBatch p i => 2 + 2 * w p i
  end.

(** What is left of [push_ack]s. *)
Definition push_dist (kMaxSpins : nat) (p : PushPc) : nat :=
  match p with
  | PIdle => 0
  | PTry _ rest k => length rest * (kMaxSpins + 5) + 2 + (kMaxSpins + 2 - k)
  | PMirror _ rest => length rest * (kMaxSpins + 5) + 1
  end.

(** A consumer's distance from the next [try_consume] while it runs, and from
    returning after [stop()]. *)
Definition loop_dist (running : bool) (pc : LoopPc) : nat :=
  if running then
    match pc with
    | LPass => 1
    | LBatch i => if (i <? batch_size)%nat then 0 else 40
    | LFills i => 2 + (33 - i)
    | _ => 0
    end
  else
    match pc with
    | LBatch _ => 50
    | LFills i => 5 + (33 - i)
    | LPass => 4
    | LDrain => 3
    | LDrainFills => 2
    | LDone => 0
    end.

Lemma push_dist_next kMaxSpins a rest :
  push_dist kMaxSpins (next_push rest) < push_dist kMaxSpins (PMirror a rest).
Proof. destruct rest as [|b rest]; cbn; lia. Qed.

Section Threads.
Context {B Q D : Type} `{BroadcastLaws B SequencedEvent} `{FifoLaws Q OutboundAck} `{Sqlite D}.
Context (kMaxSpins : nat).
Context (fsync_every_n_ fsync_interval_ batch_every_n_ batch_interval_ : Z).
Context (wal_clock db_clock wall : nat → Z).
Context (hist : list SequencedEvent) (cs : list nat).

(** [consume] that took nothing found everything taken. *)
Lemma consume_none {X} i l (sh : Shared B Q) (k : option SequencedEvent → option X) sh' x :
  ring_at hist cs i l sh → consume i sh k = Some (None, sh', x) →
  l = hist ∧ k None = Some x ∧ sh' = sh.
Proof.
  intros Hr Hc. destruct (consume_cases hist cs i l sh k Hr) as [(ev & b & _ & _ & Hk)|[-> Hk]];
    rewrite Hk in Hc; [by destruct (k (Some ev)); simplify_eq/=|].
  destruct (k None) eqn:Hn; by simplify_eq/=.
Qed.

(** While it has acks to push, the engine's thread does nothing else. *)
Lemma matcher_busy running (sh : Shared B Q) m r sh' m' :
  m_push m ≠ PIdle → matcher_step kMaxSpins running sh m = Some (r, sh', m') →
  push_dist kMaxSpins (m_push m') < push_dist kMaxSpins (m_push m).
Proof.
  intros Hbusy Hstep. unfold matcher_step in Hstep. destruct (m_push m) as [|a rest k|a rest] eqn:Hp; [done|..].
  - destruct (fifo_push a (sh_acks sh)) as [[[|] q]|]; cbn [mbind option_bind] in Hstep; [| |done].
    + simplify_eq. cbn. lia.
    + destruct (Nat.ltb_spec kMaxSpins k); simplify_eq; cbn [m_push matcher_goto].
      * pose proof (push_dist_next kMaxSpins a rest). cbn in *. lia.
      * cbn. lia.
  - destruct (fifo_push a (sh_fills sh)) as [[[|] q]|]; simplify_eq/=; apply (push_dist_next _ a).
Qed.

Lemma matcher_decr running l (sh : Shared B Q) m r sh' m' :
  ring_at hist cs 0 l sh → matcher_step kMaxSpins running sh m = Some (r, sh', m') →
  is_Some r ∨ push_dist kMaxSpins (m_push m') < push_dist kMaxSpins (m_push m) ∨
  (m_push m' = m_push m ∧ sh_fills sh' = sh_fills sh ∧
   (running = false ∨ length l < length hist → loop_dist running (m_loop m') < loop_dist running (m_loop m))).
Proof.
  intros Hring Hstep. pose proof Hstep as Hstep'. unfold matcher_step in Hstep. destruct (m_push m) as [|a rest k|a rest] eqn:Hp.
  - destruct r as [ev|]; [by left; eauto|]. right; right. destruct (m_loop m) eqn:Hl; try done.
    + simplify_eq. destruct running; cbn; by split_and!; try lia.
    + destruct (i <? batch_size)%nat eqn:Hi.
      * destruct (consume_none _ _ _ _ _ _ Hring Hstep) as (-> & [= <-] & ->).
        split_and!; [done..|]. intros [-> |]; cbn; lia.
      * simplify_eq. split_and!; [done|done|]. unfold loop_dist. rewrite Hi. cbn. destruct running; lia.
    + destruct (consume_none _ _ _ _ _ _ Hring Hstep) as (-> & [= <-] & ->).
      split_and!; [done..|]. intros [-> |]; cbn; lia.
  - right. left. rewrite <-Hp. eapply matcher_busy; [by rewrite Hp|exact Hstep'].
  - right. left. rewrite <-Hp. eapply matcher_busy; [by rewrite Hp|exact Hstep'].
Qed.

Lemma wal_decr running l (sh : Shared B Q) t r sh' t' :
  ring_at hist cs 1 l sh →
  wal_step fsync_every_n_ fsync_interval_ wal_clock running sh t = Some (r, sh', t') →
  is_Some r ∨ (running = false ∨ length l < length hist → loop_dist running (w_loop t') < loop_dist running (w_loop t)).
Proof.
  intros Hring Hstep. destruct r as [ev|]; [by left; eauto|]. right. intros Hgoal. unfold wal_step in Hstep.
  assert (∀ w, wal_end_pass fsync_every_n_ fsync_interval_ wal_clock (w_wal t) = Some w → w_loop w = LPass) as Hpass.
  { unfold wal_end_pass. intros w. destruct (maybe_fsync _ _ _ _ _); cbn; by intros [= <-]. }
  destruct (w_loop t) eqn:Hl; try done.
  - simplify_eq. destruct running; cbn; lia.
  - destruct (i <? batch_size)%nat eqn:Hi.
    + destruct (consume_none _ _ _ _ _ _ Hring Hstep) as (-> & Hk & _). cbn in Hk. rewrite (Hpass _ Hk).
      destruct Hgoal as [-> |]; cbn in *; lia.
    + destruct (wal_end_pass _ _ _ _) as [w|] eqn:Hw; [|done]. injection Hstep as _ <-. rewrite (Hpass _ eq_refl). unfold loop_dist. rewrite Hi. destruct running; lia.
  - destruct (consume_none _ _ _ _ _ _ Hring Hstep) as (-> & Hk & _). cbn in Hk. unfold wal_end in Hk.
    destruct (wal_close _ _ _ _); simplify_eq/=. destruct Hgoal as [-> |]; cbn in *; lia.
Qed.

Lemma db_decr running l (sh : Shared B Q) (t : DbTh D) r a sh' t' :
  ring_at hist cs 2 l sh →
  db_step batch_every_n_ batch_interval_ db_clock wall running sh t = Some (r, a, sh', t') →
  (running = true → past_ring (d_loop t) = false) →
  is_Some r ∨ is_Some a ∨
  (running = false ∨ length l < length hist → loop_dist running (d_loop t') < loop_dist running (d_loop t)).
Proof.
  intros Hring Hstep Hpr. destruct r as [ev|]; [by left; eauto|]. destruct a as [a|]; [by right; left; eauto|].
  right; right. intros Hgoal. unfold db_step in Hstep.
  assert (∀ x, db_end_pass batch_every_n_ batch_interval_ db_clock t = Some x → d_loop x = LPass) as Hpass.
  { unfold db_end_pass. intros w. destruct (maybe_flush _ _ _ _ _); cbn; by intros [= <-]. }
  assert (∀ k x (o : option (option SequencedEvent * Shared B Q * DbTh D)),
    o = consume 2 sh k → with_event o = Some (None, None, sh', x) → l = hist ∧ k None = Some x) as Hev.
  { intros k x o -> Hw. destruct (consume 2 sh k) as [[[r sh1] x1]|] eqn:Hc; simplify_eq/=.
    destruct (consume_none 2 l sh k sh' x) as (? & ? & _); [done|by simplify_eq|done]. }
  assert (∀ next exit x, with_ack (db_pop batch_every_n_ batch_interval_ db_clock wall sh t next exit)
            = Some (None, None, sh', x) → exit = Some x) as Hack.
  { intros next exit x. unfold db_pop. destruct (fifo_pop _) as [[[a|] q]|]; cbn; [|by destruct exit; cbn; intros; simplify_eq|done].
    by destruct (append_execution_report _ _ _ _ _ _). }
  destruct (d_loop t) eqn:Hl; try done.
  - simplify_eq. destruct running; cbn; lia.
  - destruct (i <? batch_size)%nat eqn:Hi.
    + destruct (Hev _ _ _ eq_refl Hstep) as [-> [= <-]]. destruct Hgoal as [-> |]; cbn in *; lia.
    + simplify_eq. unfold loop_dist. rewrite Hi. cbn. destruct running; lia.
  - destruct (Nat.ltb_spec i batch_size) as [Hi|Hi].
    + rewrite (Hpass _ (Hack _ _ _ Hstep)). destruct running; cbn; lia.
    + destruct (db_end_pass _ _ _ _) as [x|] eqn:Hx; [|done]. injection Hstep as _ <-. rewrite (Hpass _ eq_refl).
      destruct running; cbn; lia.
  - destruct (Hev _ _ _ eq_refl Hstep) as [-> [= <-]]. destruct Hgoal as [-> |]; cbn in *; lia.
  - destruct running; [by specialize (Hpr eq_refl)|]. specialize (Hack _ _ _ Hstep). unfold db_end in Hack.
    destruct (db_close _ _ _ _) as [[f s]|]; simplify_eq/=. lia.
Qed.

End Threads.

Section SequencerThread.
Context {Qi B : Type} `{FifoLaws Qi SequencedEvent} `{BroadcastLaws B SequencedEvent} (now_ns : Z → Z).

(** The sequencer's thread is never stuck; once its flag is down a step brings
    it nearer to its return, unless it waits for a slow consumer. *)
Lemma seq_total (y : @SeqSys Qi B) qs :
  sys_ok y qs → below_limit (length (sy_published y)) → sq_pc (sy_seq y) ≠ SqDone →
  ∃ sq, seq_step now_ns (sy_seq y) = Some sq ∧
    (running_ (sy_seq y) = false →
     (lapped bc_room (length (sy_published y)) (length <$> sy_seen y) ∧ sq_pc sq = sq_pc (sy_seq y)) ∨
     seq_dist (sq_pc sq) < seq_dist (sq_pc (sy_seq y))).
Proof.
  intros [Hin [Hc _] Hout _ Hpc _ _ _] [Hl1 Hl2] Hnd. unfold seq_step.
  destruct (sq_pc (sy_seq y)) as [|p i|p i ev|] eqn:Epc; [| | |done]; cbn in Hpc.
  - eexists. split; [done|]. intros ->. right. cbn. lia.
  - destruct (Nat.ltb_spec p producer_count) as [Hp|Hp]; [destruct (Nat.ltb_spec i kMaxBatch) as [Hi|Hi]|].
    + destruct (lookup_lt_is_Some_2 qs p) as [l Hl]; [lia|].
      destruct (Forall2_lookup_r _ _ _ _ _ Hin Hl) as (q & -> & Hrep). cbn [mbind option_bind].
      pose proof (fifo_pop_law q l Hrep) as Hlaw.
      destruct l as [|ev l]; [rewrite Hlaw|destruct Hlaw as (q' & -> & _)];
        (eexists; split; [done|]; intros _; right; cbn -[Nat.mul Nat.sub]; nia).
    + eexists. split; [done|]. intros _. right. cbn -[Nat.mul Nat.sub]. nia.
    + eexists. split; [done|]. intros _. right. cbn -[Nat.mul Nat.sub]. nia.
  - pose proof (bc_publish_law _ _ _ ev Hout ltac:(lia)) as Hlaw.
    case_decide as Hlap; destruct Hlaw as (b & -> & _); cbn [mbind option_bind]; (eexists; split; [done|]).
    + by left.
    + intros _. right. cbn -[Nat.mul Nat.sub]. unfold kMaxBatch in *. nia.
Qed.

End SequencerThread.

(** ** The process *)

Definition Measure : Type := nat * (nat * (nat * (nat * (nat * nat)))).
Definition smaller : relation Measure :=
  slexprod _ _ lt (slexprod _ _ lt (slexprod _ _ lt (slexprod _ _ lt (slexprod _ _ lt lt)))).

Lemma smaller_wf : well_founded smaller.
Proof. repeat apply wf_slexprod; apply lt_wf. Qed.

Lemma lex_intro {T} (R : relation T) (a a' : nat) b b' :
  a < a' ∨ (a = a' ∧ R b b') → slexprod _ _ lt R (a, b) (a', b').
Proof. intros [Hl|[-> Hr]]; [by apply left_slex|by apply right_slex]. Qed.

(** Smaller at the first component, or equal there and smaller in the rest. *)
Ltac lex_here := apply lex_intro; left.
Ltac lex_next := apply lex_intro; right; split; [done|].

Lemma below_limit_le {B} `{Broadcast B SequencedEvent} n n' :
  n ≤ n' → below_limit (B := B) n' → below_limit (B := B) n.
Proof. unfold below_limit. lia. Qed.

(** A consumer's contribution to the measure: one that runs and has taken
    everything turns in its loop without getting anywhere. *)
Definition wait_dist (running : bool) (seen pub : nat) (pc : LoopPc) : nat :=
  if running && (pub <=? seen) then 0 else loop_dist running pc.

Lemma wait_dist_cases running seen pub pc pc' :
  (running = false ∨ seen < pub → loop_dist running pc' < loop_dist running pc) →
  wait_dist running seen pub pc' < wait_dist running seen pub pc ∨
  (running = true ∧ pub ≤ seen ∧ wait_dist running seen pub pc' = wait_dist running seen pub pc).
Proof.
  intros Hd. unfold wait_dist. destruct running; cbn; [|auto]. destruct (Nat.leb_spec pub seen); auto.
Qed.

Section Progress.
Context {Qi Q B D : Type} `{FifoLaws Qi SequencedEvent} `{FifoLaws Q OutboundAck}.
Context `{BroadcastLaws B SequencedEvent} `{SqliteFaultLaws D}.
Context (PoolCapacity kMaxSpins : nat) (now_ns : Z → Z).
Context (fsync_every_n_ fsync_interval_ batch_every_n_ batch_interval_ : Z).
Context (wal_clock db_clock wall : nat → Z).
Hypothesis Hnow : ∀ k, is_u64 (now_ns k).
Hypothesis Hcap : (Z.of_nat PoolCapacity < 2 ^ 31)%Z.
Hypothesis Hfsync : (0 < fsync_every_n_ < 2 ^ 64)%Z.
Hypothesis Hbatch : (0 < batch_every_n_ < 2 ^ 64)%Z.
Context (old : list SequencedEvent) (T0 : Tables).

Abbreviation P := (Proc Qi Q B D).
Abbreviation inv := (@proc_inv Qi Q B D _ _ _ _ PoolCapacity now_ns fsync_every_n_ batch_every_n_ wall old T0).
Abbreviation step := (@proc_step Qi Q B D _ _ _ _ kMaxSpins now_ns fsync_every_n_ fsync_interval_
  batch_every_n_ batch_interval_ wal_clock db_clock wall).
Abbreviation move := (@move Qi Q B D _ _ _ _ kMaxSpins now_ns fsync_every_n_ fsync_interval_
  batch_every_n_ batch_interval_ wal_clock db_clock wall).

(** Nothing more than what was accepted is published. *)
Lemma published_room s qs l0 l1 l2 acks fills :
  inv s qs l0 l1 l2 acks fills → below_limit (length (accepted_orders s)) →
  below_limit (length (published s ++ in_flight (sy_seq (p_sys s)))).
Proof.
  intros Hinv Hlim. destruct (pv_gateway _ _ _ _ _ _ _ _ _ _ _ _ _ _ Hinv) as [lg Hg].
  pose proof (published_prefix _ _ _ (pv_sys _ _ _ _ _ _ _ _ _ _ _ _ _ _ Hinv) Hg) as Hp%prefix_length.
  unfold accepted_orders in Hlim. rewrite Hg in Hlim. cbn in Hlim. rewrite !length_fmap in Hp.
  unfold below_limit, published in *. lia.
Qed.

Lemma published_limit s qs l0 l1 l2 acks fills :
  inv s qs l0 l1 l2 acks fills → below_limit (length (accepted_orders s)) → below_limit (length (published s)).
Proof.
  intros Hinv Hlim. pose proof (published_room _ _ _ _ _ _ _ Hinv Hlim) as Hr. rewrite length_app in Hr.
  unfold below_limit in *. lia.
Qed.

(** *** Every thread can take its next step *)

Lemma seq_can s qs l0 l1 l2 acks fills :
  inv s qs l0 l1 l2 acks fills → below_limit (length (published s)) →
  sq_pc (sy_seq (p_sys s)) ≠ SqDone → is_Some (seq_step now_ns (sy_seq (p_sys s))).
Proof.
  intros Hinv Hlim Hnd.
  destruct (seq_total now_ns (p_sys s) qs (pv_sys _ _ _ _ _ _ _ _ _ _ _ _ _ _ Hinv) Hlim Hnd) as (sq & -> & _). eauto.
Qed.

Lemma matcher_can s qs l0 l1 l2 acks fills :
  inv s qs l0 l1 l2 acks fills → below_limit (length (published s)) →
  m_loop (p_matcher s) ≠ LDone → is_Some (matcher_step kMaxSpins (flag 2 s) (shared s) (p_matcher s)).
Proof.
  intros Hinv Hlim Hnd. pose proof (inv_stream _ _ _ _ _ Hnow _ _ _ _ _ _ _ _ _ Hinv Hlim) as Hstream.
  destruct Hinv as [Hok Hseen _ _ _ Ha Hfl Hm _ _ _].
  destruct (matcher_step_ok (published s) _ PoolCapacity kMaxSpins Hcap (flag 2 s) l0 (p_popped s) (p_written s)
              acks fills (shared s) (p_matcher s) Hstream (ring_of 0 s qs l0 Hok ltac:(by rewrite Hseen)) Ha Hfl Hm Hnd)
    as (r & sh & m & -> & _). eauto.
Qed.

Lemma wal_can s qs l0 l1 l2 acks fills :
  inv s qs l0 l1 l2 acks fills → w_loop (p_wal s) ≠ LDone →
  is_Some (wal_step fsync_every_n_ fsync_interval_ wal_clock (flag 3 s) (shared s) (p_wal s)).
Proof.
  intros [Hok Hseen _ _ _ _ _ _ Hw _ _] Hnd.
  destruct (wal_step_ok (published s) _ fsync_every_n_ fsync_interval_ wal_clock Hfsync (flag 3 s) old l1
              (shared s) (p_wal s) (ring_of 1 s qs l1 Hok ltac:(by rewrite Hseen)) Hw Hnd) as (r & sh & w & -> & _). eauto.
Qed.

(** The next step of the database thread throws, and [std::terminate] ends the
    process. *)
Definition db_throws (s : P) : Prop :=
  d_loop (p_db s) ≠ LDone ∧
  db_step batch_every_n_ batch_interval_ db_clock wall (flag 4 s) (shared s) (p_db s) = None.

#[export] Instance db_throws_dec s : Decision (db_throws s).
Proof.
  unfold db_throws. destruct (d_loop (p_db s)) eqn:Hl; [..|by right; intros []];
    (destruct (db_step _ _ _ _ _ _ _); [by right; intros [_ ?]|by left]).
Defined.

(** That happens only when SQLite refuses. *)
Lemma db_throws_refused s qs l0 l1 l2 acks fills :
  inv s qs l0 l1 l2 acks fills → db_throws s → db_refused (p_db s).
Proof.
  intros [Hok Hseen _ _ _ _ Hfl _ _ Hd _] [Hnd Hnone].
  pose proof (db_step_ok (published s) _ batch_every_n_ batch_interval_ db_clock wall Hbatch (flag 4 s) T0 l2
              (p_written s) fills (shared s) (p_db s) (ring_of 2 s qs l2 Hok ltac:(by rewrite Hseen)) Hfl Hd Hnd) as Hpost.
  by rewrite Hnone in Hpost.
Qed.

Lemma db_can s :
  ¬ db_throws s → d_loop (p_db s) ≠ LDone →
  is_Some (db_step batch_every_n_ batch_interval_ db_clock wall (flag 4 s) (shared s) (p_db s)).
Proof. intros Ht Hnd. destruct (db_step _ _ _ _ _ _ _) eqn:Hs; [eauto|]. by destruct Ht. Qed.

(** *** Every step leads towards the end *)

Definition seen_by (i : nat) (s : P) : nat := length (default [] (sy_seen (p_sys s) !! i)).

Definition measure (s : P) (fills : list OutboundAck) : Measure :=
  let pub := length (published s) in
  (5 - main_rank (p_main s),
   (seq_dist (sq_pc (sy_seq (p_sys s))),
    (3 * pub - (seen_by 0 s + seen_by 1 s + seen_by 2 s),
     (push_dist kMaxSpins (m_push (p_matcher s)),
      (length fills,
       wait_dist (flag 2 s) (seen_by 0 s) pub (m_loop (p_matcher s)) +
       wait_dist (flag 3 s) (seen_by 1 s) pub (w_loop (p_wal s)) +
       wait_dist (flag 4 s) (seen_by 2 s) pub (d_loop (p_db s))))))).

(** Whose next step brings the shutdown nearer to its end. *)
Definition active (turn i : nat) (s : P) : Prop := flag turn s = false ∨ seen_by i s < length (published s).

Definition helps (mv : Move) (s : P) : Prop :=
  match mv with
  | MvSeq => sq_pc (sy_seq (p_sys s)) ≠ SqDone ∧
      ¬ lapped bc_room (length (published s)) (length <$> sy_seen (p_sys s))
  | MvMatcher => m_loop (p_matcher s) ≠ LDone ∧ active 2 0 s
  | MvWal => w_loop (p_wal s) ≠ LDone ∧ active 3 1 s
  | MvDb => d_loop (p_db s) ≠ LDone ∧ active 4 2 s
  | MvMain => is_Some (main_step s)
  | MvSubmit _ | MvTake => False
  end.

(** A step that changes nothing that matters to the others. *)
Record quiet (s s' : P) : Prop := {
  qt_main : p_main s' = p_main s;
  qt_seq : sq_pc (sy_seq (p_sys s')) = sq_pc (sy_seq (p_sys s));
  qt_published : published s' = published s;
  qt_seen : sy_seen (p_sys s') = sy_seen (p_sys s);
  qt_matcher : flag 2 s = true ∨ m_loop (p_matcher s') = m_loop (p_matcher s);
  qt_wal : flag 3 s = true ∨ w_loop (p_wal s') = w_loop (p_wal s);
  qt_db : flag 4 s = true ∨ d_loop (p_db s') = d_loop (p_db s)
}.

(** The step of [mv] from [s] to [s'] lowers the measure, or it was not one that
    helps and disturbs nobody. *)
Definition descends (mv : Move) (s s' : P) (fills : list OutboundAck) : Prop :=
  ∃ qs l0 l1 l2 acks fills', inv s' qs l0 l1 l2 acks fills' ∧ accepted_orders s' = accepted_orders s ∧
    main_rank (p_main s) ≤ main_rank (p_main s') ∧
    (smaller (measure s' fills') (measure s fills) ∨
     measure s' fills' = measure s fills ∧ ¬ helps mv s ∧ quiet s s').

(** The consumers have taken no more than was published. *)
Lemma seen_le s qs l0 l1 l2 acks fills :
  inv s qs l0 l1 l2 acks fills → ∀ i, seen_by i s ≤ length (published s).
Proof.
  intros Hinv i. unfold seen_by. destruct (sy_seen (p_sys s) !! i) as [l|] eqn:Hl; cbn; [|lia].
  pose proof (so_seen _ _ (pv_sys _ _ _ _ _ _ _ _ _ _ _ _ _ _ Hinv)) as Hs.
  rewrite (Forall_lookup_1 _ _ _ _ Hs Hl), length_take. unfold published. lia.
Qed.

Lemma seen_by_took i r (s : P) qs l0 l1 l2 acks fills :
  inv s qs l0 l1 l2 acks fills → ∀ b j, j < 3 → i < 3 →
  length (default [] (sy_seen (took i r b (p_sys s)) !! j)) = seen_by j s + if decide (i = j) then length (option_list r) else 0.
Proof.
  intros Hinv b j Hj Hi. unfold seen_by, took. cbn. pose proof (pv_seen _ _ _ _ _ _ _ _ _ _ _ _ _ _ Hinv) as Hs. rewrite Hs.
  case_decide as Hd.
  - subst j. rewrite list_lookup_alter. destruct i as [|[|[|]]]; [..|lia]; apply length_app.
  - rewrite list_lookup_alter_ne by done. lia.
Qed.

(** Taking an event from the ring lowers the third component. *)
Lemma take_smaller i ev b (s s' : P) fills fills' qs l0 l1 l2 acks qs' l0' l1' l2' acks' :
  i < 3 → inv s qs l0 l1 l2 acks fills → inv s' qs' l0' l1' l2' acks' fills' →
  p_main s' = p_main s → p_sys s' = took i (Some ev) b (p_sys s) → smaller (measure s' fills') (measure s fills).
Proof.
  intros Hi Hinv Hinv' Hmain Hsys.
  pose proof (seen_le _ _ _ _ _ _ _ Hinv' 0) as Hb0. pose proof (seen_le _ _ _ _ _ _ _ Hinv' 1) as Hb1.
  pose proof (seen_le _ _ _ _ _ _ _ Hinv' 2) as Hb2.
  assert (∀ j, j < 3 → seen_by j s' = seen_by j s + if decide (i = j) then 1 else 0) as Hseen.
  { intros j Hj. unfold seen_by at 1. rewrite Hsys. rewrite (seen_by_took i (Some ev) _ _ _ _ _ _ _ Hinv) by done. done. }
  assert (length (published s') = length (published s)) as Hpub by (unfold published; by rewrite Hsys).
  pose proof (Hseen 0 ltac:(lia)). pose proof (Hseen 1 ltac:(lia)). pose proof (Hseen 2 ltac:(lia)).
  unfold measure. rewrite Hmain. lex_next. apply lex_intro. right. split; [by rewrite Hsys|].
  lex_here. rewrite Hpub in *. repeat case_decide; lia.
Qed.

(** Finding nothing. *)
Lemma took_none_seen i b (s : P) :
  sy_seen (took i None b (p_sys s)) = sy_seen (p_sys s).
Proof.
  unfold took. cbn. rewrite <-(list_alter_id (λ l, l ++ []) (sy_seen (p_sys s)) i) at 2; [done|].
  intros l. apply app_nil_r.
Qed.

Lemma seen_same (s s' : P) : sy_seen (p_sys s') = sy_seen (p_sys s) → ∀ i, seen_by i s' = seen_by i s.
Proof. intros Hs i. unfold seen_by. by rewrite Hs. Qed.

Lemma matcher_descends s s' qs l0 l1 l2 acks fills :
  inv s qs l0 l1 l2 acks fills → below_limit (length (accepted_orders s)) →
  move MvMatcher s = Some s' → descends MvMatcher s s' fills.
Proof.
  intros Hinv Hlim Hmv. cbn in Hmv. destruct (matcher_step _ _ _ _) as [[[r sh] m]|] eqn:Hstep; [|done].
  injection Hmv as Hs'. pose proof (published_limit _ _ _ _ _ _ _ Hinv Hlim) as Hlim'.
  destruct (inv_matcher _ _ _ _ _ _ Hnow Hcap _ _ _ _ _ _ _ _ _ _ _ _ Hstep Hlim' Hinv)
    as (qs' & l0' & acks' & fills' & Hinv'). rewrite Hs' in Hinv'.
  exists qs', l0', l1, l2, acks', fills'. split_and!; [done|by subst s'..|].
  destruct r as [ev|]; [left; by eapply (take_smaller 0 ev (sh_ring sh)); [lia|..]; subst s'|].
  assert (sy_seen (p_sys s) !! 0 = Some l0) as Hl by (by rewrite (pv_seen _ _ _ _ _ _ _ _ _ _ _ _ _ _ Hinv)).
  assert (∀ i, seen_by i s' = seen_by i s) as Hby by (apply seen_same; subst s'; apply took_none_seen).
  destruct (matcher_decr kMaxSpins (published s) _ (flag 2 s) l0 (shared s) (p_matcher s) None sh m
              (ring_of 0 s qs l0 (pv_sys _ _ _ _ _ _ _ _ _ _ _ _ _ _ Hinv) Hl) Hstep) as [[? ?]|[Hp|(Hp & Hfs & Hlp)]]; [done| |].
  - left. unfold measure. rewrite !Hby. subst s'. do 3 lex_next. by lex_here.
  - assert (fills' = fills) as ->.
    { apply (fifo_rep_inj _ (p_fills s)); [|apply (pv_fills _ _ _ _ _ _ _ _ _ _ _ _ _ _ Hinv)].
      change (p_fills s) with (sh_fills (shared s)). rewrite <-Hfs. subst s'.
      apply (pv_fills _ _ _ _ _ _ _ _ _ _ _ _ _ _ Hinv'). }
    replace (length l0) with (seen_by 0 s) in Hlp by (unfold seen_by; by rewrite Hl).
    unfold measure. rewrite !Hby.
    destruct (wait_dist_cases _ _ _ _ _ Hlp) as [Hw|(Hr & Hc & Hw)].
    + left. subst s'. cbn. rewrite Hp. do 5 lex_next. unfold flag, published in *. cbn in *. lia.
    + right. subst s'. split_and!.
      * cbn. rewrite Hp. unfold flag, published in *. cbn in *. by rewrite Hw.
      * intros (_ & [Hf|Hf]); [congruence|lia].
      * split; cbn; auto. apply (took_none_seen 0 (sh_ring sh) s).
Qed.

Lemma wal_descends s s' qs l0 l1 l2 acks fills :
  inv s qs l0 l1 l2 acks fills → below_limit (length (accepted_orders s)) →
  move MvWal s = Some s' → descends MvWal s s' fills.
Proof.
  intros Hinv Hlim Hmv. cbn in Hmv. destruct (wal_step _ _ _ _ _ _) as [[[r sh] w]|] eqn:Hstep; [|done].
  injection Hmv as Hs'. pose proof (published_limit _ _ _ _ _ _ _ Hinv Hlim) as Hlim'.
  destruct (inv_wal _ _ _ _ _ _ _ Hfsync _ _ _ _ _ _ _ _ _ _ _ _ Hstep Hlim' Hinv) as (qs' & l1' & Hinv').
  rewrite Hs' in Hinv'. exists qs', l0, l1', l2, acks, fills. split_and!; [done|by subst s'..|].
  destruct r as [ev|]; [left; by eapply (take_smaller 1 ev (sh_ring sh)); [lia|..]; subst s'|].
  assert (∀ i, seen_by i s' = seen_by i s) as Hby by (apply seen_same; subst s'; apply took_none_seen).
  assert (sy_seen (p_sys s) !! 1 = Some l1) as Hl by (by rewrite (pv_seen _ _ _ _ _ _ _ _ _ _ _ _ _ _ Hinv)).
  destruct (wal_decr fsync_every_n_ fsync_interval_ wal_clock (published s) _ (flag 3 s) l1 (shared s) (p_wal s)
              None sh w (ring_of 1 s qs l1 (pv_sys _ _ _ _ _ _ _ _ _ _ _ _ _ _ Hinv) Hl) Hstep) as [[? ?]|Hlp]; [done|].
  replace (length l1) with (seen_by 1 s) in Hlp by (unfold seen_by; by rewrite Hl).
  unfold measure. rewrite !Hby. destruct (wait_dist_cases _ _ _ _ _ Hlp) as [Hw|(Hr & Hc & Hw)].
  - left. subst s'. do 5 lex_next. unfold flag, published in *. cbn in *. lia.
  - right. subst s'. split_and!.
    + unfold flag, published in *. cbn in *. by rewrite Hw.
    + intros (_ & [Hf|Hf]); [congruence|lia].
    + split; cbn; auto. apply (took_none_seen 1 (sh_ring sh) s).
Qed.

(** A database thread that has been told to run is not in its final drain. *)
Lemma db_running_pc s qs l0 l1 l2 acks fills :
  inv s qs l0 l1 l2 acks fills → flag 4 s = true → past_ring (d_loop (p_db s)) = false.
Proof.
  intros Hinv Hfg. destruct (past_ring (d_loop (p_db s))) eqn:Hpr; [|done]. exfalso.
  assert (stopping (d_loop (p_db s)) = true) as Hs by (by destruct (d_loop (p_db s))).
  pose proof (tn_stop _ _ _ _ _ (ct_db _ _ _ _ _ (pv_control _ _ _ _ _ _ _ _ _ _ _ _ _ _ Hinv)) Hs).
  unfold flag in Hfg. apply Nat.ltb_lt in Hfg. lia.
Qed.

Lemma db_descends s s' qs l0 l1 l2 acks fills :
  inv s qs l0 l1 l2 acks fills → below_limit (length (accepted_orders s)) →
  move MvDb s = Some s' → descends MvDb s s' fills.
Proof.
  intros Hinv Hlim Hmv. cbn in Hmv. destruct (db_step _ _ _ _ _ _ _) as [[[[r a] sh] d]|] eqn:Hstep; [|done].
  injection Hmv as Hs'. pose proof (published_limit _ _ _ _ _ _ _ Hinv Hlim) as Hlim'.
  destruct (inv_db _ _ _ _ _ _ _ Hbatch _ _ _ _ _ _ _ _ _ _ _ _ _ Hstep Hlim' Hinv)
    as (qs' & l2' & fills' & Hinv' & Hfe).
  rewrite Hs' in Hinv'. exists qs', l0, l1, l2', acks, fills'. split_and!; [done|by subst s'..|].
  destruct r as [ev|]; [left; by eapply (take_smaller 2 ev (sh_ring sh)); [lia|..]; subst s'|].
  assert (∀ i, seen_by i s' = seen_by i s) as Hby by (apply seen_same; subst s'; apply took_none_seen).
  assert (sy_seen (p_sys s) !! 2 = Some l2) as Hl by (by rewrite (pv_seen _ _ _ _ _ _ _ _ _ _ _ _ _ _ Hinv)).
  unfold measure. rewrite !Hby.
  destruct a as [a|]; [left; subst s' fills; do 4 lex_next; lex_here; cbn; lia|]. cbn in Hfe. subst fills'.
  destruct (db_decr batch_every_n_ batch_interval_ db_clock wall (published s) _ (flag 4 s) l2 (shared s) (p_db s)
              None None sh d (ring_of 2 s qs l2 (pv_sys _ _ _ _ _ _ _ _ _ _ _ _ _ _ Hinv) Hl) Hstep)
    as [[? ?]|[[? ?]|Hlp]]; [by eapply db_running_pc|done..|].
  replace (length l2) with (seen_by 2 s) in Hlp by (unfold seen_by; by rewrite Hl).
  destruct (wait_dist_cases _ _ _ _ _ Hlp) as [Hw|(Hr & Hc & Hw)].
  - left. subst s'. do 5 lex_next. unfold flag, published in *. cbn in *. lia.
  - right. subst s'. split_and!.
    + unfold flag, published in *. cbn in *. by rewrite Hw.
    + intros (_ & [Hf|Hf]); [congruence|lia].
    + split; cbn; auto. apply (took_none_seen 2 (sh_ring sh) s).
Qed.

Lemma seq_descends s s' qs l0 l1 l2 acks fills :
  inv s qs l0 l1 l2 acks fills → below_limit (length (accepted_orders s)) → flag 1 s = false →
  move MvSeq s = Some s' → descends MvSeq s s' fills.
Proof.
  intros Hinv Hlim Hfg Hmv. pose proof (published_limit _ _ _ _ _ _ _ Hinv Hlim) as Hlim'.
  pose proof (published_room _ _ _ _ _ _ _ Hinv Hlim) as Hroom.
  pose proof (ct_seq _ _ _ _ _ (pv_control _ _ _ _ _ _ _ _ _ _ _ _ _ _ Hinv)) as Hrun. rewrite Hfg in Hrun.
  cbn in Hmv. destruct (seq_step now_ns (sy_seq (p_sys s))) as [sq|] eqn:Hstep; [|done]. cbn in Hmv. injection Hmv as Hs'.
  assert (sq_pc (sy_seq (p_sys s)) ≠ SqDone) as Hnd.
  { intros Hd. unfold seq_step in Hstep. by rewrite Hd in Hstep. }
  destruct (seq_total now_ns (p_sys s) qs (pv_sys _ _ _ _ _ _ _ _ _ _ _ _ _ _ Hinv) Hlim' Hnd) as (sq' & Hsq & Hdec).
  rewrite Hstep in Hsq. injection Hsq as <-. specialize (Hdec Hrun).
  destruct s as [y ak fl m w d pc po wr]. cbn in *.
  destruct (inv_sequencer PoolCapacity now_ns fsync_every_n_ batch_every_n_ wall old T0 y sq ak fl m w d pc po wr
              qs l0 l1 l2 acks fills Hstep) as (qs' & Hinv'); [|done|].
  { unfold published in *. cbn in *. destruct (seq_step_flow now_ns _ _ Hstep) as (_ & _ & [Hfl|(_ & Hem & _)]).
    - eapply below_limit_le; [|exact Hroom]. rewrite <-Hfl, !length_app. lia.
    - by rewrite Hem, app_nil_r. }
  rewrite Hs' in Hinv'. exists qs', l0, l1, l2, acks, fills. split_and!; [done|by subst s'..|].
  destruct Hdec as [[Hl Hpc]|Hdec]; [right|left; unfold measure; subst s'; lex_next; by lex_here].
  assert (emitted (sy_seq y) sq = []) as Hem.
  { unfold emitted. rewrite Hpc. by destruct (sq_pc (sy_seq y)). }
  rewrite Hem, app_nil_r in Hs'. subst s'. split_and!.
  - unfold measure, seen_by, published, flag. cbn. by rewrite Hpc.
  - intros [_ Hnl]. by destruct Hnl.
  - split; cbn; auto.
Qed.

(** The next [stop()]. *)
Lemma main_descends s s' qs l0 l1 l2 acks fills :
  inv s qs l0 l1 l2 acks fills → below_limit (length (accepted_orders s)) →
  main_step s = Some s' → descends MvMain s s' fills.
Proof.
  intros Hinv Hlim Hstep. pose proof (published_limit _ _ _ _ _ _ _ Hinv Hlim) as Hlim'.
  destruct (inv_main _ _ _ _ _ _ _ _ _ _ _ _ _ _ _ Hstep Hlim' Hinv) as (qs' & Hinv').
  exists qs', l0, l1, l2, acks, fills. unfold main_step in Hstep.
  split_and!; [done|destruct (p_main s); repeat case_match; simplify_eq; cbn; (done || lia)..|].
  left. unfold measure. lex_here. destruct (p_main s); repeat case_match; simplify_eq; cbn; lia.
Qed.

(** *** The shutdown under a fair scheduler *)

Definition threads : list Move := [MvSeq; MvMatcher; MvWal; MvDb; MvMain].

(** In the shutdown, with the orders accepted so far and the measure. *)
Definition ranked (accepted : list SequencedEvent) (s : P) (m : Measure) : Prop :=
  p_main s ≠ MainLoop ∧ accepted_orders s = accepted ∧ below_limit (length accepted) ∧
  ∃ qs l0 l1 l2 acks fills, inv s qs l0 l1 l2 acks fills ∧ m = measure s fills.

(** Somebody is in a position to help. *)
Lemma somebody_helps accepted s m :
  0 < bc_room → ranked accepted s m → p_main s = Returned ∨ ∃ mv, mv ∈ threads ∧ helps mv s.
Proof.
  intros Hroom (Hnm & _ & _ & qs & l0 & l1 & l2 & acks & fills & Hinv & _).
  pose proof (pv_control _ _ _ _ _ _ _ _ _ _ _ _ _ _ Hinv) as [C1 C2 C3 C4 C5 C6 C7].
  assert (∀ t pc l, main_rank (p_main s) < t → turn_ok (main_rank (p_main s)) t pc l (published s) → pc ≠ LDone) as Hrun.
  { intros t pc l Ht [Ts _ _] ->. specialize (Ts eq_refl). lia. }
  assert (∀ t, t ≤ main_rank (p_main s) → flag t s = false) as Hdown by (intros t Ht; by apply Nat.ltb_ge).
  unfold threads, helps, active. destruct (p_main s) eqn:Hpc; cbn [main_rank] in *; [done|..|by left]; right.
  - destruct (decide (seq_dist (sq_pc (sy_seq (p_sys s))) = 0)) as [Hz|Hz].
    { exists MvMain. split; [set_solver|]. unfold main_step. rewrite Hpc.
      destruct (sq_pc (sy_seq (p_sys s))); (eauto || cbn in Hz; lia). }
    destruct (decide (lapped bc_room (length (published s)) (length <$> sy_seen (p_sys s)))) as [Hl|Hl].
    + apply Exists_exists in Hl as (c & Hc & Hle). rewrite (pv_seen _ _ _ _ _ _ _ _ _ _ _ _ _ _ Hinv) in Hc.
      unfold seen_by. rewrite (pv_seen _ _ _ _ _ _ _ _ _ _ _ _ _ _ Hinv). cbn -[length published] in *.
      rewrite !elem_of_cons, elem_of_nil in Hc. destruct Hc as [-> |[-> |[-> |[]]]].
      * exists MvMatcher. split; [set_solver|]. split; [by eapply Hrun; [|exact C4]; lia|right; lia].
      * exists MvWal. split; [set_solver|]. split; [by eapply Hrun; [|exact C5]; lia|right; lia].
      * exists MvDb. split; [set_solver|]. split; [by eapply Hrun; [|exact C6]; lia|right; lia].
    + exists MvSeq. split; [set_solver|]. split; [|done]. intros Hd. by rewrite Hd in Hz.
  - destruct (m_loop (p_matcher s)) eqn:Hm;
      try (exists MvMatcher; split; [set_solver|]; split; [by rewrite ?Hm|left; apply Hdown; lia]).
    exists MvMain. split; [set_solver|]. unfold main_step. rewrite Hpc, Hm. eauto.
  - destruct (w_loop (p_wal s)) eqn:Hm;
      try (exists MvWal; split; [set_solver|]; split; [by rewrite ?Hm|left; apply Hdown; lia]).
    exists MvMain. split; [set_solver|]. unfold main_step. rewrite Hpc, Hm. eauto.
  - destruct (d_loop (p_db s)) eqn:Hm;
      try (exists MvDb; split; [set_solver|]; split; [by rewrite ?Hm|left; apply Hdown; lia]).
    exists MvMain. split; [set_solver|]. unfold main_step. rewrite Hpc, Hm. eauto.
Qed.

(** Whoever helps can step. *)
Lemma helps_can mv s qs l0 l1 l2 acks fills :
  inv s qs l0 l1 l2 acks fills → below_limit (length (published s)) → ¬ db_throws s → helps mv s →
  is_Some (move mv s).
Proof.
  intros Hinv Hlim Hnt. unfold Process.move, helps. destruct mv; try done.
  - intros [Hnd _]. destruct (seq_can _ _ _ _ _ _ _ Hinv Hlim Hnd) as [sq ->]. cbn. eauto.
  - intros [Hnd _]. destruct (matcher_can _ _ _ _ _ _ _ Hinv Hlim Hnd) as [[[r sh] m] ->]. cbn. eauto.
  - intros [Hnd _]. destruct (wal_can _ _ _ _ _ _ _ Hinv Hnd) as [[[r sh] w] ->]. cbn. eauto.
  - intros [Hnd _]. destruct (db_can _ Hnt Hnd) as [[[[r a] sh] d] ->]. cbn. eauto.
Qed.

(** A quiet step leaves everybody able to help who was. *)
Lemma helps_quiet mv s s' qs l0 l1 l2 acks fills :
  inv s' qs l0 l1 l2 acks fills → quiet s s' → helps mv s → helps mv s'.
Proof.
  intros Hinv [Qm Qs Qp Qn Qma Qw Qd].
  pose proof (pv_control _ _ _ _ _ _ _ _ _ _ _ _ _ _ Hinv) as [_ _ _ C4 C5 C6 _].
  assert (∀ t, flag t s' = flag t s) as Hf by (intros t; unfold flag; by rewrite Qm).
  assert (∀ t pc l, flag t s = true → turn_ok (main_rank (p_main s')) t pc l (published s') → pc ≠ LDone) as Hrun.
  { intros t pc l Ht [Ts _ _] ->. specialize (Ts eq_refl). rewrite <-Hf in Ht. apply Nat.ltb_lt in Ht. lia. }
  assert (∀ t pc pc' l, flag t s = true ∨ pc' = pc → turn_ok (main_rank (p_main s')) t pc' l (published s') →
            pc ≠ LDone → pc' ≠ LDone) as Hloop.
  { intros t pc pc' l [Ht| ->]; [by eauto|done]. }
  unfold helps, active. destruct mv; try done; rewrite ?Hf, ?Qs, ?Qp, ?Qn, ?(seen_same s s' Qn); [done|..].
  - intros [Hl Ha]. split; [by eapply (Hloop 2)|done].
  - intros [Hl Ha]. split; [by eapply (Hloop 3)|done].
  - intros [Hl Ha]. split; [by eapply (Hloop 4)|done].
  - unfold main_step, flag in *. rewrite Qm. destruct (p_main s); cbn [main_rank] in *; [eauto|rewrite Qs; destruct (sq_pc (sy_seq (p_sys s))); (done || by intros _; eexists)|..|done].
    + destruct Qma as [?| ->]; [done|]. destruct (m_loop (p_matcher s)); (done || by intros _; eexists).
    + destruct Qw as [?| ->]; [done|]. destruct (w_loop (p_wal s)); (done || by intros _; eexists).
    + destruct Qd as [?| ->]; [done|]. destruct (d_loop (p_db s)); (done || by intros _; eexists).
Qed.

Lemma move_descends mv s s' qs l0 l1 l2 acks fills :
  p_main s ≠ MainLoop → inv s qs l0 l1 l2 acks fills → below_limit (length (accepted_orders s)) →
  move mv s = Some s' → descends mv s s' fills.
Proof.
  intros Hm Hinv Hlim Hmv. destruct mv.
  - eapply seq_descends; eauto. apply Nat.ltb_ge. destruct (p_main s); cbn; (done || lia).
  - by eapply matcher_descends.
  - by eapply wal_descends.
  - by eapply db_descends.
  - exfalso. cbn in Hmv. by destruct (p_main s).
  - exfalso. cbn in Hmv. by destruct (p_main s).
  - by eapply main_descends.
Qed.

Lemma turn_ranked accepted s m mv :
  ranked accepted s m → ¬ db_throws s → ∃ m', ranked accepted (turn move mv s) m' ∧
    (smaller m' m ∨ m' = m ∧ ¬ helps mv s ∧ ∀ mv', helps mv' s → helps mv' (turn move mv s)).
Proof.
  intros Hr Hnt. pose proof Hr as (Hnm & Hacc & Hlim & qs & l0 & l1 & l2 & acks & fills & Hinv & ->).
  unfold turn. destruct (move mv s) as [s'|] eqn:Hmv; cbn [from_option id].
  - rewrite <-Hacc in Hlim.
    destruct (move_descends mv s s' _ _ _ _ _ _ Hnm Hinv Hlim Hmv) as
      (qs' & l0' & l1' & l2' & acks' & fills' & Hinv' & Hacc' & Hrank & Hcase).
    exists (measure s' fills'). split.
    { rewrite Hacc in Hlim, Hacc'. split_and!; [|done..|by exists qs', l0', l1', l2', acks', fills'].
      intros Hc. rewrite Hc in Hrank. destruct (p_main s); cbn in Hrank; (done || lia). }
    destruct Hcase as [Hs|(He & Hn & Hq)]; [by left|right]. split_and!; [done..|].
    intros mv'. by eapply helps_quiet.
  - exists (measure s fills). split; [done|]. right. split_and!; [done| |done]. intros Hh.
    rewrite <-Hacc in Hlim. destruct (helps_can mv s _ _ _ _ _ _ Hinv (published_limit _ _ _ _ _ _ _ Hinv Hlim) Hnt Hh) as [s' Hs].
    congruence.
Qed.

(** When [main] has returned, nobody steps any more. *)
Lemma returned_halts s qs l0 l1 l2 acks fills mv :
  inv s qs l0 l1 l2 acks fills → p_main s = Returned → move mv s = None.
Proof.
  intros Hinv Hret. pose proof (mi_loop _ _ _ _ _ (pv_matcher _ _ _ _ _ _ _ _ _ _ _ _ _ _ Hinv)) as Hpush.
  pose proof (pv_control _ _ _ _ _ _ _ _ _ _ _ _ _ _ Hinv) as [_ _ C3 C4 C5 C6 _].
  rewrite Hret in C3, C4, C5, C6. cbn [main_rank] in *.
  pose proof (tn_done _ _ _ _ _ C4 ltac:(lia)) as Em. rewrite Em in Hpush.
  destruct mv; unfold Process.move.
  - unfold seq_step. by rewrite (C3 ltac:(lia)).
  - unfold matcher_step. by rewrite Hpush, Em.
  - unfold wal_step. by rewrite (tn_done _ _ _ _ _ C5 ltac:(lia)).
  - unfold db_step. by rewrite (tn_done _ _ _ _ _ C6 ltac:(lia)).
  - by rewrite Hret.
  - by rewrite Hret.
  - unfold main_step. by rewrite Hret.
Qed.

Definition ended (accepted : list SequencedEvent) (s : P) : Prop :=
  p_main s = Returned ∧ accepted_orders s = accepted ∧ ∀ mv, move mv s = None.

#[local] Instance main_returned_dec (s : P) : Decision (p_main s = Returned).
Proof. destruct (p_main s); (by left) || by right. Defined.

Lemma fair_shutdown s qs l0 l1 l2 acks fills sched :
  0 < bc_room → inv s qs l0 l1 l2 acks fills → below_limit (length (accepted_orders s)) → p_main s ≠ MainLoop →
  fair threads sched →
  ∃ n, ended (accepted_orders s) (run_schedule move sched n s) ∨
       db_throws (run_schedule move sched n s) ∧ db_refused (p_db (run_schedule move sched n s)).
Proof.
  intros Hroom Hinv Hlim Hm Hf.
  edestruct (fair_descent move smaller threads (λ _ _, True) (ranked (accepted_orders s)) helps
    (λ s, p_main s = Returned ∨ db_throws s) smaller_wf) as (n & Hg & m & Hr); [..|exact Hf|done|].
  - intros s1 m Hr. destruct (somebody_helps _ _ _ Hroom Hr) as [Hret|Hh]; [by left; left|by right].
  - apply _.
  - intros s1 m mv _ Hr Hng. apply turn_ranked; [done|]. intros Ht. apply Hng. by right.
  - split_and!; [done..|]. by exists qs, l0, l1, l2, acks, fills.
  - exists n. destruct Hr as (_ & Hacc & _ & qs1 & k0 & k1 & k2 & acks1 & fills1 & Hinv1 & _).
    destruct Hg as [Hret|Ht]; [left|right; split; [done|by eapply db_throws_refused]].
    split_and!; [done..|]. intros mv. by eapply returned_halts.
Qed.

(** What a step publishes was in flight, and orders are only ever added. *)
Lemma step_room (s s' : P) :
  step s s' → length (published s') ≤ length (published s ++ in_flight (sy_seq (p_sys s))) ∧
  length (accepted_orders s) ≤ length (accepted_orders s').
Proof.
  intros Hstep. destruct Hstep as [y sq ? ? ? ? ? ? ? ? Hs| | | |y ? ? ? ? ? ? ? q q' l ev ? ? ? Hl| |s s' Hs];
    unfold published, accepted_orders; cbn; rewrite ?length_app; try lia.
  - destruct (seq_step_flow now_ns _ _ Hs) as (_ & _ & [Hfl|(_ & -> & _)]); [|cbn; lia].
    rewrite <-Hfl, length_app. lia.
  - destruct (sy_pushed y) as [|l' ps]; [done|]. cbn in *. simplify_eq. rewrite length_app. lia.
  - unfold main_step in Hs. destruct (p_main s); repeat case_match; simplify_eq; cbn; lia.
Qed.

Lemma reach_inv_accepted out inputs rn acks0 fills0 (s : P) :
  started PoolCapacity kMaxSpins fsync_every_n_ batch_every_n_ wall out old T0 inputs rn acks0 fills0 →
  rtc step (proc_init PoolCapacity inputs rn acks0 fills0) s → below_limit (length (accepted_orders s)) →
  ∃ qs l0 l1 l2 acks fills, inv s qs l0 l1 l2 acks fills.
Proof.
  intros Hst Hr. revert s Hr.
  apply (rtc_ind_r (λ s, below_limit (length (accepted_orders s)) →
           ∃ qs l0 l1 l2 acks fills, inv s qs l0 l1 l2 acks fills)).
  - intros Hlim. destruct (inv_init _ _ now_ns _ _ _ _ _ _ _ _ _ _ Hst) as (qs & Hinv); [|by eexists _, _, _, _, _, _].
    eapply below_limit_le; [|exact Hlim]. lia.
  - intros s1 s2 _ Hstep IH Hlim. destruct (step_room _ _ Hstep) as [Hr1 Hr2].
    destruct IH as (qs & l0 & l1 & l2 & acks & fills & Hinv); [by eapply below_limit_le|].
    eapply inv_step; eauto. eapply below_limit_le; [exact Hr1|]. eapply published_room; eauto.
    by eapply below_limit_le.
Qed.

(** Some schedule leads to the return of [main], from the event loop too, or to an
    exception. *)
Lemma can_finish s qs l0 l1 l2 acks fills :
  0 < bc_room → inv s qs l0 l1 l2 acks fills → below_limit (length (accepted_orders s)) →
  ∃ s', rtc step s s' ∧
    (p_main s' = Returned ∧ accepted_orders s' = accepted_orders s ∨ db_throws s' ∧ db_refused (p_db s')).
Proof.
  intros Hroom Hinv Hlim.
  assert (∃ s1 qs l0 l1 l2 acks fills, rtc step s s1 ∧ inv s1 qs l0 l1 l2 acks fills ∧
            accepted_orders s1 = accepted_orders s ∧ p_main s1 ≠ MainLoop)
    as (s1 & qs1 & k0 & k1 & k2 & acks1 & fills1 & Hr & Hinv1 & Hacc & Hm).
  { destruct (p_main s) eqn:Hpc; [|by exists s, qs, l0, l1, l2, acks, fills; rewrite Hpc..].
    destruct (main_step s) as [s1|] eqn:Hs; [|unfold main_step in Hs; by rewrite Hpc in Hs].
    destruct (main_descends _ _ _ _ _ _ _ _ Hinv Hlim Hs) as (qs1 & k0 & k1 & k2 & acks1 & fills1 & Hinv1 & Hacc & _).
    exists s1, qs1, k0, k1, k2, acks1, fills1. split_and!; [by apply rtc_once, ps_main|done..|].
    unfold main_step in Hs. rewrite Hpc in Hs. by injection Hs as <-. }
  rewrite <-Hacc in Hlim.
  destruct (fair_shutdown _ _ _ _ _ _ _ _ Hroom Hinv1 Hlim Hm (round_robin_fair MvMain threads)) as (n & Hend).
  eexists. split; [|destruct Hend as [(Hret & Hacc' & _)|Ht]; [left; split; [exact Hret|congruence]|right; exact Ht]]. etrans; [exact Hr|].
  apply run_schedule_rtc. intros k s2 s3. apply move_sound.
  pose proof (round_robin_in MvMain threads k) as Hin. unfold threads in *.
  destruct (round_robin _ _ _); try done. set_solver.
Qed.
End Progress.
