(* ===== verification/ProcessProperties.v ===== *)
(** * ProcessProperties: what the gateway process guarantees

    The theorems about the interleaving threads of [Process], and the run of a
    small process as their witness. *)

From S2P Require Import Prelude Types ObjectPool OrderBook PriceTime OrderBookProofs SpscRing BroadcastRing Consumer Sequencer MatchingEngine EngineProofs EngineProperties Wal Db System Threads Process ProcessProofs FairRun ProcessProgress.

#[local] Open Scope Z_scope.

Section ProcessProperties.
Context {Qi Q B D : Type} `{FifoLaws Qi SequencedEvent} `{FifoLaws Q OutboundAck}.
Context `{BroadcastLaws B SequencedEvent} `{SqliteFaultLaws D}.
Context (PoolCapacity kMaxSpins : nat) (now_ns : Z → Z).
Context (fsync_every_n_ fsync_interval_ batch_every_n_ batch_interval_ : Z).
Context (wal_clock db_clock wall : nat → Z).
Hypothesis Hnow : ∀ k, is_u64 (now_ns k).
Hypothesis Hcap : Z.of_nat PoolCapacity < 2 ^ 31.
Hypothesis Hfsync : 0 < fsync_every_n_ < 2 ^ 64.
Hypothesis Hbatch : 0 < batch_every_n_ < 2 ^ 64.
Context (out : AckOut Q) (old : list SequencedEvent) (T0 : Tables).
Context (inputs : list Qi) (rn : Running B Q D) (acks0 fills0 : Q).

Abbreviation P := (Proc Qi Q B D).
Abbreviation step := (@proc_step Qi Q B D _ _ _ _ kMaxSpins now_ns fsync_every_n_ fsync_interval_
  batch_every_n_ batch_interval_ wal_clock db_clock wall).
Abbreviation move := (@move Qi Q B D _ _ _ _ kMaxSpins now_ns fsync_every_n_ fsync_interval_
  batch_every_n_ batch_interval_ wal_clock db_clock wall).
Abbreviation init := (proc_init PoolCapacity inputs rn acks0 fills0).
Abbreviation started := (started PoolCapacity kMaxSpins fsync_every_n_ batch_every_n_ wall out old T0
  inputs rn acks0 fills0).

Lemma reached s :
  started → rtc step init s → below_limit (length (published s)) →
  ∃ qs l0 l1 l2 acks fills,
    proc_inv PoolCapacity now_ns fsync_every_n_ batch_every_n_ wall old T0 s qs l0 l1 l2 acks fills.
Proof. intros. by eapply (reach_inv PoolCapacity kMaxSpins). Qed.

(** What holds when [main] has returned. *)
Lemma shutdown_facts (s : P) :
  started → rtc step init s → below_limit (length (published s)) → p_main s = Returned →
  (∀ i ev, published s !! i = Some ev → ev_seq_num ev = Z.of_nat i + 1) ∧
  (payload <$> published s) `prefix_of` (payload <$> accepted_orders s) ∧
  apply_all (published s) (engine_new PoolCapacity []) = Some (m_engine (p_matcher s)) ∧
  wal_durable (w_wal (p_wal s)) = old ++ published s ∧ wal_unsynced (w_wal (p_wal s)) = [] ∧
  apply_all (drop (length old) (wal_durable (w_wal (p_wal s)))) (engine_new PoolCapacity [])
    = Some (m_engine (p_matcher s)) ∧
  (∃ d T, let orders := filter is_order (published s) in let err := db_stderr (d_db (p_db s)) in
     d_file (p_db s) = Some d ∧ sq_rep d T None ∧ kept_rows wall T0 orders (p_written s) err T ∧
     (err = [] → T = mkTables (tb_orders T0 ++ (order_row <$> orders))
                       (tb_execs T0 ++ imap (λ i a, exec_row (wall i) a) (p_written s)))) ∧
  (∃ acks, let made := out_ (m_engine (p_matcher s)) in let accepted := p_popped s ++ acks in
     fifo_rep (p_acks s) acks ∧ accepted `sublist_of` made ∧ p_written s `sublist_of` accepted ∧
     m_acks_dropped (p_matcher s) = u64 (Z.of_nat (length made) - Z.of_nat (length accepted)) ∧
     m_fills_dropped (p_matcher s) = u64 (Z.of_nat (length accepted) - Z.of_nat (length (p_written s)))).
Proof.
  intros Hst Hr Hlim Hret.
  destruct (reached s Hst Hr Hlim) as (qs & l0 & l1 & l2 & acks & fills & Hinv).
  destruct Hinv as [Hok Hseen Hf Hst' [lg Hgw] Ha Hfl Hm Hw Hd [C1 C2 C3 C4 C5 C6 C7]].
  rewrite Hret in *. cbn in *. pose proof (C3 ltac:(lia)) as Hsq.
  pose proof (tn_done _ _ _ _ _ C4 ltac:(lia)) as Em. pose proof (tn_done _ _ _ _ _ C5 ltac:(lia)) as Ew.
  pose proof (tn_done _ _ _ _ _ C6 ltac:(lia)) as Ed.
  pose proof (tn_ring _ _ _ _ _ C4 ltac:(by rewrite Em)). pose proof (tn_ring _ _ _ _ _ C5 ltac:(by rewrite Ew)).
  pose proof (tn_ring _ _ _ _ _ C6 ltac:(by rewrite Ed)). subst l0 l1 l2. rewrite (C7 Ed) in *.
  unfold walth_inv in Hw. rewrite Ew in Hw. unfold dbth_inv in Hd. rewrite Ed in Hd.
  destruct Hw as [Hdur Huns]. destruct Hm as [He [(h & Hmade & Hsub & Hdr) (o & Hacc & Hsub' & Hfd)] Hmp].
  rewrite Em in Hmp. rewrite Hmp in Hmade, Hacc. cbn in *. rewrite app_nil_r in *. subst h o.
  split_and!; try done.
  - intros i ev Hi. apply (so_numbered _ _ Hok). by apply lookup_app_l_Some.
  - unfold accepted_orders. rewrite Hgw. pose proof (published_prefix _ _ _ Hok Hgw) as Hp.
    rewrite fmap_app in Hp. by eapply prefix_app_l.
  - by rewrite Hdur, drop_app_length.
  - destruct Hd as (d & Hfile & T & Hrep & Hk & _). exists d, T. split_and!; [done..|].
    intros He'. rewrite He' in Hk. by apply kept_rows_all.
  - by exists acks.
Qed.

(** C2: The process loses and invents nothing, however its five threads
    interleave.  Whenever [main] has returned: what was published is numbered
    1, 2, 3, ... and is, field by field, an initial part of the orders the
    gateway accepted; the matching engine has applied exactly that history; the
    log file holds its old contents followed by it, all durable, so replaying
    the log rebuilds the engine.  SQLite may refuse any call: the closed database
    file holds, behind what was in it, a row for every order and for every report
    the database thread took, in their order, except for as many of each as
    [step_checked] has reported on stderr (among them every order whose number is
    already in the file, see [db_duplicate_seq_lost]), and if it has reported none
    the file holds all of them.  Every ack the engine made was accepted by the
    client queue or counted in [acks_dropped_], and every accepted one was given to
    the database thread or counted in [fills_dropped_].  (The calls on the log file
    are taken to succeed; [WalFaults] has those that fail.) *)
Theorem process_shutdown_consistent (s : P) :
  started → rtc step init s → below_limit (length (published s)) → p_main s = Returned →
  (∀ i ev, published s !! i = Some ev → ev_seq_num ev = Z.of_nat i + 1) ∧
  (payload <$> published s) `prefix_of` (payload <$> accepted_orders s) ∧
  apply_all (published s) (engine_new PoolCapacity []) = Some (m_engine (p_matcher s)) ∧
  wal_durable (w_wal (p_wal s)) = old ++ published s ∧ wal_unsynced (w_wal (p_wal s)) = [] ∧
  apply_all (drop (length old) (wal_durable (w_wal (p_wal s)))) (engine_new PoolCapacity [])
    = Some (m_engine (p_matcher s)) ∧
  (∃ d T, let orders := filter is_order (published s) in let err := db_stderr (d_db (p_db s)) in
     d_file (p_db s) = Some d ∧ sq_rep d T None ∧ kept_rows wall T0 orders (p_written s) err T ∧
     (err = [] → T = mkTables (tb_orders T0 ++ (order_row <$> orders))
                       (tb_execs T0 ++ imap (λ i a, exec_row (wall i) a) (p_written s)))) ∧
  (∃ acks, let made := out_ (m_engine (p_matcher s)) in let accepted := p_popped s ++ acks in
     fifo_rep (p_acks s) acks ∧ accepted `sublist_of` made ∧ p_written s `sublist_of` accepted ∧
     m_acks_dropped (p_matcher s) = u64 (Z.of_nat (length made) - Z.of_nat (length accepted)) ∧
     m_fills_dropped (p_matcher s) = u64 (Z.of_nat (length accepted) - Z.of_nat (length (p_written s)))).
Proof. apply shutdown_facts. Qed.

(** No thread of the process runs into undefined behaviour.  In every
    reachable state the sequencer, the matching engine, the log and the database
    thread have each returned or can take their next step: no index is out of
    range and no closed file is written to.  Only the database thread can be
    stopped, by an exception, when SQLite refuses to commit or to begin. *)
Theorem process_never_stuck (s : P) :
  started → rtc step init s → below_limit (length (published s)) →
  (sq_pc (sy_seq (p_sys s)) = SqDone ∨ is_Some (seq_step now_ns (sy_seq (p_sys s)))) ∧
  (m_loop (p_matcher s) = LDone ∨ is_Some (matcher_step kMaxSpins (flag 2 s) (shared s) (p_matcher s))) ∧
  (w_loop (p_wal s) = LDone ∨
   is_Some (wal_step fsync_every_n_ fsync_interval_ wal_clock (flag 3 s) (shared s) (p_wal s))) ∧
  (d_loop (p_db s) = LDone ∨
   is_Some (db_step batch_every_n_ batch_interval_ db_clock wall (flag 4 s) (shared s) (p_db s)) ∨
   db_refused (p_db s)).
Proof.
  intros Hst Hr Hlim. destruct (reached s Hst Hr Hlim) as (qs & l0 & l1 & l2 & acks & fills & Hinv).
  split_and!.
  - destruct (sq_pc (sy_seq (p_sys s))) eqn:Hpc; [right; eapply (seq_can _ now_ns); eauto; by rewrite Hpc..|by left].
  - destruct (m_loop (p_matcher s)) eqn:Hpc; [right; eapply matcher_can; eauto; by rewrite Hpc..|by left].
  - destruct (w_loop (p_wal s)) eqn:Hpc; [right; eapply wal_can; eauto; by rewrite Hpc..|by left].
  - destruct (db_step _ _ _ _ _ _ _) eqn:Hs; [right; left; eauto|].
    destruct (d_loop (p_db s)) eqn:Hpc; [right; right; eapply db_throws_refused; eauto; split; by rewrite ?Hpc..|by left].
Qed.

Lemma reached_accepted s :
  started → rtc step init s → below_limit (length (accepted_orders s)) →
  ∃ qs l0 l1 l2 acks fills,
    proc_inv PoolCapacity now_ns fsync_every_n_ batch_every_n_ wall old T0 s qs l0 l1 l2 acks fills.
Proof. intros. by eapply (reach_inv_accepted PoolCapacity kMaxSpins). Qed.

(** C12: The shutdown terminates under every fair scheduler.  Take any state
    that the process can reach after [main] has left the event loop, with the
    queues and the ring in whatever condition, and any schedule that gives each
    of the five threads its turn again and again.  Then [main] returns, although
    the sequencer waits for the slowest consumer, the consumers only stop once
    they have drained the ring, and nobody empties the ack queue any more; all
    threads have then stopped, and no order was accepted on the way.  There is one
    exception, and the theorem names it: SQLite may refuse to commit or to begin
    when the database thread asks it to, which throws out of the thread and ends
    the process. *)
Theorem process_fair_shutdown (s : P) (sched : nat → Move) :
  started → rtc step init s → (0 < bc_room)%nat → below_limit (length (accepted_orders s)) →
  p_main s ≠ MainLoop → fair threads sched →
  ∃ n, let s' := run_schedule move sched n s in
    (p_main s' = Returned ∧ accepted_orders s' = accepted_orders s ∧ ∀ mv, move mv s' = None) ∨
    (db_throws batch_every_n_ batch_interval_ db_clock wall s' ∧ db_refused (p_db s')).
Proof.
  intros Hst Hr Hroom Hlim Hm Hf.
  destruct (reached_accepted s Hst Hr Hlim) as (qs & l0 & l1 & l2 & acks & fills & Hinv).
  by eapply (fair_shutdown PoolCapacity kMaxSpins).
Qed.

(** From every state that the process can reach, the event loop included, the
    threads can be scheduled so that [main] returns, or SQLite refuses. *)
Lemma shutdown_possible (s : P) :
  started → rtc step init s → (0 < bc_room)%nat → below_limit (length (accepted_orders s)) →
  ∃ s', rtc step s s' ∧
    (p_main s' = Returned ∧ accepted_orders s' = accepted_orders s ∨
     db_throws batch_every_n_ batch_interval_ db_clock wall s' ∧ db_refused (p_db s')).
Proof.
  intros Hst Hr Hroom Hlim.
  destruct (reached_accepted s Hst Hr Hlim) as (qs & l0 & l1 & l2 & acks & fills & Hinv).
  by eapply (can_finish PoolCapacity kMaxSpins).
Qed.

End ProcessProperties.

(** ** A small process *)

Section DemoProcess.
#[local] Instance pr_demo_ring : Broadcast (BroadcastRing SequencedEvent) SequencedEvent :=
  bcast_broadcast SequencedEvent 2 8.
#[local] Instance pr_demo_ring_laws : BroadcastLaws (BroadcastRing SequencedEvent) SequencedEvent :=
  bcast_broadcast_laws SequencedEvent 2 8 pow2_capacity_2.
#[local] Instance pr_demo_acks : Fifo (SpscRing OutboundAck) OutboundAck := spsc_fifo OutboundAck 4.
#[local] Instance pr_demo_acks_laws : FifoLaws (SpscRing OutboundAck) OutboundAck :=
  spsc_fifo_laws OutboundAck 4 pow2_capacity_4.
#[local] Instance pr_demo_queue : Fifo (SpscRing SequencedEvent) SequencedEvent := spsc_fifo SequencedEvent 4.
#[local] Instance pr_demo_queue_laws : FifoLaws (SpscRing SequencedEvent) SequencedEvent :=
  spsc_fifo_laws SequencedEvent 4 pow2_capacity_4.

Definition pr_inputs : list (SpscRing SequencedEvent) := replicate 3 (spsc_new 4 demo_event).
Definition pr_acks : SpscRing OutboundAck := spsc_new 4 demo_ack.
Definition pr_clock (k : Z) : Z := u64 (1000 + k).

Definition pr_started : Running (BroadcastRing SequencedEvent) (SpscRing OutboundAck) MemDb :=
  match system_start 4 demo_clock demo_clock 2 8 demo_event demo_out [] true (Some demo_file) with
  | Some (inl (_, _, _, rn)) => rn
  | _ => mkRunning (bcast_new 2 8 demo_event) (engine_new 4 demo_out) (wal_new []) db_new
  end.

Definition pr_order : SequencedEvent := mkEvent 0 0 0 EvNewOrder Gateway 5 7 Buy 100 3.
Definition pr_init := proc_init 4 pr_inputs pr_started pr_acks pr_acks.

Lemma pr_order_fits : event_fits pr_order.
Proof. constructor; cbn; word_lia. Qed.

Lemma pr_clock_fits k : is_u64 (pr_clock k).
Proof. by apply wrap_unsigned_fits. Qed.

Lemma pr_is_started : started 4 3 2 2 demo_clock demo_out [] (mkTables [] []) pr_inputs pr_started pr_acks pr_acks.
Proof.
  pose proof (system_start_inv 4 3 (λ _ q, q) 2 2 demo_clock demo_clock demo_clock ltac:(lia) ltac:(lia)
              2 8 demo_event demo_out [] demo_file (mkTables [] []) ltac:(lia) ltac:(lia) (mem_rep _)) as Hs.
  destruct (system_start _ _ _ _ _ _ _ _ _ _) as [r|] eqn:Hr; [|vm_compute in Hr; discriminate].
  destruct Hs as (s & -> & Hinv). split.
  - split; [done|]. apply Forall_replicate. exists [], 0%nat. split; [by apply spsc_new_inv, pow2_capacity_4|done].
  - split; exists [], 0%nat; (split; [by apply spsc_new_inv, pow2_capacity_4|done]).
  - exists (λ _ q, q). unfold pr_started. by rewrite Hr.
Qed.

(** One order is submitted, sequenced, applied, acknowledged to the gateway,
    logged and stored; then the process is stopped. *)
Definition pr_schedule : list Move :=
  [MvSubmit pr_order] ++ replicate 4 MvSeq ++ replicate 4 MvMatcher ++ [MvTake; MvMain] ++
  replicate 4 MvSeq ++ [MvMain] ++ replicate 3 MvMatcher ++ [MvMain] ++ replicate 3 MvWal ++ [MvMain] ++
  replicate 5 MvDb ++ [MvMain].

Definition pr_run (mvs : list Move) :=
  run_moves 3 pr_clock 2 50 2 50 demo_clock demo_clock demo_clock mvs pr_init.

(** Where a schedule leads, if it can be followed. *)
Lemma pr_reach mvs s : Forall move_fits mvs → pr_run mvs = Some s →
  rtc (proc_step 3 pr_clock 2 50 2 50 demo_clock demo_clock demo_clock) pr_init s.
Proof. intros Hf Hr. by apply (run_moves_sound _ _ _ _ _ _ _ _ _ mvs). Qed.

Lemma pr_schedule_fits : Forall move_fits pr_schedule.
Proof. repeat constructor; apply pr_order_fits || (cbn; word_lia). Qed.

Lemma process_shutdown_consistent_witness :
  ∃ s, pr_run pr_schedule = Some s ∧ p_main s = Returned ∧
    wal_durable (w_wal (p_wal s)) = [mkEvent 1 0 1001 EvNewOrder Gateway 5 7 Buy 100 3] ∧
    p_popped s = [mkAck 5 7 1 Accepted 0 0 3] ∧ p_written s = p_popped s ∧
    apply_all (drop 0 (wal_durable (w_wal (p_wal s)))) (engine_new 4 []) = Some (m_engine (p_matcher s)).
Proof.
  destruct (pr_run pr_schedule) as [s|] eqn:Hs; [|vm_compute in Hs; discriminate].
  exists s. assert (p_main s = Returned ∧ published s = [mkEvent 1 0 1001 EvNewOrder Gateway 5 7 Buy 100 3] ∧
                    p_popped s = [mkAck 5 7 1 Accepted 0 0 3] ∧ p_written s = p_popped s)
    as (Hret & Hpub & Hpop & Hw).
  { vm_compute in Hs. injection Hs as <-. repeat split. }
  destruct (process_shutdown_consistent 4 3 pr_clock 2 50 2 50 demo_clock demo_clock demo_clock pr_clock_fits
              ltac:(lia) ltac:(lia) ltac:(lia) demo_out [] (mkTables [] []) pr_inputs pr_started pr_acks pr_acks s
              pr_is_started (pr_reach _ _ pr_schedule_fits Hs)) as (_ & _ & _ & Hd & _ & Hre & _).
  { rewrite Hpub. unfold below_limit. cbn. lia. }
  { exact Hret. }
  rewrite Hpub in Hd. exact (conj eq_refl (conj Hret (conj Hd (conj Hpop (conj Hw Hre))))).
Defined.

Lemma process_never_stuck_witness :
  ∃ s, pr_run (take 6 pr_schedule) = Some s ∧ is_Some (seq_step pr_clock (sy_seq (p_sys s))).
Proof.
  destruct (pr_run (take 6 pr_schedule)) as [s|] eqn:Hs; [|vm_compute in Hs; discriminate].
  exists s. split; [reflexivity|].
  assert (below_limit (length (published s)) ∧ sq_pc (sy_seq (p_sys s)) ≠ SqDone) as [Hlim Hpc].
  { vm_compute in Hs. injection Hs as <-. split; [unfold below_limit; cbn; lia|discriminate]. }
  destruct (process_never_stuck 4 3 pr_clock 2 50 2 50 demo_clock demo_clock demo_clock pr_clock_fits
              ltac:(lia) ltac:(lia) ltac:(lia) demo_out [] (mkTables [] []) pr_inputs pr_started pr_acks pr_acks s
              pr_is_started (pr_reach _ _ (Forall_take _ 6 _ pr_schedule_fits) Hs) Hlim) as ([Hd|Hs'] & _).
  - destruct (Hpc Hd).
  - exact Hs'.
Defined.

(** Two orders are accepted and the sequencer has one of them in hand when
    [main] leaves the event loop; the threads then take turns. *)
Lemma process_fair_shutdown_witness :
  ∃ s n, pr_run ([MvSubmit pr_order] ++ take 4 pr_schedule ++ [MvMain]) = Some s ∧
    p_main s = JoinSequencer ∧
    let s' := run_schedule (move 3 pr_clock 2 50 2 50 demo_clock demo_clock demo_clock) (round_robin MvMain threads) n s in
    (p_main s' = Returned ∨ db_throws 2 50 demo_clock demo_clock s') ∧
    p_main (run_schedule (move 3 pr_clock 2 50 2 50 demo_clock demo_clock demo_clock) (round_robin MvMain threads) 100 s)
      = Returned.
Proof.
  destruct (pr_run ([MvSubmit pr_order] ++ take 4 pr_schedule ++ [MvMain])) as [s|] eqn:Hs; [|vm_compute in Hs; discriminate].
  assert (accepted_orders s = [pr_order; pr_order] ∧ p_main s = JoinSequencer) as [Hacc Hm]
    by (vm_compute in Hs; injection Hs as <-; split; reflexivity).
  destruct (process_fair_shutdown 4 3 pr_clock 2 50 2 50 demo_clock demo_clock demo_clock pr_clock_fits
              ltac:(lia) ltac:(lia) ltac:(lia) demo_out [] (mkTables [] []) pr_inputs pr_started pr_acks pr_acks s
              (round_robin MvMain threads) pr_is_started) as (n & Hend).
  - refine (pr_reach _ _ _ Hs). repeat constructor; apply pr_order_fits || (cbn; word_lia).
  - cbn. lia.
  - rewrite Hacc. unfold below_limit. cbn. lia.
  - rewrite Hm. discriminate.
  - apply round_robin_fair.
  - exists s, n. split; [reflexivity|]. split; [exact Hm|].
    split; [destruct Hend as [[Hret _]|[Ht _]]; [left; exact Hret|right; exact Ht]|].
    vm_compute in Hs. injection Hs as <-. vm_compute. reflexivity.
Defined.

(** An order can be accepted and then forgotten: the sequencer's loop ends
    without draining its input queues.  Here the gateway's [push] has succeeded,
    so the client has no reject, [main] returns in the regular way, and the order
    was never published, logged, stored or answered. *)
Definition pr_lost : list Move :=
  [MvSubmit pr_order; MvMain; MvSeq; MvMain] ++ replicate 2 MvMatcher ++ [MvMain] ++ replicate 2 MvWal ++
  [MvMain] ++ replicate 3 MvDb ++ [MvMain].

(** C39: A finding: an order that the gateway has accepted can be lost by a
    regular shutdown, since the sequencer's loop ends without draining its input
    queues: [main] returns with the order accepted, not published, not logged,
    not in the database, and without an ack for the client. *)
Theorem process_shutdown_drops_order :
  ∃ s, rtc (proc_step 3 pr_clock 2 50 2 50 demo_clock demo_clock demo_clock) pr_init s ∧
    p_main s = Returned ∧ accepted_orders s = [pr_order] ∧ published s = [] ∧
    wal_durable (w_wal (p_wal s)) = [] ∧ d_file (p_db s) = Some demo_file ∧
    out_ (m_engine (p_matcher s)) = [].
Proof.
  destruct (pr_run pr_lost) as [s|] eqn:Hs; [|vm_compute in Hs; discriminate].
  exists s. split; [apply (pr_reach pr_lost); [|done]|].
  - repeat constructor; apply pr_order_fits || (cbn; word_lia).
  - vm_compute in Hs. injection Hs as <-. repeat split.
Qed.

End DemoProcess.
