(* ===== verification/ProcessLive.v ===== *)
(** * ProcessLive: every accepted order is processed

    While the gateway process runs, an order that has entered the sequencer's
    queue is sooner or later published and taken by the matching engine, the log
    and the database, whatever else is submitted meanwhile and however full the
    ack queues are: under every schedule that is fair to the four threads none of
    them starves.  The rule of [FairRun] again, with a measure for the first [N]
    orders only; what follows them does not count. *)

From Stdlib Require Import Relation_Operators Lexicographic_Product Wf_nat.
From S2P Require Import Prelude Types ObjectPool OrderBook PriceTime OrderBookProofs SpscRing BroadcastRing Consumer Sequencer MatchingEngine EngineProofs EngineProperties Wal Db System Threads Process ProcessProofs FairRun ProcessProgress ProcessProperties.

Lemma prefix_fmap {X Y} (f : X → Y) l k : l `prefix_of` k → (f <$> l) `prefix_of` (f <$> k).
Proof. intros [r ->]. rewrite fmap_app. by apply prefix_app_r. Qed.

(** ** The sequencer's next event *)

(** How far the running sequencer is from publishing, when its first queue is
    not empty and the others are. *)
Definition cycle_dist (pc : SeqPc) : nat :=
  match pc with
  | SqDone => 0
  | SqPublish _ _ _ => 1
  | SqPass => 3
  | SqBatch 0 i => if i <? kMaxBatch then 2 else 7
  | SqBatch 1 _ => 6
  | SqBatch 2 _ => 5
  | SqBatch _ _ => 4
  end.

#[local] Arguments kMaxBatch : simpl never.

Section SequencerCycle.
Context {Qi B : Type} `{FifoLaws Qi SequencedEvent} `{BroadcastLaws B SequencedEvent} (now_ns : Z → Z).

Lemma seq_cycle (y : @SeqSys Qi B) qs l sq :
  sys_ok y qs → below_limit (length (sy_published y)) → sy_pushed y = [l; []; []] → running_ (sy_seq y) = true →
  length (sy_published y) < length l → seq_step now_ns (sy_seq y) = Some sq →
  (lapped bc_room (length (sy_published y)) (length <$> sy_seen y) ∧ sq_pc sq = sq_pc (sy_seq y)) ∨
  length (emitted (sy_seq y) sq) = 1 ∨ cycle_dist (sq_pc sq) < cycle_dist (sq_pc (sy_seq y)).
Proof.
  intros Hok [Hl1 Hl2] Hp Hrun Hlt Hstep. destruct (published_split y qs l Hok Hp) as (q & -> & Hl).
  apply (f_equal length) in Hl. rewrite length_app, !length_fmap, length_app in Hl.
  destruct Hok as [Hin _ Hout _ Hpc _ _ _]. unfold seq_step in Hstep. unfold in_flight in Hl. unfold emitted.
  destruct (sq_pc (sy_seq y)) as [|p i|p i ev|] eqn:Epc; [| | |done]; cbn in Hpc.
  - simplify_eq. rewrite Hrun. right; right. vm_compute. lia.
  - right; right. destruct (Nat.ltb_spec p producer_count) as [Hpn|Hpn].
    2: { simplify_eq. unfold producer_count in Hpn. destruct p as [|[|[|]]]; cbn; lia. }
    unfold producer_count in Hpn. destruct (Nat.ltb_spec i kMaxBatch) as [Hi|Hi].
    2: { simplify_eq. destruct p as [|[|[|]]]; cbn [cycle_dist sq_pc set_pc]; rewrite ?(proj2 (Nat.ltb_ge i kMaxBatch)) by lia; lia. }
    assert (∃ r, [q; []; []] !! p = Some r ∧ (p = 0 → r ≠ [])) as (r & Hr & Hne).
    { destruct p as [|[|[|]]]; [..|lia]; eexists; (split; [done|]); [|done..]. intros _ ->. cbn in Hl. lia. }
    destruct (Forall2_lookup_r _ _ _ _ _ Hin Hr) as (q1 & Hq1 & Hrep). rewrite Hq1 in Hstep. cbn [mbind option_bind] in Hstep.
    pose proof (fifo_pop_law q1 r Hrep) as Hlaw. destruct r as [|ev r].
    + rewrite Hlaw in Hstep. cbn [mbind option_bind] in Hstep. simplify_eq. destruct p as [|[|[|]]]; [by destruct Hne|cbn; lia..].
    + destruct Hlaw as (q2 & Hpop & _). rewrite Hpop in Hstep. cbn [mbind option_bind] in Hstep. simplify_eq.
      destruct p as [|[|[|]]]; cbn [cycle_dist sq_pc]; [rewrite (proj2 (Nat.ltb_lt i kMaxBatch)) by lia; lia|lia..].
  - pose proof (bc_publish_law _ _ _ ev Hout ltac:(lia)) as Hlaw.
    case_decide as Hlap; destruct Hlaw as (b & Hb & _); rewrite Hb in Hstep; simplify_eq/=; [by left|by right; left].
Qed.

End SequencerCycle.

(** ** The measure *)

Definition LiveMeasure : Type := nat * (nat * (nat * (nat * nat))).
Definition live_smaller : relation LiveMeasure :=
  slexprod _ _ lt (slexprod _ _ lt (slexprod _ _ lt (slexprod _ _ lt lt))).

Lemma live_smaller_wf : well_founded live_smaller.
Proof. repeat apply wf_slexprod; apply lt_wf. Qed.

(** A pop from the fills queue is a step towards the next pass. *)
Lemma db_pop_decr {B Q D} `{Broadcast B SequencedEvent} `{Fifo Q OutboundAck} `{Sqlite D}
    n interval clock wall (sh : Shared B Q) (t : DbTh D) r a sh' t' :
  past_ring (d_loop t) = false → db_step n interval clock wall true sh t = Some (r, Some a, sh', t') →
  loop_dist true (d_loop t') < loop_dist true (d_loop t).
Proof.
  intros Hpr. unfold db_step. destruct (d_loop t) as [|i|i| | |]; try done.
  - destruct (i <? batch_size); [|done]. unfold with_event. by destruct (consume _ _ _) as [[[? ?] ?]|].
  - destruct (Nat.ltb_spec i batch_size) as [Hi|Hi]; [|by destruct (db_end_pass _ _ _ _)].
    unfold with_ack, db_pop. destruct (fifo_pop _) as [[[b|] q]|]; cbn; [| |done].
    + destruct (append_execution_report _ _ _ _ _ _) as [s|]; cbn; [|done]. intros [= <- <- <- <-].
      cbn. unfold batch_size in Hi. lia.
    + destruct (db_end_pass _ _ _ _); by cbn.
  - unfold with_event. by destruct (consume _ _ _) as [[[? ?] ?]|].
Qed.

Section Live.
Context {Qi Q B D : Type} `{FifoLaws Qi SequencedEvent} `{FifoLaws Q OutboundAck}.
Context `{BroadcastLaws B SequencedEvent} `{SqliteFaultLaws D}.
Context (PoolCapacity kMaxSpins : nat) (now_ns : Z → Z).
Context (fsync_every_n_ fsync_interval_ batch_every_n_ batch_interval_ : Z).
Context (wal_clock db_clock wall : nat → Z).
Hypothesis Hnow : ∀ k, is_u64 (now_ns k).
Hypothesis Hcap : (Z.of_nat PoolCapacity < 2 ^ 31)%Z.
Hypothesis Hfsync : (0 < fsync_every_n_ < 2 ^ 64)%Z.
Hypothesis Hbatch : (0 < batch_every_n_ < 2 ^ 64)%Z.
Context (old : list SequencedEvent) (T0 : Tables).

Abbreviation P := (Proc Qi Q B D).
Abbreviation inv := (@proc_inv Qi Q B D _ _ _ _ PoolCapacity now_ns fsync_every_n_ batch_every_n_ wall old T0).
Abbreviation step := (@proc_step Qi Q B D _ _ _ _ kMaxSpins now_ns fsync_every_n_ fsync_interval_
  batch_every_n_ batch_interval_ wal_clock db_clock wall).
Abbreviation move := (@move Qi Q B D _ _ _ _ kMaxSpins now_ns fsync_every_n_ fsync_interval_
  batch_every_n_ batch_interval_ wal_clock db_clock wall).

(** The orders that are watched, and their number. *)
Context (A : list SequencedEvent).
Abbreviation N := (length A).

Definition pub_len (s : P) : nat := length (published s).

(** Consumer [i] lacks one of the first [N] events, and it is there. *)
Definition wanted (i : nat) (s : P) : bool := (seen_by i s <? N) && (seen_by i s <? pub_len s).

Definition live_measure (s : P) : LiveMeasure :=
  let wd i pc := if wanted i s then loop_dist true pc else 0 in
  (N - pub_len s,
   (if pub_len s <? N then cycle_dist (sq_pc (sy_seq (p_sys s))) else 0,
    ((N - seen_by 0 s) + (N - seen_by 1 s) + (N - seen_by 2 s),
     (if seen_by 0 s <? N then push_dist kMaxSpins (m_push (p_matcher s)) else 0,
      wd 0 (m_loop (p_matcher s)) + wd 1 (w_loop (p_wal s)) + wd 2 (d_loop (p_db s)))))).

Definition live_helps (mv : Move) (s : P) : Prop :=
  match mv with
  | MvSeq => pub_len s < N ∧ ¬ lapped bc_room (pub_len s) [seen_by 0 s; seen_by 1 s; seen_by 2 s]
  | MvMatcher => wanted 0 s = true
  | MvWal => wanted 1 s = true
  | MvDb => wanted 2 s = true
  | MvSubmit _ | MvTake | MvMain => False
  end.

(** A step that only concerns what comes after the first [N] events. *)
Record live_quiet (s s' : P) : Prop := {
  lq_pub : pub_len s' = pub_len s ∨ N ≤ pub_len s ≤ pub_len s';
  lq_seen : ∀ i, i < 3 → seen_by i s' = seen_by i s ∨ N ≤ seen_by i s
}.

Definition live_descends (mv : Move) (s s' : P) : Prop :=
  live_smaller (live_measure s') (live_measure s) ∨
  live_measure s' = live_measure s ∧ ¬ live_helps mv s ∧ live_quiet s s'.

Lemma live_helps_quiet mv s s' qs l0 l1 l2 acks fills :
  inv s qs l0 l1 l2 acks fills → live_quiet s s' → live_helps mv s → live_helps mv s'.
Proof.
  intros Hinv [Hp Hs].
  assert (∀ i, i < 3 → wanted i s = true → wanted i s' = true) as Hw.
  { intros i Hi Hwi. unfold wanted in *. apply andb_true_iff in Hwi as [Hn%Nat.ltb_lt Hb%Nat.ltb_lt].
    apply andb_true_iff. rewrite !Nat.ltb_lt. destruct (Hs i Hi); lia. }
  destruct mv; cbn [live_helps]; try done; try (apply Hw; lia).
  intros [Hlt Hl]. assert (∀ i, i < 3 → seen_by i s' = seen_by i s) as Heq.
  { intros i Hi. pose proof (seen_le _ _ _ _ _ _ _ _ _ _ _ _ _ _ Hinv i). unfold pub_len in *. destruct (Hs i Hi); lia. }
  rewrite !Heq by lia. destruct Hp as [-> |?]; [done|lia].
Qed.

(** A consumer's step, seen from the measure: nothing but its own position
    changes. *)
Record only_consumer (i : nat) (s s' : P) : Prop := {
  oc_pub : pub_len s' = pub_len s;
  oc_seq : sq_pc (sy_seq (p_sys s')) = sq_pc (sy_seq (p_sys s));
  oc_seen : ∀ j, j < 3 → j ≠ i → seen_by j s' = seen_by j s;
  oc_matcher : i ≠ 0 → p_matcher s' = p_matcher s;
  oc_wal : i ≠ 1 → p_wal s' = p_wal s;
  oc_db : i ≠ 2 → p_db s' = p_db s
}.

Lemma consumer_cases i : i < 3 → i = 0 ∨ i = 1 ∨ i = 2.
Proof. lia. Qed.

(** It has taken an event. *)
Lemma live_take i mv s s' :
  i < 3 → only_consumer i s s' → seen_by i s' = S (seen_by i s) → (live_helps mv s ↔ wanted i s = true) →
  live_descends mv s s'.
Proof.
  intros Hi [Hp Hq Hs Hm Hw Hd] Ht Hh. unfold live_descends, live_measure. rewrite Hp, Hq.
  destruct (decide (seen_by i s < N)) as [Hlt|Hge].
  - left. do 2 lex_next. lex_here. destruct (consumer_cases i Hi) as [->|[->| ->]];
      rewrite Ht, !Hs by lia; lia.
  - right. assert (wanted i s = false ∧ wanted i s' = false) as [Hn Hn'].
    { unfold wanted. rewrite !(proj2 (Nat.ltb_ge _ N)) by lia. done. }
    pose proof (proj2 (Nat.ltb_ge (seen_by i s) N) ltac:(lia)) as Hb.
    pose proof (proj2 (Nat.ltb_ge (S (seen_by i s)) N) ltac:(lia)) as Hb'.
    split_and!; [|rewrite Hh, Hn; done|split; [by left|]; intros j Hj; destruct (decide (j = i)) as [->|]; [right; lia|left; auto]].
    assert (∀ j, j < 3 → j ≠ i → wanted j s' = wanted j s) as Hwj.
    { intros j Hj Hne. unfold wanted. by rewrite Hp, Hs. }
    destruct (consumer_cases i Hi) as [->|[->| ->]]; rewrite ?Hn, ?Hn', ?Hwj, ?Ht, ?Hs, ?Hm, ?Hw, ?Hd by lia;
      rewrite ?Hb, ?Hb'; do 4 (apply (f_equal2 pair); [done || lia|]); lia.
Qed.

Definition loop_of (i : nat) (s : P) : LoopPc :=
  match i with 0 => m_loop (p_matcher s) | 1 => w_loop (p_wal s) | _ => d_loop (p_db s) end.

(** It has moved on in its loop. *)
Lemma live_loop i mv s s' :
  i < 3 → only_consumer i s s' → seen_by i s' = seen_by i s → (live_helps mv s ↔ wanted i s = true) →
  (i = 0 → m_push (p_matcher s') = m_push (p_matcher s)) →
  (wanted i s = true → loop_dist true (loop_of i s') < loop_dist true (loop_of i s)) → live_descends mv s s'.
Proof.
  intros Hi [Hp Hq Hs Hm Hw Hd] Ht Hh Hpush Hloop.
  assert (∀ j, j < 3 → seen_by j s' = seen_by j s) as Hseen.
  { intros j Hj. destruct (decide (j = i)) as [->|]; auto. }
  assert (∀ j, j < 3 → wanted j s' = wanted j s) as Hwj by (intros j Hj; unfold wanted; by rewrite Hp, Hseen).
  assert (m_push (p_matcher s') = m_push (p_matcher s)) as Hpm.
  { destruct (decide (i = 0)) as [->|]; [auto|by rewrite Hm]. }
  unfold live_descends, live_measure. rewrite Hp, Hq, !Hseen, !Hwj, Hpm by lia.
  destruct (wanted i s) eqn:Hwi.
  - left. do 4 lex_next. specialize (Hloop eq_refl).
    destruct (consumer_cases i Hi) as [->|[->| ->]]; cbn [loop_of] in Hloop; rewrite ?Hwi, ?Hm, ?Hw, ?Hd by lia; lia.
  - right. split_and!; [|rewrite Hh; done|split; [by left|by left; auto]].
    destruct (consumer_cases i Hi) as [->|[->| ->]]; by rewrite ?Hwi, ?Hm, ?Hw, ?Hd by lia.
Qed.

(** The matching engine is busy with its acks. *)
Lemma live_push s s' :
  only_consumer 0 s s' → seen_by 0 s' = seen_by 0 s →
  push_dist kMaxSpins (m_push (p_matcher s')) < push_dist kMaxSpins (m_push (p_matcher s)) →
  live_descends MvMatcher s s'.
Proof.
  intros Hoc Ht Hlt. destruct (decide (seen_by 0 s < N)) as [Hn|Hn].
  - destruct Hoc as [Hp Hq Hs _ _ _]. left. unfold live_measure. rewrite Hp, Hq, Ht, !Hs by lia.
    do 3 lex_next. lex_here. by rewrite (proj2 (Nat.ltb_lt (seen_by 0 s) N)).
  - assert (wanted 0 s = false) as Hw by (unfold wanted; by rewrite (proj2 (Nat.ltb_ge (seen_by 0 s) N)) by lia).
    destruct Hoc as [Hp Hq Hs _ Hwa Hd]. right.
    assert (∀ j, j < 3 → seen_by j s' = seen_by j s) as Hseen by (intros [|j] Hj; [done|by apply Hs]).
    assert (∀ j, j < 3 → wanted j s' = wanted j s) as Hwj by (intros j Hj; unfold wanted; by rewrite Hp, Hseen).
    split_and!; [|cbn; by rewrite Hw|split; [by left|by left; auto]].
    unfold live_measure. rewrite Hp, Hq, !Hseen, !Hwj, Hw, Hwa, Hd by lia.
    by rewrite (proj2 (Nat.ltb_ge (seen_by 0 s) N)) by lia.
Qed.

(** A step of consumer [i] that leaves the others and the sequencer alone. *)
Lemma took_only i r b s s' qs l0 l1 l2 acks fills :
  inv s qs l0 l1 l2 acks fills → i < 3 → p_sys s' = took i r b (p_sys s) →
  (i ≠ 0 → p_matcher s' = p_matcher s) → (i ≠ 1 → p_wal s' = p_wal s) → (i ≠ 2 → p_db s' = p_db s) →
  only_consumer i s s' ∧ seen_by i s' = seen_by i s + length (option_list r).
Proof.
  intros Hinv Hi Hsys Hm Hw Hd.
  assert (∀ j, j < 3 → seen_by j s' = seen_by j s + if decide (i = j) then length (option_list r) else 0) as Hseen.
  { intros j Hj. unfold seen_by at 1. rewrite Hsys. by rewrite (seen_by_took _ _ _ _ _ _ _ i r s _ _ _ _ _ _ Hinv). }
  split; [|rewrite Hseen by done; by rewrite decide_True].
  split; [by unfold pub_len, published; rewrite Hsys|by rewrite Hsys| |done..].
  intros j Hj Hne. rewrite Hseen by done. rewrite decide_False by done. lia.
Qed.

Lemma ring_at_seen i s qs l0 l1 l2 acks fills :
  inv s qs l0 l1 l2 acks fills → i < 3 →
  ∃ l, ring_at (published s) (length <$> sy_seen (p_sys s)) i l (shared s) ∧ length l = seen_by i s.
Proof.
  intros Hinv Hi. pose proof (pv_seen _ _ _ _ _ _ _ _ _ _ _ _ _ _ Hinv) as Hs.
  assert (is_Some (sy_seen (p_sys s) !! i)) as [l Hl].
  { rewrite Hs. destruct (consumer_cases i Hi) as [->|[->| ->]]; by eexists. }
  exists l. split; [by eapply ring_of; [apply Hinv|]|]. unfold seen_by. by rewrite Hl.
Qed.

Lemma matcher_live s s' qs l0 l1 l2 acks fills :
  inv s qs l0 l1 l2 acks fills → p_main s = MainLoop → move MvMatcher s = Some s' → live_descends MvMatcher s s'.
Proof.
  intros Hinv Hmain Hmv. cbn in Hmv. destruct (matcher_step _ _ _ _) as [[[r sh] m]|] eqn:Hstep; [|done].
  injection Hmv as Hs'. destruct (took_only 0 r (sh_ring sh) s s' _ _ _ _ _ _ Hinv) as [Hoc Hseen]; [lia|by subst s'..|].
  destruct (ring_at_seen 0 s _ _ _ _ _ _ Hinv ltac:(lia)) as (l & Hring & Hlen).
  destruct r as [ev|]; [apply (live_take 0); [lia|done|cbn in Hseen; lia|done]|]. cbn in Hseen. rewrite Nat.add_0_r in Hseen.
  destruct (matcher_decr kMaxSpins (published s) _ (flag 2 s) l (shared s) (p_matcher s) None sh m Hring Hstep)
    as [[? ?]|[Hp|(Hp & _ & Hlp)]]; [done|by apply live_push; [..|subst s']|].
  apply (live_loop 0); [lia|done|done|done|by subst s'|]. intros Hw. unfold flag in Hlp. rewrite Hmain in Hlp. subst s'.
  apply Hlp. right. rewrite Hlen. unfold wanted in Hw. apply andb_true_iff in Hw as [_ Hb%Nat.ltb_lt]. exact Hb.
Qed.

Lemma wal_live s s' qs l0 l1 l2 acks fills :
  inv s qs l0 l1 l2 acks fills → p_main s = MainLoop → move MvWal s = Some s' → live_descends MvWal s s'.
Proof.
  intros Hinv Hmain Hmv. cbn in Hmv. destruct (wal_step _ _ _ _ _ _) as [[[r sh] w]|] eqn:Hstep; [|done].
  injection Hmv as Hs'. destruct (took_only 1 r (sh_ring sh) s s' _ _ _ _ _ _ Hinv) as [Hoc Hseen]; [lia|by subst s'..|].
  destruct (ring_at_seen 1 s _ _ _ _ _ _ Hinv ltac:(lia)) as (l & Hring & Hlen).
  destruct r as [ev|]; [apply (live_take 1); [lia|done|cbn in Hseen; lia|done]|]. cbn in Hseen. rewrite Nat.add_0_r in Hseen.
  destruct (wal_decr fsync_every_n_ fsync_interval_ wal_clock (published s) _ (flag 3 s) l (shared s) (p_wal s)
              None sh w Hring Hstep) as [[? ?]|Hlp]; [done|].
  apply (live_loop 1); [lia|done|done|done|lia|]. intros Hw. unfold flag in Hlp. rewrite Hmain in Hlp. subst s'.
  apply Hlp. right. rewrite Hlen. unfold wanted in Hw. apply andb_true_iff in Hw as [_ Hb%Nat.ltb_lt]. exact Hb.
Qed.

Lemma db_live s s' qs l0 l1 l2 acks fills :
  inv s qs l0 l1 l2 acks fills → p_main s = MainLoop → move MvDb s = Some s' → live_descends MvDb s s'.
Proof.
  intros Hinv Hmain Hmv. unfold Process.move in Hmv. destruct (db_step _ _ _ _ _ _ _) as [[[[r a] sh] d]|] eqn:Hstep; [|done].
  cbn [mbind option_bind] in Hmv. injection Hmv as Hs'. destruct (took_only 2 r (sh_ring sh) s s' _ _ _ _ _ _ Hinv) as [Hoc Hseen]; [lia|by subst s'..|].
  destruct (ring_at_seen 2 s _ _ _ _ _ _ Hinv ltac:(lia)) as (l & Hring & Hlen).
  destruct r as [ev|]; [apply (live_take 2); [lia|done|cbn in Hseen; lia|done]|]. cbn in Hseen. rewrite Nat.add_0_r in Hseen.
  assert (flag 4 s = true) as Hf by (unfold flag; by rewrite Hmain).
  pose proof (db_running_pc _ _ _ _ _ _ _ _ _ _ _ _ _ _ Hinv Hf) as Hpr. rewrite Hf in Hstep.
  apply (live_loop 2); [lia|done|done|done|lia|]. intros Hw. subst s'. cbn [loop_of p_db].
  destruct a as [a|]; [by eapply db_pop_decr|].
  destruct (db_decr batch_every_n_ batch_interval_ db_clock wall (published s) _ true l (shared s) (p_db s)
              None None sh d Hring Hstep (λ _, Hpr)) as [[? ?]|[[? ?]|Hlp]]; [done..|].
  apply Hlp. right. rewrite Hlen. unfold wanted in Hw. apply andb_true_iff in Hw as [_ Hb%Nat.ltb_lt]. exact Hb.
Qed.

(** Once the first [N] are published, publishing more changes nothing. *)
Lemma wanted_published i s s' :
  seen_by i s' = seen_by i s → N ≤ pub_len s ≤ pub_len s' → wanted i s' = wanted i s.
Proof.
  intros Hs Hp. unfold wanted. rewrite Hs. destruct (Nat.ltb_spec (seen_by i s) N); [|done].
  by rewrite (proj2 (Nat.ltb_lt (seen_by i s) (pub_len s'))), (proj2 (Nat.ltb_lt (seen_by i s) (pub_len s))) by lia.
Qed.

Lemma seq_live s s' qs l0 l1 l2 acks fills :
  inv s qs l0 l1 l2 acks fills → below_limit (pub_len s) → N ≤ length (accepted_orders s) →
  p_main s = MainLoop → move MvSeq s = Some s' → live_descends MvSeq s s'.
Proof.
  intros Hinv Hlim HN Hmain Hmv. unfold Process.move in Hmv.
  destruct (seq_step now_ns (sy_seq (p_sys s))) as [sq|] eqn:Hstep; [|done]. cbn [mbind option_bind] in Hmv. injection Hmv as Hs'.
  assert (∀ i, seen_by i s' = seen_by i s) as Hseen by (apply seen_same; by subst s').
  assert (pub_len s' = pub_len s + length (emitted (sy_seq (p_sys s)) sq)) as Hpub
    by (subst s'; apply length_app).
  destruct (pv_gateway _ _ _ _ _ _ _ _ _ _ _ _ _ _ Hinv) as [l Hg].
  assert (running_ (sy_seq (p_sys s)) = true) as Hrun.
  { rewrite (ct_seq _ _ _ _ _ (pv_control _ _ _ _ _ _ _ _ _ _ _ _ _ _ Hinv)). unfold flag. by rewrite Hmain. }
  destruct (decide (pub_len s < N)) as [Hlt|Hge].
  - unfold accepted_orders in HN. rewrite Hg in HN. cbn in HN.
    pose proof (pv_sys _ _ _ _ _ _ _ _ _ _ _ _ _ _ Hinv) as Hok.
    assert (length (sy_published (p_sys s)) < length l) as Hll by (unfold pub_len, published in *; lia).
    unfold live_descends. destruct (decide (length (emitted (sy_seq (p_sys s)) sq) = 0)) as [Hz|Hz].
    2: { left. unfold live_measure. lex_here. lia. }
    destruct (seq_cycle now_ns _ _ _ _ Hok Hlim Hg Hrun Hll Hstep) as [[Hlap Hpc]|[?|Hdec]]; [|lia|].
    + right. rewrite Hz, Nat.add_0_r in Hpub. split_and!.
      * unfold live_measure, wanted. rewrite Hpub, !Hseen. subst s'. cbn. by rewrite Hpc.
      * intros [_ Hnl]. destruct Hnl. unfold seen_by. rewrite (pv_seen _ _ _ _ _ _ _ _ _ _ _ _ _ _ Hinv).
        by rewrite (pv_seen _ _ _ _ _ _ _ _ _ _ _ _ _ _ Hinv) in Hlap.
      * split; [by left|by left].
    + left. rewrite Hz, Nat.add_0_r in Hpub. unfold live_measure. rewrite Hpub. lex_next. lex_here.
      rewrite (proj2 (Nat.ltb_lt (pub_len s) N)) by done. by subst s'.
  - right. split_and!; [|intros [? _]; lia|split; [right; lia|by left]].
    unfold live_measure. rewrite !Hseen, !(wanted_published _ s s' (Hseen _)) by lia.
    rewrite (proj2 (Nat.ltb_ge (pub_len s) N)), (proj2 (Nat.ltb_ge (pub_len s') N)) by lia.
    apply (f_equal2 pair); [lia|by subst s'].
Qed.

Lemma gateway_live mv s s' :
  match mv with MvSubmit _ | MvTake => True | _ => False end → move mv s = Some s' → live_descends mv s s'.
Proof.
  intros Hmv Hs. right. destruct mv; try done; unfold Process.move in Hs; destruct (p_main s); try done.
  - destruct (inputs_ _ !! 0) as [q|]; [|done]. destruct (sy_pushed _ !! 0) as [l|]; [|done].
    destruct (fifo_push ev q) as [[[|] q']|]; [|done..]. injection Hs as <-.
    split_and!; [done|intros []|]. split; [by left|by left].
  - destruct (fifo_pop (p_acks s)) as [[[a|] q]|]; [|done..]. injection Hs as <-.
    split_and!; [done|intros []|]. split; [by left|by left].
Qed.

(** Only [main] leaves the event loop. *)
Lemma move_main mv s s' : mv ≠ MvMain → move mv s = Some s' → p_main s' = p_main s.
Proof.
  intros Hne. unfold Process.move. destruct mv; try done.
  - destruct (seq_step _ _); cbn; by intros [= <-].
  - destruct (matcher_step _ _ _ _) as [[[? ?] ?]|]; cbn; by intros [= <-].
  - destruct (wal_step _ _ _ _ _ _) as [[[? ?] ?]|]; cbn; by intros [= <-].
  - destruct (db_step _ _ _ _ _ _ _) as [[[[? ?] ?] ?]|]; cbn; by intros [= <-].
  - destruct (p_main s); try done. destruct (inputs_ _ !! 0) as [q|]; [|done].
    destruct (sy_pushed _ !! 0) as [l|]; [|done]. destruct (fifo_push ev q) as [[[|] q']|]; cbn; by intros [= <-].
  - destruct (p_main s); try done. destruct (fifo_pop _) as [[[a|] q]|]; cbn; by intros [= <-].
Qed.

(** Orders are only ever added. *)
Lemma move_accepted mv s s' : move mv s = Some s' → accepted_orders s `prefix_of` accepted_orders s'.
Proof.
  unfold Process.move, accepted_orders. destruct mv.
  - destruct (seq_step _ _); cbn; by intros [= <-].
  - destruct (matcher_step _ _ _ _) as [[[? ?] ?]|]; cbn; by intros [= <-].
  - destruct (wal_step _ _ _ _ _ _) as [[[? ?] ?]|]; cbn; by intros [= <-].
  - destruct (db_step _ _ _ _ _ _ _) as [[[[? ?] ?] ?]|]; cbn; by intros [= <-].
  - destruct (p_main s); try done. destruct (inputs_ _ !! 0) as [q|]; [|done].
    destruct (sy_pushed (p_sys s)) as [|l ls]; [done|]. cbn [lookup list_lookup].
    destruct (fifo_push ev q) as [[[|] q']|]; cbn; intros [= <-]. cbn. by apply prefix_app_r.
  - destruct (p_main s); try done. destruct (fifo_pop _) as [[[a|] q]|]; cbn; by intros [= <-].
  - unfold main_step. destruct (p_main s); repeat case_match; by intros [= <-].
Qed.

(** *** Under a fair scheduler *)

(** In the event loop, with the orders [A] accepted first. *)
Definition live_ranked (s : P) (m : LiveMeasure) : Prop :=
  p_main s = MainLoop ∧ A `prefix_of` accepted_orders s ∧ below_limit (length (accepted_orders s)) ∧
  (∃ qs l0 l1 l2 acks fills, inv s qs l0 l1 l2 acks fills) ∧ m = live_measure s.

(** The process is not told to stop, the gateway submits orders that fit their
    types, and fewer of them than the ring can count. *)
Definition keeps_running (mv : Move) (s : P) : Prop :=
  mv ≠ MvMain ∧ move_fits mv ∧ below_limit (length (accepted_orders (turn move mv s))).

Definition workers : list Move := [MvSeq; MvMatcher; MvWal; MvDb].

(** All three consumers have taken them. *)
Definition processed (s : P) : Prop :=
  p_main s = MainLoop ∧ A `prefix_of` accepted_orders s ∧ (∃ qs l0 l1 l2 acks fills, inv s qs l0 l1 l2 acks fills) ∧
  ∀ i, i < 3 → N ≤ seen_by i s.

Definition caught_up (s : P) : Prop := Forall (λ i, N ≤ seen_by i s) [0; 1; 2].

Lemma caught_up_processed s m : live_ranked s m → caught_up s → processed s.
Proof.
  intros (? & ? & _ & ? & _) Hc. split_and!; [done..|]. intros i Hi. unfold caught_up in Hc. rewrite Forall_forall in Hc.
  apply Hc. rewrite !elem_of_cons. lia.
Qed.

Abbreviation throws := (@db_throws Qi Q B D _ _ _ batch_every_n_ batch_interval_ db_clock wall).

Lemma live_somebody s m :
  0 < bc_room → live_ranked s m → caught_up s ∨ ∃ mv, mv ∈ workers ∧ live_helps mv s.
Proof.
  intros Hroom (Hmain & HN & _ & (qs & l0 & l1 & l2 & acks & fills & Hinv) & _).
  assert (∀ i, i < 3 → seen_by i s < N → seen_by i s < pub_len s → ∃ mv, mv ∈ workers ∧ live_helps mv s) as Hhelp.
  { intros i Hi H1' H2'. assert (wanted i s = true) as Hw by (apply andb_true_iff; by rewrite !Nat.ltb_lt).
    destruct (consumer_cases i Hi) as [->|[->| ->]]; [exists MvMatcher|exists MvWal|exists MvDb]; (split; [set_solver|done]). }
  destruct (decide (pub_len s < N)) as [Hlt|Hge].
  - right. destruct (decide (lapped bc_room (pub_len s) [seen_by 0 s; seen_by 1 s; seen_by 2 s])) as [Hl|Hl].
    + apply Exists_exists in Hl as (c & Hc & Hle). rewrite !elem_of_cons, elem_of_nil in Hc.
      destruct Hc as [-> |[-> |[-> |[]]]]; [apply (Hhelp 0)|apply (Hhelp 1)|apply (Hhelp 2)]; lia.
    + exists MvSeq. split; [set_solver|done].
  - destruct (decide (Exists (λ i, seen_by i s < N) [0; 1; 2])) as [He|He].
    + right. apply Exists_exists in He as (i & Hi & Hlt). apply (Hhelp i); [|done|lia].
      rewrite !elem_of_cons, elem_of_nil in Hi. lia.
    + left. apply Forall_forall. intros i Hi. destruct (decide (seen_by i s < N)) as [Hlt|]; [|lia].
      destruct He. apply Exists_exists. by exists i.
Qed.

Lemma live_can mv s qs l0 l1 l2 acks fills :
  inv s qs l0 l1 l2 acks fills → below_limit (pub_len s) → p_main s = MainLoop →
  ¬ throws s → live_helps mv s → is_Some (move mv s).
Proof.
  intros Hinv Hlim Hmain Hnt Hh. pose proof (pv_control _ _ _ _ _ _ _ _ _ _ _ _ _ _ Hinv) as [_ C2 _ C4 C5 C6 _].
  rewrite Hmain in *. cbn [main_rank] in *.
  assert (∀ t pc l, 0 < t → turn_ok 0 t pc l (published s) → pc ≠ LDone) as Hrun.
  { intros t pc l Ht [Ts _ _] ->. specialize (Ts eq_refl). lia. }
  unfold Process.move. destruct mv; try done.
  - destruct (seq_can _ _ _ _ _ _ _ _ _ _ _ _ _ _ Hinv Hlim) as [sq ->]; [|cbn; eauto].
    intros Hd. specialize (C2 Hd). lia.
  - destruct (matcher_can _ kMaxSpins _ _ _ _ Hnow Hcap _ _ _ _ _ _ _ _ _ Hinv Hlim) as [[[r sh] m] ->]; [|cbn; eauto].
    by eapply (Hrun 2); [lia|].
  - destruct (wal_can _ _ _ fsync_interval_ _ wal_clock _ Hfsync _ _ _ _ _ _ _ _ _ Hinv) as [[[r sh] w] ->]; [|cbn; eauto].
    by eapply (Hrun 3); [lia|].
  - destruct (db_can _ _ _ _ _ Hnt) as [[[[r a] sh] d] ->]; [|cbn; eauto].
    by eapply (Hrun 4); [lia|].
Qed.

Lemma live_turn s m mv :
  keeps_running mv s → live_ranked s m → ¬ throws s → ∃ m', live_ranked (turn move mv s) m' ∧
    (live_smaller m' m ∨ m' = m ∧ ¬ live_helps mv s ∧ ∀ mv', live_helps mv' s → live_helps mv' (turn move mv s)).
Proof.
  intros (Hnm & Hfit & Hlim') (Hmain & HN & Hlim & (qs & l0 & l1 & l2 & acks & fills & Hinv) & ->) Hnt.
  pose proof (published_limit _ _ _ _ _ _ _ _ _ _ _ _ _ _ Hinv Hlim) as Hpl.
  unfold turn in *. destruct (move mv s) as [s'|] eqn:Hmv; cbn [from_option id] in *.
  - pose proof (move_sound kMaxSpins now_ns _ _ _ _ _ _ _ mv s s' Hfit Hmv) as Hstep.
    assert (length (published s') ≤ length (published s ++ in_flight (sy_seq (p_sys s))) ∧
            length (accepted_orders s) ≤ length (accepted_orders s')) as [Hr1 Hr2] by (by eapply (step_room PoolCapacity)).
    assert (p_main s' = MainLoop) as Hmain' by (by rewrite (move_main _ _ _ Hnm Hmv)).
    assert (∃ qs' k0 k1 k2 acks' fills', inv s' qs' k0 k1 k2 acks' fills')
      as (qs' & k0 & k1 & k2 & acks' & fills' & Hinv').
    { eapply inv_step; eauto. eapply below_limit_le; [exact Hr1|]. by eapply published_room. }
    pose proof (prefix_length _ _ HN).
    exists (live_measure s'). split.
    { split_and!; [done|etrans; [exact HN|by eapply move_accepted]|done|by eexists _, _, _, _, _, _|done]. }
    assert (live_descends mv s s') as [Hs|(He & Hn & Hq)]; [|by left|right].
    { destruct mv; [by eapply seq_live|by eapply matcher_live|by eapply wal_live|by eapply db_live| | |done];
        by apply gateway_live. }
    split_and!; [done..|]. intros mv'. by eapply live_helps_quiet.
  - exists (live_measure s). split; [by split_and!; [..|eexists _, _, _, _, _, _|]|]. right. split_and!; [done| |done].
    intros Hh. destruct (live_can mv s _ _ _ _ _ _ Hinv Hpl Hmain Hnt Hh) as [s' Hs']. congruence.
Qed.

Lemma fair_processed s qs l0 l1 l2 acks fills sched :
  0 < bc_room → inv s qs l0 l1 l2 acks fills → p_main s = MainLoop → A `prefix_of` accepted_orders s →
  below_limit (length (accepted_orders s)) → fair workers sched →
  (∀ n, keeps_running (sched n) (run_schedule move sched n s)) →
  ∃ n, processed (run_schedule move sched n s) ∨
       throws (run_schedule move sched n s) ∧ db_refused (p_db (run_schedule move sched n s)).
Proof.
  intros Hroom Hinv Hm HN Hlim Hf Hk.
  edestruct (fair_descent move live_smaller workers keeps_running live_ranked live_helps
    (λ s, caught_up s ∨ throws s) live_smaller_wf) as (n & Hg & m & Hr); [..|exact Hf|exact Hk|].
  - intros s1 m Hr. destruct (live_somebody _ _ Hroom Hr) as [?|?]; [by left; left|by right].
  - intros s1. unfold caught_up. apply _.
  - intros s1 m mv Hk1 Hr Hng. apply live_turn; [done..|]. intros Ht. apply Hng. by right.
  - split_and!; [done..|by exists qs, l0, l1, l2, acks, fills|done].
  - exists n. destruct Hg as [Hc|Ht]; [left; by eapply caught_up_processed|right; split; [done|]].
    destruct Hr as (_ & _ & _ & (qs1 & k0 & k1 & k2 & acks1 & fills1 & Hinv1) & _). by eapply db_throws_refused.
Qed.

(** *** Until the acks are out *)

Definition all_taken : LiveMeasure := (0, (0, (0, (0, 0)))).

Lemma nothing_smaller m : ¬ live_smaller m all_taken.
Proof. intros Hm. repeat (inversion Hm as [? ? ? ? Hlt|? ? ? Hm']; clear Hm; [lia|subst; rename Hm' into Hm]). lia. Qed.

Lemma processed_measure s : processed s → live_measure s = all_taken.
Proof.
  intros (_ & _ & (qs & l0 & l1 & l2 & acks & fills & Hinv) & Hn).
  assert (N ≤ pub_len s) as Hp by (pose proof (seen_le _ _ _ _ _ _ _ _ _ _ _ _ _ _ Hinv 0); pose proof (Hn 0 ltac:(lia)); unfold pub_len; lia).
  assert (∀ i, i < 3 → (seen_by i s <? N) = false) as Hs by (intros i Hi; apply Nat.ltb_ge; auto).
  unfold live_measure, wanted, all_taken. rewrite !Hs, (proj2 (Nat.ltb_ge (pub_len s) N)) by lia. cbn [andb].
  pose proof (Hn 0 ltac:(lia)). pose proof (Hn 1 ltac:(lia)). pose proof (Hn 2 ltac:(lia)).
  repeat (apply (f_equal2 pair); [lia|]). done.
Qed.

Lemma measure_processed s : live_ranked s all_taken → processed s.
Proof.
  intros (Hm & HA & _ & Hinv & Hz). split_and!; [done..|]. unfold live_measure, all_taken in Hz. injection Hz as _ _ Hz _ _.
  intros i Hi. destruct (consumer_cases i Hi) as [->|[->| ->]]; lia.
Qed.

(** The engine's thread gets rid of its acks by itself. *)
Lemma push_turn s mv :
  keeps_running mv s → live_ranked s all_taken → m_push (p_matcher s) ≠ PIdle → ¬ throws s →
  live_ranked (turn move mv s) all_taken ∧
  (push_dist kMaxSpins (m_push (p_matcher (turn move mv s))) < push_dist kMaxSpins (m_push (p_matcher s)) ∨
   mv ≠ MvMatcher ∧ push_dist kMaxSpins (m_push (p_matcher (turn move mv s))) = push_dist kMaxSpins (m_push (p_matcher s))).
Proof.
  intros Hk Hr Hbusy Hnt. split.
  { destruct (live_turn s _ mv Hk Hr Hnt) as (m' & Hr' & [Hs|(-> & _)]); [by destruct (nothing_smaller m')|done]. }
  destruct Hk as (Hnm & _ & _). destruct Hr as (Hmain & _ & Hlim & (qs & l0 & l1 & l2 & acks & fills & Hinv) & _).
  assert (mv = MvMatcher ∨ mv ≠ MvMatcher) as [->|Hne] by (destruct mv; (by left) || by right).
  - left. pose proof (published_limit _ _ _ _ _ _ _ _ _ _ _ _ _ _ Hinv Hlim) as Hpl.
    assert (m_loop (p_matcher s) ≠ LDone) as Hnd.
    { intros Hd. pose proof (mi_loop _ _ _ _ _ (pv_matcher _ _ _ _ _ _ _ _ _ _ _ _ _ _ Hinv)) as Hl. by rewrite Hd in Hl. }
    destruct (matcher_can _ kMaxSpins _ _ _ _ Hnow Hcap _ _ _ _ _ _ _ _ _ Hinv Hpl Hnd) as [[[r sh] m] Hstep].
    unfold turn, Process.move. rewrite Hstep. cbn. by eapply matcher_busy.
  - right. split; [done|]. unfold turn, Process.move. destruct mv; try done.
    + by destruct (seq_step _ _).
    + by destruct (wal_step _ _ _ _ _ _) as [[[? ?] ?]|].
    + by destruct (db_step _ _ _ _ _ _ _) as [[[[? ?] ?] ?]|].
    + destruct (p_main s); try done. destruct (inputs_ _ !! 0) as [q|]; [|done].
      destruct (sy_pushed _ !! 0) as [l|]; [|done]. by destruct (fifo_push ev q) as [[[|] q']|].
    + destruct (p_main s); try done. by destruct (fifo_pop _) as [[[a|] q]|].
Qed.

#[local] Instance push_idle_dec (s : P) : Decision (m_push (p_matcher s) = PIdle).
Proof. destruct (m_push (p_matcher s)); [by left|by right..]. Defined.

Lemma fair_reported s qs l0 l1 l2 acks fills sched :
  0 < bc_room → inv s qs l0 l1 l2 acks fills → p_main s = MainLoop → A `prefix_of` accepted_orders s →
  below_limit (length (accepted_orders s)) → fair workers sched →
  (∀ n, keeps_running (sched n) (run_schedule move sched n s)) →
  ∃ n, let s' := run_schedule move sched n s in
    processed s' ∧ m_push (p_matcher s') = PIdle ∨ throws s' ∧ db_refused (p_db s').
Proof.
  intros Hroom Hinv Hm HN Hlim Hf Hk.
  destruct (fair_processed s qs l0 l1 l2 acks fills sched Hroom Hinv Hm HN Hlim Hf Hk) as (n & [Hn|Ht]);
    [|exists n; by right].
  pose proof (processed_measure _ Hn) as Hz.
  assert (∀ m, run_schedule move (λ k, sched (n + k)) m (run_schedule move sched n s) = run_schedule move sched (n + m) s)
    as Hadd by (intros m; by rewrite run_schedule_add).
  destruct (fair_until move MvMatcher (λ s, push_dist kMaxSpins (m_push (p_matcher s))) keeps_running
              (λ s, live_ranked s all_taken) (λ s, m_push (p_matcher s) = PIdle ∨ throws s))
    with (s := run_schedule move sched n s) (sched := λ k, sched (n + k)) as (m & Hr & Hg).
  - intros s1 u Hk1 Hi Hg. apply push_turn; naive_solver.
  - destruct Hn as (Hmn & HAn & Hin & _). split_and!; [done|done| |done|done].
    destruct n as [|n]; [done|]. specialize (Hk n) as (_ & _ & Hl). replace (S n) with (n + 1) by lia.
    rewrite run_schedule_add. cbn. by rewrite Nat.add_0_r.
  - intros t Ht. apply (fair_skip workers); [done|]. set_solver.
  - intros m. rewrite Hadd. apply Hk.
  - exists (n + m). rewrite Hadd in Hr, Hg. destruct Hg as [Hidle|Ht]; [left; split; [by apply measure_processed|done]|right].
    split; [done|]. destruct Hr as (_ & _ & _ & (qs1 & k0 & k1 & k2 & acks1 & fills1 & Hinv1) & _). by eapply db_throws_refused.
Qed.

(** Every ack the engine has made is in the gateway's queue, has been taken from
    it, or is counted as dropped; and every one that the gateway was given is in
    the database's queue, has been written by it, or is counted. *)
Definition acks_out (s : P) : Prop :=
  let m := p_matcher s in
  ∃ acks fills, fifo_rep (p_acks s) acks ∧ fifo_rep (p_fills s) fills ∧
    (p_popped s ++ acks) `sublist_of` out_ (m_engine m) ∧
    m_acks_dropped m = u64 (Z.of_nat (length (out_ (m_engine m))) - Z.of_nat (length (p_popped s ++ acks))) ∧
    (p_written s ++ fills) `sublist_of` (p_popped s ++ acks) ∧
    m_fills_dropped m = u64 (Z.of_nat (length (p_popped s ++ acks)) - Z.of_nat (length (p_written s ++ fills))).

(** The database thread has written the rows for the orders in [l]: they are in the
    open transaction, but for those that were complained about, or SQLite has
    rolled it back. *)
Definition db_holds (l : list SequencedEvent) (s : P) : Prop :=
  ∃ d T, db_ (d_db (p_db s)) = Some d ∧
    ((∃ T', sq_rep d T (Some T') ∧
       kept_rows wall T0 (filter is_order l) (p_written s) (db_stderr (d_db (p_db s))) T') ∨ sq_rep d T None).

(** What it means that they have been processed and reported. *)
Lemma processed_facts s :
  processed s → m_push (p_matcher s) = PIdle → ∃ l0 l1 l2, sy_seen (p_sys s) = [l0; l1; l2] ∧
    Forall (λ l, (payload <$> A) `prefix_of` (payload <$> l)) [l0; l1; l2] ∧
    apply_all l0 (engine_new PoolCapacity []) = Some (m_engine (p_matcher s)) ∧
    wal_durable (w_wal (p_wal s)) ++ wal_unsynced (w_wal (p_wal s)) = old ++ l1 ∧
    db_holds l2 s ∧ acks_out s.
Proof.
  intros (Hmain & HA & (qs & l0 & l1 & l2 & acks & fills & Hinv) & Hn) Hidle.
  pose proof (pv_control _ _ _ _ _ _ _ _ _ _ _ _ _ _ Hinv) as [_ _ _ _ C5 C6 _]. rewrite Hmain in C5, C6.
  destruct (Hinv) as [Hok Hseen _ _ [lg Hg] Ha Hfl Hm Hw Hd _].
  exists l0, l1, l2. split_and!; [done| |apply Hm| | |].
  - pose proof (published_prefix _ _ _ Hok Hg) as Hpre. unfold accepted_orders in HA. rewrite Hg in HA. cbn in HA.
    pose proof (so_seen _ _ Hok) as Hs. rewrite Hseen in Hs.
    assert (∀ i l, i < 3 → [l0; l1; l2] !! i = Some l → l = take (length l) (sy_published (p_sys s)) →
              (payload <$> A) `prefix_of` (payload <$> l)) as Hone.
    { intros i l Hi Hl Ht. specialize (Hn i Hi). unfold seen_by in Hn. rewrite Hseen, Hl in Hn. cbn in Hn.
      assert ((payload <$> l) `prefix_of` (payload <$> lg)) as Hl'.
      { etrans; [|exact Hpre]. rewrite fmap_app. apply prefix_app_r. apply prefix_fmap. rewrite Ht. apply prefix_take. }
      destruct (prefix_weak_total _ _ _ (prefix_fmap payload _ _ HA) Hl') as [?|Hr]; [done|].
      by rewrite (prefix_length_eq _ _ Hr) by (by rewrite !length_fmap). }
    rewrite !Forall_cons in Hs. destruct Hs as (S0 & S1 & S2 & _).
    repeat constructor; [eapply (Hone 0)|eapply (Hone 1)|eapply (Hone 2)]; (done || lia).
  - unfold walth_inv in Hw. destruct (w_loop (p_wal s)) eqn:Hl; try done; try apply Hw.
    pose proof (tn_stop _ _ _ _ _ C5 eq_refl). cbn in *. lia.
  - unfold dbth_inv in Hd. destruct (d_loop (p_db s)) eqn:Hl;
      try (destruct Hd as [[Hdb _ _ _ _ _] _]; exact Hdb).
    pose proof (tn_stop _ _ _ _ _ C6 eq_refl). cbn in *. lia.
  - destruct (mi_flow _ _ _ _ _ Hm) as [(h & Hh & Hsub & Hdr) (o & Ho & Hsub' & Hdr')].
    rewrite Hidle in Hh, Ho. cbn in Hh, Ho. rewrite app_nil_r in Hh, Ho. subst h. rewrite <-Ho in Hsub', Hdr'.
    by exists acks, fills.
Qed.

End Live.

Section LiveProperties.
Context {Qi Q B D : Type} `{FifoLaws Qi SequencedEvent} `{FifoLaws Q OutboundAck}.
Context `{BroadcastLaws B SequencedEvent} `{SqliteFaultLaws D}.
Context (PoolCapacity kMaxSpins : nat) (now_ns : Z → Z).
Context (fsync_every_n_ fsync_interval_ batch_every_n_ batch_interval_ : Z).
Context (wal_clock db_clock wall : nat → Z).
Hypothesis Hnow : ∀ k, is_u64 (now_ns k).
Hypothesis Hcap : (Z.of_nat PoolCapacity < 2 ^ 31)%Z.
Hypothesis Hfsync : (0 < fsync_every_n_ < 2 ^ 64)%Z.
Hypothesis Hbatch : (0 < batch_every_n_ < 2 ^ 64)%Z.
Context (out : AckOut Q) (old : list SequencedEvent) (T0 : Tables).
Context (inputs : list Qi) (rn : Running B Q D) (acks0 fills0 : Q).

Abbreviation P := (Proc Qi Q B D).
Abbreviation step := (@proc_step Qi Q B D _ _ _ _ kMaxSpins now_ns fsync_every_n_ fsync_interval_
  batch_every_n_ batch_interval_ wal_clock db_clock wall).
Abbreviation move := (@move Qi Q B D _ _ _ _ kMaxSpins now_ns fsync_every_n_ fsync_interval_
  batch_every_n_ batch_interval_ wal_clock db_clock wall).
Abbreviation keeps_running := (@keeps_running Qi Q B D _ _ _ _ kMaxSpins now_ns fsync_every_n_ fsync_interval_
  batch_every_n_ batch_interval_ wal_clock db_clock wall).

(** C18: Every accepted order is processed.  Take any state of the running
    process and any schedule that is fair to the sequencer and the three consumer
    threads, while the gateway goes on submitting orders and taking acks as it
    likes: there comes a time when the matching engine, the log and the database
    have each taken all orders that were accepted at the start, in that order,
    before any later one.  The engine's state is then the result of applying what
    it has taken, the log consists of its old contents and what the log thread has
    taken, and the open transaction of the database holds the rows for what the
    database thread has taken, but for as many as [step_checked] has complained
    about (unless SQLite has rolled it back); and every ack that the engine has
    made for them has been given to the gateway, in order, or is counted as
    dropped.  The one way out is that SQLite refuses to commit or to begin, which
    throws out of the database thread and ends the process. *)
Theorem accepted_orders_processed (s : P) (sched : nat → Move) :
  started PoolCapacity kMaxSpins fsync_every_n_ batch_every_n_ wall out old T0 inputs rn acks0 fills0 →
  rtc step (proc_init PoolCapacity inputs rn acks0 fills0) s → 0 < bc_room →
  below_limit (length (accepted_orders s)) → p_main s = MainLoop → fair workers sched →
  (∀ n, keeps_running (sched n) (run_schedule move sched n s)) →
  ∃ n, let s' := run_schedule move sched n s in
    (∃ l0 l1 l2, sy_seen (p_sys s') = [l0; l1; l2] ∧
      Forall (λ l, (payload <$> accepted_orders s) `prefix_of` (payload <$> l)) [l0; l1; l2] ∧
      apply_all l0 (engine_new PoolCapacity []) = Some (m_engine (p_matcher s')) ∧
      wal_durable (w_wal (p_wal s')) ++ wal_unsynced (w_wal (p_wal s')) = old ++ l1 ∧
      db_holds wall T0 l2 s' ∧ acks_out s') ∨
    (db_throws batch_every_n_ batch_interval_ db_clock wall s' ∧ db_refused (p_db s')).
Proof.
  intros Hst Hr Hroom Hlim Hm Hf Hk.
  destruct (reached_accepted PoolCapacity kMaxSpins now_ns fsync_every_n_ fsync_interval_ batch_every_n_ batch_interval_
              wal_clock db_clock wall Hnow Hcap Hfsync Hbatch out old T0 inputs rn acks0 fills0 s Hst Hr Hlim)
    as (qs & l0 & l1 & l2 & acks & fills & Hinv).
  destruct (fair_reported PoolCapacity kMaxSpins now_ns fsync_every_n_ fsync_interval_ batch_every_n_ batch_interval_
              wal_clock db_clock wall Hnow Hcap Hfsync Hbatch old T0 (accepted_orders s) s _ _ _ _ _ _ sched
              Hroom Hinv Hm ltac:(done) Hlim Hf Hk) as (n & [[Hn Hidle]|Ht]);
    exists n; [left; by apply processed_facts in Hn|by right].
Qed.

(** The four threads alone accept nothing. *)
Lemma turn_accepted mv (s : P) : mv ∈ workers → accepted_orders (turn move mv s) = accepted_orders s.
Proof.
  clear Hnow Hcap Hfsync Hbatch. intros Hw. unfold workers in Hw. rewrite !elem_of_cons, elem_of_nil in Hw. unfold turn.
  destruct Hw as [-> |[-> |[-> |[-> |[]]]]]; unfold Process.move, accepted_orders.
  - by destruct (seq_step _ _).
  - by destruct (matcher_step _ _ _ _) as [[[? ?] ?]|].
  - by destruct (wal_step _ _ _ _ _ _) as [[[? ?] ?]|].
  - by destruct (db_step _ _ _ _ _ _ _) as [[[[? ?] ?] ?]|].
Qed.

Lemma workers_keep_running sched (s : P) :
  (∀ k, sched k ∈ workers) → below_limit (length (accepted_orders s)) →
  ∀ n, keeps_running (sched n) (run_schedule move sched n s).
Proof.
  clear Hnow Hcap Hfsync Hbatch. intros Hw Hlim n. assert (accepted_orders (run_schedule move sched n s) = accepted_orders s) as Hacc.
  { clear Hlim. revert sched s Hw. induction n as [|n IH]; intros sched s Hw; [done|]. cbn. rewrite IH by auto.
    by apply turn_accepted. }
  split_and!; [|by specialize (Hw n); destruct (sched n); try done; set_solver|by rewrite turn_accepted, Hacc].
  intros Hm. specialize (Hw n). rewrite Hm in Hw. set_solver.
Qed.

End LiveProperties.

(** Two orders are in the queue and nothing has been published; then the four
    threads take turns. *)
Section DemoLive.
#[local] Instance pl_demo_ring : Broadcast (BroadcastRing SequencedEvent) SequencedEvent :=
  bcast_broadcast SequencedEvent 2 8.
#[local] Instance pl_demo_ring_laws : BroadcastLaws (BroadcastRing SequencedEvent) SequencedEvent :=
  bcast_broadcast_laws SequencedEvent 2 8 pow2_capacity_2.
#[local] Instance pl_demo_acks : Fifo (SpscRing OutboundAck) OutboundAck := spsc_fifo OutboundAck 4.
#[local] Instance pl_demo_acks_laws : FifoLaws (SpscRing OutboundAck) OutboundAck :=
  spsc_fifo_laws OutboundAck 4 pow2_capacity_4.
#[local] Instance pl_demo_queue : Fifo (SpscRing SequencedEvent) SequencedEvent := spsc_fifo SequencedEvent 4.
#[local] Instance pl_demo_queue_laws : FifoLaws (SpscRing SequencedEvent) SequencedEvent :=
  spsc_fifo_laws SequencedEvent 4 pow2_capacity_4.

Lemma accepted_orders_processed_witness :
  ∃ s n, pr_run [MvSubmit pr_order; MvSubmit pr_order] = Some s ∧ published s = [] ∧
    let s' := run_schedule (move 3 pr_clock 2 50 2 50 demo_clock demo_clock demo_clock) (round_robin MvSeq workers) n s in
    (∃ l0 l1 l2, sy_seen (p_sys s') = [l0; l1; l2] ∧
      Forall (λ l, (payload <$> [pr_order; pr_order]) `prefix_of` (payload <$> l)) [l0; l1; l2]) ∨
    db_throws 2 50 demo_clock demo_clock s'.
Proof.
  destruct (pr_run [MvSubmit pr_order; MvSubmit pr_order]) as [s|] eqn:Hs; [|vm_compute in Hs; discriminate].
  assert (accepted_orders s = [pr_order; pr_order] ∧ p_main s = MainLoop ∧ published s = []) as (Hacc & Hm & Hpub)
    by (vm_compute in Hs; injection Hs as <-; repeat split).
  assert (below_limit (length (accepted_orders s))) as Hlim by (rewrite Hacc; unfold below_limit; cbn; lia).
  destruct (accepted_orders_processed 4 3 pr_clock 2 50 2 50 demo_clock demo_clock demo_clock pr_clock_fits
              ltac:(lia) ltac:(lia) ltac:(lia) demo_out [] (mkTables [] []) pr_inputs pr_started pr_acks pr_acks s
              (round_robin MvSeq workers) pr_is_started) as (n & Hend).
  - refine (pr_reach _ _ _ Hs). repeat constructor; apply pr_order_fits.
  - cbn. lia.
  - exact Hlim.
  - exact Hm.
  - apply round_robin_fair.
  - apply workers_keep_running; [|exact Hlim]. intros k. pose proof (round_robin_in MvSeq workers k). set_solver.
  - rewrite Hacc in Hend. exists s, n. split; [reflexivity|]. split; [exact Hpub|].
    destruct Hend as [(l0 & l1 & l2 & Hseen & Hall & _)|[Ht _]]; [left|right; exact Ht].
    exact (ex_intro _ l0 (ex_intro _ l1 (ex_intro _ l2 (conj Hseen Hall)))).
Defined.

End DemoLive.
