(* ===== verification/Typing.v ===== *)
(** * Typing: every value stays within its C++ type

    The models use unbounded integers.  Here the fields of everything that
    crosses a component boundary are shown to fit the width of the struct member
    they stand for: events decoded from arbitrary bytes, and the acks that the
    matching engine makes of events that fit. *)

From S2P Require Import Prelude Types ObjectPool OrderBook PriceTime OrderBookProofs BookProperties SpscRing BroadcastRing Consumer MatchingEngine EngineProofs EngineProperties Protocol Session Gateway GatewayProofs.

#[local] Open Scope Z_scope.

(** ** Bytes to events *)

Lemma le_decode_fits bs : Forall is_byte bs → fits_unsigned (8 * Z.of_nat (length bs)) (le_decode bs).
Proof.
  induction 1 as [|b bs Hb Hbs IH]; [cbn; split; [lia|reflexivity]|]. cbn [le_decode length].
  unfold is_byte, fits_unsigned in *. rewrite Nat2Z.inj_succ.
  replace (8 * Z.succ (Z.of_nat (length bs))) with (8 + 8 * Z.of_nat (length bs)) by lia.
  rewrite Z.pow_add_r by lia. change (2 ^ 8) with 256 in *. nia.
Qed.

Lemma field_fits off n bs w :
  Forall is_byte bs → 8 * Z.of_nat n ≤ w → fits_unsigned w (field off n bs).
Proof.
  intros Hb Hw. unfold field.
  assert (Forall is_byte (take n (drop off bs))) as Hb' by (by apply Forall_take, Forall_drop).
  pose proof (le_decode_fits _ Hb') as [Hl Hu]. split; [done|]. eapply Z.lt_le_trans; [exact Hu|].
  apply Z.pow_le_mono_r; [lia|]. pose proof (length_take_le (drop off bs) n). rewrite length_take. lia.
Qed.

(** Whatever bytes a client sends, the event made of them fits. *)
Lemma frame_event_fits fd frame ev :
  Forall is_byte frame → frame_event fd frame = Some ev → event_fits ev.
Proof.
  intros Hb Hev. unfold frame_event in Hev.
  assert (Forall is_byte (drop sizeof_MsgHeader frame)) as Hd by (by apply Forall_drop).
  assert (is_u32 (u32 fd)) as Hfd by (by apply wrap_unsigned_fits).
  destruct (msg_type_of _) as [[]|]; try done.
  - destruct (_ <? _); simplify_eq. split; cbn; try (apply field_fits; [done|lia]); try word_lia; done.
  - destruct (_ <? _); simplify_eq. split; cbn; try (apply field_fits; [done|lia]); try word_lia; done.
Qed.

(** ** Events to acks *)

Record ack_fits (a : OutboundAck) : Prop := {
  af_session : is_u32 (a_session a);
  af_client : is_u64 (a_client_order_id a);
  af_exchange : is_u64 (a_exchange_order_id a);
  af_price : is_u32 (a_fill_price a);
  af_fill : is_u32 (a_fill_quantity a);
  af_leaves : is_u32 (a_leaves_quantity a)
}.

(** What the engine's maps hold fits too. *)
Record maps_fit (by_client : gmap (Z * Z) Z) (resting : gmap Z RestingOrderInfo) : Prop := {
  mf_ids : ∀ k id, by_client !! k = Some id → is_u64 id;
  mf_info : ∀ id info, resting !! id = Some info →
    is_u64 id ∧ is_u32 (ri_session info) ∧ is_u64 (ri_client info) ∧ is_u32 (ri_remaining info)
}.

Lemma u32_fits z : is_u32 (u32 z).
Proof. by apply wrap_unsigned_fits. Qed.

Lemma maps_fit_delete_key by_client resting k :
  maps_fit by_client resting → maps_fit (delete k by_client) resting.
Proof. intros [Hi Hf]. split; [|done]. intros k' id [_ Hk]%lookup_delete_Some. by eapply Hi. Qed.

Lemma maps_fit_delete by_client resting id :
  maps_fit by_client resting → maps_fit by_client (delete id resting).
Proof. intros [Hi Hf]. split; [done|]. intros id' info [_ Hk]%lookup_delete_Some. by eapply Hf. Qed.

Lemma maps_fit_insert by_client resting id info :
  maps_fit by_client resting → is_u64 id → is_u32 (ri_session info) → is_u64 (ri_client info) →
  is_u32 (ri_remaining info) → maps_fit by_client (<[id := info]> resting).
Proof.
  intros [Hi Hf] H1 H2 H3 H4. split; [done|].
  intros id' info' [[<- <-]|[_ Hk]]%lookup_insert_Some; [done|by eapply Hf].
Qed.

Lemma maps_fit_insert_key by_client resting k id :
  maps_fit by_client resting → is_u64 id → maps_fit (<[k := id]> by_client) resting.
Proof.
  intros [Hi Hf] H1. split; [|done]. intros k' id' [[<- <-]|[_ Hk]]%lookup_insert_Some; [done|by eapply Hi].
Qed.

Lemma fill_trades_fit exchange_id trs : ∀ s s' : FillState (list OutboundAck),
  Forall (λ t, is_u32 (t_qty t)) trs → maps_fit (fs_by_client s) (fs_resting s) → is_u32 (fs_filled s) →
  Forall ack_fits (fs_out s) → fill_trades exchange_id trs s = Some s' →
  maps_fit (fs_by_client s') (fs_resting s') ∧ is_u32 (fs_filled s') ∧ Forall ack_fits (fs_out s').
Proof.
  induction trs as [|t trs IH]; intros s s' Ht Hm Hfl Ho; cbn; [by intros [= <-]|].
  apply Forall_cons in Ht as [Hq Ht]. unfold fill_trade.
  set (cp := if t_buy t =? exchange_id then t_sell t else t_buy t).
  destruct (fs_resting s !! cp) as [info|] eqn:Hi; cbn [mbind option_bind].
  2: { apply IH; cbn; [done|done|apply u32_fits|done]. }
  destruct (mf_info _ _ Hm _ _ Hi) as (F1 & F2 & F3 & F4). cbn [push_ack trace_sink mbind option_bind].
  assert (∀ st, Forall ack_fits (fs_out s ++
            [mkAck (ri_session info) (ri_client info) cp st (u32 (t_price t)) (t_qty t)
               (u32 (ri_remaining info - t_qty t))])) as Hout.
  { intros st. apply Forall_app. split; [done|]. constructor; [|done]. split; cbn; try done; apply u32_fits. }
  destruct (_ =? 0); intros Hs; (eapply IH in Hs; [done|done| |apply u32_fits|by cbn]); cbn.
  - by apply maps_fit_delete_key, maps_fit_delete, maps_fit_insert; [|..|apply u32_fits].
  - by apply maps_fit_insert; [|..|apply u32_fits].
Qed.

Section ApplyFit.
Context (cap : nat).
Hypothesis Hcap : Z.of_nat cap < 2 ^ 31.

(** The trades of an order fit. *)
Lemma add_trades_fit (e : Engine (list OutboundAck)) a n ev b' tr :
  engine_inv cap e a n → event_fits ev → n ≤ ev_seq_num ev →
  add_limit_order (ev_seq_num ev) (ev_side ev) (ev_price ev) (ev_quantity ev) (ev_sequence_ts ev) (book_ e) []
    = Some (b', tr) →
  Forall (λ t, is_u32 (t_qty t)) tr.
Proof.
  intros Hinv Hfits Hn Hadd. pose proof (ef_quantity _ Hfits) as Hq.
  assert (locate_ (book_ e) !! ev_seq_num ev = None) as Hid.
  { apply (book_rep_fresh cap _ a); [apply Hinv|]. by eapply engine_inv_fresh. }
  destruct (add_sim_wf cap (ev_seq_num ev) (ev_side ev) (ev_price ev) (ev_quantity ev)
              (ev_sequence_ts ev) (book_ e) a [] Hcap (ei_book _ _ _ _ Hinv) (ei_wf _ _ _ _ Hinv) Hq Hid)
    as (a' & tr' & b'' & Hab & Hadd' & _). rewrite Hadd in Hadd'. cbn in Hadd'. simplify_eq.
  destruct (ab_add_cases _ _ _ _ _ _ _ _ _ (ei_wf _ _ _ _ Hinv) ltac:(apply Hq) Hab) as (q & l & Hm & _).
  pose proof (Matched_trades _ _ _ _ _ Hm) as Htr. pose proof (Matched_conserve _ _ _ _ _ Hm).
  eapply Forall_impl; [exact Htr|]. cbn. intros t (o & Ho & _ & Hlt & _).
  pose proof (wf_live _ (ei_wf _ _ _ _ Hinv) (opposite (ev_side ev))) as Hlive.
  rewrite Forall_forall in Hlive. specialize (Hlive o Ho).
  unfold live_qty in Hlive. word_lia.
Qed.

Lemma apply_fit (e e' : Engine (list OutboundAck)) a n ev :
  engine_inv cap e a n → event_fits ev → n ≤ ev_seq_num ev → maps_fit (by_client_ e) (resting_ e) →
  Forall ack_fits (out_ e) → apply ev e = Some e' →
  maps_fit (by_client_ e') (resting_ e') ∧ Forall ack_fits (out_ e').
Proof.
  intros Hinv Hfits Hn Hm Ho. destruct (Hfits) as [F1 F2 F3 F4 F5 F6 F7]. unfold apply.
  destruct (ev_type ev); [| |by intros [= <-]..].
  - unfold apply_new_order. destruct (add_limit_order _ _ _ _ _ _ _) as [[b tr]|] eqn:Hadd; cbn [mbind option_bind]; [|done].
    destruct (fill_trades _ _ _) as [s|] eqn:Hs; cbn [mbind option_bind push_ack trace_sink]; [|done].
    pose proof (add_trades_fit _ _ _ _ _ _ Hinv Hfits Hn Hadd) as Htr.
    destruct (fill_trades_fit _ _ (mkFill 0 (by_client_ e) (resting_ e) (out_ e)) s Htr Hm ltac:(cbn; word_lia) Ho Hs) as (Hm' & Hf' & Ho').
    intros [= <-]. cbn. split.
    + destruct (0 <? _); [|done]. by apply maps_fit_insert_key, F1; apply maps_fit_insert; [..|apply u32_fits].
    + apply Forall_app. split; [done|]. constructor; [|done]. split; cbn; try done; [|apply u32_fits].
      destruct (last tr); [apply u32_fits|word_lia].
  - unfold apply_cancel_order. destruct (by_client_ e !! ev_key ev) as [id|] eqn:Hk.
    + destruct (cancel id (book_ e)) as [[rm b]|]; cbn; [|done]. intros [= <-]. cbn. split.
      * by apply maps_fit_delete_key, maps_fit_delete.
      * apply Forall_app. split; [done|]. constructor; [|done]. split; cbn; try done; try word_lia.
        by eapply (mf_ids _ _ Hm).
    + intros [= <-]. cbn. split; [done|]. apply Forall_app. split; [done|]. constructor; [|done].
      split; cbn; try done; word_lia.
Qed.

Lemma apply_all_fit evs : ∀ (e e' : Engine (list OutboundAck)) a n,
  engine_inv cap e a n → stream_ok n evs → maps_fit (by_client_ e) (resting_ e) → Forall ack_fits (out_ e) →
  apply_all evs e = Some e' → maps_fit (by_client_ e') (resting_ e') ∧ Forall ack_fits (out_ e').
Proof.
  induction evs as [|ev evs IH]; intros e e' a n Hinv Hst Hm Ho; cbn; [by intros [= <-]|].
  destruct Hst as (Hf & Hn & Hst). destruct (apply_sim cap Hcap e a n ev Hinv Hf Hn) as (e1 & a1 & He1 & Hinv1).
  rewrite He1. cbn. destruct (apply_fit _ _ _ _ _ Hinv Hf Hn Hm Ho He1) as [Hm1 Ho1]. by eapply IH.
Qed.

Lemma engine_acks_fit evs (e : Engine (list OutboundAck)) :
  stream_ok 1 evs → apply_all evs (engine_new cap []) = Some e → Forall ack_fits (out_ e).
Proof.
  intros Hst He. eapply apply_all_fit; [by apply engine_new_inv|exact Hst| |constructor|exact He].
  split; intros ? ?; cbn; by rewrite lookup_empty.
Qed.

End ApplyFit.

(** ** Acks to bytes *)

(** An ack that fits loses nothing on the wire. *)
Lemma report_decodes a rest :
  ack_fits a → decode_report (encode_report (report_of a) ++ rest) = report_of a.
Proof.
  intros [F1 F2 F3 F4 F5 F6]. apply decode_encode_report.
  assert (is_u8 (exec_status_code (a_status a))) by (destruct (a_status a); cbn; word_lia).
  by split_and!.
Qed.
