(* ===== verification/GatewayIO.v ===== *)
(** * GatewayIO: the gateway as a client of the shared queues

    [Process] lets the gateway push any event that fits and pop any ack.  Here
    this is justified: whatever the sockets deliver, every handler of
    [GatewayServer], and so a whole [poll_once], acts on the two shared queues as
    a sequence of such pushes and pops; and [GatewayPoll] says which ones. *)

From S2P Require Import Prelude Types SpscRing BroadcastRing Sequencer MatchingEngine EngineProofs Wal Db System Threads Process ProcessProofs ProcessProperties Protocol Session Gateway GatewayProofs GatewayConn GatewayPoll Typing.

#[local] Open Scope Z_scope.

(** [recv] fills a buffer of [uint8_t]. *)
Class SocketsLaws (W : Type) `{Sockets W} : Prop := {
  os_recv_bytes fd w data w' : os_recv fd w = (RecvData data, w') → Forall is_byte data
}.

Section GatewayIO.
Context {Q A W : Type} `{FQ : Fifo Q SequencedEvent, !FifoLaws Q SequencedEvent}.
Context `{FA : Fifo A OutboundAck, !FifoLaws A OutboundAck} `{SW : Sockets W, !SocketsLaws W}.

Abbreviation G := (Gw Q A W).
Implicit Types (g : G) (fd : Z).

(** One successful operation on the shared queues. *)
Inductive io_step : Q * A → Q * A → Prop :=
| io_push ev q q' a : event_fits ev → fifo_push ev q = Some (true, q') → io_step (q, a) (q', a)
| io_pop x q a a' : fifo_pop a = Some (Some x, a') → io_step (q, a) (q, a').

Definition io g : Q * A := (sequencer_input_ g, gw_acks_ g).

(** The queues are queues, and the readers hold bytes. *)
Definition gw_ok g : Prop :=
  (∃ l, fifo_rep (sequencer_input_ g) l) ∧ (∃ k, fifo_rep (gw_acks_ g) k) ∧
  map_Forall (λ _ c, Forall is_byte (reader c)) (connections_ g).

(** [m] only pushes events that fit and pops acks, and its result is [R]. *)
Definition io_ok {X} (m : M X) (R : X → Prop) : Prop := ∀ g x g',
  gw_ok g → m g = Ret x g' → rtc io_step (io g) (io g') ∧ gw_ok g' ∧ R x.

Definition anything {X} (_ : X) : Prop := True.

Lemma io_ok_bind {X Y} (m : M X) (k : X → M Y) R R' :
  io_ok m R → (∀ x, R x → io_ok (k x) R') → io_ok (m ≫= k) R'.
Proof.
  intros Hm Hk g y g' Hg Hr. unfold mbind, M_bind in Hr. destruct (m g) as [x g1| |] eqn:Em; [|done..].
  destruct (Hm g x g1 Hg Em) as (Hs1 & Hg1 & HR). destruct (Hk x HR g1 y g' Hg1 Hr) as (Hs2 & Hg' & HR').
  split_and!; [by etrans|done|done].
Qed.

Lemma io_ok_ret {X} (x : X) : io_ok (mret x) anything.
Proof. intros g y g' Hg [= <- <-]. split_and!; [apply rtc_refl|done|done]. Qed.

Lemma io_ok_done : io_ok done anything.
Proof. apply io_ok_ret. Qed.

(** A computation that leaves the queues and the connections alone. *)
Lemma io_ok_world {X} (f : W → X * W) R : (∀ w x w', f w = (x, w') → R x) → io_ok (world f) R.
Proof.
  intros Hf g x g' Hg. unfold world. destruct (f (gw_world g)) as [y w] eqn:Ef. intros [= <- <-].
  split_and!; [apply rtc_refl|done|by eapply Hf].
Qed.

Lemma io_ok_get_conn fd : io_ok (get_conn fd) (λ c, Forall is_byte (reader c)).
Proof.
  intros g c g' Hg. unfold get_conn. destruct (connections_ g !! fd) as [c'|] eqn:Hc; [|done].
  intros [= <- <-]. split_and!; [apply rtc_refl|done|]. apply (proj2 (proj2 Hg) fd c' Hc).
Qed.

Lemma io_ok_find_conn fd : io_ok (find_conn fd) anything.
Proof. intros g c g' Hg [= <- <-]. split_and!; [apply rtc_refl|done|done]. Qed.

Lemma io_ok_put_conn fd c : Forall is_byte (reader c) → io_ok (put_conn fd c) anything.
Proof.
  intros Hb g [] g' (Hq & Ha & Hm) [= <-]. split_and!; [apply rtc_refl| |done].
  split_and!; [done|done|]. by apply map_Forall_insert_2.
Qed.

Lemma io_ok_delete fd : io_ok (update_conns (delete fd)) anything.
Proof.
  intros g [] g' (Hq & Ha & Hm) [= <-]. split_and!; [apply rtc_refl| |done].
  split_and!; [done|done|]. by apply map_Forall_delete.
Qed.

Lemma io_ok_input_push ev : event_fits ev → io_ok (input_push ev) anything.
Proof.
  intros Hev g ok g' ((l & Hl) & Ha & Hm). unfold input_push.
  pose proof (fifo_push_law _ l ev Hl) as Hlaw. case_decide.
  - destruct Hlaw as (q & Hp & Hq). rewrite Hp. intros [= <- <-]. split_and!; [|by split_and!; eauto|done].
    by apply rtc_once, io_push with ev.
  - rewrite Hlaw. intros [= <- <-]. split_and!; [apply rtc_refl|by split_and!; eauto|done].
Qed.

Lemma io_ok_acks_pop : io_ok acks_pop anything.
Proof.
  intros g r g' (Hq & (k & Hk) & Hm). unfold acks_pop. pose proof (fifo_pop_law _ k Hk) as Hlaw.
  destruct k as [|a k].
  - rewrite Hlaw. intros [= <- <-]. split_and!; [apply rtc_refl|by split_and!; eauto|done].
  - destruct Hlaw as (q & Hp & Hr). rewrite Hp. intros [= <- <-]. split_and!; [|by split_and!; eauto|done].
    by apply rtc_once, io_pop with a.
Qed.

Lemma io_ok_send_frame fd ty seq body : io_ok (send_frame fd ty seq body) anything.
Proof. intros g [] g' Hg [= <-]. split_and!; [apply rtc_refl|done|done]. Qed.

(** *** Handlers, by composition *)

Create HintDb io.
#[local] Hint Resolve io_ok_done io_ok_ret io_ok_find_conn io_ok_delete io_ok_send_frame io_ok_acks_pop : io.

(** Runs through a computation bind by bind. *)
Ltac io_seq :=
  first [solve [eauto with io]
        |apply io_ok_bind with (R := anything); [solve [eauto with io]|intros ? _; io_seq]
        |eapply io_ok_bind; [apply io_ok_get_conn|intros ? ?; io_seq]].

Lemma io_ok_clock : io_ok clock_now anything.
Proof. by apply io_ok_world. Qed.
#[local] Hint Resolve io_ok_clock : io.

Lemma io_ok_put_session fd s : io_ok (put_session fd s) anything.
Proof. eapply io_ok_bind; [apply io_ok_get_conn|]. intros c Hc. by apply io_ok_put_conn. Qed.
#[local] Hint Resolve io_ok_put_session : io.

Lemma io_ok_send_numbered fd ty body : io_ok (send_numbered fd ty body) anything.
Proof.
  apply io_ok_bind with (R := anything).
  - unfold take_outbound_seq. eapply io_ok_bind; [apply io_ok_get_conn|]. intros c Hc.
    destruct (next_outbound_seq (session c)). io_seq.
  - intros q _. unfold mark_outbound. io_seq.
Qed.
#[local] Hint Resolve io_ok_send_numbered : io.

Lemma io_ok_close fd : io_ok (close_connection fd) anything.
Proof. eapply io_ok_bind; [by apply io_ok_world with (R := anything)|intros [] _; auto with io]. Qed.
#[local] Hint Resolve io_ok_close : io.

Lemma io_ok_gap fd seq_num : io_ok (report_seq_gap_if_any fd seq_num) anything.
Proof.
  unfold report_seq_gap_if_any, send_resend_request.
  apply io_ok_bind with (R := anything); [auto with io|intros t _].
  eapply io_ok_bind; [apply io_ok_get_conn|]. intros c Hc.
  destruct (track_inbound_seq t seq_num (session c)) as [[[a b]|] s]; io_seq.
Qed.
#[local] Hint Resolve io_ok_gap : io.

Lemma io_ok_submit fd id ev : event_fits ev → io_ok (submit fd id ev) anything.
Proof.
  intros Hev. unfold submit, send_execution_report. apply io_ok_bind with (R := anything).
  - by apply io_ok_input_push.
  - intros [] _; auto with io.
Qed.

Lemma io_ok_dispatch fd frame : Forall is_byte frame → io_ok (dispatch fd frame) anything.
Proof.
  intros Hb. unfold dispatch, send_logon_ack, send_execution_report.
  destruct (length frame <? sizeof_MsgHeader)%nat; [auto with io|].
  pose proof (λ ev, frame_event_fits fd frame ev Hb) as Hev. unfold frame_event in Hev.
  destruct (msg_type_of (h_type (decode_header frame))) as [[]|]; auto with io.
  - destruct (_ <? _); [auto with io|]. apply io_ok_bind with (R := anything); [auto with io|intros t _].
    eapply io_ok_bind; [apply io_ok_get_conn|]. intros c Hc.
    destruct (handle_logon _ _ _ _ _) as [[] s]; io_seq.
  - io_seq.
  - apply io_ok_bind with (R := anything); [auto with io|intros _ _].
    destruct (_ <? _); [auto with io|]. cbn [risk_check negb]. by apply io_ok_submit, Hev.
  - apply io_ok_bind with (R := anything); [auto with io|intros _ _].
    destruct (_ <? _); [auto with io|]. by apply io_ok_submit, Hev.
Qed.

Lemma next_frame_bytes buf f rest :
  Forall is_byte buf → next_frame buf = (f, rest) →
  Forall is_byte rest ∧ (∀ frame, f = Some frame → Forall is_byte frame).
Proof.
  intros Hb. unfold next_frame. destruct (_ <? _)%nat; [by intros [= <- <-]|].
  destruct (_ <? _)%nat; intros [= <- <-]; [done|].
  split; [by apply Forall_drop|]. intros frame [= <-]. by apply Forall_take.
Qed.

Lemma io_ok_nofuel {X} : @io_ok X (λ _, NoFuel) anything.
Proof. by intros g x g' _. Qed.

Lemma io_ok_dispatch_frames fd : ∀ fuel, io_ok (dispatch_frames fuel fd) anything.
Proof.
  induction fuel as [|fuel IH]; [apply io_ok_nofuel|]. cbn [dispatch_frames].
  eapply io_ok_bind; [apply io_ok_get_conn|]. intros c Hc.
  destruct (next_frame (reader c)) as [f rest] eqn:Hf. destruct (next_frame_bytes _ _ _ Hc Hf) as [Hr Hfb].
  apply io_ok_bind with (R := anything); [by apply io_ok_put_conn|intros _ _].
  destruct f as [frame|]; [|auto with io].
  apply io_ok_bind with (R := anything); [by apply io_ok_dispatch, Hfb|auto].
Qed.

Lemma io_ok_recv_loop fd : ∀ fuel, io_ok (recv_loop fuel fd) anything.
Proof.
  induction fuel as [|fuel IH]; [apply io_ok_nofuel|]. cbn [recv_loop].
  apply io_ok_bind with (R := λ r, match r with RecvData data => Forall is_byte data | _ => True end).
  { apply io_ok_world. intros w r w' Hr. destruct r; try done. by eapply os_recv_bytes. }
  intros [data| | |] Hr; auto with io. eapply io_ok_bind; [apply io_ok_get_conn|]. intros c Hc.
  apply io_ok_bind with (R := anything); [apply io_ok_put_conn; by apply Forall_app|intros _ _].
  apply io_ok_bind with (R := anything); [apply io_ok_dispatch_frames|auto].
Qed.

Lemma io_ok_accept : io_ok accept_new_connection anything.
Proof.
  unfold accept_new_connection. apply io_ok_bind with (R := anything); [by apply io_ok_world|intros fd _].
  destruct (fd <? 0); [auto with io|]. apply io_ok_bind with (R := anything); [by apply io_ok_world|intros _ _].
  by apply io_ok_put_conn.
Qed.

Lemma io_ok_drain_acks : ∀ fuel, io_ok (drain_acks fuel) anything.
Proof.
  induction fuel as [|fuel IH]; [apply io_ok_nofuel|]. cbn [drain_acks].
  apply io_ok_bind with (R := anything); [auto with io|intros [a|] _; [|auto with io]].
  apply io_ok_bind with (R := anything); [auto with io|intros [c|] _; [|done]]. io_seq.
Qed.

Lemma io_ok_heartbeat fd : io_ok (check_heartbeat fd) anything.
Proof.
  unfold check_heartbeat. apply io_ok_bind with (R := anything); [auto with io|intros [c|] _; [|auto with io]].
  case_decide; [|auto with io]. apply io_ok_bind with (R := anything); [auto with io|intros t _].
  destruct (is_peer_dead t (session c)); [io_seq|].
  apply io_ok_bind with (R := anything); [auto with io|intros t' _].
  destruct (should_send_heartbeat t' (session c)); auto with io.
Qed.

Lemma io_ok_events fuel events : io_ok (handle_events fuel events) anything.
Proof.
  induction events as [|[fd eof] events IH]; [apply io_ok_done|]. cbn [handle_events].
  apply io_ok_bind with (R := anything); [|auto]. intros g. unfold handle_event. cbn.
  destruct (fd =? listen_fd_ g); [apply io_ok_accept|]. destruct eof; [apply io_ok_close|].
  eapply io_ok_bind; [apply io_ok_find_conn|]. intros [c|] _; [apply io_ok_recv_loop|apply io_ok_done].
Qed.

Lemma io_ok_poll fuel events : io_ok (poll_once fuel events) anything.
Proof.
  unfold poll_once. apply io_ok_bind with (R := anything); [apply io_ok_events|].
  intros _ _. apply io_ok_bind with (R := anything); [|intros _ _; apply io_ok_drain_acks].
  intros g. unfold check_heartbeats. generalize ((map_to_list (connections_ g)).*1). intros fds. revert g.
  change (io_ok (check_each fds) anything). induction fds as [|fd fds IH]; [apply io_ok_done|].
  eapply io_ok_bind; [apply io_ok_heartbeat|auto].
Qed.

(** *** What was pushed and popped *)

Inductive io_trace : Q * A → list SequencedEvent → list OutboundAck → Q * A → Prop :=
| tr_none qa : io_trace qa [] [] qa
| tr_push ev q q' a evs acks qa :
    event_fits ev → fifo_push ev q = Some (true, q') → io_trace (q', a) evs acks qa → io_trace (q, a) (ev :: evs) acks qa
| tr_pop x q a a' evs acks qa :
    fifo_pop a = Some (Some x, a') → io_trace (q, a') evs acks qa → io_trace (q, a) evs (x :: acks) qa.

Lemma io_traced qa qa' : rtc io_step qa qa' → ∃ evs acks, io_trace qa evs acks qa'.
Proof.
  induction 1 as [qa|qa qa1 qa' Hs _ (evs & acks & IH)]; [exists [], []; constructor|].
  destruct Hs as [ev q q' a Hev Hp|x q a a' Hp]; [exists (ev :: evs), acks; by econstructor|exists evs, (x :: acks); by econstructor].
Qed.

Lemma io_trace_rep qa evs acks qa' : io_trace qa evs acks qa' → ∀ l k, fifo_rep qa.1 l → fifo_rep qa.2 k →
  fifo_rep qa'.1 (l ++ evs) ∧ ∃ k', k = acks ++ k' ∧ fifo_rep qa'.2 k'.
Proof.
  induction 1 as [qa|ev q q' a evs acks qa Hev Hp _ IH|x q a a' evs acks qa Hp _ IH]; intros l k Hl Hk; cbn [fst snd] in *.
  - rewrite app_nil_r. split; [done|]. by exists k.
  - pose proof (fifo_push_law _ _ ev Hl) as Hlaw. rewrite Hp in Hlaw. case_decide; [|congruence].
    destruct Hlaw as (q1 & [= <-] & Hl1). destruct (IH _ _ Hl1 Hk) as [H1 H2]. by rewrite <-app_assoc in H1.
  - pose proof (fifo_pop_law _ _ Hk) as Hlaw. rewrite Hp in Hlaw. destruct k as [|y k]; [congruence|].
    destruct Hlaw as (a1 & [= -> <-] & Hk1). destruct (IH _ _ Hl Hk1) as (H1 & k' & -> & H2). split; [done|]. by exists k'.
Qed.

End GatewayIO.

(** ** A poll of the gateway is a run of the process *)

Section Simulation.
Context {Q A B D W : Type} `{FQ : Fifo Q SequencedEvent, !FifoLaws Q SequencedEvent}.
Context `{FA : Fifo A OutboundAck, !FifoLaws A OutboundAck} `{SW : Sockets W, !SocketsLaws W, !ClientStreams W}.
Context `{Broadcast B SequencedEvent} `{Sqlite D}.
Context (kMaxSpins : nat) (now_ns : Z → Z).
Context (fsync_every_n_ fsync_interval_ batch_every_n_ batch_interval_ : Z).
Context (wal_clock db_clock wall : nat → Z).

Abbreviation P := (Proc Q A B D).
Abbreviation step := (@proc_step Q A B D _ _ _ _ kMaxSpins now_ns fsync_every_n_ fsync_interval_
  batch_every_n_ batch_interval_ wal_clock db_clock wall).

(** The gateway and the process see the same two queues, and [main] is in the
    event loop. *)
Record attached (g : Gw Q A W) (s : P) : Prop := {
  at_input : inputs_ (sy_seq (p_sys s)) !! 0%nat = Some (sequencer_input_ g);
  at_acks : p_acks s = gw_acks_ g;
  at_main : p_main s = MainLoop;
  at_pushed : is_Some (sy_pushed (p_sys s) !! 0%nat)
}.

(** What only the other threads change. *)
Definition others (s : P) :=
  (sy_published (p_sys s), sy_seen (p_sys s), output_ (sy_seq (p_sys s)), sq_pc (sy_seq (p_sys s)),
   p_fills s, p_matcher s, p_wal s, p_db s, p_written s).

Lemma io_simulates qa evs acks qa' : io_trace qa evs acks qa' → ∀ (s : P) pushed,
  inputs_ (sy_seq (p_sys s)) !! 0%nat = Some qa.1 → p_acks s = qa.2 → p_main s = MainLoop →
  sy_pushed (p_sys s) !! 0%nat = Some pushed →
  ∃ s', rtc step s s' ∧ inputs_ (sy_seq (p_sys s')) !! 0%nat = Some qa'.1 ∧ p_acks s' = qa'.2 ∧
    p_main s' = MainLoop ∧ sy_pushed (p_sys s') !! 0%nat = Some (pushed ++ evs) ∧ p_popped s' = p_popped s ++ acks ∧
    others s' = others s.
Proof.
  induction 1 as [qa|ev q q' a evs acks qa Hev Hp _ IH|x q a a' evs acks qa Hp _ IH]; intros s l Hi Ha Hm Hl.
  { exists s. rewrite !app_nil_r. split_and!; [apply rtc_refl|done..]. }
  all: destruct s as [y ak fl m w d pc po wr]; cbn in *; subst pc ak.
  - edestruct IH with (s := mkProc (mkSys (set_input 0 q' (sy_seq y)) (<[0%nat := l ++ [ev]]> (sy_pushed y))
        (sy_published y) (sy_seen y)) a fl m w d MainLoop po wr) as (s' & Hr & H1 & H2 & H3 & H4 & H5 & H6); cbn; try done.
    { apply list_lookup_insert_eq. by eapply lookup_lt_Some. }
    { apply list_lookup_insert_eq. by eapply lookup_lt_Some. }
    exists s'. rewrite <-app_assoc in H4. split_and!; try done. eapply rtc_l; [by eapply ps_submit|done].
  - edestruct IH with (s := mkProc y a' fl m w d MainLoop (po ++ [x]) wr)
      as (s' & Hr & H1 & H2 & H3 & H4 & H5 & H6); cbn; try done.
    exists s'. cbn in H5. rewrite <-app_assoc in H5. split_and!; try done. eapply rtc_l; [by eapply ps_take_ack|done].
Qed.

(** C11: A poll of the gateway is a run of the process, and the bytes that arrive
    determine what it does there.  Whatever the clients send and the sockets do, a
    [poll_once] that returns is a run in which only the gateway moves: it pushes, in
    order and as far as the queue has room, exactly the events of the order and
    cancel frames that are complete with the bytes that arrive in it ([handled]),
    all of whose fields fit, and pops exactly the acks that were waiting.  And it
    does return, given fuel for the data and the acks there are, unless a client
    sends a frame that makes the gateway erase the connection it is reading from: a
    logout, or a second logon.  So the theorems about the interleaved process cover
    the gateway's code. *)
Theorem gateway_poll_simulated fuel events (g : Gw Q A W) (s : P) l acks pushed :
  gw_ok g → drained g → attached g s →
  fifo_rep (sequencer_input_ g) l → fifo_rep (gw_acks_ g) acks → sy_pushed (p_sys s) !! 0%nat = Some pushed →
  (∀ g', poll_once fuel events g = Ret () g' →
     ∃ evs g1 s', handled fuel events g evs g1 ∧
       rtc step s s' ∧ attached g' s' ∧ gw_ok g' ∧ drained g' ∧ others s' = others s ∧
       sy_pushed (p_sys s') !! 0%nat = Some (pushed ++ take (@fifo_room _ _ FQ - length l) evs) ∧
       p_popped s' = p_popped s ++ acks) ∧
  (settled g → polite (gw_world g) → enough fuel (gw_world g) → (length acks < fuel)%nat →
     ∃ g', poll_once fuel events g = Ret () g' ∧ settled g').
Proof.
  intros Hg Hdr [Hi Ha Hm _] Hl Hk Hp. split; [|by intros; eapply poll_serves]. intros g' Hpoll.
  destruct (io_ok_poll fuel events g () g' Hg Hpoll) as ((evs' & acks' & Hio)%io_traced & Hg' & _).
  destruct (poll_moved fuel events g g' Hdr Hpoll) as (evs & g1 & Hh & Hdr' & Hq).
  assert (fifo_rep (gw_acks_ g') []) as He.
  { eapply poll_empties; [exact Hpoll|]. intros g2 H2. by destruct (io_ok_events fuel events g () g2 Hg H2) as (_ & (_ & ? & _) & _). }
  destruct (io_trace_rep _ _ _ _ Hio l acks Hl Hk) as (Hl' & k' & -> & Hk').
  pose proof (fifo_rep_inj _ _ _ Hk' He) as ->. rewrite app_nil_r.
  pose proof (fifo_rep_inj _ _ _ Hl' (Hq l Hl)) as Heq. apply app_inv_head in Heq as ->.
  destruct (io_simulates _ _ _ _ Hio s pushed Hi Ha Hm Hp) as (s' & Hr & H1 & H2 & H3 & H4 & H5 & H6).
  exists evs, g1, s'. split_and!; try done.
Qed.

End Simulation.

(** ** Types, end to end *)

Section WellTyped.
Context {Qi Q B D : Type} `{FifoLaws Qi SequencedEvent} `{FifoLaws Q OutboundAck}.
Context `{BroadcastLaws B SequencedEvent} `{SqliteFaultLaws D}.
Context (PoolCapacity kMaxSpins : nat) (now_ns : Z → Z).
Context (fsync_every_n_ fsync_interval_ batch_every_n_ batch_interval_ : Z).
Context (wal_clock db_clock wall : nat → Z).
Hypothesis Hnow : ∀ k, is_u64 (now_ns k).
Hypothesis Hcap : Z.of_nat PoolCapacity < 2 ^ 31.
Hypothesis Hfsync : 0 < fsync_every_n_ < 2 ^ 64.
Hypothesis Hbatch : 0 < batch_every_n_ < 2 ^ 64.
Context (out : AckOut Q) (old : list SequencedEvent) (T0 : Tables).
Context (inputs : list Qi) (rn : Running B Q D) (acks0 fills0 : Q).

(** C13: Every value stays within its C++ type, from the socket to the socket.  In
    every reachable state of the process all published events, and all the acks
    the matching engine has made of them, have each field within the width of its
    struct member; so nothing is truncated when a report is put on the wire: the
    client decodes exactly the ack the engine made. *)
Theorem process_well_typed (s : Proc Qi Q B D) :
  started PoolCapacity kMaxSpins fsync_every_n_ batch_every_n_ wall out old T0 inputs rn acks0 fills0 →
  rtc (proc_step kMaxSpins now_ns fsync_every_n_ fsync_interval_ batch_every_n_ batch_interval_
         wal_clock db_clock wall) (proc_init PoolCapacity inputs rn acks0 fills0) s →
  below_limit (length (published s)) →
  Forall event_fits (published s) ∧ Forall ack_fits (out_ (m_engine (p_matcher s))) ∧
  (∀ a rest, a ∈ out_ (m_engine (p_matcher s)) →
     decode_report (encode_report (report_of a) ++ rest) = report_of a).
Proof.
  intros Hst Hr Hlim.
  destruct (reached PoolCapacity kMaxSpins now_ns fsync_every_n_ fsync_interval_ batch_every_n_ batch_interval_
              wal_clock db_clock wall Hnow Hcap Hfsync Hbatch out old T0 inputs rn acks0 fills0 s Hst Hr Hlim)
    as (qs & l0 & l1 & l2 & acks & fills & Hinv).
  pose proof (inv_stream _ _ _ _ _ Hnow _ _ _ _ _ _ _ _ _ Hinv Hlim) as Hstream.
  destruct Hinv as [Hok Hseen Hf Hstm _ _ _ Hm _ _ _].
  assert (stream_ok 1 l0) as Hst0.
  { pose proof (so_seen _ _ Hok) as Hs. rewrite Hseen in Hs. apply Forall_cons in Hs as [-> _].
    by apply stream_ok_take. }
  assert (Forall ack_fits (out_ (m_engine (p_matcher s)))) as Ha.
  { eapply engine_acks_fit; [exact Hcap|exact Hst0|apply Hm]. }
  split_and!; [|done|].
  - apply Forall_app in Hstm as [Hstm _]. by eapply (published_fits now_ns).
  - intros a rest Hin. rewrite Forall_forall in Ha. by apply report_decodes, Ha.
Qed.

End WellTyped.

Section DemoIO.
#[local] Instance io_demo_ring : Broadcast (BroadcastRing SequencedEvent) SequencedEvent :=
  bcast_broadcast SequencedEvent 2 8.
#[local] Instance io_demo_ring_laws : BroadcastLaws (BroadcastRing SequencedEvent) SequencedEvent :=
  bcast_broadcast_laws SequencedEvent 2 8 pow2_capacity_2.
#[local] Instance io_demo_acks : Fifo (SpscRing OutboundAck) OutboundAck := spsc_fifo OutboundAck 4.
#[local] Instance io_demo_acks_laws : FifoLaws (SpscRing OutboundAck) OutboundAck :=
  spsc_fifo_laws OutboundAck 4 pow2_capacity_4.
#[local] Instance io_demo_queue : Fifo (SpscRing SequencedEvent) SequencedEvent := spsc_fifo SequencedEvent 4.
#[local] Instance io_demo_queue_laws : FifoLaws (SpscRing SequencedEvent) SequencedEvent :=
  spsc_fifo_laws SequencedEvent 4 pow2_capacity_4.

Lemma process_well_typed_witness :
  ∃ s, pr_run pr_schedule = Some s ∧ out_ (m_engine (p_matcher s)) = [mkAck 5 7 1 Accepted 0 0 3] ∧
    decode_report (encode_report (mkReport 7 1 1 0 0 3) ++ []) = mkReport 7 1 1 0 0 3.
Proof.
  destruct (pr_run pr_schedule) as [s|] eqn:Hs; [|vm_compute in Hs; discriminate].
  exists s. assert (below_limit (length (published s)) ∧ out_ (m_engine (p_matcher s)) = [mkAck 5 7 1 Accepted 0 0 3])
    as [Hlim Hout].
  { vm_compute in Hs. injection Hs as <-. split; [unfold below_limit; cbn; lia|reflexivity]. }
  destruct (process_well_typed 4 3 pr_clock 2 50 2 50 demo_clock demo_clock demo_clock pr_clock_fits
              ltac:(lia) ltac:(lia) ltac:(lia) demo_out [] (mkTables [] []) pr_inputs pr_started pr_acks pr_acks s
              pr_is_started (pr_reach _ _ pr_schedule_fits Hs) Hlim) as (_ & _ & Hd).
  split; [reflexivity|]. split; [exact Hout|].
  apply (Hd (mkAck 5 7 1 Accepted 0 0 3) []). rewrite Hout. left.
Defined.

(** One client on descriptor 9: what it has sent, and what is still to come. *)
Record ScriptWorld := mkScript { sc_got : bytes; sc_script : list bytes }.

Definition script_bytes : Sockets ScriptWorld := {|
  os_send _ o w := (Z.of_nat (length o), w);
  os_recv fd w :=
    match sc_script w with
    | d :: rest =>
        if decide (fd = 9 ∧ Forall is_byte d) then (RecvData d, mkScript (sc_got w ++ d) rest) else (RecvWouldBlock, w)
    | [] => (RecvWouldBlock, w)
    end;
  os_accept w := (-1, w);
  os_register _ w := w;
  os_close _ w := w;
  os_now w := (0, w)
|}.
#[local] Existing Instance script_bytes.

#[local] Instance script_bytes_laws : SocketsLaws ScriptWorld.
Proof.
  constructor. intros fd w data w'. cbn. destruct (sc_script w) as [|d rest]; [done|]. case_decide as Hd; [|done].
  intros [= <- <-]. apply Hd.
Qed.

#[local] Instance script_streams : ClientStreams ScriptWorld.
Proof.
  refine {| arrived x w := if decide (x = 9) then sc_got w else []; backlog x w := length (sc_script w) |}; try done.
  - intros fd w x. cbn. destruct (sc_script w) as [|d rest]; cbn.
    + by destruct (decide (x = fd)); rewrite app_nil_r.
    + destruct (decide (fd = 9 ∧ _)) as [[-> _]|]; cbn; [|by destruct (decide (x = fd)); rewrite app_nil_r].
      destruct (decide (x = 9)); [done|]. by rewrite app_nil_r.
  - intros fd [got [|d rest]]; cbn; [lia|]. destruct (decide _); cbn; lia.
  - intros fd [got [|d rest]] data; cbn; [done|]. destruct (decide _); [|done]. cbn. lia.
Defined.

(** The order comes in two pieces. *)
Definition io_script : list bytes := [take 10 demo_order_frame; drop 10 demo_order_frame].

Definition io_gw : Gw (SpscRing SequencedEvent) (SpscRing OutboundAck) ScriptWorld :=
  mkGw (spsc_new 4 demo_event) pr_acks {[ 9 := mkConn [] session_new ]} 3 (mkScript [] io_script) [].

Lemma io_script_reach w : rtc os_step (mkScript [] io_script) w →
  w = mkScript [] io_script ∨ w = mkScript (take 10 demo_order_frame) [drop 10 demo_order_frame] ∨ w = mkScript demo_order_frame [].
Proof.
  apply (rtc_ind_r (λ w, w = mkScript [] io_script ∨ w = mkScript (take 10 demo_order_frame) [drop 10 demo_order_frame] ∨
    w = mkScript demo_order_frame [])); [by left|].
  intros w1 w2 _ Hs IH. destruct Hs as [| fd w1| | | |]; try done.
  destruct IH as [->|[->| ->]]; cbn; [case_decide..|]; cbn; auto.
Qed.

Lemma io_polite : polite (gw_world io_gw) ∧ enough 4 (gw_world io_gw).
Proof.
  split; intros w fd [->|[->| ->]]%io_script_reach; try (cbn; lia); cbn; by destruct (decide (fd = 9)).
Qed.

Lemma gateway_poll_simulated_witness :
  ∃ g' s', poll_once 4 [(9, false)] io_gw = Ret () g' ∧
    rtc (proc_step 3 pr_clock 2 50 2 50 demo_clock demo_clock demo_clock) pr_init s' ∧ attached g' s' ∧ drained g' ∧
    is_Some (sy_pushed (p_sys s') !! 0%nat).
Proof.
  destruct (gateway_poll_simulated 3 pr_clock 2 50 2 50 demo_clock demo_clock demo_clock
              4 [(9, false)] io_gw pr_init [] [] []) as [Hsim Hret].
  - split; [exists []; apply spsc_new_rep|]. split; [exists []; apply spsc_new_rep|].
    apply map_Forall_singleton. constructor.
  - apply map_Forall_singleton. reflexivity.
  - split; [reflexivity|reflexivity|reflexivity|exists []; reflexivity].
  - apply spsc_new_rep.
  - apply spsc_new_rep.
  - reflexivity.
  - destruct Hret as (g' & Hp & _).
    + split; [|exists []; apply spsc_new_rep]. apply map_Forall_singleton. split; reflexivity.
    + apply io_polite.
    + apply io_polite.
    + cbn. lia.
    + destruct (Hsim g' Hp) as (evs & g1 & s' & _ & Hr & Hat & _ & Hd & _ & Hpu & _).
      exists g', s'. split; [exact Hp|]. split; [exact Hr|]. split; [exact Hat|]. split; [exact Hd|]. rewrite Hpu. by eexists.
Defined.

End DemoIO.
