(* ===== verification/Float.v ===== *)
(** * Float: the binary64 arithmetic the program uses

    [double] in C++ is IEEE 754 binary64, here the Standard Library's
    specification [spec_float] at precision 53.  Conversions from and to
    [uint64_t] and [std::ceil] are added; a conversion whose value does not fit is
    undefined behaviour ([None]).  The lemmas bound a rounded result by a
    representable number that bounds the exact one. *)

From Stdlib Require Import SpecFloat.
From S2P Require Import Prelude.

#[local] Open Scope Z_scope.

Abbreviation double := spec_float (only parsing).

Definition dmul : double → double → double := SFmul 53 1024.
Definition ddiv : double → double → double := SFdiv 53 1024.

(** [double(n)] for an unsigned [n]. *)
Definition of_u64 (n : Z) : double := binary_normalize 53 1024 n 0 false.

(** [double(z)] for a signed [z]. *)
Definition of_i64 (z : Z) : double := binary_normalize 53 1024 z 0 false.

(** The integer part of [m * 2^e], and the smallest integer not below it. *)
Definition trunc_scaled (m e : Z) : Z := if 0 <=? e then m * 2 ^ e else m / 2 ^ (- e).
Definition ceil_scaled (m e : Z) : Z := if 0 <=? e then m * 2 ^ e else - ((- m) / 2 ^ (- e)).

(** [static_cast<uint64_t>(x)]. *)
Definition to_u64 (x : double) : option Z :=
  match x with
  | S754_zero _ => Some 0
  | S754_finite s m e =>
      let t := trunc_scaled (Zpos m) e in
      if s then if t =? 0 then Some 0 else None
      else if t <? 2 ^ 64 then Some t else None
  | _ => None
  end.

(** [std::ceil]. *)
Definition dceil (x : double) : double :=
  match x with
  | S754_finite s m e =>
      if 0 <=? e then x
      else if s then binary_normalize 53 1024 (- trunc_scaled (Zpos m) e) 0 true
      else binary_normalize 53 1024 (ceil_scaled (Zpos m) e) 0 false
  | _ => x
  end.

(** ** Digits *)

Lemma digits2_bound p : 2 ^ (Zpos (digits2_pos p) - 1) ≤ Zpos p < 2 ^ Zpos (digits2_pos p).
Proof.
  induction p as [p IH|p IH|]; cbn [digits2_pos]; [| |cbn; lia].
  - rewrite Pos2Z.inj_succ. replace (Z.succ (Zpos (digits2_pos p)) - 1) with (Z.succ (Zpos (digits2_pos p) - 1)) by lia.
    rewrite !Z.pow_succ_r by lia. lia.
  - rewrite Pos2Z.inj_succ. replace (Z.succ (Zpos (digits2_pos p)) - 1) with (Z.succ (Zpos (digits2_pos p) - 1)) by lia.
    rewrite !Z.pow_succ_r by lia. lia.
Qed.

Lemma digits2_log2 p : Zpos (digits2_pos p) = Z.log2 (Zpos p) + 1.
Proof.
  pose proof (digits2_bound p) as Hb.
  rewrite (Z.log2_unique (Zpos p) (Zpos (digits2_pos p) - 1)); [lia|lia|].
  by replace (Z.succ (Zpos (digits2_pos p) - 1)) with (Zpos (digits2_pos p)) by lia.
Qed.

Lemma Zdigits2_log2 m : 0 < m → Zdigits2 m = Z.log2 m + 1.
Proof. destruct m as [|p|p]; [lia| |lia]. intros _. apply digits2_log2. Qed.

(** ** Shifting right *)

Lemma iter_pos_nat {A} (f : A → A) p x : SpecFloat.iter_pos f p x = Nat.iter (Pos.to_nat p) f x.
Proof.
  revert x. induction p as [p IH|p IH|]; intros x; cbn [SpecFloat.iter_pos].
  - rewrite !IH, Pos2Nat.inj_xI, <-Nat.iter_add. cbn [Nat.iter nat_rect].
    rewrite <-(Nat.iter_succ_r (Pos.to_nat p + Pos.to_nat p)). by replace (2 * Pos.to_nat p)%nat with (Pos.to_nat p + Pos.to_nat p)%nat by lia.
  - rewrite !IH, Pos2Nat.inj_xO, <-Nat.iter_add. by replace (2 * Pos.to_nat p)%nat with (Pos.to_nat p + Pos.to_nat p)%nat by lia.
  - done.
Qed.

Definition exact (r : shr_record) : bool := negb (shr_r r) && negb (shr_s r).

Lemma shr_1_half m r s : 0 ≤ m → shr_1 (Build_shr_record m r s) = Build_shr_record (m / 2) (Z.odd m) (r || s).
Proof.
  intros Hm. destruct m as [|[p|p|]|p]; cbn; try done; try lia; f_equal.
  - apply Z.div_unique with 1; lia.
  - apply Z.div_unique with 0; lia.
Qed.

(** A shift by [k] divides by [2^k], and stays exact on multiples. *)
Lemma shr_iter k m r s : 0 ≤ m →
  let x := Nat.iter k shr_1 (Build_shr_record m r s) in
  shr_m x = m / 2 ^ Z.of_nat k ∧
  (m = (m / 2 ^ Z.of_nat k) * 2 ^ Z.of_nat k → r = false → s = false → exact x = true).
Proof.
  intros Hm. induction k as [|k IH]; cbn [Nat.iter nat_rect].
  { cbn. rewrite Z.div_1_r. split; [done|]. by intros _ -> ->. }
  destruct IH as [IHm IHe]. change (nat_rect _ _ _ k) with (Nat.iter k shr_1 (Build_shr_record m r s)) in *.
  destruct (Nat.iter k shr_1 (Build_shr_record m r s)) as [m1 r1 s1]. cbn [shr_m] in *.
  assert (0 ≤ m1) by (subst m1; apply Z.div_pos; lia).
  rewrite shr_1_half by done.
  assert (2 ^ Z.of_nat (S k) = 2 ^ Z.of_nat k * 2) as Hp by (rewrite Nat2Z.inj_succ, Z.pow_succ_r by lia; lia).
  cbn [shr_m]. rewrite Hp, <-Z.div_div by lia. split; [by rewrite IHm|].
  intros Heq Hr Hs. rewrite <-IHm in *. set (P := 2 ^ Z.of_nat k) in *. assert (0 < P) by (unfold P; lia).
  pose proof (Z.div_mod m1 2 ltac:(lia)) as Hdm. rewrite Zmod_odd in Hdm.
  pose proof (Z.mul_div_le m P ltac:(lia)) as Hle. rewrite <-IHm in Hle.
  assert (Z.odd m1 = false) as Ho by (destruct (Z.odd m1); [nia|done]).
  assert (m = m1 * P) as Hm1 by (rewrite Ho in Hdm; nia).
  unfold exact in *. cbn in *. specialize (IHe Hm1 Hr Hs). rewrite Ho. by destruct r1, s1.
Qed.

(** ** Rounding *)

Abbreviation fexp64 := (fexp 53 1024).

Lemma shr_fexp_spec m e l : 0 ≤ m →
  let k := Z.max 0 (fexp64 (Zdigits2 m + e) - e) in
  ∃ x, shr_fexp 53 1024 m e l = (x, e + k) ∧ shr_m x = m / 2 ^ k ∧
    (m = m / 2 ^ k * 2 ^ k → l = loc_Exact → exact x = true).
Proof.
  intros Hm. unfold shr_fexp, shr. set (n := fexp64 (Zdigits2 m + e) - e).
  assert (∃ r s, shr_record_of_loc m l = Build_shr_record m r s ∧ (l = loc_Exact → r = false ∧ s = false))
    as (r & s & -> & Hrs) by (destruct l as [|[]]; cbn; eauto 6 using eq_refl; eexists _, _; done).
  destruct n as [|p|p] eqn:Hn; cbn zeta.
  - exists (Build_shr_record m r s). rewrite Z.max_id, Z.add_0_r, Z.pow_0_r, Z.div_1_r. split_and!; [done|done|].
    intros _ Hl. destruct (Hrs Hl) as [-> ->]. done.
  - rewrite Z.max_r by lia. rewrite iter_pos_nat. destruct (shr_iter (Pos.to_nat p) m r s Hm) as [H1 H2].
    rewrite positive_nat_Z in H1, H2. eexists. split; [done|]. split; [exact H1|]. intros Heq Hl.
    destruct (Hrs Hl) as [-> ->]. by apply H2.
  - exists (Build_shr_record m r s). rewrite Z.max_l, Z.add_0_r, Z.pow_0_r, Z.div_1_r by lia. split_and!; [done|done|].
    intros _ Hl. destruct (Hrs Hl) as [-> ->]. done.
Qed.

Lemma round_bounds x :
  shr_m x ≤ round_nearest_even (shr_m x) (loc_of_shr_record x) ≤ shr_m x + 1 ∧
  (exact x = true → round_nearest_even (shr_m x) (loc_of_shr_record x) = shr_m x).
Proof.
  destruct x as [m [] []]; cbn; try (split; [lia|done]). destruct (Z.even m); split; (lia || done).
Qed.

(** [K * 2^e] is representable. *)
Definition on_grid (K e : Z) : Prop :=
  ∀ k, 0 ≤ k ≤ fexp64 (Z.log2 K + 1 + e) - e → (2 ^ k | K).

(** If the exact value is at most a representable [K * 2^e], so is the rounded
    one. *)
Lemma binary_round_le sx m e l K :
  0 ≤ m → 0 < K → m ≤ K → (l ≠ loc_Exact → m < K) → on_grid K e → e + Z.log2 K ≤ 971 →
  match binary_round_aux 53 1024 sx m e l with
  | S754_zero s => s = sx
  | S754_finite s m' e' => s = sx ∧ ∃ j, 0 ≤ j ∧ e' = e + j ∧ Zpos m' * 2 ^ j ≤ K
  | _ => False
  end.
Proof.
  intros Hm HK Hle Hlt Hgrid Hmax. unfold binary_round_aux.
  destruct (shr_fexp_spec m e l Hm) as (x & -> & Hx & Hex). set (k := Z.max 0 _) in *.
  destruct (round_bounds x) as [[Hr1 Hr2] Hr3]. set (m1 := round_nearest_even _ _) in *.
  assert (0 ≤ k) by lia. assert (0 < 2 ^ k) by lia.
  pose proof (Z.mul_div_le m (2 ^ k) ltac:(lia)) as Hdiv. rewrite Z.mul_comm in Hdiv.
  assert (0 ≤ m1) as Hm1 by (pose proof (Z.div_pos m (2 ^ k)); lia).
  assert (m1 * 2 ^ k ≤ K) as HK1.
  { destruct (exact x) eqn:He; [rewrite Hr3, Hx by done; lia|].
    assert (2 ^ k | K) as [c Hc].
    { destruct (Z.eq_dec k 0) as [->|Hk]; [apply Z.divide_1_l|]. apply Hgrid. split; [done|].
      assert (Zdigits2 m ≤ Z.log2 K + 1) as Hd.
      { destruct (Z.eq_dec m 0) as [->|Hz]; [cbn; pose proof (Z.log2_nonneg K); lia|].
        rewrite Zdigits2_log2 by lia. pose proof (Z.log2_le_mono m K Hle). lia. }
      unfold k, fexp in *. lia. }
    assert (m / 2 ^ k < c) as Hc1; [|nia].
    assert (m / 2 ^ k * 2 ^ k < K); [|nia].
    destruct (Z.eq_dec (m / 2 ^ k * 2 ^ k) m) as [Heq|]; [|lia].
    destruct l as [|cmp]; [by specialize (Hex (eq_sym Heq) eq_refl)|]. specialize (Hlt ltac:(done)). lia. }
  destruct (shr_fexp_spec m1 (e + k) loc_Exact Hm1) as (x2 & -> & Hx2 & _).
  set (k2 := Z.max 0 (fexp64 (Zdigits2 m1 + (e + k)) - (e + k))) in *. assert (0 ≤ k2) by lia. rewrite Hx2.
  pose proof (Z.mul_div_le m1 (2 ^ k2) ltac:(lia)) as Hdiv2. pose proof (Z.div_pos m1 (2 ^ k2) Hm1 ltac:(lia)).
  destruct (m1 / 2 ^ k2) as [|p|p] eqn:Hp; [done| |lia].
  assert (Zpos p * 2 ^ (k + k2) ≤ K) as Hfin by (rewrite Z.pow_add_r by lia; nia).
  assert (k + k2 ≤ Z.log2 K) as Hlog.
  { apply Z.log2_le_pow2; [lia|]. nia. }
  destruct (Z.leb_spec (e + k + k2) (1024 - 53)); [|lia].
  split; [done|]. exists (k + k2). split_and!; [lia|lia|done].
Qed.

(** ** Exact results *)

Lemma binary_round_exact sx p e :
  fexp64 (Zpos (digits2_pos p) + e) ≤ e → e ≤ 971 →
  binary_round_aux 53 1024 sx (Zpos p) e loc_Exact = S754_finite sx p e.
Proof.
  intros Hf He. unfold binary_round_aux, shr_fexp. cbn [Zdigits2].
  assert (∀ x, shr x e (fexp64 (Zpos (digits2_pos p) + e) - e) = (x, e)) as Hs.
  { intros x. unfold shr. destruct (fexp64 (Zpos (digits2_pos p) + e) - e) eqn:Hn; [done|lia|done]. }
  rewrite Hs. cbn [shr_record_of_loc shr_m loc_of_shr_record round_nearest_even Zdigits2]. rewrite Hs. cbn [shr_m shr_record_of_loc].
  destruct (Z.leb_spec e (1024 - 53)); [done|lia].
Qed.

Lemma iter_double m j : Zpos (Pos.iter xO m j) = Zpos m * 2 ^ Zpos j.
Proof.
  induction j as [|j IH] using Pos.peano_ind; [cbn; lia|].
  rewrite Pos.iter_succ, Pos2Z.inj_xO, IH, Pos2Z.inj_succ, Z.pow_succ_r by lia. lia.
Qed.

(** An integer below 2^53 is converted exactly, to a normal number. *)
Lemma of_u64_small n : 0 < n < 2 ^ 53 →
  ∃ m e, of_u64 n = S754_finite false m e ∧ -52 ≤ e ≤ 0 ∧ Zpos m = n * 2 ^ (- e).
Proof.
  intros Hn. destruct n as [|p|p]; [lia| |lia]. unfold of_u64, binary_normalize, binary_round.
  pose proof (digits2_bound p) as Hb. set (d := Zpos (digits2_pos p)) in *.
  assert (1 ≤ d ≤ 53) as Hd.
  { split; [unfold d; lia|]. destruct (Z.le_gt_cases d 53) as [|Hgt]; [done|exfalso].
    assert (2 ^ 53 ≤ 2 ^ (d - 1)) by (apply Z.pow_le_mono_r; lia). lia. }
  assert (fexp64 (d + 0) = d - 53) as Hf by (unfold fexp, emin; lia). rewrite Hf.
  assert (∃ mz, shl_align p 0 (d - 53) = (mz, d - 53) ∧ Zpos mz = Zpos p * 2 ^ (53 - d)) as (mz & -> & Hmz).
  { unfold shl_align. destruct (d - 53 - 0) as [|q|q] eqn:Hq; [|lia|].
    - exists p. replace (53 - d) with 0 by lia. split; [f_equal; lia|lia].
    - exists (Pos.iter xO p q). rewrite iter_double. split; [f_equal; lia|]. do 2 f_equal. lia. }
  exists mz, (d - 53). split_and!; [|lia|lia|rewrite Hmz; do 2 f_equal; lia].
  apply binary_round_exact; [|lia].
  assert (Zpos (digits2_pos mz) = 53) as ->.
  { rewrite digits2_log2, Hmz, Z.log2_mul_pow2 by lia. unfold d. rewrite digits2_log2. lia. }
  unfold fexp, emin. lia.
Qed.

Lemma to_u64_small n : 0 ≤ n < 2 ^ 53 → to_u64 (of_u64 n) = Some n.
Proof.
  intros Hn. destruct (Z.eq_dec n 0) as [->|Hz]; [done|].
  destruct (of_u64_small n ltac:(lia)) as (m & e & -> & He & Hm). cbn [to_u64].
  assert (trunc_scaled (Zpos m) e = n) as ->.
  { unfold trunc_scaled. rewrite Hm. destruct (Z.leb_spec 0 e).
    - replace e with 0 by lia. cbn. lia.
    - apply Z.div_mul. lia. }
  destruct (Z.ltb_spec n (2 ^ 64)); [done|lia].
Qed.

(** ** A fraction of an integer *)

(** [m * 2^e] is at most [n]. *)
Definition scaled_le (m : positive) (e n : Z) : Prop :=
  if 0 <=? e then Zpos m * 2 ^ e ≤ n else Zpos m ≤ n * 2 ^ (- e).

Lemma scaled_le_shift m e n s : scaled_le m e n → 0 ≤ s → 0 ≤ s + e → Zpos m * 2 ^ (s + e) ≤ n * 2 ^ s.
Proof.
  unfold scaled_le. intros Hle Hs Hse. destruct (Z.leb_spec 0 e).
  - rewrite Z.pow_add_r by lia. assert (0 < 2 ^ s) by lia. nia.
  - replace s with (- e + (s + e)) at 2 by lia. rewrite (Z.pow_add_r 2 (- e) (s + e)) by lia.
    assert (0 < 2 ^ (s + e)) by lia. nia.
Qed.

(** A double in [0, 1]. *)
Definition unit_double (x : double) : Prop :=
  match x with
  | S754_zero false => True
  | S754_finite false m e => e ≤ 0 ∧ Zpos m ≤ 2 ^ (- e)
  | _ => False
  end.

Lemma new_location_exact n k : new_location n k = loc_Exact ↔ k = 0.
Proof.
  unfold new_location, new_location_even, new_location_odd.
  destruct (Z.even n), (Z.eqb_spec k 0); split; try done; by intros.
Qed.

(** A quotient that is at most one, rounded. *)
Lemma quotient_unit M N e :
  0 ≤ M → 0 < N → e ≤ -53 → M ≤ N * 2 ^ (- e) →
  unit_double (binary_round_aux 53 1024 false (M / N) e (new_location N (M mod N))).
Proof.
  intros HM HN He HMN. assert (0 < 2 ^ (- e)) as HK by lia.
  pose proof (Z.div_mod M N ltac:(lia)) as Hdm. pose proof (Z.mod_pos_bound M N HN) as Hr.
  set (q := M / N) in *. set (r := M mod N) in *.
  pose proof (binary_round_le false q e (new_location N r) (2 ^ (- e)) ltac:(nia) HK ltac:(nia)) as Hround.
  assert (Z.log2 (2 ^ (- e)) = - e) as Hlog by (apply Z.log2_pow2; lia).
  assert (new_location N r ≠ loc_Exact → q < 2 ^ (- e)) as Hlt.
  { intros Hne. assert (r ≠ 0) by (intros Hz; by apply Hne, new_location_exact). nia. }
  assert (on_grid (2 ^ (- e)) e) as Hgrid.
  { intros k Hk. rewrite Hlog in Hk. exists (2 ^ (- e - k)). rewrite <-Z.pow_add_r; [f_equal; lia| |lia].
    unfold fexp, emin in Hk. lia. }
  specialize (Hround Hlt Hgrid ltac:(lia)). destruct (binary_round_aux _ _ _ _ _ _) as [s|s| |s m' ex]; try done.
  - by subst s.
  - destruct Hround as (-> & j & Hj & -> & Hm').
    assert (j ≤ - e) as Hje.
    { apply (Z.pow_le_mono_r_iff 2); [lia..|]. assert (0 < 2 ^ j) by lia. nia. }
    split; [lia|]. replace (- e) with (- (e + j) + j) in Hm' by lia. rewrite Z.pow_add_r in Hm' by lia.
    assert (0 < 2 ^ j) by lia. nia.
Qed.

(** A double that is at most [n], divided by [n]. *)
Lemma ddiv_unit m e n : scaled_le m e n → 0 < n < 2 ^ 53 → unit_double (ddiv (S754_finite false m e) (of_u64 n)).
Proof.
  intros Hle Hn. destruct (of_u64_small n Hn) as (my & ey & -> & Hey & Hmy).
  unfold ddiv, SFdiv, SFdiv_core_binary. cbn [xorb Zdigits2].
  set (d := Zpos (digits2_pos m)). set (dy := Zpos (digits2_pos my)).
  set (e' := Z.min (fexp64 (d + e - (dy + ey))) (e - ey)).
  assert (∀ s, 0 ≤ s + ey → 0 ≤ s + e → Zpos m * 2 ^ (s + e) ≤ Zpos my * 2 ^ (s + ey)) as Hsc.
  { intros s Hs1 Hs2. rewrite Hmy, <-Z.mul_assoc, <-Z.pow_add_r by lia. replace (- ey + (s + ey)) with s by lia.
    apply scaled_le_shift; [done|lia..]. }
  assert (d + e ≤ dy + ey) as Hd.
  { pose proof (digits2_bound m) as Hb. pose proof (digits2_bound my) as Hb'. fold d in Hb. fold dy in Hb'.
    set (s := Z.max 0 (Z.max (- e) (- ey))). specialize (Hsc s ltac:(lia) ltac:(lia)).
    assert (2 ^ (d - 1 + (s + e)) < 2 ^ (dy + (s + ey))) as Hp%Z.pow_lt_mono_r_iff; [|lia..].
    rewrite (Z.pow_add_r 2 (d - 1) (s + e)), (Z.pow_add_r 2 dy (s + ey)) by lia.
    assert (0 < 2 ^ (s + e)) by lia. assert (0 < 2 ^ (s + ey)) by lia. nia. }
  assert (e' ≤ -53) as He' by (unfold e', fexp, emin; lia).
  assert (0 ≤ e - ey - e') as Hs by lia.
  assert (match e - ey - e' with Z0 => Zpos m | Zpos _ => Z.shiftl (Zpos m) (e - ey - e') | Zneg _ => 0 end
          = Zpos m * 2 ^ (e - ey - e')) as ->.
  { destruct (e - ey - e') eqn:Hq; [lia|by rewrite Z.shiftl_mul_pow2|lia]. }
  pose proof (quotient_unit (Zpos m * 2 ^ (e - ey - e')) (Zpos my) e' ltac:(lia) ltac:(lia) He') as Hu.
  unfold Z.div, Z.modulo in Hu. destruct (Z.div_eucl _ _) as [q r]. apply Hu.
  specialize (Hsc (- ey - e') ltac:(lia) ltac:(lia)).
  replace (e - ey - e') with (- ey - e' + e) by lia. by replace (- e') with (- ey - e' + ey) by lia.
Qed.

(** Rounding up a double that is at most [n]. *)
Lemma ceil_u64 m e n :
  scaled_le m e n → n < 2 ^ 53 → ∃ c, to_u64 (dceil (S754_finite false m e)) = Some c ∧ 1 ≤ c ≤ n.
Proof.
  intros Hle Hn. unfold scaled_le in Hle. unfold dceil. destruct (Z.leb_spec 0 e) as [He|He].
  - exists (Zpos m * 2 ^ e). assert (0 < 2 ^ e) by lia. split; [|nia]. cbn [to_u64]. unfold trunc_scaled.
    rewrite (proj2 (Z.leb_le 0 e)) by done. destruct (Z.ltb_spec (Zpos m * 2 ^ e) (2 ^ 64)); [done|lia].
  - set (c := ceil_scaled (Zpos m) e). assert (1 ≤ c ≤ n) as Hc.
    { unfold c, ceil_scaled. rewrite (proj2 (Z.leb_gt 0 e)) by done. assert (0 < 2 ^ (- e)) by lia.
      pose proof (Z.div_mod (- Zpos m) (2 ^ (- e)) ltac:(lia)) as Hdm.
      pose proof (Z.mod_pos_bound (- Zpos m) (2 ^ (- e)) ltac:(lia)). nia. }
    exists c. split; [|done]. apply (to_u64_small c). lia.
Qed.

(** The integer part of a double that is at most [n]. *)
Lemma trunc_u64 m e n :
  scaled_le m e n → n < 2 ^ 64 → ∃ c, to_u64 (S754_finite false m e) = Some c ∧ 0 ≤ c ≤ n.
Proof.
  intros Hle Hn. unfold scaled_le in Hle. cbn [to_u64]. unfold trunc_scaled. destruct (Z.leb_spec 0 e) as [He|He].
  - assert (0 < 2 ^ e) by lia. exists (Zpos m * 2 ^ e). destruct (Z.ltb_spec (Zpos m * 2 ^ e) (2 ^ 64)); [|lia].
    split; [done|nia].
  - assert (0 < 2 ^ (- e)) by lia. set (c := Zpos m / 2 ^ (- e)).
    assert (0 ≤ c ≤ n) by (split; [by apply Z.div_pos|apply Z.div_le_upper_bound; lia]).
    exists c. destruct (Z.ltb_spec c (2 ^ 64)); [done|lia].
Qed.

(** A double in [0, 1] times an integer [n] is at most [n]. *)
Definition at_most (x : double) (n : Z) : Prop :=
  match x with
  | S754_zero false => True
  | S754_finite false m e => scaled_le m e n
  | _ => False
  end.

Lemma unit_product x n : unit_double x → 0 < n < 2 ^ 53 → at_most (dmul x (of_u64 n)) n.
Proof.
  intros Hx Hn. destruct (of_u64_small n Hn) as (my & ey & -> & Hey & Hmy).
  destruct x as [[]|s| |[] mx ex]; try done. destruct Hx as [Hex Hmx].
  unfold dmul, SFmul. cbn [xorb]. set (e := ex + ey). set (K := n * 2 ^ (- e)).
  assert (K = n * 2 ^ (- ex) * 2 ^ (- ey)) as HKe.
  { unfold K, e. rewrite <-Z.mul_assoc, <-Z.pow_add_r by lia. do 2 f_equal. lia. }
  assert (0 < 2 ^ (- ex)) by lia. assert (0 < 2 ^ (- ey)) by lia. assert (0 < 2 ^ (- e)) by lia.
  assert (Zpos (mx * my) ≤ K) as HmK by (rewrite Pos2Z.inj_mul, Hmy, HKe; nia).
  assert (Z.log2 K = Z.log2 n - e) as Hlog by (unfold K; rewrite Z.log2_mul_pow2 by lia; lia).
  assert (Z.log2 n < 53) by (apply Z.log2_lt_pow2; lia). pose proof (Z.log2_nonneg n).
  pose proof (binary_round_le false (Zpos (mx * my)) e loc_Exact K ltac:(lia) ltac:(lia) HmK ltac:(done)) as Hround.
  assert (on_grid K e) as Hgrid.
  { intros k Hk. rewrite Hlog in Hk. unfold K. apply Z.divide_mul_r. exists (2 ^ (- e - k)).
    rewrite <-Z.pow_add_r; [f_equal; lia| |lia]. unfold fexp, emin in Hk. lia. }
  specialize (Hround Hgrid ltac:(lia)). destruct (binary_round_aux _ _ _ _ _ _) as [s|s| |s m' e']; try done.
  { by subst s. }
  destruct Hround as (-> & j & Hj & -> & Hm'). cbn. unfold scaled_le. destruct (Z.leb_spec 0 (e + j)).
  - replace j with (- e + (e + j)) in Hm' by lia. rewrite (Z.pow_add_r 2 (- e)) in Hm' by lia. unfold K in Hm'. nia.
  - unfold K in Hm'. replace (- e) with (- (e + j) + j) in Hm' by lia. rewrite Z.pow_add_r in Hm' by lia.
    assert (0 < 2 ^ j) by lia. nia.
Qed.

(** The same, rounded up, and cut to an integer. *)
Lemma unit_times x n :
  unit_double x → 0 < n < 2 ^ 53 → ∃ c, to_u64 (dceil (dmul x (of_u64 n))) = Some c ∧ 0 ≤ c ≤ n.
Proof.
  intros Hx Hn. pose proof (unit_product x n Hx Hn) as Hp.
  destruct (dmul x (of_u64 n)) as [[]|s| |[] m e]; try done; [exists 0; cbn; split; [done|lia]|].
  destruct (ceil_u64 m e n Hp ltac:(lia)) as (c & Hc & Hcn). exists c. split; [done|lia].
Qed.

Lemma unit_trunc x n :
  unit_double x → 0 ≤ n < 2 ^ 53 → ∃ c, to_u64 (dmul x (of_u64 n)) = Some c ∧ 0 ≤ c ≤ n.
Proof.
  intros Hx Hn. destruct (Z.eq_dec n 0) as [->|Hz].
  { exists 0. split; [|lia]. by destruct x as [[]|s| |[] m e]. }
  pose proof (unit_product x n Hx ltac:(lia)) as Hp.
  destruct (dmul x (of_u64 n)) as [[]|s| |[] m e]; try done; [exists 0; cbn; split; [done|lia]|].
  apply trunc_u64; [done|lia].
Qed.
