(* ===== verification/Text.v ===== *)
(** * Text: numbers as the program reads and prints them

    The decimal conversions of the C and C++ libraries that the source uses:
    [std::stoll], [std::stoul], [std::stoull], [std::stoi] and [atoi] read;
    [printf]'s [%llu], [%u], [%zu] and [%.1f] and the stream operator [<<] on
    integers and doubles print.  Printing and reading are inverse to each
    other. *)

From Stdlib Require Import Ascii String SpecFloat.
From S2P Require Import Prelude Float.

#[local] Open Scope Z_scope.

(** ** Reading *)

Definition is_space (c : Ascii.ascii) : bool :=
  let n := Z.of_nat (Ascii.nat_of_ascii c) in (n =? 32) || ((9 <=? n) && (n <=? 13)).

Definition digit_of (c : Ascii.ascii) : option Z :=
  let n := Z.of_nat (Ascii.nat_of_ascii c) in
  if (48 <=? n) && (n <=? 57) then Some (n - 48) else None.

Fixpoint skip_space (s : string) : string :=
  match s with
  | String c s' => if is_space c then skip_space s' else s
  | EmptyString => s
  end.

(** The longest run of digits; [None] if there is none. *)
Fixpoint digits (s : string) (acc : option Z) : option Z :=
  match s with
  | String c s' =>
      match digit_of c with
      | Some d => digits s' (Some (10 * default 0 acc + d))
      | None => acc
      end
  | EmptyString => acc
  end.

(** [strtoll]/[strtoul] in base 10: white space, an optional sign, digits;
    the rest is ignored. *)
Definition parse_number (s : string) : option (bool * Z) :=
  match skip_space s with
  | String "-"%char s' => n ← digits s' None; Some (true, n)
  | String "+"%char s' => n ← digits s' None; Some (false, n)
  | s' => n ← digits s' None; Some (false, n)
  end.

(** [std::stoll] and [std::stoul]; [None] is an exception. *)
Definition stoll (s : string) : option Z :=
  '(neg, n) ← parse_number s;
  let z := if neg : bool then - n else n in
  if (- 2 ^ 63 <=? z) && (z <? 2 ^ 63) then Some z else None.
Definition stoul (s : string) : option Z :=
  '(neg, n) ← parse_number s;
  if n <? 2 ^ 64 then Some (u64 (if neg : bool then - n else n)) else None.
Definition stoull (s : string) : option Z := stoul s.
Definition stoi (s : string) : option Z :=
  z ← stoll s; if (- 2 ^ 31 <=? z) && (z <? 2 ^ 31) then Some z else None.

(** [atoi]: 0 when there is no number; [None] when it is not an [int], which is
    undefined. *)
Definition atoi (s : string) : option Z :=
  match parse_number s with
  | None => Some 0
  | Some (neg, n) =>
      let z := if neg : bool then - n else n in
      if (- 2 ^ 31 <=? z) && (z <? 2 ^ 31) then Some z else None
  end.

(** ** Printing integers *)

Definition digit_char (d : Z) : ascii := ascii_of_nat (48 + Z.to_nat d).

Fixpoint dec_loop (fuel : nat) (n : Z) (acc : string) : string :=
  match fuel with
  | O => acc
  | S fuel =>
      let acc' := String (digit_char (n mod 10)) acc in
      if n <? 10 then acc' else dec_loop fuel (n / 10) acc'
  end.

(** [%llu]; [n] has at most as many decimal digits as binary ones. *)
Definition dec (n : Z) : string := dec_loop (S (Z.to_nat (Z.log2 n))) n EmptyString.

Fixpoint repeat_char (c : ascii) (k : nat) : string :=
  match k with O => EmptyString | S k => String c (repeat_char c k) end.

(** [%10llu] and the like: at least [w] characters. *)
Definition pad (c : ascii) (w : nat) (s : string) : string :=
  (repeat_char c (w - String.length s) ++ s)%string.

(** ** Printing doubles *)

(** The magnitude of a finite double as a fraction. *)
Definition ratio (m : positive) (e : Z) : Z * Z :=
  if 0 <=? e then (Zpos m * 2 ^ e, 1) else (Zpos m, 2 ^ (- e)).

Definition round_half_even (a b : Z) : Z :=
  let q := a / b in
  let r := a mod b in
  if 2 * r <? b then q
  else if b <? 2 * r then q + 1
  else if Z.even q then q else q + 1.

(** [%.1f] of [num / den]. *)
Definition fixed1 (num den : Z) : string :=
  let k := round_half_even (num * 10) den in
  (dec (k / 10)%Z ++ String "." (dec (k mod 10)%Z))%string.

(** The largest [x] below the start with [10^x ≤ num / den]. *)
Fixpoint exponent10 (fuel : nat) (x num den : Z) : Z :=
  match fuel with
  | O => x
  | S fuel =>
      if (if 0 <=? x then 10 ^ x * den <=? num else den <=? num * 10 ^ (- x)) then x
      else exponent10 fuel (x - 1) num den
  end.

(** Trailing zeros of a fraction, and a point that nothing follows. *)
Fixpoint strip_zeros (s : string) : string :=
  match s with
  | EmptyString => EmptyString
  | String c s' =>
      match strip_zeros s' with
      | EmptyString => if (c =? "0")%char then EmptyString else String c EmptyString
      | t => String c t
      end
  end.
Definition fraction (s : string) : string :=
  match strip_zeros s with EmptyString => EmptyString | t => String "." t end.

(** [%.6g] of [num / den > 0], which is what [<<] prints: six significant digits,
    in exponent form outside [10^-4, 10^6). *)
Definition general6 (num den : Z) : string :=
  let x0 := exponent10 700 309 num den in
  let d0 := if 0 <=? 5 - x0 then round_half_even (num * 10 ^ (5 - x0)) den
            else round_half_even num (den * 10 ^ (x0 - 5)) in
  let '(x, d) := if d0 =? 1000000 then (x0 + 1, 100000) else (x0, d0) in
  let ds := pad "0" 6 (dec d) in
  if (x <? -4) || (6 <=? x) then
    (substring 0 1 ds ++ fraction (substring 1 5 ds) ++
     String "e" (String (if (x <? 0)%Z then "-" else "+")%char (pad "0" 2 (dec (Z.abs x)))))%string
  else if x <? 0 then
    (String "0" (fraction (repeat_char "0" (Z.to_nat (- x - 1)%Z) ++ ds)))%string
  else
    let i := S (Z.to_nat x) in (substring 0 i ds ++ fraction (substring i (6 - i) ds))%string.

(** A double with the given format for its magnitude. *)
Definition show_double (fmt : Z → Z → string) (zero : string) (x : double) : string :=
  let signed (s : bool) t := if s then String "-" t else t in
  match x with
  | S754_zero s => signed s zero
  | S754_infinity s => signed s "inf"%string
  | S754_nan => "nan"%string
  | S754_finite s m e => let '(num, den) := ratio m e in signed s (fmt num den)
  end.

(** [printf]'s [%.1f], and [out << x]. *)
Definition printf_1f : double → string := show_double fixed1 "0.0".
Definition ostream_double : double → string := show_double general6 "0".

Example printed :
  (ostream_double <$> [ddiv (of_u64 1) (of_u64 3); of_u64 1234567; of_u64 250; ddiv (of_u64 999) (of_u64 10);
                       ddiv (of_u64 1) (of_u64 30000); ddiv (of_u64 9999999) (of_u64 10); of_u64 0])
  = ["0.333333"; "1.23457e+06"; "250"; "99.9"; "3.33333e-05"; "1e+06"; "0"]%string ∧
  (printf_1f <$> [ddiv (of_u64 1) (of_u64 4); ddiv (of_u64 7) (of_u64 20); of_u64 1200])
  = ["0.2"; "0.3"; "1200.0"]%string.
Proof. split; vm_compute; reflexivity. Qed.

(** ** Printing, then reading *)

Ltac digit_cases d :=
  let H := fresh in
  assert (d = 0 ∨ d = 1 ∨ d = 2 ∨ d = 3 ∨ d = 4 ∨ d = 5 ∨ d = 6 ∨ d = 7 ∨ d = 8 ∨ d = 9) as H by lia;
  destruct H as [->|[->|[->|[->|[->|[->|[->|[->|[->| ->]]]]]]]]].

Lemma digit_char_of d : 0 ≤ d < 10 → digit_of (digit_char d) = Some d.
Proof.
  intros Hd. by digit_cases d.
Qed.

Lemma digits_dec_loop : ∀ fuel n acc a, 0 ≤ n < 2 ^ Z.of_nat fuel → (0 < fuel)%nat →
  ∃ k, 0 ≤ k ∧ digits (dec_loop fuel n acc) (Some a) = digits acc (Some (a * 10 ^ k + n)).
Proof.
  induction fuel as [|fuel IH]; intros n acc a Hn Hf; [lia|]. cbn [dec_loop].
  rewrite Nat2Z.inj_succ, Z.pow_succ_r in Hn by lia.
  pose proof (Z.mod_pos_bound n 10 ltac:(lia)) as Hm. pose proof (Z.div_mod n 10 ltac:(lia)) as Hdm.
  destruct (Z.ltb_spec n 10) as [Hlt|Hge].
  - exists 1. split; [lia|]. cbn [digits]. rewrite digit_char_of by lia. cbn. do 2 f_equal.
    rewrite Z.mod_small by lia. lia.
  - destruct fuel as [|fuel]; [cbn in Hn; lia|].
    assert (0 ≤ n / 10 < 2 ^ Z.of_nat (S fuel)) as Hq by (split; [apply Z.div_pos|apply Z.div_lt_upper_bound]; lia).
    destruct (IH (n / 10) (String (digit_char (n mod 10)) acc) a Hq ltac:(lia)) as (k & Hk & ->).
    exists (k + 1). split; [lia|]. cbn [digits]. rewrite digit_char_of by lia. cbn. unfold id.
    do 2 f_equal. rewrite Z.pow_add_r, Z.pow_1_r by lia. lia.
Qed.

(** A non-empty printed number starts with a digit. *)
Lemma dec_loop_head : ∀ fuel n acc, 0 ≤ n → (0 < fuel)%nat →
  ∃ d s, 0 ≤ d < 10 ∧ dec_loop fuel n acc = String (digit_char d) s.
Proof.
  induction fuel as [|fuel IH]; intros n acc Hn Hf; [lia|]. cbn [dec_loop].
  pose proof (Z.mod_pos_bound n 10 ltac:(lia)) as Hm.
  destruct (Z.ltb_spec n 10); [by eexists _, _|]. destruct fuel as [|fuel]; [by eexists _, _|].
  apply IH; [apply Z.div_pos; lia|lia].
Qed.

Lemma log2_fuel n : 0 ≤ n → 0 ≤ n < 2 ^ Z.of_nat (S (Z.to_nat (Z.log2 n))).
Proof.
  intros Hn. pose proof (Z.log2_nonneg n). rewrite Nat2Z.inj_succ, Z2Nat.id by done.
  destruct (Z.eq_dec n 0) as [->|]; [cbn; lia|]. pose proof (Z.log2_spec n). lia.
Qed.

Lemma parse_number_dec n : 0 ≤ n → parse_number (dec n) = Some (false, n).
Proof.
  intros Hn. destruct (digits_dec_loop _ n EmptyString 0 (log2_fuel n Hn) ltac:(lia)) as (k & Hk & Hd).
  unfold dec. destruct (dec_loop_head (S (Z.to_nat (Z.log2 n))) n EmptyString Hn ltac:(lia)) as (d & s & Hd' & Heq).
  rewrite Heq in *. cbn [digits default] in Hd. rewrite digit_char_of in Hd by done.
  assert (digits (String (digit_char d) s) None = Some n) as Hn'.
  { cbn [digits]. rewrite digit_char_of by done. cbn [default]. exact Hd. }
  assert (parse_number (String (digit_char d) s) = n ← digits (String (digit_char d) s) None; Some (false, n)) as ->
    by (by digit_cases d).
  by rewrite Hn'.
Qed.

(** The readers invert [dec] on their range. *)
Lemma stoull_dec n : is_u64 n → stoull (dec n) = Some n.
Proof.
  intros Hn. unfold stoull, stoul. rewrite parse_number_dec by word_lia. cbn.
  destruct (Z.ltb_spec n (2 ^ 64)); [|word_lia]. by rewrite wrap_unsigned_id.
Qed.

Lemma stoi_dec n : 0 ≤ n < 2 ^ 31 → stoi (dec n) = Some n.
Proof.
  intros Hn. unfold stoi, stoll. rewrite parse_number_dec by lia. cbn.
  destruct (Z.leb_spec (- 2 ^ 63) n), (Z.ltb_spec n (2 ^ 63)); try lia. cbn.
  destruct (Z.leb_spec (- 2 ^ 31) n), (Z.ltb_spec n (2 ^ 31)); try lia. done.
Qed.

Lemma atoi_dec n : 0 ≤ n < 2 ^ 31 → atoi (dec n) = Some n.
Proof.
  intros Hn. unfold atoi. rewrite parse_number_dec by lia.
  destruct (Z.leb_spec (- 2 ^ 31) n), (Z.ltb_spec n (2 ^ 31)); try lia. done.
Qed.

(** ** Which characters a printed number has *)

Fixpoint all_chars (p : ascii → bool) (s : string) : bool :=
  match s with EmptyString => true | String c s' => p c && all_chars p s' end.

Section Chars.
Context (p : ascii → bool).

Lemma all_chars_app s t : all_chars p (s ++ t) = all_chars p s && all_chars p t.
Proof.
  induction s as [|c s IH]; [done|]. change ((String c s ++ t)%string) with (String c (s ++ t)%string).
  cbn. by rewrite IH, andb_assoc.
Qed.

Lemma all_chars_repeat c k : p c = true → all_chars p (repeat_char c k) = true.
Proof. intros Hc. induction k as [|k IH]; cbn; [done|]. by rewrite Hc. Qed.

Lemma all_chars_pad c w s : p c = true → all_chars p s = true → all_chars p (pad c w s) = true.
Proof. intros Hc Hs. unfold pad. by rewrite all_chars_app, all_chars_repeat, Hs. Qed.

Lemma all_chars_substring : ∀ s n m, all_chars p s = true → all_chars p (substring n m s) = true.
Proof.
  induction s as [|c s IH]; intros [|n] [|m]; cbn; try done; intros [Hc Hs]%andb_true_iff.
  - by rewrite Hc, IH.
  - by apply IH.
  - by apply IH.
Qed.

Lemma all_chars_strip s : all_chars p s = true → all_chars p (strip_zeros s) = true.
Proof.
  induction s as [|c s IH]; cbn; [done|]. intros [Hc Hs]%andb_true_iff. specialize (IH Hs).
  destruct (strip_zeros s); cbn in *; [destruct (_ =? _)%char; cbn; by rewrite ?Hc|by rewrite Hc].
Qed.

Lemma all_chars_fraction s : p "."%char = true → all_chars p s = true → all_chars p (fraction s) = true.
Proof.
  intros Hd Hs. pose proof (all_chars_strip s Hs) as Ht. unfold fraction.
  destruct (strip_zeros s); [done|]. cbn [all_chars] in *. by rewrite Hd, Ht.
Qed.

Hypothesis Hdigits : ∀ d, 0 ≤ d < 10 → p (digit_char d) = true.

Lemma all_chars_dec_loop : ∀ fuel n acc, all_chars p acc = true → all_chars p (dec_loop fuel n acc) = true.
Proof.
  induction fuel as [|fuel IH]; intros n acc Ha; cbn; [done|].
  assert (p (digit_char (n mod 10)) = true) as Hd by (apply Hdigits, Z.mod_pos_bound; lia).
  destruct (n <? 10); [|apply IH]; cbn; by rewrite Hd, Ha.
Qed.

Lemma all_chars_dec n : all_chars p (dec n) = true.
Proof. by apply all_chars_dec_loop. Qed.

Hypothesis Hother : all_chars p ".0e-+infa" = true.

Lemma all_chars_ostream x : all_chars p (ostream_double x) = true.
Proof.
  cbn in Hother. repeat (apply andb_true_iff in Hother as [?H Hother]).
  assert (∀ num den, all_chars p (general6 num den) = true) as Hg.
  { intros num den. unfold general6. destruct (if _ =? 1000000 then _ else _) as [x' d].
    assert (all_chars p (pad "0" 6 (dec d)) = true) as Hds by (apply all_chars_pad; [done|apply all_chars_dec]).
    assert (∀ n m, all_chars p (fraction (substring n m (pad "0" 6 (dec d)))) = true) as Hf
      by (intros n m; by apply all_chars_fraction, all_chars_substring).
    assert (all_chars p (pad "0" 2 (dec (Z.abs x'))) = true) as Hx by (apply all_chars_pad; [done|apply all_chars_dec]).
    destruct (_ || _); [|destruct (x' <? 0)].
    - rewrite !all_chars_app, all_chars_substring, Hf by done. cbn [all_chars]. rewrite Hx.
      destruct (x' <? 0); repeat (apply andb_true_iff; split); done.
    - cbn [all_chars]. apply andb_true_iff. split; [done|]. apply all_chars_fraction; [done|].
      by rewrite all_chars_app, all_chars_repeat, Hds.
    - by rewrite all_chars_app, all_chars_substring, Hf. }
  unfold ostream_double, show_double. destruct x as [s|s| |s m e]; [| | |destruct (ratio m e)];
    try destruct s; cbn [all_chars]; rewrite ?Hg; repeat (apply andb_true_iff; split); done.
Qed.

End Chars.
