(* ===== verification/GatewayMain.v ===== *)
(** * GatewayMain: how the gateway process starts

    [main] of [src/gateway_main.cpp] up to its loop, with
    [GatewayServer::start]: the arguments, the two files, the listening socket,
    and every early return.  What the system calls and the files answer are
    arguments.  The loop and the shutdown are [Process]. *)

From Stdlib Require Import String.
From S2P Require Import Prelude Types SpscRing BroadcastRing Consumer Sequencer MatchingEngine EngineProofs EngineProperties Wal Db System Threads Process ProcessProofs ProcessProgress ProcessProperties Float Text.

#[local] Open Scope Z_scope.

(** ** GatewayServer::start *)

(** The results of [socket], [bind], [listen] and [kqueue]. *)
Record ListenCalls := mkListen { lc_socket : Z; lc_bind : Z; lc_listen : Z; lc_kqueue : Z }.

(** [listen_fd_], [kq_] and the descriptors registered for reading. *)
Record Server := mkServer { sv_listen_fd : Z; sv_kq : Z; sv_reads : list Z }.

Definition server_start (c : ListenCalls) : bool * Server :=
  let fd := lc_socket c in
  if fd <? 0 then (false, mkServer fd (-1) [])
  else if lc_bind c <? 0 then (false, mkServer fd (-1) [])
  else if lc_listen c <? 0 then (false, mkServer fd (-1) [])
  else
    let kq := lc_kqueue c in
    if kq <? 0 then (false, mkServer fd kq []) else (true, mkServer fd kq [fd]).

(** ** main *)

(** [port], [wal_path] and [db_path] from the arguments; [None] when [atoi] is
    undefined. *)
Definition gateway_args (argv : list string) : option (Z * string * string) :=
  port ← match argv with [] => Some 9000 | p :: _ => z ← atoi p; Some (u16 z) end;
  Some (port, default "wal/events.bin"%string (argv !! 1%nat), default "db/hft_lob.db"%string (argv !! 2%nat)).

(** [main] returns; runs the shutdown sequence and returns; or enters its loop. *)
Inductive GwMain (R : Type) :=
| GmReturn (code : Z)
| GmStop (code : Z) (rn : R)
| GmListen (port : Z) (sv : Server) (rn : R).
Arguments GmReturn {R} _.
Arguments GmStop {R} _ _.
Arguments GmListen {R} _ _ _.

Section GatewayMain.
Context {Q D : Type} `{FifoLaws Q OutboundAck} `{SqliteFaultLaws D}.
Context (PoolCapacity RingCapacity MaxConsumers kMaxSpins : nat) (now_ns : Z → Z).
Context (fsync_every_n_ fsync_interval_ batch_every_n_ batch_interval_ : Z).
Context (wal_clock db_clock wall : nat → Z) (dflt : SequencedEvent) (out : AckOut Q).

(** The log's contents and whether it opens, and the database, by path. *)
Context (wal_file : string → list SequencedEvent) (wal_ok : string → bool) (db_file : string → option D).

Definition gateway_main (calls : ListenCalls) (argv : list string)
    : option (GwMain (Running (BroadcastRing SequencedEvent) Q D)) :=
  '(port, wal_path, db_path) ← gateway_args argv;
  r ← system_start PoolCapacity wal_clock db_clock RingCapacity MaxConsumers dflt out
        (wal_file wal_path) (wal_ok wal_path) (db_file db_path);
  match r with
  | inr _ => Some (GmReturn 1)
  | inl (_, _, _, rn) =>
      let '(ok, sv) := server_start calls in
      if ok : bool then Some (GmListen port sv rn) else Some (GmStop 1 rn)
  end.

Hypothesis Hpow : pow2_capacity RingCapacity.
Hypothesis Hmax : (3 ≤ MaxConsumers)%nat ∧ Z.of_nat MaxConsumers < 2 ^ 64.
Hypothesis Hnow : ∀ k, is_u64 (now_ns k).
Hypothesis Hcap : Z.of_nat PoolCapacity < 2 ^ 31.
Hypothesis Hfsync : 0 < fsync_every_n_ < 2 ^ 64.
Hypothesis Hbatch : 0 < batch_every_n_ < 2 ^ 64.

#[local] Instance gm_ring : Broadcast (BroadcastRing SequencedEvent) SequencedEvent :=
  bcast_broadcast SequencedEvent RingCapacity MaxConsumers.
#[local] Instance gm_ring_laws : BroadcastLaws (BroadcastRing SequencedEvent) SequencedEvent :=
  bcast_broadcast_laws SequencedEvent RingCapacity MaxConsumers Hpow.

Context {Qi : Type} `{FifoLaws Qi SequencedEvent}.
Context (inputs : list Qi) (acks0 fills0 : Q).
Hypothesis Hinputs : length inputs = producer_count ∧ Forall (λ q, fifo_rep q []) inputs.
Hypothesis Hacks : fifo_rep acks0 [] ∧ fifo_rep fills0 [].

Abbreviation step := (proc_step kMaxSpins now_ns fsync_every_n_ fsync_interval_ batch_every_n_ batch_interval_
  wal_clock db_clock wall).

(** With no order accepted, nothing was published. *)
Lemma nothing_published old T0 rn (s : Proc Qi Q (BroadcastRing SequencedEvent) D) :
  started PoolCapacity kMaxSpins fsync_every_n_ batch_every_n_ wall out old T0 inputs rn acks0 fills0 →
  rtc step (proc_init PoolCapacity inputs rn acks0 fills0) s → accepted_orders s = [] → below_limit 0 →
  published s = [].
Proof.
  intros Hst Hr Hacc Hlim.
  destruct (reach_inv_accepted PoolCapacity kMaxSpins now_ns fsync_every_n_ fsync_interval_ batch_every_n_
              batch_interval_ wal_clock db_clock wall Hnow Hcap Hfsync Hbatch old T0 out inputs rn acks0 fills0 s
              Hst Hr) as (qs & l0 & l1 & l2 & acks & fills & Hinv); [by rewrite Hacc|].
  destruct (pv_gateway _ _ _ _ _ _ _ _ _ _ _ _ _ _ Hinv) as [l Hl].
  pose proof (published_prefix _ _ _ (pv_sys _ _ _ _ _ _ _ _ _ _ _ _ _ _ Hinv) Hl) as Hp.
  unfold accepted_orders in Hacc. rewrite Hl in Hacc. cbn in Hacc. subst l.
  apply prefix_nil_inv in Hp. rewrite fmap_app in Hp. apply app_nil in Hp as [Hp _].
  by destruct (published s) eqn:E; [|unfold published in E; rewrite E in Hp].
Qed.

Lemma proc_init_accepted (rn : Running (BroadcastRing SequencedEvent) Q D) :
  length inputs = producer_count → accepted_orders (proc_init PoolCapacity inputs rn acks0 fills0) = [].
Proof. intros Hl. unfold accepted_orders. cbn. by rewrite Hl. Qed.

(** A gateway that cannot listen stops cleanly.  When both files open but
    the server does not start, [main] runs the shutdown sequence and returns 1.
    No order has been accepted, so however the threads interleave, once [main]
    has returned the log holds what it held before and the database the rows it
    held before; and the shutdown can always complete, although all four threads
    were already running, unless SQLite refuses to commit. *)
Theorem gateway_start_fails_clean calls argv port wal_path db_path d T0 :
  gateway_args argv = Some (port, wal_path, db_path) → wal_ok wal_path = true →
  db_file db_path = Some d → sq_rep d T0 None → (server_start calls).1 = false → (0 < RingCapacity)%nat →
  gateway_main calls argv = None ∧ (sq_schema d = None ∨ ∃ d', sq_schema d = Some d' ∧ sq_begin d' = None) ∨
  ∃ rn, gateway_main calls argv = Some (GmStop 1 rn) ∧
    let init := proc_init PoolCapacity inputs rn acks0 fills0 in
    (∃ s, rtc step init s ∧
      (p_main s = Returned ∧ accepted_orders s = [] ∨
       db_throws batch_every_n_ batch_interval_ db_clock wall s ∧ db_refused (p_db s))) ∧
    ∀ s, rtc step init s → accepted_orders s = [] → p_main s = Returned →
      wal_durable (w_wal (p_wal s)) = wal_file wal_path ∧ wal_unsynced (w_wal (p_wal s)) = [] ∧
      ∃ d', d_file (p_db s) = Some d' ∧ sq_rep d' T0 None.
Proof.
  intros Hargs Hwal Hdb Hd Hsrv Hroom. destruct Hmax as [HM3 HM].
  pose proof (system_start_inv PoolCapacity kMaxSpins (λ _ q, q) fsync_every_n_ batch_every_n_ wal_clock db_clock wall
              Hfsync Hbatch RingCapacity MaxConsumers dflt out (wal_file wal_path) d T0 HM3 HM Hd) as Hs.
  unfold gateway_main. rewrite Hargs. cbn [mbind option_bind]. rewrite Hwal, Hdb.
  destruct (system_start _ _ _ _ _ _ _ _ _ _) as [r|]; cbn [mbind option_bind]; [right|by left].
  destruct Hs as (rn & -> & Hinv). exists rn. assert (below_limit 0) as Hlim by (unfold below_limit; cbn; lia).
  assert (started PoolCapacity kMaxSpins fsync_every_n_ batch_every_n_ wall out (wal_file wal_path) T0
            inputs rn acks0 fills0) as Hst by (split; [done|done|by exists (λ _ q, q)]).
  split; [|split].
  - by destruct (server_start calls) as [[] sv].
  - destruct (shutdown_possible PoolCapacity kMaxSpins now_ns fsync_every_n_ fsync_interval_ batch_every_n_ batch_interval_
                wal_clock db_clock wall Hnow Hcap Hfsync Hbatch out (wal_file wal_path) T0 inputs rn acks0 fills0
                (proc_init PoolCapacity inputs rn acks0 fills0) Hst ltac:(apply rtc_refl) Hroom) as (s & Hr & Hend);
      [by rewrite (proc_init_accepted rn (proj1 Hinputs))|].
    rewrite (proc_init_accepted rn (proj1 Hinputs)) in Hend. by exists s.
  - intros s Hr Hacc Hret. pose proof (nothing_published _ _ _ _ Hst Hr Hacc Hlim) as Hpub.
    destruct (shutdown_facts PoolCapacity kMaxSpins now_ns fsync_every_n_ fsync_interval_ batch_every_n_ batch_interval_
                wal_clock db_clock wall Hnow Hcap Hfsync Hbatch out (wal_file wal_path) T0 inputs rn acks0 fills0 s Hst Hr)
      as (_ & _ & Heng & Hdur & Huns & _ & (d' & T & Hfile & Hrep & Hk & _) & (acks & _ & Hsub & Hsub' & _)); [by rewrite Hpub|done|].
    rewrite Hpub in *. cbn in Heng. injection Heng as Heng. rewrite <-Heng in Hsub. cbn in Hsub.
    apply sublist_nil_r in Hsub. rewrite Hsub in Hsub'. apply sublist_nil_r in Hsub'. rewrite Hsub' in Hk.
    split_and!; [by rewrite app_nil_r in Hdur|done|]. exists d'. split; [done|].
    destruct Hk as [(ro & Ho & Hso & _) (re & He & Hse & _)]. cbn in Hso, Hse.
    apply sublist_nil_r in Hso, Hse. subst ro re. rewrite app_nil_r in Ho, He. destruct T, T0. cbn in *. by subst.
Qed.

End GatewayMain.

(** The port is taken: [bind] fails. *)
Section DemoStart.
#[local] Instance gm_demo_acks : Fifo (SpscRing OutboundAck) OutboundAck := spsc_fifo OutboundAck 4.
#[local] Instance gm_demo_acks_laws : FifoLaws (SpscRing OutboundAck) OutboundAck :=
  spsc_fifo_laws OutboundAck 4 pow2_capacity_4.
#[local] Instance gm_demo_queue : Fifo (SpscRing SequencedEvent) SequencedEvent := spsc_fifo SequencedEvent 4.
#[local] Instance gm_demo_queue_laws : FifoLaws (SpscRing SequencedEvent) SequencedEvent :=
  spsc_fifo_laws SequencedEvent 4 pow2_capacity_4.

Lemma gateway_start_fails_clean_witness :
  ∃ rn, gateway_main 4 2 8 demo_clock demo_clock demo_event demo_out (λ _, []) (λ _, true) (λ _, Some demo_file)
          (mkListen 3 (-1) 0 4) ["9001"%string] = Some (GmStop 1 rn).
Proof.
  destruct (gateway_start_fails_clean 4 2 8 3 pr_clock 2 50 2 50 demo_clock demo_clock demo_clock demo_event demo_out
              (λ _, []) (λ _, true) (λ _, Some demo_file) pow2_capacity_2 ltac:(lia) pr_clock_fits ltac:(lia)
              ltac:(lia) ltac:(lia) pr_inputs pr_acks pr_acks) with (calls := mkListen 3 (-1) 0 4)
    (argv := ["9001"%string]) (port := 9001) (wal_path := "wal/events.bin"%string)
    (db_path := "db/hft_lob.db"%string) (d := demo_file) (T0 := mkTables [] []) as [[Hnone _]|(rn & Hmain & _)].
  - split; [reflexivity|]. apply Forall_replicate. exists [], 0%nat.
    split; [by apply spsc_new_inv, pow2_capacity_4|done].
  - split; exists [], 0%nat; (split; [by apply spsc_new_inv, pow2_capacity_4|done]).
  - reflexivity.
  - reflexivity.
  - reflexivity.
  - apply mem_rep.
  - reflexivity.
  - lia.
  - vm_compute in Hnone. discriminate.
  - exists rn. exact Hmain.
Defined.

End DemoStart.
