(* ===== verification/Rounding.v ===== *)
(** * Rounding: how far a computed double is from the exact value

    A double is the rational [m * 2^e]; conversion of small integers is exact,
    and a product or quotient in the normal range is off by a relative error of
    at most [2^-52]. *)

From Stdlib Require Import SpecFloat QArith Qpower Lqa.
From S2P Require Import Prelude Float.

#[local] Open Scope Z_scope.

(** ** One rounding, in integers *)

Lemma small_digits m : 0 < m ≤ 2 ^ 53 → m = 2 ^ 53 ∨ Zdigits2 m ≤ 53.
Proof.
  intros Hm. destruct (Z.eq_dec m (2 ^ 53)) as [->|Hne]; [by left|right].
  rewrite Zdigits2_log2 by lia. assert (Z.log2 m < 53) by (apply Z.log2_lt_pow2; lia). lia.
Qed.

(** Rounding up to [2^53] is the only carry, and it loses nothing. *)
Lemma carry_exact m e :
  0 < m ≤ 2 ^ 53 → -1074 ≤ e → let k := Z.max 0 (fexp64 (Zdigits2 m + e) - e) in
  m = m / 2 ^ k * 2 ^ k ∧ 0 ≤ k ≤ 1.
Proof.
  intros Hm He k. destruct (small_digits m Hm) as [->|Hd].
  - assert (k = 1) as -> by (unfold k, fexp, emin; change (Zdigits2 (2 ^ 53)%Z) with 54%Z; lia). done.
  - assert (k = 0) as -> by (unfold k, fexp, emin; lia). rewrite Z.div_1_r. lia.
Qed.

Lemma digits_bound m : 0 < m → 1 ≤ Zdigits2 m ∧ 2 ^ (Zdigits2 m - 1) ≤ m < 2 ^ Zdigits2 m.
Proof. destruct m as [|p|p]; [lia| |lia]. intros _. split; [cbn; lia|apply digits2_bound]. Qed.

(** In units of [2^e]: the mantissa [m] is rounded to within [2^k], where [k] is
    the number of its excess bits. *)
Lemma round_near m e l :
  0 < m → -1021 ≤ Zdigits2 m + e ≤ 900 → let k := Z.max 0 (Zdigits2 m - 53) in
  ∃ m' j, 0 ≤ j ∧ binary_round_aux 53 1024 false m e l = S754_finite false m' (e + j) ∧
    m + 1 - 2 ^ k ≤ Zpos m' * 2 ^ j ≤ m + 2 ^ k ∧ (l = loc_Exact → (2 ^ k | m) → Zpos m' * 2 ^ j = m).
Proof.
  intros Hm Hr k. unfold binary_round_aux. destruct (digits_bound m Hm) as [Hd Hb].
  destruct (shr_fexp_spec m e l ltac:(lia)) as (x & Hshr & Hx & Hex).
  assert (Z.max 0 (fexp64 (Zdigits2 m + e) - e) = k) as Hk by (unfold k, fexp, emin; lia).
  rewrite Hk in Hshr, Hx, Hex. rewrite Hshr. destruct (round_bounds x) as [[Hr1 Hr2] Hr3].
  set (m1 := round_nearest_even _ _) in *. assert (0 < 2 ^ k) by (unfold k; lia).
  pose proof (Z.div_mod m (2 ^ k) ltac:(lia)) as Hdm. pose proof (Z.mod_pos_bound m (2 ^ k) ltac:(lia)) as Hmod.
  assert (0 < m / 2 ^ k < 2 ^ 53) as Hq.
  { assert (2 ^ Zdigits2 m ≤ 2 ^ (53 + k)) as Hle by (apply Z.pow_le_mono_r; unfold k; lia).
    rewrite (Z.pow_add_r 2 53 k) in Hle by (unfold k; lia). split; [|apply Z.div_lt_upper_bound; lia].
    apply Z.div_str_pos. split; [lia|]. destruct (Z.eq_dec k 0) as [->|]; [lia|].
    apply Z.le_trans with (2 ^ (Zdigits2 m - 1)); [apply Z.pow_le_mono_r; unfold k; lia|lia]. }
  destruct (shr_fexp_spec m1 (e + k) loc_Exact ltac:(lia)) as (x2 & Hshr2 & Hx2 & _). rewrite Hshr2.
  destruct (carry_exact m1 (e + k) ltac:(lia) ltac:(unfold k; lia)) as [Hm1 Hk2].
  set (k2 := Z.max 0 (fexp64 (Zdigits2 m1 + (e + k)) - (e + k))) in *.
  rewrite Hx2. destruct (m1 / 2 ^ k2) as [|p|p] eqn:Hp; [lia| |lia].
  destruct (Z.leb_spec (e + k + k2) (1024 - 53)); [|unfold k in *; lia].
  exists p, (k + k2). split_and!; [unfold k; lia|by rewrite Z.add_assoc|..].
  - rewrite Z.pow_add_r by (unfold k; lia). nia.
  - rewrite Z.pow_add_r by (unfold k; lia). nia.
  - intros Hl [c Hc]. assert (m / 2 ^ k * 2 ^ k = m) as Hm' by (rewrite Hc, Z.div_mul by lia; done).
    rewrite Z.add_comm, Z.pow_add_r, Z.mul_assoc, <-Hm1, Hr3, Hx by (done || (unfold k; lia) || (apply Hex; done)). done.
Qed.

(** ** One rounding, relatively *)

#[local] Open Scope Q_scope.

(** The value of a positive double. *)
Definition dval (m : positive) (e : Z) : Q := inject_Z (Zpos m) * 2 ^ e.

Definition eps : Q := 1 # 4503599627370496.

(** [a] approximates [v] with a relative error of at most [2^-52]. *)
Definition near (a v : Q) : Prop := v - v * eps <= a <= v + v * eps.

#[export] Instance near_proper : Proper (Qeq ==> Qeq ==> iff) near.
Proof. intros a a' Ha v v' Hv. unfold near. by rewrite Ha, Hv. Qed.

Lemma pow2_pos e : 0 < 2 ^ e.
Proof. by apply Qpower_0_lt. Qed.

Lemma inject_pow2 n : (0 ≤ n)%Z → inject_Z (2 ^ n) == 2 ^ n.
Proof. intros Hn. by rewrite Zpower_Qpower. Qed.

Lemma pow2_add a b : 2 ^ (a + b) == 2 ^ a * 2 ^ b.
Proof. by apply Qpower_plus. Qed.

(** Rounding the value [v] that lies in [[m, m + 1) * 2^e]. *)
Lemma round_rel v m e l :
  (0 < m)%Z → (-1021 ≤ Zdigits2 m + e ≤ 900)%Z →
  inject_Z m * 2 ^ e <= v → v < inject_Z (m + 1) * 2 ^ e →
  (53 ≤ Zdigits2 m)%Z ∨ (l = loc_Exact ∧ v == inject_Z m * 2 ^ e) →
  ∃ m' e', binary_round_aux 53 1024 false m e l = S754_finite false m' e' ∧ near (dval m' e') v.
Proof.
  intros Hm Hr H1 H2 Hor. destruct (round_near m e l Hm Hr) as (m' & j & Hj & -> & Hb & Hx).
  set (k := Z.max 0 (Zdigits2 m - 53)) in *. exists m', (e + j)%Z. split; [done|]. unfold near, dval.
  assert (inject_Z (Zpos m') * 2 ^ (e + j) == inject_Z (Zpos m' * 2 ^ j) * 2 ^ e) as ->.
  { rewrite inject_Z_mult, inject_pow2, pow2_add by done. ring. }
  pose proof (pow2_pos e) as Hu. set (u := 2 ^ e) in *. set (A := (Zpos m' * 2 ^ j)%Z) in *.
  destruct (decide (53 ≤ Zdigits2 m)%Z) as [Hd|Hd].
  - assert (2 ^ k * 2 ^ 52 ≤ m)%Z as Hk.
    { rewrite <-Z.pow_add_r by (unfold k; lia). replace (k + 52)%Z with (Zdigits2 m - 1)%Z by (unfold k; lia).
      destruct m as [|p|p]; [lia|apply digits2_bound|lia]. }
    assert (inject_Z (m + 1) - inject_Z m * eps <= inject_Z A <= inject_Z m + inject_Z m * eps) as HA.
    { assert (inject_Z (2 ^ k) <= inject_Z m * eps) as Hke.
      { unfold eps, Qle, Qmult, inject_Z. cbn -[Z.pow Z.mul]. lia. }
      assert (inject_Z (m + 1 - 2 ^ k) <= inject_Z A <= inject_Z (m + 2 ^ k)) as [Ha Hb'].
      { rewrite <-!Zle_Qle. lia. }
      unfold Z.sub in Ha. rewrite (inject_Z_plus (m + 1)), inject_Z_opp in Ha. rewrite inject_Z_plus in Hb'. lra. }
    unfold eps in *. nra.
  - destruct Hor as [|[Hl Hv]]; [done|]. assert (A = m) as ->.
    { apply Hx; [done|]. replace k with 0%Z by (unfold k; lia). apply Z.divide_1_l. }
    rewrite Hv. unfold eps. assert (0 < inject_Z m) by (rewrite <-(Zlt_Qlt 0); lia). nra.
Qed.

(** ** Products and quotients *)

Lemma digits_mul a b :
  (Zpos (digits2_pos a) + Zpos (digits2_pos b) - 1 ≤ Zdigits2 (Zpos (a * b))
     ≤ Zpos (digits2_pos a) + Zpos (digits2_pos b))%Z.
Proof.
  cbn [Zdigits2]. rewrite !digits2_log2, Pos2Z.inj_mul.
  pose proof (Z.log2_mul_below (Zpos a) (Zpos b) ltac:(lia) ltac:(lia)).
  pose proof (Z.log2_mul_above (Zpos a) (Zpos b) ltac:(lia) ltac:(lia)). lia.
Qed.

Lemma dval_pos m e : 0 < dval m e.
Proof. unfold dval. pose proof (pow2_pos e). assert (0 < inject_Z (Zpos m)) by (by rewrite <-(Zlt_Qlt 0)). nra. Qed.

Lemma dmul_near ma ea mb eb :
  (-1020 ≤ Zpos (digits2_pos ma) + ea + (Zpos (digits2_pos mb) + eb) ≤ 900)%Z →
  ∃ m e, dmul (S754_finite false ma ea) (S754_finite false mb eb) = S754_finite false m e ∧
    near (dval m e) (dval ma ea * dval mb eb).
Proof.
  intros Hr. pose proof (digits_mul ma mb). unfold dmul, SFmul. cbn [xorb].
  assert (dval ma ea * dval mb eb == inject_Z (Zpos (ma * mb)) * 2 ^ (ea + eb)) as Hv.
  { unfold dval. rewrite Pos2Z.inj_mul, inject_Z_mult, pow2_add. ring. }
  apply round_rel; [lia|lia|rewrite Hv; apply Qle_refl| |by right].
  rewrite Hv, inject_Z_plus. pose proof (pow2_pos (ea + eb)). change (inject_Z 1) with 1. lra.
Qed.

(** The digits of a quotient. *)
Lemma digits_div M N :
  (0 < N ≤ M)%Z → (Zdigits2 M - Zdigits2 N ≤ Zdigits2 (M / N) ≤ Zdigits2 M - Zdigits2 N + 1)%Z.
Proof.
  intros HMN. assert (0 < M / N)%Z as Hq by (apply Z.div_str_pos; lia).
  pose proof (Z.div_mod M N ltac:(lia)) as Hdm. pose proof (Z.mod_pos_bound M N ltac:(lia)) as Hmod.
  destruct (digits_bound M ltac:(lia)) as [H1 Hb1]. destruct (digits_bound N ltac:(lia)) as [H2 Hb2].
  destruct (digits_bound (M / N) Hq) as [H3 Hb3]. set (q := (M / N)%Z) in *.
  set (a := Zdigits2 M) in *. set (b := Zdigits2 N) in *. set (c := Zdigits2 q) in *. split.
  - assert (2 ^ (a - 1) < 2 ^ (b + c))%Z as Hp%Z.pow_lt_mono_r_iff; [|lia..].
    rewrite (Z.pow_add_r 2 b c) by lia. apply Z.le_lt_trans with M; [lia|].
    apply Z.lt_le_trans with (N * (q + 1))%Z; [lia|]. apply Z.mul_le_mono_nonneg; lia.
  - assert (2 ^ (b - 1 + (c - 1)) < 2 ^ a)%Z as Hp%Z.pow_lt_mono_r_iff; [|lia..].
    rewrite (Z.pow_add_r 2 (b - 1) (c - 1)) by lia. apply Z.le_lt_trans with M; [|lia].
    apply Z.le_trans with (N * q)%Z; [|lia]. apply Z.mul_le_mono_nonneg; lia.
Qed.

Lemma digits_shift m s : (0 ≤ s)%Z → Zdigits2 (Zpos m * 2 ^ s) = (Zpos (digits2_pos m) + s)%Z.
Proof.
  intros Hs. rewrite Zdigits2_log2 by lia. rewrite Z.log2_mul_pow2 by lia. rewrite digits2_log2. lia.
Qed.

Lemma ddiv_near ma ea mb eb :
  (-1020 ≤ Zpos (digits2_pos ma) + ea - (Zpos (digits2_pos mb) + eb) ≤ 800)%Z →
  ∃ m e, ddiv (S754_finite false ma ea) (S754_finite false mb eb) = S754_finite false m e ∧
    near (dval m e) (dval ma ea / dval mb eb).
Proof.
  intros Hr. unfold ddiv, SFdiv, SFdiv_core_binary. cbn [xorb Zdigits2].
  set (X := (Zpos (digits2_pos ma) + ea - (Zpos (digits2_pos mb) + eb))%Z) in *.
  set (e' := Z.min (fexp64 X) (ea - eb)). set (s := (ea - eb - e')%Z). assert (0 ≤ s)%Z as Hs by lia.
  assert (match s with Z0 => Zpos ma | Zpos _ => Z.shiftl (Zpos ma) s | Zneg _ => 0%Z end
          = (Zpos ma * 2 ^ s)%Z) as ->.
  { destruct s eqn:Hq; [lia|by rewrite Z.shiftl_mul_pow2|lia]. }
  set (M := (Zpos ma * 2 ^ s)%Z). pose proof (digits_shift ma s Hs) as HdM. fold M in HdM.
  assert (fexp64 X = X - 53)%Z as Hf by (unfold fexp, emin; lia).
  assert (Zpos mb ≤ M)%Z as HM.
  { pose proof (digits2_bound mb). destruct (digits_bound M ltac:(unfold M; lia)) as [_ HbM].
    apply Z.le_trans with (2 ^ Zpos (digits2_pos mb))%Z; [lia|].
    apply Z.le_trans with (2 ^ (Zdigits2 M - 1))%Z; [|lia]. apply Z.pow_le_mono_r; lia. }
  pose proof (digits_div M (Zpos mb) ltac:(lia)) as Hdq. cbn [Zdigits2] in Hdq.
  pose proof (Z.div_mod M (Zpos mb) ltac:(lia)) as Hdm. pose proof (Z.mod_pos_bound M (Zpos mb) ltac:(lia)) as Hmod.
  assert (0 < M / Zpos mb)%Z as Hq by (apply Z.div_str_pos; lia).
  assert (dval ma ea / dval mb eb == inject_Z M / inject_Z (Zpos mb) * 2 ^ e') as Hv.
  { unfold dval, M. rewrite inject_Z_mult, inject_pow2 by done.
    assert (2 ^ ea == 2 ^ s * 2 ^ e' * 2 ^ eb) as ->.
    { rewrite <-!pow2_add. by replace (s + e' + eb)%Z with ea by (unfold s; lia). }
    assert (~ 2 ^ eb == 0) by (by apply Qpower_not_0). field. done. }
  pose proof (round_rel (dval ma ea / dval mb eb) (M / Zpos mb) e' (new_location (Zpos mb) (M mod Zpos mb))) as Hround.
  unfold Z.div, Z.modulo in *. destruct (Z.div_eucl M (Zpos mb)) as [q r].
  assert (0 < inject_Z (Zpos mb)) as Hmb by (by rewrite <-(Zlt_Qlt 0)).
  assert (inject_Z M == inject_Z (Zpos mb) * inject_Z q + inject_Z r) as HM'.
  { by rewrite <-inject_Z_mult, <-inject_Z_plus, <-Hdm. }
  assert (0 <= inject_Z r < inject_Z (Zpos mb)) as Hr' by (split; [rewrite <-(Zle_Qle 0)|rewrite <-Zlt_Qlt]; lia).
  pose proof (pow2_pos e'). apply Hround; [done|unfold s in *; lia| | |left; unfold s in *; lia]; rewrite Hv.
  - apply Qmult_le_compat_r; [|lra]. apply Qle_shift_div_l; [done|]. lra.
  - apply Qmult_lt_compat_r; [done|]. apply Qlt_shift_div_r; [done|]. rewrite inject_Z_plus. change (inject_Z 1) with 1. lra.
Qed.

(** ** Integers in and out *)

Lemma dval_digits m e :
  2 ^ (Zpos (digits2_pos m) + e - 1) <= dval m e /\ dval m e < 2 ^ (Zpos (digits2_pos m) + e).
Proof.
  pose proof (digits2_bound m) as [H1 H2]. set (d := Zpos (digits2_pos m)) in *. unfold dval. pose proof (pow2_pos e).
  replace (d + e - 1)%Z with (d - 1 + e)%Z by lia. rewrite (pow2_add (d - 1) e), (pow2_add d e), <-(inject_pow2 (d - 1)), <-(inject_pow2 d) by lia.
  split; [apply Qmult_le_compat_r; [by rewrite <-Zle_Qle|lra]|apply Qmult_lt_compat_r; [done|by rewrite <-Zlt_Qlt]].
Qed.

(** The exponent range of a double between two powers of two. *)
Lemma dval_range m e a b :
  2 ^ a <= dval m e → dval m e < 2 ^ b → (a < Zpos (digits2_pos m) + e ≤ b)%Z.
Proof.
  intros Ha Hb. destruct (dval_digits m e) as [H1 H2].
  assert (2 ^ a < 2 ^ (Zpos (digits2_pos m) + e)) as Hl by lra.
  assert (2 ^ (Zpos (digits2_pos m) + e - 1) < 2 ^ b) as Hu by lra.
  apply Qpower_lt_compat_l_inv in Hl; [|done]. apply Qpower_lt_compat_l_inv in Hu; [|done]. lia.
Qed.

Lemma of_u64_val n : (0 < n < 2 ^ 53)%Z → ∃ m e, of_u64 n = S754_finite false m e ∧ dval m e == inject_Z n.
Proof.
  intros Hn. destruct (of_u64_small n Hn) as (m & e & -> & He & Hm). exists m, e. split; [done|].
  unfold dval. rewrite Hm, inject_Z_mult, inject_pow2, <-Qmult_assoc, <-pow2_add by lia.
  replace (- e + e)%Z with 0%Z by lia. change (2 ^ 0) with 1. ring.
Qed.

Lemma trunc_bounds m e :
  let t := trunc_scaled (Zpos m) e in (0 ≤ t)%Z ∧ inject_Z t <= dval m e < inject_Z t + 1.
Proof.
  unfold trunc_scaled, dval. destruct (Z.leb_spec 0 e) as [He|He].
  - assert (0 < 2 ^ e)%Z by lia. split; [nia|]. rewrite inject_Z_mult, inject_pow2 by done. lra.
  - set (P := (2 ^ (- e))%Z). assert (0 < P)%Z by (unfold P; lia).
    pose proof (Z.div_mod (Zpos m) P ltac:(lia)) as Hdm. pose proof (Z.mod_pos_bound (Zpos m) P ltac:(lia)) as Hmod.
    split; [apply Z.div_pos; lia|]. assert (2 ^ e == / inject_Z P) as ->.
    { unfold P. rewrite inject_pow2 by lia. by rewrite <-Qpower_opp, Z.opp_involutive. }
    assert (0 < inject_Z P) as HP by (rewrite <-(Zlt_Qlt 0); lia). change (?x * / ?y) with (x / y).
    split; [apply Qle_shift_div_l; [done|]|apply Qlt_shift_div_r; [done|]].
    + rewrite <-inject_Z_mult, <-Zle_Qle. lia.
    + change 1 with (inject_Z 1). rewrite <-inject_Z_plus, <-inject_Z_mult, <-Zlt_Qlt. lia.
Qed.

Lemma trunc_val m e b :
  dval m e <= inject_Z b → (b < 2 ^ 64)%Z →
  ∃ t, to_u64 (S754_finite false m e) = Some t ∧ inject_Z t <= dval m e < inject_Z t + 1.
Proof.
  intros Hle Hb. cbn [to_u64]. destruct (trunc_bounds m e) as [_ Ht]. set (t := trunc_scaled (Zpos m) e) in *.
  exists t. assert (t ≤ b)%Z by (rewrite Zle_Qle; lra). destruct (Z.ltb_spec t (2 ^ 64)); [done|lia].
Qed.

(** Multiplying an integer by one is exact. *)
Lemma dmul_one c : (0 ≤ c < 2 ^ 53)%Z → to_u64 (dmul (of_u64 c) (of_u64 1)) = Some c.
Proof.
  intros Hc. destruct (Z.eq_dec c 0) as [->|Hc0]; [done|].
  destruct (of_u64_small c ltac:(lia)) as (m & e & -> & He & Hm).
  change (of_u64 1) with (S754_finite false (2 ^ 52) (-52)). unfold dmul, SFmul. cbn [xorb].
  assert (Zpos (m * 2 ^ 52) = c * 2 ^ (52 - e))%Z as HM.
  { rewrite Pos2Z.inj_mul, Hm, <-Z.mul_assoc. change (Zpos (2 ^ 52)) with (2 ^ 52)%Z. rewrite <-Z.pow_add_r by lia.
    do 2 f_equal. lia. }
  assert (Zdigits2 (Zpos (m * 2 ^ 52)) = Z.log2 c + (52 - e) + 1)%Z as Hd.
  { rewrite Zdigits2_log2, HM, Z.log2_mul_pow2 by lia. lia. }
  assert (0 ≤ Z.log2 c < 53)%Z as Hl by (split; [apply Z.log2_nonneg|apply Z.log2_lt_pow2; lia]).
  destruct (round_near (Zpos (m * 2 ^ 52)) (e + -52) loc_Exact ltac:(lia) ltac:(lia)) as (m' & j & Hj & -> & _ & Hx).
  assert (Zpos m' * 2 ^ j = c * 2 ^ (52 - e))%Z as HA.
  { rewrite <-HM. apply Hx; [done|]. rewrite Hd, HM, Z.max_r by lia. apply Z.divide_mul_r.
    exists (2 ^ (52 - Z.log2 c))%Z. rewrite <-Z.pow_add_r by lia. f_equal. lia. }
  assert (dval m' (e + -52 + j) == inject_Z c) as Hv.
  { unfold dval. rewrite (Z.add_comm _ j), (pow2_add j), Qmult_assoc, <-(inject_pow2 j), <-inject_Z_mult, HA by done.
    rewrite inject_Z_mult, inject_pow2, <-Qmult_assoc, <-pow2_add by lia.
    replace (52 - e + (e + -52))%Z with 0%Z by lia. change (2 ^ 0) with 1. ring. }
  destruct (trunc_val m' (e + -52 + j) c) as (t & -> & Ht1 & Ht2); [rewrite Hv; apply Qle_refl|lia|].
  rewrite Hv in Ht1, Ht2. change 1 with (inject_Z 1) in Ht2. rewrite <-inject_Z_plus, <-Zlt_Qlt in Ht2.
  rewrite <-Zle_Qle in Ht1. f_equal. lia.
Qed.
