(* ===== verification/Monotone.v ===== *)
(** * Monotone: rounding to a double keeps the order

    [Rounding] says how far a rounded value can be from the exact one; here is
    which value it is: the mantissa rounded to 53 bits, ties to even
    ([round53]).  Hence conversions and products are monotone, which the
    timestamps of [Stamps] need. *)

From Stdlib Require Import SpecFloat QArith Qpower Lqa.
From S2P Require Import Prelude Float Rounding.

#[local] Open Scope Z_scope.

(** ** The bits that are shifted out *)

Lemma shr_iter_bits k m : 0 ≤ m →
  let x := Nat.iter (S k) shr_1 (Build_shr_record m false false) in
  x = Build_shr_record (m / 2 ^ Z.of_nat (S k)) (Z.odd (m / 2 ^ Z.of_nat k)) (negb (m mod 2 ^ Z.of_nat k =? 0)).
Proof.
  intros Hm. induction k as [|k IH].
  { cbn zeta. change (Nat.iter 1 shr_1 ?x) with (shr_1 x). rewrite shr_1_half by done. change (2 ^ Z.of_nat 0) with 1. by rewrite Z.div_1_r, Z.mod_1_r. }
  cbn zeta in *. change (Nat.iter (S (S k)) shr_1 ?x) with (shr_1 (Nat.iter (S k) shr_1 x)). rewrite IH.
  assert (0 < 2 ^ Z.of_nat k) as HP by lia. set (P := 2 ^ Z.of_nat k) in *.
  assert (2 ^ Z.of_nat (S k) = P * 2) as HS by (unfold P; rewrite Nat2Z.inj_succ, Z.pow_succ_r by lia; lia).
  assert (2 ^ Z.of_nat (S (S k)) = P * 2 * 2) as HSS by (rewrite Nat2Z.inj_succ, Z.pow_succ_r, HS by lia; lia).
  rewrite shr_1_half by (apply Z.div_pos; lia). rewrite HSS, HS. f_equal; [rewrite Z.div_div by lia; f_equal; lia|].
  pose proof (Z.div_mod m P ltac:(lia)) as H1. pose proof (Z.mod_pos_bound m P ltac:(lia)) as H2.
  pose proof (Z.div_mod m (P * 2) ltac:(lia)) as H3. pose proof (Z.mod_pos_bound m (P * 2) ltac:(lia)) as H4.
  pose proof (Z.div_div m P 2 ltac:(lia) ltac:(lia)) as H5.
  pose proof (Z.div_mod (m / P) 2 ltac:(lia)) as H6. rewrite Zmod_odd, H5 in H6.
  destruct (Z.odd (m / P)); cbn; destruct (Z.eqb_spec (m mod P) 0), (Z.eqb_spec (m mod (P * 2)) 0); cbn; nia.
Qed.

(** ** Rounding to the nearest multiple of [2^k], ties to even *)

Definition rne (m k : Z) : Z :=
  let q := m / 2 ^ k in
  let r := m mod 2 ^ k in
  if (2 ^ k <? 2 * r) || ((2 * r =? 2 ^ k) && Z.odd q) then q + 1 else q.

Lemma rne_zero m : rne m 0 = m.
Proof. unfold rne. cbn. by rewrite Z.mod_1_r, Z.div_1_r. Qed.

Lemma rne_bounds m k : m / 2 ^ k ≤ rne m k ≤ m / 2 ^ k + 1.
Proof. unfold rne. destruct (_ || _); lia. Qed.

Lemma rne_mono m m' k : 0 ≤ k → m ≤ m' → rne m k ≤ rne m' k.
Proof.
  intros Hk Hle. assert (0 < 2 ^ k) as HP by lia. pose proof (Z.div_le_mono m m' (2 ^ k) HP Hle) as Hq.
  pose proof (rne_bounds m k). pose proof (rne_bounds m' k).
  destruct (decide (m / 2 ^ k = m' / 2 ^ k)) as [Heq|]; [|lia].
  pose proof (Z.div_mod m (2 ^ k) ltac:(lia)). pose proof (Z.div_mod m' (2 ^ k) ltac:(lia)).
  unfold rne. rewrite Heq in *. set (q := m' / 2 ^ k) in *. clearbody q.
  destruct (Z.ltb_spec (2 ^ k) (2 * (m mod 2 ^ k))), (Z.ltb_spec (2 ^ k) (2 * (m' mod 2 ^ k))),
    (Z.eqb_spec (2 * (m mod 2 ^ k)) (2 ^ k)), (Z.eqb_spec (2 * (m' mod 2 ^ k)) (2 ^ k)), (Z.odd q); cbn; lia.
Qed.

(** Common factors do not matter. *)
Lemma rne_scale m k s : 0 ≤ k → 0 ≤ s → rne (m * 2 ^ s) (k + s) = rne m k.
Proof.
  intros Hk Hs. unfold rne. assert (0 < 2 ^ k) by lia. assert (0 < 2 ^ s) by lia. rewrite Z.pow_add_r by lia.
  rewrite Z.div_mul_cancel_r, Z.mul_mod_distr_r by lia.
  replace (2 ^ k * 2 ^ s <? 2 * (m mod 2 ^ k * 2 ^ s)) with (2 ^ k <? 2 * (m mod 2 ^ k)).
  { replace (2 * (m mod 2 ^ k * 2 ^ s) =? 2 ^ k * 2 ^ s) with (2 * (m mod 2 ^ k) =? 2 ^ k); [done|].
    destruct (Z.eqb_spec (2 * (m mod 2 ^ k)) (2 ^ k)), (Z.eqb_spec (2 * (m mod 2 ^ k * 2 ^ s)) (2 ^ k * 2 ^ s)); nia. }
  destruct (Z.ltb_spec (2 ^ k) (2 * (m mod 2 ^ k))), (Z.ltb_spec (2 ^ k * 2 ^ s) (2 * (m mod 2 ^ k * 2 ^ s))); nia.
Qed.

Lemma rne_multiple m k s : 0 ≤ k ≤ s → rne (m * 2 ^ s) k = m * 2 ^ (s - k).
Proof.
  intros Hk. replace s with ((s - k) + k) at 1 by lia. rewrite Z.pow_add_r by lia. rewrite Z.mul_assoc.
  rewrite <-(rne_zero (m * 2 ^ (s - k))) at 2. rewrite <-(rne_scale _ 0 k) by lia. done.
Qed.

(** ** The 53 leading bits *)

Definition excess (m : Z) : Z := Z.max 0 (Zdigits2 m - 53).
Definition round53 (m : Z) : Z := rne m (excess m) * 2 ^ excess m.

Lemma round53_scale m s : 0 < m → 0 ≤ s → round53 (m * 2 ^ s) = round53 m * 2 ^ s.
Proof.
  intros Hm Hs. unfold round53, excess.
  assert (Zdigits2 (m * 2 ^ s) = Zdigits2 m + s) as Hd.
  { rewrite !Zdigits2_log2 by lia. rewrite Z.log2_mul_pow2 by lia. lia. }
  destruct (Z.le_gt_cases (Zdigits2 m) 53) as [Hle|Hgt].
  - rewrite (Z.max_l 0 (Zdigits2 m - 53)), rne_zero by lia. rewrite rne_multiple by lia.
    rewrite <-!Z.mul_assoc, <-Z.pow_add_r by lia. cbn [Z.pow Z.pow_pos]. rewrite Z.mul_1_l. do 2 f_equal. lia.
  - rewrite Hd, !Z.max_r by lia. replace (Zdigits2 m + s - 53) with (Zdigits2 m - 53 + s) by lia.
    rewrite rne_scale by lia. rewrite Z.pow_add_r by lia. lia.
Qed.

Lemma round53_mono m m' : 0 < m ≤ m' → round53 m ≤ round53 m'.
Proof.
  intros Hm. unfold round53. destruct (digits_bound m ltac:(lia)) as [_ Hb]. destruct (digits_bound m' ltac:(lia)) as [_ Hb'].
  assert (Zdigits2 m ≤ Zdigits2 m') as Hd.
  { rewrite !Zdigits2_log2 by lia. pose proof (Z.log2_le_mono m m' ltac:(lia)). lia. }
  destruct (decide (excess m = excess m')) as [<-|Hne].
  { apply Z.mul_le_mono_nonneg_r; [lia|]. apply rne_mono; [unfold excess; lia|lia]. }
  set (k := excess m) in *. set (k' := excess m') in *. assert (0 ≤ k < k') as Hk by (unfold k, k', excess in *; lia).
  assert (k' = Zdigits2 m' - 53) as Hk' by (unfold k', excess in *; lia).
  assert (rne m k ≤ 2 ^ 53) as H1.
  { pose proof (rne_bounds m k). assert (m / 2 ^ k < 2 ^ 53); [|lia]. apply Z.div_lt_upper_bound; [lia|].
    rewrite <-Z.pow_add_r by lia. apply Z.lt_le_trans with (2 ^ Zdigits2 m); [lia|]. apply Z.pow_le_mono_r; unfold k, excess; lia. }
  assert (2 ^ 52 ≤ rne m' k') as H2.
  { pose proof (rne_bounds m' k'). assert (2 ^ 52 ≤ m' / 2 ^ k'); [|lia]. apply Z.div_le_lower_bound; [lia|].
    rewrite <-Z.pow_add_r by lia. replace (k' + 52) with (Zdigits2 m' - 1) by lia. lia. }
  apply Z.le_trans with (2 ^ 53 * 2 ^ k); [apply Z.mul_le_mono_nonneg_r; lia|].
  apply Z.le_trans with (2 ^ 52 * 2 ^ k'); [|apply Z.mul_le_mono_nonneg_r; lia].
  rewrite <-!Z.pow_add_r by lia. apply Z.pow_le_mono_r; lia.
Qed.

Lemma round53_pos m : 0 < m → 0 < round53 m.
Proof.
  intros Hm. apply Z.lt_le_trans with (round53 1); [reflexivity|]. apply round53_mono. lia.
Qed.

(** ** What [binary_round_aux] computes *)

Lemma shr_round m e : 0 < m → -1021 ≤ Zdigits2 m + e →
  ∃ x, shr_fexp 53 1024 m e loc_Exact = (x, e + excess m) ∧
    round_nearest_even (shr_m x) (loc_of_shr_record x) = rne m (excess m).
Proof.
  intros Hm Hr. unfold shr_fexp, shr. set (n := fexp64 (Zdigits2 m + e) - e).
  assert (excess m = Z.max 0 n) as -> by (unfold excess, n, fexp, emin; lia).
  destruct n as [|p|p]; cbn zeta; cbn [shr_record_of_loc].
  - eexists. split; [by rewrite Z.max_id, Z.add_0_r|]. by rewrite Z.max_id, rne_zero.
  - rewrite iter_pos_nat. destruct (Pos2Nat.is_succ p) as [k Hk]. rewrite Hk, shr_iter_bits by lia.
    rewrite Z.max_r by lia. eexists. split; [done|]. replace (Zpos p) with (Z.of_nat (S k)) by lia. cbn [shr_m loc_of_shr_record].
    assert (0 < 2 ^ Z.of_nat k) as HP by lia. set (P := 2 ^ Z.of_nat k) in *. unfold rne.
    assert (2 ^ Z.of_nat (S k) = P * 2) as HS by (unfold P; rewrite Nat2Z.inj_succ, Z.pow_succ_r by lia; lia).
    rewrite HS. pose proof (Z.div_mod m P ltac:(lia)). pose proof (Z.mod_pos_bound m P ltac:(lia)).
    pose proof (Z.div_mod m (P * 2) ltac:(lia)). pose proof (Z.mod_pos_bound m (P * 2) ltac:(lia)).
    pose proof (Z.div_div m P 2 ltac:(lia) ltac:(lia)) as Hdd.
    pose proof (Z.div_mod (m / P) 2 ltac:(lia)) as Hh. rewrite Zmod_odd, Hdd in Hh.
    set (q := m / (P * 2)) in *. rewrite <-(Z.negb_even q).
    destruct (Z.odd (m / P)), (Z.eqb_spec (m mod P) 0), (Z.ltb_spec (P * 2) (2 * (m mod (P * 2)))),
      (Z.eqb_spec (2 * (m mod (P * 2))) (P * 2)); cbn; try nia; by destruct (Z.even q).
  - eexists. split; [by rewrite Z.max_l, Z.add_0_r by lia|]. by rewrite Z.max_l, rne_zero by lia.
Qed.

(** In the normal range the rounded value is [round53]. *)
Lemma round_value m e :
  0 < m → -1021 ≤ Zdigits2 m + e ≤ 900 →
  ∃ m' j, 0 ≤ j ∧ binary_round_aux 53 1024 false m e loc_Exact = S754_finite false m' (e + j) ∧
    Zpos m' * 2 ^ j = round53 m.
Proof.
  intros Hm Hr. unfold binary_round_aux. destruct (shr_round m e Hm ltac:(lia)) as (x & -> & Hx). rewrite Hx.
  pose proof (round53_pos m Hm) as Hpos. unfold round53 in *. set (k := excess m) in *.
  destruct (digits_bound m Hm) as [Hd Hb]. assert (0 ≤ k) as Hk by (unfold k, excess; lia). assert (0 < 2 ^ k) by lia.
  assert (0 < rne m k ≤ 2 ^ 53) as Hn.
  { split; [nia|]. pose proof (rne_bounds m k). assert (m / 2 ^ k < 2 ^ 53); [|lia]. apply Z.div_lt_upper_bound; [lia|].
    rewrite <-Z.pow_add_r by lia. apply Z.lt_le_trans with (2 ^ Zdigits2 m); [lia|]. apply Z.pow_le_mono_r; unfold k, excess; lia. }
  destruct (shr_fexp_spec (rne m k) (e + k) loc_Exact ltac:(lia)) as (x2 & -> & Hx2 & _).
  destruct (carry_exact (rne m k) (e + k) Hn ltac:(unfold k, excess; lia)) as [Hm1 Hk2].
  set (k2 := Z.max 0 (fexp64 (Zdigits2 (rne m k) + (e + k)) - (e + k))) in *.
  rewrite Hx2. destruct (rne m k / 2 ^ k2) as [|p|p] eqn:Hp; [lia| |lia].
  destruct (Z.leb_spec (e + k + k2) (1024 - 53)); [|unfold k, excess in *; lia].
  exists p, (k + k2). split_and!; [lia|by rewrite Z.add_assoc|]. rewrite Z.pow_add_r by lia. nia.
Qed.

(** ** Conversions and products *)

#[local] Open Scope Q_scope.

Lemma dval_shift m e j : (0 ≤ j)%Z → dval m (e + j) == inject_Z (Zpos m * 2 ^ j) * 2 ^ e.
Proof. intros Hj. unfold dval. rewrite inject_Z_mult, inject_pow2, pow2_add by done. ring. Qed.

Lemma of_u64_round c :
  (0 < c < 2 ^ 64)%Z → ∃ m e, of_u64 c = S754_finite false m e ∧ dval m e == inject_Z (round53 c).
Proof.
  intros Hc. destruct c as [|p|p]; [lia| |lia]. unfold of_u64, binary_normalize, binary_round.
  set (d := Zpos (digits2_pos p)). assert (fexp64 (d + 0) = d - 53)%Z as Hf by (unfold fexp, emin; lia). rewrite Hf.
  assert (1 ≤ d ≤ 64)%Z as Hd.
  { unfold d. rewrite digits2_log2. pose proof (Z.log2_nonneg (Zpos p)).
    assert (Z.log2 (Zpos p) < 64)%Z by (apply Z.log2_lt_pow2; lia). lia. }
  assert (∃ mz s, shl_align p 0 (d - 53) = (mz, - s)%Z ∧ (0 ≤ s ≤ 53)%Z ∧ (Zpos mz = Zpos p * 2 ^ s)%Z) as (mz & s & -> & Hs & Hmz).
  { unfold shl_align. destruct (d - 53 - 0)%Z as [|q|q] eqn:Hq.
    - exists p, 0%Z. split_and!; [done|lia..].
    - exists p, 0%Z. split_and!; [done|lia..].
    - exists (Pos.iter xO p q), (53 - d)%Z. rewrite iter_double. split_and!; [f_equal; lia|lia..|do 2 f_equal; lia]. }
  assert (Zdigits2 (Zpos mz) = d + s)%Z as Hdz.
  { rewrite Hmz. apply digits_shift. lia. }
  destruct (round_value (Zpos mz) (- s)) as (m' & j & Hj & -> & Hv); [lia|lia|].
  exists m', (- s + j)%Z. split; [done|]. rewrite dval_shift, Hv, Hmz, round53_scale by lia.
  rewrite inject_Z_mult, inject_pow2, <-Qmult_assoc, <-pow2_add by lia. replace (s + - s)%Z with 0%Z by lia.
  change (2 ^ 0) with 1. ring.
Qed.

Lemma dmul_round ma ea mb eb :
  (-1020 ≤ Zpos (digits2_pos ma) + ea + (Zpos (digits2_pos mb) + eb) ≤ 900)%Z →
  ∃ m e, dmul (S754_finite false ma ea) (S754_finite false mb eb) = S754_finite false m e ∧
    dval m e == inject_Z (round53 (Zpos (ma * mb))) * 2 ^ (ea + eb).
Proof.
  intros Hr. pose proof (digits_mul ma mb). unfold dmul, SFmul. cbn [xorb].
  destruct (round_value (Zpos (ma * mb)) (ea + eb)) as (m' & j & Hj & -> & Hv); [lia|lia|].
  exists m', (ea + eb + j)%Z. split; [done|]. by rewrite dval_shift, Hv.
Qed.

(** Two values on a common exponent. *)
Lemma dval_common m e e0 : (e0 ≤ e)%Z → dval m e == inject_Z (Zpos m * 2 ^ (e - e0)) * 2 ^ e0.
Proof. intros He. rewrite <-dval_shift by lia. by replace (e0 + (e - e0))%Z with e by lia. Qed.

Lemma dval_le_common m e m' e' e0 :
  (e0 ≤ e)%Z → (e0 ≤ e')%Z → dval m e <= dval m' e' → (Zpos m * 2 ^ (e - e0) ≤ Zpos m' * 2 ^ (e' - e0))%Z.
Proof.
  intros He He' Hle. rewrite (dval_common m e e0), (dval_common m' e' e0) in Hle by done.
  apply Qmult_le_r in Hle; [|apply pow2_pos]. by rewrite <-Zle_Qle in Hle.
Qed.

(** Rounding [x * b] and [y * b] keeps the order of [x] and [y]. *)
Lemma product_mono ma ea ma' ea' mb eb :
  dval ma ea <= dval ma' ea' →
  inject_Z (round53 (Zpos (ma * mb))) * 2 ^ (ea + eb) <= inject_Z (round53 (Zpos (ma' * mb))) * 2 ^ (ea' + eb).
Proof.
  intros Hle. set (e0 := Z.min ea ea').
  pose proof (dval_le_common ma ea ma' ea' e0 ltac:(lia) ltac:(lia) Hle) as Hz.
  assert (∀ m e, (e0 ≤ e)%Z → inject_Z (round53 (Zpos (m * mb))) * 2 ^ (e + eb)
            == inject_Z (round53 (Zpos m * 2 ^ (e - e0) * Zpos mb)) * 2 ^ (e0 + eb)) as Hcommon.
  { intros m e He. replace (Zpos m * 2 ^ (e - e0) * Zpos mb)%Z with (Zpos (m * mb) * 2 ^ (e - e0))%Z by lia.
    rewrite round53_scale, inject_Z_mult, inject_pow2, <-Qmult_assoc, <-pow2_add by lia.
    by replace (e - e0 + (e0 + eb))%Z with (e + eb)%Z by lia. }
  rewrite (Hcommon ma ea), (Hcommon ma' ea') by lia. apply Qmult_le_compat_r; [|apply Qlt_le_weak, pow2_pos].
  rewrite <-Zle_Qle. apply round53_mono. assert (0 < Zpos ma * 2 ^ (ea - e0))%Z by lia. nia.
Qed.

(** The exponent of a converted integer. *)
Lemma of_u64_exponent c m e :
  (0 < c < 2 ^ 64)%Z → dval m e == inject_Z (round53 c) → (0 < Zpos (digits2_pos m) + e ≤ 65)%Z.
Proof.
  intros Hc Hv. apply dval_range; rewrite Hv.
  - change (2 ^ 0) with (inject_Z 1). rewrite <-Zle_Qle. pose proof (round53_pos c ltac:(lia)). lia.
  - change (2 ^ 65) with (inject_Z (2 ^ 65)). rewrite <-Zlt_Qlt.
    pose proof (round53_mono c (2 ^ 64) ltac:(lia)) as Hm. change (round53 (2 ^ 64)) with (2 ^ 64)%Z in Hm. lia.
Qed.

(** The integer part, where it fits. *)
Lemma trunc_mono m e m' e' t' :
  dval m e <= dval m' e' → to_u64 (S754_finite false m' e') = Some t' →
  ∃ t, to_u64 (S754_finite false m e) = Some t ∧ (0 ≤ t ≤ t')%Z.
Proof.
  intros Hle. cbn [to_u64]. destruct (trunc_bounds m e) as [H0 [H1 _]]. destruct (trunc_bounds m' e') as [_ [_ H2]].
  set (t := trunc_scaled (Zpos m) e) in *. set (u := trunc_scaled (Zpos m') e') in *.
  assert (t ≤ u)%Z.
  { apply Z.lt_succ_r. rewrite Zlt_Qlt. unfold Z.succ. rewrite inject_Z_plus. change (inject_Z 1) with 1. lra. }
  destruct (Z.ltb_spec u (2 ^ 64)); [|done]. intros [= <-]. exists t. destruct (Z.ltb_spec t (2 ^ 64)); [|lia]. done.
Qed.

(** [static_cast<uint64_t>(static_cast<double>(c) * r)] is monotone in [c]; where
    it is defined it is defined for everything below. *)
Lemma convert_mono c c' mr er t' :
  (0 ≤ c ≤ c')%Z → (c' < 2 ^ 64)%Z → (-900 ≤ Zpos (digits2_pos mr) + er ≤ 800)%Z →
  to_u64 (dmul (of_u64 c') (S754_finite false mr er)) = Some t' →
  ∃ t, to_u64 (dmul (of_u64 c) (S754_finite false mr er)) = Some t ∧ (0 ≤ t ≤ t')%Z.
Proof.
  intros Hc Hc' Hr Ht'. destruct (Z.eq_dec c' 0) as [Hz'|Hz'].
  { assert (c = 0)%Z as -> by lia. subst c'. exists 0%Z. by injection Ht' as <-. }
  destruct (of_u64_round c' ltac:(lia)) as (m' & e' & He' & Hv'). rewrite He' in Ht'.
  pose proof (of_u64_exponent c' m' e' ltac:(lia) Hv').
  destruct (dmul_round m' e' mr er ltac:(lia)) as (mp' & ep' & Hmul & Hp'). rewrite Hmul in Ht'.
  destruct (Z.eq_dec c 0) as [->|Hz].
  { exists 0%Z. split; [done|]. destruct (trunc_mono mp' ep' mp' ep' t' (Qle_refl _) Ht') as (t & Ht & Hb). simplify_eq. lia. }
  destruct (of_u64_round c ltac:(lia)) as (m & e & -> & Hv). pose proof (of_u64_exponent c m e ltac:(lia) Hv).
  destruct (dmul_round m e mr er ltac:(lia)) as (mp & ep & -> & Hp). eapply trunc_mono; [|exact Ht'].
  rewrite Hp, Hp'. apply product_mono. rewrite Hv, Hv', <-Zle_Qle. apply round53_mono. lia.
Qed.
