(* ===== verification/Timer.v ===== *)
(** * Timer: the calibrated cycle counter

    Models [include/timer.hpp].  The cycle counter and the steady clock are
    hardware: [tsc k] and [steady k] are their [k]-th readings, the latter in
    nanoseconds.  [has_rdtsc] is the [LH_HAS_RDTSC] of the build. *)

From Stdlib Require Import SpecFloat QArith Qpower Lqa.
From S2P Require Import Prelude Float Rounding.

#[local] Open Scope Z_scope.

Definition calib_duration : Z := 100000000.

(** [while (steady_clock::now() - start_wall < calib_duration) {}]: the number of
    readings it has taken; [None] when [fuel] readings were not enough. *)
Fixpoint calib_spin (steady : nat → Z) (start_wall : Z) (fuel k : nat) : option nat :=
  match fuel with
  | O => None
  | S fuel =>
      if steady k - start_wall <? calib_duration then calib_spin steady start_wall fuel (S k)
      else Some (S k)
  end.

(** [calibrate()]: the value of [ns_per_cycle_]. *)
Definition calibrate (has_rdtsc : bool) (tsc steady : nat → Z) (fuel : nat) : option double :=
  if has_rdtsc then
    let start_tsc := tsc 0%nat in
    let start_wall := steady 0%nat in
    k ← calib_spin steady start_wall fuel 1;
    let end_tsc := tsc 1%nat in
    let end_wall := steady k in
    let wall_ns := of_i64 (end_wall - start_wall) in
    Some (ddiv wall_ns (of_u64 (u64 (end_tsc - start_tsc))))
  else Some (of_u64 1).

(** [rdtsc()]: the counter, or the steady clock where there is none. *)
Definition rdtsc (has_rdtsc : bool) (tsc steady : nat → Z) (k : nat) : Z :=
  if has_rdtsc then tsc k else u64 (steady k).

Definition cycles_to_ns (ns_per_cycle : double) (cycles : Z) : double :=
  dmul (of_u64 cycles) ns_per_cycle.

(** [static_cast<uint64_t>(clock.cycles_to_ns(cycles))], as both programs use
    it; [None] when the conversion is undefined. *)
Definition ns_of_cycles (ns_per_cycle : double) (cycles : Z) : option Z :=
  to_u64 (cycles_to_ns ns_per_cycle cycles).

(** ** Calibration *)

(** The loop stops at the first reading that shows 100 ms. *)
Lemma calib_spin_ok steady start n : ∀ fuel k,
  (k ≤ n)%nat → (n < k + fuel)%nat → calib_duration ≤ steady n - start →
  ∃ j, calib_spin steady start fuel k = Some (S j) ∧ (k ≤ j ≤ n)%nat ∧ calib_duration ≤ steady j - start ∧
    ∀ i, (k ≤ i < j)%nat → steady i - start < calib_duration.
Proof.
  induction fuel as [|fuel IH]; intros k Hk Hn Hs; cbn; [lia|].
  destruct (Z.ltb_spec (steady k - start) calib_duration).
  - assert (k ≠ n) by (intros ->; lia). destruct (IH (S k) ltac:(lia) ltac:(lia) Hs) as (j & Hj & Hr & Hd & Hmin).
    exists j. split_and!; [done|lia..|done|]. intros i Hi. destruct (decide (i = k)) as [->|]; [done|apply Hmin; lia].
  - exists k. split_and!; [done|lia..|done|lia].
Qed.

(** ** The conversion error *)

#[local] Open Scope Q_scope.

(** Two roundings and a truncation, on an exact value of at most [2^50]. *)
Lemma two_roundings x r p c t :
  0 <= x → x <= 1125899906842624 → 0 <= c → c * r == x → 
  ∀ r', near r' r → near p (c * r') → inject_Z t <= p → p < inject_Z t + 1 →
  inject_Z t - 2 < x /\ x < inject_Z t + 2.
Proof.
  intros Hx Hxb Hc Hcr r' [Hr1 Hr2] [Hp1 Hp2] Ht1 Ht2. unfold eps in *.
  assert (x - x * (1 # 4503599627370496) <= c * r' <= x + x * (1 # 4503599627370496)) as [Ha Hb].
  { rewrite <-Hcr. split; nra. }
  lra.
Qed.

Lemma rate_exponent M N m e :
  (0 < M < 2 ^ 53)%Z → (0 < N < 2 ^ 53)%Z → near (dval m e) (inject_Z M / inject_Z N) →
  (-54 < Zpos (digits2_pos m) + e ≤ 54)%Z.
Proof.
  intros HM HN [H1 H2]. unfold eps in *.
  assert (1 <= inject_Z M < inject_Z (2 ^ 53)) as HMq by (change 1 with (inject_Z 1); rewrite <-Zle_Qle, <-Zlt_Qlt; lia).
  assert (1 <= inject_Z N < inject_Z (2 ^ 53)) as HNq by (change 1 with (inject_Z 1); rewrite <-Zle_Qle, <-Zlt_Qlt; lia).
  assert (inject_Z M / inject_Z N <= inject_Z M) as Hu by (apply Qle_shift_div_r; nra).
  assert (1 / inject_Z (2 ^ 53) <= inject_Z M / inject_Z N) as Hl.
  { apply Qle_shift_div_l; [lra|]. 
    assert (1 / inject_Z (2 ^ 53) * inject_Z N == inject_Z N / inject_Z (2 ^ 53)) as -> by (field; done). apply Qle_shift_div_r; [done|]. nra. }
  apply dval_range.
  - apply Qle_trans with (1 / inject_Z (2 ^ 53) - 1 / inject_Z (2 ^ 53) * (1 # 4503599627370496)); [done|lra].
  - apply Qle_lt_trans with (inject_Z M + inject_Z M * (1 # 4503599627370496)); [lra|].
    apply Qlt_trans with (inject_Z (2 ^ 53) + inject_Z (2 ^ 53) * (1 # 4503599627370496)); [lra|done].
Qed.

Lemma int_exponent n m e :
  (0 < n < 2 ^ 53)%Z → dval m e == inject_Z n → (0 < Zpos (digits2_pos m) + e ≤ 53)%Z.
Proof.
  intros Hn Hv. apply dval_range; rewrite Hv; [change (2 ^ 0) with (inject_Z 1)|change (2 ^ 53) with (inject_Z (2 ^ 53))];
    rewrite <-?Zle_Qle, <-?Zlt_Qlt; lia.
Qed.

(** A bound on a fraction, in integers. *)
Lemma fraction_close t a N :
  (0 < N)%Z → inject_Z t - 2 < inject_Z a / inject_Z N → inject_Z a / inject_Z N < inject_Z t + 2 →
  (Z.abs (t * N - a) < 2 * N)%Z.
Proof.
  intros HN H1 H2. assert (0 < inject_Z N) as HNq by (rewrite <-(Zlt_Qlt 0); lia).
  assert (inject_Z a == inject_Z a / inject_Z N * inject_Z N) as Ha.
  { field. intros Hz. rewrite Hz in HNq. done. }
  assert (inject_Z ((t - 2) * N) < inject_Z a /\ inject_Z a < inject_Z ((t + 2) * N)) as [Hz1 Hz2].
  { rewrite !(inject_Z_mult _ N). unfold Z.sub. rewrite !inject_Z_plus, inject_Z_opp.
    change (inject_Z 2) with 2. set (x := inject_Z a / inject_Z N) in *. nra. }
  rewrite <-Zlt_Qlt in Hz1, Hz2. lia.
Qed.

(** [M] nanoseconds in [N] cycles: [c] cycles are converted to within 2 ns. *)
Lemma conversion_error M N c :
  (0 < M < 2 ^ 53)%Z → (0 < N < 2 ^ 53)%Z → (0 ≤ c < 2 ^ 53)%Z → (c * M ≤ 2 ^ 50 * N)%Z →
  ∃ t, ns_of_cycles (ddiv (of_i64 M) (of_u64 N)) c = Some t ∧ (Z.abs (t * N - c * M) < 2 * N)%Z.
Proof.
  intros HM HN Hc Hb. change (of_i64 M) with (of_u64 M). unfold ns_of_cycles, cycles_to_ns.
  destruct (of_u64_val M HM) as (mM & eM & -> & VM). destruct (of_u64_val N HN) as (mN & eN & -> & VN).
  pose proof (int_exponent M mM eM HM VM). pose proof (int_exponent N mN eN HN VN).
  destruct (ddiv_near mM eM mN eN ltac:(lia)) as (mr & er & -> & Hr). rewrite VM, VN in Hr.
  destruct (Z.eq_dec c 0) as [->|Hc0]; [by exists 0%Z; split; [|cbn; lia]|].
  destruct (of_u64_val c ltac:(lia)) as (mc & ec & -> & Vc). pose proof (int_exponent c mc ec ltac:(lia) Vc).
  pose proof (rate_exponent M N mr er HM HN Hr) as Hex.
  destruct (dmul_near mc ec mr er ltac:(lia)) as (mp & ep & -> & Hp). rewrite Vc in Hp.
  assert (0 < inject_Z N) as HNq by (rewrite <-(Zlt_Qlt 0); lia).
  assert (0 < inject_Z c) as Hcq by (rewrite <-(Zlt_Qlt 0); lia).
  set (x := inject_Z (c * M) / inject_Z N).
  assert (inject_Z c * (inject_Z M / inject_Z N) == x) as Hx.
  { unfold x. rewrite inject_Z_mult. field. intros Hz. rewrite Hz in HNq. done. }
  assert (0 <= x <= 1125899906842624) as Hx2.
  { unfold x. split; [apply Qle_shift_div_l; [done|]|apply Qle_shift_div_r; [done|]].
    - rewrite Qmult_0_l, <-(Zle_Qle 0). lia.
    - change 1125899906842624 with (inject_Z (2 ^ 50)). rewrite <-inject_Z_mult, <-Zle_Qle. lia. }
  destruct (trunc_val mp ep (2 ^ 51)) as (t & -> & Ht1 & Ht2); [|lia|].
  { change (inject_Z (2 ^ 51)) with 2251799813685248. destruct Hr as [Hr1 Hr2], Hp as [Hp1 Hp2]. unfold eps in *. nra. }
  exists t. split; [done|].
  destruct (two_roundings x _ (dval mp ep) _ t (proj1 Hx2) (proj2 Hx2) (Qlt_le_weak _ _ Hcq) Hx (dval mr er) Hr Hp Ht1 Ht2) as [Hlo Hhi].
  apply fraction_close; [lia|done..].
Qed.

#[local] Close Scope Q_scope.

(** C24: The calibrated clock is accurate, floating point included.  If the steady
    clock is monotonic and eventually shows 100 ms, calibration ends: at the first
    reading [j] that shows them.  With [M] the nanoseconds between the first reading
    and the one after [j], which is taken together with the second reading of the
    counter, and [N] the counter cycles in between, every number [c] of cycles up to
    [2^50] ns (thirteen days) is converted without undefined behaviour to within
    2 ns of the exact value [c * M / N].  On a machine without a counter the
    readings are nanoseconds already, and are converted exactly. *)
Theorem timer_accurate tsc steady fuel n c :
  (∀ j, steady j ≤ steady (S j)) → (n ≤ fuel)%nat → (1 ≤ n)%nat →
  calib_duration ≤ steady n - steady 0%nat → steady (S n) - steady 0%nat < 2 ^ 53 →
  0 < tsc 1%nat - tsc 0%nat < 2 ^ 53 → 0 ≤ c < 2 ^ 53 →
  (∃ r j, calibrate true tsc steady fuel = Some r ∧ (1 ≤ j ≤ n)%nat ∧
     calib_duration ≤ steady j - steady 0%nat ∧
     (∀ i, (1 ≤ i < j)%nat → steady i - steady 0%nat < calib_duration) ∧
     let M := steady (S j) - steady 0%nat in
     let N := tsc 1%nat - tsc 0%nat in
     (c * M ≤ 2 ^ 50 * N → ∃ t, ns_of_cycles r c = Some t ∧ Z.abs (t * N - c * M) < 2 * N)) ∧
  (∃ r, calibrate false tsc steady fuel = Some r ∧ ns_of_cycles r c = Some c).
Proof.
  intros Hmono Hf Hn Hcal Hlim Htsc Hc. split.
  - destruct (calib_spin_ok steady (steady 0%nat) n fuel 1 Hn ltac:(lia) Hcal) as (j & Hj & Hjr & Hjd & Hmin).
    assert (∀ a b, (a ≤ b)%nat → steady a ≤ steady b) as Hmono'.
    { intros a b. induction 1 as [|b _ IH]; [lia|]. specialize (Hmono b). lia. }
    pose proof (Hmono j). pose proof (Hmono' (S j) (S n) ltac:(lia)).
    eexists _, j. split_and!; [|lia|lia|done|done|].
    { unfold calibrate. rewrite Hj. done. }
    intros M N Hle. unfold wrap_unsigned. rewrite Z.mod_small by lia.
    apply conversion_error; [unfold M, calib_duration in *; lia|done..].
  - eexists. split; [done|]. unfold ns_of_cycles, cycles_to_ns. by apply dmul_one.
Qed.

(** A 5/3 GHz counter, and a clock that is read every 60 ms: the second reading
    shows 120 ms and the one after it 180 ms, so three million cycles are 1.8 ms. *)
Lemma timer_accurate_witness :
  ∃ r t, calibrate true (λ k, 300000000 * Z.of_nat k) (λ k, 60000000 * Z.of_nat k) 2 = Some r ∧
    ns_of_cycles r 3000000 = Some t ∧ Z.abs (t - 1800000) < 2.
Proof.
  destruct (timer_accurate (λ k, 300000000 * Z.of_nat k) (λ k, 60000000 * Z.of_nat k) 2 2 3000000)
    as [(r & j & Hr & Hj & Hd & _ & Ht) _]; try (unfold calib_duration; lia).
  assert (j = 2%nat) as -> by (unfold calib_duration in Hd; lia).
  destruct Ht as (t & Ht & Hc); [lia|]. exists r, t. split; [exact Hr|]. split; [exact Ht|lia].
Defined.
