(* ===== verification/Stamps.v ===== *)
(** * Stamps: the timestamps of the published stream

    [Sequencer::now_ns] of [include/sequencer.hpp] converts an absolute reading of
    the cycle counter with the calibrated clock of [include/timer.hpp]: a 64-bit
    integer becomes a double, is multiplied, and is cut to a 64-bit integer again.
    [Process] takes the resulting times as they come; here they are computed, and
    follow the sequence numbers in spite of the two roundings. *)

From Stdlib Require Import SpecFloat QArith Qpower Lqa.
From S2P Require Import Prelude Types ObjectPool OrderBook PriceTime OrderBookProofs SpscRing BroadcastRing Consumer Sequencer MatchingEngine EngineProofs EngineProperties Wal Db System Threads Process ProcessProofs FairRun ProcessProgress ProcessProperties Float Rounding Monotone Timer.

#[local] Open Scope Z_scope.

(** [now_ns()]; [reading] is what [TscClock::rdtsc()] returns, [None] a conversion
    that is undefined. *)
Definition seq_now_ns (ns_per_cycle : double) (reading : Z) : option Z := ns_of_cycles ns_per_cycle reading.

Lemma to_u64_fits x t : to_u64 x = Some t → is_u64 t.
Proof.
  destruct x as [s|s| |s m e]; cbn [to_u64]; try done.
  - intros [= <-]. done.
  - destruct (trunc_bounds m e) as [H0 _]. set (u := trunc_scaled (Zpos m) e) in *. destruct s.
    + destruct (u =? 0); by intros [= <-].
    + destruct (Z.ltb_spec u (2 ^ 64)); [|done]. intros [= <-]. word_lia.
Qed.

(** A steady clock: it does not go back, and the calibration takes less than
    [2^53] ns. *)
Record steady_ok (steady : nat → Z) (fuel : nat) : Prop := {
  sd_mono : ∀ j, steady j ≤ steady (S j);
  sd_short : ∀ j, (j ≤ S fuel)%nat → steady j - steady 0%nat < 2 ^ 53
}.

Lemma calib_spin_done steady start : ∀ fuel k j,
  calib_spin steady start fuel k = Some j →
  (k < j ≤ k + fuel)%nat ∧ calib_duration ≤ steady (pred j) - start.
Proof.
  induction fuel as [|fuel IH]; intros k j; cbn; [done|].
  destruct (Z.ltb_spec (steady k - start) calib_duration).
  - intros [? ?]%IH. split; [lia|done].
  - intros [= <-]. split; [lia|done].
Qed.

(** The calibrated rate is a positive double of moderate size. *)
Lemma calibrated_rate has_rdtsc tsc steady fuel r :
  calibrate has_rdtsc tsc steady fuel = Some r → steady_ok steady fuel → 0 < tsc 1%nat - tsc 0%nat < 2 ^ 53 →
  ∃ m e, r = S754_finite false m e ∧ -54 < Zpos (digits2_pos m) + e ≤ 54.
Proof.
  intros Hcal [Hmono Hshort] Htsc. unfold calibrate in Hcal. destruct has_rdtsc.
  2: { injection Hcal as <-. exists (2 ^ 52)%positive, (-52). split; [done|vm_compute; done]. }
  destruct (calib_spin steady (steady 0%nat) fuel 1) as [j|] eqn:Hj; [|done]. cbn in Hcal.
  destruct (calib_spin_done _ _ _ _ _ Hj) as [Hr Hd].
  assert (steady (pred j) ≤ steady j) as Hup by (specialize (Hmono (pred j)); by replace (S (pred j)) with j in Hmono by lia).
  pose proof (Hshort j ltac:(lia)) as Hlt. set (M := steady j - steady 0%nat) in *. set (N := tsc 1%nat - tsc 0%nat) in *.
  assert (0 < M < 2 ^ 53) as HM by (unfold calib_duration in *; lia).
  unfold wrap_unsigned in Hcal. rewrite Z.mod_small in Hcal by lia. change (of_i64 M) with (of_u64 M) in Hcal.
  destruct (of_u64_val M HM) as (mM & eM & HMe & VM). destruct (of_u64_val N Htsc) as (mN & eN & HNe & VN).
  rewrite HMe, HNe in Hcal. pose proof (int_exponent M mM eM HM VM). pose proof (int_exponent N mN eN Htsc VN).
  destruct (ddiv_near mM eM mN eN ltac:(lia)) as (mr & er & Hdiv & Hnear). rewrite VM, VN in Hnear.
  rewrite Hdiv in Hcal. injection Hcal as <-. exists mr, er. split; [done|]. by eapply (rate_exponent M N).
Qed.

(** The conversion keeps the order of the readings. *)
Lemma now_ns_mono has_rdtsc tsc steady fuel r c c' t' :
  calibrate has_rdtsc tsc steady fuel = Some r → steady_ok steady fuel → 0 < tsc 1%nat - tsc 0%nat < 2 ^ 53 →
  0 ≤ c ≤ c' → c' < 2 ^ 64 → seq_now_ns r c' = Some t' → ∃ t, seq_now_ns r c = Some t ∧ 0 ≤ t ≤ t'.
Proof.
  intros Hcal Hs Htsc Hc Hc' Ht. destruct (calibrated_rate _ _ _ _ _ Hcal Hs Htsc) as (m & e & -> & Hr).
  eapply convert_mono; [exact Hc|done|lia|exact Ht].
Qed.

Section Stamps.
Context {Qi Q B D : Type} `{FifoLaws Qi SequencedEvent} `{FifoLaws Q OutboundAck}.
Context `{BroadcastLaws B SequencedEvent} `{SqliteFaultLaws D}.
Context (PoolCapacity kMaxSpins : nat) (now_ns reading : Z → Z).
Context (fsync_every_n_ fsync_interval_ batch_every_n_ batch_interval_ : Z).
Context (wal_clock db_clock wall : nat → Z).
Hypothesis Hcap : Z.of_nat PoolCapacity < 2 ^ 31.
Hypothesis Hfsync : 0 < fsync_every_n_ < 2 ^ 64.
Hypothesis Hbatch : 0 < batch_every_n_ < 2 ^ 64.
Context (out : AckOut Q) (old : list SequencedEvent) (T0 : Tables).
Context (inputs : list Qi) (rn : Running B Q D) (acks0 fills0 : Q).
Context (has_rdtsc : bool) (tsc steady : nat → Z) (fuel : nat) (r : double).

Abbreviation step := (@proc_step Qi Q B D _ _ _ _ kMaxSpins now_ns fsync_every_n_ fsync_interval_
  batch_every_n_ batch_interval_ wal_clock db_clock wall).

(** C21: Timestamps follow sequence numbers, floating point included.  Let the
    sequencer's clock be calibrated as in the code, its counter never go back, and
    the conversions not overflow.  Then in every reachable state of the gateway
    process the event at position [i] of the published stream carries the number
    [i + 1] and the converted counter reading that was taken for it, and no event
    has a smaller timestamp than one before it, although the counter value and
    its product with the rate are both rounded to 53 bits. *)
Theorem timestamps_follow_sequence (s : Proc Qi Q B D) i j ev ev' :
  started PoolCapacity kMaxSpins fsync_every_n_ batch_every_n_ wall out old T0 inputs rn acks0 fills0 →
  rtc step (proc_init PoolCapacity inputs rn acks0 fills0) s → below_limit (length (published s)) →
  calibrate has_rdtsc tsc steady fuel = Some r → steady_ok steady fuel → 0 < tsc 1%nat - tsc 0%nat < 2 ^ 53 →
  (∀ k, 0 ≤ reading k < 2 ^ 64) → (∀ k k', k ≤ k' → reading k ≤ reading k') →
  (∀ k, seq_now_ns r (reading k) = Some (now_ns k)) →
  (i ≤ j)%nat → published s !! i = Some ev → published s !! j = Some ev' →
  ev_seq_num ev = Z.of_nat i + 1 ∧ seq_now_ns r (reading (Z.of_nat i + 1)) = Some (ev_sequence_ts ev) ∧
  ev_sequence_ts ev ≤ ev_sequence_ts ev'.
Proof.
  intros Hst Hr Hlim Hcal Hsd Htsc Hrange Hmono Hconv Hij Hi Hj.
  assert (∀ k, is_u64 (now_ns k)) as Hnow by (intros k; by eapply to_u64_fits, Hconv).
  destruct (reached PoolCapacity kMaxSpins now_ns fsync_every_n_ fsync_interval_ batch_every_n_ batch_interval_
              wal_clock db_clock wall Hnow Hcap Hfsync Hbatch out old T0 inputs rn acks0 fills0 s Hst Hr Hlim)
    as (qs & l0 & l1 & l2 & acks & fills & Hinv).
  assert (∀ k e, published s !! k = Some e → ev_seq_num e = Z.of_nat k + 1 ∧ ev_sequence_ts e = now_ns (Z.of_nat k + 1)) as Hev.
  { intros k e Hk. assert (ev_seq_num e = Z.of_nat k + 1) as Hn.
    { apply (so_numbered _ _ (pv_sys _ _ _ _ _ _ _ _ _ _ _ _ _ _ Hinv)). by apply lookup_app_l_Some. }
    split; [done|]. rewrite <-Hn. pose proof (pv_stamped _ _ _ _ _ _ _ _ _ _ _ _ _ _ Hinv) as [Hs _]%Forall_app.
    by apply (Forall_lookup_1 _ _ _ _ Hs Hk). }
  destruct (Hev i ev Hi) as [Hn ->]. destruct (Hev j ev' Hj) as [_ ->]. split_and!; [done|apply Hconv|].
  destruct (now_ns_mono has_rdtsc tsc steady fuel r (reading (Z.of_nat i + 1)) (reading (Z.of_nat j + 1)) (now_ns (Z.of_nat j + 1)))
    as (t & Ht & Hle); [done|done|done| |apply Hrange|apply Hconv|].
  - split; [apply Hrange|apply Hmono; lia].
  - rewrite Hconv in Ht. injection Ht as ->. lia.
Qed.

End Stamps.

(** A 5/3 GHz counter that has been running for months: its readings no longer fit
    a double.  Two orders are published. *)
Section DemoStamps.
#[local] Instance st_demo_ring : Broadcast (BroadcastRing SequencedEvent) SequencedEvent :=
  bcast_broadcast SequencedEvent 2 8.
#[local] Instance st_demo_ring_laws : BroadcastLaws (BroadcastRing SequencedEvent) SequencedEvent :=
  bcast_broadcast_laws SequencedEvent 2 8 pow2_capacity_2.
#[local] Instance st_demo_acks : Fifo (SpscRing OutboundAck) OutboundAck := spsc_fifo OutboundAck 4.
#[local] Instance st_demo_acks_laws : FifoLaws (SpscRing OutboundAck) OutboundAck :=
  spsc_fifo_laws OutboundAck 4 pow2_capacity_4.
#[local] Instance st_demo_queue : Fifo (SpscRing SequencedEvent) SequencedEvent := spsc_fifo SequencedEvent 4.
#[local] Instance st_demo_queue_laws : FifoLaws (SpscRing SequencedEvent) SequencedEvent :=
  spsc_fifo_laws SequencedEvent 4 pow2_capacity_4.

Definition st_tsc (k : nat) : Z := 300000000 * Z.of_nat k.
Definition st_steady (k : nat) : Z := 60000000 * Z.of_nat k.
Definition st_rate : double := default (of_u64 1) (calibrate true st_tsc st_steady 2).
Definition st_reading (k : Z) : Z := 2 ^ 55 + 1 + 3 * Z.max 0 (Z.min k 1000).
Definition st_now (k : Z) : Z := default 0 (seq_now_ns st_rate (st_reading k)).

Lemma st_steady_ok : steady_ok st_steady 2.
Proof. split; unfold st_steady; lia. Qed.

Lemma st_calibrated : calibrate true st_tsc st_steady 2 = Some st_rate.
Proof. vm_compute. reflexivity. Qed.

Lemma st_converted k : seq_now_ns st_rate (st_reading k) = Some (st_now k).
Proof.
  destruct (seq_now_ns st_rate (st_reading 1000)) as [t'|] eqn:Ht; [|vm_compute in Ht; discriminate].
  destruct (now_ns_mono true st_tsc st_steady 2 st_rate (st_reading k) (st_reading 1000) t' st_calibrated st_steady_ok)
    as (t & Hk & _); [unfold st_tsc; lia|unfold st_reading; lia|unfold st_reading; lia|exact Ht|].
  unfold st_now. rewrite Hk. reflexivity.
Qed.

Definition st_run (mvs : list Move) := run_moves 3 st_now 2 50 2 50 demo_clock demo_clock demo_clock mvs pr_init.

Lemma st_reach mvs s : Forall move_fits mvs → st_run mvs = Some s →
  rtc (proc_step 3 st_now 2 50 2 50 demo_clock demo_clock demo_clock) pr_init s.
Proof. intros Hf Hr. by apply (run_moves_sound _ _ _ _ _ _ _ _ _ mvs). Qed.

Lemma timestamps_follow_sequence_witness :
  ∃ s ev ev', st_run ([MvSubmit pr_order; MvSubmit pr_order] ++ replicate 5 MvSeq) = Some s ∧
    published s !! 0%nat = Some ev ∧ published s !! 1%nat = Some ev' ∧ 2 ^ 54 < ev_sequence_ts ev ≤ ev_sequence_ts ev'.
Proof.
  destruct (st_run ([MvSubmit pr_order; MvSubmit pr_order] ++ replicate 5 MvSeq)) as [s|] eqn:Hs;
    [|vm_compute in Hs; discriminate].
  assert (rtc (proc_step 3 st_now 2 50 2 50 demo_clock demo_clock demo_clock) pr_init s) as Hr.
  { refine (st_reach _ _ _ Hs). repeat constructor; apply pr_order_fits. }
  destruct (published s !! 0%nat) as [ev|] eqn:Hi; [|vm_compute in Hs; injection Hs as <-; discriminate].
  destruct (published s !! 1%nat) as [ev'|] eqn:Hj; [|vm_compute in Hs; injection Hs as <-; discriminate].
  destruct (timestamps_follow_sequence 4 3 st_now st_reading 2 50 2 50 demo_clock demo_clock demo_clock
              ltac:(lia) ltac:(lia) ltac:(lia) demo_out [] (mkTables [] []) pr_inputs pr_started pr_acks pr_acks
              true st_tsc st_steady 2 st_rate s 0 1 ev ev' pr_is_started Hr) as (_ & Hts & Hle).
  - vm_compute in Hs. injection Hs as <-. unfold below_limit. cbn. lia.
  - exact st_calibrated.
  - exact st_steady_ok.
  - unfold st_tsc. lia.
  - intros k. unfold st_reading. lia.
  - intros k k' Hk. unfold st_reading. lia.
  - exact st_converted.
  - lia.
  - exact Hi.
  - exact Hj.
  - exists s, ev, ev'. split; [reflexivity|]. split; [exact Hi|]. split; [exact Hj|]. split; [|exact Hle].
    change (Z.of_nat 0 + 1) with 1 in Hts. rewrite st_converted in Hts. injection Hts as <-. vm_compute. reflexivity.
Defined.

End DemoStamps.
