(* ===== verification/Histogram.v ===== *)
(** * Histogram: the log-linear latency histogram

    Models [include/latency_histogram.hpp].  The arguments and results of type
    [double] are those of [Float]; [print_summary] only formats and is left
    out. *)

From Stdlib Require Import SpecFloat.
From S2P Require Import Prelude Float.

#[local] Open Scope Z_scope.
#[local] Open Scope cpp_scope.

(** [while (v >>= 1) ++b;]: a 64-bit value shifts to zero within 64 rounds. *)
Fixpoint shift_count (fuel : nat) (v b : Z) : Z :=
  match fuel with
  | O => b
  | S fuel =>
      let v' := Z.shiftr v 1 in
      if v' =? 0 then b else shift_count fuel v' (u32 (b + 1))
  end.

Definition highest_bit (v : Z) : Z := shift_count 64 v 0.

Record LatencyHistogram := mkHist {
  sub_bucket_bits_ : Z;
  sub_bucket_count_ : Z;
  counts_ : list Z;
  total_count_ : Z;
  sum_ns_ : Z;
  min_ns_ : Z;
  max_ns_ : Z
}.

Definition hist_new (max_value_ns sub_bucket_bits : Z) : LatencyHistogram :=
  let sub_bucket_count := u32 (Z.shiftl 1 sub_bucket_bits) in
  mkHist sub_bucket_bits sub_bucket_count
    (replicate (Z.to_nat (u32 (highest_bit max_value_ns + 2) * sub_bucket_count)) 0)
    0 0 (2 ^ 64 - 1) 0.

Definition index_for (v : Z) (h : LatencyHistogram) : Z :=
  if v =? 0 then 0
  else
    let octave := highest_bit v in
    let base := u64 (Z.shiftl 1 octave) in
    let offset := u64 (v - base) in
    let sub0 := u32 (if sub_bucket_bits_ h <=? octave
                     then Z.shiftr offset (octave - sub_bucket_bits_ h) else offset) in
    let sub := Z.min sub0 (sub_bucket_count_ h - 1) in
    let idx := u64 (octave * sub_bucket_count_ h + sub) in
    Z.min idx (Z.of_nat (length (counts_ h)) - 1).

Definition value_for_index (idx : Z) (h : LatencyHistogram) : Z :=
  let octave := u32 (idx / sub_bucket_count_ h) in
  let sub := u32 (idx mod sub_bucket_count_ h) in
  let base := u64 (Z.shiftl 1 octave) in
  let width := if sub_bucket_bits_ h <=? octave
               then u64 (Z.shiftl 1 (octave - sub_bucket_bits_ h)) else 1 in
  u64 (base + sub * width).

Definition record (value_ns : Z) (h : LatencyHistogram) : option LatencyHistogram :=
  let i := index_for value_ns h in
  c ← (counts_ h).[i];
  counts ← (counts_ h).[i <- u64 (c + 1)];
  Some (mkHist (sub_bucket_bits_ h) (sub_bucket_count_ h) counts (u64 (total_count_ h + 1))
          (u64 (sum_ns_ h + value_ns)) (Z.min (min_ns_ h) value_ns) (Z.max (max_ns_ h) value_ns)).

Definition hist_count (h : LatencyHistogram) : Z := total_count_ h.
Definition hist_min (h : LatencyHistogram) : Z := if total_count_ h =? 0 then 0 else min_ns_ h.
Definition hist_max (h : LatencyHistogram) : Z := max_ns_ h.

(** The loop of [percentile], over the buckets from [i] on. *)
Fixpoint find_bucket (counts : list Z) (i running target : Z) : option Z :=
  match counts with
  | [] => None
  | c :: counts' =>
      let r := u64 (running + c) in
      if target <=? r then Some i else find_bucket counts' (i + 1) r target
  end.

(** [percentile] from the rank on. *)
Definition percentile_at (target : Z) (h : LatencyHistogram) : Z :=
  match find_bucket (counts_ h) 0 0 target with
  | Some i => value_for_index i h
  | None => max_ns_ h
  end.

(** [std::max<uint64_t>(1, static_cast<uint64_t>(std::ceil(p / 100.0 * total_count_)))];
    [None] when the conversion is undefined. *)
Definition percentile_target (p : double) (total_count : Z) : option Z :=
  c ← to_u64 (dceil (dmul (ddiv p (of_u64 100)) (of_u64 total_count)));
  Some (Z.max 1 c).

Definition percentile (p : double) (h : LatencyHistogram) : option Z :=
  if total_count_ h =? 0 then Some 0
  else target ← percentile_target p (total_count_ h); Some (percentile_at target h).

Definition mean (h : LatencyHistogram) : double :=
  if total_count_ h =? 0 then S754_zero false else ddiv (of_u64 (sum_ns_ h)) (of_u64 (total_count_ h)).

(** ** Buckets *)

Lemma shift_count_log2 : ∀ fuel v b,
  0 < v < 2 ^ Z.of_nat fuel → 0 ≤ b → b + Z.of_nat fuel < 2 ^ 32 →
  shift_count fuel v b = b + Z.log2 v.
Proof.
  induction fuel as [|fuel IH]; intros v b Hv Hb Hf; [cbn in Hv; lia|].
  rewrite Nat2Z.inj_succ, Z.pow_succ_r in Hv by lia. cbn [shift_count].
  pose proof (Z.log2_nonneg v). destruct (Z.eqb_spec (Z.shiftr v 1) 0) as [Hz|Hz].
  - apply Z.shiftr_eq_0_iff in Hz. lia.
  - assert (0 < Z.shiftr v 1) by (pose proof (proj2 (Z.shiftr_nonneg v 1)); lia).
    assert (1 ≤ Z.log2 v).
    { destruct (decide (Z.log2 v < 1)); [|lia]. exfalso. apply Hz, Z.shiftr_eq_0_iff. right. lia. }
    unwrap.
    rewrite IH; [rewrite Z.log2_shiftr by lia; lia| |lia|lia].
    split; [done|]. rewrite Z.shiftr_div_pow2 by lia. apply Z.div_lt_upper_bound; lia.
Qed.

Lemma highest_bit_log2 v : 0 < v < 2 ^ 64 → highest_bit v = Z.log2 v.
Proof. intros Hv. unfold highest_bit. rewrite shift_count_log2; lia. Qed.

(** The histogram's shape: [bits] sub-bucket bits and [octaves] octaves. *)
Record hist_shape (bits octaves : Z) (h : LatencyHistogram) : Prop := {
  hs_bits : sub_bucket_bits_ h = bits;
  hs_range : 0 ≤ bits < 32 ∧ 0 < octaves ≤ 64;
  hs_count : sub_bucket_count_ h = 2 ^ bits;
  hs_len : Z.of_nat (length (counts_ h)) = octaves * 2 ^ bits
}.

Lemma hist_new_shape max_value bits :
  0 < max_value < 2 ^ 62 → 0 ≤ bits < 32 →
  hist_shape bits (Z.log2 max_value + 2) (hist_new max_value bits).
Proof.
  intros Hm Hb. unfold hist_new. rewrite highest_bit_log2 by lia.
  pose proof (Z.log2_nonneg max_value).
  assert (Z.log2 max_value < 62) by (apply Z.log2_lt_pow2; lia).
  assert (0 < 2 ^ bits < 2 ^ 32) by (split; [apply Z.pow_pos_nonneg|apply Z.pow_lt_mono_r]; lia).
  rewrite Z.shiftl_1_l, !wrap_unsigned_id by word_lia.
  constructor; cbn; [done|lia|done|]. rewrite length_replicate. lia.
Qed.

(** The bucket of a non-zero value, without machine arithmetic. *)
Definition bucket (bits v : Z) : Z :=
  let o := Z.log2 v in
  o * 2 ^ bits + (if bits <=? o then (v - 2 ^ o) / 2 ^ (o - bits) else v - 2 ^ o).

Section Shape.
Context (bits octaves : Z) (h : LatencyHistogram) (Hsh : hist_shape bits octaves h).

Lemma bits_pos : 0 < 2 ^ bits < 2 ^ 32.
Proof.
  destruct (hs_range _ _ _ Hsh). split; [apply Z.pow_pos_nonneg|apply Z.pow_lt_mono_r]; lia.
Qed.

(** The offset inside an octave, in sub-buckets. *)
Lemma sub_bound v :
  0 < v → 0 ≤ (if bits <=? Z.log2 v then (v - 2 ^ Z.log2 v) / 2 ^ (Z.log2 v - bits) else v - 2 ^ Z.log2 v)
          < 2 ^ bits.
Proof.
  intros Hv. destruct (hs_range _ _ _ Hsh). destruct (Z.log2_spec v Hv) as [Hlo Hhi].
  pose proof (Z.log2_nonneg v). rewrite Z.pow_succ_r in Hhi by lia.
  destruct (Z.leb_spec bits (Z.log2 v)).
  - assert (0 < 2 ^ (Z.log2 v - bits)) by (apply Z.pow_pos_nonneg; lia).
    split; [apply Z.div_pos; lia|]. apply Z.div_lt_upper_bound; [lia|].
    rewrite <-Z.pow_add_r by lia. replace (Z.log2 v - bits + bits) with (Z.log2 v) by lia. lia.
  - assert (2 ^ Z.log2 v < 2 ^ bits) by (apply Z.pow_lt_mono_r; lia). lia.
Qed.

Lemma index_for_bucket v :
  0 < v < 2 ^ 64 → index_for v h = Z.min (bucket bits v) (octaves * 2 ^ bits - 1).
Proof.
  intros Hv. pose proof (sub_bound v ltac:(lia)) as Hsub. destruct (hs_range _ _ _ Hsh) as [Hb Ho].
  pose proof bits_pos. unfold index_for. rewrite (proj2 (Z.eqb_neq v 0)) by lia.
  rewrite highest_bit_log2 by done. rewrite (hs_bits _ _ _ Hsh), (hs_count _ _ _ Hsh), (hs_len _ _ _ Hsh).
  destruct (Z.log2_spec v ltac:(lia)) as [Hlo Hhi]. pose proof (Z.log2_nonneg v).
  assert (Z.log2 v < 64) by (apply Z.log2_lt_pow2; lia).
  assert (2 ^ Z.log2 v < 2 ^ 64) by (apply Z.pow_lt_mono_r; lia).
  cbv zeta. rewrite Z.shiftl_1_l. rewrite (wrap_unsigned_id 64 (2 ^ _)) by word_lia.
  rewrite (wrap_unsigned_id 64 (v - _)) by word_lia.
  unfold bucket. cbv zeta.
  replace (if bits <=? Z.log2 v then Z.shiftr (v - 2 ^ Z.log2 v) (Z.log2 v - bits) else v - 2 ^ Z.log2 v)
    with (if bits <=? Z.log2 v then (v - 2 ^ Z.log2 v) / 2 ^ (Z.log2 v - bits) else v - 2 ^ Z.log2 v)
    by (destruct (Z.leb_spec bits (Z.log2 v)); [by rewrite Z.shiftr_div_pow2 by lia|done]).
  revert Hsub. generalize (if bits <=? Z.log2 v then (v - 2 ^ Z.log2 v) / 2 ^ (Z.log2 v - bits)
                           else v - 2 ^ Z.log2 v). intros sub Hsub.
  rewrite (wrap_unsigned_id 32 sub) by word_lia. rewrite (Z.min_l sub) by lia.
  rewrite (wrap_unsigned_id 64); [done|]. unfold fits_unsigned. split; [nia|].
  assert (Z.log2 v * 2 ^ bits ≤ 63 * 2 ^ 32) by nia. lia.
Qed.

(** Every index is inside the array. *)
Lemma index_for_range v : 0 ≤ v < 2 ^ 64 → 0 ≤ index_for v h < Z.of_nat (length (counts_ h)).
Proof.
  intros Hv. rewrite (hs_len _ _ _ Hsh). pose proof bits_pos. destruct (hs_range _ _ _ Hsh).
  destruct (decide (v = 0)) as [->|Hne]; [cbn; nia|].
  rewrite index_for_bucket by lia. pose proof (sub_bound v ltac:(lia)). pose proof (Z.log2_nonneg v).
  assert (0 ≤ bucket bits v) by (unfold bucket; nia). nia.
Qed.

Lemma index_for_mono v1 v2 : 0 ≤ v1 ≤ v2 → v2 < 2 ^ 64 → index_for v1 h ≤ index_for v2 h.
Proof.
  intros Hv Hmax. pose proof bits_pos. destruct (decide (v1 = 0)) as [->|Hne].
  { cbn. apply index_for_range. lia. }
  rewrite !index_for_bucket by lia. apply Z.min_le_compat_r. unfold bucket. cbv zeta.
  pose proof (sub_bound v1 ltac:(lia)) as H1. pose proof (sub_bound v2 ltac:(lia)) as H2.
  pose proof (Z.log2_le_mono v1 v2 ltac:(lia)) as Hl.
  destruct (decide (Z.log2 v1 = Z.log2 v2)) as [Heq|Hlt]; [|nia].
  rewrite Heq in *. destruct (Z.leb_spec bits (Z.log2 v2)); [|lia].
  assert ((v1 - 2 ^ Z.log2 v2) / 2 ^ (Z.log2 v2 - bits) ≤ (v2 - 2 ^ Z.log2 v2) / 2 ^ (Z.log2 v2 - bits)); [|lia].
  apply Z.div_le_mono; [apply Z.pow_pos_nonneg; lia|lia].
Qed.

(** The representative of a bucket that is inside the array. *)
Lemma value_for_bucket v :
  0 < v < 2 ^ octaves →
  index_for v h = bucket bits v ∧
  value_for_index (bucket bits v) h =
    2 ^ Z.log2 v + (if bits <=? Z.log2 v
                    then (v - 2 ^ Z.log2 v) / 2 ^ (Z.log2 v - bits) * 2 ^ (Z.log2 v - bits)
                    else v - 2 ^ Z.log2 v).
Proof.
  intros Hv. destruct (hs_range _ _ _ Hsh) as [Hb Ho]. pose proof bits_pos as Hbp.
  assert (2 ^ octaves ≤ 2 ^ 64) by (apply Z.pow_le_mono_r; lia).
  pose proof (sub_bound v ltac:(lia)) as Hsub. pose proof (Z.log2_nonneg v).
  assert (Z.log2 v < octaves) as Hlo by (apply Z.log2_lt_pow2; lia).
  assert (2 ^ Z.log2 v < 2 ^ 64) by (apply Z.pow_lt_mono_r; lia).
  destruct (Z.log2_spec v ltac:(lia)) as [Hv1 Hv2]. split.
  { rewrite index_for_bucket by lia. apply Z.min_l. unfold bucket. cbv zeta. nia. }
  unfold value_for_index. rewrite (hs_bits _ _ _ Hsh), (hs_count _ _ _ Hsh).
  assert (bucket bits v / 2 ^ bits = Z.log2 v ∧
          bucket bits v mod 2 ^ bits = bucket bits v - Z.log2 v * 2 ^ bits) as [-> ->].
  { unfold bucket in *. cbv zeta in *. revert Hsub.
    generalize (if bits <=? Z.log2 v then (v - 2 ^ Z.log2 v) / 2 ^ (Z.log2 v - bits)
                else v - 2 ^ Z.log2 v). intros sub Hsub. split.
    - rewrite Z.div_add_l, Z.div_small by lia. lia.
    - rewrite Z.add_comm, Z.mod_add, Z.mod_small by lia. lia. }
  assert (bucket bits v - Z.log2 v * 2 ^ bits =
    if bits <=? Z.log2 v then (v - 2 ^ Z.log2 v) / 2 ^ (Z.log2 v - bits) else v - 2 ^ Z.log2 v) as ->
    by (unfold bucket; cbv zeta; lia).
  rewrite (wrap_unsigned_id 32 (Z.log2 v)) by word_lia.
  rewrite !Z.shiftl_1_l. cbv zeta.
  rewrite (wrap_unsigned_id 64 (2 ^ Z.log2 v)) by word_lia.
  destruct (Z.leb_spec bits (Z.log2 v)).
  - assert (0 < 2 ^ (Z.log2 v - bits) < 2 ^ 64).
    { split; [apply Z.pow_pos_nonneg; lia|apply Z.pow_lt_mono_r; lia]. }
    rewrite (wrap_unsigned_id 64 (2 ^ (Z.log2 v - bits))) by word_lia.
    rewrite (wrap_unsigned_id 32) by word_lia.
    pose proof (Z.mul_div_le (v - 2 ^ Z.log2 v) (2 ^ (Z.log2 v - bits)) ltac:(lia)).
    rewrite wrap_unsigned_id; [done|]. unfold fits_unsigned. nia.
  - rewrite (wrap_unsigned_id 32) by word_lia.
    unwrap. lia.
Qed.

(** ** Counting *)

(** How many of the samples [l] fall below bucket [i]. *)
Definition below (l : list Z) (i : Z) : Z :=
  Z.of_nat (length (filter (λ x, index_for x h < i) l)).

End Shape.

(** Same shape, so same buckets. *)
Lemma index_for_shape bits octaves h h' v :
  hist_shape bits octaves h → hist_shape bits octaves h' → 0 ≤ v < 2 ^ 64 →
  index_for v h = index_for v h'.
Proof.
  intros Hs Hs' Hv. destruct (decide (v = 0)) as [->|]; [done|].
  by rewrite !(index_for_bucket bits octaves) by (done || lia).
Qed.

Fixpoint record_all (l : list Z) (h : LatencyHistogram) : option LatencyHistogram :=
  match l with
  | [] => Some h
  | v :: l' => h' ← record v h; record_all l' h'
  end.

(** [h] holds exactly the samples [l]. *)
Record holds (bits octaves : Z) (l : list Z) (h : LatencyHistogram) : Prop := {
  ho_shape : hist_shape bits octaves h;
  ho_samples : Forall (λ v, 0 ≤ v < 2 ^ 64) l;
  ho_counts : ∀ i c, counts_ h !! i = Some c →
    c = Z.of_nat (length (filter (λ x, index_for x h = Z.of_nat i) l));
  ho_total : total_count_ h = Z.of_nat (length l);
  ho_min : min_ns_ h = foldr Z.min (2 ^ 64 - 1) l;
  ho_max : max_ns_ h = foldr Z.max 0 l
}.

Lemma hist_new_holds max_value bits :
  0 < max_value < 2 ^ 62 → 0 ≤ bits < 32 →
  holds bits (Z.log2 max_value + 2) [] (hist_new max_value bits).
Proof.
  intros Hm Hb. constructor; try done; [by apply hist_new_shape|].
  intros i c Hc. by apply lookup_replicate in Hc as [-> _].
Qed.

Lemma record_ok bits octaves l v h :
  holds bits octaves l h → 0 ≤ v < 2 ^ 64 → Z.of_nat (length l) < 2 ^ 64 - 1 →
  ∃ h', record v h = Some h' ∧ holds bits octaves (v :: l) h'.
Proof.
  intros [Hsh Hl Hc Ht Hmin Hmax] Hv Hlen.
  pose proof (index_for_range bits octaves h Hsh v Hv) as Hr. unfold record. cbv zeta.
  set (k := Z.to_nat (index_for v h)).
  assert (index_for v h = Z.of_nat k) as Hk by (unfold k; lia). rewrite Hk, array_get_nat.
  destruct (lookup_lt_is_Some_2 (counts_ h) k ltac:(lia)) as [c Hck]. rewrite Hck. cbn [mbind option_bind].
  rewrite array_set_nat by lia. cbn [mbind option_bind]. eexists. split; [done|].
  set (h' := mkHist _ _ _ _ _ _ _).
  assert (hist_shape bits octaves h') as Hsh'.
  { destruct Hsh. constructor; cbn; rewrite ?length_insert; done. }
  pose proof (Hc k c Hck) as Hcv.
  assert (length (filter (λ x, index_for x h = Z.of_nat k) l) ≤ length l)%nat by apply length_filter.
  constructor; [done|by constructor| | |by cbn; rewrite Hmin, Z.min_comm|by cbn; rewrite Hmax, Z.max_comm].
  - intros i ci Hi.
    assert (filter (λ x, index_for x h' = Z.of_nat i) (v :: l) =
            filter (λ x, index_for x h = Z.of_nat i) (v :: l)) as ->.
    { apply filter_ext_in. intros x Hx.
      rewrite (index_for_shape bits octaves h' h x Hsh' Hsh); [done|].
      apply elem_of_cons in Hx as [->|Hx]; [done|]. rewrite Forall_forall in Hl. by apply Hl. }
    rewrite filter_cons. destruct (decide (k = i)) as [<-|Hne].
    + cbn in Hi. rewrite list_lookup_insert_eq in Hi by lia. injection Hi as <-. rewrite decide_True by done. cbn.
      unwrap. lia.
    + cbn in Hi. rewrite list_lookup_insert_ne in Hi by done. rewrite decide_False by lia. by apply Hc.
  - cbn. rewrite Ht, wrap_unsigned_id by word_lia. lia.
Qed.

Lemma below_succ h l (i : nat) :
  below h l (Z.of_nat i + 1) =
  below h l (Z.of_nat i) + Z.of_nat (length (filter (λ x, index_for x h = Z.of_nat i) l)).
Proof.
  unfold below. induction l as [|x l IH]; [done|]. rewrite !filter_cons.
  repeat case_decide; cbn [length]; lia.
Qed.

Lemma find_bucket_spec h l target : ∀ counts (i : nat) running,
  (∀ j c, counts !! j = Some c →
     c = Z.of_nat (length (filter (λ x, index_for x h = Z.of_nat (i + j)) l))) →
  running = below h l (Z.of_nat i) → Z.of_nat (length l) < 2 ^ 64 →
  running < target ≤ below h l (Z.of_nat (i + length counts)) →
  ∃ k : nat, find_bucket counts (Z.of_nat i) running target = Some (Z.of_nat k) ∧
    below h l (Z.of_nat k) < target ≤ below h l (Z.of_nat k + 1).
Proof.
  induction counts as [|c counts IH]; intros i running Hc Hrun Hlen Ht.
  { cbn in Ht. rewrite Nat.add_0_r in Ht. lia. }
  pose proof (Hc 0%nat c eq_refl) as Hc0. rewrite Nat.add_0_r in Hc0.
  pose proof (below_succ h l i) as Hb.
  assert (0 ≤ below h l (Z.of_nat i + 1) ≤ Z.of_nat (length l)) as Hle.
  { unfold below. pose proof (length_filter (λ x, index_for x h < Z.of_nat i + 1) l). lia. }
  cbn [find_bucket]. rewrite Hrun, Hc0, <-Hb, wrap_unsigned_id by word_lia.
  destruct (Z.leb_spec target (below h l (Z.of_nat i + 1))) as [Hle'|Hgt].
  - exists i. split; [done|lia].
  - replace (Z.of_nat i + 1) with (Z.of_nat (S i)) in * by lia. apply IH; [|done|done|].
    + intros j c' Hj. rewrite (Hc (S j) c' Hj). by rewrite Nat.add_succ_r.
    + cbn [length] in Ht. rewrite Nat.add_succ_r in Ht. cbn. lia.
Qed.

(** ** Properties *)

(** Relative precision.  A non-zero value inside the histogram's range is
    counted in a bucket whose representative is at most the value, and off by
    less than one part in [2 ^ bits]; values below [2 ^ bits] are exact. *)
Theorem hist_precision bits octaves h v :
  hist_shape bits octaves h → 0 < v < 2 ^ octaves →
  value_for_index (index_for v h) h ≤ v ∧
  (v - value_for_index (index_for v h) h) * 2 ^ bits < v ∧
  (v < 2 ^ bits → value_for_index (index_for v h) h = v).
Proof.
  intros Hsh Hv. destruct (hs_range _ _ _ Hsh) as [Hb _]. pose proof (bits_pos bits octaves h Hsh).
  destruct (value_for_bucket bits octaves h Hsh v Hv) as [-> ->].
  destruct (Z.log2_spec v ltac:(lia)) as [Hlo Hhi]. pose proof (Z.log2_nonneg v).
  destruct (Z.leb_spec bits (Z.log2 v)) as [Hle|Hlt].
  - assert (0 < 2 ^ (Z.log2 v - bits)) as Hw by (apply Z.pow_pos_nonneg; lia).
    pose proof (Z.div_mod (v - 2 ^ Z.log2 v) (2 ^ (Z.log2 v - bits)) ltac:(lia)) as Hdm.
    pose proof (Z.mod_pos_bound (v - 2 ^ Z.log2 v) _ Hw) as Hmod.
    assert (2 ^ Z.log2 v = 2 ^ (Z.log2 v - bits) * 2 ^ bits) as Hsplit.
    { rewrite <-Z.pow_add_r by lia. f_equal. lia. }
    assert (2 ^ bits ≤ 2 ^ Z.log2 v) by (apply Z.pow_le_mono_r; lia).
    split_and!; [lia| |lia]. rewrite Hsplit in Hdm, Hlo, Hmod |- *. nia.
  - split_and!; lia.
Qed.

Lemma hist_precision_witness :
  value_for_index (index_for 1000 (hist_new (2 ^ 10) 3)) (hist_new (2 ^ 10) 3) ≤ 1000.
Proof.
  apply (hist_precision 3 12 (hist_new (2 ^ 10) 3) 1000).
  - exact (hist_new_shape (2 ^ 10) 3 ltac:(lia) ltac:(lia)).
  - lia.
Defined.

(** The loop finds the bucket of the sample of a given rank. *)
Lemma percentile_at_rank bits octaves l h target :
  holds bits octaves l h → Z.of_nat (length l) < 2 ^ 64 → 1 ≤ target ≤ Z.of_nat (length l) →
  ∃ k : nat, percentile_at target h = value_for_index (Z.of_nat k) h ∧
    below h l (Z.of_nat k) < target ≤ below h l (Z.of_nat k + 1).
Proof.
  intros Hh Hlen Ht. destruct (Hh) as [Hsh Hl Hc Htot _ _]. unfold percentile_at.
  destruct (find_bucket_spec h l target (counts_ h) 0 0) as (k & Hk & Hb); [done| |done| |].
  - unfold below. rewrite filter_none; [done|]. apply Forall_forall. intros x Hx.
    rewrite Forall_forall in Hl. pose proof (index_for_range bits octaves h Hsh x (Hl x Hx)). lia.
  - split; [lia|]. unfold below. rewrite filter_all; [lia|]. eapply Forall_impl; [exact Hl|]. cbn.
    intros x Hx. apply (index_for_range bits octaves h Hsh x Hx).
  - change (Z.of_nat 0) with 0 in Hk. exists k. rewrite Hk. done.
Qed.

(** Rounding cannot push the rank past the number of samples. *)
Lemma percentile_target_ok m e n :
  scaled_le m e 100 → 0 < n < 2 ^ 53 →
  ∃ t, percentile_target (S754_finite false m e) n = Some t ∧ 1 ≤ t ≤ n.
Proof.
  intros Hp Hn. destruct (unit_times _ _ (ddiv_unit m e 100 Hp ltac:(lia)) Hn) as (c & Hc & Hcn).
  exists (Z.max 1 c). unfold percentile_target. rewrite Hc. split; [done|lia].
Qed.

(** A percentile is always defined, and a 64-bit value. *)
Lemma percentile_defined bits octaves l h m e :
  holds bits octaves l h → Z.of_nat (length l) < 2 ^ 53 → scaled_le m e 100 →
  ∃ v, percentile (S754_finite false m e) h = Some v ∧ is_u64 v.
Proof.
  intros Hh Hlen Hp. unfold percentile. rewrite (ho_total _ _ _ _ Hh).
  destruct (Z.eqb_spec (Z.of_nat (length l)) 0); [exists 0; split; [done|word_lia]|].
  destruct (percentile_target_ok m e (Z.of_nat (length l)) Hp ltac:(lia)) as (t & -> & Ht). cbn [mbind option_bind].
  destruct (percentile_at_rank bits octaves l h t Hh ltac:(lia) Ht) as (k & -> & _).
  eexists. split; [done|]. by apply wrap_unsigned_fits.
Qed.

Lemma hist_extremes_fit bits octaves l h : holds bits octaves l h → is_u64 (hist_min h) ∧ is_u64 (hist_max h).
Proof.
  intros [_ Hl _ Ht Hmin Hmax]. unfold hist_min, hist_max. rewrite Hmin, Hmax, Ht.
  assert (is_u64 (foldr Z.min (2 ^ 64 - 1) l) ∧ is_u64 (foldr Z.max 0 l)) as [H1 H2].
  { clear -Hl. induction Hl as [|x l Hx _ [IH1 IH2]]; cbn [foldr]; split; word_lia. }
  split; [|done]. destruct (_ =? 0); [word_lia|done].
Qed.

(** [percentile] of a [double] [p] in (0, 100].  For up to [2 ^ 53 - 1]
    samples [l], rounding cannot push the rank past the number of samples: the
    conversion to an integer is defined and gives a rank [1 ≤ target ≤ length l],
    so the [return max_ns_] after the loop is never reached; and the result
    represents the bucket of the sample of that rank: fewer than [target] samples
    lie in lower buckets, and at least [target] in buckets up to it. *)
Theorem hist_percentile_rank bits octaves l h m e :
  holds bits octaves l h → 0 < Z.of_nat (length l) < 2 ^ 53 → scaled_le m e 100 →
  let p := S754_finite false m e in
  ∃ target (k : nat), percentile_target p (Z.of_nat (length l)) = Some target ∧
    1 ≤ target ≤ Z.of_nat (length l) ∧ percentile p h = Some (value_for_index (Z.of_nat k) h) ∧
    below h l (Z.of_nat k) < target ≤ below h l (Z.of_nat k + 1).
Proof.
  intros Hh Hlen Hp p. destruct (percentile_target_ok m e _ Hp Hlen) as (t & Ht & Hr).
  destruct (percentile_at_rank bits octaves l h t Hh ltac:(lia) Hr) as (k & Hk & Hb).
  exists t, k. split_and!; [done|lia..| |lia|lia].
  unfold percentile, p. rewrite (ho_total _ _ _ _ Hh), (proj2 (Z.eqb_neq _ 0)), Ht by lia. cbn. by rewrite Hk.
Qed.

(** The 50th percentile of three samples. *)
Lemma hist_percentile_rank_witness :
  ∃ h (k : nat), record_all [5; 900; 7] (hist_new (2 ^ 10) 3) = Some h ∧
    of_u64 50 = S754_finite false 7036874417766400 (-47) ∧
    percentile (of_u64 50) h = Some (value_for_index (Z.of_nat k) h) ∧ percentile (of_u64 50) h = Some 7.
Proof.
  destruct (record_ok 3 12 [] 5 _ (hist_new_holds (2 ^ 10) 3 ltac:(lia) ltac:(lia)) ltac:(lia) ltac:(cbn; lia))
    as (h1 & H1 & Hh1).
  destruct (record_ok 3 12 _ 900 _ Hh1 ltac:(lia) ltac:(cbn; lia)) as (h2 & H2 & Hh2).
  destruct (record_ok 3 12 _ 7 _ Hh2 ltac:(lia) ltac:(cbn; lia)) as (h3 & H3 & Hh3).
  destruct (hist_percentile_rank 3 12 _ h3 7036874417766400 (-47) Hh3 ltac:(cbn; lia)) as (tgt & k & _ & _ & Hk & _).
  { unfold scaled_le. cbn. lia. }
  exists h3, k.
  assert (record_all [5; 900; 7] (hist_new (2 ^ 10) 3) = Some h3) as Hall
    by (cbn [record_all mbind option_bind]; rewrite H1; cbn [mbind option_bind]; rewrite H2;
        cbn [mbind option_bind]; by rewrite H3).
  split; [exact Hall|]. split; [vm_compute; reflexivity|]. split; [exact Hk|].
  vm_compute in Hall. injection Hall as <-. vm_compute. reflexivity.
Defined.
