(* ===== verification/Results.v ===== *)
(** * Results: the latency report and the results file

    Models [include/results.hpp] and [LatencyHistogram::print_summary].  A file is
    its text, [None] when it does not exist; what the shell command, the local
    time and the file system answer are arguments. *)

From Stdlib Require Import Ascii String SpecFloat.
From S2P Require Import Prelude Float Text Histogram.

#[local] Open Scope Z_scope.

(** ** git_short_hash *)

Definition lf : ascii := ascii_of_nat 10.
Definition is_eol (c : ascii) : bool := (c =? lf)%char || (c =? ascii_of_nat 13)%char.

(** What [fgets] stores with room for [n] characters: up to the end of the first
    line, which is included. *)
Fixpoint fgets_chars (n : nat) (s : string) : string :=
  match n, s with
  | S n, String c s' => String c (if (c =? lf)%char then EmptyString else fgets_chars n s')
  | _, _ => EmptyString
  end.
Definition fgets (size : nat) (s : string) : option string :=
  match s with EmptyString => None | _ => Some (fgets_chars (size - 1) s) end.

(** [std::string hash(buf)]: up to the first NUL. *)
Fixpoint c_string (s : string) : string :=
  match s with
  | EmptyString => EmptyString
  | String c s' => if (c =? zero)%char then EmptyString else String c (c_string s')
  end.

(** [while (!hash.empty() && (hash.back() == '\n' || hash.back() == '\r')) hash.pop_back();] *)
Fixpoint pop_eol (s : string) : string :=
  match s with
  | EmptyString => EmptyString
  | String c s' =>
      match pop_eol s' with
      | EmptyString => if is_eol c then EmptyString else String c EmptyString
      | t => String c t
      end
  end.

(** [out] is the output of the command, [None] when [popen] fails. *)
Definition git_short_hash (out : option string) : string :=
  match out with
  | None => "unknown"
  | Some text =>
      match fgets 64 text with
      | None => "unknown"
      | Some buf =>
          match pop_eol (c_string buf) with EmptyString => "unknown" | hash => hash end
      end
  end%string.

(** ** append_result_csv *)

(** The fields of [std::tm] that the format uses. *)
Record Tm := mkTm { tm_year : Z; tm_mon : Z; tm_mday : Z; tm_hour : Z; tm_min : Z; tm_sec : Z }.

Definition two (n : Z) : string := pad "0" 2 (dec n).

(** [strftime(ts, sizeof(ts), "%Y-%m-%dT%H:%M:%S", tm)]. *)
Definition timestamp (t : Tm) : string :=
  (dec (tm_year t + 1900)%Z ++ "-" ++ two (tm_mon t + 1)%Z ++ "-" ++ two (tm_mday t) ++ "T" ++
   two (tm_hour t) ++ ":" ++ two (tm_min t) ++ ":" ++ two (tm_sec t))%string.

Definition csv_header : string :=
  "timestamp,git_hash,run_label,n,min_ns,mean_ns,p50_ns,p90_ns,p99_ns,p99_9_ns,p99_99_ns,max_ns"%string.

(** The literals [99.9] and [99.99]. *)
Definition p99_9 : double := ddiv (of_u64 999) (of_u64 10).
Definition p99_99 : double := ddiv (of_u64 9999) (of_u64 100).

(** [percentile(50)], ..., [percentile(99.99)]. *)
Definition percentiles (h : LatencyHistogram) : option (list Z) :=
  mapM (λ p, percentile p h) [of_u64 50; of_u64 90; of_u64 99; p99_9; p99_99].

(** The fields of a row, in order. *)
Definition row_fields (tm : Tm) (out : option string) (run_label : string) (event_count : Z)
    (h : LatencyHistogram) : option (list string) :=
  ps ← percentiles h;
  Some ([timestamp tm; git_short_hash out; run_label; dec event_count; dec (hist_min h); ostream_double (mean h)]
        ++ (dec <$> ps) ++ [dec (hist_max h)]).

Fixpoint has_slash (s : string) : bool :=
  match s with EmptyString => false | String c s' => (c =? "/")%char || has_slash s' end.

(** [append_result_csv(path, ...)]: the new contents of the file.  [dirs_ok]: the
    parent directory exists or can be created, otherwise [create_directories]
    throws ([None]); [opens]: the file can be opened for appending, otherwise the
    stream ignores what is written. *)
Definition append_result_csv (path : string) (dirs_ok opens : bool) (tm : Tm) (out : option string)
    (run_label : string) (event_count : Z) (h : LatencyHistogram) (file : option string)
    : option (option string) :=
  if has_slash path && negb dirs_ok then None
  else
    fields ← row_fields tm out run_label event_count h;
    let line t := (t ++ String lf EmptyString)%string in
    let row := line (String.concat "," fields) in
    if negb opens then Some file
    else
      Some (Some (match file with None => line csv_header ++ row | Some text => text ++ row end)%string).

(** ** print_summary *)

Definition summary_line (label : string) (w : nat) (value : string) : string :=
  ("  " ++ label ++ ": " ++ pad " " w value ++ " ns")%string.

Definition print_summary (label : string) (h : LatencyHistogram) : option (list string) :=
  ps ← percentiles h;
  Some ([("=== " ++ label ++ " (n=" ++ dec (total_count_ h) ++ ") ===")%string;
         summary_line "min    " 10 (dec (hist_min h));
         summary_line "mean   " 13 (printf_1f (mean h))]
        ++ zip_with (λ name v, summary_line name 10 (dec v))
             ["p50    "; "p90    "; "p99    "; "p99.9  "; "p99.99 "]%string ps
        ++ [summary_line "max    " 10 (dec (hist_max h))]).

(** ** Reading the file back *)

Fixpoint split_on (sep : ascii) (s : string) : list string :=
  match s with
  | EmptyString => [EmptyString]
  | String c s' =>
      if (c =? sep)%char then EmptyString :: split_on sep s'
      else match split_on sep s' with [] => [String c EmptyString] | t :: ts => String c t :: ts end
  end.

(** What a reader of the file gets from a row; the time and the mean as they are
    written. *)
Record Row := mkRow {
  rw_time : string; rw_hash : string; rw_label : string; rw_n : Z; rw_min : Z; rw_mean : string;
  rw_percentiles : list Z; rw_max : Z }.

Definition read_row (row : string) : option Row :=
  match split_on "," row with
  | [time; hash; label; n; mn; mean; p50; p90; p99; p99_9; p99_99; mx] =>
      n ← stoull n; mn ← stoull mn; ps ← mapM stoull [p50; p90; p99; p99_9; p99_99]; mx ← stoull mx;
      Some (mkRow time hash label n mn mean ps mx)
  | _ => None
  end.

Definition lacks (sep : ascii) (s : string) : bool := all_chars (λ c, negb (c =? sep)%char) s.

Lemma string_app_cons c s t : (String c s ++ t)%string = String c (s ++ t)%string.
Proof. done. Qed.

Lemma split_on_one sep s : lacks sep s = true → split_on sep s = [s].
Proof.
  induction s as [|c s IH]; cbn; [done|]. intros [Hc Hs]%andb_true_iff.
  destruct (c =? sep)%char; [done|]. by rewrite (IH Hs).
Qed.

Lemma split_on_app sep s t : lacks sep s = true → split_on sep (s ++ String sep t) = s :: split_on sep t.
Proof.
  induction s as [|c s IH]; [intros _; change ((EmptyString ++ String sep t)%string) with (String sep t); cbn; by rewrite Ascii.eqb_refl|].
  rewrite string_app_cons. cbn [lacks all_chars split_on]. intros [Hc Hs]%andb_true_iff.
  destruct (c =? sep)%char; [done|]. by rewrite (IH Hs).
Qed.

(** Fields without commas are recovered from the row. *)
Lemma split_on_concat sep fs :
  Forall (λ f, lacks sep f = true) fs → fs ≠ [] →
  split_on sep (String.concat (String sep EmptyString) fs) = fs.
Proof.
  induction 1 as [|f fs Hf Hfs IH]; [done|]. intros _. destruct fs as [|g fs]; [by apply split_on_one|].
  change (String.concat (String sep EmptyString) (f :: g :: fs))
    with (f ++ String sep (String.concat (String sep EmptyString) (g :: fs)))%string.
  by rewrite split_on_app, IH.
Qed.

Lemma lacks_concat c sep fs :
  lacks c (String sep EmptyString) = true → Forall (λ f, lacks c f = true) fs →
  lacks c (String.concat (String sep EmptyString) fs) = true.
Proof.
  intros Hsep. induction 1 as [|f fs Hf Hfs IH]; [done|]. destruct fs as [|g fs]; [done|].
  change (String.concat (String sep EmptyString) (f :: g :: fs))
    with (f ++ (String sep EmptyString ++ String.concat (String sep EmptyString) (g :: fs)))%string.
  unfold lacks in *. by rewrite !all_chars_app, Hf, Hsep, IH.
Qed.

(** ** The hash *)

Lemma all_chars_mono (p q : ascii → bool) s :
  (∀ c, p c = true → q c = true) → all_chars p s = true → all_chars q s = true.
Proof. intros Hpq. induction s as [|c s IH]; cbn; [done|]. intros [Hc Hs]%andb_true_iff. by rewrite Hpq, IH. Qed.

(** A line feed only at the very end. *)
Fixpoint eol_last (s : string) : bool :=
  match s with
  | EmptyString => true
  | String c s' => if (c =? lf)%char then match s' with EmptyString => true | _ => false end else eol_last s'
  end.

Lemma fgets_eol_last : ∀ n s, eol_last (fgets_chars n s) = true.
Proof. induction n as [|n IH]; intros [|c s]; cbn; try done. by destruct (c =? lf)%char. Qed.

Lemma c_string_eol_last s : eol_last s = true → eol_last (c_string s) = true.
Proof.
  induction s as [|c s IH]; cbn; [done|]. destruct (c =? zero)%char; [done|]. cbn.
  destruct (c =? lf)%char; [by destruct s|done].
Qed.

Lemma pop_eol_clean s : eol_last s = true → lacks lf (pop_eol s) = true.
Proof.
  induction s as [|c s IH]; cbn; [done|]. destruct (c =? lf)%char eqn:Hc.
  - destruct s; [|done]. intros _. cbn. unfold is_eol. by rewrite Hc.
  - intros Hs. specialize (IH Hs). destruct (pop_eol s); cbn in *; [destruct (is_eol c)|]; cbn; by rewrite ?Hc.
Qed.

Lemma all_chars_pop p s : all_chars p s = true → all_chars p (pop_eol s) = true.
Proof.
  induction s as [|c s IH]; cbn; [done|]. intros [Hc Hs]%andb_true_iff. specialize (IH Hs).
  destruct (pop_eol s); cbn in *; [destruct (is_eol c); cbn; by rewrite ?Hc|by rewrite Hc].
Qed.

Lemma all_chars_c_string p s : all_chars p s = true → all_chars p (c_string s) = true.
Proof.
  induction s as [|c s IH]; cbn; [done|]. intros [Hc Hs]%andb_true_iff.
  destruct (c =? zero)%char; cbn; [done|]. by rewrite Hc, IH.
Qed.

Lemma all_chars_fgets p : ∀ n s, all_chars p s = true → all_chars p (fgets_chars n s) = true.
Proof.
  induction n as [|n IH]; intros [|c s]; cbn; try done. intros [Hc Hs]%andb_true_iff.
  rewrite Hc. destruct (c =? lf)%char; [done|]. by apply IH.
Qed.

(** Whatever the command prints, the hash is one line. *)
Lemma git_short_hash_line out : lacks lf (git_short_hash out) = true.
Proof.
  unfold git_short_hash. destruct out as [[|c text]|]; [done| |done]. cbn [fgets].
  pose proof (pop_eol_clean _ (c_string_eol_last _ (fgets_eol_last (64 - 1) (String c text)))) as Hl.
  by destruct (pop_eol _).
Qed.

Lemma git_short_hash_chars p out :
  all_chars p "unknown" = true → (∀ text, out = Some text → all_chars p text = true) →
  all_chars p (git_short_hash out) = true.
Proof.
  intros Hu Ho. unfold git_short_hash. destruct out as [[|c text]|]; [done| |done]. cbn [fgets].
  pose proof (all_chars_pop p _ (all_chars_c_string p _ (all_chars_fgets p (64 - 1) _ (Ho _ eq_refl)))) as Hp.
  by destruct (pop_eol _).
Qed.

(** ** Rows *)

Lemma percentile_args :
  Forall (λ p, ∃ m e, p = S754_finite false m e ∧ scaled_le m e 100)
    [of_u64 50; of_u64 90; of_u64 99; p99_9; p99_99].
Proof. repeat constructor; eexists _, _; (split; [vm_compute; reflexivity|vm_compute; discriminate]). Qed.

Lemma percentiles_defined bits octaves l h :
  holds bits octaves l h → Z.of_nat (length l) < 2 ^ 53 →
  ∃ ps, percentiles h = Some ps ∧ length ps = 5%nat ∧ Forall (fits_unsigned 64) ps.
Proof.
  intros Hh Hlen. unfold percentiles. change 5%nat with (length [of_u64 50; of_u64 90; of_u64 99; p99_9; p99_99]).
  generalize percentile_args. induction 1 as [|p args (m & e & -> & Hp) _ IH]; [by exists []|].
  destruct (percentile_defined bits octaves l h m e Hh Hlen Hp) as (v & Hv & Hvf).
  destruct IH as (ps & Hps & Hl & Hf). exists (v :: ps). cbn. rewrite Hv. cbn. rewrite Hps. cbn.
  split_and!; [done|by rewrite Hl|by constructor].
Qed.

(** One run of a program, as it reports itself. *)
Record Run := mkRun {
  ru_tm : Tm; ru_out : option string; ru_label : string; ru_count : Z; ru_hist : LatencyHistogram }.

Record run_ok (r : Run) : Prop := {
  ro_label : lacks "," (ru_label r) = true ∧ lacks lf (ru_label r) = true;
  ro_out : ∀ text, ru_out r = Some text → lacks "," text = true;
  ro_count : is_u64 (ru_count r);
  ro_hist : ∃ bits octaves l, holds bits octaves l (ru_hist r) ∧ Z.of_nat (length l) < 2 ^ 53
}.

Lemma lacks_digits sep : sep ∈ [","%char; lf] → ∀ d, 0 ≤ d < 10 → negb (digit_char d =? sep)%char = true.
Proof. intros Hs d Hd. rewrite !elem_of_cons, elem_of_nil in Hs. destruct Hs as [->|[->|[]]]; by digit_cases d. Qed.

Lemma lacks_dec sep n : sep ∈ [","%char; lf] → lacks sep (dec n) = true.
Proof. intros Hs. by apply all_chars_dec, lacks_digits. Qed.

Lemma lacks_timestamp sep t : sep ∈ [","%char; lf] → lacks sep (timestamp t) = true.
Proof.
  intros Hs. unfold timestamp, two, lacks. pose proof (lacks_digits sep Hs 0 ltac:(lia)) as H0.
  assert (∀ n, all_chars (λ c, negb (c =? sep)%char) (pad "0" 2 (dec n)) = true) as Hp.
  { intros n. apply all_chars_pad; [exact H0|by apply lacks_dec]. }
  rewrite !all_chars_app, !Hp. change (all_chars _ (dec ?n)) with (lacks sep (dec n)). rewrite lacks_dec by done.
  rewrite !elem_of_cons, elem_of_nil in Hs. by destruct Hs as [->|[->|[]]].
Qed.

Lemma lacks_ostream sep x : sep ∈ [","%char; lf] → lacks sep (ostream_double x) = true.
Proof.
  intros Hs. apply all_chars_ostream; [by apply lacks_digits|].
  rewrite !elem_of_cons, elem_of_nil in Hs. by destruct Hs as [->|[->|[]]].
Qed.

Definition row_of (r : Run) (ps : list Z) : Row :=
  mkRow (timestamp (ru_tm r)) (git_short_hash (ru_out r)) (ru_label r) (ru_count r) (hist_min (ru_hist r))
    (ostream_double (mean (ru_hist r))) ps (hist_max (ru_hist r)).

Lemma row_reads r :
  run_ok r → ∃ fields ps, row_fields (ru_tm r) (ru_out r) (ru_label r) (ru_count r) (ru_hist r) = Some fields ∧
    percentiles (ru_hist r) = Some ps ∧ lacks lf (String.concat "," fields) = true ∧
    read_row (String.concat "," fields) = Some (row_of r ps).
Proof.
  intros [[Hl1 Hl2] Ho Hc (bits & octaves & l & Hh & Hlen)].
  destruct (percentiles_defined bits octaves l _ Hh Hlen) as (ps & Hps & Hpl & Hpf).
  destruct (hist_extremes_fit _ _ _ _ Hh) as [Hmin Hmax].
  unfold row_fields. rewrite Hps. cbn [mbind option_bind]. eexists _, ps. split; [done|]. split; [done|].
  assert (∀ sep, sep ∈ [","%char; lf] → lacks sep (git_short_hash (ru_out r)) = true) as Hgit.
  { intros sep. rewrite !elem_of_cons, elem_of_nil. intros [->|[->|[]]]; [|apply git_short_hash_line].
    by apply git_short_hash_chars. }
  assert (∀ sep, sep ∈ [","%char; lf] → lacks sep (ru_label r) = true) as Hlab.
  { intros sep. rewrite !elem_of_cons, elem_of_nil. by intros [->|[->|[]]]. }
  assert (∀ sep fs, sep ∈ [","%char; lf] → Forall (λ f, lacks sep f = true) (dec <$> fs)) as Hdec.
  { intros sep fs Hs. apply Forall_fmap, Forall_true. intros n. by apply lacks_dec. }
  assert (∀ sep, sep ∈ [","%char; lf] → Forall (λ f, lacks sep f = true)
    ([timestamp (ru_tm r); git_short_hash (ru_out r); ru_label r; dec (ru_count r); dec (hist_min (ru_hist r));
      ostream_double (mean (ru_hist r))] ++ (dec <$> ps) ++ [dec (hist_max (ru_hist r))])) as Hall.
  { intros sep Hs. apply Forall_app. split; [|apply Forall_app; split; [by apply Hdec|]].
    - repeat constructor; auto using lacks_timestamp, lacks_dec, lacks_ostream.
    - repeat constructor. by apply lacks_dec. }
  split; [apply lacks_concat; [done|apply Hall; set_solver]|].
  unfold read_row. rewrite split_on_concat by (try apply Hall; set_solver).
  destruct ps as [|p1 [|p2 [|p3 [|p4 [|p5 [|]]]]]]; try done.
  apply Forall_cons in Hpf as [F1 Hpf]. apply Forall_cons in Hpf as [F2 Hpf]. apply Forall_cons in Hpf as [F3 Hpf].
  apply Forall_cons in Hpf as [F4 Hpf]. apply Forall_cons in Hpf as [F5 _].
  cbn [fmap list_fmap app mapM mbind option_bind]. unfold row_of. by rewrite !stoull_dec by done.
Qed.

(** ** A series of runs *)

Fixpoint history (path : string) (runs : list Run) (file : option string) : option (option string) :=
  match runs with
  | [] => Some file
  | r :: runs =>
      file ← append_result_csv path true true (ru_tm r) (ru_out r) (ru_label r) (ru_count r) (ru_hist r) file;
      history path runs file
  end.

(** Lines, each ended by a line feed. *)
Fixpoint unlines (ls : list string) : string :=
  match ls with [] => EmptyString | l :: ls => (l ++ String lf (unlines ls))%string end.

Lemma string_app_assoc (s t u : string) : ((s ++ t) ++ u = s ++ (t ++ u))%string.
Proof. induction s as [|c s IH]; [done|]. rewrite !string_app_cons. by f_equal. Qed.

Lemma unlines_app ls l : unlines (ls ++ [l]) = (unlines ls ++ l ++ String lf EmptyString)%string.
Proof. induction ls as [|x ls IH]; [done|]. cbn [unlines app]. by rewrite IH, string_app_assoc. Qed.

Lemma split_unlines ls :
  Forall (λ l, lacks lf l = true) ls → split_on lf (unlines ls) = ls ++ [EmptyString].
Proof. induction 1 as [|l ls Hl _ IH]; [done|]. cbn [unlines app]. by rewrite split_on_app, IH. Qed.

Definition row_for (r : Run) (row : string) : Prop :=
  lacks lf row = true ∧ ∃ ps, percentiles (ru_hist r) = Some ps ∧ read_row row = Some (row_of r ps).

(** A run appends its row, after the header if the file is new. *)
Lemma append_row path r file :
  run_ok r → ∃ row, row_for r row ∧
    append_result_csv path true true (ru_tm r) (ru_out r) (ru_label r) (ru_count r) (ru_hist r) file =
      Some (Some (match file with None => unlines [csv_header; row]
                             | Some text => text ++ row ++ String lf EmptyString end)%string).
Proof.
  intros Hr. destruct (row_reads r Hr) as (fields & ps & Hf & Hps & Hl & Hread).
  exists (String.concat "," fields). split; [split; [done|by exists ps]|].
  unfold append_result_csv. cbn [negb]. rewrite andb_false_r, Hf. cbn [mbind option_bind].
  destruct file; [done|]. cbn [unlines]. by rewrite string_app_assoc.
Qed.

Lemma history_rows path : ∀ runs ls, Forall run_ok runs →
  ∃ rows, Forall2 row_for runs rows ∧ history path runs (Some (unlines ls)) = Some (Some (unlines (ls ++ rows))).
Proof.
  induction runs as [|r runs IH]; intros ls Hr; cbn [history].
  { exists []. by rewrite app_nil_r. }
  apply Forall_cons in Hr as [Hr Hrs]. destruct (append_row path r (Some (unlines ls)) Hr) as (row & Hrow & ->).
  cbn [mbind option_bind]. rewrite <-unlines_app. destruct (IH (ls ++ [row]) Hrs) as (rows & Hrows & ->).
  exists (row :: rows). split; [by constructor|]. by rewrite <-app_assoc.
Qed.

(** C25: The results file is a faithful record of the runs.  Starting without a
    file, any series of runs leaves a text whose lines are the header, once, and
    then one row per run in order; and reading a row back, by splitting it at the
    commas and converting the whole numbers, gives all twelve columns: the time of
    the run, its hash, label, event count and minimum, its mean in the six
    significant digits of a stream, the five percentiles and the maximum.  The label
    and what [git] prints must have no comma, and the label no line feed
    ([run_ok]). *)
Theorem results_history path runs :
  Forall run_ok runs → runs ≠ [] →
  ∃ text rows, history path runs None = Some (Some text) ∧
    split_on lf text = csv_header :: rows ++ [EmptyString] ∧
    Forall2 (λ r row, ∃ ps, percentiles (ru_hist r) = Some ps ∧ read_row row = Some (row_of r ps)) runs rows.
Proof.
  intros Hr Hne. destruct runs as [|r runs]; [done|]. apply Forall_cons in Hr as [Hr Hrs]. cbn [history].
  destruct (append_row path r None Hr) as (row & Hrow & ->). cbn [mbind option_bind].
  destruct (history_rows path runs [csv_header; row] Hrs) as (rows & Hrows & ->).
  exists (unlines (csv_header :: row :: rows)), (row :: rows). split; [done|].
  assert (Forall2 row_for (r :: runs) (row :: rows)) as Hall by (by constructor). split.
  - rewrite split_unlines; [done|]. constructor; [done|]. clear -Hall.
    remember (r :: runs) as rs. remember (row :: rows) as ws. clear Heqrs Heqws.
    induction Hall as [|? ? ? ? [H _] _ IH]; constructor; done.
  - eapply Forall2_impl; [exact Hall|]. by intros ? ? [_ ?].
Qed.

(** Two runs, one of them with an empty histogram. *)
Lemma results_history_witness :
  ∃ h text rows, record_all [5; 900; 7] (hist_new (2 ^ 10) 3) = Some h ∧
    let runs := [mkRun (mkTm 126 0 2 3 4 5) (Some (String "a" (String lf EmptyString))) "synthetic" 3 h;
                 mkRun (mkTm 126 0 2 3 5 5) None "udp_multicast" 0 (hist_new (2 ^ 10) 3)] in
    history "results/history.csv" runs None = Some (Some text) ∧
    split_on lf text = csv_header :: rows ++ [EmptyString] ∧
    rows = ["2026-01-02T03:04:05,a,synthetic,3,5,304,7,896,896,896,896,900";
            "2026-01-02T03:05:05,unknown,udp_multicast,0,0,0,0,0,0,0,0,0"]%string.
Proof.
  pose proof (hist_new_holds (2 ^ 10) 3 ltac:(lia) ltac:(lia)) as H0.
  destruct (record_ok 3 12 [] 5 _ H0 ltac:(lia) ltac:(cbn; lia)) as (h1 & H1 & Hh1).
  destruct (record_ok 3 12 _ 900 _ Hh1 ltac:(lia) ltac:(cbn; lia)) as (h2 & H2 & Hh2).
  destruct (record_ok 3 12 _ 7 _ Hh2 ltac:(lia) ltac:(cbn; lia)) as (h3 & H3 & Hh3).
  set (runs := [mkRun (mkTm 126 0 2 3 4 5) (Some (String "a" (String lf EmptyString))) "synthetic" 3 h3;
                 mkRun (mkTm 126 0 2 3 5 5) None "udp_multicast" 0 (hist_new (2 ^ 10) 3)]).
  destruct (results_history "results/history.csv" runs) as (text & rows & Ht & Hs & _).
  { repeat constructor; try done; cbn.
    - by intros text [= <-].
    - exists 3, 12, [7; 900; 5]. split; [exact Hh3|cbn; lia].
    - exists 3, (Z.log2 (2 ^ 10) + 2), []. split; [exact H0|cbn; lia]. }
  { done. }
  exists h3, text, rows.
  assert (record_all [5; 900; 7] (hist_new (2 ^ 10) 3) = Some h3) as Hall
    by (cbn [record_all mbind option_bind]; rewrite H1; cbn [mbind option_bind]; rewrite H2;
        cbn [mbind option_bind]; by rewrite H3).
  split; [exact Hall|]. split; [exact Ht|]. split; [exact Hs|].
  vm_compute in Hall. injection Hall as E3. unfold runs in Ht. rewrite <-E3 in Ht. vm_compute in Ht.
  injection Ht as <-. vm_compute in Hs. injection Hs as Hs. 
  by apply (app_inv_tail [EmptyString]).
Defined.
