(* ===== verification/Feed.v ===== *)
(** * Feed: market data, in files and on the wire

    Models [include/wire_format.hpp], [include/market_data_feed.hpp] and the
    sending loop of [src/feed_publisher.cpp].  A text file is its list of lines;
    the random draws of [generate_synthetic] come from the C++ library's
    generator and distributions, whose sequence is an argument. *)

From Stdlib Require Import Ascii String.
From S2P Require Import Prelude Types Protocol Text.

#[local] Open Scope Z_scope.

(** ** wire_format.hpp *)

Record WireOrder := mkWireOrder {
  wo_id : Z; wo_side : Z; wo_price : Z; wo_qty : Z; wo_ts_ns : Z }.

Definition sizeof_WireOrder : nat := 29.

Definition to_wire (o : Order) : WireOrder :=
  mkWireOrder (o_id o) (side_code (o_side o)) (o_price o) (o_qty o) (o_ts o).

Definition from_wire (w : WireOrder) : Order :=
  mkOrder (wo_id w) (if wo_side w =? 0 then Buy else Sell) (wo_price w) (wo_qty w) (wo_ts_ns w).

(** The packet of a [WireOrder]: packed, little-endian, [price] in two's
    complement. *)
Definition wire_encode (w : WireOrder) : bytes :=
  le_encode 8 (wo_id w) ++ le_encode 1 (wo_side w) ++ le_encode 8 (u64 (wo_price w)) ++
  le_encode 4 (wo_qty w) ++ le_encode 8 (wo_ts_ns w).

Definition wire_decode (bs : bytes) : WireOrder :=
  mkWireOrder (field 0 8 bs) (field 8 1 bs) (i64 (field 9 8 bs)) (field 17 4 bs) (field 21 8 bs).

Definition order_fits (o : Order) : Prop :=
  is_u64 (o_id o) ∧ is_i64 (o_price o) ∧ is_u32 (o_qty o) ∧ is_u64 (o_ts o).

Lemma i64_u64 z : is_i64 z → i64 (u64 z) = z.
Proof.
  unfold fits_signed, wrap_signed, wrap_unsigned. intros Hz.
  rewrite Zplus_mod_idemp_l. replace (64 - 1) with 63 in * by lia.
  rewrite Z.mod_small by lia. lia.
Qed.

Lemma length_wire_encode w : length (wire_encode w) = sizeof_WireOrder.
Proof. unfold wire_encode. by rewrite !length_app, !length_le_encode. Qed.

Lemma wire_roundtrip o : order_fits o → from_wire (wire_decode (wire_encode (to_wire o))) = o.
Proof.
  intros (H1 & H2 & H3 & H4).
  assert (is_u64 (u64 (o_price o))) as H5 by (by apply wrap_unsigned_fits).
  assert (is_u8 (side_code (o_side o))) as H6 by (destruct (o_side o); split; reflexivity || discriminate).
  assert (field 21 8 (wire_encode (to_wire o)) = o_ts o) as Hts.
  { unfold wire_encode. cbn [to_wire wo_id wo_side wo_price wo_qty wo_ts_ns].
    rewrite <-(app_nil_r (le_encode 8 (o_ts o))). fields. done. }
  unfold wire_decode. rewrite Hts. unfold wire_encode.
  cbn [to_wire wo_id wo_side wo_price wo_qty wo_ts_ns]. fields.
  unfold from_wire. cbn. rewrite i64_u64 by done. destruct o as [? [] ? ? ?]; reflexivity.
Qed.

(** ** feed_publisher.cpp: the sending loop *)

Definition end_marker : WireOrder := mkWireOrder 0 0 0 0 0.

(** The datagrams handed to [sendto], in order. *)
Definition publish_feed (events : list Order) : list bytes :=
  ((λ o, wire_encode (to_wire o)) <$> events) ++ [wire_encode end_marker].

(** ** market_data_feed.hpp: the synthetic generator *)

(** The draws of one iteration: [step_dist], [side_dist], [spread_dist] and
    [qty_dist]. *)
Record Draw := mkDraw { d_step : Z; d_buy : bool; d_spread : Z; d_qty : Z }.

(** What the distributions document. *)
Definition draw_ok (max_qty : Z) (d : Draw) : Prop :=
  -3 ≤ d_step d ≤ 3 ∧ 1 ≤ d_spread d ≤ 5 ∧ 1 ≤ d_qty d ≤ max_qty.

Fixpoint synthetic_from (draws : list Draw) (mid next_id : Z) : list Order :=
  match draws with
  | [] => []
  | d :: draws' =>
      let mid' := mid + d_step d in
      let px := if d_buy d then mid' - d_spread d else mid' + d_spread d in
      mkOrder next_id (if d_buy d then Buy else Sell) px (d_qty d) 0
        :: synthetic_from draws' mid' (u64 (next_id + 1))
  end.

(** [generate_synthetic(count, start_price, ...)] with its [count] draws. *)
Definition generate_synthetic (draws : list Draw) (start_price : Z) : list Order :=
  synthetic_from draws start_price 1.

Lemma synthetic_from_spec max_qty : ∀ draws mid n,
  Forall (draw_ok max_qty) draws → 0 < n → n + Z.of_nat (length draws) < 2 ^ 64 →
  let l := synthetic_from draws mid n in
  length l = length draws ∧
  ∀ i o, l !! i = Some o →
    o_id o = n + Z.of_nat i ∧ 1 ≤ o_qty o ≤ max_qty ∧
    Z.abs (o_price o - mid) ≤ 3 * (Z.of_nat i + 1) + 5.
Proof.
  induction draws as [|d draws IH]; intros mid n Hd Hn Hlen; cbn; [done|].
  apply Forall_cons in Hd as [(Hs & Hsp & Hq) Hd]. cbn [length] in Hlen.
  unwrap.
  destruct (IH (mid + d_step d) (n + 1) Hd ltac:(lia) ltac:(lia)) as [IH1 IH2].
  split; [by rewrite IH1|]. intros [|i] o; cbn.
  - intros [= <-]. cbn. destruct (d_buy d); lia.
  - intros Hi. destruct (IH2 i o Hi) as (H1 & H2 & H3). lia.
Qed.

(** ** market_data_feed.hpp: CSV replay *)

(** [std::getline(ss, field, ',')]: the field and what is left of the line. *)
Fixpoint get_field (s : string) : string * string :=
  match s with
  | EmptyString => (EmptyString, EmptyString)
  | String ","%char s' => (EmptyString, s')
  | String c s' => let '(f, rest) := get_field s' in (String c f, rest)
  end.

(** One line: [None] is an exception, [Some None] a line that is skipped. *)
Definition parse_line (line : string) : option (option (Side * Z * Z)) :=
  match line with
  | EmptyString => Some None
  | String "#"%char _ => Some None
  | _ =>
      let '(side_str, r1) := get_field line in
      if String.eqb side_str "side" then Some None
      else
        let '(price_str, r2) := get_field r1 in
        let '(qty_str, _) := get_field r2 in
        if String.eqb price_str "" || String.eqb qty_str "" then Some None
        else
          price ← stoll price_str;
          qty ← stoul qty_str;
          Some (Some (if String.eqb side_str "B" || String.eqb side_str "b" then Buy else Sell,
                      price, u32 qty))
  end.

Fixpoint load_lines (lines : list string) (next_id : Z) : option (list Order) :=
  match lines with
  | [] => Some []
  | line :: lines' =>
      r ← parse_line line;
      match r with
      | None => load_lines lines' next_id
      | Some (side, price, qty) =>
          os ← load_lines lines' (u64 (next_id + 1));
          Some (mkOrder next_id side price qty 0 :: os)
      end
  end.

(** [load_csv]; [None] for the file is one that cannot be opened, which throws. *)
Definition load_csv (file : option (list string)) : option (list Order) :=
  lines ← file; load_lines lines 1.

Example load_csv_example :
  load_csv (Some ["side,price,qty"; "B,100,5"; ""; "# note"; "S, 101,7 lots"; "b,,3"])%string
  = Some [mkOrder 1 Buy 100 5 0; mkOrder 2 Sell 101 7 0].
Proof. reflexivity. Qed.

(** The orders of a file are its data lines, in order, numbered from [n]. *)
Lemma load_lines_spec : ∀ lines n os,
  0 < n → n + Z.of_nat (length lines) < 2 ^ 64 → load_lines lines n = Some os →
  ∃ rs, mapM parse_line lines = Some rs ∧
    (λ o, (o_side o, o_price o, o_qty o)) <$> os = omap id rs ∧
    (∀ i o, os !! i = Some o → o_id o = n + Z.of_nat i ∧ o_ts o = 0 ∧ is_u32 (o_qty o)).
Proof.
  induction lines as [|line lines IH]; intros n os Hn Hlen Hload; cbn in Hload |- *.
  { simplify_eq. by exists []. }
  cbn [length] in Hlen. destruct (parse_line line) as [[[[side price] qty]|]|] eqn:Hp; cbn in *; [| |done].
  - destruct (load_lines lines (u64 (n + 1))) as [os'|] eqn:Hl; cbn in Hload; [|done]. simplify_eq.
    rewrite wrap_unsigned_id in Hl by word_lia.
    destruct (IH (n + 1) os' ltac:(lia) ltac:(lia) Hl) as (rs & -> & Hm & Hi).
    exists (Some (side, price, qty) :: rs). cbn. split; [done|]. split; [by rewrite Hm|].
    intros [|i] o; cbn.
    + intros [= <-]. cbn. split; [lia|]. split; [done|].
      unfold parse_line in Hp. repeat case_match; simplify_eq/=; try done.
      all: repeat (destruct (stoll _); [|done]; cbn in Hp); repeat (destruct (stoul _); [|done]; cbn in Hp).
      all: simplify_eq; by apply wrap_unsigned_fits.
    + intros Ho. destruct (Hi i o Ho) as (H1 & H2 & H3). split; [lia|done].
  - destruct (IH n os Hn ltac:(lia) Hload) as (rs & -> & Hm & Hi). exists (None :: rs). done.
Qed.
