(* ===== verification/Strategy.v ===== *)
(** * Strategy: the market maker

    Models [include/strategy.hpp].  [Price] arithmetic is on [int64_t], where
    overflow is undefined behaviour; [checked] makes it visible. *)

From S2P Require Import Prelude Types ObjectPool OrderBook PriceTime OrderBookProofs BookProperties.

#[local] Open Scope Z_scope.

#[local] Arguments add_limit_order : simpl never.
#[local] Arguments cancel : simpl never.

(** The result of a signed 64-bit operation. *)
Definition checked (z : Z) : option Z :=
  if (- 2 ^ 63 <=? z) && (z <? 2 ^ 63) then Some z else None.
Arguments checked : simpl never.

Record MarketMaker := mkMM {
  half_spread_ : Z;
  quote_size_ : Z;
  requote_threshold_ : Z;
  quoting_ : bool;
  last_mid_ : Z;
  my_bid_id_ : Z;
  my_ask_id_ : Z
}.

Definition mm_new (half_spread quote_size requote_threshold : Z) : MarketMaker :=
  mkMM half_spread quote_size requote_threshold false 0 0 0.

(** [if (quoting_) { book.cancel(my_bid_id_); book.cancel(my_ask_id_); }]. *)
Definition cancel_quotes (mm : MarketMaker) (b : OrderBook) : option OrderBook :=
  if quoting_ mm then
    '(_, b1) ← cancel (my_bid_id_ mm) b;
    '(_, b2) ← cancel (my_ask_id_ mm) b1;
    Some b2
  else Some b.

Definition on_tick (mm : MarketMaker) (b : OrderBook) (next_id ts_ns : Z) (trades_out : list Trade)
    : option (MarketMaker * OrderBook * Z * list Trade) :=
  bid ← best_bid b;
  ask ← best_ask b;
  match bid, ask with
  | Some (bid_px, _), Some (ask_px, _) =>
      sum ← checked (bid_px + ask_px);
      let mid := Z.quot sum 2 in
      delta0 ← checked (mid - last_mid_ mm);
      delta ← (if delta0 <? 0 then checked (- delta0) else Some delta0);
      if quoting_ mm && (delta <? requote_threshold_ mm) then Some (mm, b, next_id, trades_out)
      else
        b1 ← cancel_quotes mm b;
        let my_bid_id := next_id in
        let my_ask_id := u64 (next_id + 1) in
        bid_quote ← checked (mid - half_spread_ mm);
        '(b2, tr1) ← add_limit_order my_bid_id Buy bid_quote (quote_size_ mm) ts_ns b1 trades_out;
        ask_quote ← checked (mid + half_spread_ mm);
        '(b3, tr2) ← add_limit_order my_ask_id Sell ask_quote (quote_size_ mm) ts_ns b2 tr1;
        Some (mkMM (half_spread_ mm) (quote_size_ mm) (requote_threshold_ mm) true mid
                   my_bid_id my_ask_id, b3, u64 (next_id + 2), tr2)
  | _, _ => Some (mm, b, next_id, trades_out)
  end.

(** ** On the specification *)

Lemma checked_fits z : is_i64 z → checked z = Some z.
Proof.
  unfold fits_signed, checked. intros Hz.
  by rewrite (proj2 (Z.leb_le _ _)), (proj2 (Z.ltb_lt _ _)) by lia.
Qed.

Lemma checked_abs d :
  Z.abs d < 2 ^ 63 → (if d <? 0 then checked (- d) else Some d) = Some (Z.abs d).
Proof.
  intros Hd. destruct (Z.ltb_spec d 0); [|f_equal; lia].
  rewrite checked_fits by word_lia. f_equal. lia.
Qed.

Lemma elem_of_ab_cancel i s a o :
  o ∈ ab_side s (ab_cancel i a).2 ↔ o ∈ ab_side s a ∧ o_id o ≠ i.
Proof.
  unfold ab_cancel. case_decide as Hin; cbn; [destruct s; cbn; apply elem_of_ab_remove|].
  split; [|tauto]. intros Ho. split; [done|]. intros <-. apply Hin, list_elem_of_fmap_2.
  unfold ab_orders. destruct s; set_solver.
Qed.

(** Cancelling removes the quotes and nothing else. *)
Lemma cancel_quotes_sim cap mm b a :
  Z.of_nat cap < 2 ^ 31 → book_rep cap b a → abook_wf a →
  ∃ b' a', cancel_quotes mm b = Some b' ∧ book_rep cap b' a' ∧ abook_wf a' ∧
    ∀ s o, o ∈ ab_side s a' ↔
      o ∈ ab_side s a ∧ (quoting_ mm = true → o_id o ≠ my_bid_id_ mm ∧ o_id o ≠ my_ask_id_ mm).
Proof.
  intros Hcap Hrep Hwf. unfold cancel_quotes.
  destruct (quoting_ mm); [|exists b, a; naive_solver].
  destruct (cancel_sim_wf cap (my_bid_id_ mm) b a Hcap Hrep Hwf) as (b1 & -> & Hrep1 & Hwf1). cbn.
  destruct (cancel_sim_wf cap (my_ask_id_ mm) b1 _ Hcap Hrep1 Hwf1) as (b2 & -> & Hrep2 & Hwf2). cbn.
  eexists _, _. split; [done|]. split; [done|]. split; [done|].
  intros s o. rewrite !elem_of_ab_cancel. tauto.
Qed.

(** An order that crosses nothing trades nothing. *)
Lemma ab_add_no_cross cap id side price qty ts a :
  Forall (λ o, crosses_of side price (o_price o) = false) (ab_side (opposite side) a) →
  (ab_add cap id side price qty ts a).2 = [] ∧
  ab_side (opposite side) (ab_add cap id side price qty ts a).1 = ab_side (opposite side) a ∧
  ∀ o, (o ∈ ab_side side a → o ∈ ab_side side (ab_add cap id side price qty ts a).1) ∧
       (o ∈ ab_side side (ab_add cap id side price qty ts a).1 →
        o ∈ ab_side side a ∨ o = mkOrder id side price qty ts).
Proof.
  intros Hno. unfold ab_add.
  assert (match_orders (crosses_of side price) side id ts qty (ab_side (opposite side) a) =
          (qty, ab_side (opposite side) a, [])) as ->.
  { destruct (ab_side (opposite side) a) as [|o l]; [done|]. cbn.
    apply Forall_cons in Hno as [-> _]. by rewrite orb_true_r. }
  assert (ab_set (opposite side) (ab_side (opposite side) a) a = a) as -> by (by destruct side, a).
  destruct (_ && _); cbn.
  - split; [done|]. split; [by destruct side|]. intros o.
    assert (ab_side side (ab_set side (insert_order (better_of side) (mkOrder id side price qty ts)
              (ab_side side a)) a) = insert_order (better_of side) (mkOrder id side price qty ts)
              (ab_side side a)) as -> by (by destruct side).
    rewrite elem_of_insert_order. tauto.
  - split; [done|]. split; [done|]. auto.
Qed.

(** It comes to rest as a whole, if it asks for something and there is room. *)
Lemma ab_add_uncrossed cap id side price qty ts a :
  Forall (λ o, crosses_of side price (o_price o) = false) (ab_side (opposite side) a) →
  ab_orders (ab_add cap id side price qty ts a).1 ≡ₚ
    (if (0 <? qty) && (length (ab_orders a) <? cap)%nat then [mkOrder id side price qty ts] else []) ++ ab_orders a.
Proof.
  intros Hno. unfold ab_add.
  assert (match_orders (crosses_of side price) side id ts qty (ab_side (opposite side) a) =
          (qty, ab_side (opposite side) a, [])) as ->.
  { destruct (ab_side (opposite side) a) as [|o l]; [done|]. cbn.
    apply Forall_cons in Hno as [-> _]. by rewrite orb_true_r. }
  assert (ab_set (opposite side) (ab_side (opposite side) a) a = a) as -> by (by destruct side, a).
  destruct (_ && _); [|done]. unfold ab_orders. destruct side; cbn; rewrite insert_order_perm; [done|].
  by rewrite Permutation_middle.
Qed.

Lemma elem_of_sides a o : o ∈ ab_orders a ↔ ∃ s, o ∈ ab_side s a.
Proof.
  unfold ab_orders. rewrite elem_of_app. split; [intros [Ho|Ho]; [by exists Buy|by exists Sell]|].
  intros [[] Ho]; auto.
Qed.

(** ** The market maker's invariant

    [lo] is where the strategy's ids start and [P] bounds the prices of everyone
    else.  Of the orders with an id from [lo] on, only the two current quotes
    rest, on their sides and at their distance from the last mid price.  The mid
    price then never leaves the band [P + half_spread], although the strategy's
    own quotes take part in it. *)

Record mm_inv (lo P next : Z) (mm : MarketMaker) (a : ABook) : Prop := {
  mi_ids : Forall (λ o, o_id o < next) (ab_orders a);
  mi_own : Forall (λ o, lo ≤ o_id o → quoting_ mm = true ∧
             match o_side o with
             | Buy => o_id o = my_bid_id_ mm ∧ o_price o = last_mid_ mm - half_spread_ mm
             | Sell => o_id o = my_ask_id_ mm ∧ o_price o = last_mid_ mm + half_spread_ mm
             end) (ab_orders a);
  mi_foreign : Forall (λ o, o_id o < lo → Z.abs (o_price o) ≤ P) (ab_orders a);
  mi_mm : 0 < half_spread_ mm ∧ is_u32 (quote_size_ mm) ∧
          0 ≤ P ∧ P + 2 * half_spread_ mm < 2 ^ 61;
  mi_mid : Z.abs (last_mid_ mm) ≤ P + half_spread_ mm;
  mi_cursor : 0 ≤ lo ≤ next ∧
    (quoting_ mm = true → lo ≤ my_bid_id_ mm ∧ lo ≤ my_ask_id_ mm)
}.

(** The two quotes bracket the mid price, which stays in the band. *)
Lemma mid_band (P hs bid ask m : Z) :
  bid < ask → 0 < hs → Z.abs m ≤ P + hs →
  (Z.abs bid ≤ P ∨ bid = m - hs) → (Z.abs ask ≤ P ∨ ask = m + hs) →
  bid ≤ Z.quot (bid + ask) 2 ≤ ask ∧ Z.abs (Z.quot (bid + ask) 2) ≤ P + hs ∧
  Z.abs (bid + ask) ≤ 2 * (P + hs).
Proof.
  intros Hlt Hhs Hm Hb Ha. pose proof (Z.quot_rem' (bid + ask) 2) as Hqr.
  pose proof (Z.rem_bound_abs (bid + ask) 2 ltac:(lia)). lia.
Qed.

(** One of the two orders that the strategy holds for its quotes. *)
Definition own_quote (mm : MarketMaker) (o : Order) : Prop :=
  quoting_ mm = true ∧ (o_id o = my_bid_id_ mm ∨ o_id o = my_ask_id_ mm).
#[export] Instance own_quote_dec mm o : Decision (own_quote mm o) := _.

(** The quotes around [mid] that come to rest in a pool of [cap] slots of which [n]
    are in use. *)
Definition new_quotes (cap : nat) (mm : MarketMaker) (mid next ts : Z) (n : nat) : list Order :=
  (if (0 <? quote_size_ mm) && (n <? cap)%nat
   then [mkOrder next Buy (mid - half_spread_ mm) (quote_size_ mm) ts] else []) ++
  (if (0 <? quote_size_ mm) && (S n <? cap)%nat
   then [mkOrder (next + 1) Sell (mid + half_spread_ mm) (quote_size_ mm) ts] else []).

(** One order after the other is both together. *)
Lemma new_quotes_app cap mm mid next ts n :
  let bid := if (0 <? quote_size_ mm) && (n <? cap)%nat
             then [mkOrder next Buy (mid - half_spread_ mm) (quote_size_ mm) ts] else [] in
  (if (0 <? quote_size_ mm) && (length bid + n <? cap)%nat
   then [mkOrder (next + 1) Sell (mid + half_spread_ mm) (quote_size_ mm) ts] else []) ++ bid
  ≡ₚ new_quotes cap mm mid next ts n.
Proof.
  unfold new_quotes. destruct (0 <? quote_size_ mm); cbn [andb]; [|done].
  destruct (Nat.ltb_spec n cap); cbn [app length Nat.add].
  - destruct (S _ <? cap)%nat; [|done]. apply Permutation_swap.
  - destruct (Nat.ltb_spec n cap), (Nat.ltb_spec (S n) cap); [lia..|done].
Qed.

(** Quoting around [mid] on a book whose orders are on either side of it. *)
Lemma quote_both cap mm b a mid next ts trs :
  Z.of_nat cap < 2 ^ 31 → book_rep cap b a → abook_wf a → is_u32 (quote_size_ mm) →
  0 < half_spread_ mm → 0 ≤ next → next + 1 < 2 ^ 64 → Forall (λ o, o_id o < next) (ab_orders a) →
  Forall (λ o, o_price o ≤ mid) (ab_bids a) → Forall (λ o, mid ≤ o_price o) (ab_asks a) →
  ∃ b1 b2 a', add_limit_order next Buy (mid - half_spread_ mm) (quote_size_ mm) ts b trs = Some (b1, trs) ∧
    add_limit_order (next + 1) Sell (mid + half_spread_ mm) (quote_size_ mm) ts b1 trs = Some (b2, trs) ∧
    book_rep cap b2 a' ∧ abook_wf a' ∧
    ab_orders a' ≡ₚ new_quotes cap mm mid next ts (length (ab_orders a)) ++ ab_orders a ∧
    ∀ o, (o ∈ ab_orders a → o ∈ ab_orders a') ∧
      (o ∈ ab_orders a' → o ∈ ab_orders a ∨
         o = mkOrder next Buy (mid - half_spread_ mm) (quote_size_ mm) ts ∨
         o = mkOrder (next + 1) Sell (mid + half_spread_ mm) (quote_size_ mm) ts).
Proof.
  intros Hcap Hrep Hwf Hq Hhs H0 Hmax Hids Hbids Hasks.
  assert (∀ a0 id, Forall (λ o, o_id o < id) (ab_orders a0) → id ∉ o_id <$> ab_orders a0) as Hfresh.
  { intros a0 id Hall (o & -> & Ho)%list_elem_of_fmap. rewrite Forall_forall in Hall.
    specialize (Hall o Ho). cbn in Hall. lia. }
  destruct (add_sim_wf cap next Buy (mid - half_spread_ mm) (quote_size_ mm) ts b a trs Hcap Hrep Hwf Hq)
    as (a1 & tr1 & b1 & Hab1 & Hadd1 & Hrep1 & Hwf1).
  { by apply (book_rep_fresh cap b a), Hfresh. }
  assert (Forall (λ o, crosses_of Buy (mid - half_spread_ mm) (o_price o) = false) (ab_side (opposite Buy) a)) as Hcr1.
  { eapply Forall_impl; [exact Hasks|]. cbn. intros o Ho. apply Z.leb_gt. lia. }
  destruct (ab_add_no_cross cap next Buy (mid - half_spread_ mm) (quote_size_ mm) ts a Hcr1) as (T1 & O1 & E1).
  pose proof (ab_add_uncrossed cap next Buy (mid - half_spread_ mm) (quote_size_ mm) ts a Hcr1) as P1.
  rewrite Hab1 in T1, O1, E1, P1. cbn in T1, O1, E1. subst tr1. rewrite app_nil_r in Hadd1.
  assert (Forall (λ o, o_id o < next + 1) (ab_orders a1)) as Hids1.
  { cbn [fst] in P1. rewrite P1. apply Forall_app. split; [destruct (_ && _); repeat constructor; cbn; lia|].
    eapply Forall_impl; [exact Hids|]. cbn. lia. }
  destruct (add_sim_wf cap (next + 1) Sell (mid + half_spread_ mm) (quote_size_ mm) ts b1 a1 trs
              Hcap Hrep1 Hwf1 Hq) as (a2 & tr2 & b2 & Hab2 & Hadd2 & Hrep2 & Hwf2).
  { by apply (book_rep_fresh cap b1 a1), Hfresh. }
  assert (Forall (λ o, crosses_of Sell (mid + half_spread_ mm) (o_price o) = false) (ab_side (opposite Sell) a1)) as Hcr2.
  { apply Forall_forall. intros o Ho. rewrite Forall_forall in Hbids. cbn.
    apply E1 in Ho as [Ho| ->]; cbn; rewrite Z.geb_leb; apply Z.leb_gt; [specialize (Hbids o Ho)|]; lia. }
  destruct (ab_add_no_cross cap (next + 1) Sell (mid + half_spread_ mm) (quote_size_ mm) ts a1 Hcr2)
    as (T2 & O2 & E2).
  pose proof (ab_add_uncrossed cap (next + 1) Sell (mid + half_spread_ mm) (quote_size_ mm) ts a1 Hcr2) as P2.
  rewrite Hab2 in T2, O2, E2, P2. cbn in T2, O2, E2. subst tr2. rewrite app_nil_r in Hadd2.
  exists b1, b2, a2. split_and!; try done.
  { cbn [fst] in P1, P2. by rewrite P2, (Permutation_length P1), length_app, P1, app_assoc, new_quotes_app. }
  intros o. split.
  { intros [[] Ho]%elem_of_sides; apply elem_of_sides.
    - exists Buy. cbn. rewrite O2. by apply E1.
    - exists Sell. apply E2. cbn. by rewrite O1. }
  intros [[] Ho]%elem_of_sides.
  - cbn in Ho. rewrite O2 in Ho. apply E1 in Ho as [Ho| ->]; [left|by auto].
    apply elem_of_sides. by exists Buy.
  - apply E2 in Ho as [Ho| ->]; [left|by auto]. cbn in Ho. rewrite O1 in Ho.
    apply elem_of_sides. by exists Sell.
Qed.

(** When and around which mid price the strategy quotes, on the specification. *)
Definition requote_mid (mm : MarketMaker) (a : ABook) : option Z :=
  match ab_best (ab_bids a), ab_best (ab_asks a) with
  | Some (bid_px, _), Some (ask_px, _) =>
      let mid := Z.quot (bid_px + ask_px) 2 in
      if quoting_ mm && (Z.abs (mid - last_mid_ mm) <? requote_threshold_ mm) then None else Some mid
  | _, _ => None
  end.

(** What the invariant says about a best price. *)
Lemma mm_inv_best lo P next mm a s p q :
  mm_inv lo P next mm a → abook_wf a → ab_best (ab_side s a) = Some (p, q) →
  Z.abs p ≤ P ∨ p = match s with Buy => last_mid_ mm - half_spread_ mm
                              | Sell => last_mid_ mm + half_spread_ mm end.
Proof.
  intros Hinv Hwf Hb. destruct (ab_best_is_best s a p q Hwf Hb) as ((o & Ho & <-) & _).
  pose proof (proj1 (Forall_forall _ _) (wf_side a Hwf s) o Ho) as Hs. cbn in Hs.
  assert (o ∈ ab_orders a) as Hin by (apply elem_of_sides; eauto).
  destruct (Z.lt_ge_cases (o_id o) lo) as [Hlt|Hge].
  - left. by apply (proj1 (Forall_forall _ _) (mi_foreign _ _ _ _ _ Hinv) o Hin).
  - right. destruct (proj1 (Forall_forall _ _) (mi_own _ _ _ _ _ Hinv) o Hin Hge) as [_ Hm].
    rewrite Hs in Hm. destruct s; apply Hm.
Qed.

Definition mm_quoted (mm : MarketMaker) (mid next : Z) : MarketMaker :=
  mkMM (half_spread_ mm) (quote_size_ mm) (requote_threshold_ mm) true mid next (next + 1).

(** The invariant after the quotes have been moved to [mid]. *)
Lemma mm_inv_quoted lo P next mm mid ts a a1 a2 :
  mm_inv lo P next mm a → Z.abs mid ≤ P + half_spread_ mm →
  (∀ o, o ∈ ab_orders a1 ↔
     o ∈ ab_orders a ∧ (quoting_ mm = true → o_id o ≠ my_bid_id_ mm ∧ o_id o ≠ my_ask_id_ mm)) →
  (∀ o, o ∈ ab_orders a2 → o ∈ ab_orders a1 ∨
     o = mkOrder next Buy (mid - half_spread_ mm) (quote_size_ mm) ts ∨
     o = mkOrder (next + 1) Sell (mid + half_spread_ mm) (quote_size_ mm) ts) →
  mm_inv lo P (next + 2) (mm_quoted mm mid next) a2.
Proof.
  intros [Hids Hown Hfor Hmm Hmid Hcur] Hband H1 H2. rewrite Forall_forall in Hids, Hown, Hfor.
  split; cbn; try apply Forall_forall; try tauto; try lia.
  - intros o [[Ho _]%H1|[->| ->]]%H2; cbn; [|lia..]. specialize (Hids o Ho). cbn in Hids. lia.
  - intros o [[Ho Hne]%H1|[->| ->]]%H2 Hlo; [|cbn; auto..].
    destruct (Hown o Ho Hlo) as [Hq Hm]. specialize (Hne Hq). destruct (o_side o); tauto.
  - intros o [[Ho _]%H1|[->| ->]]%H2; cbn; [by apply Hfor|lia..].
Qed.

(** Everything rests on its side of the touch. *)
Lemma best_bounds s a p q :
  abook_wf a → ab_best (ab_side s a) = Some (p, q) →
  Forall (λ o, match s with Buy => o_price o ≤ p | Sell => p ≤ o_price o end) (ab_side s a).
Proof.
  intros Hwf Hb. destruct (ab_best_is_best s a p q Hwf Hb) as (_ & Hall & _).
  eapply Forall_impl; [exact Hall|]. intros o Ho. destruct s; cbn in Ho; lia.
Qed.

(** The two cancels and the two adds of a requote. *)
Lemma requote_sim cap lo P next mm b a ts trs mid pb qb pa qa :
  Z.of_nat cap < 2 ^ 31 → book_rep cap b a → abook_wf a → mm_inv lo P next mm a →
  next + 2 < 2 ^ 64 → Z.abs mid ≤ P + half_spread_ mm → pb ≤ mid ≤ pa →
  ab_best (ab_bids a) = Some (pb, qb) → ab_best (ab_asks a) = Some (pa, qa) →
  ∃ b1 b2 b3 a', cancel_quotes mm b = Some b1 ∧
    add_limit_order next Buy (mid - half_spread_ mm) (quote_size_ mm) ts b1 trs = Some (b2, trs) ∧
    add_limit_order (next + 1) Sell (mid + half_spread_ mm) (quote_size_ mm) ts b2 trs = Some (b3, trs) ∧
    book_rep cap b3 a' ∧ abook_wf a' ∧ mm_inv lo P (next + 2) (mm_quoted mm mid next) a' ∧
    (let kept := filter (λ o, ¬ own_quote mm o) (ab_orders a) in
     ab_orders a' ≡ₚ new_quotes cap mm mid next ts (length kept) ++ kept) ∧
    ∀ o, o_id o < lo → o ∈ ab_orders a' ↔ o ∈ ab_orders a.
Proof.
  intros Hcap Hrep Hwf Hinv Hnext Hband Hbr Hb Ha.
  destruct (cancel_quotes_sim cap mm b a Hcap Hrep Hwf) as (b1 & a1 & Hc & Hrep1 & Hwf1 & Hin1).
  pose proof (best_bounds Buy a pb qb Hwf Hb) as Hbb. pose proof (best_bounds Sell a pa qa Hwf Ha) as Hba.
  rewrite Forall_forall in Hbb, Hba.
  assert (∀ o, o ∈ ab_orders a1 ↔ o ∈ ab_orders a ∧
            (quoting_ mm = true → o_id o ≠ my_bid_id_ mm ∧ o_id o ≠ my_ask_id_ mm)) as Hord.
  { intros o. rewrite !elem_of_sides. setoid_rewrite Hin1. naive_solver. }
  destruct (quote_both cap mm b1 a1 mid next ts trs) as (b2 & b3 & a' & H2 & H3 & Hrep' & Hwf' & Hperm & Hin');
    try done; try (apply Hinv || (destruct Hinv; lia)).
  - apply Forall_forall. intros o [Ho _]%Hord.
    by apply (proj1 (Forall_forall _ _) (mi_ids _ _ _ _ _ Hinv) o).
  - apply Forall_forall. intros o [Ho _]%(Hin1 Buy). specialize (Hbb o Ho). cbn in Hbb. lia.
  - apply Forall_forall. intros o [Ho _]%(Hin1 Sell). specialize (Hba o Ho). cbn in Hba. lia.
  - exists b1, b2, b3, a'. split_and!; try done.
    { eapply mm_inv_quoted; try done. intros o. apply Hin'. }
    { assert (ab_orders a1 ≡ₚ filter (λ o, ¬ own_quote mm o) (ab_orders a)) as Hkept.
      { apply NoDup_Permutation; [by eapply NoDup_fmap_1, wf_ids|apply NoDup_filter; by eapply NoDup_fmap_1, wf_ids|].
        intros o. rewrite Hord, list_elem_of_filter. unfold own_quote. destruct (quoting_ mm); naive_solver. }
      cbv zeta. rewrite <-Hkept at 2. by rewrite <-(Permutation_length Hkept). }
    intros o Hlo. destruct (mi_cursor _ _ _ _ _ Hinv) as [? Hq]. split.
    + intros [[? _]%Hord|[->| ->]]%Hin'; [done|cbn in Hlo; lia..].
    + intros Ho. apply Hin', Hord. split; [done|]. intros Hqt. specialize (Hq Hqt). lia.
Qed.

(** One tick, in full; the claim below is its public face. *)
Lemma on_tick_full cap lo P next mm b a ts trs :
  Z.of_nat cap < 2 ^ 31 → book_rep cap b a → abook_wf a → mm_inv lo P next mm a →
  next + 2 < 2 ^ 64 →
  ∃ mm' b' next' a', on_tick mm b next ts trs = Some (mm', b', next', trs) ∧
    book_rep cap b' a' ∧ abook_wf a' ∧ mm_inv lo P next' mm' a' ∧
    match requote_mid mm a with
    | None => mm' = mm ∧ b' = b ∧ next' = next ∧ a' = a
    | Some mid =>
        mm' = mm_quoted mm mid next ∧ next' = next + 2 ∧
        (let kept := filter (λ o, ¬ own_quote mm o) (ab_orders a) in
         ab_orders a' ≡ₚ new_quotes cap mm mid next ts (length kept) ++ kept) ∧
        ∀ o, o_id o < lo → o ∈ ab_orders a' ↔ o ∈ ab_orders a
    end.
Proof.
  intros Hcap Hrep Hwf Hinv Hnext. unfold on_tick, requote_mid.
  rewrite (best_bid_sim cap b a Hrep), (best_ask_sim cap b a Hrep).
  destruct (ab_best (ab_bids a)) as [[pb qb]|] eqn:Hb; cbn; [|naive_solver].
  destruct (ab_best (ab_asks a)) as [[pa qa]|] eqn:Ha; cbn; [|naive_solver].
  destruct (ab_best_is_best Buy a pb qb Hwf Hb) as ((ob & Hob & Hpb) & _).
  destruct (ab_best_is_best Sell a pa qa Hwf Ha) as ((oa & Hoa & Hpa) & _).
  pose proof (wf_uncrossed a Hwf ob oa Hob Hoa) as Hlt. rewrite Hpb, Hpa in Hlt.
  pose proof (mm_inv_best _ _ _ _ _ Buy _ _ Hinv Hwf Hb) as Hbb.
  pose proof (mm_inv_best _ _ _ _ _ Sell _ _ Hinv Hwf Ha) as Hba. cbn in Hbb, Hba.
  destruct (mi_mm _ _ _ _ _ Hinv) as (Hhs & _ & HP & Hmax).
  pose proof (mi_mid _ _ _ _ _ Hinv) as Hmid.
  destruct (mid_band P (half_spread_ mm) pb pa (last_mid_ mm) Hlt Hhs Hmid Hbb Hba) as (Hbr & Hband & Hsum).
  destruct (mi_cursor _ _ _ _ _ Hinv) as [Hcur _].
  set (mid := Z.quot (pb + pa) 2) in *.
  rewrite !checked_fits by word_lia. cbn.
  rewrite !checked_fits by word_lia. cbn.
  rewrite checked_abs by lia. cbn. destruct (quoting_ mm && _) eqn:Hth; [naive_solver|].
  destruct (requote_sim cap lo P next mm b a ts trs mid pb qb pa qa)
    as (b1 & b2 & b3 & a' & -> & H2 & H3 & Hrep' & Hwf' & Hinv' & Hnew & Hfor); try done.
  cbn. unwrap.
  fold mid. rewrite H2. cbn.
  rewrite H3. cbn.
  eexists _, _, _, a'. split; [reflexivity|]. naive_solver.
Qed.

(** The same, forgetting when the quotes move. *)
Lemma on_tick_sim cap lo P next mm b a ts trs :
  Z.of_nat cap < 2 ^ 31 → book_rep cap b a → abook_wf a → mm_inv lo P next mm a →
  next + 2 < 2 ^ 64 →
  ∃ mm' b' next' a', on_tick mm b next ts trs = Some (mm', b', next', trs) ∧
    book_rep cap b' a' ∧ abook_wf a' ∧ mm_inv lo P next' mm' a' ∧
    (∀ o, o_id o < lo → o ∈ ab_orders a' ↔ o ∈ ab_orders a) ∧ next ≤ next' ≤ next + 2.
Proof.
  intros Hcap Hrep Hwf Hinv Hnext.
  destruct (on_tick_full cap lo P next mm b a ts trs Hcap Hrep Hwf Hinv Hnext)
    as (mm' & b' & next' & a' & Ht & Hrep' & Hwf' & Hinv' & Hm).
  exists mm', b', next', a'. split_and!; try done.
  - destruct (requote_mid mm a); [apply Hm|]. by destruct Hm as (_ & _ & _ & ->).
  - destruct (requote_mid mm a); lia.
  - destruct (requote_mid mm a); lia.
Qed.

(** C26: One tick of the market maker.  On a book where the strategy owns at
    most its two quotes ([mm_inv]), [on_tick] returns without signed overflow
    and without trading (its quotes cannot cross the book).  It does nothing
    when a side is empty or the mid price has moved by less than the threshold.
    Otherwise the book holds what it held, without the old quotes, and the new ones:
    a bid at [mid - half_spread] and an ask at [mid + half_spread], of the whole
    quote size, under the next two ids, as far as the pool has a slot for them
    ([new_quotes]); no order of anyone else has been touched.  The invariant holds
    again either way. *)
Theorem mm_on_tick cap lo P next mm b a ts trs :
  Z.of_nat cap < 2 ^ 31 → book_rep cap b a → abook_wf a → mm_inv lo P next mm a →
  next + 2 < 2 ^ 64 →
  ∃ mm' b' next' a', on_tick mm b next ts trs = Some (mm', b', next', trs) ∧
    book_rep cap b' a' ∧ abook_wf a' ∧ mm_inv lo P next' mm' a' ∧
    match requote_mid mm a with
    | None => mm' = mm ∧ b' = b ∧ next' = next ∧ a' = a
    | Some mid =>
        mm' = mm_quoted mm mid next ∧ next' = next + 2 ∧
        (let kept := filter (λ o, ¬ own_quote mm o) (ab_orders a) in
         ab_orders a' ≡ₚ new_quotes cap mm mid next ts (length kept) ++ kept) ∧
        ∀ o, o_id o < lo → o ∈ ab_orders a' ↔ o ∈ ab_orders a
    end.
Proof. apply on_tick_full. Qed.

(** The strategy of [engine_subscriber.cpp] quoting on the demo book. *)
Definition demo_mm : MarketMaker := mm_new 3 10 2.

Lemma demo_mm_inv : mm_inv 1000000000 105 1000000000 demo_mm demo_abook.
Proof.
  split; try (cbn; word_lia).
  all: repeat (apply Forall_cons; split; [cbn; lia|]); constructor.
Qed.

Lemma mm_on_tick_witness :
  ∃ b' a', on_tick demo_mm demo_book 1000000000 7 []
             = Some (mm_quoted demo_mm 102 1000000000, b', 1000000002, []) ∧
           book_rep 8 b' a' ∧
           mm_inv 1000000000 105 1000000002 (mm_quoted demo_mm 102 1000000000) a' ∧
           ab_orders a' ≡ₚ mkOrder 1000000000 Buy 99 10 7 :: mkOrder 1000000001 Sell 105 10 7 :: ab_orders demo_abook.
Proof.
  destruct demo_book_rep as [Hrep Hwf].
  destruct (mm_on_tick 8 1000000000 105 1000000000 demo_mm demo_book demo_abook 7 [])
    as (mm' & b' & next' & a' & H1 & H2 & H3 & H4 & H5); [lia|done|done|apply demo_mm_inv|lia|].
  change (requote_mid demo_mm demo_abook) with (Some 102) in H5. destruct H5 as (-> & -> & H6 & _).
  exists b', a'. auto.
Defined.
