(* ===== verification/Pipeline.v ===== *)
(** * Pipeline: the two stand-alone engines

    Models [src/main.cpp] (the in-process pipeline: feed thread, ring buffer,
    engine thread, and its [--test] self-test) and the receive loop of
    [src/engine_subscriber.cpp].  Both run the same body per order: match it,
    let the market maker react, record the latency.  Clock readings are inputs;
    sockets are the sequence of results [recv] returns. *)

From S2P Require Import Prelude Types ObjectPool OrderBook PriceTime OrderBookProofs BookProperties SpscRing Protocol Histogram Feed Strategy.

#[local] Open Scope Z_scope.

#[local] Arguments add_limit_order : simpl never.
#[local] Arguments on_tick : simpl never.
#[local] Arguments cancel : simpl never.
#[local] Arguments best_bid : simpl never.
#[local] Arguments record : simpl never.

(** ** The engine's state and the body of its loop *)

Record Tick := mkTick {
  tk_book : OrderBook;
  tk_mm : MarketMaker;
  tk_cursor : Z;           (* strategy_id_cursor *)
  tk_hist : LatencyHistogram;
  tk_processed : Z;
  tk_trade_count : Z
}.

Definition kStrategyIds : Z := 1000000000.

Definition tick_new (kPoolCapacity : nat) : Tick :=
  mkTick (book_new kPoolCapacity) (mm_new 3 10 2) kStrategyIds (hist_new (2 ^ 34) 7) 0 0.

(** [ts] is the timestamp handed to the book and [lat] the measured latency. *)
Definition engine_tick (o : Order) (ts lat : Z) (tk : Tick) : option Tick :=
  '(b1, tr1) ← add_limit_order (o_id o) (o_side o) (o_price o) (o_qty o) ts (tk_book tk) [];
  '(mm', b2, cursor', tr2) ← on_tick (tk_mm tk) b1 (tk_cursor tk) ts tr1;
  hist' ← record lat (tk_hist tk);
  Some (mkTick b2 mm' cursor' hist' (u64 (tk_processed tk + 1))
               (u64 (tk_trade_count tk + Z.of_nat (length tr2)))).

(** ** engine_subscriber.cpp *)

(** What [recv(sock, &w, sizeof(w), 0)] returns: an error, or a datagram, of
    which at most [sizeof(w)] bytes are kept. *)
Inductive Recv := RecvError | RecvDatagram (bs : bytes).

Record Subscriber := mkSub {
  sb_tick : Tick;
  sb_expected_id : Z;
  sb_dropped : Z
}.

Definition sub_new (kPoolCapacity : nat) : Subscriber := mkSub (tick_new kPoolCapacity) 1 0.

(** One iteration; the boolean is [false] after a [break]. *)
Definition sub_step (r : Recv) (recv_ns lat : Z) (s : Subscriber) : option (bool * Subscriber) :=
  match r with
  | RecvError => Some (false, s)
  | RecvDatagram bs =>
      let got := take sizeof_WireOrder bs in
      if negb (length got =? sizeof_WireOrder)%nat then Some (true, s)
      else
        let w := wire_decode got in
        if wo_id w =? 0 then Some (false, s)
        else
          let dropped :=
            if negb (wo_id w =? sb_expected_id s)
            then u64 (sb_dropped s +
                      (if sb_expected_id s <? wo_id w then u64 (wo_id w - sb_expected_id s) else 0))
            else sb_dropped s in
          tk ← engine_tick (from_wire w) recv_ns lat (sb_tick s);
          Some (true, mkSub tk (u64 (wo_id w + 1)) dropped)
  end.

(** The loop over the results of [recv] with their clock readings; the boolean
    is [true] while the loop waits for another datagram. *)
Fixpoint sub_run (rs : list (Recv * (Z * Z))) (s : Subscriber) : option (bool * Subscriber) :=
  match rs with
  | [] => Some (true, s)
  | (r, (recv_ns, lat)) :: rs' =>
      '(go, s') ← sub_step r recv_ns lat s;
      if (go : bool) then sub_run rs' s' else Some (false, s')
  end.

(** ** main.cpp

    The feed thread and the engine thread share the ring and [feed_done].
    [push], [pop], [empty] and the accesses to [feed_done] are single steps:
    [SpscRing.spsc_linearizable] is what justifies it for the ring. *)

Definition set_o_ts (o : Order) (ts : Z) : Order :=
  mkOrder (o_id o) (o_side o) (o_price o) (o_qty o) ts.

Inductive EnginePc :=
| ELoop           (* about to call [ring.pop] *)
| EPopFailed      (* about to load [feed_done] *)
| ESawDone        (* about to call [ring.empty] *)
| EStopped.

Record MainState := mkMain {
  mn_feed : list Order;          (* what the feed loop has not reached yet *)
  mn_hand : option Order;        (* the stamped [order] in the feed thread's hand *)
  mn_done : bool;                (* feed_done *)
  mn_ring : SpscRing Order;
  mn_pc : EnginePc;
  mn_tick : Tick;
  mn_popped : list Order         (* what the engine thread has popped, in order *)
}.

Section Main.
Context (kRingCapacity : nat).

Inductive main_step : MainState → MainState → Prop :=
| feed_next o feed ts d r pc tk po :
    ∀ (Hts : is_u64 ts),
    main_step (mkMain (o :: feed) None d r pc tk po) (mkMain feed (Some (set_o_ts o ts)) d r pc tk po)
| feed_push feed o d r r' pc tk po :
    ∀ (Hpush : push kRingCapacity o r = Some (true, r')),
    main_step (mkMain feed (Some o) d r pc tk po) (mkMain feed None d r' pc tk po)
| feed_full feed o d r r' pc tk po :
    ∀ (Hpush : push kRingCapacity o r = Some (false, r')),
    main_step (mkMain feed (Some o) d r pc tk po) (mkMain feed (Some o) d r' pc tk po)
| feed_finish d r pc tk po :
    main_step (mkMain [] None d r pc tk po) (mkMain [] None true r pc tk po)
| engine_pop feed hd d r r' o lat tk tk' po :
    ∀ (Hlat : is_u64 lat) (Hpop : pop kRingCapacity r = Some (Some o, r'))
      (Htick : engine_tick o (o_ts o) lat tk = Some tk'),
    main_step (mkMain feed hd d r ELoop tk po) (mkMain feed hd d r' ELoop tk' (po ++ [o]))
| engine_pop_empty feed hd d r r' tk po :
    ∀ (Hpop : pop kRingCapacity r = Some (None, r')),
    main_step (mkMain feed hd d r ELoop tk po) (mkMain feed hd d r' EPopFailed tk po)
| engine_saw_done feed hd r tk po :
    main_step (mkMain feed hd true r EPopFailed tk po) (mkMain feed hd true r ESawDone tk po)
| engine_not_done feed hd r tk po :
    main_step (mkMain feed hd false r EPopFailed tk po) (mkMain feed hd false r ELoop tk po)
| engine_empty feed hd d r tk po :
    main_step (mkMain feed hd d r ESawDone tk po)
              (mkMain feed hd d r (if empty r then EStopped else ELoop) tk po).

Definition main_init (kPoolCapacity : nat) (dflt : Order) (feed_events : list Order) : MainState :=
  mkMain feed_events None false (spsc_new kRingCapacity dflt) ELoop (tick_new kPoolCapacity) [].

Definition main_reach (kPoolCapacity : nat) (dflt : Order) (feed_events : list Order) (s : MainState)
    : Prop :=
  rtc main_step (main_init kPoolCapacity dflt feed_events) s.

End Main.

(** [self_test] of [main.cpp], on a book with [kPoolCapacity] slots. *)
Definition self_test (kPoolCapacity : nat) : option bool :=
  let book := book_new kPoolCapacity in
  '(book, trades) ← add_limit_order 1 Buy 100 10 0 book [];
  bid ← best_bid book;
  match bid with
  | Some (bp, bq) =>
      if negb (bp =? 100) || negb (bq =? 10) then Some false
      else
        '(book, trades) ← add_limit_order 2 Sell 100 4 0 book [];
        match trades with
        | [t] =>
            if negb (t_qty t =? 4) || negb (t_price t =? 100) then Some false
            else
              bid ← best_bid book;
              if negb (match bid with Some (_, bq') => bq' | None => bq end =? 6) then Some false
              else
                '(ok, book) ← cancel 1 book;
                if negb ok then Some false
                else
                  bid ← best_bid book;
                  Some (match bid with Some _ => false | None => true end)
        | _ => Some false
        end
  | None => Some false
  end.

(** ** One tick keeps the engine well-formed *)

(** The orders an add leaves behind are old ones, or the new one. *)
Lemma elem_of_ab_add cap id side price qty ts a a' tr o :
  abook_wf a → 0 ≤ qty → ab_add cap id side price qty ts a = (a', tr) → o ∈ ab_orders a' →
  (∃ o', o' ∈ ab_orders a ∧ okey o' = okey o) ∨ okey o = (id, side, price, ts).
Proof.
  intros Hwf Hq Hadd. destruct (ab_add_cases _ _ _ _ _ _ _ _ _ Hwf Hq Hadd) as (q & l & Hm & ->).
  apply Matched_suffix in Hm. cbv zeta.
  assert (∀ o, o ∈ ab_orders (ab_set (opposite side) l a) →
            ∃ o', o' ∈ ab_orders a ∧ okey o' = okey o) as Hold.
  { intros o0. rewrite ab_orders_set_side, opposite_opposite, elem_of_app. intros [Ho|Ho].
    - destruct (suffix_elem _ _ _ Hm Ho) as (o' & Ho' & Hk). exists o'. split; [|done].
      apply elem_of_sides. eauto.
    - exists o0. split; [|done]. apply elem_of_sides. eauto. }
  destruct (_ && _); [|by auto]. rewrite ab_orders_set_side, elem_of_app, elem_of_insert_order.
  intros [[->|Ho]|Ho]; [by right|left..]; apply Hold; apply elem_of_sides; eauto.
Qed.

(** An order of someone else does not disturb the market maker. *)
Lemma mm_inv_add lo P next mm cap id side price qty ts a a' tr :
  mm_inv lo P next mm a → abook_wf a → 0 ≤ qty → id < lo → Z.abs price ≤ P →
  ab_add cap id side price qty ts a = (a', tr) → mm_inv lo P next mm a'.
Proof.
  intros [Hids Hown Hfor Hmm Hmid Hcur] Hwf Hq Hid Hp Hadd.
  rewrite Forall_forall in Hids, Hown, Hfor.
  split; [..|done|done|done]; apply Forall_forall; intros o Ho;
    destruct (elem_of_ab_add _ _ _ _ _ _ _ _ _ _ Hwf Hq Hadd Ho)
      as [(o' & Ho' & [= H1 H2 H3 _])|[= H1 H2 H3 _]];
    rewrite ?H1, ?H2, ?H3, <-?H1, <-?H2, <-?H3; eauto; lia.
Qed.

(** The engine has processed exactly the orders with ids [ids]. *)
Record tick_ok (cap : nat) (P : Z) (ids : list Z) (tk : Tick) : Prop := {
  to_book : ∃ a, book_rep cap (tk_book tk) a ∧ abook_wf a ∧
                 mm_inv kStrategyIds P (tk_cursor tk) (tk_mm tk) a ∧
                 ∀ o, o ∈ ab_orders a → o_id o < kStrategyIds → o_id o ∈ ids;
  to_cursor : tk_cursor tk ≤ kStrategyIds + 2 * Z.of_nat (length ids);
  to_processed : tk_processed tk = Z.of_nat (length ids);
  to_hist : ∃ lats, length lats = length ids ∧ holds 7 36 lats (tk_hist tk)
}.

Lemma tick_new_ok cap P : Z.of_nat cap < 2 ^ 31 → 0 ≤ P < 2 ^ 60 → tick_ok cap P [] (tick_new cap).
Proof.
  intros Hcap HP. split; [|cbn; lia|done|].
  - exists (mkABook [] []). split_and!; [by apply book_new_rep|apply abook_empty_wf| |intros o Ho; by inversion Ho].
    split; try (cbn; unfold fits_unsigned, kStrategyIds; lia); by constructor.
  - exists []. split; [done|]. exact (hist_new_holds (2 ^ 34) 7 ltac:(lia) ltac:(lia)).
Qed.

(** What the feeds guarantee about an order. *)
Definition feed_order (P : Z) (o : Order) : Prop :=
  0 < o_id o < kStrategyIds ∧ Z.abs (o_price o) ≤ P ∧ is_u32 (o_qty o).

Lemma engine_tick_ok cap P ids o ts lat tk :
  Z.of_nat cap < 2 ^ 31 → Z.of_nat (length ids) < 2 ^ 60 → tick_ok cap P ids tk →
  feed_order P o → o_id o ∉ ids → is_u64 lat →
  ∃ tk', engine_tick o ts lat tk = Some tk' ∧ tick_ok cap P (ids ++ [o_id o]) tk'.
Proof.
  intros Hcap Hlen [(a & Hrep & Hwf & Hinv & Hids) Hcur Hproc (lats & Hl & Hh)] (Hid & Hp & Hq) Hnew Hlat.
  unfold engine_tick.
  destruct (add_sim_wf cap (o_id o) (o_side o) (o_price o) (o_qty o) ts (tk_book tk) a [] Hcap Hrep Hwf Hq)
    as (a1 & tr1 & b1 & Hab & -> & Hrep1 & Hwf1).
  { apply (book_rep_fresh cap _ a); [done|]. intros (o' & Heq & Ho')%list_elem_of_fmap.
    apply Hnew. rewrite Heq. apply Hids; [done|]. lia. }
  cbn. pose proof (mm_inv_add _ _ _ _ _ _ _ _ _ _ _ _ _ Hinv Hwf (proj1 Hq) (proj2 Hid) Hp Hab) as Hinv1.
  unfold kStrategyIds in *.
  destruct (on_tick_sim cap _ P _ _ b1 a1 ts tr1 Hcap Hrep1 Hwf1 Hinv1)
    as (mm' & b2 & next' & a2 & -> & Hrep2 & Hwf2 & Hinv2 & Hfor & Hnext); [lia|]. cbn.
  destruct (record_ok 7 36 lats lat (tk_hist tk) Hh Hlat) as (h' & -> & Hh'); [lia|]. cbn.
  eexists. split; [done|]. split; cbn.
  - exists a2. split_and!; try done. intros o' Ho' Hlo. apply (Hfor o' Hlo) in Ho'.
    apply elem_of_app. destruct (elem_of_ab_add _ _ _ _ _ _ _ _ _ _ Hwf (proj1 Hq) Hab Ho')
      as [(o0 & Ho0 & [= Hk _ _ _])|[= -> _ _ _]]; [left|right; by left].
    rewrite <-Hk. apply Hids; [done|]. by rewrite Hk.
  - rewrite length_app. unfold kStrategyIds. cbn. lia.
  - rewrite Hproc, wrap_unsigned_id by word_lia. rewrite length_app. cbn. lia.
  - exists (lat :: lats). split; [|done]. rewrite length_app. cbn. lia.
Qed.

(** ** engine_subscriber.cpp, fed by feed_publisher.cpp *)

(** The id of the last order of [l], or [d]. *)
Definition last_id (d : Z) (l : list Order) : Z := match last l with Some o => o_id o | None => d end.

Definition datagram (o : Order) : bytes := wire_encode (to_wire o).

(** Strictly increasing ids above [n]. *)
Fixpoint ids_above (n : Z) (l : list Order) : Prop :=
  match l with [] => True | o :: l' => n < o_id o ∧ ids_above (o_id o) l' end.

(** What the subscriber makes of the ids that arrive, the last one being [n]: each
    jump ahead counts the ids that it leaps over, and a step back nothing. *)
Fixpoint skipped (n : Z) (ids : list Z) : Z :=
  match ids with [] => 0 | i :: ids' => Z.max 0 (i - (n + 1)) + skipped i ids' end.

(** One good datagram with a new id. *)
Lemma sub_step_ok cap P ids o recv_ns lat s :
  Z.of_nat cap < 2 ^ 31 → Z.of_nat (length ids) < 2 ^ 60 → tick_ok cap P ids (sb_tick s) →
  order_fits o → feed_order P o → o_id o ∉ ids → is_u64 lat →
  0 < sb_expected_id s → 0 ≤ sb_dropped s < 2 ^ 62 →
  ∃ s', sub_step (RecvDatagram (datagram o)) recv_ns lat s = Some (true, s') ∧
    tick_ok cap P (ids ++ [o_id o]) (sb_tick s') ∧ sb_expected_id s' = o_id o + 1 ∧
    sb_dropped s' = sb_dropped s + Z.max 0 (o_id o - sb_expected_id s).
Proof.
  intros Hcap Hlen Htk Hfit Hfeed Hnew Hlat Hexp Hdrop. unfold sub_step, datagram.
  rewrite take_ge by (by rewrite length_wire_encode). rewrite length_wire_encode. cbn [negb Nat.eqb sizeof_WireOrder].
  pose proof (wire_roundtrip o Hfit) as Hrt. set (w := wire_decode _) in *.
  assert (wo_id w = o_id o) as -> by (by rewrite <-Hrt).
  destruct (Hfeed) as ((Hpos & Hlt) & _). unfold kStrategyIds in Hlt.
  rewrite (proj2 (Z.eqb_neq (o_id o) 0)) by lia. rewrite Hrt.
  destruct (engine_tick_ok cap P ids o recv_ns lat (sb_tick s) Hcap Hlen Htk Hfeed Hnew Hlat) as (tk & -> & Htk').
  cbn. eexists. split; [done|]. cbn. split; [done|].
  unwrap. split; [done|].
  destruct (Z.eqb_spec (o_id o) (sb_expected_id s)); cbn; [lia|].
  destruct (Z.ltb_spec (sb_expected_id s) (o_id o)); [|unwrap; lia].
  rewrite !wrap_unsigned_id by (rewrite ?wrap_unsigned_id; word_lia). lia.
Qed.

(** The receive loop on the datagrams of [evs] followed by [rest]. *)
Lemma sub_run_ok cap P rest : ∀ evs clocks ids s n,
  Z.of_nat cap < 2 ^ 31 → Z.of_nat (length ids) + Z.of_nat (length evs) < kStrategyIds → tick_ok cap P ids (sb_tick s) →
  Forall order_fits evs → Forall (feed_order P) evs → Forall (λ c, is_u64 c.2) clocks →
  length clocks = length evs → NoDup (ids ++ (o_id <$> evs)) →
  sb_expected_id s = n + 1 → 0 ≤ n → 0 ≤ sb_dropped s ≤ kStrategyIds * Z.of_nat (length ids) →
  ∃ s', sub_run (zip (RecvDatagram ∘ datagram <$> evs) clocks ++ rest) s = sub_run rest s' ∧
    tick_ok cap P (ids ++ (o_id <$> evs)) (sb_tick s') ∧
    sb_dropped s' = sb_dropped s + skipped n (o_id <$> evs).
Proof.
  induction evs as [|o evs IH]; intros clocks ids s n Hcap Hlen Htk Hfit Hfeed Hclk Hcl Hids Hexp Hn Hdrop.
  { exists s. rewrite app_nil_r. cbn. split_and!; [done|done|lia]. }
  destruct clocks as [|[recv_ns lat] clocks]; [done|].
  apply Forall_cons in Hfit as [Hf1 Hfit], Hfeed as [Hf2 Hfeed], Hclk as [Hc Hclk]. cbn in Hc.
  cbn [length] in Hlen, Hcl. rewrite fmap_cons, cons_middle, app_assoc in Hids.
  assert (o_id o ∉ ids) as Hnew by (apply NoDup_app in Hids as [[_ [Hd _]]%NoDup_app _]; intros Hin; by apply (Hd _ Hin), list_elem_of_singleton).
  assert (0 < o_id o < kStrategyIds) as Hid by apply Hf2. unfold kStrategyIds in *.
  destruct (sub_step_ok cap P ids o recv_ns lat s) as (s1 & Hs1 & Htk1 & Hexp1 & Hdrop1); try (done || lia).
  destruct (IH clocks (ids ++ [o_id o]) s1 (o_id o)) as (s' & Hs' & Htk' & Hdrop'); try (done || lia).
  - rewrite length_app. cbn. lia.
  - rewrite length_app. cbn [length]. lia.
  - exists s'. cbn [fmap list_fmap zip zip_with app]. rewrite <-app_assoc in Htk'. split_and!; [|done|].
    + cbn [sub_run compose]. rewrite Hs1. cbn. exact Hs'.
    + rewrite Hdrop', Hdrop1, Hexp. cbn [skipped fmap list_fmap]. lia.
Qed.

(** In order, the ids leapt over are those that are missing up to the last one. *)
Lemma skipped_in_order : ∀ evs n, ids_above n evs →
  skipped n (o_id <$> evs) = last_id n evs - n - Z.of_nat (length evs).
Proof.
  induction evs as [|o evs IH]; intros n Habove; [unfold last_id; cbn; lia|]. destruct Habove as [Hgt Habove].
  cbn [fmap list_fmap skipped]. rewrite IH by done. unfold last_id. rewrite last_cons. cbn [length].
  destruct (last evs); cbn; lia.
Qed.

Lemma ids_above_weaken m n l : m ≤ n → ids_above n l → ids_above m l.
Proof. destruct l; cbn; [done|]. intros ? []. split; [lia|done]. Qed.

(** Whatever part of the synthetic flow arrives, its ids increase. *)
Lemma synthetic_ids_above : ∀ draws mid n evs,
  0 < n → n + Z.of_nat (length draws) < 2 ^ 64 →
  evs `sublist_of` synthetic_from draws mid n → ids_above (n - 1) evs.
Proof.
  induction draws as [|d draws IH]; cbn; intros mid n evs Hn Hlen Hsub.
  { apply sublist_nil_r in Hsub as ->. done. }
  rewrite wrap_unsigned_id in Hsub by word_lia.
  apply sublist_cons_r in Hsub as [Hsub|(evs' & -> & Hsub)]; apply IH in Hsub; try lia.
  - by eapply ids_above_weaken; [|exact Hsub]; lia.
  - cbn. split; [lia|]. by replace (n + 1 - 1) with n in Hsub by lia.
Qed.

Lemma synthetic_orders draws start_price max_qty o :
  Forall (draw_ok max_qty) draws → max_qty < 2 ^ 32 → Z.abs start_price ≤ 2 ^ 40 →
  Z.of_nat (length draws) < kStrategyIds - 1 → o ∈ generate_synthetic draws start_price →
  feed_order (2 ^ 41) o ∧ order_fits o.
Proof.
  unfold kStrategyIds. intros Hd Hq Hp Hlen [i Hi]%list_elem_of_lookup.
  destruct (synthetic_from_spec max_qty draws start_price 1 Hd) as [Hl Hspec]; [lia|lia|].
  specialize (Hspec i o Hi) as (Hid & Hqty & Hpx). pose proof (lookup_lt_Some _ _ _ Hi) as Hlt.
  unfold generate_synthetic in Hlt. rewrite Hl in Hlt.
  assert (o_ts o = 0) as Hts.
  { clear -Hi. revert i Hi. unfold generate_synthetic. generalize start_price 1.
    induction draws as [|d draws IH]; intros p n [|i] Hi; cbn in Hi; [done..| |by eapply IH].
    by injection Hi as <-. }
  unfold feed_order, order_fits, fits_unsigned, fits_signed, kStrategyIds. rewrite Hts. lia.
Qed.

(** [evs] is what arrives of the feed [sent]: some of its orders, each once, in
    whatever order. *)
Definition arrives (evs sent : list Order) : Prop := NoDup evs ∧ ∀ o, o ∈ evs → o ∈ sent.

Lemma sub_run_synthetic cap draws start_price max_qty evs clocks :
  Z.of_nat cap < 2 ^ 31 → Forall (draw_ok max_qty) draws → max_qty < 2 ^ 32 →
  Z.abs start_price ≤ 2 ^ 40 → Z.of_nat (length draws) < kStrategyIds - 1 →
  arrives evs (generate_synthetic draws start_price) →
  length clocks = S (length evs) → Forall (λ c, is_u64 c.2) clocks →
  ∃ s, sub_run (zip (RecvDatagram <$> publish_feed evs) clocks) (sub_new cap) = Some (false, s) ∧
    tick_ok cap (2 ^ 41) (o_id <$> evs) (sb_tick s) ∧
    sb_dropped s = skipped 0 (o_id <$> evs).
Proof.
  intros Hcap Hd Hq Hp Hlen [Hnd Hsub] Hcl Hclk.
  assert (Forall (λ o, feed_order (2 ^ 41) o ∧ order_fits o) evs) as Hok.
  { apply Forall_forall. intros o Ho. eapply synthetic_orders; try done. by apply Hsub. }
  apply Forall_and in Hok as [Hfeed Hfit].
  destruct (synthetic_from_spec max_qty draws start_price 1 Hd ltac:(lia)
              ltac:(unfold kStrategyIds in *; lia)) as [Hl Hspec].
  assert (length evs ≤ length draws)%nat as Hle.
  { rewrite <-Hl. by apply submseteq_length, NoDup_submseteq. }
  assert (NoDup (o_id <$> evs)) as Hids.
  { apply NoDup_fmap_2_strong; [|done]. intros o1 o2 [i H1]%Hsub%list_elem_of_lookup [j H2]%Hsub%list_elem_of_lookup Heq.
    destruct (Hspec i o1 H1) as [Hi _], (Hspec j o2 H2) as [Hj _]. assert (i = j) as -> by lia. congruence. }
  destruct clocks as [|c clocks _] using rev_ind; [done|]. rewrite length_app in Hcl. cbn in Hcl.
  apply Forall_app in Hclk as [Hclk _].
  destruct (sub_run_ok cap (2 ^ 41) [(RecvDatagram (wire_encode end_marker), c)] evs clocks [] (sub_new cap) 0)
    as (s & Hrun & Htk & Hdrop); try (done || lia || apply tick_new_ok; lia).
  { cbn [length]. lia. }
  exists s. cbn [app] in Htk. split_and!; [|done|by rewrite Hdrop].
  unfold publish_feed. rewrite fmap_app, zip_with_app by (rewrite !length_fmap; lia).
  rewrite <-list_fmap_compose. etransitivity; [exact Hrun|]. by destruct c.
Qed.

(** What [skipped] is when the datagrams arrive in the order in which they were
    sent, and when all of them do. *)
Lemma skipped_synthetic draws start_price max_qty evs :
  Forall (draw_ok max_qty) draws → Z.of_nat (length draws) < kStrategyIds - 1 →
  evs `sublist_of` generate_synthetic draws start_price →
  skipped 0 (o_id <$> evs) = last_id 0 evs - Z.of_nat (length evs) ∧
  (evs = generate_synthetic draws start_price → skipped 0 (o_id <$> evs) = 0).
Proof.
  intros Hd Hlen Hsub.
  pose proof (synthetic_ids_above draws start_price 1 evs ltac:(lia)
                ltac:(unfold kStrategyIds in *; lia) Hsub) as Habove.
  pose proof (skipped_in_order evs 0 Habove) as Hs. split; [lia|]. rewrite Hs. intros ->.
  destruct (synthetic_from_spec max_qty draws start_price 1 Hd ltac:(lia)
              ltac:(unfold kStrategyIds in *; lia)) as [Hl Hspec].
  unfold last_id, generate_synthetic. rewrite last_lookup, Hl.
  destruct (synthetic_from draws start_price 1 !! pred (length draws)) as [o|] eqn:Ho.
  - destruct (Hspec _ o Ho) as [-> _]. pose proof (lookup_lt_Some _ _ _ Ho). cbn. lia.
  - apply lookup_ge_None in Ho. cbn. lia.
Qed.

Lemma sublist_arrives draws start_price max_qty evs :
  Forall (draw_ok max_qty) draws → Z.of_nat (length draws) < kStrategyIds - 1 →
  evs `sublist_of` generate_synthetic draws start_price → arrives evs (generate_synthetic draws start_price).
Proof.
  intros Hd Hlen Hsub. split; [|intros o; by eauto using elem_of_sublist]. eapply sublist_NoDup; [|done].
  destruct (synthetic_from_spec max_qty draws start_price 1 Hd ltac:(lia) ltac:(unfold kStrategyIds in *; lia)) as [_ Hspec].
  apply NoDup_alt. intros i j o Hi Hj. destruct (Hspec i o Hi) as [H1 _], (Hspec j o Hj) as [H2 _]. lia.
Qed.

(** Three orders are published and the second datagram is lost. *)
Definition demo_draws : list Draw := [mkDraw 1 true 2 5; mkDraw 0 false 2 5; mkDraw 1 true 1 3].

(** Two ways in which [dropped] is not the number of lost datagrams: all three
    arrive, the first two in the wrong order; and only the first one arrives. *)
Lemma dropped_miscounts :
  let feed := o_id <$> generate_synthetic demo_draws 100 in
  feed = [1; 2; 3] ∧ skipped 0 [2; 1; 3] = 2 ∧ skipped 0 [1] = 0.
Proof. by vm_compute. Qed.

(** ** main.cpp: nothing is lost between the two threads *)

Section MainProofs.
Context (kRingCapacity cap : nat) (P : Z) (dflt : Order) (feed_events : list Order).
Hypothesis Hpow : pow2_capacity kRingCapacity.
Hypothesis Hcap : Z.of_nat cap < 2 ^ 31.
Hypothesis HP : 0 ≤ P < 2 ^ 60.
Hypothesis Hfeed : Forall (feed_order P) feed_events.
Hypothesis Hids : NoDup (o_id <$> feed_events).
Hypothesis Hlen : Z.of_nat (length feed_events) < 2 ^ 60.

(** An order up to the timestamp the feed thread gives it. *)
Definition unstamped (o : Order) : Order := set_o_ts o 0.

Record main_inv (s : MainState) : Prop := {
  ma_flow : ∃ l, spsc_rep kRingCapacity (mn_ring s) l ∧
    unstamped <$> feed_events =
      unstamped <$> (mn_popped s ++ l ++ option_list (mn_hand s) ++ mn_feed s) ∧
    (mn_pc s = EStopped → l = []);
  ma_done : mn_done s = true → mn_feed s = [] ∧ mn_hand s = None;
  ma_pc : mn_pc s = ESawDone ∨ mn_pc s = EStopped → mn_done s = true;
  ma_tick : tick_ok cap P (o_id <$> mn_popped s) (mn_tick s)
}.

Lemma unstamped_ids (l1 l2 : list Order) :
  unstamped <$> l1 = unstamped <$> l2 → o_id <$> l1 = o_id <$> l2.
Proof.
  assert (∀ l : list Order, o_id <$> l = o_id <$> (unstamped <$> l)) as Hl.
  { intros l. rewrite <-list_fmap_compose. by apply list_fmap_ext. }
  intros Heq. by rewrite (Hl l1), (Hl l2), Heq.
Qed.

(** The order the engine is about to process. *)
Lemma next_order_ok po o rest :
  unstamped <$> feed_events = unstamped <$> (po ++ o :: rest) →
  feed_order P o ∧ (o_id o ∉ o_id <$> po) ∧ Z.of_nat (length po) < 2 ^ 60.
Proof.
  intros Heq. split_and!.
  - assert (unstamped o ∈ unstamped <$> feed_events) as (o' & Hk & Ho')%list_elem_of_fmap.
    { rewrite Heq. apply list_elem_of_fmap_2. set_solver. }
    rewrite Forall_forall in Hfeed. specialize (Hfeed o' Ho'). unfold feed_order in *.
    injection Hk as -> _ -> ->. done.
  - apply unstamped_ids in Heq. rewrite Heq, fmap_app, fmap_cons in Hids.
    apply NoDup_app in Hids as (_ & Hdisj & _). intros Hin. apply (Hdisj _ Hin). by left.
  - apply (f_equal length) in Heq. rewrite !length_fmap, length_app in Heq. cbn in Heq. lia.
Qed.

Lemma main_init_inv : main_inv (main_init kRingCapacity cap dflt feed_events).
Proof.
  split; cbn; try done.
  - exists []. split; [|done]. exists [], 0%nat. split; [by apply spsc_new_inv|done].
  - intros [|]; done.
  - by apply tick_new_ok.
Qed.

(** What the ring operations do, read off the model's steps. *)
Lemma push_inv r (l : list Order) o b r' :
  spsc_rep kRingCapacity r l → push kRingCapacity o r = Some (b, r') →
  spsc_rep kRingCapacity r' (if (b : bool) then l ++ [o] else l).
Proof.
  intros Hrep Hpush. pose proof (push_spec kRingCapacity Hpow r l o Hrep) as Hs.
  case_decide; [destruct Hs as (r1 & Hs & ?)|]; rewrite Hpush in Hs; by injection Hs as -> ->.
Qed.

Lemma pop_inv r (l : list Order) x r' :
  spsc_rep kRingCapacity r l → pop kRingCapacity r = Some (x, r') →
  match x with
  | Some o => ∃ l', l = o :: l' ∧ spsc_rep kRingCapacity r' l'
  | None => l = [] ∧ r' = r
  end.
Proof.
  intros Hrep Hpop. pose proof (pop_spec kRingCapacity Hpow r l Hrep) as Hs.
  destruct l as [|o l]; [|destruct Hs as (r1 & Hs & ?)]; rewrite Hpop in Hs; injection Hs as -> ->; eauto.
Qed.

Lemma main_step_inv s s' : main_step kRingCapacity s s' → main_inv s → main_inv s'.
Proof.
  intros Hstep [(l & Hrep & Hflow & Hstop) Hdone Hpc Htk]. destruct Hstep; cbn in *.
  - split; cbn; [exists l|naive_solver|done|done]. split_and!; [done| |done].
    rewrite Hflow, !fmap_app. done.
  - split; cbn; [exists (l ++ [o])|naive_solver|done|done].
    split_and!; [by apply (push_inv _ _ o true r' Hrep)|by rewrite Hflow, <-!app_assoc|].
    intros He. destruct (Hdone (Hpc (or_intror He))) as [_ [=]].
  - split; cbn; [exists l|done|done|done]. split_and!; [by apply (push_inv _ _ o false r' Hrep)|done|done].
  - split; cbn; [by exists l|done|done|done].
  - destruct (pop_inv _ _ _ _ Hrep Hpop) as (l' & -> & Hrep').
    destruct (next_order_ok po o (l' ++ option_list hd ++ feed)) as (Ho & Hnew & Hn); [by rewrite Hflow|].
    destruct (engine_tick_ok cap P (o_id <$> po) o (o_ts o) lat tk) as (tk1 & Htk1 & Hok); try done.
    { by rewrite length_fmap. }
    rewrite Htk1 in Htick. injection Htick as <-.
    split; cbn; [exists l'|done|naive_solver|by rewrite fmap_app].
    split_and!; [done|by rewrite Hflow, <-!app_assoc|done].
  - destruct (pop_inv _ _ _ _ Hrep Hpop) as [-> ->].
    split; cbn; [by exists []|done|naive_solver|done].
  - split; cbn; [by exists l|done|done|done].
  - split; cbn; [by exists l|done|naive_solver|done].
  - split; cbn; [exists l|done|intros _; apply Hpc; by left|done].
    split_and!; [done|done|]. rewrite (empty_spec kRingCapacity Hpow r l Hrep). by destruct l.
Qed.

Lemma main_reach_inv s : main_reach kRingCapacity cap dflt feed_events s → main_inv s.
Proof.
  intros Hr. unfold main_reach in Hr. pose proof main_init_inv as Hi. revert Hi.
  induction Hr; eauto using main_step_inv.
Qed.

(** ** Both threads can always finish *)

(** The work left: orders not stamped, stamped, in the ring. *)
Definition work (feed : list Order) (hd : option Order) (l : list Order) : nat :=
  3 * length feed + 2 * length (option_list hd) + length l.

Definition can_finish (s : MainState) : Prop :=
  ∃ s', rtc (main_step kRingCapacity) s s' ∧ mn_pc s' = EStopped ∧ mn_done s' = true.

Lemma can_finish_step s s' : main_step kRingCapacity s s' → can_finish s' → can_finish s.
Proof. intros Hs (s'' & Hr & Hf). exists s''. split; [by eapply rtc_l|done]. Qed.

(** With the engine at the head of its loop, by induction on the work left. *)
Lemma can_finish_loop : ∀ n feed hd d r tk po l,
  (2 ≤ kRingCapacity)%nat → spsc_rep kRingCapacity r l → (work feed hd l ≤ n)%nat →
  main_inv (mkMain feed hd d r ELoop tk po) → can_finish (mkMain feed hd d r ELoop tk po).
Proof.
  induction n as [n IH] using lt_wf_ind. intros feed hd d r tk po l H2 Hrep Hn Hinv.
  assert (∀ feed' hd' r' tk' po' l',
    main_step kRingCapacity (mkMain feed hd d r ELoop tk po) (mkMain feed' hd' d r' ELoop tk' po') →
    spsc_rep kRingCapacity r' l' → (work feed' hd' l' < work feed hd l)%nat →
    can_finish (mkMain feed hd d r ELoop tk po)) as Hnext.
  { intros feed' hd' r' tk' po' l' Hs Hrep' Hlt. eapply can_finish_step; [exact Hs|].
    eapply (IH (work feed' hd' l')); [lia|done|done|done|by eapply main_step_inv]. }
  destruct (Hinv) as [(l0 & Hrep0 & Hflow & _) _ _ Htk]. cbn in *.
  destruct l as [|o l].
  - destruct hd as [o|].
    + pose proof (push_spec kRingCapacity Hpow r [] o Hrep) as Hs.
      rewrite decide_True in Hs by (cbn; lia). destruct Hs as (r' & Hpush & Hrep').
      eapply Hnext; [by apply feed_push|exact Hrep'|]. unfold work. cbn. lia.
    + destruct feed as [|o feed].
      * pose proof (pop_spec kRingCapacity Hpow r [] Hrep) as Hpop. cbn in Hpop.
        eapply can_finish_step; [apply feed_finish|].
        eapply can_finish_step; [by apply engine_pop_empty|].
        eapply can_finish_step; [apply engine_saw_done|].
        eexists. split; [apply rtc_once, engine_empty|].
        by rewrite (empty_spec kRingCapacity Hpow r [] Hrep).
      * eapply Hnext; [by apply (feed_next _ _ _ 0)|exact Hrep|]. unfold work. cbn. lia.
  - destruct (pop_spec kRingCapacity Hpow r (o :: l) Hrep) as (r' & Hpop & Hrep').
    destruct (pop_inv _ _ _ _ Hrep0 Hpop) as (l1 & -> & _).
    destruct (next_order_ok po o (l1 ++ option_list hd ++ feed)) as (Ho & Hnew & Hlt); [by rewrite Hflow|].
    destruct (engine_tick_ok cap P (o_id <$> po) o (o_ts o) 0 tk) as (tk1 & Htk1 & _); try done.
    { by rewrite length_fmap. }
    eapply Hnext; [by eapply (engine_pop _ _ _ _ _ _ _ 0)|exact Hrep'|]. unfold work. cbn. lia.
Qed.

Lemma main_can_finish s : (2 ≤ kRingCapacity)%nat → main_inv s → can_finish s.
Proof.
  intros H2 Hinv. destruct (Hinv) as [(l & Hrep & _) _ Hpc _].
  assert (∀ feed hd d r tk po, spsc_rep kRingCapacity r l → main_inv (mkMain feed hd d r ELoop tk po) →
            can_finish (mkMain feed hd d r ELoop tk po)) as Hloop.
  { intros. by eapply can_finish_loop. }
  destruct s as [feed hd d r pc tk po]; cbn in *.
  assert (∀ d, main_inv (mkMain feed hd d r ESawDone tk po) → d = true →
            can_finish (mkMain feed hd d r ESawDone tk po)) as Hsaw.
  { intros d' Hi ->. pose proof (engine_empty kRingCapacity feed hd true r tk po) as Hs.
    pose proof (main_step_inv _ _ Hs Hi) as Hi'. destruct (empty r).
    - eexists. split; [by apply rtc_once|done].
    - eapply can_finish_step; [exact Hs|]. by apply Hloop. }
  destruct pc.
  - by apply Hloop.
  - destruct d.
    + pose proof (engine_saw_done kRingCapacity feed hd r tk po) as Hs.
      eapply can_finish_step; [exact Hs|]. apply Hsaw; [by eapply main_step_inv|done].
    + pose proof (engine_not_done kRingCapacity feed hd r tk po) as Hs.
      eapply can_finish_step; [exact Hs|]. apply Hloop; [done|by eapply main_step_inv].
  - apply Hsaw; [done|]. apply Hpc. by left.
  - eexists. split; [reflexivity|]. split; [done|]. apply Hpc. by right.
Qed.

End MainProofs.

Lemma main_stopped kRingCapacity cap P dflt feed_events s :
  pow2_capacity kRingCapacity → Z.of_nat cap < 2 ^ 31 → 0 ≤ P < 2 ^ 60 →
  Forall (feed_order P) feed_events → NoDup (o_id <$> feed_events) → Z.of_nat (length feed_events) < 2 ^ 60 →
  main_reach kRingCapacity cap dflt feed_events s → mn_pc s = EStopped →
  unstamped <$> mn_popped s = unstamped <$> feed_events ∧
  length (mn_popped s) = length feed_events ∧ tick_ok cap P (o_id <$> mn_popped s) (mn_tick s).
Proof.
  intros Hpow Hcap HP Hfeed Hids Hlen Hr Hstop.
  destruct (main_reach_inv _ _ _ _ _ Hpow Hcap HP Hfeed Hids Hlen s Hr) as [(l & _ & Hflow & Hl) Hdone Hpc Htk].
  destruct (Hdone (Hpc (or_intror Hstop))) as [Hf Hh].
  rewrite Hf, Hh, (Hl Hstop), !app_nil_r in Hflow. split_and!; [done| |done].
  apply (f_equal length) in Hflow. rewrite !length_fmap in Hflow. done.
Qed.

(** C8: The in-process pipeline loses nothing.  In every interleaving of the
    feed thread and the engine thread, when the engine thread has stopped the
    feed is exhausted and the engine has processed exactly the feed's orders, in
    order, each stamped once; in particular the test of [feed_done] before
    [ring.empty()] cannot strand an order.  Every state can still reach that
    end. *)
Theorem main_processes_all (kRingCapacity cap : nat) P dflt feed_events s :
  pow2_capacity kRingCapacity → (2 ≤ kRingCapacity)%nat → Z.of_nat cap < 2 ^ 31 → 0 ≤ P < 2 ^ 60 →
  Forall (feed_order P) feed_events → NoDup (o_id <$> feed_events) →
  Z.of_nat (length feed_events) < 2 ^ 60 →
  main_reach kRingCapacity cap dflt feed_events s →
  (mn_pc s = EStopped →
     unstamped <$> mn_popped s = unstamped <$> feed_events ∧
     tk_processed (mn_tick s) = Z.of_nat (length feed_events)) ∧
  can_finish kRingCapacity s.
Proof.
  intros Hpow H2 Hcap HP Hfeed Hids Hlen Hr.
  pose proof (main_reach_inv _ _ _ _ _ Hpow Hcap HP Hfeed Hids Hlen s Hr) as Hinv.
  split; [|by eapply main_can_finish]. intros Hstop.
  destruct (main_stopped kRingCapacity cap P dflt feed_events s) as (Hflow & Hl & Htk); try done.
  split; [done|]. by rewrite (to_processed _ _ _ _ Htk), length_fmap, Hl.
Qed.

Lemma main_processes_all_witness :
  can_finish 4 (main_init 4 8 (mkOrder 0 Buy 0 0 0) (generate_synthetic demo_draws 100)).
Proof.
  apply (main_processes_all 4 8 200 (mkOrder 0 Buy 0 0 0) (generate_synthetic demo_draws 100)).
  - apply pow2_capacity_4.
  - lia.
  - lia.
  - lia.
  - unfold feed_order, kStrategyIds, fits_unsigned. repeat constructor; cbn; lia.
  - apply (bool_decide_unpack _). vm_compute. exact I.
  - cbn. lia.
  - apply rtc_refl.
Defined.

(** [self_test] passes, for every pool with at least one slot. *)
Theorem self_test_passes kPoolCapacity :
  (0 < kPoolCapacity)%nat → Z.of_nat kPoolCapacity < 2 ^ 31 → self_test kPoolCapacity = Some true.
Proof.
  intros H0 Hcap. unfold self_test.
  pose proof (book_new_rep kPoolCapacity Hcap) as Hrep. pose proof abook_empty_wf as Hwf.
  destruct (add_sim_wf kPoolCapacity 1 Buy 100 10 0 _ _ [] Hcap Hrep Hwf) as (a1 & tr1 & b1 & Ha1 & -> & Hrep1 & Hwf1);
    [word_lia|done|].
  assert (ab_add kPoolCapacity 1 Buy 100 10 0 (mkABook [] []) = (mkABook [mkOrder 1 Buy 100 10 0] [], [])) as E1.
  { by destruct kPoolCapacity; [lia|]. }
  rewrite E1 in Ha1. injection Ha1 as <- <-. cbn. rewrite (best_bid_sim _ _ _ Hrep1). cbn.
  destruct (add_sim_wf kPoolCapacity 2 Sell 100 4 0 b1 _ [] Hcap Hrep1 Hwf1) as (a2 & tr2 & b2 & Ha2 & -> & Hrep2 & Hwf2);
    [word_lia|by apply (book_rep_fresh _ _ _ 2 Hrep1), (bool_decide_unpack _)|].
  injection Ha2 as <- <-. cbn. rewrite (best_bid_sim _ _ _ Hrep2). cbn.
  destruct (cancel_sim_wf kPoolCapacity 1 b2 _ Hcap Hrep2 Hwf2) as (b3 & -> & Hrep3 & _).
  cbn. by rewrite (best_bid_sim _ _ _ Hrep3).
Qed.

(** The capacity of the real program is in range; a small one is run. *)
Lemma self_test_passes_witness : self_test 4 = Some true.
Proof. apply (self_test_passes 4); lia. Defined.
