(* ===== verification/Programs.v ===== *)
(** * Programs: the command-line programs from arguments to report

    The [main] functions of [src/main.cpp], [src/feed_publisher.cpp] and
    [src/engine_subscriber.cpp] around the loops of [Pipeline] and [Feed]: the
    arguments, the choice of the feed, the sockets, and what is printed and
    appended to the results file at the end.  The random generator, the file
    system and the results of system calls are arguments. *)

From Stdlib Require Import Ascii String.
From S2P Require Import Prelude Types ObjectPool OrderBook PriceTime OrderBookProofs BookProperties SpscRing Protocol Float Text Histogram Results Feed Strategy Pipeline.

#[local] Open Scope Z_scope.

#[local] Arguments dec : simpl never.
#[local] Arguments stoull : simpl never.
#[local] Arguments stoi : simpl never.

(** ** Arguments *)

(** [for (int i = 1; i < argc; ++i)] over the arguments: the options, or what
    [--help] and an exception of [std::stoi] or [std::stoull] lead to. *)
Inductive Parsed (O : Type) := ParseOk (o : O) | ParseHelp | ParseThrow.
Arguments ParseOk {O} _.
Arguments ParseHelp {O}.
Arguments ParseThrow {O}.

Section Args.
Context {O : Type}.
Context (flag : string → option (O → O)).                      (* [--test] *)
Context (valued : string → option (string → O → option O)).    (* [--count N] *)

(** An option that needs a value and is the last argument is ignored, like any
    argument that is not known. *)
Fixpoint parse_args (argv : list string) (o : O) : Parsed O :=
  match argv with
  | [] => ParseOk o
  | arg :: rest =>
      match flag arg with
      | Some set => parse_args rest (set o)
      | None =>
          match valued arg, rest with
          | Some set, value :: rest' =>
              match set value o with Some o' => parse_args rest' o' | None => ParseThrow end
          | _, _ => if String.eqb arg "--help" then ParseHelp else parse_args rest o
          end
      end
  end.

End Args.

(** ** main.cpp *)

Record MainOpts := mkMainOpts { data_file : string; synthetic_count : Z; run_self_test : bool }.

Definition main_defaults : MainOpts := mkMainOpts "" 200000 false.

Definition main_flag (arg : string) : option (MainOpts → MainOpts) :=
  if String.eqb arg "--test" then Some (λ o, mkMainOpts (data_file o) (synthetic_count o) true) else None.

Definition main_valued (arg : string) : option (string → MainOpts → option MainOpts) :=
  if String.eqb arg "--data" then Some (λ v o, Some (mkMainOpts v (synthetic_count o) (run_self_test o)))
  else if String.eqb arg "--count" then
    Some (λ v o, n ← stoull v; Some (mkMainOpts (data_file o) n (run_self_test o)))
  else None.

Definition main_args (argv : list string) : Parsed MainOpts :=
  parse_args main_flag main_valued argv main_defaults.

(** [data_file.empty() ? generate_synthetic(synthetic_count) : load_csv(data_file)];
    [rng n] are the draws of [n] iterations and [fs] the lines of a file. *)
Definition choose_feed (rng : Z → list Draw) (fs : string → option (list string)) (data_file : string)
    (synthetic_count : Z) : option (list Order) :=
  if String.eqb data_file "" then Some (generate_synthetic (rng synthetic_count) 10000)
  else load_csv (fs data_file).

(** How [main] starts: it returns, throws, or runs the two threads on a feed. *)
Inductive MainStart := MsReturn (code : Z) | MsThrow | MsRun (o : MainOpts) (feed_events : list Order).

Definition main_start (kPoolCapacity : nat) (rng : Z → list Draw) (fs : string → option (list string))
    (argv : list string) : option MainStart :=
  match main_args argv with
  | ParseHelp => Some (MsReturn 0)
  | ParseThrow => Some MsThrow
  | ParseOk o =>
      if run_self_test o then ok ← self_test kPoolCapacity; Some (MsReturn (if ok : bool then 0 else 1))
      else
        match choose_feed rng fs (data_file o) (synthetic_count o) with
        | None => Some MsThrow
        | Some feed_events => Some (MsRun o feed_events)
        end
  end.

(** What a run meets when it appends to the results file. *)
Record Env := mkEnv { env_dirs_ok : bool; env_opens : bool; env_tm : Tm; env_git : option string }.

Definition history_csv : string := "results/history.csv".

Definition append_history (e : Env) (run_label : string) (processed : Z) (h : LatencyHistogram)
    (file : option string) : option (option string) :=
  append_result_csv history_csv (env_dirs_ok e) (env_opens e) (env_tm e) (env_git e) run_label processed h file.

Definition resting_line (b : OrderBook) : string :=
  ("Resting orders remaining: " ++ dec (Z.of_nat (resting_orders b)) ++ " (" ++ dec (Z.of_nat (bid_levels b)) ++
   " bid levels, " ++ dec (Z.of_nat (ask_levels b)) ++ " ask levels)")%string.

(** [main] after the two [join]s: the printed lines and the results file.  The
    argument [o] decides the label. *)
Definition main_finish (o : MainOpts) (e : Env) (tk : Tick) (file : option string)
    : option (list string * option string) :=
  top ← print_top 5 (tk_book tk);
  summary ← print_summary "order-to-book tick latency" (tk_hist tk);
  file' ← append_history e (if String.eqb (data_file o) "" then "synthetic" else "csv_replay")
            (tk_processed tk) (tk_hist tk) file;
  Some ([""%string;
         ("Processed " ++ dec (tk_processed tk) ++ " orders, generated " ++ dec (tk_trade_count tk) ++ " trades")%string;
         resting_line (tk_book tk); ""%string; "Final book snapshot:"%string; top] ++ summary, file').

(** ** feed_publisher.cpp *)

Record PubOpts := mkPubOpts {
  pub_data_file : string; pub_count : Z; pub_group : string; pub_port : Z; pub_delay_us : Z }.

Definition pub_defaults : PubOpts := mkPubOpts "" 200000 "239.255.0.1" 30001 0.

Definition pub_valued (arg : string) : option (string → PubOpts → option PubOpts) :=
  if String.eqb arg "--data" then
    Some (λ v o, Some (mkPubOpts v (pub_count o) (pub_group o) (pub_port o) (pub_delay_us o)))
  else if String.eqb arg "--count" then
    Some (λ v o, n ← stoull v; Some (mkPubOpts (pub_data_file o) n (pub_group o) (pub_port o) (pub_delay_us o)))
  else if String.eqb arg "--group" then
    Some (λ v o, Some (mkPubOpts (pub_data_file o) (pub_count o) v (pub_port o) (pub_delay_us o)))
  else if String.eqb arg "--port" then
    Some (λ v o, p ← stoi v; Some (mkPubOpts (pub_data_file o) (pub_count o) (pub_group o) (u16 p) (pub_delay_us o)))
  else if String.eqb arg "--delay-us" then
    Some (λ v o, d ← stoi v; Some (mkPubOpts (pub_data_file o) (pub_count o) (pub_group o) (pub_port o) d))
  else None.

Definition pub_args (argv : list string) : Parsed PubOpts :=
  parse_args (λ _, None) pub_valued argv pub_defaults.

(** The publisher: its exit code and, if it got that far, its options, which
    hold the destination and the delay, and the datagrams it handed to [sendto].
    The results of [setsockopt] and [sendto] do not change what it does.  [None]
    is an exception. *)
Definition publisher_main (rng : Z → list Draw) (fs : string → option (list string)) (sock : Z)
    (argv : list string) : option (Z * option (PubOpts * list bytes)) :=
  match pub_args argv with
  | ParseHelp => Some (0, None)
  | ParseThrow => None
  | ParseOk o =>
      events ← choose_feed rng fs (pub_data_file o) (pub_count o);
      if sock <? 0 then Some (1, None) else Some (0, Some (o, publish_feed events))
  end.

(** ** engine_subscriber.cpp *)

Record SubOpts := mkSubOpts { sub_group : string; sub_port : Z }.

Definition sub_valued (arg : string) : option (string → SubOpts → option SubOpts) :=
  if String.eqb arg "--group" then Some (λ v o, Some (mkSubOpts v (sub_port o)))
  else if String.eqb arg "--port" then Some (λ v o, p ← stoi v; Some (mkSubOpts (sub_group o) (u16 p)))
  else None.

Definition sub_args (argv : list string) : Parsed SubOpts :=
  parse_args (λ _, None) sub_valued argv (mkSubOpts "239.255.0.1" 30001).

(** What [socket], [bind] and the group membership return: [false] is [return 1].
    The program ignores the results of the [setsockopt] calls in between. *)
Definition sub_sockets (sock bound joined : Z) : bool :=
  if sock <? 0 then false else if bound <? 0 then false else negb (joined <? 0).

(** After the receive loop. *)
Definition sub_finish (e : Env) (s : Subscriber) (file : option string) : option (list string * option string) :=
  let tk := sb_tick s in
  summary ← print_summary "wire-to-book tick latency" (tk_hist tk);
  file' ← append_history e "udp_multicast" (tk_processed tk) (tk_hist tk) file;
  Some ([""%string;
         ("engine_subscriber: processed " ++ dec (tk_processed tk) ++ " orders, " ++ dec (tk_trade_count tk) ++ " trades")%string;
         ("Dropped packets (sequence gaps): " ++ dec (sb_dropped s))%string;
         resting_line (tk_book tk); ""%string] ++ summary, file').

(** The subscriber's [main] on the results [rs] of [recv]: it returns a code,
    with the report if there is one; throws; or waits in [recv]. *)
Inductive SubEnd :=
| SubReturn (code : Z) (report : option (list string * option string))
| SubThrow
| SubWaiting (s : Subscriber).

Definition subscriber_main (kPoolCapacity : nat) (sock bound joined : Z) (rs : list (Recv * (Z * Z)))
    (e : Env) (file : option string) (argv : list string) : option SubEnd :=
  match sub_args argv with
  | ParseHelp => Some (SubReturn 0 None)
  | ParseThrow => Some SubThrow
  | ParseOk _ =>
      if negb (sub_sockets sock bound joined) then Some (SubReturn 1 None)
      else
        '(waiting, s) ← sub_run rs (sub_new kPoolCapacity);
        if waiting : bool then Some (SubWaiting s)
        else match sub_finish e s file with
             | Some report => Some (SubReturn 0 (Some report))
             | None => Some SubThrow
             end
  end.

(** ** Arguments are understood *)

Section ArgsProofs.
Context {O : Type} (flag : string → option (O → O)) (valued : string → option (string → O → option O)).

(** What a group of arguments does, wherever it stands. *)
Definition sets (args : list string) (f : O → O) : Prop :=
  ∀ rest o, parse_args flag valued (args ++ rest) o = parse_args flag valued rest (f o).

Lemma sets_flag arg f : flag arg = Some f → sets [arg] f.
Proof. intros Hf rest o. cbn. by rewrite Hf. Qed.

Lemma sets_valued arg value set f :
  flag arg = None → valued arg = Some set → (∀ o, set value o = Some (f o)) → sets [arg; value] f.
Proof. intros Hf Hv Hs rest o. cbn. by rewrite Hf, Hv, Hs. Qed.

Lemma sets_unknown arg : flag arg = None → valued arg = None → arg ≠ "--help"%string → sets [arg] (λ o, o).
Proof. intros Hf Hv Hn rest o. cbn. rewrite Hf, Hv. by destruct (String.eqb_spec arg "--help"). Qed.

Lemma parse_sets groups fs o :
  Forall2 sets groups fs → parse_args flag valued (concat groups) o = ParseOk (foldl (λ o f, f o) o fs).
Proof. intros HF. revert o. induction HF as [|g f gs fs Hg _ IH]; intros o; cbn; [done|]. by rewrite Hg. Qed.

End ArgsProofs.

(** The settings a user can give the publisher, with their effect. *)
Inductive Setting :=
| SetData (file : string) | SetCount (n : Z) | SetGroup (ip : string) | SetPort (p : Z) | SetDelay (us : Z).

Definition setting_fits (s : Setting) : Prop :=
  match s with SetCount n => is_u64 n | SetPort p => is_u16 p | SetDelay us => 0 ≤ us < 2 ^ 31 | _ => True end.

Definition setting_args (s : Setting) : list string :=
  match s with
  | SetData f => ["--data"; f] | SetCount n => ["--count"; dec n] | SetGroup ip => ["--group"; ip]
  | SetPort p => ["--port"; dec p] | SetDelay us => ["--delay-us"; dec us]
  end%string.

Definition with_setting (s : Setting) (o : PubOpts) : PubOpts :=
  match s with
  | SetData f => mkPubOpts f (pub_count o) (pub_group o) (pub_port o) (pub_delay_us o)
  | SetCount n => mkPubOpts (pub_data_file o) n (pub_group o) (pub_port o) (pub_delay_us o)
  | SetGroup ip => mkPubOpts (pub_data_file o) (pub_count o) ip (pub_port o) (pub_delay_us o)
  | SetPort p => mkPubOpts (pub_data_file o) (pub_count o) (pub_group o) p (pub_delay_us o)
  | SetDelay us => mkPubOpts (pub_data_file o) (pub_count o) (pub_group o) (pub_port o) us
  end.

Lemma setting_sets s : setting_fits s → sets (λ _, None) pub_valued (setting_args s) (with_setting s).
Proof.
  destruct s as [f|n|ip|p|us]; cbn; intros Hs; eapply sets_valued; [done|reflexivity| |done|reflexivity| |done|reflexivity|
    |done|reflexivity| |done|reflexivity|]; intros o; cbv beta; try done.
  - by rewrite stoull_dec.
  - rewrite stoi_dec by word_lia. cbn [mbind option_bind]. by rewrite wrap_unsigned_id.
  - by rewrite stoi_dec.
Qed.

(** The publisher understands its command line: any sequence of settings,
    printed as arguments, is read back, the later ones overriding the earlier. *)
Theorem publisher_args_roundtrip settings :
  Forall setting_fits settings →
  pub_args (concat (setting_args <$> settings)) = ParseOk (foldl (λ o s, with_setting s o) pub_defaults settings).
Proof.
  intros Hs. unfold pub_args. rewrite (parse_sets _ _ _ (with_setting <$> settings)).
  - f_equal. generalize pub_defaults. clear. induction settings as [|s l IH]; intros o; cbn; [done|]. apply IH.
  - clear -Hs. induction Hs as [|s l Hs _ IH]; constructor; [by apply setting_sets|done].
Qed.

Lemma publisher_args_roundtrip_witness :
  pub_args ["--count"; "5"; "--port"; "40000"; "--count"; "7"]%string
  = ParseOk (mkPubOpts "" 7 "239.255.0.1" 40000 0).
Proof.
  apply (publisher_args_roundtrip [SetCount 5; SetPort 40000; SetCount 7]).
  repeat constructor; cbn; lia.
Defined.

(** ** From the command line to the results file *)

(** The results file can be written, and [git] prints no comma. *)
Record env_ok (e : Env) : Prop := {
  eo_dirs : env_dirs_ok e = true;
  eo_opens : env_opens e = true;
  eo_git : ∀ text, env_git e = Some text → lacks "," text = true
}.

(** The text that a run's row is appended to. *)
Definition before_row (file : option string) : string :=
  match file with None => unlines [csv_header] | Some text => text end.

(** [row] is what a run that processed [n] orders must record. *)
Definition recorded (e : Env) (label : string) (n : Z) (h : LatencyHistogram) (row : string) : Prop :=
  ∃ ps, percentiles h = Some ps ∧
    read_row row = Some (mkRow (timestamp (env_tm e)) (git_short_hash (env_git e)) label n (hist_min h)
                           (ostream_double (mean h)) ps (hist_max h)).

Lemma append_history_ok e label cap P ids tk file :
  env_ok e → tick_ok cap P ids tk → Z.of_nat (length ids) < 2 ^ 53 →
  lacks "," label = true ∧ lacks lf label = true →
  (∃ row, append_history e label (tk_processed tk) (tk_hist tk) file
            = Some (Some (before_row file ++ unlines [row])%string) ∧
     recorded e label (Z.of_nat (length ids)) (tk_hist tk) row) ∧
  (∃ lines, ∀ name, is_Some (print_summary name (tk_hist tk)) ∧ percentiles (tk_hist tk) = Some lines).
Proof.
  intros [Hd Ho Hg] [_ _ Hproc (lats & Hlats & Hh)] Hlen Hlab.
  assert (run_ok (mkRun (env_tm e) (env_git e) label (tk_processed tk) (tk_hist tk))) as Hrun.
  { split; cbn; [done|done|rewrite Hproc; word_lia|]. exists 7, 36, lats. by rewrite Hlats. }
  destruct (append_row history_csv _ file Hrun) as (row & (_ & ps & Hps & Hread) & Happ).
  cbn [ru_tm ru_out ru_label ru_count ru_hist] in *. split.
  - exists row. unfold append_history. rewrite Hd, Ho, Happ. split.
    + do 2 f_equal. destruct file; [done|]. cbn. by rewrite string_app_assoc.
    + exists ps. split; [done|]. unfold row_of in Hread. cbn [ru_tm ru_out ru_label ru_count ru_hist] in Hread. by rewrite Hread, Hproc.
  - exists ps. intros name. split; [|done]. unfold print_summary. rewrite Hps. cbn. eauto.
Qed.

(** What the documentation of the random distributions promises for [n] draws. *)
Definition rng_ok (rng : Z → list Draw) (n : Z) : Prop :=
  length (rng n) = Z.to_nat n ∧ Forall (draw_ok 20) (rng n).

Lemma synthetic_feed rng N :
  rng_ok rng N → 0 ≤ N < kStrategyIds - 1 → let evs := generate_synthetic (rng N) 10000 in
  Z.of_nat (length evs) = N ∧ Forall (feed_order (2 ^ 41)) evs ∧ NoDup (o_id <$> evs).
Proof.
  intros [Hlen Hd] HN evs.
  destruct (synthetic_from_spec 20 (rng N) 10000 1 Hd) as [Hl Hspec]; [lia|unfold kStrategyIds in *; lia|].
  fold evs in Hl, Hspec. split_and!.
  - unfold evs, generate_synthetic. rewrite Hl. lia.
  - apply Forall_forall. intros o Ho. eapply (synthetic_orders (rng N) 10000 20); [done|lia|lia|lia|done].
  - apply NoDup_alt. intros i j x. rewrite !list_lookup_fmap_Some. intros (o & -> & Ho) (o' & Hx & Ho').
    destruct (Hspec i o Ho) as [H1 _]. destruct (Hspec j o' Ho') as [H2 _]. lia.
Qed.

Lemma main_start_count cap rng fs N :
  is_u64 N → main_start cap rng fs ["--count"; dec N]%string
             = Some (MsRun (mkMainOpts "" N false) (generate_synthetic (rng N) 10000)).
Proof. intros HN. unfold main_start, main_args. cbn. by rewrite stoull_dec. Qed.

(** C22: [hft_lob --count N] from the command line to the results file.  The
    program generates [N] orders; however its two threads interleave, when they
    have stopped it prints its report without undefined behaviour and appends
    to the results file, after the header if the file is new, one row that
    reads back as: the time and commit of the run, label [synthetic], [N] events,
    and the histogram's minimum, percentiles, maximum and mean.  Stopping is
    possible. *)
Theorem hft_lob_end_to_end kRingCapacity cap rng fs N dflt e file :
  pow2_capacity kRingCapacity → (2 ≤ kRingCapacity)%nat → Z.of_nat cap < 2 ^ 31 →
  0 ≤ N < kStrategyIds - 1 → rng_ok rng N → env_ok e →
  ∃ o evs, main_start cap rng fs ["--count"; dec N]%string = Some (MsRun o evs) ∧
    (∃ s, main_reach kRingCapacity cap dflt evs s ∧ mn_pc s = EStopped) ∧
    ∀ s, main_reach kRingCapacity cap dflt evs s → mn_pc s = EStopped →
      ∃ lines row, main_finish o e (mn_tick s) file = Some (lines, Some (before_row file ++ unlines [row])%string) ∧
        recorded e "synthetic" N (tk_hist (mn_tick s)) row.
Proof.
  intros Hpow H2 Hcap HN Hrng He. destruct (synthetic_feed rng N Hrng HN) as (Hlen & Hfeed & Hids).
  set (evs := generate_synthetic (rng N) 10000) in *. assert (N < 2 ^ 53) as HN' by (unfold kStrategyIds in *; lia).
  exists (mkMainOpts "" N false), evs. split; [apply main_start_count; word_lia|]. split.
  - destruct (main_can_finish kRingCapacity cap (2 ^ 41) evs Hpow Hcap ltac:(lia) Hfeed Hids ltac:(lia)
                (main_init kRingCapacity cap dflt evs) H2) as (s & Hr & Hs & _);
      [by apply main_init_inv; try done; lia|]. by exists s.
  - intros s Hr Hs. destruct (main_stopped kRingCapacity cap (2 ^ 41) dflt evs s) as (_ & Hl & Htk); try (done || lia).
    destruct (append_history_ok e "synthetic" cap (2 ^ 41) _ _ file He Htk) as [(row & Happ & Hrec) (ps & Hsum)];
      [rewrite length_fmap; lia|done|].
    destruct (Hsum "order-to-book tick latency"%string) as [[summary Hsummary] _].
    destruct (to_book _ _ _ _ Htk) as (a & Hrep & _). destruct (print_top_total cap 5 _ a Hrep) as [top Htop].
    unfold main_finish. rewrite Htop. cbn [mbind option_bind]. rewrite Hsummary. cbn [mbind option_bind data_file].
    rewrite String.eqb_refl, Happ. cbn [mbind option_bind]. eexists _, row. split; [done|].
    by rewrite length_fmap, Hl, Hlen in Hrec.
Qed.

(** Three orders through a ring of four slots, on a machine without [git]. *)
Definition demo_env : Env := mkEnv true true (mkTm 126 0 2 3 4 5) None.

Lemma demo_env_ok : env_ok demo_env.
Proof. by split. Qed.

Lemma demo_rng_ok : rng_ok (λ _, demo_draws) 3.
Proof. split; [done|]. repeat constructor; cbn; lia. Qed.

Lemma hft_lob_end_to_end_witness :
  ∃ s lines row, main_reach 4 8 (mkOrder 0 Buy 0 0 0) (generate_synthetic demo_draws 10000) s ∧
    mn_pc s = EStopped ∧
    main_finish (mkMainOpts "" 3 false) demo_env (mn_tick s) None
      = Some (lines, Some (unlines [csv_header] ++ unlines [row])%string) ∧
    recorded demo_env "synthetic" 3 (tk_hist (mn_tick s)) row.
Proof.
  destruct (hft_lob_end_to_end 4 8 (λ _, demo_draws) (λ _, None) 3 (mkOrder 0 Buy 0 0 0) demo_env None
              pow2_capacity_4 ltac:(lia) ltac:(lia) ltac:(unfold kStrategyIds; lia) demo_rng_ok demo_env_ok)
    as (o & evs & Hstart & (s & Hr & Hs) & Hend).
  rewrite main_start_count in Hstart by word_lia. injection Hstart as <- <-.
  destruct (Hend s Hr Hs) as (lines & row & Hf & Hrec). exists s, lines, row. done.
Defined.

(** ** Publisher to subscriber *)

Lemma publisher_count rng fs sock N :
  is_u64 N → 0 ≤ sock →
  publisher_main rng fs sock ["--count"; dec N]%string =
    Some (0, Some (mkPubOpts "" N "239.255.0.1" 30001 0, publish_feed (generate_synthetic (rng N) 10000))).
Proof.
  intros HN Hs. unfold publisher_main, pub_args. cbn [parse_args pub_valued String.eqb Ascii.eqb Bool.eqb].
  cbn -[publish_feed]. rewrite stoull_dec by done. cbn -[publish_feed]. by destruct (Z.ltb_spec sock 0); [lia|].
Qed.

(** C23: [feed_publisher --count N] to [engine_subscriber], end to end.  The
    publisher sends [N] orders and the end marker; a subscriber that receives
    some of them, each once and in whatever order, and then the marker, returns 0,
    having appended a row that records exactly the orders that arrived.  The number
    that it prints as dropped is that of the ids leapt over, each time the id is
    larger than the last one plus one.  When the orders arrive as they were sent,
    the orders that are missing are that number and those after the last arrival,
    which are not counted; and it is 0 when everything arrived. *)
Theorem multicast_end_to_end cap rng fs N sock sock' e file evs clocks :
  Z.of_nat cap < 2 ^ 31 → 0 ≤ N < kStrategyIds - 1 → rng_ok rng N → env_ok e → 0 ≤ sock → 0 ≤ sock' →
  arrives evs (generate_synthetic (rng N) 10000) →
  length clocks = S (length evs) → Forall (λ c, is_u64 c.2) clocks →
  (∃ o, publisher_main rng fs sock ["--count"; dec N]%string
        = Some (0, Some (o, publish_feed (generate_synthetic (rng N) 10000)))) ∧
  ∃ lines row s,
    sub_run (zip (RecvDatagram <$> publish_feed evs) clocks) (sub_new cap) = Some (false, s) ∧
    subscriber_main cap sock' 0 0 (zip (RecvDatagram <$> publish_feed evs) clocks) e file []
      = Some (SubReturn 0 (Some (lines, Some (before_row file ++ unlines [row])%string))) ∧
    recorded e "udp_multicast" (Z.of_nat (length evs)) (tk_hist (sb_tick s)) row ∧
    let dropped := skipped 0 (o_id <$> evs) in
    ("Dropped packets (sequence gaps): " ++ dec dropped)%string ∈ lines ∧
    (evs `sublist_of` generate_synthetic (rng N) 10000 →
       N - Z.of_nat (length evs) = dropped + (N - last_id 0 evs)) ∧
    (evs = generate_synthetic (rng N) 10000 → dropped = 0).
Proof.
  intros Hcap HN [Hrl Hrd] He Hsock Hsock' Harr Hcl Hclk.
  split; [eexists; apply publisher_count; [unfold kStrategyIds in *; word_lia|done]|].
  destruct (sub_run_synthetic cap (rng N) 10000 20 evs clocks) as (s & Hrun & Htk & Hdrop); try (done || lia).
  assert (length evs ≤ length (generate_synthetic (rng N) 10000))%nat as Hle by (by apply submseteq_length, NoDup_submseteq; apply Harr).
  destruct (synthetic_feed rng N) as (Hlen & _); [done|done|].
  destruct (append_history_ok e "udp_multicast" cap (2 ^ 41) _ _ file He Htk) as [(row & Happ & Hrec) (ps & Hsum)];
    [rewrite length_fmap; unfold kStrategyIds in *; lia|done|].
  destruct (Hsum "wire-to-book tick latency"%string) as [[summary Hsummary] _]. rewrite length_fmap in Hrec.
  pose proof (skipped_synthetic (rng N) 10000 20 evs Hrd ltac:(lia)) as Hskip.
  eexists _, row, s. cbv zeta. split_and!; [done| |exact Hrec| |intros [-> _]%Hskip; lia|intros Heq; apply Hskip; [by rewrite Heq|done]].
  - unfold subscriber_main, sub_args. cbn [parse_args]. unfold sub_sockets. destruct (Z.ltb_spec sock' 0); [lia|].
    cbn [negb Z.ltb Z.compare]. rewrite Hrun. cbn [mbind option_bind]. unfold sub_finish.
    rewrite Hsummary. cbn [mbind option_bind]. rewrite Happ. cbn [mbind option_bind]. reflexivity.
  - rewrite Hdrop. do 2 right. left.
Qed.

(** The second of three orders is lost. *)
Lemma multicast_end_to_end_witness :
  ∃ lines row h,
    subscriber_main 8 3 0 0 (zip (RecvDatagram <$> publish_feed (delete 1%nat (generate_synthetic demo_draws 10000)))
                               [(5, 1); (6, 2); (7, 3)]) demo_env None []
      = Some (SubReturn 0 (Some (lines, Some (unlines [csv_header] ++ unlines [row])%string))) ∧
    recorded demo_env "udp_multicast" 2 h row ∧ "Dropped packets (sequence gaps): 1"%string ∈ lines.
Proof.
  destruct (multicast_end_to_end 8 (λ _, demo_draws) (λ _, None) 3 3 3 demo_env None
              (delete 1%nat (generate_synthetic demo_draws 10000)) [(5, 1); (6, 2); (7, 3)]
              ltac:(lia) ltac:(unfold kStrategyIds; lia) demo_rng_ok demo_env_ok ltac:(lia) ltac:(lia))
    as (_ & lines & row & s & _ & Hrun & Hrec & Hin & _).
  - apply (sublist_arrives demo_draws 10000 20); [repeat constructor; cbn; lia|cbn; unfold kStrategyIds; lia|apply sublist_delete].
  - reflexivity.
  - repeat constructor; cbn; lia.
  - exists lines, row, (tk_hist (sb_tick s)). split; [exact Hrun|]. split; [exact Hrec|]. exact Hin.
Defined.
