(* ===== verification/Supervisor.v ===== *)
(** * Supervisor: the restart policy

    Models [src/supervisor.cpp].  The operating system is the environment: each
    [fork] yields a pid or fails, and each [waitpid(-1, ...)] yields a child and
    its status or fails.  [Action] records what the supervisor does to the
    world, in order; printing is left out.  A child is its argument vector: the
    supervisor's own code in the child only builds it and calls [execv], and when
    that fails exits with 127. *)

From stdpp Require Import relations strings.
From S2P Require Import Prelude Types Protocol Histogram Results Feed Pipeline Programs.

#[local] Open Scope Z_scope.

Definition kMaxRestarts : Z := 5.

(** [WIFEXITED] with its code, or [WIFSIGNALED] with its signal. *)
Inductive Status := Exited (code : Z) | Signaled (sig : Z).

#[export] Instance Status_eq_dec : EqDecision Status.
Proof. solve_decision. Defined.

Inductive WaitResult := WaitError | WaitChild (pid : Z) (st : Status).

(** [Spawn pid argv]: the child [pid] has called [execv] with [argv]. *)
Inductive Action := Spawn (pid : Z) (argv : list string) | Sleep (ms : Z).

#[export] Instance Action_eq_dec : EqDecision Action.
Proof. solve_decision. Defined.

Record Supervisor := mkSup {
  subscriber_pid : Z;
  publisher_pid : Z;
  subscriber_restarts : Z;
  publisher_done : bool;
  sup_log : list Action
}.

(** How an iteration of [while(true)] ends; [ExitFailure] is [std::exit(1)] in
    [spawn]. *)
Inductive Outcome := Continue (s : Supervisor) | Break (s : Supervisor) | ExitFailure.

Definition crashed (st : Status) : bool := match st with Signaled _ => true | Exited _ => false end.
Definition exit_code (st : Status) : Z := match st with Exited c => c | Signaled _ => -1 end.

(** [spawn]: the vector the child passes to [execv]. *)
Definition child_argv (path : string) (args : list string) : list string := path :: args.

Definition build_dir (argv : list string) : string :=
  match argv with _ :: dir :: _ => dir | _ => "./build" end.
Definition subscriber_argv (argv : list string) : list string :=
  child_argv (build_dir argv ++ "/engine_subscriber") [].
Definition publisher_argv (argv : list string) : list string :=
  child_argv (build_dir argv ++ "/feed_publisher") ["--count"; "200000"].

(** [main] up to the loop; [f1] and [f2] are what the two forks return. *)
Definition sup_launch (argv : list string) (f1 f2 : option Z) : option Supervisor :=
  p1 ← f1;
  p2 ← f2;
  Some (mkSup p1 p2 0 false [Spawn p1 (subscriber_argv argv); Sleep 300; Spawn p2 (publisher_argv argv)]).

(** The body of the loop; [fork] is what the fork of a restart returns. *)
Definition sup_body (argv : list string) (w : WaitResult) (fork : option Z) (s : Supervisor) : Outcome :=
  match w with
  | WaitError => Break s
  | WaitChild exited status =>
      if exited =? publisher_pid s then
        Continue (mkSup (subscriber_pid s) (publisher_pid s) (subscriber_restarts s) true (sup_log s))
      else if exited =? subscriber_pid s then
        if negb (crashed status) && (exit_code status =? 0) then Break s
        else if kMaxRestarts <=? subscriber_restarts s then Break s
        else
          let restarts := subscriber_restarts s + 1 in
          match fork with
          | None => ExitFailure
          | Some pid =>
              Continue (mkSup pid (publisher_pid s) restarts (publisher_done s)
                          (sup_log s ++ [Sleep (500 * restarts); Spawn pid (subscriber_argv argv)]))
          end
      else Continue s
  end.

(** ** The supervisor and its children *)

Section World.
(** The supervisor's own arguments. *)
Context (argv : list string).

Record World := mkWorld { w_sup : Supervisor; w_alive : gset Z }.

(** [waitpid] returns a child that has ended and forgets it, or fails; it cannot
    succeed without children. *)
Inductive waited (alive : gset Z) : WaitResult → gset Z → Prop :=
| waited_child pid st : pid ∈ alive → waited alive (WaitChild pid st) (alive ∖ {[pid]})
| waited_error : waited alive WaitError alive.

(** One more time round the loop.  A fork yields a pid that no living child
    has; the pid of a dead one may come back. *)
Inductive sup_step : World → World → Prop :=
| sup_step_wait s alive w alive' fork s' :
    waited alive w alive' → (∀ p, fork = Some p → p ∉ alive') →
    sup_body argv w fork s = Continue s' →
    sup_step (mkWorld s alive)
      (mkWorld s' (if decide (sup_log s' = sup_log s) then alive'
                   else alive' ∪ {[subscriber_pid s']})).

(** The back-off of the [n]-th restart, and of all of them. *)
Definition backoffs (n : Z) : list Z := (λ i, 500 * (Z.of_nat i + 1)) <$> seq 0 (Z.to_nat n).

Definition sleeps (l : list Action) : list Z :=
  omap (λ a, match a with Sleep ms => Some ms | Spawn _ _ => None end) l.

(** The programs started, in order. *)
Definition started (l : list Action) : list (list string) :=
  omap (λ a, match a with Spawn _ v => Some v | Sleep _ => None end) l.

Record sup_inv (w : World) : Prop := {
  si_restarts : 0 ≤ subscriber_restarts (w_sup w) ≤ kMaxRestarts;
  si_sleeps : sleeps (sup_log (w_sup w)) = 300 :: backoffs (subscriber_restarts (w_sup w));
  si_started : started (sup_log (w_sup w)) =
    subscriber_argv argv :: publisher_argv argv ::
      replicate (Z.to_nat (subscriber_restarts (w_sup w))) (subscriber_argv argv)
}.

(** What is left to wait for: living children and restarts. *)
Definition sup_measure (w : World) : Z :=
  Z.of_nat (size (w_alive w)) + (kMaxRestarts - subscriber_restarts (w_sup w)).

Lemma backoffs_succ n : 0 ≤ n → backoffs (n + 1) = backoffs n ++ [500 * (n + 1)].
Proof.
  intros Hn. unfold backoffs. replace (Z.to_nat (n + 1)) with (S (Z.to_nat n)) by lia.
  rewrite seq_S, fmap_app. cbn. by rewrite Z2Nat.id.
Qed.

Lemma sup_step_ok w w' :
  sup_step w w' → sup_inv w → sup_inv w' ∧ sup_measure w' = sup_measure w - 1.
Proof.
  intros Hstep [Hr Hs Hst]. destruct Hstep as [s alive wr alive' fork s' Hw Hfork Hbody]. cbn in *.
  destruct wr as [|pid st]; [done|]. inversion Hw as [? ? Hpid|]; subst. cbn in Hbody.
  assert (Z.of_nat (size (alive ∖ {[pid]})) = Z.of_nat (size alive) - 1) as Hsz.
  { rewrite size_difference, size_singleton by set_solver.
    assert (size alive ≠ 0)%nat by (apply size_non_empty_iff; set_solver). lia. }
  unfold sup_measure. cbn.
  destruct (pid =? publisher_pid s).
  { injection Hbody as <-. rewrite decide_True by done. cbn. split; [by split|lia]. }
  destruct (pid =? subscriber_pid s); [|].
  2: { injection Hbody as <-. rewrite decide_True by done. split; [by split|lia]. }
  destruct (negb (crashed st) && _); [done|].
  destruct (Z.leb_spec kMaxRestarts (subscriber_restarts s)); [done|].
  destruct fork as [p|]; [|done]. injection Hbody as <-. cbn.
  rewrite decide_False by (intros Heq%(f_equal length); rewrite length_app in Heq; cbn in Heq; lia).
  split.
  - split; cbn; [lia| |].
    + unfold sleeps in *. rewrite omap_app, Hs, backoffs_succ by lia. done.
    + unfold started in *. rewrite omap_app, Hst. cbn.
      replace (Z.to_nat (subscriber_restarts s + 1)) with (Z.to_nat (subscriber_restarts s) + 1)%nat by lia.
      by rewrite replicate_add.
  - rewrite size_union, size_singleton by (specialize (Hfork p eq_refl); set_solver). lia.
Qed.

Lemma sup_steps_ok n : ∀ w w',
  nsteps sup_step n w w' → sup_inv w → sup_inv w' ∧ sup_measure w' = sup_measure w - Z.of_nat n.
Proof.
  induction n as [|n IH]; intros w w' Hn Hinv.
  - inversion Hn; subst. split; [done|lia].
  - inversion Hn as [|? ? w1 ? Hs Hn']; subst.
    destruct (sup_step_ok _ _ Hs Hinv) as [Hinv1 Hm1]. destruct (IH _ _ Hn' Hinv1) as [Hinv' Hm]. split; [done|lia].
Qed.

Lemma sup_launch_inv p1 p2 s :
  sup_launch argv (Some p1) (Some p2) = Some s → p1 ≠ p2 → sup_inv (mkWorld s {[p1; p2]}) ∧
  sup_measure (mkWorld s {[p1; p2]}) = 7.
Proof.
  intros [= <-] Hne. split; [by split|]. unfold sup_measure. cbn.
  rewrite size_union, !size_singleton by set_solver. done.
Qed.

(** C30: The supervisor terminates and restarts with bounded, linear back-off.
    From the launch of both processes, and whatever the children do, the loop
    goes round at most seven times; by then the subscriber has been launched at
    most six times, always with the same arguments and after pauses of exactly
    500, 1000, ... ms, and the publisher once.  A subscriber
    that finishes cleanly ends the loop without a restart, and a child that ends
    is the only way to go round. *)
Theorem supervisor_terminates p1 p2 s n w :
  sup_launch argv (Some p1) (Some p2) = Some s → p1 ≠ p2 →
  nsteps sup_step n (mkWorld s {[p1; p2]}) w →
  (n ≤ 7)%nat ∧ subscriber_restarts (w_sup w) ≤ kMaxRestarts ∧
  sleeps (sup_log (w_sup w)) = 300 :: backoffs (subscriber_restarts (w_sup w)) ∧
  started (sup_log (w_sup w)) =
    subscriber_argv argv :: publisher_argv argv ::
      replicate (Z.to_nat (subscriber_restarts (w_sup w))) (subscriber_argv argv) ∧
  (∀ fork, subscriber_pid (w_sup w) ≠ publisher_pid (w_sup w) →
     sup_body argv (WaitChild (subscriber_pid (w_sup w)) (Exited 0)) fork (w_sup w) = Break (w_sup w)).
Proof.
  intros Hl Hne Hn. destruct (sup_launch_inv _ _ _ Hl Hne) as [Hinv Hm].
  destruct (sup_steps_ok n _ _ Hn Hinv) as [[Hr Hs Hst] Hm']. rewrite Hm in Hm'.
  assert (0 ≤ sup_measure w) by (unfold sup_measure; lia).
  split_and!; [lia|lia|done|done|]. intros fork Hp. unfold sup_body.
  by rewrite (proj2 (Z.eqb_neq _ _) Hp), Z.eqb_refl.
Qed.

End World.

(** The subscriber (pid 10) crashes once and is restarted as pid 12. *)
Definition demo_argv : list string := ["supervisor"; "/opt/hft"].
Definition demo_log : list Action :=
  [Spawn 10 ["/opt/hft/engine_subscriber"]; Sleep 300; Spawn 11 ["/opt/hft/feed_publisher"; "--count"; "200000"]].
Definition demo_sup : Supervisor := mkSup 10 11 0 false demo_log.
Definition demo_sup' : Supervisor :=
  mkSup 12 11 1 false (demo_log ++ [Sleep 500; Spawn 12 ["/opt/hft/engine_subscriber"]]).

Lemma demo_sup_step :
  sup_step demo_argv (mkWorld demo_sup {[10; 11]}) (mkWorld demo_sup' (({[10; 11]} ∖ {[10]}) ∪ {[12]})).
Proof.
  apply (sup_step_wait demo_argv demo_sup _ (WaitChild 10 (Signaled 11)) _ (Some 12) demo_sup'); [| |done].
  - apply waited_child. set_solver.
  - intros p [= <-]. set_solver.
Qed.

Lemma supervisor_terminates_witness :
  sleeps (sup_log demo_sup') = [300; 500] ∧ length (started (sup_log demo_sup')) = 3%nat.
Proof.
  destruct (supervisor_terminates demo_argv 10 11 demo_sup 1 (mkWorld demo_sup' (({[10; 11]} ∖ {[10]}) ∪ {[12]})))
    as (_ & _ & Hs & Hst & _); [reflexivity|lia|eapply nsteps_l; [exact demo_sup_step|apply nsteps_O]|].
  split; [exact Hs|exact (f_equal length Hst)].
Defined.

(** ** The children and the feed

    The supervisor together with the two programs that it runs ([Programs]).  The
    publisher sends its datagrams to whoever listens, and ends; the subscriber ends
    by itself when its [main] returns on the datagrams that have reached it since it
    was started.  Any of them may be lost, and any child may be killed. *)

Section Family.
Context (argv : list string).
(** The subscriber's pool, what its socket calls return, and what it meets when it
    writes its report. *)
Context (kPoolCapacity : nat) (sock bound joined : Z) (e : Env) (file : option string).

Record Family := mkFamily {
  fa_world : World;
  fa_unsent : list bytes;    (* what the publisher has still to send *)
  fa_heard : list bytes      (* what has reached the present subscriber *)
}.

(** The subscriber's [main], with some readings of its clock, on what it has heard. *)
Definition subscriber_returns (heard : list bytes) (code : Z) : Prop :=
  ∃ clocks report, length clocks = length heard ∧
    subscriber_main kPoolCapacity sock bound joined (zip (RecvDatagram <$> heard) clocks) e file
      (tail (subscriber_argv argv)) = Some (SubReturn code report).

(** How a child can end: killed, or by itself. *)
Definition can_end (f : Family) (pid : Z) (st : Status) : Prop :=
  pid ∈ w_alive (fa_world f) ∧
  match st with
  | Signaled _ => True
  | Exited code =>
      (pid = publisher_pid (w_sup (fa_world f)) ∧ fa_unsent f = [] ∧ code = 0) ∨
      (pid = subscriber_pid (w_sup (fa_world f)) ∧ subscriber_returns (fa_heard f) code)
  end.

(** A datagram is sent, and arrives or does not; or a child ends and the
    supervisor goes round its loop. *)
Inductive family_step : Family → Family → Prop :=
| family_send s alive d ds heard (arrives : bool) :
    publisher_pid s ∈ alive →
    family_step (mkFamily (mkWorld s alive) (d :: ds) heard)
      (mkFamily (mkWorld s alive) ds (if arrives then heard ++ [d] else heard))
| family_ends s alive unsent heard pid st fork s' :
    can_end (mkFamily (mkWorld s alive) unsent heard) pid st →
    (∀ p, fork = Some p → p ∉ alive ∖ {[pid]}) →
    sup_body argv (WaitChild pid st) fork s = Continue s' →
    let restarted := negb (bool_decide (sup_log s' = sup_log s)) in
    family_step (mkFamily (mkWorld s alive) unsent heard)
      (mkFamily (mkWorld s' (if restarted then alive ∖ {[pid]} ∪ {[subscriber_pid s']} else alive ∖ {[pid]}))
         unsent (if restarted then [] else heard)).

(** The publisher can send everything, to nobody. *)
Lemma family_sends s alive heard : publisher_pid s ∈ alive → ∀ ds,
  rtc family_step (mkFamily (mkWorld s alive) ds heard) (mkFamily (mkWorld s alive) [] heard).
Proof.
  intros Hp ds. induction ds as [|d ds IH]; [apply rtc_refl|]. eapply rtc_l; [by apply (family_send _ _ _ _ _ false)|done].
Qed.

(** A subscriber whose sockets are up and that has heard nothing waits. *)
Lemma subscriber_waits : sub_sockets sock bound joined = true →
  subscriber_main kPoolCapacity sock bound joined [] e file (tail (subscriber_argv argv))
    = Some (SubWaiting (sub_new kPoolCapacity)).
Proof. intros Hs. unfold subscriber_main, subscriber_argv, child_argv, sub_args. cbn. by rewrite Hs. Qed.

(** Nothing more happens by itself once the publisher is gone and the subscriber
    has heard nothing. *)
Lemma family_stuck f pid st :
  sub_sockets sock bound joined = true → publisher_pid (w_sup (fa_world f)) ∉ w_alive (fa_world f) →
  fa_heard f = [] → can_end f pid st → ∃ sig, st = Signaled sig.
Proof.
  intros Hs Hp Hh [Ha Hst]. destruct st as [code|sig]; [|by exists sig]. exfalso.
  destruct Hst as [(-> & _ & _)|(_ & clocks & report & Hlen & Hr)]; [done|]. rewrite Hh in Hlen, Hr.
  destruct clocks; [|done]. cbn [fmap list_fmap zip zip_with] in Hr. by rewrite subscriber_waits in Hr.
Qed.

End Family.

(** C38: The supervisor can wait for ever.  The subscriber crashes after the
    publisher has sent its feed and its one end marker and has finished; it is
    restarted all the same ([publisher_done] is set and never read).  The new one
    gets its sockets up and waits in [recv], which has no timeout: its [main] does
    not return, no datagram will be sent any more, and so, of the ways in which a
    child can end, being killed is the only one left; until then [waitpid]
    blocks. *)
Theorem supervisor_restart_hangs cap sock bound joined e file rng fs pub_sock :
  sub_sockets sock bound joined = true → 0 ≤ pub_sock →
  ∃ s o ds f,
    sup_launch demo_argv (Some 10) (Some 11) = Some s ∧
    publisher_main rng fs pub_sock (tail (publisher_argv demo_argv)) = Some (0, Some (o, ds)) ∧
    last ds = Some (wire_encode end_marker) ∧
    rtc (family_step demo_argv cap sock bound joined e file) (mkFamily (mkWorld s {[10; 11]}) ds []) f ∧
    publisher_done (w_sup (fa_world f)) = true ∧ subscriber_restarts (w_sup (fa_world f)) = 1 ∧
    w_alive (fa_world f) = {[subscriber_pid (w_sup (fa_world f))]} ∧ fa_unsent f = [] ∧
    subscriber_main cap sock bound joined (zip (RecvDatagram <$> fa_heard f) []) e file []
      = Some (SubWaiting (sub_new cap)) ∧
    ∀ pid st, can_end demo_argv cap sock bound joined e file f pid st → ∃ sig, st = Signaled sig.
Proof.
  intros Hs Hp. exists demo_sup, (mkPubOpts "" 200000 "239.255.0.1" 30001 0), (publish_feed (generate_synthetic (rng 200000) 10000)).
  set (done := mkSup 10 11 0 true demo_log).
  set (again := mkSup 12 11 1 true (demo_log ++ [Sleep 500; Spawn 12 ["/opt/hft/engine_subscriber"]])).
  exists (mkFamily (mkWorld again ({[10; 11]} ∖ {[11]} ∖ {[10]} ∪ {[12]})) [] []).
  split_and!; try reflexivity.
  - exact (publisher_count rng fs pub_sock 200000 ltac:(word_lia) Hp).
  - unfold publish_feed. apply last_snoc.
  - etrans; [apply family_sends; cbn; set_solver|].
    eapply rtc_l; [apply (family_ends _ _ _ _ _ _ _ demo_sup _ [] [] 11 (Exited 0) None done)|].
    + split; [cbn; set_solver|]. left. done.
    + done.
    + done.
    + cbn [negb]. rewrite (bool_decide_eq_true_2 (sup_log done = sup_log demo_sup)) by done. cbn [negb].
      eapply rtc_once, (family_ends _ _ _ _ _ _ _ done _ [] [] 10 (Signaled 11) (Some 12) again).
      * split; [cbn; set_solver|done].
      * intros p [= <-]. set_solver.
      * done.
  - cbn [fa_heard fmap list_fmap zip zip_with]. by apply subscriber_waits with (argv := demo_argv).
  - intros pid st. apply family_stuck; [done|cbn; set_solver|done].
Qed.

(** Three good sockets, a directory that can be written, and the feed of [Pipeline]. *)
Lemma supervisor_restart_hangs_witness :
  ∃ s f, sup_launch demo_argv (Some 10) (Some 11) = Some s ∧
    publisher_done (w_sup (fa_world f)) = true ∧
    ∀ pid st, can_end demo_argv 8 3 0 0 demo_env None f pid st → ∃ sig, st = Signaled sig.
Proof.
  destruct (supervisor_restart_hangs 8 3 0 0 demo_env None (λ _, demo_draws) (λ _, None) 4 eq_refl ltac:(lia))
    as (s & o & ds & f & H1 & _ & _ & _ & H2 & _ & _ & _ & _ & H3).
  exists s, f. split; [exact H1|]. split; [exact H2|exact H3].
Defined.
