(* ===== verification/Conformance.v ===== *)
(** * Conformance: the repository's unit tests, run on the model

    The programs under [tests/] assert what the components do on concrete inputs.
    Here each of their test functions is a computation on the definitions that
    model the component, with the same calls in the same order and an [assert]
    wherever the test has one; it yields [None] at a call with undefined behaviour
    and at an assertion that fails.  Sleeping is a later clock reading; the queue
    of acks is the list of what was pushed. *)

From S2P Require Import Prelude Types OrderBook BroadcastRing MatchingEngine Protocol Session Wal WalCrash Db.

#[local] Open Scope Z_scope.

Definition assert (b : bool) : option unit := if b then Some tt else None.

Definition passes (t : option unit) : bool := match t with Some _ => true | None => false end.

(** ** tests/test_broadcast_ring.cpp *)

Module RingTests.
Abbreviation Ring := (BroadcastRing Z).
Definition new : Ring := bcast_new 8 8 0.

(** [assert(ring.try_publish(i))] for each [i]. *)
Fixpoint publish_all (items : list Z) (r : Ring) : option Ring :=
  match items with
  | [] => Some r
  | x :: items => '(ok, r) ← try_publish 8 x r; assert ok;; publish_all items r
  end.

(** [assert(ring.try_consume(c, out)); assert(out == x)] for each [x]. *)
Fixpoint consume_all_of (c : Z) (items : list Z) (r : Ring) : option Ring :=
  match items with
  | [] => Some r
  | x :: items => '(out, r) ← try_consume 8 c r; assert (bool_decide (out = Some x));; consume_all_of c items r
  end.

Definition consume_none (c : Z) (r : Ring) : option Ring :=
  '(out, r) ← try_consume 8 c r; assert (bool_decide (out = None));; Some r.

Definition publish_fails (x : Z) (r : Ring) : option Ring :=
  '(ok, r) ← try_publish 8 x r; assert (negb ok);; Some r.

Definition test_single_consumer_basic_pub_sub : option unit :=
  let '(c, ring) := register_consumer new in
  assert (c =? 0);;
  ring ← publish_all [0; 1; 2; 3; 4] ring;
  ring ← consume_all_of c [0; 1; 2; 3; 4] ring;
  _ ← consume_none c ring;
  Some tt.

Definition test_multi_consumer_independent_cursors : option unit :=
  let '(a, ring) := register_consumer new in
  let '(b, ring) := register_consumer ring in
  ring ← publish_all [0; 1; 2; 3] ring;
  ring ← consume_all_of a [0; 1; 2; 3] ring;
  ring ← consume_none a ring;
  _ ← consume_all_of b [0; 1; 2; 3] ring;
  Some tt.

Definition test_lapping_detection_blocks_publish : option unit :=
  let '(fast, ring) := register_consumer new in
  let '(slow, ring) := register_consumer ring in
  ring ← publish_all [0; 1; 2; 3; 4; 5; 6; 7] ring;
  ring ← consume_all_of fast [0; 1; 2; 3; 4; 5; 6; 7] ring;
  ring ← publish_fails 999 ring;
  ring ← consume_all_of slow [0; 1; 2] ring;
  ring ← publish_all [100; 101; 102] ring;
  _ ← publish_fails 103 ring;
  Some tt.

Definition test_register_consumer_ids_monotonic : option unit :=
  let '(a, ring) := register_consumer new in
  let '(b, ring) := register_consumer ring in
  let '(c, _) := register_consumer ring in
  assert ((a =? 0) && (b =? 1) && (c =? 2)).

Fixpoint publish_and_consume (a : Z) (items : list Z) (r : Ring) : option Ring :=
  match items with
  | [] => Some r
  | x :: items => r ← publish_all [x] r; r ← consume_all_of a [x] r; publish_and_consume a items r
  end.

Definition test_late_registration_can_see_stale_data : option unit :=
  let '(a, ring) := register_consumer new in
  ring ← publish_and_consume a [0; 1; 2; 3; 4; 5; 6; 7; 8] ring;
  let '(b, ring) := register_consumer ring in
  _ ← consume_all_of b [8] ring;
  Some tt.

Definition all : list (option unit) :=
  [test_single_consumer_basic_pub_sub; test_multi_consumer_independent_cursors;
   test_lapping_detection_blocks_publish; test_register_consumer_ids_monotonic;
   test_late_registration_can_see_stale_data].
End RingTests.

(** ** tests/test_frame_reader.cpp *)

Module FrameTests.
Definition make_logon_frame (seq_num client_id : Z) : bytes :=
  encode_header (mkHeader (Z.of_nat sizeof_LogonMsg) (msg_type_code MtLogon) seq_num) ++
  encode_logon (mkLogon client_id 1000 1).

Definition has_size (n : nat) (f : option bytes) : bool :=
  match f with Some f => (length f =? n)%nat | None => false end.
Definition no_frame (f : option bytes) : bool := match f with None => true | Some _ => false end.

Definition test_single_complete_frame : option unit :=
  let frame := make_logon_frame 1 42 in
  let '(result, reader) := next_frame (feed frame []) in
  assert (has_size (length frame) result);;
  assert (no_frame (next_frame reader).1).

Definition test_frame_split_across_feeds : option unit :=
  let frame := make_logon_frame 1 42 in
  let '(f, reader) := next_frame (feed (take 1 frame) []) in
  assert (no_frame f);;
  let '(f, reader) := next_frame (feed (take 2 (drop 1 frame)) reader) in
  assert (no_frame f);;
  assert (has_size (length frame) (next_frame (feed (drop 3 frame) reader)).1).

Definition test_multiple_frames_in_one_feed : option unit :=
  let f1 := make_logon_frame 1 42 in
  let f2 := make_logon_frame 2 43 in
  let '(r1, reader) := next_frame (feed (f1 ++ f2) []) in
  let '(r2, reader) := next_frame reader in
  assert (has_size (length f1) r1);;
  assert (has_size (length f2) r2);;
  assert (no_frame (next_frame reader).1).

Definition test_partial_frame_plus_next_frame_split : option unit :=
  let f1 := make_logon_frame 1 42 in
  let f2 := make_logon_frame 2 43 in
  let '(r1, reader) := next_frame (feed (f1 ++ take 3 f2) []) in
  assert (has_size (length f1) r1);;
  let '(r, reader) := next_frame reader in
  assert (no_frame r);;
  assert (has_size (length f2) (next_frame (feed (drop 3 f2) reader)).1).

Definition test_empty_feed : option unit := assert (no_frame (next_frame (feed [] [])).1).

(** Chunks of 1 to 7 bytes; [sizes] stands for [rand()]. *)
Fixpoint chunked (fuel : nat) (sizes : nat → nat) (stream : bytes) : list bytes :=
  match fuel, stream with
  | S fuel, _ :: _ => let n := S (sizes fuel `mod` 7) in take n stream :: chunked fuel sizes (drop n stream)
  | _, _ => []
  end.

Definition test_fuzz_random_chunking (sizes : nat → nat) : option unit :=
  let original_frames := (λ i, make_logon_frame (Z.of_nat i) (1000 + Z.of_nat i)) <$> seq 0 200 in
  let stream := concat original_frames in
  assert (bool_decide ((feed_chunks (chunked (length stream) sizes stream) []).1 = original_frames)).

Definition all : list (option unit) :=
  [test_single_complete_frame; test_frame_split_across_feeds; test_multiple_frames_in_one_feed;
   test_partial_frame_plus_next_frame_split; test_empty_feed; test_fuzz_random_chunking (λ i, i * 5 + i / 3)%nat].
End FrameTests.

(** ** tests/test_session_state.cpp *)

Module SessionTests.
Definition is_status (st : SessionStatus) (s : SessionState) : bool := bool_decide (status_ s = st).
Definition logged_on (hb_ms : Z) : SessionState := (handle_logon 0 1 hb_ms 0 session_new).2.

(** [assert(session.track_inbound_seq(q) == std::nullopt)] for each [q]. *)
Fixpoint no_gaps (seqs : list Z) (s : SessionState) : option SessionState :=
  match seqs with
  | [] => Some s
  | q :: seqs => let '(g, s) := track_inbound_seq 0 q s in assert (bool_decide (g = None));; no_gaps seqs s
  end.

Definition test_logon_transitions_status : option unit :=
  assert (is_status AwaitingLogon session_new);;
  let '(accepted, session) := handle_logon 0 1 1000 0 session_new in
  assert (accepted && is_status LoggedOn session).

Definition test_double_logon_rejected : option unit :=
  let '(second_attempt, session) := handle_logon 0 1 1000 0 (logged_on 1000) in
  assert (negb second_attempt && is_status LoggedOn session).

Definition test_in_order_seq_no_gap : option unit := _ ← no_gaps [1; 2; 3] (logged_on 1000); Some tt.

Definition test_seq_gap_detected : option unit :=
  session ← no_gaps [1] (logged_on 1000);
  assert (bool_decide ((track_inbound_seq 0 5 session).1 = Some (2, 4))).

Definition test_duplicate_seq_ignored : option unit :=
  _ ← no_gaps [1; 2; 1; 3] (logged_on 1000); Some tt.

Definition test_heartbeat_timing : option unit :=
  let session := mark_outbound_activity 0 (logged_on 50) in
  assert (negb (should_send_heartbeat 0 session) && should_send_heartbeat (60 * ns_per_ms) session).

Definition test_peer_dead_detection : option unit :=
  let session := logged_on 50 in
  assert (negb (is_peer_dead 0 session) && is_peer_dead (120 * ns_per_ms) session).

Definition all : list (option unit) :=
  [test_logon_transitions_status; test_double_logon_rejected; test_in_order_seq_no_gap; test_seq_gap_detected;
   test_duplicate_seq_ignored; test_heartbeat_timing; test_peer_dead_detection].
End SessionTests.

(** ** tests/test_matching_engine_consumer.cpp *)

Module MatcherTests.
Abbreviation Harness := (Engine (list OutboundAck)).
Definition harness : Harness := engine_new 1024 [].

Definition make_new_order (seq_num session_id client_order_id : Z) (side : Side) (price qty : Z) : SequencedEvent :=
  mkEvent seq_num 0 seq_num EvNewOrder Gateway session_id client_order_id side price qty.
Definition make_cancel (seq_num session_id client_order_id : Z) : SequencedEvent :=
  mkEvent seq_num 0 seq_num EvCancelOrder Gateway session_id client_order_id Buy 0 0.

(** [acks->pop(ack)]. *)
Definition pop_ack (h : Harness) : option (option OutboundAck * Harness) :=
  match out_ h with
  | [] => Some (None, h)
  | a :: acks => Some (Some a, mkEngine (book_ h) (by_client_ h) (resting_ h) (trades_ h) acks)
  end.

(** [assert(acks->pop(ack))], and what is asserted of [ack]. *)
Definition expect (p : OutboundAck → bool) (h : Harness) : option Harness :=
  '(a, h) ← pop_ack h;
  a ← a;
  assert (p a);; Some h.
Definition discard : Harness → option Harness := expect (λ _, true).
Definition expect_none (h : Harness) : option Harness :=
  '(a, h) ← pop_ack h; assert (bool_decide (a = None));; Some h.
Definition expect_resting (n : nat) (h : Harness) : option unit := assert (engine_resting_orders h =? n)%nat.

Definition has_status (st : ExecStatus) (a : OutboundAck) : bool := bool_decide (a_status a = st).

Definition test_new_order_rests_when_no_match : option unit :=
  h ← apply (make_new_order 1 1 100 Buy 100 10) harness;
  h ← expect (λ a, (a_session a =? 1) && (a_client_order_id a =? 100) && (a_exchange_order_id a =? 1) &&
                   has_status Accepted a && (a_fill_quantity a =? 0) && (a_leaves_quantity a =? 10)) h;
  h ← expect_none h;
  expect_resting 1 h.

Definition test_matching_new_order_produces_two_acks_to_different_sessions : option unit :=
  h ← apply (make_new_order 1 1 1 Buy 100 10) harness;
  h ← discard h;
  h ← apply (make_new_order 2 2 1 Sell 100 10) h;
  h ← expect (λ a, (a_session a =? 1) && (a_client_order_id a =? 1) && (a_exchange_order_id a =? 1) &&
                   has_status Filled a && (a_fill_price a =? 100) && (a_fill_quantity a =? 10) && (a_leaves_quantity a =? 0)) h;
  h ← expect (λ a, (a_session a =? 2) && (a_client_order_id a =? 1) && (a_exchange_order_id a =? 2) &&
                   has_status Filled a && (a_fill_quantity a =? 10) && (a_leaves_quantity a =? 0)) h;
  h ← expect_none h;
  expect_resting 0 h.

Definition test_partial_fill_leaves_resting_with_reduced_qty : option unit :=
  h ← apply (make_new_order 1 1 1 Buy 100 10) harness;
  h ← discard h;
  h ← apply (make_new_order 2 2 1 Sell 100 4) h;
  h ← expect (λ a, (a_session a =? 1) && has_status PartialFill a && (a_fill_quantity a =? 4) && (a_leaves_quantity a =? 6)) h;
  h ← expect (λ a, (a_session a =? 2) && has_status Filled a && (a_fill_quantity a =? 4) && (a_leaves_quantity a =? 0)) h;
  expect_resting 1 h.

Definition test_client_order_id_reuse_across_sessions_isolated : option unit :=
  h ← apply (make_new_order 1 1 1 Buy 100 10) harness;
  h ← apply (make_new_order 2 2 1 Buy 90 5) h;
  h ← discard h;
  h ← discard h;
  expect_resting 2 h;;
  h ← apply (make_cancel 3 1 1) h;
  h ← expect (λ a, (a_session a =? 1) && (a_exchange_order_id a =? 1) && has_status Canceled a) h;
  expect_resting 1 h;;
  h ← apply (make_cancel 4 2 1) h;
  h ← expect (λ a, (a_session a =? 2) && (a_exchange_order_id a =? 2) && has_status Canceled a) h;
  expect_resting 0 h.

Definition test_cancel_resolves_via_session_and_client_id : option unit :=
  h ← apply (make_new_order 1 7 42 Sell 200 3) harness;
  h ← discard h;
  h ← apply (make_cancel 2 7 42) h;
  h ← expect (λ a, has_status Canceled a && (a_exchange_order_id a =? 1)) h;
  expect_resting 0 h.

Definition test_cancel_unknown_order_rejected : option unit :=
  h ← apply (make_cancel 1 1 999) harness;
  _ ← expect (λ a, has_status Rejected a && (a_exchange_order_id a =? 0)) h;
  Some tt.

Definition test_cancel_does_not_mint_an_order_id : option unit :=
  h ← apply (make_new_order 5 1 1 Buy 100 10) harness;
  h ← discard h;
  h ← apply (make_cancel 6 1 12345) h;
  h ← expect (has_status Rejected) h;
  expect_resting 1 h.

Definition all : list (option unit) :=
  [test_new_order_rests_when_no_match; test_matching_new_order_produces_two_acks_to_different_sessions;
   test_partial_fill_leaves_resting_with_reduced_qty; test_client_order_id_reuse_across_sessions_isolated;
   test_cancel_resolves_via_session_and_client_id; test_cancel_unknown_order_rejected;
   test_cancel_does_not_mint_an_order_id].
End MatcherTests.

(** ** tests/test_wal_consumer.cpp *)

Module WalTests.
(** [SequencedEvent ev{}] leaves [producer] zero. *)
Definition make_event (seq_num : Z) : SequencedEvent :=
  mkEvent seq_num (seq_num * 10) (seq_num * 20) EvNewOrder Gateway 1 (seq_num * 100)
    (if seq_num `mod` 2 =? 0 then Buy else Sell) (seq_num + 1000) (seq_num + 1).

Fixpoint append_each (clock : nat → Z) (evs : list SequencedEvent) (w : Wal) : option Wal :=
  match evs with
  | [] => Some w
  | ev :: evs => w ← Wal.append 2 (1000 * ns_per_ms) clock ev w; append_each clock evs w
  end.

(** [pads] are the padding bytes of the five events in memory. *)
Definition test_append_round_trips_byte_exact (clock : nat → Z) (pads : list Padding) : option unit :=
  let '(ok, wal) := wal_open_file clock true (wal_new []) in
  assert ok;;
  let written := make_event <$> [1; 2; 3; 4; 5] in
  wal ← append_each clock written wal;
  assert (records_written_ wal =? 5);;
  wal ← wal_close 2 (1000 * ns_per_ms) clock wal;
  let file := log_bytes (zip pads (wal_durable wal ++ wal_unsynced wal)) in
  assert (length file =? 5 * sizeof_SequencedEvent)%nat;;
  assert (bool_decide (read_log file = written)).

Definition all : list (option unit) :=
  [test_append_round_trips_byte_exact (λ k, Z.of_nat k) (replicate 5 (mkPadding [1; 2] [3; 4; 5] [6; 7; 8; 9]))].
End WalTests.

(** ** tests/test_db_consumer.cpp *)

Module DbTests.
Definition make_new_order (seq_num session_id client_order_id : Z) : SequencedEvent :=
  mkEvent seq_num 0 (seq_num * 10) EvNewOrder Gateway session_id client_order_id Buy 100 10.

Definition new_file : MemDb := mkMemDb (mkTables [] []) None.

Section Db.
Context (batch_every_n batch_interval : Z) (clock wall : nat → Z).

Fixpoint append_orders (evs : list SequencedEvent) (db : Db MemDb) : option (Db MemDb) :=
  match evs with
  | [] => Some db
  | ev :: evs => db ← append_order batch_every_n batch_interval clock ev db; append_orders evs db
  end.

(** [close], and the committed tables as another connection reads them. *)
Definition close_and_read (db : Db MemDb) : option Tables :=
  '(file, _) ← db_close batch_every_n batch_interval clock db; md_durable <$> file.
End Db.

Definition count {A} (p : A → bool) (rows : list A) : nat := length (filter (λ r, Is_true (p r)) rows).

Definition test_orders_and_execution_reports_persist (clock wall : nat → Z) : option unit :=
  '(ok, db) ← db_open clock (Some new_file) db_new;
  assert ok;;
  db ← append_orders 2 (1000 * ns_per_ms) clock [make_new_order 1 1 100; make_new_order 2 2 100] db;
  db ← append_execution_report 2 (1000 * ns_per_ms) clock wall (mkAck 1 100 1 Accepted 0 0 10) db;
  assert ((orders_written_ db =? 2) && (execs_written_ db =? 1));;
  t ← close_and_read 2 (1000 * ns_per_ms) clock db;
  assert (length (tb_orders t) =? 2)%nat;;
  assert (length (tb_execs t) =? 1)%nat;;
  assert (Nat.eqb (count (λ r, (or_session_id r =? 1) && (or_client_order_id r =? 100)) (tb_orders t)) 1);;
  assert (Nat.eqb (count (λ r, (or_session_id r =? 2) && (or_client_order_id r =? 100)) (tb_orders t)) 1);;
  assert (bool_decide ((λ r, (or_seq_num r, or_price r, or_quantity r)) <$>
                         filter (λ r, or_session_id r = 1) (tb_orders t) = [(1, 100, 10)])).

Definition test_batched_commit_is_visible_after_close (clock : nat → Z) : option unit :=
  '(ok, db) ← db_open clock (Some new_file) db_new;
  assert ok;;
  db ← append_orders 1000 (60000 * ns_per_ms) clock ((λ i, make_new_order i 1 i) <$> [1; 2; 3; 4; 5]) db;
  t ← close_and_read 1000 (60000 * ns_per_ms) clock db;
  assert (length (tb_orders t) =? 5)%nat.

Definition all : list (option unit) :=
  [test_orders_and_execution_reports_persist (λ k, Z.of_nat k) (λ k, Z.of_nat k);
   test_batched_commit_is_visible_after_close (λ k, Z.of_nat k)].
End DbTests.

(** Every test of the six programs passes on the model. *)
Theorem unit_tests_pass :
  Forall (λ t, passes t = true)
    (RingTests.all ++ FrameTests.all ++ SessionTests.all ++ MatcherTests.all ++ WalTests.all ++ DbTests.all).
Proof. by repeat (apply Forall_cons; split; [vm_compute; reflexivity|]). Qed.
